(* ===== verification/_CoqProject ===== *)
-Q . S2P
Prelude.v
Model.v
Uuid.v
Mixins.v
Stage.v
StageFacts.v
Graph.v
GraphFacts.v
GraphGrowth.v
GraphSpec.v
GraphSafety.v
Persistence.v
MemoryRace.v
EventStream.v
SqlProvider.v
GraphActor.v
ActorSpec.v
ActorCommands.v
ActorTheorems.v
ActorSafety.v
Returns.v
Journal.v
EventSourcing.v
Recovery.v
Accounting.v
Progress.v
Replies.v
Validators.v
Scenario.v
Flaws.v
RecoveryScenario.v
ProgressScenario.v
Sharding.v
Cluster.v
ClusterStream.v
Setup.v
Api.v
ApiFacts.v
Strategy.v
Supervisor.v
SupervisorFacts.v
SqlFacts.v
Subscription.v
ApiStream.v
StreamApi.v
Http.v
GatewayRuntime.v
GatewayPatterns.v
Gateway.v
GatewayFacts.v
Prometheus.v
Metrics.v
MetricsFacts.v
Tracing.v
Server.v
ServerFacts.v
GatewayForward.v
Engine.v
StreamServer.v
Startup.v
Assets.v
Blobs.v
HttpApi.v
Executor.v
MessageValidators.v
ExecutorFacts.v
ExecutorPool.v
ServiceScenario.v
