(* ===== verification/Prelude.v ===== *)
(** * Fn Flow: a verification development

    Fn Flow runs graphs of asynchronous computations ("flows") on a functions
    platform. A client creates a flow and adds stages to it: closures that run
    when the stages they depend on have results, delays, function invocations,
    values completed from outside, and termination hooks. The service decides
    when each stage runs, journals every decision, and recovers from the
    journal.

    ** The program

    - src/graph is the core: [CompletionGraph] applies events to a graph of
      stages and calls a listener when a stage has to be executed, completed or
      composed, or when the graph terminates; the listener re-enters the graph.
    - src/actor/graph.go is the actor that owns one graph and is its listener:
      it validates commands, persists an event before applying it, answers
      requests, and talks to the executor.
    - src/persistence gives actors their journal (plugin.go, receiver.go), over
      a provider (in memory, SQL), decorated with an event stream.
    - src/actor/supervisor.go and strategy.go: one supervisor per shard is the
      parent of the actors of the shard's flows and restarts failed ones.
    - src/actor/executor.go performs the HTTP calls; src/blobs keeps user data.
    - src/actor/api.go serves the requests of the node's own shards;
      src/cluster routes requests to the node of the flow's shard
      (src/sharding).
    - src/server is the public side: a gRPC server with interceptors in front of
      the cluster proxy, an HTTP engine with the REST gateway generated into
      src/model/model.pb.gw.go, and the collector that turns tracing spans into
      metrics. src/setup and main.go wire a node from its environment.

    ** Files

    - [Prelude]: Go values; the effect monad [M S A] (state passing, panics,
      fuel), its two program logics [wp] (total correctness) and [keeps]
      (transition relations that survive panics), unspecified map iteration
      order as an oracle ([MapOrder]), shared lemmas and tactics.
    - [Model]: messages, enumerations, events, commands, results, errors and
      mixins of src/model.
    - [Stage], [Graph]: src/graph. Stages live in a store of objects
      ([gr_objects], in order of creation) that [stages] points into, so the
      aliasing of the Go pointers is kept. One definition per handler;
      [UpdateWithEvent] and [ValidateCommand] dispatch as the code does.
    - [StageFacts], [GraphFacts], [GraphGrowth]: strategies, well-formedness of
      graphs, how events change and extend them. [GraphSpec]: specifications of
      all handlers against any listener that meets [ListenerSpec].
      [GraphSafety]: what no handler can undo.
    - [Persistence]: the [ProviderState] interface, its laws
      ([ReliableProvider], [RecoverableProvider]), the mixin, the in-memory
      provider and the streaming decorator with their proofs of the laws.
      [MemoryRace]: the in-memory provider with goroutines that interleave, down
      to single accesses to the fields of an entry.
      [SqlProvider]: the SQL provider over its schema, as another instance of
      the laws; [SqlFacts]: round trip, equivalence with the in-memory provider,
      failures. [EventStream]: the library under the streams. [Subscription]:
      [SubscribeActorJournal] as a transition system. [ApiStream]: the streaming
      methods and the journal queries of api.go. [StreamApi]: subscriptions to
      new events over the event stream.
    - [GraphActor]: src/actor/graph.go. [ActorSpec] shows that the actor is a
      listener as [GraphSpec] requires; [ActorCommands] verifies each command;
      [ActorTheorems], [ActorSafety], [EventSourcing] and [Replies] hold the
      theorems; [Validators] the request validation in front of them, and
      [MessageValidators] the validators of all other messages.
      [Mixins]: src/actor/mixins.go and the middleware that runs its plugins.
    - [Returns]: a logic of what a computation has done when it returns.
      [Journal]: the grammar of the journals that graph actors write, and what
      replaying one gives. [Recovery]: replay and recovery of an actor lost at
      any event, and lives with any number of crashes and restarts.
      [Accounting]: why each unresolved stage is unresolved, kept by every
      command. [Progress]: flows complete.
    - [Supervisor], [SupervisorFacts], [Strategy]: supervision.
    - [Blobs], [Executor], [ExecutorFacts]: user data and execution.
      [ExecutorPool]: the goroutines of the executor as a transition system, made
      of the parts of the handlers before, in and after their HTTP call.
    - [Uuid], [Sharding], [Cluster], [ClusterStream], [Setup], [Api],
      [ApiFacts]: routing of requests, from configuration to supervisor.
      [Startup]: opening of storage, [NewAPIServer], and start of the whole node.
    - [Http]: headers and gin's response writer, with the writes the connection
      refuses. [GatewayRuntime], [GatewayPatterns]: the path patterns and the mux
      of the gateway library, and their correctness against path templates.
      [Gateway], [GatewayFacts]: the request functions and routes of
      model.pb.gw.go. [GatewayForward]: the functions of the routes up to the
      response, for messages, streams and errors.
    - [Prometheus], [Metrics], [MetricsFacts]: the vectors and the registry of the
      Prometheus client, the spans and the collector of src/server. [Tracing]:
      the tracer [setTracer] installs, and the metrics the packages register.
    - [Server], [ServerFacts]: interceptors, engine routes, and the whole path of a
      request from HTTP to the actors of a node. [StreamServer]: the interceptors
      of streams, and the loops that serve. [Engine]: gin's chain of handlers
      with the middleware of the service. [Assets]: src/model/swagger_file.go.
      [HttpApi]: every endpoint of the engine.
    - [Scenario], [RecoveryScenario], [ProgressScenario], [ServiceScenario],
      [Flaws]: concrete flows on which the theorems are instantiated, and runs
      that show defects.

    ** What the theorems show

    - Totality: in every reachable state, whatever arrives, handling it returns
      ([receiveCommand_total]); with the request validation in front, no
      request from outside can make an actor panic, and each is answered once
      ([any_request_is_safe]).
    - Scheduling, in one uninterrupted life of an actor ([reachable]): nothing
      ready is left undone, a closure is sent for execution at most once, hooks run
      in reverse order, results are final, the lifecycle state agrees with the
      stages. A
      committed flow for which nothing is outstanding has completed
      ([committed_flow_completes]).
    - Event sourcing: the graph is a function of the journal, which follows a
      grammar ([journal_determines_graph]); an actor lost at any moment comes
      back from any journal without compositions ([recovery_faithful]), and the
      invariants and totality hold across any number of crashes and restarts over
      such journals ([invariants_across_crashes], [total_across_crashes], late
      answers included); a supervisor recovers the active flows of its
      predecessor.
    - The operations do what they promise: adding, completing, committing,
      supervising, executing, storing and fetching blobs.
    - Routing: shards are partitioned among the nodes, and the node a request is
      sent to is the one that supervises the flow. A REST request finds its method
      ([rest_routing]) and becomes exactly one valid, time-limited request to that
      node, or is refused ([rest_end_to_end], [requests_checked_and_bounded]), and
      what the caller receives is the outcome of that request to the last byte
      ([rest_response_exact]); every HTTP request is answered, and counted unless
      its function panics ([http_requests_answered]); a node that starts is wired as
      its environment says ([startup_wiring]).
    - Execution: however its goroutines interleave, the executor answers each
      request exactly once ([executor_replies_once]), with the result that the
      answer to its call gives ([executor_truthful]) and a message the actor can
      take in ([executor_feeds_actor]).
    - Storage: the SQL provider gives every journal back, and over a working
      database differs from the in-memory one only in the numbers it gives to events
      read from a later index on ([providers_equivalent]); its failures are those the
      failure strategy expects, snapshots excepted ([sql_failures]). Under
      concurrent use the in-memory provider is linearizable once the entry of an
      actor is in place ([memory_linearizable]), and not before.
    - Streams: merged lifecycle streams lose nothing and keep the order of each
      node; journal subscriptions miss no event, but may deliver one twice or one
      published before their predicate was set ([subscription_complete]); the
      lifecycle stream sends events in the order of publication and skips some only
      when its buffer is full, the event stream of a flow ends rather than leave a
      gap; a subscription to new events gets exactly those that satisfy its
      predicate once that is set ([new_events_exact]).
    - Metrics: spans finished one after the other are all reported, whatever hashes
      collide ([spans_reported]), and whatever the Zipkin server does
      ([tracer_reports]).
    - Defects: theorems and runs, each proving that a described behaviour
      deviates from what the sources mean ([Flaws], [hook_dependency_deadlock],
      [concurrent_read_loses_journal], [huge_sequence_panics] and others, next to
      the code they are about).

    ** Modelling decisions and bounds

    The re-entrance between graph and actor is bounded by fuel: [listener n]
    can nest [n] updates. [depth_bound] = 2006 is enough: a nested update
    resolves a stage or advances the lifecycle, and a graph has at most 1000
    stages (twice, for composition) and three lifecycle steps; theorems hold
    for every [n] above the bound. Machine integers are [Z] with the wrap-around
    written out where the code can wrap. Time is read from the class [Clock];
    timers, futures and messages to other actors are recorded as effects. The
    actor library, gRPC, HTTP, JSON, the database and the entropy source are parameters,
    with their documented behaviour as hypotheses where a theorem needs it.

    The loop that forwards a stream to a REST caller has a bound on the number of
    items; the theorems hold for every bound above the length of the stream.

    Not modelled: marshalling and the generated gRPC stubs (the codecs are
    parameters with round-trip laws), the bytes of the swagger asset,
    histogram buckets and quantiles (a metric is its sequence of observations),
    where gin redirects a request (a parameter), logging, and torn reads of a field
    of an entry of the in-memory provider while it is written. A text is compared
    byte by byte in SQL queries, as sqlite does; the default collations of mysql
    ignore case. For journals with compositions recovery is
    shown on runs only ([Flaws]): there replaying writes to the journal that is
    being read ([recovery_extends_journal]). *)

From stdpp Require Export base tactics strings list gmap pretty fin_maps.
From Stdlib Require Export ZArith.

Declare Scope flow_scope.
Delimit Scope flow_scope with flow.

(** ** Go values the sources share *)

(** The value carried by a Go [panic]: a string, an [error] value (identified
    by its message, all messages in the sources being distinct), an error made
    by a library (equal to none of the program's own), or one of the runtime's
    own panics. *)
Inductive panic_value :=
  | PanicString (msg : string)
  | PanicError (msg : string)
  | PanicForeign (msg : string)
  | NilDereference
  | DivideByZero
  | SliceOutOfRange
  | InterfaceConversion.

#[export] Instance panic_value_eq_dec : EqDecision panic_value.
Proof. solve_decision. Defined.

(** Unsigned and signed machine integers as [Z] with explicit wrap-around. *)
Definition uint32 (z : Z) : Z := (z `mod` 2 ^ 32)%Z.
Definition uint64 (z : Z) : Z := (z `mod` 2 ^ 64)%Z.
Definition int64 (z : Z) : Z := ((z + 2 ^ 63) `mod` 2 ^ 64 - 2 ^ 63)%Z.
Definition int32 (z : Z) : Z := ((z + 2 ^ 31) `mod` 2 ^ 32 - 2 ^ 31)%Z.

(** [strconv.Itoa] on the length of a map or a slice, and on an [int]. *)
Definition itoa (n : nat) : string := pretty n.
Definition itoaZ (z : Z) : string := pretty z.

(** ** The effect monad: state passing with panics and fuel

    A computation over a state [S] returns a value and a new state, panics
    (with the state reached at that point: a Go panic does not undo the
    mutations made before it), or runs out of the fuel that bounds the
    re-entrant calls of the model. *)
Inductive outcome (S A : Type) : Type :=
  | Ret (a : A) (s : S)
  | Panic (why : panic_value) (s : S)
  | OutOfFuel.
Arguments Ret {S A} a s.
Arguments Panic {S A} why s.
Arguments OutOfFuel {S A}.

Definition M (S A : Type) : Type := S → outcome S A.

#[export] Instance M_ret {S} : MRet (M S) := λ A a s, Ret a s.
#[export] Instance M_bind {S} : MBind (M S) := λ A B k m s,
  match m s with
  | Ret a s' => k a s'
  | Panic w s' => Panic w s'
  | OutOfFuel => OutOfFuel
  end.

Definition panic {S A} (w : panic_value) : M S A := λ s, Panic w s.
Definition no_fuel {S A} : M S A := λ _, OutOfFuel.
Definition get_state {S} : M S S := λ s, Ret s s.
Definition modify {S} (f : S → S) : M S unit := λ s, Ret tt (f s).

(** Dereferencing a Go pointer. *)
Definition deref {S A} (o : option A) : M S A :=
  match o with Some a => mret a | None => panic NilDereference end.

(** [a % b] on Go ints: truncated division, and a panic when [b] is 0. *)
Definition go_rem {S} (a b : Z) : M S Z :=
  if (b =? 0)%Z then panic DivideByZero else mret (Z.rem a b).

(** [for _, x := range l { body(x) }] *)
Fixpoint for_each {S A} (l : list A) (body : A → M S unit) : M S unit :=
  match l with
  | [] => mret tt
  | x :: l => body x;; for_each l body
  end.

(** A computation on a component [T] of the state, as one on the whole state. *)
Definition zoom {S T A} (get : S → T) (put : T → S → S) (m : M T A) : M S A := λ s,
  match m (get s) with
  | Ret a t => Ret a (put t s)
  | Panic w t => Panic w (put t s)
  | OutOfFuel => OutOfFuel
  end.

(** ** Two program logics

    [wp m Q s]: total correctness, [m] run in [s] returns (no panic, no fuel
    exhaustion) with [Q]. [keeps R m]: the transition relation [R] holds
    between the initial state and the state [m] ends in, whether it returns
    or panics. *)
Definition wp {S A} (m : M S A) (Q : A → S → Prop) (s : S) : Prop :=
  match m s with Ret a s' => Q a s' | _ => False end.

Definition keeps {S A} (R : S → S → Prop) (m : M S A) : Prop :=
  ∀ s, match m s with Ret _ s' | Panic _ s' => R s s' | OutOfFuel => True end.

Section wp.
Context {S : Type}.
Implicit Types s : S.

Lemma wp_ret {A} (a : A) (Q : A → S → Prop) s : Q a s → wp (mret a) Q s.
Proof. done. Qed.
Lemma wp_bind {A B} (m : M S A) (k : A → M S B) (Q : B → S → Prop) s :
  wp m (λ a, wp (k a) Q) s → wp (m ≫= k) Q s.
Proof. unfold wp, mbind, M_bind. by destruct (m s). Qed.
Lemma wp_mono {A} (m : M S A) (Q Q' : A → S → Prop) s :
  wp m Q s → (∀ a s', Q a s' → Q' a s') → wp m Q' s.
Proof. unfold wp. destruct (m s); auto. Qed.
Lemma wp_get (Q : S → S → Prop) s : Q s s → wp get_state Q s.
Proof. done. Qed.
Lemma wp_modify (f : S → S) (Q : unit → S → Prop) s : Q tt (f s) → wp (modify f) Q s.
Proof. done. Qed.
Lemma wp_deref {A} (o : option A) a (Q : A → S → Prop) s :
  o = Some a → Q a s → wp (deref o) Q s.
Proof. by intros ->. Qed.
Lemma wp_run {A} (m : M S A) (Q : A → S → Prop) s :
  wp m Q s ↔ ∃ a s', m s = Ret a s' ∧ Q a s'.
Proof.
  unfold wp. split.
  - destruct (m s) as [a s'| |]; [|done|done]. eauto.
  - intros (a & s' & -> & HQ). done.
Qed.

Lemma wp_zoom {T A} (get : S → T) put (m : M T A) (Q : A → S → Prop) s :
  wp m (λ a t, Q a (put t s)) (get s) → wp (zoom get put m) Q s.
Proof. unfold wp, zoom. by destruct (m (get s)). Qed.

(** Loop rule: an invariant indexed by the part of the list already done. *)
Lemma wp_for_each {A} (I : list A → S → Prop) (l : list A) (body : A → M S unit) s :
  I [] s →
  (∀ done_ x rest s', l = done_ ++ x :: rest → I done_ s' →
     wp (body x) (λ _ s'', I (done_ ++ [x]) s'') s') →
  wp (for_each l body) (λ _ s', I l s') s.
Proof.
  intros HI Hbody.
  cut (∀ done_ rest, l = done_ ++ rest → ∀ s, I done_ s →
         wp (for_each rest body) (λ _ s', I l s') s).
  { intros H. by apply (H [] l). }
  intros done_ rest. revert done_.
  induction rest as [|x rest IH]; intros done_ Heq s' HIs; simpl.
  { apply wp_ret. by rewrite Heq, app_nil_r. }
  apply wp_bind. eapply wp_mono; [by eapply Hbody|].
  intros [] s'' HI'. apply (IH (done_ ++ [x])); [|done].
  by rewrite Heq, <- app_assoc.
Qed.
End wp.

Section keeps.
Context {S : Type} (R : S → S → Prop) `{!PreOrder R}.

Lemma keeps_ret {A} (a : A) : keeps R (mret a).
Proof. intros s. cbn. reflexivity. Qed.
Lemma keeps_panic {A} w : keeps R (panic w : M S A).
Proof. intros s. cbn. reflexivity. Qed.
Lemma keeps_no_fuel {A} : keeps R (no_fuel : M S A).
Proof. by intros s. Qed.
Lemma keeps_get : keeps R get_state.
Proof. intros s. cbn. reflexivity. Qed.
Lemma keeps_deref {A} (o : option A) : keeps R (deref o : M S A).
Proof. destruct o; [apply keeps_ret|apply keeps_panic]. Qed.
Lemma keeps_bind {A B} (m : M S A) (k : A → M S B) :
  keeps R m → (∀ a, keeps R (k a)) → keeps R (m ≫= k).
Proof.
  intros Hm Hk s. specialize (Hm s). unfold mbind, M_bind.
  destruct (m s) as [a s'|w s'|]; [|done|done].
  specialize (Hk a s'). destruct (k a s'); [| |done]; by etrans.
Qed.
Lemma keeps_modify (f : S → S) : (∀ s, R s (f s)) → keeps R (modify f).
Proof. intros H s. apply H. Qed.
Lemma keeps_for_each {A} (l : list A) (body : A → M S unit) :
  (∀ x, keeps R (body x)) → keeps R (for_each l body).
Proof.
  intros Hb. induction l as [|x l IH]; simpl; [apply keeps_ret|].
  apply keeps_bind; [apply Hb|done].
Qed.
End keeps.

Create HintDb flow.
#[export] Hint Resolve keeps_ret keeps_panic keeps_no_fuel keeps_get keeps_deref
  keeps_bind keeps_modify keeps_for_each : flow.

(** ** Go's unspecified map iteration order

    [for k, v := range m] visits the keys of [m] in an order the language does
    not specify and which differs between loops. The order is an oracle: the
    [n]-th loop over a map with keys [l] visits [range_order n l], a
    permutation of [l]. Theorems hold for every oracle. *)
Class MapOrder := {
  range_order : nat → list string → list string;
  range_order_perm n l : range_order n l ≡ₚ l;
}.

(** The order used by executable examples: the order of the keys themselves. *)
Definition key_order : MapOrder :=
  {| range_order := λ _ l, l; range_order_perm := λ _ l, Permutation_refl l |}.

(** ** Shared lemmas *)

Lemma list_omap_cons {A B} (f : A → option B) x l :
  omap f (x :: l) = match f x with Some y => y :: omap f l | None => omap f l end.
Proof. reflexivity. Qed.

Lemma omap_fmap {A B C} (f : A → B) (h : B → option C) (l : list A) :
  omap h (f <$> l) = omap (λ x, h (f x)) l.
Proof. induction l as [|x l IH]; [done|]. rewrite fmap_cons, !list_omap_cons. by rewrite IH. Qed.

Lemma itoa_inj n m : itoa n = itoa m → n = m.
Proof. apply (inj pretty). Qed.

Lemma uint32_small z : (0 ≤ z < 2 ^ 32)%Z → uint32 z = z.
Proof. apply Z.mod_small. Qed.

Lemma uint64_small z : (0 ≤ z < 2 ^ 64)%Z → uint64 z = z.
Proof. apply Z.mod_small. Qed.

Lemma lor_bound a b n : (0 ≤ n → 0 ≤ a < 2 ^ n → 0 ≤ b < 2 ^ n → 0 ≤ Z.lor a b < 2 ^ n)%Z.
Proof.
  intros Hn Ha Hb. rewrite <- (Z.mod_small a (2 ^ n)), <- (Z.mod_small b (2 ^ n)) by done.
  rewrite <- !Z.land_ones by done. rewrite <- Z.land_lor_distr_l, Z.land_ones by done.
  apply Z.mod_pos_bound. lia.
Qed.

Lemma lxor_bound a b n : (0 ≤ n → 0 ≤ a < 2 ^ n → 0 ≤ b < 2 ^ n → 0 ≤ Z.lxor a b < 2 ^ n)%Z.
Proof.
  intros Hn Ha Hb.
  assert (Z.lxor a b = Z.land (Z.lxor a b) (Z.ones n)) as ->.
  { apply Z.bits_inj'. intros i Hi. rewrite Z.land_spec, !Z.lxor_spec.
    destruct (decide (i < n)%Z) as [Hlt|Hge].
    - by rewrite Z.ones_spec_low, andb_true_r.
    - rewrite Z.ones_spec_high, andb_false_r by lia.
      rewrite <- (Z.mod_small a (2 ^ n)), <- (Z.mod_small b (2 ^ n)) by done.
      by rewrite !Z.mod_pow2_bits_high by lia. }
  rewrite Z.land_ones by done. apply Z.mod_pos_bound. lia.
Qed.

(** Case analysis on the first match or conditional of the goal. *)
Ltac step_match :=
  match goal with
  | |- context [match ?x with _ => _ end] => destruct x eqn:?; simplify_eq/=
  end.
