(* ===== verification/Model.v ===== *)
(** * The protobuf data model (src/model)

    The messages, enumerations and events of model.pb.go that the service
    stores and exchanges, the constructors of results.go, the gRPC errors of
    errors.go and the mixins of mixins.go. A Go pointer to a message that may
    be nil is an [option]; a protobuf [oneof] is an inductive type with the
    generated wrapper names; a proto3 enum is open, so every enumeration has a
    constructor for values outside the declared ones. *)

From S2P Require Import Prelude.

(** ** Enumerations *)

Inductive HTTPMethod :=
  | unknown_method | get | head | post | put | http_delete | patch | http_options
  | other_method (v : Z).

Inductive ErrorDatumType :=
  | unknown_error | stage_timeout | stage_failed | function_timeout
  | function_invoke_failed | stage_lost | invalid_stage_response
  | other_error (v : Z).

Inductive StatusDatumType :=
  | unknown_state | succeeded | failed | cancelled | killed
  | other_status (v : Z).

Inductive CompletionOperation :=
  | unknown_operation | acceptEither | applyToEither | thenAcceptBoth
  | thenApply | thenRun | thenAccept | thenCompose | thenCombine
  | whenComplete | handle | supply | invokeFunction | completedValue
  | delay | allOf | anyOf | externalCompletion | exceptionally
  | terminationHook | exceptionallyCompose
  | other_operation (v : Z).

#[export] Instance HTTPMethod_eq_dec : EqDecision HTTPMethod.
Proof. solve_decision. Defined.
#[export] Instance ErrorDatumType_eq_dec : EqDecision ErrorDatumType.
Proof. solve_decision. Defined.
#[export] Instance StatusDatumType_eq_dec : EqDecision StatusDatumType.
Proof. solve_decision. Defined.
#[export] Instance CompletionOperation_eq_dec : EqDecision CompletionOperation.
Proof. solve_decision. Defined.

(** The generated name table [CompletionOperation_name]; a lookup of a value
    outside the table yields Go's zero string. *)
Definition CompletionOperation_name (op : CompletionOperation) : string :=
  match op with
  | unknown_operation => "unknown_operation"
  | acceptEither => "acceptEither"
  | applyToEither => "applyToEither"
  | thenAcceptBoth => "thenAcceptBoth"
  | thenApply => "thenApply"
  | thenRun => "thenRun"
  | thenAccept => "thenAccept"
  | thenCompose => "thenCompose"
  | thenCombine => "thenCombine"
  | whenComplete => "whenComplete"
  | handle => "handle"
  | supply => "supply"
  | invokeFunction => "invokeFunction"
  | completedValue => "completedValue"
  | delay => "delay"
  | allOf => "allOf"
  | anyOf => "anyOf"
  | externalCompletion => "externalCompletion"
  | exceptionally => "exceptionally"
  | terminationHook => "terminationHook"
  | exceptionallyCompose => "exceptionallyCompose"
  | other_operation _ => ""
  end.

(** The generated name table [HTTPMethod_name]. *)
Definition HTTPMethod_name (m : HTTPMethod) : string :=
  match m with
  | unknown_method => "unknown_method"
  | get => "get"
  | head => "head"
  | post => "post"
  | put => "put"
  | http_delete => "delete"
  | patch => "patch"
  | http_options => "options"
  | other_method _ => ""
  end.

(** ** Data *)

Record Timestamp := { Seconds : Z; Nanos : Z }.

Record BlobDatum := { BlobId : string; ContentType : string; Length : Z }.

Record HTTPHeader := { Key : string; Value : string }.

Record HTTPReqDatum := {
  req_Body : option BlobDatum;
  req_Headers : list HTTPHeader;
  req_Method : HTTPMethod;
}.

Record HTTPRespDatum := {
  resp_Body : option BlobDatum;
  resp_Headers : list HTTPHeader;
  resp_StatusCode : Z;
}.

Record StageRefDatum := { ref_StageId : string }.
Record ErrorDatum := { err_Type : ErrorDatumType; err_Message : string }.
Record StatusDatum := { status_Type : StatusDatumType }.

(** The [oneof val] of [Datum]: each wrapper holds a pointer. [EmptyDatum] has
    no fields. *)
Inductive isDatum_Val :=
  | Datum_Empty (v : option unit)
  | Datum_Blob (v : option BlobDatum)
  | Datum_Error (v : option ErrorDatum)
  | Datum_StageRef (v : option StageRefDatum)
  | Datum_HttpReq (v : option HTTPReqDatum)
  | Datum_HttpResp (v : option HTTPRespDatum)
  | Datum_Status (v : option StatusDatum).

Record Datum := { Val : option isDatum_Val }.

Record CompletionResult := { Successful : bool; result_Datum : option Datum }.

#[export] Instance Timestamp_eq_dec : EqDecision Timestamp.
Proof. solve_decision. Defined.
#[export] Instance BlobDatum_eq_dec : EqDecision BlobDatum.
Proof. solve_decision. Defined.
#[export] Instance HTTPHeader_eq_dec : EqDecision HTTPHeader.
Proof. solve_decision. Defined.
#[export] Instance HTTPReqDatum_eq_dec : EqDecision HTTPReqDatum.
Proof. solve_decision. Defined.
#[export] Instance HTTPRespDatum_eq_dec : EqDecision HTTPRespDatum.
Proof. solve_decision. Defined.
#[export] Instance StageRefDatum_eq_dec : EqDecision StageRefDatum.
Proof. solve_decision. Defined.
#[export] Instance ErrorDatum_eq_dec : EqDecision ErrorDatum.
Proof. solve_decision. Defined.
#[export] Instance StatusDatum_eq_dec : EqDecision StatusDatum.
Proof. solve_decision. Defined.
#[export] Instance isDatum_Val_eq_dec : EqDecision isDatum_Val.
Proof. solve_decision. Defined.
#[export] Instance Datum_eq_dec : EqDecision Datum.
Proof. solve_decision. Defined.
#[export] Instance CompletionResult_eq_dec : EqDecision CompletionResult.
Proof. solve_decision. Defined.

(** Nil-safe generated getters: [(m *Datum) GetVal()] and
    [(m *Datum) GetStageRef()]. *)
Definition GetVal (d : option Datum) : option isDatum_Val := d ≫= Val.
Definition GetStageRef (d : option Datum) : option StageRefDatum :=
  match GetVal d with Some (Datum_StageRef r) => r | _ => None end.

(** ** results.go *)

Definition NewInternalErrorResult (code : ErrorDatumType) (message : string) : CompletionResult :=
  {| Successful := false;
     result_Datum := Some {| Val := Some (Datum_Error (Some {| err_Type := code; err_Message := message |})) |} |}.

Definition NewEmptyDatum : Datum := {| Val := Some (Datum_Empty (Some tt)) |}.

Definition NewEmptyResult : CompletionResult :=
  {| Successful := true; result_Datum := Some NewEmptyDatum |}.

Definition NewBlobDatum (body : option BlobDatum) : Datum := {| Val := Some (Datum_Blob body) |}.

Definition NewBlob (id : string) (length : Z) (contentType : string) : BlobDatum :=
  {| BlobId := id; Length := length; ContentType := contentType |}.

Definition NewStageRefDatum (stageID : string) : Datum :=
  {| Val := Some (Datum_StageRef (Some {| ref_StageId := stageID |})) |}.

Definition NewSuccessfulResult (datum : option Datum) : CompletionResult :=
  {| Successful := true; result_Datum := datum |}.

Definition NewFailedResult (datum : option Datum) : CompletionResult :=
  {| Successful := false; result_Datum := datum |}.

Definition NewHTTPReqDatum (httpreq : option HTTPReqDatum) : Datum :=
  {| Val := Some (Datum_HttpReq httpreq) |}.

Definition NewStateDatum (statusType : StatusDatumType) : Datum :=
  {| Val := Some (Datum_Status (Some {| status_Type := statusType |})) |}.

(** ** errors.go: gRPC status errors *)

Inductive codes :=
  | Internal | AlreadyExists | NotFound | FailedPrecondition | InvalidArgument
  | Unknown | Unimplemented | ResourceExhausted | DeadlineExceeded.

#[export] Instance codes_eq_dec : EqDecision codes.
Proof. solve_decision. Defined.

Record status_error := { code : codes; message : string }.

#[export] Instance status_error_eq_dec : EqDecision status_error.
Proof. solve_decision. Defined.

Definition Errorf (c : codes) (m : string) : status_error := {| code := c; message := m |}.

Definition NewGraphCreationError (flowID : string) : status_error :=
  Errorf Internal ("Cannot spawn actor to manage flow: flow_id=" +:+ flowID).
Definition NewGraphAlreadyExistsError (flowID : string) : status_error :=
  Errorf AlreadyExists ("Flow already exists: flow_id=" +:+ flowID).
Definition NewGraphNotFoundError (flowID : string) : status_error :=
  Errorf NotFound ("Flow not found: flow_id=" +:+ flowID).
Definition NewGraphCompletedError (flowID : string) : status_error :=
  Errorf FailedPrecondition ("Flow already completed: flow_id=" +:+ flowID).
Definition NewInvalidDelayError (flowID : string) (delayMs : Z) : status_error :=
  Errorf InvalidArgument
    ("Invalid delay stage of " +:+ itoaZ delayMs +:+ " milliseconds: flow_id=" +:+ flowID).
Definition NewStageNotFoundError (flowID stageID : string) : status_error :=
  Errorf NotFound ("Stage not found. flow_id=" +:+ flowID +:+ " stage_id=" +:+ stageID).
Definition NewAwaitStageError (flowID stageID : string) : status_error :=
  Errorf Unknown ("Stage failed to complete: flow_id=" +:+ flowID +:+ " stage_id=" +:+ stageID).
Definition NewInvalidStageDependenciesError (flowID : string) : status_error :=
  Errorf InvalidArgument ("Failed to create stage with invalid dependencies: flow_id=" +:+ flowID).
Definition NewInvalidDatumError (flowID : string) : status_error :=
  Errorf InvalidArgument ("Invalid datum in command: flow_id=" +:+ flowID).
Definition NewNeedsClosureError (flowID : string) : status_error :=
  Errorf InvalidArgument ("Stage requires a closure but none was specified: flow_id=" +:+ flowID).
Definition NewShouldNotHaveClosureError (flowID : string) : status_error :=
  Errorf InvalidArgument ("Stage should not have  closure but one was specified: flow_id=" +:+ flowID).
Definition NewInvalidOperationError (flowID : string) : status_error :=
  Errorf Unimplemented ("Invalid stage operation: flow_id=" +:+ flowID).
Definition NewTooManyStagesError (flowID : string) : status_error :=
  Errorf ResourceExhausted
    ("Failed to add stage, flow has maximum number of stages: flow_id=" +:+ flowID).
Definition NewTooManyTerminationHooksError (flowID : string) : status_error :=
  Errorf ResourceExhausted
    ("Failed to add termination hook, flow has maximum number of termination hooks: flow_id=" +:+ flowID).

(** ** Events: everything that may be persisted to the journal *)

Record GraphCreatedEvent := {
  created_FlowId : string; created_FunctionId : string; created_Ts : option Timestamp }.
Record DelayScheduledEvent := {
  delay_StageId : string; delay_TimeMs : Z; delay_Ts : option Timestamp; delay_FlowId : string }.
Record GraphTerminatingEvent := {
  terminating_FlowId : string; terminating_FunctionId : string;
  terminating_Status : StatusDatumType; terminating_Ts : option Timestamp }.
Record GraphCompletedEvent := {
  completed_FlowId : string; completed_FunctionId : string; completed_Ts : option Timestamp }.
Record GraphCommittedEvent := {
  committed_FlowId : string; committed_Ts : option Timestamp }.
Record StageAddedEvent := {
  added_StageId : string; added_Op : CompletionOperation;
  added_Closure : option BlobDatum; added_Dependencies : list string;
  added_Ts : option Timestamp; added_CodeLocation : string;
  added_CallerId : string; added_FlowId : string }.
Record StageCompletedEvent := {
  stagecompleted_StageId : string; stagecompleted_Result : option CompletionResult;
  stagecompleted_Ts : option Timestamp; stagecompleted_FlowId : string }.
Record StageComposedEvent := {
  composed_StageId : string; composed_ComposedStageId : string;
  composed_Ts : option Timestamp; composed_FlowId : string }.
Record FaasInvocationStartedEvent := {
  started_StageId : string; started_Ts : option Timestamp;
  started_FunctionId : string; started_FlowId : string }.
Record FaasInvocationCompletedEvent := {
  invoked_StageId : string; invoked_Result : option CompletionResult;
  invoked_Ts : option Timestamp; invoked_CallId : string; invoked_FlowId : string }.

(** The dynamic types of [model.Event] values. *)
Inductive Event :=
  | EGraphCreated (e : GraphCreatedEvent)
  | EDelayScheduled (e : DelayScheduledEvent)
  | EGraphTerminating (e : GraphTerminatingEvent)
  | EGraphCompleted (e : GraphCompletedEvent)
  | EGraphCommitted (e : GraphCommittedEvent)
  | EStageAdded (e : StageAddedEvent)
  | EStageCompleted (e : StageCompletedEvent)
  | EStageComposed (e : StageComposedEvent)
  | EFaasInvocationStarted (e : FaasInvocationStartedEvent)
  | EFaasInvocationCompleted (e : FaasInvocationCompletedEvent).

#[export] Instance Event_eq_dec : EqDecision Event.
Proof. unfold EqDecision, Decision. repeat decide equality. Defined.

(** [Event.GetTs()] *)
Definition GetTs (e : Event) : option Timestamp :=
  match e with
  | EGraphCreated e => created_Ts e
  | EDelayScheduled e => delay_Ts e
  | EGraphTerminating e => terminating_Ts e
  | EGraphCompleted e => completed_Ts e
  | EGraphCommitted e => committed_Ts e
  | EStageAdded e => added_Ts e
  | EStageCompleted e => stagecompleted_Ts e
  | EStageComposed e => composed_Ts e
  | EFaasInvocationStarted e => started_Ts e
  | EFaasInvocationCompleted e => invoked_Ts e
  end.

(** ** Commands: messages that belong to a graph *)

Record CreateGraphRequest := { create_FunctionId : string; create_FlowId : string }.
Record AddStageRequest := {
  add_FlowId : string; add_Operation : CompletionOperation;
  add_Closure : option BlobDatum; add_Deps : list string;
  add_CodeLocation : string; add_CallerId : string }.
Record AddCompletedValueStageRequest := {
  value_FlowId : string; value_Value : option CompletionResult;
  value_CodeLocation : string; value_CallerId : string }.
Record AddDelayStageRequest := {
  adddelay_FlowId : string; adddelay_DelayMs : Z;
  adddelay_CodeLocation : string; adddelay_CallerId : string }.
Record AddInvokeFunctionStageRequest := {
  invoke_FlowId : string; invoke_FunctionId : string; invoke_Arg : option HTTPReqDatum;
  invoke_CodeLocation : string; invoke_CallerId : string }.
Record CompleteStageExternallyRequest := {
  ext_FlowId : string; ext_StageId : string; ext_Value : option CompletionResult;
  ext_CodeLocation : string; ext_CallerId : string }.
Record AwaitStageResultRequest := {
  await_FlowId : string; await_StageId : string; await_TimeoutMs : Z }.
Record CompleteDelayStageRequest := {
  cdelay_FlowId : string; cdelay_StageId : string; cdelay_Result : option CompletionResult }.
#[export] Instance CompleteDelayStageRequest_eq_dec : EqDecision CompleteDelayStageRequest.
Proof. solve_decision. Defined.
Record FaasInvocationResponse := {
  faas_FlowId : string; faas_StageId : string; faas_FunctionId : string;
  faas_Result : option CompletionResult; faas_CallId : string }.

(** The dynamic types of [model.Command] values the graph actor and the
    supervisor distinguish; [COther] is any other message with a flow id. *)
Inductive Command :=
  | CCreateGraph (r : CreateGraphRequest)
  | CGetGraphState (flowId : string)
  | CAddStage (r : AddStageRequest)
  | CAddCompletedValueStage (r : AddCompletedValueStageRequest)
  | CAddDelayStage (r : AddDelayStageRequest)
  | CAddInvokeFunctionStage (r : AddInvokeFunctionStageRequest)
  | CCompleteStageExternally (r : CompleteStageExternallyRequest)
  | CCommitGraph (flowId : string)
  | CAwaitStageResult (r : AwaitStageResultRequest)
  | CCompleteDelayStage (r : CompleteDelayStageRequest)
  | CFaasInvocationResponse (r : FaasInvocationResponse)
  | CDeactivateGraph (flowId : string)
  | COther (flowId : string).

(** [GraphMessage.GetFlowId()] *)
Definition GetFlowId (c : Command) : string :=
  match c with
  | CCreateGraph r => create_FlowId r
  | CGetGraphState f => f
  | CAddStage r => add_FlowId r
  | CAddCompletedValueStage r => value_FlowId r
  | CAddDelayStage r => adddelay_FlowId r
  | CAddInvokeFunctionStage r => invoke_FlowId r
  | CCompleteStageExternally r => ext_FlowId r
  | CCommitGraph f => f
  | CAwaitStageResult r => await_FlowId r
  | CCompleteDelayStage r => cdelay_FlowId r
  | CFaasInvocationResponse r => faas_FlowId r
  | CDeactivateGraph f => f
  | COther f => f
  end.

(** ** mixins.go: the [AddStageCommand] interface

    The four requests that create a stage implement [GetOperation],
    [GetDependencyCount] and [HasClosure]; the type assertion
    [cmd.(model.AddStageCommand)] succeeds exactly on them. *)
Record AddStageCommand := {
  GetOperation : CompletionOperation;
  GetDependencyCount : nat;
  HasClosure : bool;
}.

Definition as_AddStageCommand (c : Command) : option AddStageCommand :=
  match c with
  | CAddStage r => Some {| GetOperation := add_Operation r;
                           GetDependencyCount := length (add_Deps r);
                           HasClosure := bool_decide (add_Closure r ≠ None) |}
  | CAddCompletedValueStage _ =>
      Some {| GetOperation := completedValue; GetDependencyCount := 0; HasClosure := false |}
  | CAddDelayStage _ =>
      Some {| GetOperation := delay; GetDependencyCount := 0; HasClosure := false |}
  | CAddInvokeFunctionStage _ =>
      Some {| GetOperation := invokeFunction; GetDependencyCount := 0; HasClosure := false |}
  | _ => None
  end.

(** [(d *Datum) HasValidValue()]: reading [d.Val] of a nil [d] panics. *)
Definition HasValidValue {S} (d : option Datum) : M S bool :=
  d ← deref d;
  mret (match Val d with
        | Some (Datum_Empty _) | Some (Datum_Blob _) | Some (Datum_Error _)
        | Some (Datum_StageRef _) | Some (Datum_HttpReq _) | Some (Datum_HttpResp _)
        | Some (Datum_Status _) => true
        | None => false
        end).

(** [GetHeaderValues] and [GetHeader] of [HTTPReqDatum] (nil-safe). *)
Definition header_values (hs : list HTTPHeader) (key : string) : list string :=
  foldl (λ res h, if String.eqb (Key h) key then res ++ [Value h] else res) [] hs.
Definition GetHeaderValues (m : option HTTPReqDatum) (key : string) : list string :=
  match m with Some m => header_values (req_Headers m) key | None => [] end.
Definition GetHeader (m : option HTTPReqDatum) (key : string) : string :=
  match GetHeaderValues m key with v :: _ => v | [] => "" end.
(** The same two methods of [HTTPRespDatum]. *)
Definition resp_GetHeaderValues (m : option HTTPRespDatum) (key : string) : list string :=
  match m with Some m => header_values (resp_Headers m) key | None => [] end.
Definition resp_GetHeader (m : option HTTPRespDatum) (key : string) : string :=
  match resp_GetHeaderValues m key with v :: _ => v | [] => "" end.

(** [currentTimestamp] (mixins.go and actor/graph.go): the clock reading in
    nanoseconds since the epoch, split as [time.Unix]/[time.Nanosecond] do. *)
Definition currentTimestamp (now : Z) : Timestamp :=
  {| Seconds := (now `div` 1000000000)%Z; Nanos := (now `mod` 1000000000)%Z |}.

(** ** Graph lifecycle and stream events *)

Inductive isGraphLifecycleEvent_Val :=
  | GraphLifecycleEvent_GraphCreated (e : GraphCreatedEvent)
  | GraphLifecycleEvent_GraphCompleted (e : GraphCompletedEvent).

Record GraphLifecycleEvent := {
  life_Seq : Z; life_FlowId : string; life_Val : option isGraphLifecycleEvent_Val }.

(** The type assertion to [GraphLifecycleEventSource] and the method
    [GraphLifecycleEvent(index)]: defined on the created and completed events. *)
Definition GraphLifecycleEvent_of (e : Event) (index : Z) : option GraphLifecycleEvent :=
  match e with
  | EGraphCreated m =>
      Some {| life_FlowId := created_FlowId m; life_Seq := uint64 index;
              life_Val := Some (GraphLifecycleEvent_GraphCreated m) |}
  | EGraphCompleted m =>
      Some {| life_FlowId := completed_FlowId m; life_Seq := uint64 index;
              life_Val := Some (GraphLifecycleEvent_GraphCompleted m) |}
  | _ => None
  end.

(** The flow id each event carries. *)
Definition event_FlowId (e : Event) : string :=
  match e with
  | EGraphCreated e => created_FlowId e
  | EDelayScheduled e => delay_FlowId e
  | EGraphTerminating e => terminating_FlowId e
  | EGraphCompleted e => completed_FlowId e
  | EGraphCommitted e => committed_FlowId e
  | EStageAdded e => added_FlowId e
  | EStageCompleted e => stagecompleted_FlowId e
  | EStageComposed e => composed_FlowId e
  | EFaasInvocationStarted e => started_FlowId e
  | EFaasInvocationCompleted e => invoked_FlowId e
  end.

(** [GraphStreamEvent]; its [oneof val] has one wrapper per event type, so the
    wrapped event itself stands for the wrapper. *)
Record GraphStreamEvent := {
  stream_Seq : Z; stream_FlowId : string;
  stream_SentTs : option Timestamp; stream_Val : option Event }.

(** [ToGraphStreamEvent(index)], implemented by all ten event types. *)
Definition ToGraphStreamEvent (now : Z) (e : Event) (index : Z) : GraphStreamEvent :=
  {| stream_FlowId := event_FlowId e; stream_SentTs := Some (currentTimestamp now);
     stream_Seq := uint64 index; stream_Val := Some e |}.

(** ** Responses and executor requests *)

Record StageRepresentation := {
  rep_Type : string; rep_Status : string; rep_Dependencies : list string }.

Inductive Response :=
  | RCreateGraph (flowId : string)
  | RGetGraphState (flowId functionId : string) (stages : gmap string StageRepresentation)
  | RAddStage (flowId stageId : string)
  | RCompleteStageExternally (flowId stageId : string) (successful : bool)
  | RGraphRequestProcessed (flowId : string)
  | RAwaitStageResult (flowId stageId : string) (result : option CompletionResult)
  | RError (e : status_error).

Record InvokeStageRequest := {
  istage_FlowId : string; istage_StageId : string; istage_FunctionId : string;
  istage_Args : list (option CompletionResult); istage_Closure : option BlobDatum }.
Record InvokeFunctionRequest := {
  ifun_FlowId : string; ifun_StageId : string; ifun_FunctionId : string;
  ifun_Arg : option HTTPReqDatum }.

Inductive ExecutorRequest :=
  | InvokeStage (r : InvokeStageRequest)
  | InvokeFunction (r : InvokeFunctionRequest).
