(* ===== verification/Uuid.v ===== *)
(** * UUIDs (src/vendor/github.com/google/uuid)

    Flow ids are UUIDs in text form: the cluster proxy makes them with
    [NewRandom] and [String], and every node takes them apart again with
    [Parse] to find the shard of a flow. A UUID is a list of sixteen bytes; a
    byte is a [Z] between 0 and 255; a Go string is its list of bytes. *)

From S2P Require Import Prelude.
Local Open Scope Z_scope.

(** ** Bytes and strings *)

Definition is_byte (b : Z) : Prop := 0 ≤ b < 256.

Definition bytes_of (s : string) : list Z :=
  (λ a, Z.of_N (Ascii.N_of_ascii a)) <$> String.list_ascii_of_string s.
Definition string_of (l : list Z) : string :=
  String.string_of_list_ascii ((λ b, Ascii.ascii_of_N (Z.to_N b)) <$> l).

(** ** strconv.Atoi and strconv.ParseInt in base 10 *)

Definition digit_value (b : Z) : option Z :=
  if (48 <=? b) && (b <=? 57) then Some (b - 48) else None.

Fixpoint decimal (acc : Z) (l : list Z) : option Z :=
  match l with
  | [] => Some acc
  | b :: l => d ← digit_value b; decimal (10 * acc + d) l
  end.

(** An optional sign, at least one digit, and a value an [int] can hold. *)
Definition Atoi (s : string) : option Z :=
  let '(sign, digits) :=
    match bytes_of s with
    | 43 :: l => (1, l)
    | 45 :: l => (-1, l)
    | l => (1, l)
    end in
  if (length digits =? 0)%nat then None else
  v ← decimal 0 digits;
  let v := sign * v in
  if (- 2 ^ 63 <=? v) && (v <? 2 ^ 63) then Some v else None.

Definition dash : Z := 45.

(** [hex.Encode] of the standard library: two lower-case digits per byte. *)
Definition hextable : list Z := bytes_of "0123456789abcdef".
Definition hex_digit (n : Z) : Z := hextable !!! Z.to_nat n.
Definition hex_Encode (src : list Z) : list Z :=
  src ≫= λ v, [hex_digit (Z.shiftr v 4); hex_digit (Z.land v 15)].

(** [strings.ToLower] on single bytes. A multi-byte or invalid rune is never
    lowered to as many ASCII bytes as it occupies, so the comparison with a
    nine-byte ASCII constant has the same outcome. *)
Definition to_lower (b : Z) : Z := if (65 <=? b) && (b <=? 90) then b + 32 else b.

(** ** The package *)

Definition UUID : Type := list Z.

Definition xvalues : list Z :=
  replicate 48 255 ++ [0; 1; 2; 3; 4; 5; 6; 7; 8; 9] ++ replicate 7 255
  ++ [10; 11; 12; 13; 14; 15] ++ replicate 26 255 ++ [10; 11; 12; 13; 14; 15] ++ replicate 153 255.

Definition xtob (x1 x2 : Z) : Z * bool :=
  let b1 := xvalues !!! Z.to_nat x1 in
  let b2 := xvalues !!! Z.to_nat x2 in
  (Z.lor (Z.shiftl b1 4 `mod` 256) b2, negb (b1 =? 255) && negb (b2 =? 255)).
Arguments xtob : simpl never.

(** The errors of [Parse]. *)
Inductive parse_error :=
  | invalid_UUID_length (n : nat)
  | invalid_urn_prefix (p : list Z)
  | invalid_UUID_format.

(** The offsets of the sixteen pairs of digits. *)
Definition digit_offsets : list nat :=
  [0; 2; 4; 6; 9; 11; 14; 16; 19; 21; 24; 26; 28; 30; 32; 34]%nat.

(** The loop of [Parse] over [digit_offsets], filling in one byte per turn. *)
Fixpoint parse_digits (s : list Z) (xs : list nat) : parse_error + list Z :=
  match xs with
  | [] => inr []
  | x :: xs =>
      let '(v, ok) := xtob (s !!! x) (s !!! S x) in
      if negb ok then inl invalid_UUID_format
      else match parse_digits s xs with inl e => inl e | inr l => inr (v :: l) end
  end.

Definition Parse_form (s : list Z) : parse_error + UUID :=
  if negb (s !!! 8%nat =? dash) || negb (s !!! 13%nat =? dash)
     || negb (s !!! 18%nat =? dash) || negb (s !!! 23%nat =? dash)
  then inl invalid_UUID_format
  else parse_digits s digit_offsets.

Definition Parse (str : string) : parse_error + UUID :=
  let s := bytes_of str in
  if negb (length s =? 36)%nat then
    if negb (length s =? 36 + 9)%nat then inl (invalid_UUID_length (length s))
    else if bool_decide (to_lower <$> take 9 s = bytes_of "urn:uuid:")
         then Parse_form (drop 9 s)
         else inl (invalid_urn_prefix (take 9 s))
  else Parse_form s.

Definition encodeHex (uuid : UUID) : list Z :=
  hex_Encode (take 4 uuid) ++ dash ::
  hex_Encode (take 2 (drop 4 uuid)) ++ dash ::
  hex_Encode (take 2 (drop 6 uuid)) ++ dash ::
  hex_Encode (take 2 (drop 8 uuid)) ++ dash ::
  hex_Encode (drop 10 uuid).

Definition String_ (uuid : UUID) : string := string_of (encodeHex uuid).

Definition URN (uuid : UUID) : string := string_of (bytes_of "urn:uuid:" ++ encodeHex uuid).

(** [NewRandom], given what [io.ReadFull(rander, uuid[:])] delivered: sixteen
    random bytes or an error. *)
Definition NewRandom {E} (random : E + list Z) : E + UUID :=
  match random with
  | inl err => inl err
  | inr uuid =>
      let uuid := <[6%nat := Z.lor (Z.land (uuid !!! 6%nat) 15) 64]> uuid in
      inr (<[8%nat := Z.lor (Z.land (uuid !!! 8%nat) 63) 128]> uuid)
  end.

(** A value of the Go type [UUID], [[16]byte]. *)
Definition valid_uuid (u : UUID) : Prop := length u = 16%nat ∧ Forall is_byte u.

(** The bits of [u] that say nothing about its version are those of [bytes]. *)
Definition random_bits (bytes u : list Z) : Prop :=
  (∀ k, k ≠ 6%nat → k ≠ 8%nat → u !! k = bytes !! k)
  ∧ Z.land (u !!! 6%nat) 15 = Z.land (bytes !!! 6%nat) 15
  ∧ Z.land (u !!! 8%nat) 63 = Z.land (bytes !!! 8%nat) 63.

(** ** Lemmas *)

Lemma land_marked b mask mark : Z.land mark mask = 0 → Z.land (Z.lor (Z.land b mask) mark) mask = Z.land b mask.
Proof. intros H. by rewrite Z.land_lor_distr_l, H, Z.lor_0_r, <- Z.land_assoc, Z.land_diag. Qed.
Lemma NewRandom_bits {E} bytes u :
  valid_uuid bytes → NewRandom (inr bytes : E + list Z) = inr u → random_bits bytes u.
Proof.
  intros [Hlen _] [= <-]. split_and!.
  - intros k H6 H8. by rewrite !list_lookup_insert_ne by done.
  - rewrite list_lookup_total_insert_ne, list_lookup_total_insert_eq by lia. by apply land_marked.
  - rewrite list_lookup_total_insert_eq by (rewrite length_insert; lia).
    rewrite list_lookup_total_insert_ne by lia. by apply land_marked.
Qed.

Lemma bytes_of_string_of l : Forall is_byte l → bytes_of (string_of l) = l.
Proof.
  intros Hl. unfold bytes_of, string_of. rewrite String.list_ascii_of_string_of_list_ascii, <- list_fmap_compose.
  rewrite <- (list_fmap_id l) at 2. apply list_fmap_ext. intros i b Hb.
  apply (Forall_lookup_1 _ _ _ _ Hl) in Hb. unfold is_byte in Hb. simpl.
  rewrite Ascii.N_ascii_embedding; lia.
Qed.

Lemma nibbles b : is_byte b → 0 ≤ Z.shiftr b 4 < 16 ∧ 0 ≤ Z.land b 15 < 16
  ∧ Z.lor (Z.shiftl (Z.shiftr b 4) 4 `mod` 256) (Z.land b 15) = b.
Proof.
  unfold is_byte. intros Hb. rewrite Z.shiftr_div_pow2 by lia.
  change 15 with (Z.ones 4). rewrite Z.land_ones by lia. change (2 ^ 4) with 16.
  split_and!; try (pose proof (Z.mod_pos_bound b 16); pose proof (Z.div_mod b 16); lia).
  assert (∃ n, b = Z.of_nat n ∧ (n < 256)%nat) as (n & -> & Hn) by (exists (Z.to_nat b); lia).
  clear Hb. do 256 (destruct n as [|n]; [vm_compute; reflexivity|]). lia.
Qed.

Lemma hex_value n : 0 ≤ n < 16 → xvalues !!! Z.to_nat (hex_digit n) = n.
Proof.
  intros Hn. assert (∃ k, n = Z.of_nat k ∧ (k < 16)%nat) as (k & -> & Hk) by (exists (Z.to_nat n); lia).
  clear Hn. do 16 (destruct k as [|k]; [reflexivity|]). lia.
Qed.

Lemma hex_digit_byte n : is_byte (hex_digit n).
Proof.
  unfold hex_digit. destruct (decide (Z.to_nat n < 16)%nat) as [Hn|Hn].
  - generalize dependent (Z.to_nat n). intros k Hk.
    do 16 (destruct k as [|k]; [vm_compute; split; congruence|]). lia.
  - rewrite list_lookup_total_alt, lookup_ge_None_2; [vm_compute; split; congruence|]. simpl. lia.
Qed.

Lemma xtob_hex b : is_byte b → xtob (hex_digit (Z.shiftr b 4)) (hex_digit (Z.land b 15)) = (b, true).
Proof.
  intros Hb. destruct (nibbles b Hb) as (Hh & Hl & Hor). unfold xtob.
  rewrite !hex_value by done. rewrite Hor.
  destruct (Z.eqb_spec (Z.shiftr b 4) 255), (Z.eqb_spec (Z.land b 15) 255); (lia || done).
Qed.

Lemma xvalues_bound n : 0 ≤ xvalues !!! n < 256.
Proof.
  destruct (xvalues !! n) as [v|] eqn:Hv.
  - rewrite (list_lookup_total_correct _ _ _ Hv).
    assert (Forall (λ v, 0 ≤ v < 256) xvalues) as Hall by (repeat constructor; lia).
    exact (Forall_lookup_1 _ _ _ _ Hall Hv).
  - rewrite list_lookup_total_alt, Hv. vm_compute. split; congruence.
Qed.

Lemma xtob_byte x1 x2 v ok : xtob x1 x2 = (v, ok) → is_byte v.
Proof.
  unfold xtob. intros [= <- _]. apply (lor_bound _ _ 8); [lia| |apply xvalues_bound].
  apply Z.mod_pos_bound. lia.
Qed.

Lemma parse_digits_valid s xs l :
  parse_digits s xs = inr l → length l = length xs ∧ Forall is_byte l.
Proof.
  revert l. induction xs as [|x xs IH]; intros l; cbn [parse_digits length]; [intros; by simplify_eq|].
  destruct (xtob (s !!! x) (s !!! S x)) as [v ok] eqn:Hx. destruct ok; [|done]. cbn [negb].
  destruct (parse_digits s xs) as [|l']; [done|]. intros. simplify_eq/=.
  destruct (IH l' eq_refl) as [-> Hl]. split; [done|]. constructor; [by eapply xtob_byte|done].
Qed.

(** Whatever [Parse] accepts is a value of the type: the slices that
    [ShardID] takes of it are in range. *)
Lemma Parse_valid s u : Parse s = inr u → valid_uuid u.
Proof.
  assert (∀ l, Parse_form l = inr u → valid_uuid u) as Hform.
  { intros l. unfold Parse_form. case_match; [done|]. apply parse_digits_valid. }
  unfold Parse. repeat case_match; try done; apply Hform.
Qed.

Lemma hex_Encode_bytes l : Forall is_byte (hex_Encode l).
Proof. induction l; simpl; [constructor|]. repeat (constructor; [apply hex_digit_byte|]). done. Qed.

Lemma encodeHex_bytes u : Forall is_byte (encodeHex u).
Proof.
  unfold encodeHex. assert (is_byte dash) by (unfold is_byte, dash; lia).
  repeat (apply Forall_app; split; [apply hex_Encode_bytes|constructor; [done|]]). apply hex_Encode_bytes.
Qed.

Lemma Parse_encodeHex u : valid_uuid u →
  length (encodeHex u) = 36%nat ∧ Parse_form (encodeHex u) = inr u.
Proof.
  intros [Hlen Hb].
  do 16 (destruct u as [|? u]; [discriminate Hlen|]; apply Forall_cons_1 in Hb as [? Hb]).
  destruct u; [|discriminate Hlen]. split; [reflexivity|].
  unfold Parse_form, encodeHex. cbn -[hex_digit xtob Z.shiftr Z.land Z.eqb]. rewrite !Z.eqb_refl. simpl negb. cbn iota.
  simpl orb. cbn iota. by rewrite !xtob_hex by done.
Qed.

Lemma Parse_text u : valid_uuid u → Parse (String_ u) = inr u.
Proof.
  intros Hu. destruct (Parse_encodeHex u Hu) as [Hlen Hform]. unfold Parse, String_.
  rewrite bytes_of_string_of by apply encodeHex_bytes. by rewrite Hlen.
Qed.

(** Both text forms of any UUID, plain and as a URN, parse back
    to it. *)
Theorem Parse_String (u : UUID) : valid_uuid u → Parse (String_ u) = inr u ∧ Parse (URN u) = inr u.
Proof.
  intros Hu. split; [by apply Parse_text|]. destruct (Parse_encodeHex u Hu) as [Hlen Hform].
  unfold Parse, URN. rewrite bytes_of_string_of.
  - by rewrite length_app, Hlen.
  - apply Forall_app. split; [|apply encodeHex_bytes].
    unfold is_byte. repeat (constructor; [vm_compute; split; congruence|]). constructor.
Qed.

(** [NewRandom] delivers version 4, variant 1 UUIDs. *)
Lemma NewRandom_valid {E} (bytes : list Z) (u : UUID) :
  valid_uuid bytes → NewRandom (inr bytes : E + list Z) = inr u → valid_uuid u.
Proof.
  intros [Hlen Hb] [= <-]. split; [by rewrite !length_insert|].
  repeat apply Forall_insert; try done; (apply (lor_bound _ _ 8); [lia| |lia]).
  all: split; [apply Z.land_nonneg; lia|].
  - change 15 with (Z.ones 4). rewrite Z.land_ones by lia.
    pose proof (Z.mod_pos_bound (bytes !!! 6%nat) (2 ^ 4)). lia.
  - change 63 with (Z.ones 6). rewrite Z.land_ones by lia.
    set (x := _ !!! _). pose proof (Z.mod_pos_bound x (2 ^ 6)). lia.
Qed.

Definition sample_uuid : UUID := [171; 18; 0; 255; 1; 2; 67; 4; 133; 6; 7; 8; 9; 10; 11; 12].

Example sample_text : String_ sample_uuid = "ab1200ff-0102-4304-8506-0708090a0b0c".
Proof. vm_compute. reflexivity. Qed.

Lemma Parse_String_witness :
  Parse (String_ sample_uuid) = inr sample_uuid ∧ Parse (URN sample_uuid) = inr sample_uuid.
Proof.
  apply (Parse_String sample_uuid). split; [reflexivity|].
  unfold sample_uuid, is_byte. repeat (constructor; [lia|]). constructor.
Defined.
