(* ===== verification/Mixins.v ===== *)
(** * Actors that know themselves (src/actor/mixins.go, protoactor-go's plugin.go)

    A graph actor embeds a [PIDHolder], and the supervisor spawns it with the
    plugin that sets the pid when the actor is started. The actor dereferences
    its pid in nearly every handler, so it has to be there before the first of
    them runs. *)

From S2P Require Import Prelude.

(** ** mixins.go *)

Record PIDHolder := { ph_pid : option string }.
Definition SetPID (pid : string) (ph : PIDHolder) : PIDHolder := {| ph_pid := Some pid |}.
Definition GetSelf (ph : PIDHolder) : option string := ph_pid ph.

(** Messages of the actor system, and those of users. *)
Inductive actor_message (msg : Type) := ActorStarted | UserMessage (m : msg).
Arguments ActorStarted {msg}.
Arguments UserMessage {msg}.

Section plugins.
Context {A msg : Type}.

(** An instance of [PIDAware]: how the actor [A] is told its pid. An actor that
    is not one is left alone. *)
Definition PIDAware : Type := string → A → A.

Record plugin := {
  OnStart : string → M A unit;
  OnOtherMessage : string → msg → M A unit;
}.

Definition PIDAwarePlugin (aware : option PIDAware) : plugin := {|
  OnStart self := match aware with Some set => modify (set self) | None => mret tt end;
  OnOtherMessage _ _ := mret tt;
|}.

(** Every user message is also sent to the stream. *)
Definition EventStreamPlugin (Tell : msg → M A unit) : plugin := {|
  OnStart _ := mret tt;
  OnOtherMessage _ usrMsg := Tell usrMsg;
|}.

(** plugin.go: the plugin, then the actor. *)
Definition Use (p : plugin) (self : string) (next : actor_message msg → M A unit) (m : actor_message msg) : M A unit :=
  match m with
  | ActorStarted => OnStart p self
  | UserMessage usrMsg => OnOtherMessage p self usrMsg
  end;;
  next m.
End plugins.
Arguments plugin : clear implicits.

(** ** The pid is there when it is used *)

Section self.
Context {X msg : Type} (receive : actor_message msg → M (PIDHolder * X) unit) (self : string).
Abbreviation A := (PIDHolder * X)%type.

(** An actor that embeds the holder, and its instance of [PIDAware]. *)
Definition embedded : PIDAware (A := A) := λ pid '(ph, x), (SetPID pid ph, x).

(** The handlers do not set the pid. *)
Hypothesis receive_keeps : ∀ m, keeps (λ s s', s'.1 = s.1) (receive m).

(** A handler that dereferences the pid first. *)
Definition receive_with_self (m : actor_message msg) : M A unit :=
  s ← get_state;
  deref (GetSelf s.1);;
  receive m.

Lemma with_self_eq m s : is_Some (GetSelf s.1) → receive_with_self m s = receive m s.
Proof. intros [pid Hp]. unfold receive_with_self, mbind, M_bind, get_state. by rewrite Hp. Qed.

Lemma Use_self m s :
  is_Some (GetSelf s.1) ∨ m = ActorStarted →
  Use (PIDAwarePlugin (Some embedded)) self receive_with_self m s = Use (PIDAwarePlugin (Some embedded)) self receive m s
  ∧ ∀ s', Use (PIDAwarePlugin (Some embedded)) self receive m s = Ret tt s' → is_Some (GetSelf s'.1).
Proof.
  intros Hs. destruct s as [ph x].
  assert (∀ s, is_Some (GetSelf s.1) → ∀ s', receive m s = Ret tt s' → is_Some (GetSelf s'.1)) as Hk.
  { intros s Hsome s' Hr. pose proof (receive_keeps m s) as Hkeep. rewrite Hr in Hkeep. simpl in Hkeep. by rewrite Hkeep. }
  destruct m as [|m]; unfold Use, mbind, M_bind; simpl.
  - rewrite with_self_eq by by eexists. split; [done|]. apply Hk. by eexists.
  - destruct Hs as [Hs|?]; [|done]. rewrite with_self_eq by done. split; [done|by apply Hk].
Qed.

(** An actor spawned with the plugin knows its own pid whenever one of its
    handlers runs: since the first message to an actor is that it has been
    started, taking the pid in every handler never dereferences a missing one,
    whatever messages follow and whatever the handlers do. *)
Theorem self_known (ms : list (actor_message msg)) ph x :
  for_each (ActorStarted :: ms) (Use (PIDAwarePlugin (Some embedded)) self receive_with_self) (ph, x)
  = for_each (ActorStarted :: ms) (Use (PIDAwarePlugin (Some embedded)) self receive) (ph, x).
Proof.
  assert (∀ s, is_Some (GetSelf s.1) →
    for_each ms (Use (PIDAwarePlugin (Some embedded)) self receive_with_self) s
    = for_each ms (Use (PIDAwarePlugin (Some embedded)) self receive) s) as Hrest.
  { induction ms as [|m ms' IH]; intros s Hs; [done|]. cbn [for_each]. unfold mbind, M_bind.
    destruct (Use_self m s (or_introl Hs)) as [-> Hnext]. destruct (Use _ self receive m s) as [[] s'| |]; [|done|done].
    by apply IH, Hnext. }
  cbn [for_each]. unfold mbind, M_bind.
  destruct (Use_self ActorStarted (ph, x) (or_intror eq_refl)) as [-> Hnext].
  destruct (Use _ self receive _ (ph, x)) as [[] s'| |]; [|done|done]. by apply Hrest, Hnext.
Qed.
End self.

Lemma self_known_witness :
  for_each [ActorStarted; UserMessage 3; UserMessage 4]
    (Use (PIDAwarePlugin (Some embedded)) "graph" (receive_with_self (λ m, modify (λ '(ph, log), (ph, m :: log)))))
    ({| ph_pid := None |}, [])
  = Ret tt ({| ph_pid := Some "graph" |}, [UserMessage 4; UserMessage 3; ActorStarted]).
Proof.
  rewrite (self_known (λ m, modify (λ '(ph, log), (ph, m :: log))) "graph"); [reflexivity|]. intros m [ph log]. reflexivity.
Defined.
