(* ===== verification/Stage.v ===== *)
(** * Stages and stage strategies (src/graph/stage.go, stage_strategy.go)

    The stage object, the [StageDependency] interface with its two
    implementations, the trigger strategies, and the table that maps an
    operation to its strategy. Function values stored in the Go [strategy]
    struct are represented by their names and interpreted: the trigger
    strategies here, the execution and result-handling strategies in Graph,
    where the listener they call is available. *)

From S2P Require Import Prelude Model.

(** A pointer to a [CompletionStage]: an index into the graph's objects. *)
Abbreviation stage_ptr := nat (only parsing).

Inductive ExecutionPhase := MainExecPhase | TerminationExecPhase.

#[export] Instance ExecutionPhase_eq_dec : EqDecision ExecutionPhase.
Proof. solve_decision. Defined.

(** The functions a [strategy] may hold. *)
Inductive TriggerStrategy := Fn_waitForAll | Fn_triggerAny | Fn_triggerNever.
Inductive ExecutionStrategy :=
  | Fn_succeedWithEmpty | Fn_invokeWithoutArgs | Fn_invokeWithResult
  | Fn_invokeWithResultOrError | Fn_completeExternally | Fn_propagateResult.
Inductive ResultHandlingStrategy :=
  | Fn_invocationResult | Fn_referencedStageResult | Fn_parentStageResult
  | Fn_noResultStrategy.

Record strategy := mk_strategy {
  CanAddChildren : bool;
  TakesClosure : bool;
  MaxDependencies : Z;
  MinDependencies : Z;
  strat_Trigger : TriggerStrategy;
  strat_Success : ExecutionStrategy;
  strat_Failure : ExecutionStrategy;
  strat_ResultHandling : ResultHandlingStrategy;
}.

(** [getStrategyFromOperation]; [None] is the error return. *)
Definition getStrategyFromOperation (operation : CompletionOperation) : option strategy :=
  match operation with
  | acceptEither => Some (mk_strategy true true 2 2 Fn_triggerAny Fn_invokeWithResult Fn_propagateResult Fn_invocationResult)
  | applyToEither => Some (mk_strategy true true 2 2 Fn_triggerAny Fn_invokeWithResult Fn_propagateResult Fn_invocationResult)
  | thenAcceptBoth => Some (mk_strategy true true 2 2 Fn_waitForAll Fn_invokeWithResult Fn_propagateResult Fn_invocationResult)
  | thenApply => Some (mk_strategy true true 1 1 Fn_triggerAny Fn_invokeWithResult Fn_propagateResult Fn_invocationResult)
  | thenRun => Some (mk_strategy true true 1 1 Fn_triggerAny Fn_invokeWithoutArgs Fn_propagateResult Fn_invocationResult)
  | thenAccept => Some (mk_strategy true true 1 1 Fn_triggerAny Fn_invokeWithResult Fn_propagateResult Fn_invocationResult)
  | thenCompose => Some (mk_strategy true true 1 1 Fn_triggerAny Fn_invokeWithResult Fn_propagateResult Fn_referencedStageResult)
  | thenCombine => Some (mk_strategy true true 2 2 Fn_waitForAll Fn_invokeWithResult Fn_propagateResult Fn_invocationResult)
  | whenComplete => Some (mk_strategy true true 1 1 Fn_triggerAny Fn_invokeWithResultOrError Fn_invokeWithResultOrError Fn_parentStageResult)
  | handle => Some (mk_strategy true true 1 1 Fn_triggerAny Fn_invokeWithResultOrError Fn_invokeWithResultOrError Fn_invocationResult)
  | supply => Some (mk_strategy true true 0 0 Fn_waitForAll Fn_invokeWithoutArgs Fn_propagateResult Fn_invocationResult)
  | invokeFunction => Some (mk_strategy true false 0 0 Fn_waitForAll Fn_completeExternally Fn_completeExternally Fn_invocationResult)
  | completedValue => Some (mk_strategy true false 0 0 Fn_triggerNever Fn_completeExternally Fn_propagateResult Fn_noResultStrategy)
  | delay => Some (mk_strategy true false 0 0 Fn_triggerNever Fn_completeExternally Fn_completeExternally Fn_noResultStrategy)
  | allOf => Some (mk_strategy true false (-1) 0 Fn_waitForAll Fn_succeedWithEmpty Fn_propagateResult Fn_noResultStrategy)
  | anyOf => Some (mk_strategy true false (-1) 1 Fn_triggerAny Fn_propagateResult Fn_propagateResult Fn_noResultStrategy)
  | externalCompletion => Some (mk_strategy true false 0 0 Fn_triggerNever Fn_completeExternally Fn_completeExternally Fn_noResultStrategy)
  | exceptionally => Some (mk_strategy true true 1 1 Fn_triggerAny Fn_propagateResult Fn_invokeWithResult Fn_invocationResult)
  | terminationHook => Some (mk_strategy false true 0 0 Fn_waitForAll Fn_invokeWithResult Fn_invokeWithResult Fn_parentStageResult)
  | exceptionallyCompose => Some (mk_strategy true true 1 1 Fn_triggerAny Fn_propagateResult Fn_invokeWithResult Fn_referencedStageResult)
  | unknown_operation | other_operation _ => None
  end.

(** ** Stage objects *)

(** [dependencies []StageDependency]: pointers to other stages, or to the
    graph's termination root, the only [RawDependency] of the program. *)
Inductive dependency_ref := StageRef (p : stage_ptr) | TerminationRootRef.

Record RawDependency := { raw_ID : string; raw_result : option CompletionResult }.

(** [actor.Future]: the result told to its PID, if any. *)
Record Future := { future_result : option CompletionResult }.
Definition NewFuture : Future := {| future_result := None |}.
Definition future_Tell (f : Future) (r : option CompletionResult) : Future :=
  match future_result f with None => {| future_result := r |} | Some _ => f end.

Record CompletionStage := {
  stage_ID : string;
  stage_result : option CompletionResult;
  stage_operation : CompletionOperation;
  stage_strategy : strategy;
  stage_closure : option BlobDatum;
  stage_dependencies : list dependency_ref;
  stage_children : list stage_ptr;
  stage_whenComplete : Future;
  stage_composeReference : option stage_ptr;
  stage_triggered : bool;
  stage_execPhase : ExecutionPhase;
}.

Definition set_triggered (s : CompletionStage) : CompletionStage :=
  {| stage_ID := stage_ID s; stage_result := stage_result s;
     stage_operation := stage_operation s; stage_strategy := stage_strategy s;
     stage_closure := stage_closure s; stage_dependencies := stage_dependencies s;
     stage_children := stage_children s; stage_whenComplete := stage_whenComplete s;
     stage_composeReference := stage_composeReference s; stage_triggered := true;
     stage_execPhase := stage_execPhase s |}.
Definition set_result (r : option CompletionResult) (s : CompletionStage) : CompletionStage :=
  {| stage_ID := stage_ID s; stage_result := r;
     stage_operation := stage_operation s; stage_strategy := stage_strategy s;
     stage_closure := stage_closure s; stage_dependencies := stage_dependencies s;
     stage_children := stage_children s;
     stage_whenComplete := future_Tell (stage_whenComplete s) r;
     stage_composeReference := stage_composeReference s;
     stage_triggered := stage_triggered s; stage_execPhase := stage_execPhase s |}.
Definition set_composeReference (o : option stage_ptr) (s : CompletionStage) : CompletionStage :=
  {| stage_ID := stage_ID s; stage_result := stage_result s;
     stage_operation := stage_operation s; stage_strategy := stage_strategy s;
     stage_closure := stage_closure s; stage_dependencies := stage_dependencies s;
     stage_children := stage_children s; stage_whenComplete := stage_whenComplete s;
     stage_composeReference := o; stage_triggered := stage_triggered s;
     stage_execPhase := stage_execPhase s |}.
Definition set_dependencies (d : list dependency_ref) (s : CompletionStage) : CompletionStage :=
  {| stage_ID := stage_ID s; stage_result := stage_result s;
     stage_operation := stage_operation s; stage_strategy := stage_strategy s;
     stage_closure := stage_closure s; stage_dependencies := d;
     stage_children := stage_children s; stage_whenComplete := stage_whenComplete s;
     stage_composeReference := stage_composeReference s;
     stage_triggered := stage_triggered s; stage_execPhase := stage_execPhase s |}.
Definition add_child (c : stage_ptr) (s : CompletionStage) : CompletionStage :=
  {| stage_ID := stage_ID s; stage_result := stage_result s;
     stage_operation := stage_operation s; stage_strategy := stage_strategy s;
     stage_closure := stage_closure s; stage_dependencies := stage_dependencies s;
     stage_children := stage_children s ++ [c]; stage_whenComplete := stage_whenComplete s;
     stage_composeReference := stage_composeReference s;
     stage_triggered := stage_triggered s; stage_execPhase := stage_execPhase s |}.

(** ** The [StageDependency] interface *)

Class StageDependency (T : Type) := {
  GetID : T → string;
  GetResult : T → option CompletionResult;
}.

Section StageDependency.
Context `{StageDependency T}.
Definition IsResolved (d : T) : bool :=
  match GetResult d with Some _ => true | None => false end.
Definition IsSuccessful (d : T) : bool :=
  IsResolved d && match GetResult d with Some r => Successful r | None => false end.
Definition IsFailed (d : T) : bool :=
  IsResolved d && negb (match GetResult d with Some r => Successful r | None => false end).
End StageDependency.

#[export] Instance RawDependency_dep : StageDependency RawDependency :=
  {| GetID := raw_ID; GetResult := raw_result |}.
#[export] Instance CompletionStage_dep : StageDependency CompletionStage :=
  {| GetID := stage_ID; GetResult := stage_result |}.

(** A dereferenced dependency: an interface value. *)
Inductive Dependency := DStage (s : CompletionStage) | DRaw (r : RawDependency).
#[export] Instance Dependency_dep : StageDependency Dependency :=
  {| GetID := λ d, match d with DStage s => GetID s | DRaw r => GetID r end;
     GetResult := λ d, match d with DStage s => GetResult s | DRaw r => GetResult r end |}.

Definition IsTriggered (s : CompletionStage) : bool := IsResolved s || stage_triggered s.

(** ** Trigger strategies

    (shouldTrigger, successfulTrigger, inputs), the inputs being pointers.
    [None]: the function panics (a method call on a nil interface). *)
Definition trigger_result : Type := bool * bool * list (option CompletionResult).

Section trigger.
Context `{StageDependency T}.

Definition waitForAll (dependencies : list T) : option trigger_result :=
  let results := omap (λ s, if IsResolved s then Some (GetResult s) else None) dependencies in
  if Nat.eqb (length results) (length dependencies) then
    match List.find IsFailed dependencies with
    | Some s => Some (true, false, [GetResult s])
    | None => Some (true, true, results)
    end
  else Some (false, false, []).

(** The loop of [triggerAny], with its two local variables. *)
Fixpoint triggerAny_loop (haveUnresolved : bool) (firstFailure : option T)
    (dependencies : list T) : option trigger_result :=
  match dependencies with
  | [] =>
      if negb haveUnresolved
      then s ← firstFailure; Some (true, false, [GetResult s])
      else Some (false, false, [])
  | s :: rest =>
      if IsResolved s then
        if negb (IsFailed s) then Some (true, true, [GetResult s])
        else triggerAny_loop haveUnresolved (Some s) rest
      else triggerAny_loop true firstFailure rest
  end.

Definition triggerAny (dependencies : list T) : option trigger_result :=
  if Nat.eqb 0 (length dependencies) then Some (false, false, [])
  else triggerAny_loop false None dependencies.

Definition triggerNever (dependencies : list T) : option trigger_result :=
  Some (false, false, []).

Definition run_trigger (t : TriggerStrategy) : list T → option trigger_result :=
  match t with
  | Fn_waitForAll => waitForAll
  | Fn_triggerAny => triggerAny
  | Fn_triggerNever => triggerNever
  end.
End trigger.
