(* ===== verification/StageFacts.v ===== *)
(** * Properties of the stage strategies

    When each trigger strategy fires and with what input, that no trigger
    panics, and that every operation's strategies receive the number of inputs
    they accept. *)

From S2P Require Import Prelude Model Stage.

(** A trigger strategy only looks at the results of its dependencies: an
    [option CompletionResult] is itself a dependency, with no name. *)
#[export] Instance result_dep : StageDependency (option CompletionResult) :=
  {| GetID := λ _, ""; GetResult := λ r, r |}.

Section trigger_facts.
Context `{StageDependency T}.
Implicit Types (d : T) (deps : list T).

Lemma IsResolved_result d : IsResolved d = IsResolved (GetResult d).
Proof. reflexivity. Qed.
Lemma IsFailed_result d : IsFailed d = IsFailed (GetResult d).
Proof. reflexivity. Qed.

Lemma IsResolved_true d : IsResolved d = true ↔ is_Some (GetResult d).
Proof.
  unfold IsResolved. destruct (GetResult d); [by split; eauto|].
  split; [done|by intros [? ?]].
Qed.
Lemma IsFailed_resolved d : IsFailed d = true → IsResolved d = true.
Proof. unfold IsFailed. by destruct (IsResolved d). Qed.
Lemma resolved_failed_or_successful d :
  IsResolved d = true → IsFailed d = negb (IsSuccessful d).
Proof. unfold IsFailed, IsSuccessful. by intros ->. Qed.

Lemma collect_results deps :
  omap (λ s, if IsResolved s then Some (GetResult s) else None) deps
  = omap (λ s : option CompletionResult, if IsResolved s then Some (GetResult s) else None)
      (GetResult <$> deps).
Proof.
  induction deps as [|d deps IH]; [done|]. cbn -[IsResolved].
  rewrite IsResolved_result.
  destruct (IsResolved (GetResult d)); f_equal; apply IH.
Qed.

Lemma find_failed_results deps :
  GetResult <$> List.find IsFailed deps = List.find IsFailed (GetResult <$> deps).
Proof.
  induction deps as [|d deps IH]; [done|]. cbn -[IsFailed].
  rewrite IsFailed_result. by destruct (IsFailed (GetResult d)).
Qed.

Lemma waitForAll_results deps : waitForAll deps = waitForAll (GetResult <$> deps).
Proof.
  unfold waitForAll. rewrite collect_results, length_fmap, <- find_failed_results.
  case_match; [|done]. by destruct (List.find IsFailed deps).
Qed.

Lemma triggerAny_loop_results deps u (f : option T) :
  triggerAny_loop u f deps = triggerAny_loop u (GetResult <$> f) (GetResult <$> deps).
Proof.
  revert u f. induction deps as [|d deps IH]; intros u f; simpl.
  { destruct u; simpl; [done|]. by destruct f. }
  rewrite IsResolved_result, IsFailed_result. simpl.
  destruct (IsResolved (GetResult d)); [|apply IH].
  destruct (IsFailed (GetResult d)); simpl; [|done]. apply (IH u (Some d)).
Qed.

Lemma run_trigger_results t deps : run_trigger t deps = run_trigger t (GetResult <$> deps).
Proof.
  destruct t; simpl; [apply waitForAll_results| |done].
  unfold triggerAny. rewrite length_fmap. case_match; [done|].
  apply (triggerAny_loop_results _ _ None).
Qed.

(** Collecting the results of resolved dependencies. *)
Lemma collect_all deps :
  Forall (λ d, IsResolved d = true) deps →
  omap (λ s, if IsResolved s then Some (GetResult s) else None) deps = GetResult <$> deps.
Proof.
  induction 1 as [|d deps Hd _ IH]; [done|]. cbn -[IsResolved].
  rewrite Hd. f_equal. apply IH.
Qed.
Lemma collect_length deps :
  length (omap (λ s, if IsResolved s then Some (GetResult s) else None) deps) ≤ length deps.
Proof.
  induction deps as [|d deps IH]; [done|]. rewrite list_omap_cons.
  destruct (IsResolved d); simpl; lia.
Qed.
Lemma collect_length_all deps :
  length (omap (λ s, if IsResolved s then Some (GetResult s) else None) deps) = length deps →
  Forall (λ d, IsResolved d = true) deps.
Proof.
  induction deps as [|d deps IH]; [constructor|]. rewrite list_omap_cons.
  pose proof (collect_length deps). destruct (IsResolved d) eqn:Hd; simpl; [|lia].
  intros. constructor; auto.
Qed.

Lemma find_none (f : T → bool) deps : Forall (λ d, f d = false) deps → List.find f deps = None.
Proof. induction 1 as [|d deps Hd _ IH]; simpl; [done|]. by rewrite Hd. Qed.
Lemma find_first (f : T → bool) l1 d l2 :
  Forall (λ d, f d = false) l1 → f d = true → List.find f (l1 ++ d :: l2) = Some d.
Proof. intros Hl Hd. induction Hl as [|x l Hx _ IH]; simpl; [by rewrite Hd|by rewrite Hx]. Qed.

Lemma waitForAll_all_ok deps :
  Forall (λ d, IsResolved d = true) deps → Forall (λ d, IsFailed d = false) deps →
  waitForAll deps = Some (true, true, GetResult <$> deps).
Proof.
  intros Hr Hf. unfold waitForAll.
  by rewrite (collect_all _ Hr), length_fmap, Nat.eqb_refl, (find_none _ _ Hf).
Qed.
Lemma waitForAll_first_failure l1 d l2 :
  Forall (λ d, IsResolved d = true) (l1 ++ d :: l2) →
  Forall (λ d, IsFailed d = false) l1 → IsFailed d = true →
  waitForAll (l1 ++ d :: l2) = Some (true, false, [GetResult d]).
Proof.
  intros Hr Hf Hd. unfold waitForAll.
  by rewrite (collect_all _ Hr), length_fmap, Nat.eqb_refl, (find_first _ _ _ _ Hf Hd).
Qed.
Lemma waitForAll_unresolved deps :
  ¬ Forall (λ d, IsResolved d = true) deps → waitForAll deps = Some (false, false, []).
Proof.
  intros Hr. unfold waitForAll. case_match eqn:He; [|done].
  apply Nat.eqb_eq in He. by apply collect_length_all in He.
Qed.

Lemma triggerAny_first_success l1 d l2 :
  Forall (λ d, IsSuccessful d = false) l1 → IsSuccessful d = true →
  triggerAny (l1 ++ d :: l2) = Some (true, true, [GetResult d]).
Proof.
  intros Hl Hd. unfold triggerAny.
  assert (Nat.eqb 0 (length (l1 ++ d :: l2)) = false) as ->.
  { apply Nat.eqb_neq. rewrite length_app. simpl. lia. }
  generalize false (@None T).
  induction Hl as [|x l Hx _ IH]; intros u f; simpl.
  - assert (IsResolved d = true) as Hr.
    { unfold IsSuccessful in Hd. by destruct (IsResolved d). }
    by rewrite Hr, (resolved_failed_or_successful _ Hr), Hd.
  - destruct (IsResolved x) eqn:Hr; [|apply IH].
    rewrite (resolved_failed_or_successful _ Hr), Hx. apply IH.
Qed.
Lemma triggerAny_all_failed l d :
  Forall (λ d, IsFailed d = true) (l ++ [d]) →
  triggerAny (l ++ [d]) = Some (true, false, [GetResult d]).
Proof.
  intros Hl. unfold triggerAny.
  assert (Nat.eqb 0 (length (l ++ [d])) = false) as ->.
  { apply Nat.eqb_neq. rewrite length_app. simpl. lia. }
  generalize (@None T). induction l as [|x l IH]; intros f; simpl;
    apply Forall_cons in Hl as [Hx Hl]; rewrite (IsFailed_resolved _ Hx), Hx; simpl; auto.
Qed.
Lemma triggerAny_waits deps :
  Forall (λ d, IsSuccessful d = false) deps →
  deps = [] ∨ Exists (λ d, IsResolved d = false) deps →
  triggerAny deps = Some (false, false, []).
Proof.
  intros Hs Hu. unfold triggerAny. case_match eqn:He; [done|].
  destruct Hu as [->|Hu]; [done|]. clear He.
  assert (∀ (f : option T) u, (u = true ∨ Exists (λ d, IsResolved d = false) deps) →
    triggerAny_loop u f deps = Some (false, false, [])) as Hl; [|eauto].
  clear Hu. induction Hs as [|x l Hx _ IH]; intros f u Hu; simpl.
  { destruct Hu as [->|Hu]; [done|inversion Hu]. }
  destruct (IsResolved x) eqn:Hr.
  - rewrite (resolved_failed_or_successful _ Hr), Hx. simpl. apply IH.
    destruct Hu as [?|Hu]; [by left|right]. inversion Hu; [congruence|done].
  - apply IH. by left.
Qed.
End trigger_facts.

Section classify.
Context `{StageDependency T}.
Implicit Types (deps : list T).

Lemma first_success_or_none deps :
  (∃ l1 d l2, deps = l1 ++ d :: l2 ∧ Forall (λ d, IsSuccessful d = false) l1 ∧ IsSuccessful d = true)
  ∨ Forall (λ d, IsSuccessful d = false) deps.
Proof.
  induction deps as [|x deps IH]; [by right|].
  destruct (IsSuccessful x) eqn:Hx; [left; by exists [], x, deps|].
  destruct IH as [(l1 & d & l2 & -> & Hl & Hd)|IH]; [left|right; by constructor].
  exists (x :: l1), d, l2. split_and!; [done|by constructor|done].
Qed.

Lemma first_failure_or_none deps :
  (∃ l1 d l2, deps = l1 ++ d :: l2 ∧ Forall (λ d, IsFailed d = false) l1 ∧ IsFailed d = true)
  ∨ Forall (λ d, IsFailed d = false) deps.
Proof.
  induction deps as [|x deps IH]; [by right|].
  destruct (IsFailed x) eqn:Hx; [left; by exists [], x, deps|].
  destruct IH as [(l1 & d & l2 & -> & Hl & Hd)|IH]; [left|right; by constructor].
  exists (x :: l1), d, l2. split_and!; [done|by constructor|done].
Qed.

Lemma no_success_cases deps :
  Forall (λ d, IsSuccessful d = false) deps →
  (deps = [] ∨ Exists (λ d, IsResolved d = false) deps)
  ∨ ∃ l d, deps = l ++ [d] ∧ Forall (λ d, IsFailed d = true) deps.
Proof.
  intros Hs. destruct (decide (Exists (λ d, IsResolved d = false) deps)) as [?|Hn]; [by left; right|].
  destruct deps as [|d0 deps'] using rev_ind; [by left; left|right].
  exists deps', d0. split; [done|].
  apply not_Exists_Forall in Hn; [|intros d; apply _].
  eapply Forall_impl; [apply Forall_and; split; [exact Hs|exact Hn]|].
  intros d [Hd Hr]. simpl in *. apply not_false_is_true in Hr.
  by rewrite (resolved_failed_or_successful _ Hr), Hd.
Qed.

(** What every trigger strategy returns: it never panics, and when it fires
    its inputs are resolved results; a failing trigger, and any trigger of
    [triggerAny], has exactly one input. *)
Lemma run_trigger_inv t deps :
  ∃ fires status results, run_trigger t deps = Some (fires, status, results)
    ∧ (fires = true → Forall is_Some results)
    ∧ (fires = true → t = Fn_triggerAny ∨ status = false → ∃ r, results = [Some r]).
Proof.
  assert (∀ d : T, IsResolved d = true → ∃ r, GetResult d = Some r) as HR.
  { intros d Hd. by apply IsResolved_true in Hd. }
  destruct t; simpl.
  - destruct (decide (Forall (λ d : T, IsResolved d = true) deps)) as [Hr|Hr].
    + destruct (first_failure_or_none deps) as [(l1 & d & l2 & -> & Hl & Hd)|Hf].
      * rewrite waitForAll_first_failure by done.
        destruct (HR d (IsFailed_resolved _ Hd)) as [r Er]. rewrite Er.
        eexists _, _, _. split; [done|]. split; [by repeat constructor|by eauto].
      * rewrite waitForAll_all_ok by done. eexists _, _, _. split; [done|].
        split; [|by intros _ [?|?]]. intros _. apply Forall_fmap.
        eapply Forall_impl; [exact Hr|]. intros d Hd. destruct (HR d Hd) as [r Er].
        simpl. rewrite Er. by eexists.
    + rewrite waitForAll_unresolved by done. by eexists _, _, _.
  - destruct (first_success_or_none deps) as [(l1 & d & l2 & -> & Hl & Hd)|Hs].
    + rewrite triggerAny_first_success by done.
      assert (IsResolved d = true) as Hr by (unfold IsSuccessful in Hd; by destruct (IsResolved d)).
      destruct (HR d Hr) as [r Er]. rewrite Er.
      eexists _, _, _. split; [done|]. split; [by repeat constructor|by eauto].
    + destruct (no_success_cases _ Hs) as [Hw|(l & d & -> & Hf)].
      * rewrite triggerAny_waits by done. by eexists _, _, _.
      * rewrite triggerAny_all_failed by done.
        apply Forall_app in Hf as [_ Hf]. apply Forall_cons in Hf as [Hf _].
        destruct (HR d (IsFailed_resolved _ Hf)) as [r Er]. rewrite Er.
        eexists _, _, _. split; [done|]. split; [by repeat constructor|by eauto].
  - by eexists _, _, _.
Qed.
End classify.

Lemma stage_resolved (x : CompletionStage) : IsResolved x = true ↔ is_Some (stage_result x).
Proof. exact (IsResolved_true x). Qed.

(** A trigger that does not fire is waiting for something, unless it never fires. *)
Lemma not_fires `{StageDependency T} t (deps : list T) :
  (∃ status results, run_trigger t deps = Some (false, status, results)) →
  t = Fn_triggerNever ∨ t = Fn_triggerAny ∧ deps = [] ∨ Exists (λ d, IsResolved d = false) deps.
Proof.
  intros (status & results & Hrun).
  destruct (decide (Exists (λ d, IsResolved d = false) deps)) as [?|Hn]; [auto|].
  apply not_Exists_Forall in Hn; [|intros ?; apply _].
  assert (Forall (λ d, IsResolved d = true) deps) as Hr.
  { eapply Forall_impl; [exact Hn|]. intros d. apply not_false_is_true. }
  destruct t; simpl in Hrun; [| |auto].
  - destruct (first_failure_or_none deps) as [(l1 & d & l2 & -> & Hl & Hd)|Hf].
    + by rewrite waitForAll_first_failure in Hrun.
    + by rewrite waitForAll_all_ok in Hrun.
  - destruct (first_success_or_none deps) as [(l1 & d & l2 & -> & Hl & Hd)|Hs].
    + by rewrite triggerAny_first_success in Hrun.
    + destruct (no_success_cases _ Hs) as [[->|Hex]|(l & d & -> & Hf)]; [auto| |].
      * apply Exists_exists in Hex as (d & Hd & Hu). rewrite Forall_forall in Hr.
        specialize (Hr d Hd). congruence.
      * by rewrite triggerAny_all_failed in Hrun.
Qed.

(** The inputs an execution strategy accepts without panicking. *)
Definition accepts (f : ExecutionStrategy) (results : list (option CompletionResult)) : Prop :=
  match f with
  | Fn_invokeWithResultOrError | Fn_propagateResult => ∃ r, results = [Some r]
  | _ => True
  end.

Lemma strategy_accepts `{StageDependency T} op strat (deps : list T) status results :
  getStrategyFromOperation op = Some strat →
  run_trigger (strat_Trigger strat) deps = Some (true, status, results) →
  accepts (if status then strat_Success strat else strat_Failure strat) results.
Proof.
  intros Hop Hrun.
  destruct (run_trigger_inv (strat_Trigger strat) deps) as (f & st & rs & Hrun' & _ & Hone).
  rewrite Hrun in Hrun'. simplify_eq. specialize (Hone eq_refl).
  destruct op, st; simpl in Hop; simplify_eq; simpl; auto.
Qed.

(** [waitForAll] is determined by its dependencies: with all of them
    successful it fires successfully with all results in order; with all
    resolved and some failed it fires as a failure carrying the result of the
    first failed dependency; while any dependency is unresolved it does not
    fire, whatever the others are. *)
Theorem waitForAll_spec `{StageDependency T} (deps : list T) :
  (Forall (λ d, IsResolved d = true) deps → Forall (λ d, IsFailed d = false) deps →
     waitForAll deps = Some (true, true, GetResult <$> deps))
  ∧ (∀ l1 d l2, deps = l1 ++ d :: l2 → Forall (λ d, IsResolved d = true) deps →
       Forall (λ d, IsFailed d = false) l1 → IsFailed d = true →
       waitForAll deps = Some (true, false, [GetResult d]))
  ∧ (Exists (λ d, IsResolved d = false) deps → waitForAll deps = Some (false, false, [])).
Proof.
  split_and!.
  - apply waitForAll_all_ok.
  - intros l1 d l2 ->. apply waitForAll_first_failure.
  - intros Hex. apply waitForAll_unresolved. intros Hall.
    apply Exists_exists in Hex as (d & Hd & Hu).
    rewrite Forall_forall in Hall. specialize (Hall d Hd). congruence.
Qed.

(** [triggerAny] fires with the first successful dependency as soon as
    there is one, even while others are unresolved; when every dependency has
    failed it fires as a failure carrying the result of the LAST one (the
    comment on the function announces the first); otherwise it waits. *)
Theorem triggerAny_spec `{StageDependency T} (deps : list T) :
  (∀ l1 d l2, deps = l1 ++ d :: l2 → Forall (λ d, IsSuccessful d = false) l1 →
     IsSuccessful d = true → triggerAny deps = Some (true, true, [GetResult d]))
  ∧ (∀ l d, deps = l ++ [d] → Forall (λ d, IsFailed d = true) deps →
       triggerAny deps = Some (true, false, [GetResult d]))
  ∧ (Forall (λ d, IsSuccessful d = false) deps →
     deps = [] ∨ Exists (λ d, IsResolved d = false) deps →
     triggerAny deps = Some (false, false, [])).
Proof.
  split_and!.
  - intros l1 d l2 ->. apply triggerAny_first_success.
  - intros l d ->. apply triggerAny_all_failed.
  - apply triggerAny_waits.
Qed.
