(* ===== verification/Graph.v ===== *)
(** * The completion graph (src/graph/graph.go)

    The graph object, its handlers and [UpdateWithEvent], written against the
    [CompletionEventListener] interface: every handler runs in a state [S]
    that holds the graph (class [HasGraph]) and calls the listener back in the
    middle of its work, exactly where the Go code does. Nothing here says what
    the listener does; the graph actor (GraphActor) implements it by updating
    this same graph, re-entrantly.

    Stages live in a store of objects, [gr_objects], and every Go pointer to a
    stage (map entries, dependencies, children, compose references, the head
    of the termination chain) is an index into it, so that aliasing is as in
    the source. *)

From S2P Require Import Prelude Model Stage.

Definition maxDelaySeconds : Z := 86400.
Definition maxStages : Z := 1000.
Definition maxTerminationHooks : Z := 100.

Inductive State := StateInitial | StateCommitted | StateTerminating | StateCompleted.

#[export] Instance State_eq_dec : EqDecision State.
Proof. solve_decision. Defined.

Record CompletionGraph := {
  gr_ID : string;
  gr_FunctionID : string;
  gr_objects : list CompletionStage;
  gr_stages : gmap string stage_ptr;
  gr_state : State;
  gr_terminationRoot : RawDependency;
  gr_terminationChainHead : option stage_ptr;
  gr_startTime : Z;
  (** how many [range] loops over [stages] have started: indexes the oracle
      of iteration orders, no counterpart in the source *)
  gr_iterations : nat;
}.

(** ** Field updates *)

Definition with_objects (f : list CompletionStage → list CompletionStage) (g : CompletionGraph) : CompletionGraph :=
  {| gr_ID := gr_ID g; gr_FunctionID := gr_FunctionID g; gr_objects := f (gr_objects g);
     gr_stages := gr_stages g; gr_state := gr_state g;
     gr_terminationRoot := gr_terminationRoot g;
     gr_terminationChainHead := gr_terminationChainHead g;
     gr_startTime := gr_startTime g; gr_iterations := gr_iterations g |}.
Definition with_stages (f : gmap string stage_ptr → gmap string stage_ptr) (g : CompletionGraph) : CompletionGraph :=
  {| gr_ID := gr_ID g; gr_FunctionID := gr_FunctionID g; gr_objects := gr_objects g;
     gr_stages := f (gr_stages g); gr_state := gr_state g;
     gr_terminationRoot := gr_terminationRoot g;
     gr_terminationChainHead := gr_terminationChainHead g;
     gr_startTime := gr_startTime g; gr_iterations := gr_iterations g |}.
Definition with_state (st : State) (g : CompletionGraph) : CompletionGraph :=
  {| gr_ID := gr_ID g; gr_FunctionID := gr_FunctionID g; gr_objects := gr_objects g;
     gr_stages := gr_stages g; gr_state := st;
     gr_terminationRoot := gr_terminationRoot g;
     gr_terminationChainHead := gr_terminationChainHead g;
     gr_startTime := gr_startTime g; gr_iterations := gr_iterations g |}.
Definition with_terminationRoot (r : RawDependency) (g : CompletionGraph) : CompletionGraph :=
  {| gr_ID := gr_ID g; gr_FunctionID := gr_FunctionID g; gr_objects := gr_objects g;
     gr_stages := gr_stages g; gr_state := gr_state g; gr_terminationRoot := r;
     gr_terminationChainHead := gr_terminationChainHead g;
     gr_startTime := gr_startTime g; gr_iterations := gr_iterations g |}.
Definition with_terminationChainHead (h : option stage_ptr) (g : CompletionGraph) : CompletionGraph :=
  {| gr_ID := gr_ID g; gr_FunctionID := gr_FunctionID g; gr_objects := gr_objects g;
     gr_stages := gr_stages g; gr_state := gr_state g;
     gr_terminationRoot := gr_terminationRoot g; gr_terminationChainHead := h;
     gr_startTime := gr_startTime g; gr_iterations := gr_iterations g |}.
Definition with_startTime (t : Z) (g : CompletionGraph) : CompletionGraph :=
  {| gr_ID := gr_ID g; gr_FunctionID := gr_FunctionID g; gr_objects := gr_objects g;
     gr_stages := gr_stages g; gr_state := gr_state g;
     gr_terminationRoot := gr_terminationRoot g;
     gr_terminationChainHead := gr_terminationChainHead g;
     gr_startTime := t; gr_iterations := gr_iterations g |}.
Definition next_iteration (g : CompletionGraph) : CompletionGraph :=
  {| gr_ID := gr_ID g; gr_FunctionID := gr_FunctionID g; gr_objects := gr_objects g;
     gr_stages := gr_stages g; gr_state := gr_state g;
     gr_terminationRoot := gr_terminationRoot g;
     gr_terminationChainHead := gr_terminationChainHead g;
     gr_startTime := gr_startTime g; gr_iterations := S (gr_iterations g) |}.
Definition alter_stage (f : CompletionStage → CompletionStage) (p : stage_ptr) : CompletionGraph → CompletionGraph :=
  with_objects (alter f p).

(** ** Pure operations *)

Definition New (id functionID : string) (now : Z) : CompletionGraph :=
  {| gr_ID := id; gr_FunctionID := functionID; gr_objects := []; gr_stages := ∅;
     gr_state := StateInitial;
     gr_terminationRoot := {| raw_ID := "_termination"; raw_result := None |};
     gr_terminationChainHead := None; gr_startTime := now; gr_iterations := 0 |}.

Definition SetResult (result : CompletionResult) (r : RawDependency) : RawDependency :=
  {| raw_ID := raw_ID r; raw_result := Some result |}.

(** [graph.GetStage(id)]: nil when the stage is not found. *)
Definition GetStage (g : CompletionGraph) (stageID : string) : option stage_ptr := gr_stages g !! stageID.

(** The stages [GetStages] lists, in key order. *)
Definition GetStages (g : CompletionGraph) : list CompletionStage :=
  omap (λ kp, gr_objects g !! kp.2) (map_to_list (gr_stages g)).

Definition NextStageID (g : CompletionGraph) : string := itoa (size (gr_stages g)).

Definition IsCommitted (g : CompletionGraph) : bool :=
  match gr_state g with StateInitial => false | _ => true end.
Definition IsCompleted (g : CompletionGraph) : bool := bool_decide (gr_state g = StateCompleted).
Definition canModifyGraph (g : CompletionGraph) : bool :=
  match gr_state g with StateInitial | StateCommitted => true | _ => false end.

(** The pending stages of a phase; [getPendingCount] counts them in a [uint32]. *)
Definition is_pending (phase : ExecutionPhase) (s : CompletionStage) : Prop :=
  stage_execPhase s = phase ∧ IsResolved s = false.
#[export] Instance is_pending_dec phase s : Decision (is_pending phase s).
Proof. unfold is_pending. apply _. Defined.
Definition getPendingCount (g : CompletionGraph) (phase : ExecutionPhase) : Z :=
  uint32 (Z.of_nat (length (filter (is_pending phase) (GetStages g)))).

Definition validateStages (g : CompletionGraph) (stageIDs : list string) : bool :=
  forallb (λ id, match GetStage g id with Some _ => true | None => false end) stageIDs.

(** The object behind an interface value of [dependencies]. *)
Definition load_dep (g : CompletionGraph) (d : dependency_ref) : option Dependency :=
  match d with
  | StageRef p => DStage <$> gr_objects g !! p
  | TerminationRootRef => Some (DRaw (gr_terminationRoot g))
  end.
Definition load_deps (g : CompletionGraph) (ds : list dependency_ref) : option (list Dependency) :=
  mapM (load_dep g) ds.

(** [ptypes.Timestamp] (vendored with the program): the time in nanoseconds and
    whether the conversion reports an error. *)
Definition validateTimestamp (ts : option Timestamp) : bool :=
  match ts with
  | None => false
  | Some ts =>
      ((-62135596800 <=? Seconds ts) && (Seconds ts <? 253402300800)
       && (0 <=? Nanos ts) && (Nanos ts <? 1000000000))%Z
  end.
Definition ptypes_Timestamp (ts : option Timestamp) : Z * bool :=
  (match ts with
   | None => 0
   | Some ts => Seconds ts * 1000000000 + Nanos ts
   end, negb (validateTimestamp ts))%Z.

Definition stageRecoveryFailedResult : CompletionResult :=
  NewInternalErrorResult stage_lost "Stage invocation lost - stage may still be executing".

(** ** Interfaces *)

(** A state that holds a graph behind a possibly nil pointer. *)
Class HasGraph (S : Type) := {
  graph_of : S → option CompletionGraph;
  put_graph : CompletionGraph → S → S;
  graph_of_put g s : graph_of (put_graph g s) = Some g;
}.

(** The callback interface [CompletionEventListener]. *)
Record CompletionEventListener (S : Type) := {
  OnExecuteStage : stage_ptr → list (option CompletionResult) → M S unit;
  OnCompleteStage : stage_ptr → option CompletionResult → M S unit;
  OnComposeStage : stage_ptr → stage_ptr → M S unit;
  OnGraphExecutionFinished : M S unit;
  OnGraphComplete : M S unit;
}.
Arguments OnExecuteStage {S}.
Arguments OnCompleteStage {S}.
Arguments OnComposeStage {S}.
Arguments OnGraphExecutionFinished {S}.
Arguments OnGraphComplete {S}.

Section Graph.
Context {S : Type} `{!HasGraph S} `{!MapOrder}.

Definition get_graph : M S CompletionGraph := s ← get_state; deref (graph_of s).
Definition modify_graph (f : CompletionGraph → CompletionGraph) : M S unit :=
  g ← get_graph; modify (put_graph (f g)).
Definition get_stage (p : stage_ptr) : M S CompletionStage :=
  g ← get_graph; deref (gr_objects g !! p).

(** [for _, stage := range graph.stages] *)
Definition range_stages (body : stage_ptr → M S unit) : M S unit :=
  g ← get_graph;
  modify_graph next_iteration;;
  for_each (range_order (gr_iterations g) (map_to_list (gr_stages g)).*1) (λ id,
    g' ← get_graph;
    match GetStage g' id with
    | Some p => body p
    | None => mret tt
    end).

(** *** stage.go *)

Definition complete (p : stage_ptr) (result : option CompletionResult) : M S bool :=
  _ ← get_stage p;
  modify_graph (alter_stage set_triggered p);;
  s ← get_stage p;
  match stage_result s with
  | None => modify_graph (alter_stage (set_result result) p);; mret true
  | Some _ => mret false
  end.

Definition requestTrigger (p : stage_ptr) : M S trigger_result :=
  s ← get_stage p;
  if stage_triggered s then mret (false, false, [])
  else
    g ← get_graph;
    deps ← deref (load_deps g (stage_dependencies s));
    '(triggered, status, results) ← deref (run_trigger (strat_Trigger (stage_strategy s)) deps);
    (if triggered : bool then modify_graph (alter_stage set_triggered p) else mret tt);;
    mret (triggered, status, results).

Context (L : CompletionEventListener S).

(** *** stage_strategy.go: execution strategies *)

Definition succeedWithEmpty (p : stage_ptr) (results : list (option CompletionResult)) : M S unit :=
  OnCompleteStage L p (Some {| Successful := true; result_Datum := Some NewEmptyDatum |}).

Definition invokeWithoutArgs (p : stage_ptr) (results : list (option CompletionResult)) : M S unit :=
  OnExecuteStage L p [].

Definition invokeWithResult (p : stage_ptr) (results : list (option CompletionResult)) : M S unit :=
  OnExecuteStage L p results.

Definition invokeWithResultOrError (p : stage_ptr) (results : list (option CompletionResult)) : M S unit :=
  match results with
  | [result] =>
      result ← deref result;
      let args :=
        if Successful result
        then [Some (NewSuccessfulResult (result_Datum result)); Some NewEmptyResult]
        else [Some NewEmptyResult; Some (NewFailedResult (result_Datum result))] in
      OnExecuteStage L p args
  | _ => panic (PanicString "Invalid state - tried to invoke single-valued stage with incorrect number of inputs")
  end.

Definition completeExternally (p : stage_ptr) (results : list (option CompletionResult)) : M S unit :=
  mret tt.

Definition propagateResult (p : stage_ptr) (results : list (option CompletionResult)) : M S unit :=
  match results with
  | [result] => OnCompleteStage L p result
  | _ => panic (PanicString "Invalid state - tried to invoke single-valued stage with incorrect number of inputs")
  end.

Definition run_execution (f : ExecutionStrategy) : stage_ptr → list (option CompletionResult) → M S unit :=
  match f with
  | Fn_succeedWithEmpty => succeedWithEmpty
  | Fn_invokeWithoutArgs => invokeWithoutArgs
  | Fn_invokeWithResult => invokeWithResult
  | Fn_invokeWithResultOrError => invokeWithResultOrError
  | Fn_completeExternally => completeExternally
  | Fn_propagateResult => propagateResult
  end.

Definition trigger (p : stage_ptr) (status : bool) (input : list (option CompletionResult)) : M S unit :=
  s ← get_stage p;
  run_execution (if status then strat_Success (stage_strategy s) else strat_Failure (stage_strategy s)) p input.

(** *** stage_strategy.go: result handling strategies *)

Definition invocationResult (p : stage_ptr) (result : option CompletionResult) : M S unit :=
  OnCompleteStage L p result.

Definition referencedStageResult (p : stage_ptr) (result : option CompletionResult) : M S unit :=
  r ← deref result;
  if negb (Successful r) then OnCompleteStage L p result
  else
    match GetStageRef (result_Datum r) with
    | None =>
        OnCompleteStage L p (Some (NewInternalErrorResult invalid_stage_response "stage returned a non-stageref response"))
    | Some ref =>
        g ← get_graph;
        match GetStage g (ref_StageId ref) with
        | None =>
            OnCompleteStage L p (Some (NewInternalErrorResult invalid_stage_response "referenced stage not found "))
        | Some refStage => OnComposeStage L p refStage
        end
    end.

Definition parentStageResult (p : stage_ptr) (_ : option CompletionResult) : M S unit :=
  s ← get_stage p;
  match stage_dependencies s with
  | [d] =>
      g ← get_graph;
      d ← deref (load_dep g d);
      if negb (IsResolved d)
      then panic (PanicString "Trying to get a parent result with invalid parent deps")
      else OnCompleteStage L p (GetResult d)
  | _ => panic (PanicString "Trying to get a parent result with invalid parent deps")
  end.

Definition noResultStrategy (_ : stage_ptr) (_ : option CompletionResult) : M S unit := mret tt.

Definition run_result_handling (f : ResultHandlingStrategy) : stage_ptr → option CompletionResult → M S unit :=
  match f with
  | Fn_invocationResult => invocationResult
  | Fn_referencedStageResult => referencedStageResult
  | Fn_parentStageResult => parentStageResult
  | Fn_noResultStrategy => noResultStrategy
  end.

Definition handleResult (p : stage_ptr) (result : option CompletionResult) : M S unit :=
  s ← get_stage p;
  run_result_handling (strat_ResultHandling (stage_strategy s)) p result.

(** *** graph.go *)

Definition triggerReadyStages : M S unit :=
  range_stages (λ p,
    s ← get_stage p;
    if negb (IsResolved s) then
      '(triggered, status, input) ← requestTrigger p;
      if triggered : bool then trigger p status input else mret tt
    else mret tt).

Definition checkForExecutionFinished : M S unit :=
  g ← get_graph;
  match gr_state g with
  | StateCommitted =>
      if Z.eqb (getPendingCount g MainExecPhase) 0 then OnGraphExecutionFinished L else mret tt
  | StateTerminating =>
      if Z.eqb (getPendingCount g TerminationExecPhase) 0 then OnGraphComplete L else mret tt
  | StateInitial | StateCompleted => mret tt
  end.

(** [inner.IsResolved() && !outer.IsResolved()]: [outer] is only read when
    [inner] is resolved. *)
Definition tryCompleteComposedStage (outer : option stage_ptr) (inner : stage_ptr) : M S unit :=
  i ← get_stage inner;
  if IsResolved i then
    outer ← deref outer;
    o ← get_stage outer;
    if negb (IsResolved o) then OnCompleteStage L outer (stage_result i) else mret tt
  else mret tt.

Definition handleCommitted : M S unit :=
  modify_graph (with_state StateCommitted);;
  checkForExecutionFinished.

Definition handleCompleted : M S unit := modify_graph (with_state StateCompleted).

Definition handleTerminating (event : GraphTerminatingEvent) (shouldTrigger : bool) : M S unit :=
  modify_graph (with_state StateTerminating);;
  modify_graph (λ g, with_terminationRoot
    (SetResult (NewSuccessfulResult (Some (NewStateDatum (terminating_Status event)))) (gr_terminationRoot g)) g);;
  (if shouldTrigger then triggerReadyStages else mret tt);;
  checkForExecutionFinished.

(** The new object a [StageAddedEvent] creates. *)
Definition new_stage (id : string) (op : CompletionOperation) (strat : strategy)
    (closure : option BlobDatum) (deps : list dependency_ref) (children : list stage_ptr)
    (phase : ExecutionPhase) : CompletionStage :=
  {| stage_ID := id; stage_result := None; stage_operation := op; stage_strategy := strat;
     stage_closure := closure; stage_dependencies := deps; stage_children := children;
     stage_whenComplete := NewFuture; stage_composeReference := None;
     stage_triggered := false; stage_execPhase := phase |}.

Definition bad_arity (strat : strategy) (n : nat) : bool :=
  ((Z.of_nat n <? MinDependencies strat)
   || ((0 <=? MaxDependencies strat) && (MaxDependencies strat <? Z.of_nat n)))%Z.

(** The object allocation of [handleStageAdded]: the new stage, a child entry
    in every dependency, and the map entry. *)
Definition insert_stage (s : CompletionStage) (depStages : list stage_ptr) (g : CompletionGraph) : CompletionGraph :=
  let p := length (gr_objects g) in
  with_stages (insert (stage_ID s) p)
    (with_objects (λ os, foldl (λ os d, alter (add_child p) d os) (os ++ [s]) depStages) g).

Definition handleStageAdded (event : StageAddedEvent) (shouldTrigger : bool) : M S unit :=
  match getStrategyFromOperation (added_Op event) with
  | None => panic (PanicString "invalid/unsupported operation")
  | Some strat =>
      if bad_arity strat (length (added_Dependencies event))
      then panic (PanicString "Invalid no. of dependencies for operation")
      else
        g ← get_graph;
        match GetStage g (added_StageId event) with
        | Some _ => panic (PanicError "Duplicate stage")
        | None =>
            match mapM (GetStage g) (added_Dependencies event) with
            | None => panic (PanicString "Dependent stage not found")
            | Some depStages =>
                modify_graph (insert_stage
                  (new_stage (added_StageId event) (added_Op event) strat (added_Closure event)
                     (StageRef <$> depStages) [] MainExecPhase) depStages);;
                if shouldTrigger then triggerReadyStages else mret tt
            end
        end
  end.

(** The mutations of [handleAddTerminationHook]: the new hook becomes the
    head of the chain and the only dependency of the previous head. *)
Definition insert_hook (id : string) (closure : option BlobDatum) (strat : strategy) (g : CompletionGraph) : CompletionGraph :=
  let p := length (gr_objects g) in
  let children := match gr_terminationChainHead g with Some h => [h] | None => [] end in
  let s := new_stage id terminationHook strat closure [TerminationRootRef] children TerminationExecPhase in
  with_stages (insert id p)
    (with_terminationChainHead (Some p)
      (with_objects (λ os,
         match gr_terminationChainHead g with
         | Some h => alter (set_dependencies [StageRef p]) h (os ++ [s])
         | None => os ++ [s]
         end) g)).

Definition handleAddTerminationHook (event : StageAddedEvent) : M S unit :=
  match getStrategyFromOperation terminationHook with
  | None => panic (PanicString "invalid/unsupported operation")
  | Some strat => modify_graph (insert_hook (added_StageId event) (added_Closure event) strat)
  end.

Definition handleStageCompleted (event : StageCompletedEvent) (shouldTrigger : bool) : M S bool :=
  _ ← deref (stagecompleted_Result event);
  g ← get_graph;
  node ← deref (GetStage g (stagecompleted_StageId event));
  success ← complete node (stagecompleted_Result event);
  s ← get_stage node;
  match stage_composeReference s with
  | Some outer => tryCompleteComposedStage (Some outer) node
  | None => mret tt
  end;;
  (if shouldTrigger then triggerReadyStages else mret tt);;
  checkForExecutionFinished;;
  mret success.

Definition handleInvokeComplete (event : FaasInvocationCompletedEvent) : M S unit :=
  g ← get_graph;
  stage ← deref (GetStage g (invoked_StageId event));
  handleResult stage (invoked_Result event).

Definition handleStageComposed (event : StageComposedEvent) : M S unit :=
  g ← get_graph;
  let outer := GetStage g (composed_StageId event) in
  inner ← deref (GetStage g (composed_ComposedStageId event));
  modify_graph (alter_stage (set_composeReference outer) inner);;
  tryCompleteComposedStage outer inner.

Definition Recover : M S unit :=
  range_stages (λ p,
    s ← get_stage p;
    if negb (IsResolved s) then
      '(triggered, _, _) ← requestTrigger p;
      if triggered : bool then OnCompleteStage L p (Some stageRecoveryFailedResult) else mret tt
    else mret tt);;
  triggerReadyStages;;
  checkForExecutionFinished.

(** The start-time bookkeeping at the head of [UpdateWithEvent]. *)
Definition update_startTime (event : Event) (g : CompletionGraph) : CompletionGraph :=
  let '(eventTime, err) := ptypes_Timestamp (GetTs event) in
  if err && (eventTime <? gr_startTime g)%Z then with_startTime eventTime g else g.

(** The switch on the type of the event. *)
Definition dispatch_event (event : Event) (mayTrigger : bool) : M S unit :=
  match event with
  | EGraphCommitted _ => handleCommitted
  | EGraphTerminating e => handleTerminating e mayTrigger
  | EGraphCompleted _ => handleCompleted
  | EStageAdded e =>
      if bool_decide (added_Op e = terminationHook)
      then handleAddTerminationHook e
      else handleStageAdded e mayTrigger
  | EStageCompleted e => handleStageCompleted e mayTrigger;; mret tt
  | EFaasInvocationCompleted e => if mayTrigger then handleInvokeComplete e else mret tt
  | EStageComposed e => handleStageComposed e
  | EFaasInvocationStarted _ => mret tt
  | EGraphCreated _ | EDelayScheduled _ => mret tt
  end.

Definition UpdateWithEvent (event : Event) (mayTrigger : bool) : M S unit :=
  modify_graph (update_startTime event);;
  dispatch_event event mayTrigger.

(** *** Command validation *)

Definition hook_count (g : CompletionGraph) : Z :=
  Z.of_nat (length (filter (λ s, stage_operation s = terminationHook) (GetStages g))).

(** The checks common to all [AddStageCommand]s. *)
Definition validate_add (g : CompletionGraph) (flowId : string) (addCmd : AddStageCommand) : option status_error :=
  if negb (canModifyGraph g) then Some (NewGraphCompletedError flowId)
  else
    match getStrategyFromOperation (GetOperation addCmd) with
    | None => Some (NewInvalidOperationError flowId)
    | Some strat =>
        if bad_arity strat (GetDependencyCount addCmd) then Some (NewInvalidStageDependenciesError flowId)
        else if TakesClosure strat && negb (HasClosure addCmd) then Some (NewNeedsClosureError flowId)
        else if negb (TakesClosure strat) && HasClosure addCmd then Some (NewShouldNotHaveClosureError flowId)
        else if (maxStages <=? Z.of_nat (size (gr_stages g)))%Z then Some (NewTooManyStagesError flowId)
        else if bool_decide (GetOperation addCmd = terminationHook)
                && (maxTerminationHooks <=? hook_count g)%Z
        then Some (NewTooManyTerminationHooksError flowId)
        else None
    end.

(** The checks dependent on the command's type; reading [msg.Value.Datum] of
    a nil [Value] panics. *)
Definition validate_by_type (g : CompletionGraph) (cmd : Command) : M S (option status_error) :=
  match cmd with
  | CAddDelayStage msg =>
      mret (if ((adddelay_DelayMs msg <=? 0) || (maxDelaySeconds * 1000 <? adddelay_DelayMs msg))%Z
            then Some (NewInvalidDelayError (adddelay_FlowId msg) (adddelay_DelayMs msg)) else None)
  | CAddStage msg =>
      mret (if negb (validateStages g (add_Deps msg))
            then Some (NewInvalidStageDependenciesError (add_FlowId msg)) else None)
  | CAddCompletedValueStage msg =>
      v ← deref (value_Value msg);
      ok ← HasValidValue (result_Datum v);
      mret (if negb ok then Some (NewInvalidDatumError (value_FlowId msg)) else None)
  | CCompleteStageExternally msg =>
      v ← deref (ext_Value msg);
      ok ← HasValidValue (result_Datum v);
      mret (if negb ok then Some (NewInvalidDatumError (ext_FlowId msg))
            else match GetStage g (ext_StageId msg) with
                 | None => Some (NewStageNotFoundError (ext_FlowId msg) (ext_StageId msg))
                 | Some _ => None
                 end)
  | CAwaitStageResult msg =>
      mret (if negb (validateStages g [await_StageId msg])
            then Some (NewStageNotFoundError (await_FlowId msg) (await_StageId msg)) else None)
  | _ => mret None
  end.

Definition ValidateCommand (cmd : Command) : M S (option status_error) :=
  g ← get_graph;
  match as_AddStageCommand cmd ≫= validate_add g (GetFlowId cmd) with
  | Some err => mret (Some err)
  | None => validate_by_type g cmd
  end.
End Graph.
