(* ===== verification/GraphFacts.v ===== *)
(** * The graph's invariants and its contract with the listener

    Well-formedness of a graph, the way a graph may evolve while events are
    applied, the settled states in which no work is left undone, and a measure
    that bounds the re-entrant calls. [ListenerSpec n L] is what the graph
    asks of its listener; every handler is verified against it, so that the
    actor only has to show that its callbacks meet it. *)

From S2P Require Import Prelude Model Stage StageFacts Graph.

Definition b2n (b : bool) : nat := if b then 1 else 0.

(** ** The measure *)

Definition rank (st : State) : nat :=
  match st with StateInitial => 3 | StateCommitted => 2 | StateTerminating => 1 | StateCompleted => 0 end.
Definition stage_weight (s : CompletionStage) : nat :=
  b2n (negb (IsResolved s)) + b2n (negb (stage_triggered s)).
Definition weight (g : CompletionGraph) : nat :=
  sum_list_with stage_weight (gr_objects g) + rank (gr_state g).

(** ** Well-formedness *)

Record stage_wf (g : CompletionGraph) (s : CompletionStage) : Prop := {
  swf_strategy : getStrategyFromOperation (stage_operation s) = Some (stage_strategy s);
  swf_arity : if decide (stage_operation s = terminationHook)
              then length (stage_dependencies s) = 1 ∧ stage_execPhase s = TerminationExecPhase
              else bad_arity (stage_strategy s) (length (stage_dependencies s)) = false
                   ∧ stage_execPhase s = MainExecPhase;
  swf_deps : Forall (λ d, is_Some (load_dep g d)) (stage_dependencies s);
  swf_compose o : stage_composeReference s = Some o → o < length (gr_objects g);
}.

(** A stage of the phase is unresolved. *)
Definition pending (g : CompletionGraph) (phase : ExecutionPhase) : Prop :=
  ∃ p s, gr_objects g !! p = Some s ∧ is_pending phase s.

(** The lifecycle never runs ahead of the work: a terminating graph has no
    main stage pending, a completed one has no hook pending either, and the
    source of the termination chain stays unresolved until then. *)
Definition lifecycle_safe (g : CompletionGraph) : Prop :=
  (rank (gr_state g) ≤ 1 → ¬ pending g MainExecPhase)
  ∧ (gr_state g = StateCompleted → ¬ pending g TerminationExecPhase)
  ∧ (2 ≤ rank (gr_state g) → raw_result (gr_terminationRoot g) = None).

(** The termination chain is a stack: the newest hook waits for the termination
    root, every other hook for the next one registered after it. *)
Definition no_hook_between (g : CompletionGraph) (p q : stage_ptr) : Prop :=
  ∀ r z, p < r < q → gr_objects g !! r = Some z → stage_operation z ≠ terminationHook.
Definition hook_linked (g : CompletionGraph) (p : stage_ptr) (x : CompletionStage) : Prop :=
  (stage_dependencies x = [TerminationRootRef] ∧ gr_terminationChainHead g = Some p
   ∧ no_hook_between g p (length (gr_objects g)))
  ∨ ∃ q y, stage_dependencies x = [StageRef q] ∧ p < q ∧ gr_objects g !! q = Some y
     ∧ stage_operation y = terminationHook ∧ no_hook_between g p q.

Record graph_wf (g : CompletionGraph) : Prop := {
  wf_map id p : gr_stages g !! id = Some p → ∃ s, gr_objects g !! p = Some s ∧ stage_ID s = id;
  wf_obj p s : gr_objects g !! p = Some s → gr_stages g !! stage_ID s = Some p;
  wf_stage p s : gr_objects g !! p = Some s → stage_wf g s;
  wf_acyclic p s : gr_objects g !! p = Some s → stage_operation s ≠ terminationHook →
    Forall (λ d, ∃ q, d = StageRef q ∧ q < p) (stage_dependencies s);
  wf_head h : gr_terminationChainHead g = Some h →
    ∃ x, gr_objects g !! h = Some x ∧ stage_operation x = terminationHook
      ∧ stage_dependencies x = [TerminationRootRef];
  wf_chain p x : gr_objects g !! p = Some x → stage_operation x = terminationHook → hook_linked g p x;
  wf_size : (Z.of_nat (length (gr_objects g)) < 2 ^ 32)%Z;
  wf_safe : lifecycle_safe g;
}.

(** ** Evolution: what applying an event (other than adding a stage) may change *)

Record stage_evolves (n : nat) (s s' : CompletionStage) : Prop := {
  sev_ID : stage_ID s' = stage_ID s;
  sev_operation : stage_operation s' = stage_operation s;
  sev_strategy : stage_strategy s' = stage_strategy s;
  sev_closure : stage_closure s' = stage_closure s;
  sev_dependencies : stage_dependencies s' = stage_dependencies s;
  sev_phase : stage_execPhase s' = stage_execPhase s;
  sev_result r : stage_result s = Some r → stage_result s' = Some r;
  sev_triggered : stage_triggered s = true → stage_triggered s' = true;
  sev_compose : stage_composeReference s' = stage_composeReference s
                ∨ ∃ o, stage_composeReference s' = Some o ∧ o < n;
}.

Record evolves (g g' : CompletionGraph) : Prop := {
  ev_ID : gr_ID g' = gr_ID g;
  ev_FunctionID : gr_FunctionID g' = gr_FunctionID g;
  ev_objects : Forall2 (stage_evolves (length (gr_objects g))) (gr_objects g) (gr_objects g');
  ev_stages : gr_stages g' = gr_stages g;
  ev_rank : rank (gr_state g') ≤ rank (gr_state g);
  ev_head : gr_terminationChainHead g' = gr_terminationChainHead g;
  ev_root : is_Some (raw_result (gr_terminationRoot g)) → is_Some (raw_result (gr_terminationRoot g'));
  ev_safe : lifecycle_safe g → lifecycle_safe g';
}.

#[export] Instance stage_evolves_preorder n : PreOrder (stage_evolves n).
Proof.
  split.
  - intros s. by split; auto.
  - intros s1 s2 s3 [] []. split; try congruence; auto.
    destruct sev_compose1 as [->|?]; auto.
Qed.

Lemma evolves_length g g' : evolves g g' → length (gr_objects g') = length (gr_objects g).
Proof. intros He. symmetry. eapply Forall2_length, ev_objects, He. Qed.

#[export] Instance evolves_preorder : PreOrder evolves.
Proof.
  split.
  - intros g. split; auto. apply reflexivity.
  - intros g1 g2 g3 H12 H23. pose proof (evolves_length _ _ H12) as Hlen.
    destruct H12, H23. split; try congruence; [|lia|auto|auto].
    rewrite Hlen in *. by etrans.
Qed.

Lemma evolves_lookup g g' p s :
  evolves g g' → gr_objects g !! p = Some s →
  ∃ s', gr_objects g' !! p = Some s' ∧ stage_evolves (length (gr_objects g)) s s'.
Proof. intros [] Hp. by eapply Forall2_lookup_l. Qed.
Lemma evolves_lookup_inv g g' p s' :
  evolves g g' → gr_objects g' !! p = Some s' →
  ∃ s, gr_objects g !! p = Some s ∧ stage_evolves (length (gr_objects g)) s s'.
Proof. intros [] Hp. by eapply Forall2_lookup_r. Qed.

Lemma stage_evolves_weight n s s' : stage_evolves n s s' → stage_weight s' ≤ stage_weight s.
Proof.
  intros []. unfold stage_weight, IsResolved. simpl.
  destruct (stage_result s) as [r|]; [rewrite (sev_result0 r) by done|];
    destruct (stage_triggered s); try rewrite sev_triggered0 by done; simpl;
    destruct (stage_result s'), (stage_triggered s'); simpl; lia.
Qed.

Lemma sum_weight_mono n l l' :
  Forall2 (stage_evolves n) l l' → sum_list_with stage_weight l' ≤ sum_list_with stage_weight l.
Proof. induction 1 as [|s s' l l' Hs _ IH]; simpl; [done|]. apply stage_evolves_weight in Hs. lia. Qed.

Lemma evolves_weight g g' : evolves g g' → weight g' ≤ weight g.
Proof. intros []. unfold weight. apply sum_weight_mono in ev_objects0. lia. Qed.

Lemma evolves_load_dep g g' d :
  evolves g g' → is_Some (load_dep g d) → is_Some (load_dep g' d).
Proof.
  intros He. destruct d as [p|]; simpl; [|by eexists].
  intros [x Hx]. apply fmap_Some in Hx as (s & Hs & _).
  destruct (evolves_lookup _ _ _ _ He Hs) as (s' & Hs' & _). rewrite Hs'. by eexists.
Qed.

Lemma evolves_wf g g' : graph_wf g → evolves g g' → graph_wf g'.
Proof.
  intros Hwf He. pose proof (evolves_length _ _ He) as Hlen. split.
  - intros id p. rewrite (ev_stages _ _ He). intros Hp.
    destruct (wf_map _ Hwf _ _ Hp) as (s & Hs & <-).
    destruct (evolves_lookup _ _ _ _ He Hs) as (s' & Hs' & Hev).
    exists s'. by rewrite (sev_ID _ _ _ Hev).
  - intros p s' Hs'. destruct (evolves_lookup_inv _ _ _ _ He Hs') as (s & Hs & Hev).
    rewrite (ev_stages _ _ He), (sev_ID _ _ _ Hev). by apply (wf_obj _ Hwf).
  - intros p s' Hs'. destruct (evolves_lookup_inv _ _ _ _ He Hs') as (s & Hs & Hev).
    destruct (wf_stage _ Hwf _ _ Hs) as [Hst Har Hde Hco], Hev.
    rewrite <- sev_operation0, <- sev_strategy0 in *. split.
    + done.
    + by rewrite sev_dependencies0, sev_phase0.
    + rewrite sev_dependencies0. eapply Forall_impl; [exact Hde|]. intros d. by apply evolves_load_dep.
    + intros o Ho. rewrite Hlen. destruct sev_compose0 as [Hc|(o' & Hc & ?)]; [|congruence].
      apply Hco. congruence.
  - intros p s' Hs'. destruct (evolves_lookup_inv _ _ _ _ He Hs') as (s & Hs & Hev).
    rewrite (sev_operation _ _ _ Hev), (sev_dependencies _ _ _ Hev). by apply (wf_acyclic _ Hwf).
  - intros h. rewrite (ev_head _ _ He). intros Hh. destruct (wf_head _ Hwf _ Hh) as (x & Hx & Hop & Hd).
    destruct (evolves_lookup _ _ _ _ He Hx) as (x' & Hx' & Hev).
    exists x'. by rewrite (sev_operation _ _ _ Hev), (sev_dependencies _ _ _ Hev).
  - intros p s' Hs' Hop. destruct (evolves_lookup_inv _ _ _ _ He Hs') as (s & Hs & Hev).
    rewrite (sev_operation _ _ _ Hev) in Hop.
    assert (∀ q r, no_hook_between g q r → no_hook_between g' q r) as Hbt.
    { intros q r Hn i z Hi Hz. destruct (evolves_lookup_inv _ _ _ _ He Hz) as (z0 & Hz0 & Hevz).
      rewrite (sev_operation _ _ _ Hevz). by eapply Hn. }
    unfold hook_linked. rewrite (sev_dependencies _ _ _ Hev), (ev_head _ _ He), Hlen.
    destruct (wf_chain _ Hwf _ _ Hs Hop) as [(? & ? & ?)|(q & y & ? & ? & Hy & Hyop & ?)]; [left; auto|right].
    destruct (evolves_lookup _ _ _ _ He Hy) as (y' & Hy' & Hevy). exists q, y'.
    rewrite (sev_operation _ _ _ Hevy). split_and!; auto.
  - rewrite Hlen. apply (wf_size _ Hwf).
  - apply (ev_safe _ _ He), (wf_safe _ Hwf).
Qed.

(** ** Elementary mutations evolve the graph *)

Lemma Forall2_alter_r {A} (R : A → A → Prop) `{!Reflexive R} f p (l : list A) :
  (∀ x, l !! p = Some x → R x (f x)) → Forall2 R l (alter f p l).
Proof.
  intros Hf. apply Forall2_same_length_lookup. split; [by rewrite length_alter|].
  intros i x y Hx Hy. destruct (decide (i = p)) as [->|Hne].
  - rewrite list_lookup_alter_eq, Hx in Hy. simplify_eq/=. auto.
  - rewrite list_lookup_alter_ne, Hx in Hy by done. by simplify_eq.
Qed.

(** A stage stays pending only if it was pending. *)
Lemma pending_evolves n g g' ph :
  Forall2 (stage_evolves n) (gr_objects g) (gr_objects g') → pending g' ph → pending g ph.
Proof.
  intros Hf (p & s' & Hs' & Hph & Hr).
  destruct (Forall2_lookup_r _ _ _ _ _ Hf Hs') as (s & Hs & Hev).
  exists p, s. split; [done|split]; [by rewrite <- (sev_phase _ _ _ Hev)|].
  unfold IsResolved in *. simpl in *. destruct (stage_result s) as [r|] eqn:Hr'; [|done].
  by rewrite (sev_result _ _ _ Hev r Hr') in Hr.
Qed.
Lemma safe_same_state n g g' :
  Forall2 (stage_evolves n) (gr_objects g) (gr_objects g') → gr_state g' = gr_state g →
  gr_terminationRoot g' = gr_terminationRoot g → lifecycle_safe g → lifecycle_safe g'.
Proof.
  intros Hf Hst Hroot (H1 & H2 & H3). unfold lifecycle_safe. rewrite Hst, Hroot.
  split_and!; [| |done]; intros Hr Hp; eapply pending_evolves in Hp; [|exact Hf| |exact Hf]; naive_solver.
Qed.

Lemma evolves_alter f p g :
  (∀ s, gr_objects g !! p = Some s → stage_evolves (length (gr_objects g)) s (f s)) →
  evolves g (alter_stage f p g).
Proof.
  intros Hf.
  assert (Forall2 (stage_evolves (length (gr_objects g))) (gr_objects g) (gr_objects (alter_stage f p g))).
  { apply Forall2_alter_r; [apply _|done]. }
  split; try done. by eapply safe_same_state.
Qed.

Lemma evolves_set_triggered p g : evolves g (alter_stage set_triggered p g).
Proof. apply evolves_alter. intros s _. split; simpl; auto. Qed.
Lemma evolves_set_result r p g :
  (∀ s, gr_objects g !! p = Some s → stage_result s = None) →
  evolves g (alter_stage (set_result r) p g).
Proof. intros H. apply evolves_alter. intros s Hs. split; simpl; auto. intros ? Hr. by rewrite (H s Hs) in Hr. Qed.
Lemma evolves_set_compose o p g :
  o < length (gr_objects g) → evolves g (alter_stage (set_composeReference (Some o)) p g).
Proof. intros H. apply evolves_alter. intros s Hs. split; simpl; auto. right. eauto. Qed.
Lemma evolves_same_objects g g' :
  gr_ID g' = gr_ID g → gr_FunctionID g' = gr_FunctionID g → gr_objects g' = gr_objects g →
  gr_stages g' = gr_stages g → gr_state g' = gr_state g →
  gr_terminationRoot g' = gr_terminationRoot g →
  gr_terminationChainHead g' = gr_terminationChainHead g → evolves g g'.
Proof.
  intros ?? Ho ? Hst ??. assert (Forall2 (stage_evolves (length (gr_objects g))) (gr_objects g) (gr_objects g')).
  { rewrite Ho. apply reflexivity. }
  split; try done; [by rewrite Hst|congruence|by eapply safe_same_state].
Qed.
Lemma evolves_with_state st g :
  rank st ≤ rank (gr_state g) → (lifecycle_safe g → lifecycle_safe (with_state st g)) →
  evolves g (with_state st g).
Proof. intros H Hs. split; done || apply reflexivity. Qed.
Lemma evolves_with_root r g :
  rank (gr_state g) ≤ 1 → is_Some (raw_result r) → evolves g (with_terminationRoot r g).
Proof.
  intros Hr Hs. split; try done || apply reflexivity. intros (H1 & H2 & H3). split_and!; [done..|simpl; lia].
Qed.
Lemma evolves_next_iteration g : evolves g (next_iteration g).
Proof. by apply evolves_same_objects. Qed.
Lemma evolves_update_startTime e g : evolves g (update_startTime e g).
Proof. unfold update_startTime, ptypes_Timestamp. simpl. case_match; by apply evolves_same_objects. Qed.

Create HintDb evolve.
#[export] Hint Resolve evolves_set_triggered evolves_set_result evolves_set_compose evolves_with_state
  evolves_with_root evolves_next_iteration evolves_update_startTime evolves_wf : evolve.

(** ** Readiness *)

(** Would the stage's trigger strategy fire now? *)
Definition ready (g : CompletionGraph) (s : CompletionStage) : bool :=
  match load_deps g (stage_dependencies s) with
  | Some deps =>
      match run_trigger (strat_Trigger (stage_strategy s)) deps with
      | Some (fires, _, _) => fires
      | None => false
      end
  | None => false
  end.

(** The stage at [p], if unresolved and untriggered, is not ready. *)
Definition idle (g : CompletionGraph) (p : stage_ptr) : Prop :=
  ∀ s, gr_objects g !! p = Some s → stage_result s = None → stage_triggered s = false → ready g s = false.

(** No stage is ready and left untriggered. *)
Definition no_ready (g : CompletionGraph) : Prop := ∀ p, idle g p.

(** Every stage composed of a resolved stage is resolved, the stage [p] aside. *)
Definition resolved_at (g : CompletionGraph) (p : stage_ptr) : Prop :=
  ∃ s, gr_objects g !! p = Some s ∧ IsResolved s = true.
Definition closed_except (p : stage_ptr) (g : CompletionGraph) : Prop :=
  ∀ i si o, gr_objects g !! i = Some si → IsResolved si = true →
    stage_composeReference si = Some o → o ≠ p → resolved_at g o.
Definition compose_closed (g : CompletionGraph) : Prop :=
  ∀ i si o, gr_objects g !! i = Some si → IsResolved si = true →
    stage_composeReference si = Some o → resolved_at g o.

(** Termination has been detected: a committed graph still has main work, a
    terminating one still has hooks to run. *)
Definition lifecycle_current (g : CompletionGraph) : Prop :=
  match gr_state g with
  | StateCommitted => pending g MainExecPhase
  | StateTerminating => pending g TerminationExecPhase
  | StateInitial | StateCompleted => True
  end.

Record settled (g : CompletionGraph) : Prop := {
  settled_no_ready : no_ready g;
  settled_lifecycle : lifecycle_current g;
  settled_compose : compose_closed g;
}.

(** Readiness is a function of the dependencies' results. *)
Definition same_results (g g' : CompletionGraph) : Prop :=
  (∀ p, option_map stage_result (gr_objects g !! p) = option_map stage_result (gr_objects g' !! p))
  ∧ raw_result (gr_terminationRoot g) = raw_result (gr_terminationRoot g').

Lemma load_deps_results g g' ds :
  Forall (λ d, option_map GetResult (load_dep g d) = option_map GetResult (load_dep g' d)) ds →
  option_map (map GetResult) (load_deps g ds) = option_map (map GetResult) (load_deps g' ds).
Proof.
  unfold load_deps. induction 1 as [|d ds Hd _ IH]; [done|]. simpl.
  destruct (load_dep g d), (load_dep g' d); simpl in *; try done. injection Hd as Hd.
  destruct (mapM (load_dep g) ds), (mapM (load_dep g') ds); simpl in *; congruence.
Qed.

Lemma ready_deps g g' s :
  Forall (λ d, option_map GetResult (load_dep g d) = option_map GetResult (load_dep g' d))
    (stage_dependencies s) → ready g s = ready g' s.
Proof.
  intros Hsame. unfold ready.
  pose proof (load_deps_results g g' (stage_dependencies s) Hsame) as Hl.
  destruct (load_deps g _) as [l|], (load_deps g' _) as [l'|]; try done.
  rewrite (run_trigger_results _ l), (run_trigger_results _ l').
  assert (GetResult <$> l = GetResult <$> l') as ->; [|done]. by injection Hl.
Qed.

Lemma ready_ext g g' s : same_results g g' → ready g s = ready g' s.
Proof.
  intros [Hobj Hroot]. apply ready_deps, Forall_true. intros [p|]; simpl; [|by rewrite Hroot].
  specialize (Hobj p). destruct (gr_objects g !! p), (gr_objects g' !! p); simpl in *; congruence.
Qed.

Lemma lookup_alter_stage f p q g :
  gr_objects (alter_stage f p g) !! q = if decide (p = q) then f <$> gr_objects g !! q else gr_objects g !! q.
Proof. unfold alter_stage. simpl. rewrite list_lookup_alter. by case_decide; subst. Qed.

(** Mutations that leave all results alone leave readiness alone. *)
Lemma ready_alter f p g s :
  (∀ x, stage_result (f x) = stage_result x) → ready (alter_stage f p g) s = ready g s.
Proof.
  intros Hf. apply ready_ext. split; [|done]. intros q. rewrite lookup_alter_stage.
  case_decide; [|done]. destruct (gr_objects g !! q); simpl; [|done]. by rewrite Hf.
Qed.

Lemma idle_set_triggered p q g : idle g q → idle (alter_stage set_triggered p g) q.
Proof.
  intros Hq s. rewrite lookup_alter_stage, ready_alter by done. case_decide as Hpq.
  - destruct (gr_objects g !! q) as [x|]; [|done]. intros; by simplify_eq/=.
  - apply Hq.
Qed.
Lemma idle_triggered p g : idle (alter_stage set_triggered p g) p.
Proof.
  intros s. rewrite lookup_alter_stage, decide_True by done.
  destruct (gr_objects g !! p); intros; by simplify_eq/=.
Qed.
Lemma no_ready_ext g g' :
  no_ready g → gr_objects g' = gr_objects g →
  gr_terminationRoot g' = gr_terminationRoot g → no_ready g'.
Proof.
  intros Hn Ho Hr p s. rewrite Ho. intros Hs H1 H2.
  rewrite <- (Hn p s Hs H1 H2). apply ready_ext. split; congruence.
Qed.

(** ** Pending counts *)


Lemma GetStages_elem g s : graph_wf g → s ∈ GetStages g ↔ ∃ p, gr_objects g !! p = Some s.
Proof.
  intros Hwf. unfold GetStages. rewrite list_elem_of_omap. split.
  - intros ([id p] & _ & Hp). by exists p.
  - intros [p Hp]. exists (stage_ID s, p). split; [|done].
    apply elem_of_map_to_list. by apply (wf_obj _ Hwf).
Qed.

Lemma map_to_list_pointers g : graph_wf g → NoDup (map_to_list (gr_stages g)).*2.
Proof.
  intros Hwf. apply NoDup_fmap_2_strong; [|apply NoDup_map_to_list].
  intros [i p] [j q] Hi Hj Heq. simpl in *. subst.
  apply elem_of_map_to_list in Hi, Hj.
  destruct (wf_map _ Hwf _ _ Hi) as (s & Hs & <-).
  destruct (wf_map _ Hwf _ _ Hj) as (s' & Hs' & <-). by simplify_eq.
Qed.

Lemma pointers_seq g :
  graph_wf g → (map_to_list (gr_stages g)).*2 ≡ₚ seq 0 (length (gr_objects g)).
Proof.
  intros Hwf. apply NoDup_Permutation; [by apply map_to_list_pointers|apply NoDup_seq|].
  intros p. rewrite list_elem_of_fmap, elem_of_seq. split.
  - intros ([id q] & -> & Hq). apply elem_of_map_to_list in Hq.
    destruct (wf_map _ Hwf _ _ Hq) as (s & Hs & _). apply lookup_lt_Some in Hs. simpl. lia.
  - intros [_ Hp]. apply lookup_lt_is_Some in Hp as [s Hs].
    exists (stage_ID s, p). split; [done|]. by apply elem_of_map_to_list, (wf_obj _ Hwf).
Qed.

Lemma omap_lookup_seq {A} (l pre : list A) :
  omap (λ p, (pre ++ l) !! p) (seq (length pre) (length l)) = l.
Proof.
  revert pre. induction l as [|x l IH]; intros pre; [done|].
  cbn [length seq]. rewrite list_omap_cons, list_lookup_middle by done. f_equal.
  specialize (IH (pre ++ [x])). rewrite length_app, <- app_assoc in IH. simpl in IH.
  by rewrite Nat.add_1_r in IH.
Qed.

Lemma GetStages_objects g : graph_wf g → GetStages g ≡ₚ gr_objects g.
Proof.
  intros Hwf. transitivity (omap (λ p, gr_objects g !! p) (seq 0 (length (gr_objects g)))).
  - rewrite <- (pointers_seq g Hwf), omap_fmap. done.
  - pose proof (omap_lookup_seq (gr_objects g) []) as H. simpl in H. by rewrite H.
Qed.

Lemma size_stages g : graph_wf g → size (gr_stages g) = length (gr_objects g).
Proof.
  intros Hwf. rewrite <- length_map_to_list, <- (length_fmap snd), (pointers_seq g Hwf).
  by rewrite length_seq.
Qed.

Lemma pending_count g phase :
  graph_wf g → getPendingCount g phase = 0%Z ↔ ¬ pending g phase.
Proof.
  intros Hwf. unfold getPendingCount.
  assert (length (filter (is_pending phase) (GetStages g)) ≤ length (gr_objects g)) as Hle.
  { etrans; [apply length_filter|]. by rewrite (GetStages_objects g Hwf). }
  pose proof (wf_size _ Hwf). rewrite uint32_small by lia. split.
  - intros Hz (p & s & Hp & Hs).
    assert (s ∈ filter (is_pending phase) (GetStages g)) as Hin.
    { apply list_elem_of_filter. split; [done|]. apply GetStages_elem; eauto. }
    destruct (filter _ _); [by apply not_elem_of_nil in Hin|simpl in Hz; lia].
  - intros Hn. destruct (filter _ _) as [|s l] eqn:Hf; [done|].
    assert (s ∈ filter (is_pending phase) (GetStages g)) as Hin by (rewrite Hf; by left).
    apply list_elem_of_filter in Hin as [Hs Hin].
    apply (GetStages_elem _ _ Hwf) in Hin as [p Hp]. destruct Hn. by exists p, s.
Qed.

#[export] Instance pending_dec g phase : Decision (pending g phase).
Proof.
  refine (cast_if (decide (Exists (is_pending phase) (gr_objects g)))).
  - abstract (apply Exists_exists in e as (s & Hs & Hp); apply list_elem_of_lookup in Hs as [p Hp']; by exists p, s).
  - abstract (intros (p & s & Hp & Hs); destruct n; apply Exists_exists; eauto using list_elem_of_lookup_2).
Defined.

(** ** Monotone facts *)

Lemma resolved_at_evolves g g' p : evolves g g' → resolved_at g p → resolved_at g' p.
Proof.
  intros He (s & Hs & Hr). destruct (evolves_lookup _ _ _ _ He Hs) as (s' & Hs' & Hev).
  exists s'. split; [done|]. unfold IsResolved in *. simpl in *.
  destruct (stage_result s) as [r|] eqn:Hr'; [|done]. by rewrite (sev_result _ _ _ Hev r Hr').
Qed.

Lemma sum_list_alter {A} (w : A → nat) f p l x :
  l !! p = Some x → sum_list_with w (alter f p l) + w x = sum_list_with w l + w (f x).
Proof.
  revert p. induction l as [|y l IH]; intros [|p] Hp; simplify_eq/=; [lia|].
  specialize (IH p Hp). lia.
Qed.
Lemma weight_alter f p g x :
  gr_objects g !! p = Some x →
  weight (alter_stage f p g) + stage_weight x = weight g + stage_weight (f x).
Proof. intros Hp. unfold weight. simpl. pose proof (sum_list_alter stage_weight f p _ x Hp). lia. Qed.

(** [complete] as one mutation of the stage object. *)
Definition complete_stage (r : CompletionResult) (x : CompletionStage) : CompletionStage :=
  match stage_result x with
  | None => set_result (Some r) (set_triggered x)
  | Some _ => set_triggered x
  end.

Lemma complete_stage_result r x : stage_result (complete_stage r x) = Some (default r (stage_result x)).
Proof. unfold complete_stage. destruct (stage_result x) eqn:Hx; simpl; congruence. Qed.
Lemma complete_stage_compose r x : stage_composeReference (complete_stage r x) = stage_composeReference x.
Proof. unfold complete_stage. by destruct (stage_result x). Qed.

Lemma evolves_complete r p g : evolves g (alter_stage (complete_stage r) p g).
Proof.
  apply evolves_alter. intros x _. unfold complete_stage. destruct (stage_result x) eqn:Hx;
    split; simpl; auto; congruence.
Qed.
#[export] Hint Resolve evolves_complete : evolve.

Lemma weight_complete r p g x :
  gr_objects g !! p = Some x →
  weight (alter_stage (complete_stage r) p g) + b2n (negb (IsResolved x)) ≤ weight g.
Proof.
  intros Hp. pose proof (weight_alter (complete_stage r) p g x Hp) as Hw. revert Hw.
  unfold stage_weight, complete_stage, IsResolved. simpl.
  destruct (stage_result x) eqn:Hr; simpl; rewrite ?Hr; destruct (stage_triggered x); simpl; lia.
Qed.

(** Completing a stage leaves at most its own composed parent behind. *)
Lemma closed_complete r p g x q :
  gr_objects g !! p = Some x → closed_except p g →
  (∀ o, stage_composeReference x = Some o → o = q) →
  closed_except q (alter_stage (complete_stage r) p g).
Proof.
  intros Hp Hc Hq i si o Hi Hr Ho Hne. rewrite lookup_alter_stage in Hi. case_decide as Hpi.
  - subst i. rewrite Hp in Hi. simplify_eq/=. rewrite complete_stage_compose in Ho. naive_solver.
  - destruct (decide (o = p)) as [->|Hop].
    + exists (complete_stage r x). rewrite lookup_alter_stage, decide_True, Hp by done.
      split; [done|]. unfold IsResolved. simpl. by rewrite complete_stage_result.
    + eapply resolved_at_evolves; [apply evolves_complete|]. by eapply Hc.
Qed.
Lemma closed_complete_none r p g x :
  gr_objects g !! p = Some x → closed_except p g → stage_composeReference x = None →
  compose_closed (alter_stage (complete_stage r) p g).
Proof.
  intros Hp Hc Hn i si o Hi Hr Ho.
  eapply (closed_complete r p g x (S o)); eauto with lia. congruence.
Qed.
Lemma closed_resolved p g : closed_except p g → resolved_at g p → compose_closed g.
Proof. intros Hc Hp i si o Hi Hr Ho. destruct (decide (o = p)) as [->|]; [done|by eapply Hc]. Qed.

(** ** Lifecycle transitions *)

Lemma evolves_terminating g :
  gr_state g = StateCommitted → ¬ pending g MainExecPhase → evolves g (with_state StateTerminating g).
Proof. intros Hst Hp. apply evolves_with_state; [by rewrite Hst; simpl; lia|]. intros _. split_and!; [done|done|simpl; lia]. Qed.
Lemma evolves_completed g :
  gr_state g = StateTerminating → ¬ pending g TerminationExecPhase → evolves g (with_state StateCompleted g).
Proof.
  intros Hst Hp. apply evolves_with_state; [by rewrite Hst; simpl; lia|]. intros (Hm & _ & _).
  split_and!; [|done|simpl; lia]. intros _. apply Hm. by rewrite Hst.
Qed.
Lemma evolves_committed g : gr_state g = StateInitial → evolves g (with_state StateCommitted g).
Proof.
  intros Hst. apply evolves_with_state; [by rewrite Hst; simpl; lia|]. intros (_ & _ & Hr).
  split_and!; simpl; [lia|done|]. intros _. apply Hr. by rewrite Hst; simpl; lia.
Qed.

Lemma resolved_at_set_compose o p q g :
  resolved_at g p → resolved_at (alter_stage (set_composeReference o) q g) p.
Proof.
  intros (s & Hs & Hr). unfold resolved_at. rewrite lookup_alter_stage.
  case_decide; [|by eauto]. rewrite Hs. by eexists.
Qed.

(** Changing a compose reference leaves results, phases and readiness alone. *)
Lemma settled_set_compose o q g :
  settled g → (resolved_at g q → resolved_at g o) →
  settled (alter_stage (set_composeReference (Some o)) q g).
Proof.
  intros [Hn Hl Hc] Hqo. set (g' := alter_stage _ q g).
  assert (∀ p s', gr_objects g' !! p = Some s' → ∃ s, gr_objects g !! p = Some s
    ∧ stage_result s' = stage_result s ∧ stage_triggered s' = stage_triggered s
    ∧ stage_dependencies s' = stage_dependencies s ∧ stage_strategy s' = stage_strategy s
    ∧ (p ≠ q → s' = s) ∧ (p = q → stage_composeReference s' = Some o)) as Hlook.
  { intros p s' Hs'. unfold g' in Hs'. rewrite lookup_alter_stage in Hs'. case_decide.
    - subst. destruct (gr_objects g !! p) as [s|]; simplify_eq/=. by exists s.
    - by exists s'. }
  split.
  - intros p s' Hs' Hr Ht. destruct (Hlook _ _ Hs') as (s & Hs & Er & Et & Ed & Es & _).
    unfold g'. rewrite ready_alter by done. rewrite <- (Hn p s Hs) by congruence.
    unfold ready. by rewrite Ed, Es.
  - assert (∀ ph, pending g ph → pending g' ph) as Hpend.
    { intros ph (p & s & Hs & Hph). exists p. unfold g'. rewrite lookup_alter_stage.
      case_decide; [|by eauto]. rewrite Hs. eexists. split; [done|]. by destruct Hph. }
    unfold lifecycle_current in *. change (gr_state g') with (gr_state g). destruct (gr_state g); auto.
  - intros i si o' Hi Hr Ho. destruct (Hlook _ _ Hi) as (s & Hs & Er & _ & _ & _ & Hne & Heq).
    apply resolved_at_set_compose. assert (IsResolved s = true) as Hrs by (unfold IsResolved in *; simpl in *; by rewrite <- Er).
    destruct (decide (i = q)) as [->|Hiq].
    + rewrite (Heq eq_refl) in Ho. simplify_eq. apply Hqo. by exists s.
    + rewrite (Hne Hiq) in Ho. by eapply Hc.
Qed.

Lemma closed_set_compose o q g :
  compose_closed g → closed_except o (alter_stage (set_composeReference (Some o)) q g).
Proof.
  intros Hc i si o' Hi Hr Ho Hne. apply resolved_at_set_compose.
  rewrite lookup_alter_stage in Hi. case_decide; [|by eapply Hc].
  destruct (gr_objects g !! i); simpl in Hi; [|done]. injection Hi as <-. simpl in Ho. congruence.
Qed.

(** ** The start time is independent of everything else *)

Lemma update_startTime_eq e g : ∃ t, update_startTime e g = with_startTime t g.
Proof.
  unfold update_startTime. destruct (ptypes_Timestamp (GetTs e)) as [t err].
  destruct (err && _); [by exists t|]. exists (gr_startTime g). by destruct g.
Qed.
Lemma settled_startTime t g : settled g → settled (with_startTime t g).
Proof. intros [Hn Hl Hc]. split; [by eapply no_ready_ext|exact Hl|exact Hc]. Qed.
