(* ===== verification/GraphGrowth.v ===== *)
(** * Adding stages and termination hooks

    [grows s g g'] says what adding the stage [s] does to a graph: one new
    object and map entry; the other stages keep everything but their children
    and, for the previous head of the termination chain, their dependency. *)

From S2P Require Import Prelude Model Stage StageFacts Graph GraphFacts.

(** What the insertion keeps of an existing stage. *)
Record stage_kept (n : nat) (x y : CompletionStage) : Prop := {
  sk_ID : stage_ID y = stage_ID x;
  sk_result : stage_result y = stage_result x;
  sk_operation : stage_operation y = stage_operation x;
  sk_strategy : stage_strategy y = stage_strategy x;
  sk_closure : stage_closure y = stage_closure x;
  sk_whenComplete : stage_whenComplete y = stage_whenComplete x;
  sk_compose : stage_composeReference y = stage_composeReference x;
  sk_triggered : stage_triggered y = stage_triggered x;
  sk_phase : stage_execPhase y = stage_execPhase x;
  sk_dependencies : stage_dependencies y = stage_dependencies x
    ∨ stage_operation x = terminationHook ∧ stage_dependencies x = [TerminationRootRef]
      ∧ stage_dependencies y = [StageRef n];
}.

#[export] Instance stage_kept_refl n : Reflexive (stage_kept n).
Proof. intros x. by split; auto. Qed.

Record grows (s : CompletionStage) (g g' : CompletionGraph) : Prop := {
  gw_ID : gr_ID g' = gr_ID g;
  gw_FunctionID : gr_FunctionID g' = gr_FunctionID g;
  gw_state : gr_state g' = gr_state g;
  gw_root : gr_terminationRoot g' = gr_terminationRoot g;
  gw_stages : gr_stages g' = <[stage_ID s := length (gr_objects g)]> (gr_stages g);
  gw_objects : ∃ os, gr_objects g' = os ++ [s]
    ∧ Forall2 (stage_kept (length (gr_objects g))) (gr_objects g) os;
  gw_head : (gr_terminationChainHead g' = gr_terminationChainHead g
      ∧ ∀ p x y, gr_objects g !! p = Some x → gr_objects g' !! p = Some y →
          stage_dependencies y = stage_dependencies x)
      ∧ stage_operation s ≠ terminationHook
    ∨ gr_terminationChainHead g' = Some (length (gr_objects g)) ∧ stage_operation s = terminationHook
      ∧ stage_dependencies s = [TerminationRootRef]
      ∧ ∀ p x y, gr_objects g !! p = Some x → gr_objects g' !! p = Some y →
          if decide (gr_terminationChainHead g = Some p)
          then stage_dependencies y = [StageRef (length (gr_objects g))]
          else stage_dependencies y = stage_dependencies x;
}.

(** ** The two insertions grow the graph *)

Lemma foldl_add_child n p ds os s :
  Forall (λ d, d < length os) ds →
  ∃ os', foldl (λ os d, alter (add_child p) d os) (os ++ [s]) ds = os' ++ [s]
    ∧ Forall2 (λ x y, stage_kept n x y ∧ stage_dependencies y = stage_dependencies x) os os'.
Proof.
  revert os. induction ds as [|d ds IH]; intros os Hds; simpl.
  { exists os. split; [done|]. by apply Forall_Forall2_diag, Forall_true. }
  apply Forall_cons in Hds as [Hd Hds].
  rewrite alter_app_l by done.
  destruct (IH (alter (add_child p) d os)) as (os' & Heq & Hk).
  { by rewrite length_alter. }
  exists os'. split; [done|]. apply Forall2_same_length_lookup.
  assert (length os = length os') as Hlen.
  { apply Forall2_length in Hk. by rewrite length_alter in Hk. }
  split; [done|]. intros i x y Hx Hy.
  destruct (Forall2_lookup_r _ _ _ _ _ Hk Hy) as (z & Hz & Hzy & Hzd).
  rewrite list_lookup_alter in Hz. case_decide; subst; rewrite Hx in Hz; injection Hz as <-; [|done].
  destruct Hzy. split; [split|]; auto.
Qed.

Lemma insert_stage_grows s ds g :
  stage_operation s ≠ terminationHook →
  Forall (λ d, d < length (gr_objects g)) ds → grows s g (insert_stage s ds g).
Proof.
  intros Hop Hds. unfold insert_stage. simpl.
  destruct (foldl_add_child (length (gr_objects g)) (length (gr_objects g)) ds (gr_objects g) s Hds)
    as (os & Heq & Hk).
  split; simpl; auto.
  - exists os. split; [done|]. eapply Forall2_impl; [exact Hk|]. naive_solver.
  - left. split; [|done]. split; [done|]. intros p x y Hx. rewrite Heq.
    destruct (Forall2_lookup_l _ _ _ _ _ Hk Hx) as (z & Hz & _ & Hd).
    rewrite lookup_app_l by (by eapply lookup_lt_Some). naive_solver.
Qed.

Lemma insert_hook_grows id closure strat g :
  graph_wf g →
  ∃ ch, grows (new_stage id terminationHook strat closure [TerminationRootRef] ch TerminationExecPhase)
    g (insert_hook id closure strat g).
Proof.
  intros Hwf. exists (match gr_terminationChainHead g with Some h => [h] | None => [] end). unfold insert_hook. split; simpl; auto.
  - destruct (gr_terminationChainHead g) as [h|] eqn:Hh; [|eexists; split; [done|reflexivity]].
    destruct (wf_head _ Hwf _ Hh) as (x & Hx & Hop & Hd).
    rewrite alter_app_l by (by eapply lookup_lt_Some). eexists. split; [done|].
    apply Forall2_alter_r; [apply _|]. intros x' Hx'. simplify_eq. split; simpl; auto.
  - right. split_and!; [done..|]. intros p x y Hx Hy.
    destruct (gr_terminationChainHead g) as [h|] eqn:Hh.
    + destruct (wf_head _ Hwf _ Hh) as (xh & Hxh & _).
      rewrite alter_app_l, lookup_app_l in Hy; [|rewrite ?length_alter; by eapply lookup_lt_Some..].
      rewrite list_lookup_alter in Hy. repeat case_decide; simplify_eq/=; try done.
      rewrite Hx in Hy. by simplify_eq/=.
    + rewrite lookup_app_l in Hy by (by eapply lookup_lt_Some). case_decide; by simplify_eq.
Qed.

(** ** What growing keeps *)

Section grows.
Context (s : CompletionStage) (g g' : CompletionGraph) (Hgr : grows s g g').

Lemma grows_lookup p x :
  gr_objects g !! p = Some x →
  ∃ y, gr_objects g' !! p = Some y ∧ stage_kept (length (gr_objects g)) x y.
Proof.
  intros Hp. destruct (gw_objects _ _ _ Hgr) as (os & -> & Hk).
  destruct (Forall2_lookup_l _ _ _ _ _ Hk Hp) as (y & Hy & Hxy).
  exists y. split; [|done]. by apply lookup_app_l_Some.
Qed.
Lemma grows_new : gr_objects g' !! length (gr_objects g) = Some s.
Proof.
  destruct (gw_objects _ _ _ Hgr) as (os & -> & Hk).
  rewrite (Forall2_length _ _ _ Hk). by apply list_lookup_middle.
Qed.
Lemma grows_length : length (gr_objects g') = S (length (gr_objects g)).
Proof.
  destruct (gw_objects _ _ _ Hgr) as (os & -> & Hk).
  rewrite (Forall2_length _ _ _ Hk), length_app. simpl. lia.
Qed.
Lemma grows_lookup_inv p y :
  gr_objects g' !! p = Some y →
  p = length (gr_objects g) ∧ y = s
  ∨ ∃ x, gr_objects g !! p = Some x ∧ stage_kept (length (gr_objects g)) x y.
Proof.
  intros Hp. destruct (decide (p = length (gr_objects g))) as [->|Hne].
  { left. rewrite grows_new in Hp. by simplify_eq. }
  right. pose proof (lookup_lt_Some _ _ _ Hp) as Hlt. rewrite grows_length in Hlt.
  destruct (lookup_lt_is_Some_2 (gr_objects g) p) as [x Hx]; [lia|].
  destruct (grows_lookup p x Hx) as (y' & Hy' & Hk). exists x. split; [done|]. congruence.
Qed.

Lemma grows_load_dep d : is_Some (load_dep g d) → is_Some (load_dep g' d).
Proof.
  destruct d as [p|]; simpl; [|by eexists]. intros [x Hx]. apply fmap_Some in Hx as (z & Hz & _).
  destruct (grows_lookup p z Hz) as (y & -> & _). by eexists.
Qed.

Lemma grows_weight : weight g' = weight g + stage_weight s.
Proof.
  unfold weight. rewrite (gw_state _ _ _ Hgr).
  destruct (gw_objects _ _ _ Hgr) as (os & -> & Hk). rewrite sum_list_with_app. simpl.
  assert (sum_list_with stage_weight (gr_objects g) = sum_list_with stage_weight os) as ->; [|lia].
  induction Hk as [|x y l l' Hxy _ IH]; simpl; [done|]. rewrite IH. f_equal.
  unfold stage_weight, IsResolved. simpl. by rewrite (sk_result _ _ _ Hxy), (sk_triggered _ _ _ Hxy).
Qed.

Lemma grows_resolved p : resolved_at g p → resolved_at g' p.
Proof.
  intros (x & Hx & Hr). destruct (grows_lookup p x Hx) as (y & Hy & Hk). exists y.
  split; [done|]. unfold IsResolved in *. simpl in *. by rewrite (sk_result _ _ _ Hk).
Qed.
Lemma grows_closed : stage_composeReference s = None → compose_closed g → compose_closed g'.
Proof.
  intros Hn Hc i si o Hi Hr Ho. apply grows_resolved.
  destruct (grows_lookup_inv i si Hi) as [[-> ->]|(x & Hx & Hk)]; [congruence|].
  eapply Hc; [exact Hx| |].
  - unfold IsResolved in *. simpl in *. by rewrite <- (sk_result _ _ _ Hk).
  - by rewrite <- (sk_compose _ _ _ Hk).
Qed.
Lemma grows_pending ph : pending g ph → pending g' ph.
Proof.
  intros (p & x & Hx & Hph & Hr). destruct (grows_lookup p x Hx) as (y & Hy & Hk).
  exists p, y. split; [done|]. unfold is_pending, IsResolved in *. simpl in *.
  by rewrite (sk_phase _ _ _ Hk), (sk_result _ _ _ Hk).
Qed.
Lemma grows_lifecycle : lifecycle_current g → lifecycle_current g'.
Proof.
  unfold lifecycle_current. rewrite (gw_state _ _ _ Hgr). pose proof grows_pending.
  destruct (gr_state g); auto.
Qed.

Lemma grows_no_hook p q :
  no_hook_between g p q → q ≤ length (gr_objects g) → no_hook_between g' p q.
Proof.
  intros Hn Hq r z Hr Hz. destruct (grows_lookup_inv r z Hz) as [[-> _]|(z0 & Hz0 & Hk)]; [lia|].
  rewrite (sk_operation _ _ _ Hk). by eapply Hn.
Qed.
Lemma grows_chain :
  (∀ p x, gr_objects g !! p = Some x → stage_operation x = terminationHook → hook_linked g p x) →
  ∀ p y, gr_objects g' !! p = Some y → stage_operation y = terminationHook → hook_linked g' p y.
Proof.
  intros Hch p y Hy Hop.
  destruct (grows_lookup_inv p y Hy) as [[-> ->]|(x & Hx & Hk)].
  { destruct (gw_head _ _ _ Hgr) as [[_ ?]|(Hhd & _ & Hd & _)]; [done|]. left. split_and!; [done..|].
    intros r z Hr. rewrite grows_length in Hr. lia. }
  rewrite (sk_operation _ _ _ Hk) in Hop. pose proof (lookup_lt_Some _ _ _ Hx) as Hlt.
  destruct (Hch p x Hx Hop) as [(Hd & Hhd & Hn)|(q & z & Hd & Hpq & Hz & Hzop & Hn)].
  - destruct (gw_head _ _ _ Hgr) as [[[Hhd' Hdeps] Hsop]|(Hhd' & Hsop & _ & Hdeps)]; specialize (Hdeps p x y Hx Hy).
    + left. rewrite Hdeps, Hhd'. split_and!; [done..|]. intros r w Hr Hw.
      destruct (grows_lookup_inv r w Hw) as [[-> ->]|(w0 & Hw0 & Hkw)]; [done|].
      rewrite (sk_operation _ _ _ Hkw). eapply Hn; [|done]. apply lookup_lt_Some in Hw0. lia.
    + right. rewrite decide_True in Hdeps by done. exists (length (gr_objects g)), s.
      split_and!; [done|done|apply grows_new|done|]. by apply grows_no_hook.
  - right. destruct (grows_lookup q z Hz) as (z' & Hz' & Hkz). exists q, z'.
    pose proof (lookup_lt_Some _ _ _ Hz).
    split_and!; [|done|done|by rewrite (sk_operation _ _ _ Hkz)|apply grows_no_hook; [done|lia]].
    destruct (sk_dependencies _ _ _ Hk) as [->|(_ & Hd' & _)]; [done|congruence].
Qed.

(** A graph open to modification stays well-formed when a well-formed stage
    with a fresh id is added. *)
Lemma grows_wf :
  graph_wf g → gr_stages g !! stage_ID s = None → stage_wf g' s →
  2 ≤ rank (gr_state g) → (Z.of_nat (S (length (gr_objects g))) < 2 ^ 32)%Z →
  (stage_operation s ≠ terminationHook →
   Forall (λ d, ∃ q, d = StageRef q ∧ q < length (gr_objects g)) (stage_dependencies s)) →
  graph_wf g'.
Proof.
  intros Hwf Hfresh Hs Hrank Hsize Hdag. split.
  - intros id p. rewrite (gw_stages _ _ _ Hgr). intros [[<- <-]|[Hne Hp]]%lookup_insert_Some.
    { exists s. split; [apply grows_new|done]. }
    destruct (wf_map _ Hwf _ _ Hp) as (x & Hx & <-).
    destruct (grows_lookup p x Hx) as (y & Hy & Hk). exists y. by rewrite (sk_ID _ _ _ Hk).
  - intros p y Hy. rewrite (gw_stages _ _ _ Hgr).
    destruct (grows_lookup_inv p y Hy) as [[-> ->]|(x & Hx & Hk)]; [apply lookup_insert_eq|].
    pose proof (wf_obj _ Hwf _ _ Hx) as Hxp. rewrite (sk_ID _ _ _ Hk).
    rewrite lookup_insert_ne; [done|congruence].
  - intros p y Hy. destruct (grows_lookup_inv p y Hy) as [[-> ->]|(x & Hx & Hk)]; [done|].
    destruct (wf_stage _ Hwf _ _ Hx) as [Hst Har Hde Hco], Hk.
    rewrite <- sk_operation0, <- sk_strategy0 in *. split; [done| | |].
    + rewrite sk_phase0. destruct sk_dependencies0 as [->|(Hop & _ & ->)]; [done|].
      rewrite Hop in *. rewrite decide_True in * by done. naive_solver.
    + destruct sk_dependencies0 as [->|(Hop & _ & ->)].
      * eapply Forall_impl; [exact Hde|]. apply grows_load_dep.
      * repeat constructor. simpl. rewrite grows_new. by eexists.
    + intros o Ho. rewrite grows_length. rewrite sk_compose0 in Ho. specialize (Hco o Ho). lia.
  - intros p y Hy Hop. destruct (grows_lookup_inv p y Hy) as [[-> ->]|(x & Hx & Hk)]; [auto|].
    rewrite (sk_operation _ _ _ Hk) in Hop.
    destruct (sk_dependencies _ _ _ Hk) as [->|(? & _)]; [by apply (wf_acyclic _ Hwf)|done].
  - intros h Hh. destruct (gw_head _ _ _ Hgr) as [[[Heq Hdeps] _]|(Heq & Hop & Hd & _)]; rewrite Heq in Hh.
    + destruct (wf_head _ Hwf _ Hh) as (x & Hx & Hop & Hd).
      destruct (grows_lookup h x Hx) as (y & Hy & Hk). exists y.
      by rewrite (sk_operation _ _ _ Hk), (Hdeps h x y).
    + injection Hh as <-. exists s. split; [apply grows_new|done].
  - apply grows_chain, Hwf.
  - by rewrite grows_length.
  - destruct (wf_safe _ Hwf) as (_ & _ & Hroot). unfold lifecycle_safe.
    rewrite (gw_state _ _ _ Hgr), (gw_root _ _ _ Hgr). split_and!; [lia| |done].
    intros Hst. rewrite Hst in Hrank. simpl in Hrank. lia.
Qed.

(** Stages whose dependencies are kept are as ready as before. *)
Lemma grows_ready x y :
  stage_wf g x → stage_kept (length (gr_objects g)) x y → stage_dependencies y = stage_dependencies x →
  ready g' y = ready g x.
Proof.
  intros Hx Hk Hd. transitivity (ready g' x).
  { unfold ready. by rewrite Hd, (sk_strategy _ _ _ Hk). }
  symmetry. apply ready_deps. eapply Forall_impl; [apply (swf_deps _ _ Hx)|].
  intros [p|]; simpl; [|by rewrite (gw_root _ _ _ Hgr)].
  intros [d Hd']. apply fmap_Some in Hd' as (z & Hz & _). rewrite Hz.
  destruct (grows_lookup p z Hz) as (z' & -> & Hkz). simpl. by rewrite (sk_result _ _ _ Hkz).
Qed.
End grows.

(** ** Main stages *)

Lemma new_main_stage_wf id op strat closure ds g :
  getStrategyFromOperation op = Some strat → op ≠ terminationHook → bad_arity strat (length ds) = false →
  Forall (λ d, d < length (gr_objects g)) ds →
  stage_wf g (new_stage id op strat closure (StageRef <$> ds) [] MainExecPhase).
Proof.
  intros Hst Hop Har Hds. split; simpl; [done| | |done].
  - rewrite decide_False by done. by rewrite length_fmap.
  - apply Forall_fmap. eapply Forall_impl; [exact Hds|]. intros d Hd. simpl.
    apply lookup_lt_is_Some in Hd as [x ->]. by eexists.
Qed.

Lemma insert_stage_wf id op strat closure ds g :
  graph_wf g → gr_stages g !! id = None → 2 ≤ rank (gr_state g) →
  (Z.of_nat (S (length (gr_objects g))) < 2 ^ 32)%Z →
  getStrategyFromOperation op = Some strat → op ≠ terminationHook → bad_arity strat (length ds) = false →
  Forall (λ d, d < length (gr_objects g)) ds →
  graph_wf (insert_stage (new_stage id op strat closure (StageRef <$> ds) [] MainExecPhase) ds g).
Proof.
  intros Hwf Hid Hrank Hsize Hst Hop Har Hds. set (s := new_stage _ _ _ _ _ _ _).
  pose proof (insert_stage_grows s ds g Hop Hds) as Hgr. apply (grows_wf s g _ Hgr); try done.
  - apply new_main_stage_wf; try done. rewrite (grows_length _ _ _ Hgr).
    eapply Forall_impl; [exact Hds|]. simpl. lia.
  - intros _. apply Forall_fmap. eapply Forall_impl; [exact Hds|]. simpl. eauto.
Qed.

(** ** Termination hooks *)

Lemma not_ready_single g x d dep :
  strat_Trigger (stage_strategy x) = Fn_waitForAll → stage_dependencies x = [d] →
  load_dep g d = Some dep → IsResolved dep = false → ready g x = false.
Proof.
  intros Ht Hd Hl Hr. unfold ready, load_deps. rewrite Ht, Hd. simpl. rewrite Hl. simpl.
  unfold waitForAll. rewrite list_omap_cons, Hr. done.
Qed.

Section hook.
Context (g : CompletionGraph) (Hwf : graph_wf g) (id : string) (closure : option BlobDatum) (strat : strategy).
Context (Hstrat : getStrategyFromOperation terminationHook = Some strat) (Hrank : 2 ≤ rank (gr_state g)).

Lemma insert_hook_wf :
  gr_stages g !! id = None → (Z.of_nat (S (length (gr_objects g))) < 2 ^ 32)%Z →
  graph_wf (insert_hook id closure strat g).
Proof.
  intros Hid Hsize. destruct (insert_hook_grows id closure strat g Hwf) as [ch Hgr].
  apply (grows_wf _ g _ Hgr); try done.
  split; simpl; [done|done| |done]. repeat constructor. by eexists.
Qed.

(** The new hook waits for the termination of the graph, the previous head
    for the new hook. *)
Lemma insert_hook_settled : settled g → settled (insert_hook id closure strat g).
Proof.
  intros [Hn Hl Hc]. destruct (insert_hook_grows id closure strat g Hwf) as [ch Hgr].
  split; [|by eapply grows_lifecycle|by eapply grows_closed].
  assert (strat_Trigger strat = Fn_waitForAll) as Htr by (simpl in Hstrat; by simplify_eq).
  destruct (wf_safe _ Hwf) as (_ & _ & Hroot). specialize (Hroot Hrank).
  intros p y Hy Hr Ht. destruct (grows_lookup_inv _ _ _ Hgr p y Hy) as [[-> ->]|(x & Hx & Hk)].
  - eapply not_ready_single; [done|done|done|]. simpl. unfold IsResolved. simpl. by rewrite Hroot.
  - pose proof (wf_stage _ Hwf _ _ Hx) as Hxwf.
    destruct (sk_dependencies _ _ _ Hk) as [Hd|(Hop & _ & Hd)].
    + rewrite (grows_ready _ _ _ Hgr x y Hxwf Hk Hd). apply (Hn p); [done|..].
      * by rewrite <- (sk_result _ _ _ Hk).
      * by rewrite <- (sk_triggered _ _ _ Hk).
    + eapply (not_ready_single _ _ _ (DStage _)); [|exact Hd| |].
      * rewrite (sk_strategy _ _ _ Hk). pose proof (swf_strategy _ _ Hxwf) as Hs.
        rewrite Hop, Hstrat in Hs. by simplify_eq.
      * unfold load_dep. by rewrite (grows_new _ _ _ Hgr).
      * done.
Qed.
End hook.
