(* ===== verification/GraphSpec.v ===== *)
(** * The contract between the graph and its listener

    [ListenerSpec n L] is what the graph asks of its [CompletionEventListener]:
    each callback, called where the handlers call it, returns and leaves a
    graph that has evolved from the one it found. Under that contract every
    handler of the graph is shown to return (no panic, no fuel exhaustion) and
    to leave a settled graph. The bound [n] limits the weight of the graphs the
    listener accepts, and so the depth of the re-entrant calls. *)

From S2P Require Import Prelude Model Stage StageFacts Graph GraphFacts GraphGrowth.

Definition has_result (p : stage_ptr) (r : CompletionResult) (g : CompletionGraph) : Prop :=
  ∃ s, gr_objects g !! p = Some s ∧ stage_result s = Some r.

(** A response to an invocation is acceptable when the stage exists and, for
    the operations that pass their parent's result on, the parent has one. *)
Definition parent_resolved (g : CompletionGraph) (x : CompletionStage) : Prop :=
  strat_ResultHandling (stage_strategy x) = Fn_parentStageResult →
  ∀ d, d ∈ stage_dependencies x → ∃ r, option_map GetResult (load_dep g d) = Some (Some r).

Lemma parent_single g x :
  stage_wf g x → strat_ResultHandling (stage_strategy x) = Fn_parentStageResult →
  ∃ d, stage_dependencies x = [d].
Proof.
  intros Hx Hrh. assert (length (stage_dependencies x) = 1) as Hlen.
  { pose proof (swf_arity _ _ Hx) as Har. pose proof (swf_strategy _ _ Hx) as Hst.
    destruct (decide (stage_operation x = terminationHook)); [by destruct Har|].
    destruct Har as [Har _]. unfold bad_arity in Har.
    destruct (stage_operation x); simpl in Hst; try discriminate; injection Hst as Hst;
      rewrite <- Hst in Hrh, Har; try discriminate; simpl in Har; lia || done. }
  destruct (stage_dependencies x) as [|d [|]]; simplify_eq/=. by exists d.
Qed.

Lemma fires_resolved t (d : Dependency) status rs :
  run_trigger t [d] = Some (true, status, rs) → ∃ r, GetResult d = Some r.
Proof.
  assert (IsResolved d = true → ∃ r, GetResult d = Some r) as Hres by by intros ?%IsResolved_true.
  destruct t; simpl; [| |done].
  - unfold waitForAll. rewrite list_omap_cons. destruct (IsResolved d) eqn:Hr; [auto|done].
  - unfold triggerAny. simpl. destruct (IsResolved d) eqn:Hr; [auto|done].
Qed.

(** A stage whose trigger fires has the parent result it may pass on. *)
Lemma fires_parent g x deps status rs :
  stage_wf g x → load_deps g (stage_dependencies x) = Some deps →
  run_trigger (strat_Trigger (stage_strategy x)) deps = Some (true, status, rs) → parent_resolved g x.
Proof.
  intros Hx Hdeps Hrun Hrh d Hd. destruct (parent_single g x Hx Hrh) as [d' Hd'].
  rewrite Hd' in *. apply list_elem_of_singleton in Hd as ->. unfold load_deps in Hdeps. simpl in Hdeps.
  destruct (load_dep g d') as [dep|]; simpl in Hdeps; [|done]. injection Hdeps as <-.
  destruct (fires_resolved _ _ _ _ Hrun) as [r Hr]. exists r. unfold option_map. by rewrite Hr.
Qed.

Lemma parent_resolved_evolves n g g' x y :
  evolves g g' → stage_evolves n x y → parent_resolved g x → parent_resolved g' y.
Proof.
  intros Hev Hxy Hp Hrh d Hd. rewrite (sev_strategy _ _ _ Hxy) in Hrh. rewrite (sev_dependencies _ _ _ Hxy) in Hd.
  destruct (Hp Hrh d Hd) as [r Hr]. destruct d as [q|]; simpl in *.
  - destruct (gr_objects g !! q) as [z|] eqn:Hz; simpl in Hr; [|done]. injection Hr as Hr.
    destruct (evolves_lookup _ _ _ _ Hev Hz) as (z' & -> & Hzz). exists r. simpl.
    by rewrite (sev_result _ _ _ Hzz r Hr).
  - injection Hr as Hr. destruct (ev_root _ _ Hev) as [r' Hr']; [by eexists|]. exists r'. by rewrite Hr'.
Qed.

Lemma parent_resolved_grows s g g' p x y :
  graph_wf g → 2 ≤ rank (gr_state g) → grows s g g' → gr_objects g !! p = Some x →
  stage_kept (length (gr_objects g)) x y → parent_resolved g x → parent_resolved g' y.
Proof.
  intros Hwf Hrank Hgr Hx Hk Hp Hrh d Hd. rewrite (sk_strategy _ _ _ Hk) in Hrh.
  destruct (sk_dependencies _ _ _ Hk) as [Heq|(_ & Heq & _)].
  - rewrite Heq in Hd. destruct (Hp Hrh d Hd) as [r Hr]. exists r. destruct d as [q|]; simpl in *.
    + destruct (gr_objects g !! q) as [z|] eqn:Hz; simpl in Hr; [|done].
      destruct (grows_lookup _ _ _ Hgr q z Hz) as (z' & -> & Hkz). simpl. by rewrite (sk_result _ _ _ Hkz).
    + by rewrite (gw_root _ _ _ Hgr).
  - destruct (wf_safe _ Hwf) as (_ & _ & Hroot). specialize (Hroot Hrank).
    destruct (Hp Hrh TerminationRootRef) as [r Hr]; [rewrite Heq; by left|]. simpl in Hr. congruence.
Qed.

(** The stage makes something of the response to its invocation. *)
Definition takes_result (x : CompletionStage) : Prop :=
  strat_ResultHandling (stage_strategy x) ≠ Fn_noResultStrategy.

Definition invokes (f : ExecutionStrategy) : bool :=
  match f with Fn_invokeWithoutArgs | Fn_invokeWithResult | Fn_invokeWithResultOrError => true | _ => false end.

Lemma invokes_takes_result g x (status : bool) :
  stage_wf g x →
  invokes (if status then strat_Success (stage_strategy x) else strat_Failure (stage_strategy x)) = true →
  takes_result x.
Proof.
  intros Hx. unfold takes_result. pose proof (swf_strategy _ _ Hx) as Hst.
  destruct (stage_operation x); simpl in Hst; try discriminate; injection Hst as <-; by destruct status.
Qed.

(** The response refers to a stage of the graph, and the stage takes its result
    from that one. *)
Definition composes (g : CompletionGraph) (x : CompletionStage) (r : CompletionResult) (q : stage_ptr) : Prop :=
  strat_ResultHandling (stage_strategy x) = Fn_referencedStageResult ∧ Successful r = true
  ∧ ∃ ref, GetStageRef (result_Datum r) = Some ref ∧ GetStage g (ref_StageId ref) = Some q.

(** What the owner of a graph keeps beside it: an invariant [Aux] that holds as
    the graph evolves and grows, and [Unexecuted id s], which says that the
    stage has not been sent for execution yet. *)
Class ListenerState (St : Type) `{!HasGraph St} := {
  Aux : CompletionGraph → St → Prop;
  Unexecuted : string → St → Prop;
  Aux_evolves g g' s : Aux g s → evolves g g' → Aux g' (put_graph g' s);
  Aux_grows x g g' s : graph_wf g → 2 ≤ rank (gr_state g) → gr_stages g !! stage_ID x = None →
    Aux g s → grows x g g' → Aux g' (put_graph g' s);
  Unexecuted_put id g s : Unexecuted id s → Unexecuted id (put_graph g s);
  Aux_unexecuted g p x s : graph_wf g → Aux g s → gr_objects g !! p = Some x →
    stage_triggered x = false → Unexecuted (stage_ID x) s;
}.

Section spec.
Context {St : Type} `{!HasGraph St} `{!ListenerState St} `{!MapOrder}.

Definition at_graph (g : CompletionGraph) (s : St) : Prop := graph_of s = Some g ∧ Aux g s.

(** The graph has evolved from [g] into one that satisfies [Φ]. *)
Definition becomes (g : CompletionGraph) (Φ : CompletionGraph → Prop) (s : St) : Prop :=
  ∃ g', at_graph g' s ∧ evolves g g' ∧ Φ g'.

Record ListenerSpec (n : nat) (L : CompletionEventListener St) : Prop := {
  ls_execute p x rs g s :
    at_graph g s → graph_wf g → gr_objects g !! p = Some x → parent_resolved g x → takes_result x →
    stage_triggered x = true → Unexecuted (stage_ID x) s → 0 < n →
    wp (OnExecuteStage L p rs) (λ _, at_graph g) s;
  ls_complete p x r g s :
    at_graph g s → graph_wf g → gr_objects g !! p = Some x → closed_except p g →
    weight g + b2n (IsResolved x) < n →
    wp (OnCompleteStage L p (Some r))
      (λ _, becomes g (λ g', settled g' ∧ has_result p (default r (stage_result x)) g')) s;
  ls_compose p q g s :
    at_graph g s → graph_wf g → settled g → p < length (gr_objects g) → q < length (gr_objects g) →
    weight g + 1 < n →
    wp (OnComposeStage L p q) (λ _, becomes g settled) s;
  ls_finished g s :
    at_graph g s → graph_wf g → gr_state g = StateCommitted → ¬ pending g MainExecPhase →
    compose_closed g → weight g < n →
    wp (OnGraphExecutionFinished L) (λ _, becomes g settled) s;
  ls_completed g s :
    at_graph g s → graph_wf g → gr_state g = StateTerminating → ¬ pending g TerminationExecPhase →
    compose_closed g → no_ready g → weight g < n →
    wp (OnGraphComplete L) (λ _, becomes g settled) s;
}.

(** ** Elementary steps *)

Lemma becomes_refl g (Φ : _ → Prop) s : at_graph g s → Φ g → becomes g Φ s.
Proof. intros. exists g. split_and!; [done|reflexivity|done]. Qed.
Lemma becomes_trans g g1 (Φ Ψ : _ → Prop) s :
  evolves g g1 → becomes g1 Φ s → (∀ g', evolves g1 g' → Φ g' → Ψ g') → becomes g Ψ s.
Proof. intros H1 (g' & ? & ? & ?) Himp. exists g'. split_and!; [done|by etrans|auto]. Qed.

Lemma wp_get_graph g (Q : _ → _ → Prop) s : at_graph g s → Q g s → wp get_graph Q s.
Proof. intros [Hg _] HQ. apply wp_bind, wp_get. by apply (wp_deref _ g). Qed.
Lemma wp_modify_graph f g (Q : _ → _ → Prop) s :
  at_graph g s → evolves g (f g) → (∀ s', at_graph (f g) s' → Q tt s') → wp (modify_graph f) Q s.
Proof.
  intros Hat Hev HQ. apply wp_bind. apply (wp_get_graph g); [done|]. apply wp_modify, HQ.
  split; [apply graph_of_put|]. destruct Hat as [_ Ha]. by eapply Aux_evolves.
Qed.
Lemma wp_grow_graph x f g (Q : _ → _ → Prop) s :
  at_graph g s → graph_wf g → 2 ≤ rank (gr_state g) → gr_stages g !! stage_ID x = None →
  grows x g (f g) → (∀ s', at_graph (f g) s' → Q tt s') → wp (modify_graph f) Q s.
Proof.
  intros Hat Hwf Hr Hid Hgr HQ. apply wp_bind. apply (wp_get_graph g); [done|]. apply wp_modify, HQ.
  split; [apply graph_of_put|]. destruct Hat as [_ Ha]. by eapply Aux_grows.
Qed.
Lemma wp_get_stage p x g (Q : _ → _ → Prop) s :
  at_graph g s → gr_objects g !! p = Some x → Q x s → wp (get_stage p) Q s.
Proof. intros Hat Hp HQ. apply wp_bind. apply (wp_get_graph g); [done|]. by apply (wp_deref _ x). Qed.

(** A loop over the stages: [J] is kept, and [D p] holds of every stage
    visited, once it has been visited. *)
Lemma wp_range_stages body (J : CompletionGraph → Prop) (D : stage_ptr → CompletionGraph → Prop) g s :
  at_graph g s → graph_wf g → J (next_iteration g) →
  (∀ p x g1 s1, at_graph g1 s1 → graph_wf g1 → J g1 → gr_objects g1 !! p = Some x →
     wp (body p) (λ _, becomes g1 (λ g2, J g2 ∧ D p g2 ∧ ∀ q, D q g1 → D q g2)) s1) →
  wp (range_stages body)
    (λ _, becomes g (λ g', J g' ∧ ∀ p, p < length (gr_objects g') → D p g')) s.
Proof.
  intros Hat Hwf HJ Hbody. unfold range_stages.
  apply wp_bind, (wp_get_graph g); [done|].
  apply wp_bind, (wp_modify_graph _ g); [done|apply evolves_next_iteration|].
  clear s Hat. intros s Hat. eapply wp_mono; [apply (wp_for_each (λ done_ s', becomes g (λ g',
    J g' ∧ ∀ id p, id ∈ done_ → gr_stages g !! id = Some p → D p g') s'))|].
  - exists (next_iteration g). split_and!; [done|apply evolves_next_iteration|done|].
    intros id p Hid. by apply not_elem_of_nil in Hid.
  - intros done_ id rest s1 _ (g1 & Hat1 & Hev1 & HJ1 & HD1).
    apply wp_bind, (wp_get_graph g1); [done|]. unfold GetStage.
    rewrite (ev_stages _ _ Hev1). destruct (gr_stages g !! id) as [p|] eqn:Hp.
    + assert (graph_wf g1) as Hwf1 by eauto with evolve.
      rewrite <- (ev_stages _ _ Hev1) in Hp.
      destruct (wf_map _ Hwf1 _ _ Hp) as (x & Hx & _).
      eapply wp_mono; [by eapply Hbody|]. intros [] s2 Hb.
      eapply becomes_trans; [exact Hev1|exact Hb|]. intros g2 Hev2 (HJ2 & HDp & HDs).
      split; [done|]. intros id' p' [Hin| ->%list_elem_of_singleton]%elem_of_app Hp'.
      * eauto.
      * rewrite (ev_stages _ _ Hev1) in Hp. by simplify_eq.
    + apply wp_ret. exists g1. split_and!; [done..|]. intros id' p' [Hin| ->%list_elem_of_singleton]%elem_of_app Hp'.
      * eauto.
      * by simplify_eq.
  - intros [] s' (g' & Hat' & Hev' & HJ' & HD'). exists g'. split_and!; [done..|].
    intros p Hp. rewrite (evolves_length _ _ Hev') in Hp. apply lookup_lt_is_Some in Hp as [x Hx].
    apply (HD' (stage_ID x)); [|by apply (wf_obj _ Hwf)].
    rewrite range_order_perm. apply list_elem_of_fmap. exists (stage_ID x, p).
    split; [done|]. by apply elem_of_map_to_list, (wf_obj _ Hwf).
Qed.

(** ** stage.go *)

Lemma wp_complete p x r g s :
  at_graph g s → gr_objects g !! p = Some x →
  wp (complete p (Some r)) (λ _, at_graph (alter_stage (complete_stage r) p g)) s.
Proof.
  intros Hat Hp. unfold complete.
  apply wp_bind, (wp_get_stage p x g); [done..|].
  apply wp_bind, (wp_modify_graph _ g); [done|apply evolves_set_triggered|]. clear s Hat. intros s Hat.
  apply wp_bind, (wp_get_stage p (set_triggered x) (alter_stage set_triggered p g)); [done| |].
  { rewrite lookup_alter_stage, decide_True, Hp by done. done. }
  cbn [stage_result set_triggered]. destruct (stage_result x) eqn:Hx.
  - apply wp_ret. replace (alter_stage (complete_stage r) p g) with (alter_stage set_triggered p g); [done|].
    unfold alter_stage, with_objects. f_equal.
    apply list_alter_ext; [|done]. intros y Hy. unfold complete_stage. by simplify_eq; rewrite Hx.
  - apply wp_bind, (wp_modify_graph _ (alter_stage set_triggered p g)); [done| |].
    { apply evolves_set_result. intros y. rewrite lookup_alter_stage, decide_True, Hp by done. naive_solver. }
    intros s' Hat'. apply wp_ret.
    replace (alter_stage (complete_stage r) p g)
      with (alter_stage (set_result (Some r)) p (alter_stage set_triggered p g)); [done|].
    unfold alter_stage, with_objects. simpl. f_equal.
    rewrite list_alter_alter_eq.
    apply list_alter_ext; [|done]. intros y Hy. unfold complete_stage. by simplify_eq; rewrite Hx.
Qed.

Lemma wf_load_deps g x :
  stage_wf g x → ∃ deps, load_deps g (stage_dependencies x) = Some deps.
Proof.
  intros Hx. apply mapM_is_Some. apply (swf_deps _ _ Hx).
Qed.

Lemma wp_requestTrigger p x g s :
  at_graph g s → graph_wf g → gr_objects g !! p = Some x →
  wp (requestTrigger p) (λ '(fires, status, rs) s',
    if fires : bool
    then at_graph (alter_stage set_triggered p g) s'
         ∧ accepts (if status : bool then strat_Success (stage_strategy x)
                    else strat_Failure (stage_strategy x)) rs
         ∧ parent_resolved g x ∧ Unexecuted (stage_ID x) s'
    else at_graph g s' ∧ idle g p) s.
Proof.
  intros Hat Hwf Hp. unfold requestTrigger.
  apply wp_bind, (wp_get_stage p x g); [done..|].
  destruct (stage_triggered x) eqn:Htr.
  { apply wp_ret. split; [done|]. intros y Hy. congruence. }
  pose proof (wf_stage _ Hwf _ _ Hp) as Hx.
  destruct (wf_load_deps g x Hx) as [deps Hdeps].
  apply wp_bind, (wp_get_graph g); [done|].
  apply wp_bind. apply (wp_deref _ deps); [done|].
  destruct (run_trigger_inv (strat_Trigger (stage_strategy x)) deps) as (fires & status & rs & Hrun & _).
  apply wp_bind. apply (wp_deref _ (fires, status, rs)); [done|]. apply wp_bind.
  destruct fires.
  - destruct (Hat) as [Hg Ha]. unfold modify_graph. apply wp_bind, (wp_get_graph g); [done|].
    apply wp_modify, wp_ret. split_and!; [| |by eapply fires_parent|by eapply Unexecuted_put, Aux_unexecuted].
    { split; [apply graph_of_put|]. eapply Aux_evolves; [done|apply evolves_set_triggered]. }
    by apply (strategy_accepts (T:=Dependency) (stage_operation x) _ deps); [apply (swf_strategy _ _ Hx)|].
  - apply wp_ret, wp_ret. split; [done|]. intros y Hy _ _. simplify_eq.
    unfold ready. by rewrite Hdeps, Hrun.
Qed.

Lemma closed_weaken p g : compose_closed g → closed_except p g.
Proof. intros Hc i si o Hi Hr Ho _. by eapply Hc. Qed.

Lemma resolved_at_set_triggered p q g :
  resolved_at g q → resolved_at (alter_stage set_triggered p g) q.
Proof.
  intros (x & Hx & Hr). unfold resolved_at. rewrite lookup_alter_stage. case_decide; [|by eauto].
  rewrite Hx. by exists (set_triggered x).
Qed.
Lemma closed_set_triggered p g : compose_closed g → compose_closed (alter_stage set_triggered p g).
Proof.
  intros Hc i si o Hi Hr Ho. apply resolved_at_set_triggered.
  rewrite lookup_alter_stage in Hi. case_decide; [|by eapply Hc].
  destruct (gr_objects g !! i) as [y|] eqn:Hy; simplify_eq/=. by eapply Hc.
Qed.

Lemma lifecycle_set_triggered p g :
  lifecycle_current g → lifecycle_current (alter_stage set_triggered p g).
Proof.
  intros Hl. assert (∀ ph, pending g ph → pending (alter_stage set_triggered p g) ph) as Hp.
  { intros ph (q & y & Hy & Hph). exists q. rewrite lookup_alter_stage.
    case_decide; [|by eauto]. rewrite Hy. by exists (set_triggered y). }
  unfold lifecycle_current in *. change (gr_state (alter_stage _ p g)) with (gr_state g).
  destruct (gr_state g); auto.
Qed.

Context (n : nat) (L : CompletionEventListener St) (HL : ListenerSpec n L).

(** ** The loops of graph.go *)

(** [trigger] either leaves the graph alone (the stage's closure has been
    sent for execution, or the stage awaits an external event) or completes
    the stage. *)
Lemma wp_trigger p x status rs g s :
  at_graph g s → graph_wf g → gr_objects g !! p = Some x → IsResolved x = false →
  accepts (if status : bool then strat_Success (stage_strategy x)
           else strat_Failure (stage_strategy x)) rs →
  parent_resolved g x → stage_triggered x = true → Unexecuted (stage_ID x) s →
  compose_closed g → weight g < n →
  wp (trigger L p status rs) (λ _ s', at_graph g s' ∨ becomes g settled s') s.
Proof.
  intros Hat Hwf Hp Hr Hacc Hpar Htr Hun Hc Hw. unfold trigger.
  apply wp_bind, (wp_get_stage p x g); [done..|].
  assert (∀ r, wp (OnCompleteStage L p (Some r)) (λ _ s', at_graph g s' ∨ becomes g settled s') s) as Hcompl.
  { intros r. eapply wp_mono; [eapply (ls_complete _ _ HL); eauto using closed_weaken; rewrite Hr; simpl; lia|].
    intros [] s' (g' & ? & ? & ? & ?). right. by exists g'. }
  assert (takes_result x → ∀ rs, wp (OnExecuteStage L p rs) (λ _ s', at_graph g s' ∨ becomes g settled s') s) as Hexec.
  { intros Htk args. eapply wp_mono; [eapply (ls_execute _ _ HL); eauto; lia|]. by left. }
  pose proof (invokes_takes_result g x status (wf_stage _ Hwf _ _ Hp)) as Htk.
  destruct (if status then _ else _); unfold run_execution, accepts,
    succeedWithEmpty, invokeWithoutArgs, invokeWithResult in *; auto.
  - destruct Hacc as [r ->]. unfold invokeWithResultOrError.
    apply wp_bind. apply (wp_deref _ r); auto.
  - apply wp_ret. by left.
  - destruct Hacc as [r ->]. unfold propagateResult. auto.
Qed.

Lemma settled_idle g : settled g → ∀ p, idle g p.
Proof. intros Hs. apply (settled_no_ready _ Hs). Qed.

Lemma wp_triggerReadyStages g s :
  at_graph g s → graph_wf g → compose_closed g → weight g < n →
  wp (triggerReadyStages L) (λ _, becomes g (λ g', no_ready g' ∧ compose_closed g'
    ∧ (lifecycle_current g → lifecycle_current g'))) s.
Proof.
  intros Hat Hwf Hc Hw. eapply wp_mono.
  - apply (wp_range_stages _ (λ g', compose_closed g' ∧ weight g' < n
      ∧ (lifecycle_current g → lifecycle_current g')) (λ p g', idle g' p) g); [done..|].
    clear s Hat. intros p x g1 s Hat Hwf1 (Hc1 & Hw1 & Hl1) Hp.
    apply wp_bind, (wp_get_stage p x g1); [done..|].
    destruct (IsResolved x) eqn:Hr; simpl.
    { apply wp_ret, becomes_refl; [done|]. split_and!; [done..| |done]. intros y Hy Hn _. simplify_eq.
      unfold IsResolved in Hr. simpl in Hr. by rewrite Hn in Hr. }
    apply wp_bind. eapply wp_mono; [by apply (wp_requestTrigger p x g1)|].
    intros [[[] status] rs] s1.
    + intros (Hat1 & Hacc & Hpar & Hun). set (g2 := alter_stage set_triggered p g1) in *.
      assert (evolves g1 g2) as Hev by apply evolves_set_triggered.
      assert (weight g2 < n) as Hw2 by (apply evolves_weight in Hev; lia).
      assert (compose_closed g2) as Hc2 by by apply closed_set_triggered.
      eapply wp_mono; [apply (wp_trigger p (set_triggered x) status rs g2); auto|].
      * eauto with evolve.
      * unfold g2. by rewrite lookup_alter_stage, decide_True, Hp.
      * eapply (parent_resolved_evolves 0); [exact Hev| |exact Hpar]. split; simpl; auto.
      * intros [] s2 [Hat2|Hb].
        -- exists g2. split_and!; [done..| |apply idle_triggered|].
           { intros. by apply lifecycle_set_triggered, Hl1. }
           intros q. apply idle_set_triggered.
        -- eapply becomes_trans; [exact Hev|exact Hb|]. intros g3 Hev3 Hset.
           pose proof (evolves_weight _ _ Hev3). split_and!; [apply Hset|lia|intros _; apply Hset|by apply settled_idle|].
           intros. by apply settled_idle.
    + intros [Hat1 Hidle]. apply wp_ret, becomes_refl; done.
  - intros [] s' (g' & Hat' & Hev' & (Hc' & Hw' & Hl') & Hidle). exists g'. split_and!; [done..| |done|done].
    intros p y Hy. apply (Hidle p); [by eapply lookup_lt_Some|done].
Qed.

Lemma wp_checkForExecutionFinished g s :
  at_graph g s → graph_wf g → compose_closed g → no_ready g → weight g < n →
  wp (checkForExecutionFinished L) (λ _, becomes g settled) s.
Proof.
  intros Hat Hwf Hc Hn Hw. unfold checkForExecutionFinished.
  apply wp_bind, (wp_get_graph g); [done|].
  assert (lifecycle_current g → wp (mret tt) (λ _ : unit, becomes g settled) s) as Hret.
  { intros Hl. by apply wp_ret, becomes_refl. }
  unfold lifecycle_current in Hret. destruct (gr_state g) eqn:Hst; [by apply Hret| | |by apply Hret].
  - destruct (Z.eqb_spec (getPendingCount g MainExecPhase) 0) as [Hz|Hz].
    + apply pending_count in Hz; [|done]. by eapply (ls_finished _ _ HL).
    + apply Hret. rewrite pending_count in Hz by done. by apply dec_stable.
  - destruct (Z.eqb_spec (getPendingCount g TerminationExecPhase) 0) as [Hz|Hz].
    + apply pending_count in Hz; [|done]. by eapply (ls_completed _ _ HL).
    + apply Hret. rewrite pending_count in Hz by done. by apply dec_stable.
Qed.

(** ** The handlers of graph.go *)

Lemma wp_tryCompleteComposedStage outer inner y g s :
  at_graph g s → graph_wf g → gr_objects g !! inner = Some y → IsResolved y = true →
  outer < length (gr_objects g) → closed_except outer g → weight g < n →
  wp (tryCompleteComposedStage L (Some outer) inner) (λ _, becomes g compose_closed) s.
Proof.
  intros Hat Hwf Hi Hr Ho Hc Hw. unfold tryCompleteComposedStage.
  apply wp_bind, (wp_get_stage inner y g); [done..|]. rewrite Hr.
  apply lookup_lt_is_Some in Ho as [z Hz].
  apply wp_bind, wp_ret, wp_bind, (wp_get_stage outer z g); [done..|].
  destruct (IsResolved z) eqn:Hrz; simpl.
  - apply wp_ret, becomes_refl; [done|]. apply (closed_resolved outer); [done|by exists z].
  - unfold IsResolved in Hr. simpl in Hr. destruct (stage_result y) as [r|]; [|done].
    eapply wp_mono; [eapply (ls_complete _ _ HL); eauto; rewrite Hrz; simpl; lia|].
    intros [] s' Hb. eapply becomes_trans; [reflexivity|exact Hb|]. intros g' _ [Hs _]. apply Hs.
Qed.

(** After the stage itself is completed: its composed parent, the stages that
    have become ready, the graph's own lifecycle. *)
Lemma wp_trigger_and_check g s :
  at_graph g s → graph_wf g → compose_closed g → weight g < n →
  wp (triggerReadyStages L;; checkForExecutionFinished L) (λ _, becomes g settled) s.
Proof.
  intros Hat Hwf Hc Hw. apply wp_bind.
  eapply wp_mono; [by eapply wp_triggerReadyStages|].
  intros [] s1 (g1 & Hat1 & Hev1 & Hn1 & Hc1 & _). pose proof (evolves_weight _ _ Hev1).
  eapply wp_mono; [eapply (wp_checkForExecutionFinished g1); eauto with evolve lia|].
  intros [] s2 Hb. by eapply becomes_trans.
Qed.

Lemma wp_handleStageCompleted e r p x g s :
  at_graph g s → graph_wf g → stagecompleted_Result e = Some r →
  GetStage g (stagecompleted_StageId e) = Some p → gr_objects g !! p = Some x →
  closed_except p g → weight g + b2n (IsResolved x) < S n →
  wp (handleStageCompleted L e true)
    (λ _, becomes g (λ g', settled g' ∧ has_result p (default r (stage_result x)) g')) s.
Proof.
  intros Hat Hwf Her Hid Hp Hc Hw. unfold handleStageCompleted.
  apply wp_bind. apply (wp_deref _ r); [done|].
  apply wp_bind, (wp_get_graph g); [done|]. apply wp_bind. apply (wp_deref _ p); [done|].
  rewrite Her. apply wp_bind. eapply wp_mono; [by apply (wp_complete p x r g)|].
  intros success s1 Hat1. set (g1 := alter_stage (complete_stage r) p g) in *.
  assert (evolves g g1) as Hev1 by apply evolves_complete.
  assert (graph_wf g1) as Hwf1 by eauto with evolve.
  assert (gr_objects g1 !! p = Some (complete_stage r x)) as Hp1.
  { unfold g1. by rewrite lookup_alter_stage, decide_True, Hp. }
  assert (weight g1 < n) as Hw1.
  { pose proof (weight_complete r p g x Hp). fold g1 in H0. destruct (IsResolved x); simpl in *; lia. }
  assert (IsResolved (complete_stage r x) = true) as Hres.
  { unfold IsResolved. simpl. by rewrite complete_stage_result. }
  apply wp_bind, (wp_get_stage p (complete_stage r x) g1); [done..|].
  rewrite complete_stage_compose. apply wp_bind.
  apply (wp_mono _ (λ _, becomes g1 compose_closed)).
  - destruct (stage_composeReference x) as [o|] eqn:Ho.
    + eapply wp_tryCompleteComposedStage; eauto.
      * rewrite (evolves_length _ _ Hev1). apply (swf_compose _ _ (wf_stage _ Hwf _ _ Hp) _ Ho).
      * eapply closed_complete; eauto. congruence.
    + apply wp_ret, becomes_refl; [done|]. by eapply closed_complete_none.
  - intros [] s2 (g2 & Hat2 & Hev2 & Hc2). pose proof (evolves_weight _ _ Hev2).
    apply wp_bind. eapply wp_mono; [eapply (wp_triggerReadyStages g2); eauto with evolve lia|].
    intros [] s3 (g3 & Hat3 & Hev3 & Hn3 & Hc3 & _). pose proof (evolves_weight _ _ Hev3).
    apply wp_bind. eapply wp_mono; [eapply (wp_checkForExecutionFinished g3); eauto 6 with evolve lia|].
    intros [] s4 (g4 & Hat4 & Hev4 & Hs4). apply wp_ret. exists g4.
    assert (evolves g1 g4) as Hev14 by (by do 2 etrans).
    split_and!; [done|by etrans|done|].
    destruct (evolves_lookup _ _ _ _ Hev14 Hp1) as (y & Hy & Hevy). exists y. split; [done|].
    apply (sev_result _ _ _ Hevy). apply complete_stage_result.
Qed.

Lemma wp_handleCommitted g s :
  at_graph g s → graph_wf g → settled g → gr_state g = StateInitial → weight g < S n →
  wp (handleCommitted L) (λ _, becomes g (λ g', settled g' ∧ gr_state g' ≠ StateInitial)) s.
Proof.
  intros Hat Hwf [Hn _ Hc] Hst Hw. unfold handleCommitted.
  assert (evolves g (with_state StateCommitted g)) as Hev by by apply evolves_committed.
  apply wp_bind, (wp_modify_graph _ g); [done|done|]. clear s Hat. intros s Hat.
  eapply wp_mono; [apply (wp_checkForExecutionFinished (with_state StateCommitted g)); eauto with evolve|].
  - unfold weight in *. rewrite Hst in Hw. simpl in *. lia.
  - intros [] s' Hb. eapply becomes_trans; [exact Hev|exact Hb|]. intros g' Hev' Hs. split; [done|].
    intros Hi. pose proof (ev_rank _ _ Hev') as Hr. rewrite Hi in Hr. simpl in Hr. lia.
Qed.

Lemma wp_handleTerminating e g s :
  at_graph g s → graph_wf g → compose_closed g → gr_state g = StateCommitted →
  ¬ pending g MainExecPhase → weight g < S n →
  wp (handleTerminating L e true) (λ _, becomes g settled) s.
Proof.
  intros Hat Hwf Hc Hst Hp Hw. unfold handleTerminating.
  assert (evolves g (with_state StateTerminating g)) as Hev0 by by apply evolves_terminating.
  apply wp_bind, (wp_modify_graph _ g); [done|done|]. clear s Hat. intros s Hat.
  apply wp_bind, (wp_modify_graph _ (with_state StateTerminating g)); [done|by apply evolves_with_root|].
  clear s Hat. intros s Hat. set (g1 := with_terminationRoot _ _) in *.
  assert (evolves g g1) as Hev by (etrans; [exact Hev0|by apply evolves_with_root]).
  eapply wp_mono; [apply (wp_trigger_and_check g1); eauto with evolve|].
  - unfold g1, weight in *. rewrite Hst in Hw. simpl in *. lia.
  - intros [] s' Hb. by eapply becomes_trans.
Qed.

Lemma wp_handleCompleted g s :
  at_graph g s → compose_closed g → no_ready g → gr_state g = StateTerminating →
  ¬ pending g TerminationExecPhase →
  wp handleCompleted (λ _, becomes g settled) s.
Proof.
  intros Hat Hc Hn Hst Hp. apply (wp_modify_graph _ g); [done|by apply evolves_completed|]. intros s' Hat'.
  exists (with_state StateCompleted g). split_and!; [done|by apply evolves_completed|].
  split; [by eapply no_ready_ext|done|done].
Qed.

Lemma wp_handleStageComposed e p q g s :
  at_graph g s → graph_wf g → settled g →
  GetStage g (composed_StageId e) = Some p → GetStage g (composed_ComposedStageId e) = Some q →
  weight g < n →
  wp (handleStageComposed L e) (λ _, becomes g settled) s.
Proof.
  intros Hat Hwf Hs Hp Hq Hw. unfold handleStageComposed.
  apply wp_bind, (wp_get_graph g); [done|]. apply wp_bind. apply (wp_deref _ q); [done|]. rewrite Hp.
  destruct (wf_map _ Hwf _ _ Hp) as (o & Ho & _). destruct (wf_map _ Hwf _ _ Hq) as (i & Hi & _).
  assert (evolves g (alter_stage (set_composeReference (Some p)) q g)) as Hev.
  { apply evolves_set_compose. by eapply lookup_lt_Some. }
  apply wp_bind, (wp_modify_graph _ g); [done|done|]. clear s Hat. intros s Hat.
  set (g1 := alter_stage _ q g) in *.
  assert (graph_wf g1) as Hwf1 by eauto with evolve.
  destruct (evolves_lookup _ _ _ _ Hev Ho) as (o1 & Ho1 & _).
  assert (gr_objects g1 !! q = Some (set_composeReference (Some p) i)) as Hi1.
  { unfold g1. by rewrite lookup_alter_stage, decide_True, Hi. }
  unfold tryCompleteComposedStage.
  apply wp_bind, (wp_get_stage q (set_composeReference (Some p) i) g1); [done..|].
  destruct (IsResolved (set_composeReference (Some p) i)) eqn:Hri.
  - apply wp_bind, wp_ret, wp_bind, (wp_get_stage p o1 g1); [done..|].
    destruct (IsResolved o1) eqn:Hro; simpl.
    + apply wp_ret. exists g1. split_and!; [done..|]. apply settled_set_compose; [done|].
      intros _. unfold g1 in Ho1. rewrite lookup_alter_stage in Ho1.
      case_decide; [|by exists o1]. subst. rewrite Ho in Ho1. injection Ho1 as <-. by exists o.
    + unfold IsResolved in Hri. simpl in Hri |- *. destruct (stage_result i) as [r|]; [|done].
      pose proof (evolves_weight _ _ Hev).
      eapply wp_mono; [eapply (ls_complete _ _ HL p o1 r g1); eauto|].
      * apply closed_set_compose, Hs.
      * rewrite Hro. simpl. lia.
      * intros [] s' Hb. eapply becomes_trans; [exact Hev|exact Hb|]. by intros g' _ [? _].
  - apply wp_ret. exists g1. split_and!; [done..|]. apply settled_set_compose; [done|].
    intros (y & Hy & Hr). simplify_eq. unfold IsResolved in Hri, Hr. simpl in *. congruence.
Qed.

Lemma wp_OnCompleteStage_settled p x r g s :
  at_graph g s → graph_wf g → settled g → gr_objects g !! p = Some x → weight g + 1 < n →
  wp (OnCompleteStage L p (Some r)) (λ _, becomes g (λ g', settled g' ∧ resolved_at g' p)) s.
Proof.
  intros Hat Hwf Hs Hp Hw.
  eapply wp_mono; [eapply (ls_complete _ _ HL); eauto|].
  - by apply closed_weaken, Hs.
  - destruct (IsResolved x); simpl; lia.
  - intros [] s' Hb. eapply becomes_trans; [reflexivity|exact Hb|]. intros g' _ [? (y & Hy & Hr)].
    split; [done|]. exists y. split; [done|]. by apply stage_resolved; eexists.
Qed.

(** A response resolves its stage, unless it is composed of another one. *)
Lemma wp_handleInvokeComplete e r p x g s :
  at_graph g s → graph_wf g → settled g → invoked_Result e = Some r →
  GetStage g (invoked_StageId e) = Some p → gr_objects g !! p = Some x → parent_resolved g x →
  weight g + 1 < n →
  wp (handleInvokeComplete L e) (λ _, becomes g (λ g', settled g'
    ∧ (takes_result x → resolved_at g' p ∨ ∃ q, composes g x r q))) s.
Proof.
  intros Hat Hwf Hs Hr Hid Hp Hpar Hw. unfold handleInvokeComplete.
  apply wp_bind, (wp_get_graph g); [done|]. apply wp_bind. apply (wp_deref _ p); [done|]. rewrite Hr.
  unfold handleResult. apply wp_bind, (wp_get_stage p x g); [done..|].
  assert (∀ r', wp (OnCompleteStage L p (Some r')) (λ _, becomes g (λ g', settled g'
    ∧ (takes_result x → resolved_at g' p ∨ ∃ q, composes g x r q))) s) as Hcompl.
  { intros r'. eapply wp_mono; [by eapply wp_OnCompleteStage_settled|].
    intros [] s' Hb. eapply becomes_trans; [reflexivity|exact Hb|]. intros g' _ [? ?]. by auto. }
  destruct (strat_ResultHandling (stage_strategy x)) eqn:Hrh; cbn [run_result_handling].
  - apply Hcompl.
  - unfold referencedStageResult. apply wp_bind. apply (wp_deref _ r); [done|].
    destruct (Successful r) eqn:Hsuc; simpl; [|apply Hcompl].
    destruct (GetStageRef (result_Datum r)) as [ref|] eqn:Href; [|apply Hcompl].
    apply wp_bind, (wp_get_graph g); [done|].
    destruct (GetStage g (ref_StageId ref)) as [q|] eqn:Hq; [|apply Hcompl].
    destruct (wf_map _ Hwf _ _ Hq) as (y & Hy & _).
    eapply wp_mono; [eapply (ls_compose _ _ HL); eauto using lookup_lt_Some|].
    intros [] s' Hb. eapply becomes_trans; [reflexivity|exact Hb|]. intros g' _ Hs'. split; [done|].
    intros _. right. exists q. split_and!; [done..|]. by exists ref.
  - unfold parentStageResult. apply wp_bind, (wp_get_stage p x g); [done..|].
    destruct (parent_single g x (wf_stage _ Hwf _ _ Hp) Hrh) as [d Hd]. rewrite Hd.
    destruct (Hpar Hrh d) as [rp Hrp]; [rewrite Hd; by left|].
    destruct (load_dep g d) as [dep|] eqn:Hdep; [|done]. injection Hrp as Hrp.
    apply wp_bind, (wp_get_graph g); [done|]. apply wp_bind. apply (wp_deref _ dep); [done|].
    unfold IsResolved. change (@GetResult Dependency _ dep) with (match dep with DStage s => stage_result s | DRaw r => raw_result r end) in *.
    rewrite Hrp. apply Hcompl.
  - apply wp_ret, becomes_refl; [done|]. split; [done|]. by intros [].
Qed.

(** The graph after a stage has been added and whatever it made ready has run. *)
Lemma wp_handleStageAdded e strat ds g s :
  at_graph g s → graph_wf g → settled g → 2 ≤ rank (gr_state g) →
  (Z.of_nat (S (length (gr_objects g))) < 2 ^ 32)%Z →
  getStrategyFromOperation (added_Op e) = Some strat → added_Op e ≠ terminationHook →
  bad_arity strat (length (added_Dependencies e)) = false →
  GetStage g (added_StageId e) = None → mapM (GetStage g) (added_Dependencies e) = Some ds →
  weight g + 2 < n →
  wp (handleStageAdded L e true)
    (λ _ s', ∃ g1, graph_wf g1
       ∧ grows (new_stage (added_StageId e) (added_Op e) strat (added_Closure e) (StageRef <$> ds) [] MainExecPhase) g g1
       ∧ becomes g1 settled s') s.
Proof.
  intros Hat Hwf Hs Hrank Hsize Hst Hop Har Hid Hds Hw. unfold handleStageAdded. rewrite Hst, Har.
  apply wp_bind, (wp_get_graph g); [done|]. rewrite Hid, Hds.
  assert (Forall (λ d, d < length (gr_objects g)) ds) as Hlt.
  { apply mapM_Some in Hds. apply Forall_lookup. intros i d Hd.
    destruct (Forall2_lookup_r _ _ _ _ _ Hds Hd) as (id & _ & Hg).
    destruct (wf_map _ Hwf _ _ Hg) as (y & Hy & _). by eapply lookup_lt_Some. }
  assert (length ds = length (added_Dependencies e)) as Hlen.
  { apply mapM_Some, Forall2_length in Hds. done. }
  set (x := new_stage _ _ _ _ _ _ _) in *. pose proof (insert_stage_grows x ds g Hop Hlt) as Hgr.
  apply wp_bind, (wp_grow_graph x _ g); [done..|]. clear s Hat. intros s Hat.
  assert (graph_wf (insert_stage x ds g)) as Hwf1 by (apply insert_stage_wf; try done; congruence).
  set (g1 := insert_stage x ds g) in *.
  assert (weight g1 < n) as Hw1 by (rewrite (grows_weight _ _ _ Hgr); change (stage_weight x) with 2; lia).
  assert (compose_closed g1) as Hc1 by (eapply grows_closed; [exact Hgr|done|apply Hs]).
  eapply wp_mono; [by apply (wp_triggerReadyStages g1)|].
  intros [] s' (g2 & Hat2 & Hev2 & Hn2 & Hc2 & Hl2). exists g1. split_and!; [done..|].
  exists g2. split_and!; [done..|]. split; [done| |done]. apply Hl2.
  eapply grows_lifecycle; [exact Hgr|apply Hs].
Qed.

Lemma wp_handleAddTerminationHook e g s :
  at_graph g s → graph_wf g → settled g → 2 ≤ rank (gr_state g) →
  (Z.of_nat (S (length (gr_objects g))) < 2 ^ 32)%Z → GetStage g (added_StageId e) = None →
  wp (handleAddTerminationHook e)
    (λ _ s', ∃ x g', graph_wf g' ∧ settled g' ∧ at_graph g' s' ∧ stage_ID x = added_StageId e
       ∧ stage_operation x = terminationHook ∧ stage_closure x = added_Closure e
       ∧ stage_weight x = 2 ∧ grows x g g') s.
Proof.
  intros Hat Hwf Hs Hrank Hsize Hid. unfold handleAddTerminationHook. cbn [getStrategyFromOperation].
  set (strat := mk_strategy _ _ _ _ _ _ _ _) in *.
  destruct (insert_hook_grows (added_StageId e) (added_Closure e) strat g Hwf) as [ch Hgr].
  apply (wp_grow_graph (new_stage (added_StageId e) terminationHook strat (added_Closure e)
    [TerminationRootRef] ch TerminationExecPhase) _ g); [done..|]. intros s' Hat'.
  do 2 eexists. split_and!; [by apply insert_hook_wf|by apply insert_hook_settled|exact Hat'| | | | |exact Hgr]; done.
Qed.

(** [Recover] fails the first stage that looks lost, and leaves a settled
    graph whatever the others are. *)
Lemma wp_Recover g s :
  at_graph g s → graph_wf g → compose_closed g → weight g < n →
  wp (Recover L) (λ _, becomes g settled) s.
Proof.
  intros Hat Hwf Hc Hw. unfold Recover. apply wp_bind. eapply wp_mono.
  - apply (wp_range_stages _ (λ g', compose_closed g' ∧ weight g' < n) (λ _ _, True) g); [done..|].
    clear s Hat. intros p x g1 s Hat Hwf1 [Hc1 Hw1] Hp. apply wp_bind, (wp_get_stage p x g1); [done..|].
    destruct (IsResolved x) eqn:Hr; simpl; [by apply wp_ret, becomes_refl|].
    apply wp_bind. eapply wp_mono; [by apply (wp_requestTrigger p x g1)|]. intros [[[] status] rs] s1.
    + intros (Hat1 & _). set (g2 := alter_stage set_triggered p g1) in *.
      assert (evolves g1 g2) as Hev by apply evolves_set_triggered. pose proof (evolves_weight _ _ Hev).
      eapply wp_mono; [apply (ls_complete _ _ HL p (set_triggered x) _ g2); auto|].
      * eauto with evolve.
      * unfold g2. by rewrite lookup_alter_stage, decide_True, Hp.
      * by apply closed_weaken, closed_set_triggered.
      * change (IsResolved (set_triggered x)) with (IsResolved x). rewrite Hr. simpl. lia.
      * intros [] s2 Hb. eapply becomes_trans; [exact Hev|exact Hb|]. intros g3 Hev3 [Hset _].
        pose proof (evolves_weight _ _ Hev3). split_and!; [apply Hset|lia|done|done].
    + intros [Hat1 _]. by apply wp_ret, becomes_refl.
  - intros [] s1 (g1 & Hat1 & Hev1 & [Hc1 Hw1] & _).
    eapply wp_mono; [apply (wp_trigger_and_check g1); eauto with evolve|].
    intros [] s2 Hb. by eapply becomes_trans.
Qed.
End spec.
