(* ===== verification/GraphSafety.v ===== *)
(** * What no operation of the graph can undo

    [graph_le]: stages are never removed or renamed, a result once set never
    changes, a triggered stage stays triggered. Every handler keeps this
    relation between the state it starts in and the state it ends in, whether
    it returns or panics, from any state and for any listener that keeps it. *)

From S2P Require Import Prelude Model Stage StageFacts Graph GraphFacts.

Record stage_le (x y : CompletionStage) : Prop := {
  sl_ID : stage_ID y = stage_ID x;
  sl_operation : stage_operation y = stage_operation x;
  sl_strategy : stage_strategy y = stage_strategy x;
  sl_closure : stage_closure y = stage_closure x;
  sl_phase : stage_execPhase y = stage_execPhase x;
  sl_result r : stage_result x = Some r → stage_result y = Some r;
  sl_future r : future_result (stage_whenComplete x) = Some r →
    future_result (stage_whenComplete y) = Some r;
  sl_triggered : stage_triggered x = true → stage_triggered y = true;
}.

Definition graph_le (g g' : CompletionGraph) : Prop :=
  gr_ID g' = gr_ID g ∧ gr_FunctionID g' = gr_FunctionID g ∧
  ∀ p x, gr_objects g !! p = Some x → ∃ y, gr_objects g' !! p = Some y ∧ stage_le x y.

#[export] Instance stage_le_preorder : PreOrder stage_le.
Proof. split; [intros x; by split|]. intros x y z [] []. split; auto; congruence. Qed.
#[export] Instance graph_le_preorder : PreOrder graph_le.
Proof.
  split.
  - intros g. split_and!; [done..|]. intros p x Hx. by exists x.
  - intros g1 g2 g3 (? & ? & H12) (? & ? & H23). split_and!; [congruence..|]. intros p x Hx.
    destruct (H12 p x Hx) as (y & Hy & Hxy). destruct (H23 p y Hy) as (z & Hz & Hyz).
    exists z. split; [done|]. by etrans.
Qed.

(** ** The mutations *)

Lemma graph_le_same g g' :
  gr_ID g' = gr_ID g → gr_FunctionID g' = gr_FunctionID g → gr_objects g' = gr_objects g → graph_le g g'.
Proof. intros ?? Ho. split_and!; [done..|]. intros p x Hx. exists x. by rewrite Ho. Qed.
Lemma graph_le_alter f p g :
  (∀ x, gr_objects g !! p = Some x → stage_le x (f x)) → graph_le g (alter_stage f p g).
Proof.
  intros Hf. split_and!; [done..|]. intros q x Hx. rewrite lookup_alter_stage. case_decide; subst.
  - rewrite Hx. exists (f x). auto.
  - by exists x.
Qed.
Lemma graph_le_set_triggered p g : graph_le g (alter_stage set_triggered p g).
Proof. apply graph_le_alter. intros x _. by split. Qed.
Lemma graph_le_set_compose o p g : graph_le g (alter_stage (set_composeReference o) p g).
Proof. apply graph_le_alter. intros x _. by split. Qed.
Lemma graph_le_startTime e g : graph_le g (update_startTime e g).
Proof. destruct (update_startTime_eq e g) as [t ->]. by apply graph_le_same. Qed.
Lemma foldl_add_child_le p ds os :
  Forall2 stage_le os (foldl (λ os d, alter (add_child p) d os) os ds).
Proof.
  revert os. induction ds as [|d ds IH]; intros os; simpl; [reflexivity|].
  etrans; [|apply IH]. apply Forall2_alter_r; [apply _|]. intros x _. by split.
Qed.
Lemma graph_le_objects g g' os :
  gr_ID g' = gr_ID g → gr_FunctionID g' = gr_FunctionID g →
  (∃ tl, Forall2 stage_le (gr_objects g ++ tl) os) → gr_objects g' = os → graph_le g g'.
Proof.
  intros ?? [tl Hos] Ho. split_and!; [done..|]. intros p x Hx. rewrite Ho.
  eapply Forall2_lookup_l; [exact Hos|]. by apply lookup_app_l_Some.
Qed.
Lemma graph_le_insert_stage s ds g : graph_le g (insert_stage s ds g).
Proof.
  eapply graph_le_objects; [done|done| |reflexivity]. exists [s]. apply foldl_add_child_le.
Qed.
Lemma graph_le_insert_hook id c st g : graph_le g (insert_hook id c st g).
Proof.
  unfold insert_hook. destruct (gr_terminationChainHead g); simpl;
    (eapply graph_le_objects; [done|done| |reflexivity]); simpl; eexists [_]; [|reflexivity].
  apply Forall2_alter_r; [apply _|]. intros x _. by split.
Qed.

Section keeps.
Context {St : Type} `{!HasGraph St} `{!MapOrder}.
Context (R : St → St → Prop) `{!PreOrder R}.
Context (R_put : ∀ s g g', graph_of s = Some g → graph_le g g' → R s (put_graph g' s)).

Lemma keeps_get_graph : keeps R get_graph.
Proof. unfold get_graph. auto with flow. Qed.
Lemma keeps_get_stage p : keeps R (get_stage p).
Proof. unfold get_stage. auto using keeps_get_graph with flow. Qed.
Lemma keeps_modify_graph f : (∀ g, graph_le g (f g)) → keeps R (modify_graph f).
Proof.
  intros Hf s. unfold modify_graph, get_graph, get_state, modify, mbind, M_bind, deref, mret, M_ret.
  destruct (graph_of s) as [g|] eqn:Hg; simpl; [by eapply R_put|reflexivity].
Qed.

(** Walks through a computation, discharging each step from the hints. *)
Ltac walk :=
  repeat first
    [ progress auto using keeps_get_graph, keeps_get_stage, graph_le_same, graph_le_set_triggered,
        graph_le_set_compose, graph_le_startTime, graph_le_insert_stage, graph_le_insert_hook with flow
    | match goal with |- keeps _ (modify_graph _) => apply keeps_modify_graph; intros ? end
    | match goal with |- keeps _ (_ ≫= _) => apply keeps_bind; [apply _| |intros ?] end
    | match goal with |- keeps _ (match ?x with _ => _ end) => destruct x end ].

Lemma keeps_range_stages body : (∀ p, keeps R (body p)) → keeps R (range_stages body).
Proof. intros Hb. unfold range_stages. walk. apply keeps_for_each; [apply _|]. intros id. walk. Qed.

Lemma keeps_complete p r : keeps R (complete p r).
Proof.
  intros s. unfold complete, get_stage, modify_graph, get_graph, get_state, modify, mbind, M_bind, deref, mret, M_ret.
  destruct (graph_of s) as [g|] eqn:Hg; simpl; [|reflexivity].
  destruct (gr_objects g !! p) as [x|] eqn:Hx; simpl; [|reflexivity].
  rewrite Hg. simpl. rewrite graph_of_put. simpl.
  pose proof (R_put s g _ Hg (graph_le_set_triggered p g)) as H1.
  change (alter set_triggered p (gr_objects g)) with (gr_objects (alter_stage set_triggered p g)).
  destruct (gr_objects (alter_stage set_triggered p g) !! p) as [y|] eqn:Hy; simpl; [|done].
  destruct (stage_result y) eqn:Hr; simpl; [done|]. rewrite graph_of_put. simpl.
  etrans; [exact H1|]. eapply R_put; [apply graph_of_put|].
  apply graph_le_alter. intros z Hz. rewrite Hy in Hz. injection Hz as <-. split; simpl; auto.
  - intros r' Hr'. congruence.
  - intros r' Hr'. unfold future_Tell. rewrite Hr'. done.
Qed.

Lemma keeps_requestTrigger p : keeps R (requestTrigger p).
Proof. unfold requestTrigger. walk. Qed.

Context (L : CompletionEventListener St).
Context (HLe : ∀ p rs, keeps R (OnExecuteStage L p rs)) (HLc : ∀ p r, keeps R (OnCompleteStage L p r)).
Context (HLo : ∀ p q, keeps R (OnComposeStage L p q)).
Context (HLf : keeps R (OnGraphExecutionFinished L)) (HLg : keeps R (OnGraphComplete L)).

Lemma keeps_trigger p status rs : keeps R (trigger L p status rs).
Proof.
  unfold trigger. walk. destruct (if status then _ else _); unfold run_execution, succeedWithEmpty,
    invokeWithoutArgs, invokeWithResult, completeExternally, invokeWithResultOrError, propagateResult; walk.
Qed.
Lemma keeps_triggerReadyStages : keeps R (triggerReadyStages L).
Proof.
  apply keeps_range_stages. intros p. walk; auto using keeps_requestTrigger, keeps_trigger.
Qed.
Lemma keeps_checkForExecutionFinished : keeps R (checkForExecutionFinished L).
Proof. unfold checkForExecutionFinished. walk. Qed.
Lemma keeps_tryCompleteComposedStage o i : keeps R (tryCompleteComposedStage L o i).
Proof. unfold tryCompleteComposedStage. walk. Qed.

Lemma keeps_handleResult p r : keeps R (handleResult L p r).
Proof.
  unfold handleResult. walk. destruct (strat_ResultHandling _);
    unfold run_result_handling, invocationResult, referencedStageResult, parentStageResult, noResultStrategy; walk.
Qed.

Lemma keeps_handleStageCompleted e b : keeps R (handleStageCompleted L e b).
Proof.
  unfold handleStageCompleted. walk; auto using keeps_complete, keeps_tryCompleteComposedStage,
    keeps_triggerReadyStages, keeps_checkForExecutionFinished.
Qed.
Lemma keeps_handleTerminating e b : keeps R (handleTerminating L e b).
Proof.
  unfold handleTerminating. walk; auto using graph_le_same, keeps_triggerReadyStages, keeps_checkForExecutionFinished.
Qed.
Lemma keeps_handleStageAdded e b : keeps R (handleStageAdded L e b).
Proof. unfold handleStageAdded. walk; auto using keeps_triggerReadyStages. Qed.

Lemma keeps_UpdateWithEvent e b : keeps R (UpdateWithEvent L e b).
Proof.
  unfold UpdateWithEvent. walk. unfold dispatch_event.
  destruct e; unfold handleCommitted, handleCompleted, handleAddTerminationHook, handleInvokeComplete,
    handleStageComposed; walk; auto using graph_le_same, keeps_handleTerminating, keeps_handleStageAdded,
    keeps_handleStageCompleted, keeps_checkForExecutionFinished, keeps_handleResult, keeps_tryCompleteComposedStage.
Qed.

Lemma keeps_Recover : keeps R (Recover L).
Proof.
  unfold Recover. walk; auto using keeps_triggerReadyStages, keeps_checkForExecutionFinished.
  apply keeps_range_stages. intros p. walk. apply keeps_requestTrigger.
Qed.
End keeps.
