(* ===== verification/Persistence.v ===== *)
(** * Event journals (src/persistence)

    The [ProviderState] interface, the persistence mixin an actor embeds
    (plugin.go), the in-memory provider and the streaming decorator. The
    class [ReliableProvider] states what the actors rely on; the in-memory
    provider implements it, and the decorator preserves it. *)

From S2P Require Import Prelude Model.

(** ** persistence_provider.go *)

Definition ErrMarshalling : panic_value :=
  PanicError "Persistence provider failed with marshalling error".
Definition ErrPersistenceFailed : panic_value :=
  PanicError "Persistence provider failed to persist event".
Definition ErrReadingEvents : panic_value :=
  PanicError "Persistence provider failed to read events".
Definition ErrPersistingSnapshot : panic_value :=
  PanicError "Persistence provider failed to persist snapshot".

(** The provider contract. [GetEvents] returns the (index, event) pairs it
    passes to its callback, in order. *)
Class ProviderState (P : Type) := {
  GetSnapshotInterval : P → Z;
  GetSnapshot : string → M P (option (Event * Z));
  GetEvents : string → Z → M P (list (Z * Event));
  PersistEvent : string → Z → Event → M P unit;
  PersistSnapshot : string → Z → Event → M P unit;
}.

(** What an actor relies on: a persisted event is appended to the actor's own
    journal and to no other, and the interval is a positive constant. *)
Class ReliableProvider (P : Type) `{!ProviderState P} := {
  journal : string → P → list Event;
  PersistEvent_ok n i e p :
    wp (PersistEvent n i e) (λ _ p',
      journal n p' = journal n p ++ [e]
      ∧ (∀ n', n' ≠ n → journal n' p' = journal n' p)
      ∧ GetSnapshotInterval p' = GetSnapshotInterval p) p;
}.

(** ** plugin.go: the persistence mixin *)

Record Mixin := {
  mx_eventIndex : Z;
  mx_name : string;
  mx_recovering : bool;
  mx_snapshotRequested : bool;
}.

Record persistent (P : Type) := { pers_mixin : Mixin; pers_provider : P }.
Arguments pers_mixin {P}.
Arguments pers_provider {P}.
Arguments Build_persistent {P}.

Section Mixin.
Context {P : Type} `{!ProviderState P}.

Definition put_provider (p : P) (s : persistent P) : persistent P :=
  Build_persistent (pers_mixin s) p.
Definition on_provider {A} (m : M P A) : M (persistent P) A := zoom pers_provider put_provider m.
Definition with_mixin (f : Mixin → Mixin) : M (persistent P) unit :=
  modify (λ s, Build_persistent (f (pers_mixin s)) (pers_provider s)).

Definition Recovering (s : persistent P) : bool := mx_recovering (pers_mixin s).
Definition Name (s : persistent P) : string := mx_name (pers_mixin s).

Definition set_eventIndex (i : Z) (m : Mixin) : Mixin :=
  {| mx_eventIndex := i; mx_name := mx_name m; mx_recovering := mx_recovering m;
     mx_snapshotRequested := mx_snapshotRequested m |}.
Definition set_snapshotRequested (b : bool) (m : Mixin) : Mixin :=
  {| mx_eventIndex := mx_eventIndex m; mx_name := mx_name m;
     mx_recovering := mx_recovering m; mx_snapshotRequested := b |}.
Definition set_recovering (b : bool) (m : Mixin) : Mixin :=
  {| mx_eventIndex := mx_eventIndex m; mx_name := mx_name m;
     mx_recovering := b; mx_snapshotRequested := mx_snapshotRequested m |}.

Definition PersistReceive (message : Event) : M (persistent P) unit :=
  s ← get_state;
  on_provider (PersistEvent (Name s) (mx_eventIndex (pers_mixin s)) message);;
  with_mixin (λ m, set_eventIndex (mx_eventIndex m + 1)%Z m);;
  s ← get_state;
  r ← go_rem (mx_eventIndex (pers_mixin s)) (GetSnapshotInterval (pers_provider s));
  if (r =? 0)%Z then with_mixin (set_snapshotRequested true) else mret tt.

Definition PersistSnapshot_mixin (snapshot : Event) : M (persistent P) unit :=
  s ← get_state;
  on_provider (PersistSnapshot (Name s) (mx_eventIndex (pers_mixin s)) snapshot).

Definition isSnapshotRequested (s : persistent P) : bool := mx_snapshotRequested (pers_mixin s).
End Mixin.

(** [Mixin.init], over a state that embeds the mixin ([get]/[put]) and can
    receive a message; messages during recovery are events or snapshots. *)
Section init.
Context {P S : Type} `{!ProviderState P}.
Context (pget : S → persistent P) (pput : persistent P → S → S).
Context (receive_event : Event → M S unit) (receive_replay_complete : M S unit).

Definition on_mixin (f : Mixin → Mixin) : M S unit := zoom pget pput (with_mixin f).

Definition init (selfId : string) : M S unit :=
  on_mixin (λ _, {| mx_eventIndex := 0; mx_name := selfId; mx_recovering := true;
                    mx_snapshotRequested := false |});;
  snapshot ← zoom pget pput (on_provider (GetSnapshot selfId));
  match snapshot with
  | Some (snapshot, eventIndex) =>
      on_mixin (set_eventIndex eventIndex);; receive_event snapshot
  | None => mret tt
  end;;
  s ← get_state;
  events ← zoom pget pput (on_provider (GetEvents selfId (mx_eventIndex (pers_mixin (pget s)))));
  for_each events (λ '(index, e),
    receive_event e;;
    on_mixin (set_eventIndex (index + 1)%Z));;
  on_mixin (set_recovering false);;
  receive_replay_complete.
End init.

(** ** in_memory_provider.go *)

Module InMemory.
Record entry := {
  entry_eventIndex : Z;
  entry_snapshot : option Event;
  entry_events : list Event;
}.
Definition empty_entry : entry :=
  {| entry_eventIndex := 0; entry_snapshot := None; entry_events := [] |}.

Record InMemoryProvider := {
  snapshotInterval : Z;
  store : gmap string entry;
}.

Definition NewInMemoryProvider (interval : Z) : InMemoryProvider :=
  {| snapshotInterval := interval; store := ∅ |}.

Definition put_entry (actorName : string) (e : entry) (p : InMemoryProvider) : InMemoryProvider :=
  {| snapshotInterval := snapshotInterval p; store := <[actorName := e]> (store p) |}.

Definition loadOrInit (actorName : string) : M InMemoryProvider (entry * bool) :=
  p ← get_state;
  match store p !! actorName with
  | Some e => mret (e, true)
  | None => modify (put_entry actorName empty_entry);; mret (empty_entry, false)
  end.

Definition mem_GetSnapshot (actorName : string) : M InMemoryProvider (option (Event * Z)) :=
  '(e, loaded) ← loadOrInit actorName;
  mret (if (loaded : bool)
        then match entry_snapshot e with
             | Some snapshot => Some (snapshot, entry_eventIndex e)
             | None => None
             end
        else None).

Definition mem_PersistSnapshot (actorName : string) (eventIndex : Z) (snapshot : Event) : M InMemoryProvider unit :=
  '(e, _) ← loadOrInit actorName;
  modify (put_entry actorName {| entry_eventIndex := eventIndex; entry_snapshot := Some snapshot;
                                 entry_events := entry_events e |}).

(** The callback receives the position in the sub-slice. *)
Definition mem_GetEvents (actorName : string) (eventIndexStart : Z) : M InMemoryProvider (list (Z * Event)) :=
  '(e, _) ← loadOrInit actorName;
  if (Z.of_nat (length (entry_events e)) <=? eventIndexStart)%Z then mret []
  else if (eventIndexStart <? 0)%Z then panic SliceOutOfRange
  else mret (imap (λ idx ev, (Z.of_nat idx, ev)) (drop (Z.to_nat eventIndexStart) (entry_events e))).

Definition mem_PersistEvent (actorName : string) (eventIndex : Z) (event : Event) : M InMemoryProvider unit :=
  '(e, _) ← loadOrInit actorName;
  modify (put_entry actorName {| entry_eventIndex := entry_eventIndex e;
                                 entry_snapshot := entry_snapshot e;
                                 entry_events := entry_events e ++ [event] |}).
End InMemory.

#[export] Instance InMemoryProvider_state : ProviderState InMemory.InMemoryProvider := {|
  GetSnapshotInterval := InMemory.snapshotInterval;
  GetSnapshot := InMemory.mem_GetSnapshot;
  GetEvents := InMemory.mem_GetEvents;
  PersistEvent := InMemory.mem_PersistEvent;
  PersistSnapshot := InMemory.mem_PersistSnapshot;
|}.

(** ** streaming.go: the publishing decorator *)

Module Streaming.
Record StreamEvent := { ActorName : string; EventIndex : Z; StreamedEvent : Event }.

(** The decorated provider and everything published on its event stream. *)
Record streamingProviderState (P : Type) := { target : P; published : list StreamEvent }.
Arguments target {P}.
Arguments published {P}.
Arguments Build_streamingProviderState {P}.

Definition newStreamingProviderState {P} (t : P) : streamingProviderState P :=
  Build_streamingProviderState t [].

Section Streaming.
Context {P : Type} `{!ProviderState P}.
Definition on_target {A} (m : M P A) : M (streamingProviderState P) A :=
  zoom target (λ t s, Build_streamingProviderState t (published s)) m.
Definition Publish (e : StreamEvent) : M (streamingProviderState P) unit :=
  modify (λ s, Build_streamingProviderState (target s) (published s ++ [e])).

Definition stream_PersistEvent (actorName : string) (eventIndex : Z) (event : Event) : M (streamingProviderState P) unit :=
  on_target (PersistEvent actorName eventIndex event);;
  Publish {| ActorName := actorName; EventIndex := eventIndex; StreamedEvent := event |}.

(** [QueryActorJournal]: the events the callback [fn] receives. *)
Definition QueryActorJournal (persistenceName : string) (fromIndex : Z)
    (predicate : StreamEvent → bool) : M (streamingProviderState P) (list StreamEvent) :=
  events ← on_target (GetEvents persistenceName fromIndex);
  mret (filter (λ e, predicate e = true)
    ((λ '(idx, e), {| ActorName := persistenceName; EventIndex := idx; StreamedEvent := e |}) <$> events)).
End Streaming.
End Streaming.

#[export] Instance streaming_state {P} `{!ProviderState P} : ProviderState (Streaming.streamingProviderState P) := {|
  GetSnapshotInterval s := GetSnapshotInterval (Streaming.target s);
  GetSnapshot n := Streaming.on_target (GetSnapshot n);
  GetEvents n i := Streaming.on_target (GetEvents n i);
  PersistEvent := Streaming.stream_PersistEvent;
  PersistSnapshot n i e := Streaming.on_target (PersistSnapshot n i e);
|}.

(** ** The providers are reliable *)

Definition mem_journal (n : string) (p : InMemory.InMemoryProvider) : list Event :=
  match InMemory.store p !! n with Some e => InMemory.entry_events e | None => [] end.

#[export] Instance InMemory_reliable : ReliableProvider InMemory.InMemoryProvider.
Proof.
  refine {| journal := mem_journal |}.
  intros n i e p. cbn -[mem_journal]. unfold InMemory.mem_PersistEvent, InMemory.loadOrInit, mem_journal.
  apply wp_bind. apply wp_bind, wp_get.
  destruct (InMemory.store p !! n) as [en|] eqn:Hn.
  - apply wp_modify. cbn. split; [by rewrite lookup_insert_eq|split; [|done]].
    intros n' Hne. by rewrite lookup_insert_ne.
  - apply wp_bind, wp_modify. apply wp_ret, wp_modify. cbn.
    split; [by rewrite lookup_insert_eq|split; [|done]].
    intros n' Hne. by rewrite !lookup_insert_ne.
Defined.

#[export] Instance streaming_reliable {P} `{!ProviderState P} `{!ReliableProvider P} :
  ReliableProvider (Streaming.streamingProviderState P).
Proof.
  refine {| journal n s := journal n (Streaming.target s) |}.
  intros n i e p. cbn. unfold Streaming.stream_PersistEvent.
  apply wp_bind, wp_zoom. eapply wp_mono; [apply PersistEvent_ok|].
  intros [] t H. by apply wp_modify.
Defined.

Lemma imap_snd (l : list Event) : (imap (λ i e, (Z.of_nat i, e)) l).*2 = l.
Proof. apply list_eq. intros i. rewrite list_lookup_fmap, list_lookup_imap. by destruct (l !! i). Qed.

(** What recovery relies on: an actor that never persisted a snapshot and
    that numbered its events consecutively reads back the events of its
    journal, in order, numbered from 0. *)
Class RecoverableProvider (P : Type) `{!ProviderState P} `{!ReliableProvider P} := {
  replayable : string → P → Prop;
  PersistEvent_replayable n' n i e p :
    replayable n' p → (n = n' → i = Z.of_nat (length (journal n p))) →
    wp (PersistEvent n i e) (λ _ p', replayable n' p') p;
  GetSnapshot_none n p :
    replayable n p →
    wp (GetSnapshot n) (λ r p', r = None ∧ replayable n p' ∧ journal n p' = journal n p
                                ∧ GetSnapshotInterval p' = GetSnapshotInterval p) p;
  GetEvents_all n p :
    replayable n p →
    wp (GetEvents n 0) (λ r p', r = imap (λ i e, (Z.of_nat i, e)) (journal n p)
                                ∧ replayable n p' ∧ journal n p' = journal n p
                                ∧ GetSnapshotInterval p' = GetSnapshotInterval p) p;
}.

Definition mem_no_snapshot (n : string) (p : InMemory.InMemoryProvider) : Prop :=
  match InMemory.store p !! n with Some e => InMemory.entry_snapshot e = None | None => True end.

(** [loadOrInit] returns the entry of the actor, an empty one if there is
    none, which it then stores. *)
Lemma wp_loadOrInit n (p : InMemory.InMemoryProvider) (Q : InMemory.entry * bool → InMemory.InMemoryProvider → Prop) :
  (∀ e loaded p', e = default InMemory.empty_entry (InMemory.store p !! n) →
     (∀ n', default InMemory.empty_entry (InMemory.store p' !! n')
            = default InMemory.empty_entry (InMemory.store p !! n')) →
     InMemory.snapshotInterval p' = InMemory.snapshotInterval p →
     loaded = bool_decide (is_Some (InMemory.store p !! n)) → Q (e, loaded) p') →
  wp (InMemory.loadOrInit n) Q p.
Proof.
  intros HQ. unfold InMemory.loadOrInit. apply wp_bind, wp_get.
  destruct (InMemory.store p !! n) as [e|] eqn:Hn; [by apply wp_ret, HQ; rewrite ?bool_decide_true|].
  apply wp_bind, wp_modify, wp_ret, HQ; [done| |done|by rewrite bool_decide_false by (by intros [])]. intros n'. simpl.
  destruct (decide (n' = n)) as [->|Hne]; [by rewrite lookup_insert_eq, Hn|by rewrite lookup_insert_ne].
Qed.

Lemma mem_journal_default n p :
  mem_journal n p = InMemory.entry_events (default InMemory.empty_entry (InMemory.store p !! n)).
Proof. unfold mem_journal. by destruct (InMemory.store p !! n). Qed.

Lemma mem_no_snapshot_default n p :
  mem_no_snapshot n p ↔ InMemory.entry_snapshot (default InMemory.empty_entry (InMemory.store p !! n)) = None.
Proof. unfold mem_no_snapshot. by destruct (InMemory.store p !! n). Qed.

#[export] Instance InMemory_recoverable : RecoverableProvider InMemory.InMemoryProvider.
Proof.
  refine {| replayable := mem_no_snapshot |}.
  - intros n' n i e p Hs _. apply wp_bind, wp_loadOrInit. intros en l p' -> Hst _ _. apply wp_modify.
    rewrite mem_no_snapshot_default in *. simpl. destruct (decide (n' = n)) as [->|Hne].
    + by rewrite lookup_insert_eq.
    + by rewrite lookup_insert_ne, Hst.
  - intros n p Hs. apply wp_bind, wp_loadOrInit. intros en l p' -> Hst Hint _. apply wp_ret.
    rewrite mem_no_snapshot_default in *. change journal with mem_journal. rewrite !mem_journal_default, Hst.
    split_and!; [|done|done|done]. rewrite Hs. by destruct l.
  - intros n p Hs. apply wp_bind, wp_loadOrInit. intros en l p' -> Hst Hint _.
    rewrite mem_no_snapshot_default in *. change journal with mem_journal. rewrite !mem_journal_default.
    set (en := default _ _) in *. destruct (Z.leb_spec (Z.of_nat (length (InMemory.entry_events en))) 0).
    + apply wp_ret. rewrite mem_no_snapshot_default, mem_journal_default, !Hst. split_and!; [|done..].
      by destruct (InMemory.entry_events en).
    + apply wp_ret. rewrite mem_no_snapshot_default, mem_journal_default, !Hst. by rewrite drop_0.
Defined.

#[export] Instance streaming_recoverable {P} `{!ProviderState P} `{!ReliableProvider P} `{!RecoverableProvider P} :
  RecoverableProvider (Streaming.streamingProviderState P).
Proof.
  refine {| replayable n s := replayable n (Streaming.target s) |}.
  - intros n' n i e p Hs Hi. cbn. unfold Streaming.stream_PersistEvent. apply wp_bind, wp_zoom.
    eapply wp_mono; [by apply PersistEvent_replayable|]. intros [] t H. by apply wp_modify.
  - intros n p Hs. apply wp_zoom. exact (GetSnapshot_none _ _ Hs).
  - intros n p Hs. apply wp_zoom. exact (GetEvents_all _ _ Hs).
Defined.

(** Starting over a journal: a state that embeds the mixin receives the events
    of its journal in order, each followed by the update of the index, and then
    the end of the recovery. [I dn] holds after the events [dn]. *)
Section init_spec.
Context {P S : Type} `{!ProviderState P} `{!ReliableProvider P} `{!RecoverableProvider P}.
Context (pget : S → persistent P) (pput : persistent P → S → S).
Context (pget_put : ∀ q s, pget (pput q s) = q) (pput_put : ∀ q q' s, pput q (pput q' s) = pput q s).
Context (receive_event : Event → M S unit) (receive_replay_complete : M S unit) (selfId : string).

Lemma wp_init (I : list Event → S → Prop) (Q : unit → S → Prop) s :
  let p := pers_provider (pget s) in
  replayable selfId p →
  (∀ p', replayable selfId p' → journal selfId p' = journal selfId p →
     GetSnapshotInterval p' = GetSnapshotInterval p →
     I [] (pput (Build_persistent {| mx_eventIndex := 0; mx_name := selfId; mx_recovering := true;
                                     mx_snapshotRequested := false |} p') s)) →
  (∀ dn e rest s', journal selfId p = dn ++ e :: rest → I dn s' →
     wp (receive_event e;; on_mixin pget pput (set_eventIndex (Z.of_nat (length dn) + 1)%Z))
       (λ _, I (dn ++ [e])) s') →
  (∀ s', I (journal selfId p) s' → wp (on_mixin pget pput (set_recovering false);; receive_replay_complete) Q s') →
  wp (init pget pput receive_event receive_replay_complete selfId) Q s.
Proof.
  intros p Hre HI Hstep Hdone. unfold init. apply wp_bind, wp_zoom, wp_modify.
  apply wp_bind, wp_zoom, wp_zoom. rewrite !pget_put. simpl. eapply wp_mono; [by apply GetSnapshot_none|].
  intros ? p1 (-> & Hre1 & Hj1 & Hi1). apply wp_bind, wp_ret, wp_bind, wp_get. simpl in Hj1, Hi1. fold p in Hj1, Hi1.
  unfold put_provider. rewrite pput_put. apply wp_bind, wp_zoom, wp_zoom. rewrite pget_put. simpl.
  eapply wp_mono; [by apply GetEvents_all|]. intros ? p2 (-> & Hre2 & Hj2 & Hi2). simpl in Hj2, Hi2. simpl.
  rewrite pput_put. apply wp_bind. rewrite Hj1. set (evs := imap _ _).
  assert (evs.*2 = journal selfId p) as Hevs by (unfold evs; by rewrite imap_snd).
  eapply wp_mono; [apply (wp_for_each (λ dn s', I dn.*2 s'))|].
  - apply HI; [done|congruence|congruence].
  - intros dn [index e] rest s' Heq Hs'. rewrite fmap_app. simpl fmap.
    assert (index = Z.of_nat (length dn)) as ->.
    { assert (evs !! length dn = Some (index, e)) as Hl by (rewrite Heq; by apply list_lookup_middle).
      unfold evs in Hl. rewrite list_lookup_imap in Hl. destruct (journal selfId p !! length dn); naive_solver. }
    rewrite <- (length_fmap snd dn). eapply Hstep; [|done]. rewrite <- Hevs, Heq, fmap_app. done.
  - intros [] s' Hs'. rewrite Hevs in Hs'. by apply Hdone.
Qed.
End init_spec.
