(* ===== verification/MemoryRace.v ===== *)
(** * The in-memory provider and its goroutines (src/persistence/in_memory_provider.go)

    Actors write to the provider and streams read from it, each in its own
    goroutine. [loadOrInit] looks an actor up under a read lock and creates its
    entry under a write lock that it takes afterwards; the operation then works
    on the entry without a lock. Here the steps of all goroutines interleave,
    down to each read and each write of a field of an entry; a read or write of
    one field is one step. An actor is one goroutine, so it does its own
    operations one at a time; streams only read events. An actor whose entry is
    in place is served as if the operations ran one after the other, and never
    loses an event. While the entry is being created it can: two goroutines that
    both miss it both create one. *)

From S2P Require Import Prelude Model Persistence.
Import InMemory.

Inductive operation :=
  | OpGetSnapshot
  | OpPersistSnapshot (eventIndex : Z) (snapshot : Event)
  | OpGetEvents (eventIndexStart : Z)
  | OpPersistEvent (eventIndex : Z) (event : Event).

Inductive answer :=
  | ASnapshot (r : option (Event * Z))
  | AEvents (events : list (Z * Event))
  | ADone
  | APanic.

(** Where a goroutine is: before the lookup, between the two locks, with a
    pointer to an entry and about to work on it, in the middle of that, or
    back. *)
Inductive position :=
  | Loading
  | Missing
  | Holding (p : nat) (loaded : bool)
  | SnapshotSeen (p : nat)                        (** [entry.snapshot] is not nil *)
  | SnapshotRead (p : nat) (s : option Event)     (** and has been read *)
  | IndexWritten (p : nat)                        (** [entry.eventIndex = eventIndex] is done *)
  | LengthRead (p : nat)                          (** [eventIndexStart < len(entry.events)] *)
  | Appending (p : nat) (old : list Event)        (** [entry.events] has been read for [append] *)
  | Returned.

Definition pointer (pos : position) : option nat :=
  match pos with
  | Holding p _ | SnapshotSeen p | SnapshotRead p _ | IndexWritten p | LengthRead p | Appending p _ => Some p
  | Loading | Missing | Returned => None
  end.

(** The next access of an operation to its entry: what becomes of the entry, and
    where the goroutine is then or what it returns. *)
Definition access (op : operation) (pos : position) (e : entry) : entry * (position + answer) :=
  match op, pos with
  | OpGetSnapshot, Holding p loaded =>
      (e, if loaded then match entry_snapshot e with None => inr (ASnapshot None) | Some _ => inl (SnapshotSeen p) end
          else inr (ASnapshot None))
  | OpGetSnapshot, SnapshotSeen p => (e, inl (SnapshotRead p (entry_snapshot e)))
  | OpGetSnapshot, SnapshotRead p s => (e, inr (ASnapshot ((λ s, (s, entry_eventIndex e)) <$> s)))
  | OpPersistSnapshot i s, Holding p _ =>
      ({| entry_eventIndex := i; entry_snapshot := entry_snapshot e; entry_events := entry_events e |}, inl (IndexWritten p))
  | OpPersistSnapshot i s, IndexWritten p =>
      ({| entry_eventIndex := entry_eventIndex e; entry_snapshot := Some s; entry_events := entry_events e |}, inr ADone)
  | OpGetEvents start, Holding p _ =>
      (e, if (Z.of_nat (length (entry_events e)) <=? start)%Z then inr (AEvents []) else inl (LengthRead p))
  | OpGetEvents start, LengthRead p =>
      (e, inr (if (start <? 0)%Z || (Z.of_nat (length (entry_events e)) <? start)%Z then APanic
               else AEvents (imap (λ idx ev, (Z.of_nat idx, ev)) (drop (Z.to_nat start) (entry_events e)))))
  | OpPersistEvent _ ev, Holding p _ => (e, inl (Appending p (entry_events e)))
  | OpPersistEvent _ ev, Appending p old =>
      ({| entry_eventIndex := entry_eventIndex e; entry_snapshot := entry_snapshot e; entry_events := old ++ [ev] |}, inr ADone)
  | _, _ => (e, inl pos)
  end.

Record goroutine := { g_actor : string; g_op : operation; g_at : position }.
Definition at_position (pos : position) (g : goroutine) : goroutine :=
  {| g_actor := g_actor g; g_op := g_op g; g_at := pos |}.

(** An operation that only the actor itself performs. *)
Definition own (op : operation) : bool := match op with OpGetEvents _ => false | _ => true end.
Definition busy (n : string) (g : goroutine) : Prop := g_actor g = n ∧ own (g_op g) = true ∧ g_at g ≠ Returned.

(** The entries are objects; [table] is the map of pointers to them. [served]
    lists the operations done, in the order of their last accesses. *)
Record memory := {
  heap : list entry;
  table : gmap string nat;
  goroutines : list goroutine;
  served : list (string * operation * answer);
}.
Definition with_goroutine (i : nat) (pos : position) (m : memory) : memory :=
  {| heap := heap m; table := table m; goroutines := alter (at_position pos) i (goroutines m); served := served m |}.

(** The state after the access of the goroutine [i] to the entry at [p]. *)
Definition accessed (i : nat) (g : goroutine) (p : nat) (e : entry) (m : memory) : memory :=
  let '(e', r) := access (g_op g) (g_at g) e in
  with_goroutine i (match r with inl pos => pos | inr _ => Returned end)
    {| heap := <[p := e']> (heap m); table := table m; goroutines := goroutines m;
       served := served m ++ match r with inl _ => [] | inr a => [(g_actor g, g_op g, a)] end |}.

Inductive mem_step : memory → memory → Prop :=
  | step_call m n op : (own op = true → ∀ i g, goroutines m !! i = Some g → ¬ busy n g) →
      mem_step m {| heap := heap m; table := table m; served := served m;
                    goroutines := goroutines m ++ [{| g_actor := n; g_op := op; g_at := Loading |}] |}
  | step_found m i g p : goroutines m !! i = Some g → g_at g = Loading → table m !! g_actor g = Some p →
      mem_step m (with_goroutine i (Holding p true) m)
  | step_missed m i g : goroutines m !! i = Some g → g_at g = Loading → table m !! g_actor g = None →
      mem_step m (with_goroutine i Missing m)
  | step_init m i g : goroutines m !! i = Some g → g_at g = Missing →
      mem_step m (with_goroutine i (Holding (length (heap m)) false)
        {| heap := heap m ++ [empty_entry]; table := <[g_actor g := length (heap m)]> (table m);
           goroutines := goroutines m; served := served m |})
  | step_access m i g p e : goroutines m !! i = Some g → pointer (g_at g) = Some p → heap m !! p = Some e →
      mem_step m (accessed i g p e m).

(** ** The same operations, one after the other *)

Definition run_op (n : string) (op : operation) (p : InMemoryProvider) : answer * InMemoryProvider :=
  match op with
  | OpGetSnapshot => match mem_GetSnapshot n p with Ret r p' => (ASnapshot r, p') | Panic _ p' => (APanic, p') | _ => (APanic, p) end
  | OpPersistSnapshot i s => match mem_PersistSnapshot n i s p with Ret _ p' => (ADone, p') | Panic _ p' => (APanic, p') | _ => (APanic, p) end
  | OpGetEvents start => match mem_GetEvents n start p with Ret l p' => (AEvents l, p') | Panic _ p' => (APanic, p') | _ => (APanic, p) end
  | OpPersistEvent i ev => match mem_PersistEvent n i ev p with Ret _ p' => (ADone, p') | Panic _ p' => (APanic, p') | _ => (APanic, p) end
  end.

(** The operations of one actor run in order from [p] give these answers. *)
Fixpoint answers_as (n : string) (l : list (operation * answer)) (p p' : InMemoryProvider) : Prop :=
  match l with
  | [] => p' = p
  | (op, a) :: l => (run_op n op p).1 = a ∧ answers_as n l (run_op n op p).2 p'
  end.

Definition of_actor (n : string) (l : list (string * operation * answer)) : list (operation * answer) :=
  omap (λ '(n', op, a), if decide (n' = n) then Some (op, a) else None) l.

(** What an operation does to an entry that is there, all at once. *)
Definition act (op : operation) (e : entry) : entry * answer :=
  match op with
  | OpGetSnapshot => (e, ASnapshot ((λ s, (s, entry_eventIndex e)) <$> entry_snapshot e))
  | OpPersistSnapshot i s => ({| entry_eventIndex := i; entry_snapshot := Some s; entry_events := entry_events e |}, ADone)
  | OpGetEvents start =>
      (e, if (Z.of_nat (length (entry_events e)) <=? start)%Z then AEvents []
          else if (start <? 0)%Z then APanic
          else AEvents (imap (λ idx ev, (Z.of_nat idx, ev)) (drop (Z.to_nat start) (entry_events e))))
  | OpPersistEvent _ ev =>
      ({| entry_eventIndex := entry_eventIndex e; entry_snapshot := entry_snapshot e;
          entry_events := entry_events e ++ [ev] |}, ADone)
  end.

Lemma run_op_act n op p e :
  store p !! n = Some e →
  (run_op n op p).1 = (act op e).2 ∧ store (run_op n op p).2 !! n = Some (act op e).1.
Proof.
  intros He. destruct op; simpl; unfold mem_GetSnapshot, mem_PersistSnapshot, mem_GetEvents, mem_PersistEvent, loadOrInit,
    get_state, modify, mbind, M_bind, mret, M_ret, panic; simpl; rewrite He; simpl.
  - by destruct (entry_snapshot e).
  - by rewrite lookup_insert_eq.
  - destruct (Z.leb _ _); [by split|]. destruct (Z.ltb _ _); by split.
  - by rewrite lookup_insert_eq.
Qed.

(** ** Pointers *)

(** Pointers are shared by goroutines of one actor only. *)
Definition points_to (m : memory) (n : string) (p : nat) : Prop :=
  table m !! n = Some p ∨ ∃ i g, goroutines m !! i = Some g ∧ g_actor g = n ∧ pointer (g_at g) = Some p.

Record separate (m : memory) : Prop := {
  sep_bound n p : points_to m n p → p < length (heap m);
  sep_owner n n' p : points_to m n p → points_to m n' p → n' = n;
}.

Lemma goroutine_moved m i g pos j h :
  goroutines m !! i = Some g → goroutines (with_goroutine i pos m) !! j = Some h →
  (j ≠ i ∧ goroutines m !! j = Some h) ∨ (j = i ∧ h = at_position pos g).
Proof.
  intros Hi Hj. simpl in Hj. destruct (decide (j = i)) as [->|Hne].
  - rewrite list_lookup_alter_eq, Hi in Hj. injection Hj as <-. by right.
  - rewrite list_lookup_alter_ne in Hj by done. by left.
Qed.

Lemma points_to_moved m i g pos n p :
  goroutines m !! i = Some g → points_to (with_goroutine i pos m) n p →
  points_to m n p ∨ g_actor g = n ∧ pointer pos = Some p.
Proof.
  intros Hi [Ht|(j & h & Hj & Hn & Hh)]; [by left; left|].
  destruct (goroutine_moved _ _ _ _ _ _ Hi Hj) as [[_ Hj']|[-> ->]]; [left; right; by eauto 10|]. by right.
Qed.

Lemma separate_sub m m' :
  separate m → (∀ n p, points_to m' n p → points_to m n p) → length (heap m) ≤ length (heap m') → separate m'.
Proof.
  intros Hsep Hsub Hlen. split; [intros n p Hp%Hsub%(sep_bound _ Hsep); lia|].
  intros n n' p H1%Hsub H2%Hsub. by eapply (sep_owner _ Hsep).
Qed.

(** An access does not change what a goroutine points to. *)
Lemma access_pointer op pos e p :
  pointer pos = Some p → match (access op pos e).2 with inl pos' => pointer pos' = Some p | inr _ => True end.
Proof.
  destruct op, pos; intros [= ->]; simpl; try done.
  - by destruct loaded, (entry_snapshot e).
  - by destruct (_ <=? _)%Z.
Qed.

Lemma separate_step m m' : separate m → mem_step m m' → separate m'.
Proof.
  intros Hsep Hst. destruct Hst as [m n op _|m i g p Hi Hl Ht|m i g Hi Hl Ht|m i g Hi Hl|m i g p e Hi Hl He].
  - apply (separate_sub m); [done| |done]. intros n' q [Hq|(j & h & Hj & Hn & Hh)]; [by left|]. simpl in Hj.
    apply lookup_snoc_Some in Hj as [[_ Hj]|[_ <-]]; [right; by eauto 10|done].
  - apply (separate_sub m); [done| |done].
    intros n q [Hq|[<- [= <-]]]%(points_to_moved _ _ g); [done|by left|done].
  - apply (separate_sub m); [done| |done]. by intros n q [Hq|[_ Hq]]%(points_to_moved _ _ g).
  - set (m1 := {| heap := heap m ++ [empty_entry]; table := _; goroutines := _; served := _ |}).
    assert (∀ n q, points_to (with_goroutine i (Holding (length (heap m)) false) m1) n q →
      points_to m n q ∨ n = g_actor g ∧ q = length (heap m)) as Hsub.
    { intros n q Hq. apply (points_to_moved m1 i g) in Hq as [Hq|[<- [= <-]]]; [|by right|done].
      destruct Hq as [Hq|Hq]; [|by left; right]. simpl in Hq.
      destruct (decide (n = g_actor g)) as [->|Hne].
      - rewrite lookup_insert_eq in Hq. injection Hq as <-. by right.
      - rewrite lookup_insert_ne in Hq by done. by left; left. }
    split.
    + intros n q [Hq%(sep_bound _ Hsep)|[_ ->]]%Hsub; simpl; rewrite length_app; simpl; lia.
    + intros n1 n2 q [H1|[-> ->]]%Hsub [H2|[-> H2]]%Hsub; [by eapply (sep_owner _ Hsep)|..|done].
      * subst. apply (sep_bound _ Hsep) in H1. lia.
      * apply (sep_bound _ Hsep) in H2. lia.
  - unfold accessed. pose proof (access_pointer (g_op g) (g_at g) e p Hl) as Hp. destruct (access _ _ _) as [e' r].
    apply (separate_sub m); [done| |simpl; by rewrite length_insert].
    intros n q Hq. apply points_to_moved with (g := g) in Hq; [|done]. destruct Hq as [Hq|[<- Hq]]; [done|].
    destruct r as [pos|]; [|done]. simpl in Hp. rewrite Hp in Hq. injection Hq as <-. right. by exists i, g.
Qed.

(** ** An actor whose entry is in place *)

(** What a goroutine of the actor may rely on when the entry is [e], at [p]. *)
Definition position_ok (p : nat) (e : entry) (g : goroutine) : Prop :=
  match g_at g with
  | Loading | Returned => True
  | Missing => False
  | Holding q loaded => q = p ∧ (loaded = false → g_op g = OpGetSnapshot → entry_snapshot e = None)
  | SnapshotSeen q => q = p ∧ g_op g = OpGetSnapshot ∧ is_Some (entry_snapshot e)
  | SnapshotRead q s => q = p ∧ g_op g = OpGetSnapshot ∧ s = entry_snapshot e
  | IndexWritten q => q = p ∧ ∃ i s, g_op g = OpPersistSnapshot i s ∧ entry_eventIndex e = i
  | LengthRead q => q = p ∧ ∃ start, g_op g = OpGetEvents start ∧ (start < Z.of_nat (length (entry_events e)))%Z
  | Appending q old => q = p ∧ old = entry_events e ∧ ∃ i ev, g_op g = OpPersistEvent i ev
  end.

(** Nobody is about to create an entry of the actor, or works on another one,
    and the actor does one thing at a time. *)
Record in_place (n : string) (m : memory) : Prop := {
  ip_separate : separate m;
  ip_entry : ∃ p e, table m !! n = Some p ∧ heap m !! p = Some e
    ∧ ∀ i g, goroutines m !! i = Some g → g_actor g = n → position_ok p e g;
  ip_single i j g h : goroutines m !! i = Some g → goroutines m !! j = Some h → busy n g → busy n h → i = j;
}.

(** A snapshot of the actor is half written. *)
Definition half_written (n : string) (m : memory) : Prop :=
  ∃ i g p, goroutines m !! i = Some g ∧ g_actor g = n ∧ g_at g = IndexWritten p.
(** The entry that the actor and the streams take its entry for. *)
Definition shows (n : string) (m : memory) (e : entry) : Prop :=
  ∃ p c, table m !! n = Some p ∧ heap m !! p = Some c ∧ entry_events c = entry_events e
    ∧ entry_snapshot c = entry_snapshot e ∧ (entry_eventIndex c = entry_eventIndex e ∨ half_written n m).

(** The events an actor has persisted, in order. *)
Definition persisted (l : list (operation * answer)) : list Event :=
  omap (λ '(op, _), match op with OpPersistEvent _ ev => Some ev | _ => None end) l.

(** From [m], where the entry is taken for [e], to [m'] the actor [n] has been
    served as by the sequential provider. *)
Definition serves (n : string) (e : entry) (m m' : memory) : Prop :=
  ∃ l e', served m' = served m ++ l ∧ shows n m' e'
    ∧ entry_events e' = entry_events e ++ persisted (of_actor n l)
    ∧ ∀ p, store p !! n = Some e → ∃ p', answers_as n (of_actor n l) p p' ∧ store p' !! n = Some e'.

Lemma answers_app n l l' p p1 p2 : answers_as n l p p1 → answers_as n l' p1 p2 → answers_as n (l ++ l') p p2.
Proof.
  revert p. induction l as [|[op a] l IH]; intros p; simpl; [by intros ->|]. intros [Ha Hl] Hl'. auto.
Qed.
Lemma serves_same n e m m' : served m' = served m → shows n m' e → serves n e m m'.
Proof. intros Hs He. exists [], e. rewrite !app_nil_r. split_and!; try done. intros p Hp. by exists p. Qed.

(** A goroutine that may be at [pos] moves there; the others stay. *)
Lemma in_place_moved n m i g pos :
  in_place n m → goroutines m !! i = Some g → g_at g ≠ Returned → separate (with_goroutine i pos m) →
  (g_actor g = n → ∀ p e, table m !! n = Some p → heap m !! p = Some e → position_ok p e (at_position pos g)) →
  in_place n (with_goroutine i pos m).
Proof.
  intros [_ (p & e & Ht & He & Hpos) Hone] Hi Hrun Hsep Hok. split; [done| |].
  - exists p, e. split_and!; [done..|]. intros j h Hj Hn.
    destruct (goroutine_moved _ _ _ _ _ _ Hi Hj) as [[_ Hj']|[-> ->]]; [by eapply Hpos|by apply Hok].
  - assert (∀ j h, goroutines (with_goroutine i pos m) !! j = Some h → busy n h →
      ∃ h', goroutines m !! j = Some h' ∧ busy n h') as Hback.
    { intros j h Hj Hb. destruct (goroutine_moved _ _ _ _ _ _ Hi Hj) as [[_ Hj']|[-> ->]]; [by eauto|].
      exists g. split; [done|]. destruct Hb as (? & ? & _). done. }
    intros j k h h' Hj Hk Hb Hb'. destruct (Hback j h Hj Hb) as (? & ? & ?), (Hback k h' Hk Hb') as (? & ? & ?).
    by eapply Hone.
Qed.

Lemma half_moved n m i g pos :
  goroutines m !! i = Some g → (∀ p, g_actor g = n → g_at g ≠ IndexWritten p) →
  half_written n m → half_written n (with_goroutine i pos m).
Proof.
  intros Hi Hno (j & h & p & Hj & Hn & Hh). exists j, h, p. split_and!; [|done..]. simpl.
  rewrite list_lookup_alter_ne; [done|]. intros <-. simplify_eq. by eapply Hno.
Qed.
Lemma shows_moved n m i g pos e :
  goroutines m !! i = Some g → (∀ p, g_actor g = n → g_at g ≠ IndexWritten p) →
  shows n m e → shows n (with_goroutine i pos m) e.
Proof.
  intros Hi Hno (p & c & Ht & Hc & He & Hs & Hx). exists p, c. split_and!; try done.
  destruct Hx as [Hx|Hx]; [by left|right]. by eapply half_moved.
Qed.

(** One access of an operation to the entry [c] that is taken for [e]: the
    operation is in its middle and nobody notices, or it is done and has done to
    [e] what it does at once. *)
Lemma access_ok p c e g c' r :
  position_ok p c g → is_Some (pointer (g_at g)) → access (g_op g) (g_at g) c = (c', r) →
  entry_events c = entry_events e → entry_snapshot c = entry_snapshot e →
  (own (g_op g) = true → g_at g ≠ IndexWritten p → entry_eventIndex c = entry_eventIndex e) →
  match r with
  | inl pos => position_ok p c' (at_position pos g) ∧ entry_events c' = entry_events e
      ∧ entry_snapshot c' = entry_snapshot e ∧ (pos = IndexWritten p ∨ entry_eventIndex c' = entry_eventIndex c)
      ∧ (∀ q, g_at g ≠ IndexWritten q)
  | inr a => a = (act (g_op g) e).2 ∧ entry_events c' = entry_events (act (g_op g) e).1
      ∧ entry_snapshot c' = entry_snapshot (act (g_op g) e).1
      ∧ (own (g_op g) = true → entry_eventIndex c' = entry_eventIndex (act (g_op g) e).1)
  end ∧ length (entry_events c) ≤ length (entry_events c')
  ∧ (own (g_op g) = false → c' = c ∧ (act (g_op g) e).1 = e ∧ ∀ q, g_at g ≠ IndexWritten q).
Proof.
  destruct g as [n op pos]. unfold position_ok. simpl. intros Hpos [q Hq] Hacc He Hs Hx.
  destruct op as [|i s|start|i ev], pos as [| |q' loaded|q'|q' s'|q'|q'|q' old|]; simpl in *; try done;
    injection Hacc as <- <-; injection Hq as ->; try (destruct Hpos as [-> Hpos]); try naive_solver.
  - specialize (Hx eq_refl). destruct loaded.
    + rewrite Hs. destruct (entry_snapshot e) eqn:Hse; simpl; split_and!; try done; auto; rewrite ?Hs; eauto.
    + specialize (Hpos eq_refl eq_refl). rewrite <- Hs, Hpos. simpl. split_and!; auto.
  - destruct Hpos as [_ ->]. rewrite Hx, Hs by done. simpl. auto.
  - rewrite <- He. destruct (Z.leb_spec (Z.of_nat (length (entry_events c))) start); split_and!; try done; eauto.
  - destruct Hpos as (start' & [= <-] & Hlt). rewrite <- He.
    destruct (Z.leb_spec (Z.of_nat (length (entry_events c))) start); [lia|].
    destruct (Z.ltb_spec (Z.of_nat (length (entry_events c))) start); [lia|]. rewrite orb_false_r. by destruct (start <? 0)%Z.
  - destruct Hpos as (-> & _). rewrite <- He. simpl. rewrite length_app. split_and!; try done; [by auto|lia].
Qed.

(** An access of one goroutine leaves the others what they rely on. *)
Lemma position_ok_other p c c' h :
  position_ok p c h → (own (g_op h) = true → g_at h = Returned ∨ c' = c) →
  length (entry_events c) ≤ length (entry_events c') → position_ok p c' h.
Proof.
  intros Hpos Hown Hlen. destruct (own (g_op h)) eqn:Ho.
  { destruct (Hown eq_refl) as [Hr| ->]; [|done]. unfold position_ok. by rewrite Hr. }
  unfold position_ok in *. destruct (g_at h) as [| |q loaded|q|q s|q|q|q old|] eqn:Hat; try done; destruct Hpos as [-> Hpos].
  - split; [done|]. intros _ Hop. by rewrite Hop in Ho.
  - destruct Hpos as [Hop _]. by rewrite Hop in Ho.
  - destruct Hpos as [Hop _]. by rewrite Hop in Ho.
  - destruct Hpos as (i & s & Hop & _). by rewrite Hop in Ho.
  - destruct Hpos as (start & Hop & Hs). split; [done|]. exists start. split; [done|lia].
  - destruct Hpos as (_ & i & ev & Hop). by rewrite Hop in Ho.
Qed.

Lemma in_place_access n m i g p e :
  in_place n m → goroutines m !! i = Some g → pointer (g_at g) = Some p → heap m !! p = Some e →
  separate (accessed i g p e m) →
  in_place n (accessed i g p e m) ∧ ∀ a, shows n m a → serves n a m (accessed i g p e m).
Proof.
  intros Hin Hi Hptr He Hsep. assert (g_at g ≠ Returned) as Hrun by (intros Hr; by rewrite Hr in Hptr).
  destruct (Hin) as [Hsep0 (q & c & Ht & Hc & Hpos) Hone].
  unfold accessed in *. destruct (access (g_op g) (g_at g) e) as [e' r] eqn:Hacc.
  set (m1 := {| heap := <[p:=e']> (heap m); table := table m; goroutines := goroutines m; served := _ |}) in *.
  set (pos := match r with inl pos => pos | inr _ => Returned end) in *.
  destruct (decide (g_actor g = n)) as [Hn|Hn].
  - assert (p = q) as ->.
    { pose proof (Hpos i g Hi Hn) as Hg. unfold position_ok in Hg. destruct (g_at g); naive_solver. }
    assert (c = e) as -> by congruence.
    assert (heap m1 !! q = Some e') as Hq by (apply list_lookup_insert_eq; by eapply lookup_lt_Some).
    assert (∀ a, entry_events e = entry_events a → entry_snapshot e = entry_snapshot a →
      (own (g_op g) = true → g_at g ≠ IndexWritten q → entry_eventIndex e = entry_eventIndex a) → _) as Hstep
      by exact (λ a, access_ok q e a g e' r (Hpos i g Hi Hn) (mk_is_Some _ _ Hptr) Hacc).
    split.
    + destruct (Hstep e eq_refl eq_refl (λ _ _, eq_refl)) as (Hr & Hlen & Hown). split; [done| |].
      * exists q, e'. split_and!; [done|done|]. intros j h Hj Hnh.
        destruct (goroutine_moved m1 i g pos j h Hi Hj) as [[Hne Hj']|[-> ->]].
        -- apply (position_ok_other q e e'); [by eapply Hpos| |done]. intros Hoh.
           destruct (g_at h) eqn:Hath; try (by left); right; apply Hown; apply not_true_is_false; intros Hog;
             (destruct Hne; eapply (Hone j i h g); [done|done|split_and!; [done..|congruence]|split_and!; done]).
        -- destruct r as [pos'|]; [apply Hr|done].
      * intros j k h h' Hj Hk Hb Hb'.
        assert (∀ j h, goroutines (with_goroutine i pos m1) !! j = Some h → busy n h →
          ∃ h', goroutines m !! j = Some h' ∧ busy n h') as Hback.
        { intros j0 h0 Hj0 Hb0. destruct (goroutine_moved m1 _ _ _ _ _ Hi Hj0) as [[_ Hj']|[-> ->]]; [by eauto|].
          exists g. split; [done|]. destruct Hb0 as (? & ? & _). done. }
        destruct (Hback j h Hj Hb) as (? & ? & ?), (Hback k h' Hk Hb') as (? & ? & ?). by eapply Hone.
    + intros a (q' & c & Ht' & Hc' & Hev & Hsn & Hix).
      assert (q' = q) as -> by congruence. assert (c = e) as -> by congruence.
      assert (own (g_op g) = true → g_at g ≠ IndexWritten q → entry_eventIndex e = entry_eventIndex a) as Hx.
      { intros Ho Hnw. destruct Hix as [Hix|(j & h & q' & Hj & Hnh & Hh)]; [done|]. exfalso.
        pose proof (Hpos j h Hj Hnh) as Hph. unfold position_ok in Hph. rewrite Hh in Hph.
        destruct Hph as [-> (k & s & Hop & _)]. assert (j = i) as ->; [|congruence].
        eapply (Hone j i h g); [done|done|split_and!; [done|by rewrite Hop|congruence]|done]. }
      destruct (Hstep a Hev Hsn Hx) as (Hr & Hlen & Hown). destruct r as [pos'|ans].
      * destruct Hr as (_ & Hev' & Hsn' & Hix' & Hnw). apply serves_same; [simpl; by rewrite app_nil_r|].
        exists q, e'. split_and!; [done..|]. destruct Hix' as [Hp'|Hix'].
        -- right. exists i, (at_position pos g), q. simpl. by rewrite list_lookup_alter_eq, Hi.
        -- rewrite Hix'. destruct Hix as [Hix|Hix]; [by left|right]. eapply (half_moved n m1); [done|by intros|exact Hix].
      * destruct Hr as (-> & Hev' & Hsn' & Hix').
        exists [(g_actor g, g_op g, (act (g_op g) a).2)], (act (g_op g) a).1. unfold of_actor. simpl.
        rewrite decide_True by done. split_and!; [done| | |].
        -- exists q, e'. split_and!; [done..|]. destruct (own (g_op g)); [left; by apply Hix'|].
           destruct (Hown eq_refl) as (-> & -> & Hnw). destruct Hix as [Hix|Hix]; [by left|right].
           eapply (half_moved n m1); [done|by intros|exact Hix].
        -- by destruct (g_op g); simpl; rewrite ?app_nil_r.
        -- intros p0 Hp0. destruct (run_op_act n (g_op g) p0 a Hp0) as [Ha Hst]. by eexists.
  - assert (p ≠ q) as Hpq.
    { intros ->. apply Hn. eapply (sep_owner _ Hsep0 n); [by left|]. right. by exists i, g. }
    assert (heap m1 !! q = Some c) as Hq by (simpl; by rewrite list_lookup_insert_ne).
    assert (in_place n m1) as Hin1.
    { split; [|by exists q, c|done]. apply (separate_sub m); [done|done|]. simpl. by rewrite length_insert. }
    split; [by eapply in_place_moved|].
    intros a (q' & c' & Ht' & Hc' & Hev & Hsn & Hix).
    assert (q' = q) as -> by congruence. assert (c' = c) as -> by congruence.
    exists (match r with inl _ => [] | inr a => [(g_actor g, g_op g, a)] end), a.
    assert (of_actor n (match r with inl _ => [] | inr a => [(g_actor g, g_op g, a)] end) = []) as ->.
    { unfold of_actor. destruct r; [done|]. simpl. by rewrite decide_False. }
    split_and!; [done| |by rewrite app_nil_r|by intros p0 Hp0; exists p0].
    eapply (shows_moved n m1); [done|by intros|]. exists q, c. split_and!; try done.
Qed.

Lemma in_place_step n m m' :
  in_place n m → mem_step m m' → in_place n m' ∧ ∀ e, shows n m e → serves n e m m'.
Proof.
  intros Hin Hst. pose proof (separate_step _ _ (ip_separate _ _ Hin) Hst) as Hsep.
  destruct (Hin) as [Hsep0 (q & c & Ht & Hc & Hpos) Hone].
  destruct Hst as [m n' op Hcall|m i g p Hi Hl Hp|m i g Hi Hl Hp|m i g Hi Hl|m i g p e Hi Hl He].
  - split.
    + split; [done| |].
      * exists q, c. split_and!; [done..|]. intros j h Hj Hn. simpl in Hj.
        apply lookup_snoc_Some in Hj as [[_ Hj]|[_ <-]]; [by eapply Hpos|done].
      * intros j k h h' Hj Hk Hb Hb'. simpl in Hj, Hk.
        apply lookup_snoc_Some in Hj as [[Hj1 Hj]|[-> <-]], Hk as [[Hk1 Hk]|[-> <-]]; [by eapply Hone|..|done].
        -- destruct Hb' as (<- & Ho & _). by destruct (Hcall Ho j h Hj).
        -- destruct Hb as (<- & Ho & _). by destruct (Hcall Ho k h' Hk).
    + intros e (q' & c' & Ht' & Hc' & Hev & Hsn & Hix). apply serves_same; [done|]. exists q', c'. split_and!; try done.
      destruct Hix as [Hix|(j & h & p & Hj & Hh)]; [by left|right]. exists j, h, p. split; [|done]. simpl.
      by apply lookup_app_l_Some.
  - assert (g_at g ≠ Returned) as Hr by congruence. split.
    + eapply in_place_moved; [done|exact Hi|done|done|]. intros Hn p' e Hp' _. subst n. simplify_eq. by split.
    + intros e He. apply serves_same; [done|]. eapply shows_moved; [exact Hi|congruence|done].
  - assert (g_at g ≠ Returned) as Hr by congruence. split.
    + eapply in_place_moved; [done|exact Hi|done|done|]. intros Hn p' e Hp' _. subst n. congruence.
    + intros e He. apply serves_same; [done|]. eapply shows_moved; [exact Hi|congruence|done].
  - assert (g_actor g ≠ n) as Hne.
    { intros Heq. pose proof (Hpos i g Hi Heq) as Hg. unfold position_ok in Hg. by rewrite Hl in Hg. }
    set (m1 := {| heap := heap m ++ [empty_entry]; table := _; goroutines := _; served := _ |}) in *.
    assert (table m1 !! n = Some q) as Ht1 by (simpl; by rewrite lookup_insert_ne).
    assert (heap m1 !! q = Some c) as Hc1 by by apply lookup_app_l_Some.
    split.
    + split; [done| |].
      * exists q, c. split_and!; [done..|]. intros j h Hj Hn.
        destruct (goroutine_moved m1 i g _ _ _ Hi Hj) as [[_ Hj']|[-> ->]]; [by eapply Hpos|done].
      * intros j k h h' Hj Hk Hb Hb'.
        destruct (goroutine_moved m1 i g _ _ _ Hi Hj) as [[_ Hj']|[-> ->]]; [|by destruct Hb].
        destruct (goroutine_moved m1 i g _ _ _ Hi Hk) as [[_ Hk']|[-> ->]]; [|by destruct Hb'].
        by eapply Hone.
    + intros e (q' & c' & Ht' & Hc' & Hev & Hsn & Hix).
      assert (q' = q) as -> by congruence. assert (c' = c) as -> by congruence. apply serves_same; [done|].
      eapply (shows_moved n m1); [exact Hi|by intros|]. exists q, c. split_and!; try done.
  - by apply in_place_access.
Qed.

Lemma serves_trans n e m1 m2 m3 :
  serves n e m1 m2 → (∀ e', shows n m2 e' → serves n e' m2 m3) → serves n e m1 m3.
Proof.
  intros (l & e2 & S1 & E2 & J1 & R1) H23. destruct (H23 e2 E2) as (l' & e3 & S2 & E3 & J2 & R2).
  exists (l ++ l'), e3. unfold of_actor, MemoryRace.persisted in *. rewrite !omap_app. split_and!; [|done| |].
  - by rewrite S2, S1, app_assoc.
  - by rewrite J2, J1, app_assoc.
  - intros p Hp. destruct (R1 p Hp) as (p1 & A1 & Hp1). destruct (R2 p1 Hp1) as (p2 & A2 & Hp2).
    exists p2. split; [|done]. by eapply answers_app.
Qed.

(** C20: once the entry of an actor is in place, the in-memory provider serves
    the actor correctly however the accesses of the goroutines of all actors and
    of all streams to the entries interleave, provided that each actor does its
    own operations one at a time: the answers are those of the sequential
    provider that does the same operations of the actor in the order in which
    they made their last access, and the journal is the journal there was,
    followed by every event persisted since, in order. *)
Theorem memory_linearizable n e m m' :
  in_place n m → shows n m e → rtc mem_step m m' → in_place n m' ∧ serves n e m m'.
Proof.
  intros Hin Hs Hrtc. revert e Hs. induction Hrtc as [m|m m1 m2 Hst _ IH]; intros e Hs.
  - split; [done|]. by apply serves_same.
  - destruct (in_place_step n m m1 Hin Hst) as [Hin1 Hs1]. specialize (IH Hin1). specialize (Hs1 e Hs).
    destruct (Hs1) as (_ & e1 & _ & He1 & _). split; [by eapply IH|]. eapply serves_trans; [exact Hs1|].
    intros e' He'. by apply IH.
Qed.

(** ** The creation of an entry *)

Definition idle_memory : memory := {| heap := []; table := ∅; goroutines := []; served := [] |}.
Lemma separate_idle : separate idle_memory.
Proof.
  assert (∀ n p, ¬ points_to idle_memory n p) as Hno by by intros n p [Hp|(i & g & Hg & _)].
  split; [by intros n p ?%Hno|by intros n n' p ?%Hno].
Qed.

(** The goroutine that creates the entry of an actor puts it in place, empty, if
    no other one has missed it: the others are back, or streams that have not
    looked yet. *)
Lemma created_in_place m i g :
  separate m → goroutines m !! i = Some g → g_at g = Missing →
  (∀ j h, goroutines m !! j = Some h → g_actor h = g_actor g → j ≠ i →
     g_at h = Returned ∨ g_at h = Loading ∧ own (g_op h) = false) →
  let m' := with_goroutine i (Holding (length (heap m)) false)
    {| heap := heap m ++ [empty_entry]; table := <[g_actor g := length (heap m)]> (table m);
       goroutines := goroutines m; served := served m |} in
  mem_step m m' ∧ in_place (g_actor g) m' ∧ shows (g_actor g) m' empty_entry.
Proof.
  intros Hsep Hi Hat Hothers m'. assert (mem_step m m') as Hst by by apply step_init.
  assert (table m' !! g_actor g = Some (length (heap m))) as Ht by (simpl; by rewrite lookup_insert_eq).
  assert (heap m' !! length (heap m) = Some empty_entry) as He by by apply list_lookup_middle.
  assert (∀ j h, goroutines m' !! j = Some h → g_actor h = g_actor g →
    j = i ∧ h = at_position (Holding (length (heap m)) false) g
    ∨ j ≠ i ∧ (g_at h = Returned ∨ g_at h = Loading ∧ own (g_op h) = false)) as Hall.
  { intros j h Hj Hn. unfold m' in Hj. apply goroutine_moved with (g := g) in Hj; [|done].
    destruct Hj as [[Hne Hj]|[-> ->]]; [right; split; [done|]; by eapply Hothers|by left]. }
  split_and!; [done| |].
  2: { exists (length (heap m)), empty_entry. split_and!; try done. by left. }
  split; [by eapply separate_step| |].
  - exists (length (heap m)), empty_entry. split_and!; [done..|]. intros j h Hj Hn. unfold position_ok.
    destruct (Hall j h Hj Hn) as [[-> ->]|[_ [Hr|[Hr _]]]]; [done|by rewrite Hr|by rewrite Hr].
  - intros j k h h' Hj Hk (Hn & Ho & Hr) (Hn' & Ho' & Hr').
    destruct (Hall j h Hj Hn) as [[-> _]|[_ [?|[_ ?]]]], (Hall k h' Hk Hn') as [[-> _]|[_ [?|[_ ?]]]]; congruence.
Qed.

(** ** Schedules *)

Definition call (n : string) (op : operation) (m : memory) : memory :=
  {| heap := heap m; table := table m; served := served m;
     goroutines := goroutines m ++ [{| g_actor := n; g_op := op; g_at := Loading |}] |}.
(** The next step of a goroutine. *)
Definition fire (m : memory) (i : nat) : memory :=
  match goroutines m !! i with
  | None => m
  | Some g =>
      match g_at g, pointer (g_at g) with
      | Loading, _ =>
          match table m !! g_actor g with
          | Some p => with_goroutine i (Holding p true) m
          | None => with_goroutine i Missing m
          end
      | Missing, _ =>
          with_goroutine i (Holding (length (heap m)) false)
            {| heap := heap m ++ [empty_entry]; table := <[g_actor g := length (heap m)]> (table m);
               goroutines := goroutines m; served := served m |}
      | _, Some p => match heap m !! p with Some e => accessed i g p e m | None => m end
      | _, None => m
      end
  end.

Lemma fire_all l m : rtc mem_step m (foldl fire m l).
Proof.
  revert m. induction l as [|i l IH]; intros m; simpl; [reflexivity|]. etrans; [|apply IH]. unfold fire.
  destruct (goroutines m !! i) as [g|] eqn:Hi; [|reflexivity].
  assert (∀ p, pointer (g_at g) = Some p →
    rtc mem_step m (match heap m !! p with Some e => accessed i g p e m | None => m end)) as Hacc.
  { intros p Hp. destruct (heap m !! p) eqn:He; [|reflexivity]. apply rtc_once. by eapply step_access. }
  destruct (g_at g) eqn:Hg; simpl; try (by apply Hacc).
  - destruct (table m !! g_actor g) eqn:Ht; apply rtc_once; [by eapply step_found|by eapply step_missed].
  - apply rtc_once. by eapply step_init.
  - reflexivity.
Qed.

Definition first_event : Event := EGraphCommitted {| committed_FlowId := "flow"; committed_Ts := None |}.

(** A stream looks for the journal of an actor and does not find it; the actor
    starts and persists its first event; then the stream creates the entry. *)
Definition both_called : memory := call "a" (OpPersistEvent 0 first_event) (call "a" (OpGetEvents 0) idle_memory).
Definition overwritten : memory := foldl fire both_called [0; 1; 1; 1; 1; 0; 0].

Lemma both_called_reachable : rtc mem_step idle_memory both_called.
Proof.
  eapply rtc_l; [by apply (step_call _ "a" (OpGetEvents 0))|]. apply rtc_once.
  apply (step_call _ "a" (OpPersistEvent 0 first_event)). intros _ [|i] g Hg; [|done]. injection Hg as <-. by intros (_ & ? & _).
Qed.

(** The event an actor has persisted is lost: [PersistEvent] has
    returned, and the journal is empty. *)
Theorem concurrent_read_loses_journal :
  rtc mem_step idle_memory overwritten
  ∧ served overwritten = [("a", OpPersistEvent 0 first_event, ADone); ("a", OpGetEvents 0, AEvents [])]
  ∧ shows "a" overwritten empty_entry.
Proof.
  split_and!; [|vm_compute; reflexivity|].
  - etrans; [apply both_called_reachable|apply fire_all].
  - exists 1, empty_entry. split_and!; try (vm_compute; reflexivity). left. reflexivity.
Qed.

(** The actor has missed its entry; it creates it and writes while the stream
    reads. *)
Definition missed : memory := foldl fire both_called [1].
Definition created : memory := fire missed 1.
Definition read_during_write : memory := foldl fire created [0; 1; 0; 1].

Lemma memory_linearizable_witness :
  in_place "a" read_during_write ∧ serves "a" empty_entry created read_during_write.
Proof.
  destruct (created_in_place missed 1 {| g_actor := "a"; g_op := OpPersistEvent 0 first_event; g_at := Missing |})
    as (_ & Hin & Hs).
  - assert (rtc mem_step idle_memory missed) as Hr by (etrans; [apply both_called_reachable|apply fire_all]).
    clear -Hr. pose proof separate_idle as H0. revert H0. induction Hr; eauto using separate_step.
  - vm_compute. reflexivity.
  - reflexivity.
  - intros [|[|j]] h Hh _ Hne; vm_compute in Hh; simplify_eq; by right.
  - apply (memory_linearizable "a" empty_entry created read_during_write Hin Hs). apply fire_all.
Defined.
