(* ===== verification/EventStream.v ===== *)
(** * Subscriptions to an event stream (protoactor-go's eventstream.go)

    The stream behind the streaming provider. Subscriptions are objects that
    know their position in the slice of the stream, so that one is removed by
    moving the last one into its place. The objects live in a heap of their
    own and are named by their position there; callbacks and events are left
    open. Each operation runs under the stream's lock. *)

From S2P Require Import Prelude.
Local Open Scope Z_scope.

Section eventstream.
Context {evt callback : Type}.

Record Subscription := { sub_i : Z; sub_fn : callback; sub_p : option (evt → bool) }.

Record EventStream := {
  subscriptions : list nat;          (** pointers into the heap *)
  sub_heap : list Subscription;
}.

Definition new_stream : EventStream := {| subscriptions := []; sub_heap := [] |}.

Definition set_i (i : Z) (s : Subscription) : Subscription :=
  {| sub_i := i; sub_fn := sub_fn s; sub_p := sub_p s |}.
Definition set_p (p : evt → bool) (s : Subscription) : Subscription :=
  {| sub_i := sub_i s; sub_fn := sub_fn s; sub_p := Some p |}.

Definition Subscribe (fn : callback) : M EventStream nat :=
  es ← get_state;
  let sub := length (sub_heap es) in
  modify (λ es, {| subscriptions := subscriptions es ++ [sub];
    sub_heap := sub_heap es ++ [{| sub_i := Z.of_nat (length (subscriptions es)); sub_fn := fn; sub_p := None |}] |});;
  mret sub.

Definition WithPredicate (p : evt → bool) (sub : nat) : M EventStream unit :=
  modify (λ es, {| subscriptions := subscriptions es; sub_heap := alter (set_p p) sub (sub_heap es) |}).

(** [l[i]] on a slice. *)
Definition index_slice {A} (l : list A) (i : Z) : M EventStream A :=
  if i <? 0 then panic SliceOutOfRange
  else match l !! Z.to_nat i with Some a => mret a | None => panic SliceOutOfRange end.

Definition Unsubscribe (sub : nat) : M EventStream unit :=
  es ← get_state;
  o ← deref (sub_heap es !! sub);
  if sub_i o =? -1 then mret tt
  else
    let i := sub_i o in
    let l := Z.of_nat (length (subscriptions es)) - 1 in
    last ← index_slice (subscriptions es) l;
    index_slice (subscriptions es) i;;
    modify (λ es, {| subscriptions := take (Z.to_nat l) (<[Z.to_nat i := last]> (subscriptions es));
                     sub_heap := alter (set_i (-1)) sub (alter (set_i i) last (sub_heap es)) |}).

(** The callbacks an event is passed to, in order. *)
Definition Publish (e : evt) : M EventStream (list callback) :=
  es ← get_state;
  mret (omap (λ sub,
    match sub_heap es !! sub with
    | Some s => if match sub_p s with None => true | Some p => p e end then Some (sub_fn s) else None
    | None => None
    end) (subscriptions es)).

(** ** Well-formedness: the slice and the positions agree *)

Definition stream_ok (es : EventStream) : Prop :=
  (∀ k sub, subscriptions es !! k = Some sub → ∃ o, sub_heap es !! sub = Some o ∧ sub_i o = Z.of_nat k)
  ∧ (∀ sub o, sub_heap es !! sub = Some o → sub_i o = -1
       ∨ ∃ k, sub_i o = Z.of_nat k ∧ subscriptions es !! k = Some sub).

(** Callback and predicate of a live subscription. *)
Definition subscribed (es : EventStream) (sub : nat) : option (callback * option (evt → bool)) :=
  o ← sub_heap es !! sub; if sub_i o =? -1 then None else Some (sub_fn o, sub_p o).

Lemma stream_ok_new : stream_ok new_stream.
Proof. split; intros; simpl in *; done. Qed.

Lemma wp_Subscribe fn es :
  stream_ok es →
  wp (Subscribe fn) (λ sub es', stream_ok es' ∧ sub = length (sub_heap es) ∧ length (sub_heap es') = S sub
    ∧ ∀ s, subscribed es' s = if decide (s = sub) then Some (fn, None) else subscribed es s) es.
Proof.
  intros [H1 H2]. unfold Subscribe. apply wp_bind, wp_get, wp_bind, wp_modify, wp_ret. split_and!.
  - split; simpl.
    + intros k sub [Hk|[Hk Hs]]%lookup_app_Some.
      * destruct (H1 k sub Hk) as (o & Ho & Hi). exists o. split; [by apply lookup_app_l_Some|done].
      * destruct (k - length (subscriptions es))%nat eqn:He; [|done]. injection Hs as <-.
        exists {| sub_i := Z.of_nat (length (subscriptions es)); sub_fn := fn; sub_p := None |}.
        split; [by rewrite list_lookup_middle|simpl; lia].
    + intros sub o [Ho|[Hl Ho]]%lookup_app_Some.
      * destruct (H2 sub o Ho) as [?|(k & Hk & Hs)]; [by left|right]. exists k. split; [done|by apply lookup_app_l_Some].
      * destruct (sub - length (sub_heap es))%nat eqn:He; [|done]. injection Ho as <-. right.
        exists (length (subscriptions es)). split; [done|]. simpl.
        replace sub with (length (sub_heap es)) by lia. by rewrite list_lookup_middle.
  - done.
  - simpl. rewrite length_app. simpl. lia.
  - intros s. unfold subscribed. simpl. case_decide as Hs.
    + subst s. rewrite list_lookup_middle by done. simpl. destruct (Z.eqb_spec (Z.of_nat (length (subscriptions es))) (-1)); [lia|done].
    + destruct (sub_heap es !! s) as [o|] eqn:Ho; [by rewrite (lookup_app_l_Some _ _ _ _ Ho)|].
      rewrite lookup_app_r by (by apply lookup_ge_None). apply lookup_ge_None in Ho.
      destruct (s - length (sub_heap es))%nat eqn:He; [lia|done].
Qed.

Lemma wp_WithPredicate p sub es fn q :
  stream_ok es → subscribed es sub = Some (fn, q) →
  wp (WithPredicate p sub) (λ _ es', stream_ok es' ∧ length (sub_heap es') = length (sub_heap es)
    ∧ ∀ s, subscribed es' s = if decide (s = sub) then Some (fn, Some p) else subscribed es s) es.
Proof.
  intros [H1 H2] Hsub. unfold WithPredicate. apply wp_modify. split; [split; simpl|split; [simpl; by rewrite length_alter|]].
  - intros k s Hk. destruct (H1 k s Hk) as (o & Ho & Hi). rewrite list_lookup_alter.
    case_decide; subst; rewrite Ho; simpl; eauto.
  - intros s o. rewrite list_lookup_alter. case_decide; [subst|by apply H2].
    destruct (sub_heap es !! s) as [o'|] eqn:Ho; simpl; [|done]. intros [= <-]. exact (H2 s o' Ho).
  - intros s. unfold subscribed in *. simpl. rewrite list_lookup_alter. case_decide; case_decide; subst; try done.
    destruct (sub_heap es !! s) as [o|]; simpl in *; [|done]. destruct (sub_i o =? -1); [done|]. by injection Hsub as <- _.
Qed.

Lemma wp_index_slice {A} (l : list A) (k : nat) a es (Q : A → EventStream → Prop) :
  l !! k = Some a → Q a es → wp (index_slice l (Z.of_nat k)) Q es.
Proof.
  intros Hl HQ. unfold index_slice. destruct (Z.ltb_spec (Z.of_nat k) 0); [lia|]. rewrite Nat2Z.id, Hl. by apply wp_ret.
Qed.

(** Removing the [k]-th of the slice: the last one takes its place. *)
Lemma swap_remove_lookup (l : list nat) k x m (n j : nat) :
  l !! k = Some x → length l = S n →
  take n (<[k := m]> l) !! j
  = if decide (j < n)%nat then if decide (j = k) then Some m else l !! j else None.
Proof.
  intros Hk Hn. pose proof (lookup_lt_Some _ _ _ Hk) as Hlt. rewrite lookup_take. case_decide as Hj; [|done].
  rewrite list_lookup_insert. repeat case_decide; subst; try done; lia.
Qed.

Lemma wp_Unsubscribe sub es :
  stream_ok es → is_Some (sub_heap es !! sub) →
  wp (Unsubscribe sub) (λ _ es', stream_ok es' ∧ length (sub_heap es') = length (sub_heap es)
    ∧ ∀ s, subscribed es' s = if decide (s = sub) then None else subscribed es s) es.
Proof.
  intros [H1 H2] [o Ho]. unfold Unsubscribe. apply wp_bind, wp_get, wp_bind. rewrite Ho. apply wp_ret.
  destruct (Z.eqb_spec (sub_i o) (-1)) as [Hi|Hi].
  { apply wp_ret. split; [done|]. split; [done|]. intros s. case_decide; [subst|done]. unfold subscribed. rewrite Ho. simpl. by rewrite Hi. }
  destruct (H2 sub o Ho) as [?|(k & Hk & Hsub)]; [done|]. set (l := subscriptions es) in *.
  assert (∃ n, length l = S n) as [n Hn].
  { apply lookup_lt_Some in Hsub. destruct (length l) as [|n]; [lia|by exists n]. }
  assert (l !! n = Some (l !!! n)) as Hlast by (apply list_lookup_lookup_total_lt; lia).
  set (m := l !!! n) in *. rewrite Hk, Hn. replace (Z.of_nat (S n) - 1) with (Z.of_nat n) by lia.
  apply wp_bind, (wp_index_slice _ _ m); [done|]. apply wp_bind, (wp_index_slice _ _ sub); [done|].
  apply wp_modify. rewrite !Nat2Z.id.
  assert (∀ j s, l !! j = Some s → s = sub → j = k) as Hpos.
  { intros j s Hj ->. destruct (H1 j sub Hj) as (o' & Ho' & Hj'). rewrite Ho in Ho'. injection Ho' as <-. lia. }
  assert (∀ j s, l !! j = Some s → s = m → j = n) as Hposm.
  { intros j s Hj ->. destruct (H1 j m Hj) as (o' & Ho' & Hj'), (H1 n m Hlast) as (o2 & Ho2 & Hj2). simplify_eq. lia. }
  assert (∀ s, alter (set_i (-1)) sub (alter (set_i (Z.of_nat k)) m (sub_heap es)) !! s
    = if decide (s = sub) then set_i (-1) <$> (sub_heap es !! s)
      else if decide (s = m) then set_i (Z.of_nat k) <$> (sub_heap es !! s) else sub_heap es !! s) as Hheap.
  { intros s. rewrite !list_lookup_alter. repeat case_decide; subst; try done;
      match goal with |- context [sub_heap es !! ?x] => by destruct (sub_heap es !! x) end. }
  split; [split; cbn [subscriptions sub_heap]|split; [simpl; by rewrite !length_alter|]].
  - intros j s. rewrite (swap_remove_lookup l k sub) by done. case_decide as Hj; [|done]. rewrite Hheap.
    destruct (decide (j = k)) as [->|Hjk].
    + intros [= <-]. destruct (H1 n m Hlast) as (om & Hom & Him).
      rewrite decide_False, decide_True by (try done; intros Heq; pose proof (Hpos n m Hlast Heq); lia).
      rewrite Hom. simpl. eauto.
    + intros Hs. destruct (H1 j s Hs) as (os & Hos & His).
      rewrite decide_False by (intros Heq; by apply Hjk, (Hpos j s)).
      rewrite decide_False by (intros Heq; pose proof (Hposm j s Hs Heq); lia). eauto.
  - intros s os. rewrite Hheap. destruct (decide (s = sub)) as [->|Hs].
    { rewrite Ho. intros [= <-]. by left. }
    destruct (decide (s = m)) as [->|Hm].
    + destruct (H1 n m Hlast) as (om & Hom & Him). rewrite Hom. intros [= <-]. right. exists k. split; [done|].
      rewrite (swap_remove_lookup l k sub) by done. pose proof (lookup_lt_Some _ _ _ Hsub).
      rewrite decide_True, decide_True; try done. destruct (decide (k = n)); [|lia]. subst. congruence.
    + intros Hos. destruct (H2 s os Hos) as [?|(j & Hj & Hjs)]; [by left|right]. exists j. split; [done|].
      rewrite (swap_remove_lookup l k sub) by done. pose proof (lookup_lt_Some _ _ _ Hjs).
      assert (j ≠ n) by (intros ->; congruence). assert (j ≠ k) by (intros ->; congruence).
      by rewrite decide_True, decide_False by lia.
  - intros s. unfold subscribed. cbn [sub_heap]. rewrite Hheap. destruct (decide (s = sub)) as [->|Hs].
    { by rewrite Ho. }
    destruct (decide (s = m)) as [->|Hm]; [|done]. destruct (H1 n m Hlast) as (om & Hom & Him). rewrite Hom. simpl.
    destruct (Z.eqb_spec (Z.of_nat k) (-1)), (Z.eqb_spec (sub_i om) (-1)); try done; lia.
Qed.

(** ** Against an abstract registry

    A registry is, for each handle given out, the callback and the predicate of
    the subscription if it is still live. *)
Abbreviation registry := (list (option (callback * option (evt → bool)))).

Inductive stream_op :=
  | DoSubscribe (fn : callback)
  | DoWithPredicate (p : evt → bool) (sub : nat)
  | DoUnsubscribe (sub : nat).

Definition registry_op (o : stream_op) (r : registry) : option registry :=
  match o with
  | DoSubscribe fn => Some (r ++ [Some (fn, None)])
  | DoWithPredicate p sub =>
      match r !! sub with Some (Some (fn, _)) => Some (<[sub := Some (fn, Some p)]> r) | _ => None end
  | DoUnsubscribe sub =>
      match r !! sub with Some _ => Some (<[sub := None]> r) | None => None end
  end.
Definition registry_ops (os : list stream_op) : option registry :=
  foldl (λ r o, r ≫= registry_op o) (Some []) os.

Definition do_op (o : stream_op) : M EventStream unit :=
  match o with
  | DoSubscribe fn => Subscribe fn;; mret tt
  | DoWithPredicate p sub => WithPredicate p sub
  | DoUnsubscribe sub => Unsubscribe sub
  end.

(** The callbacks a registry passes an event to. *)
Definition listening (e : evt) (s : option (callback * option (evt → bool))) : option callback :=
  '(fn, p) ← s; if match p with None => true | Some p => p e end then Some fn else None.

Definition implements (es : EventStream) (r : registry) : Prop :=
  stream_ok es ∧ length (sub_heap es) = length r ∧ ∀ k, subscribed es k = r !! k ≫= id.

Lemma implements_op o r r' es :
  implements es r → registry_op o r = Some r' → wp (do_op o) (λ _ es', implements es' r') es.
Proof.
  intros (Hok & Hlen & Hs) Hr.
  assert (∀ k x, r !! k = Some x → is_Some (sub_heap es !! k)) as Hheap.
  { intros k x Hk%lookup_lt_Some. apply lookup_lt_is_Some. lia. }
  destruct o as [fn|p sub|sub]; simpl in *.
  - injection Hr as <-. apply wp_bind. eapply wp_mono; [by apply wp_Subscribe|]. intros sub es' (Hok' & -> & Hl & Hs').
    apply wp_ret. split_and!; [done|rewrite length_app; simpl; lia|]. intros k. rewrite Hs', Hs, Hlen.
    case_decide as Hk; [subst k; by rewrite list_lookup_middle|].
    destruct (r !! k) as [x|] eqn:Hx; [by rewrite (lookup_app_l_Some _ _ _ _ Hx)|].
    rewrite lookup_app_r by (by apply lookup_ge_None). apply lookup_ge_None in Hx.
    destruct (k - length r)%nat eqn:He; [lia|done].
  - destruct (r !! sub) as [[[fn q]|]|] eqn:Hx; simplify_eq. eapply wp_mono; [apply (wp_WithPredicate _ _ _ fn q)|].
    + done.
    + by rewrite Hs, Hx.
    + intros [] es' (Hok' & Hl & Hs'). split_and!; [done|by rewrite length_insert, Hl|]. intros k. rewrite Hs', Hs.
      rewrite list_lookup_insert. apply lookup_lt_Some in Hx. repeat case_decide; try done; naive_solver.
  - destruct (r !! sub) as [x|] eqn:Hx; simplify_eq. eapply wp_mono; [apply wp_Unsubscribe; [done|by eapply Hheap]|].
    intros [] es' (Hok' & Hl & Hs'). split_and!; [done|by rewrite length_insert, Hl|]. intros k. rewrite Hs', Hs.
    rewrite list_lookup_insert. apply lookup_lt_Some in Hx. repeat case_decide; try done; naive_solver.
Qed.

(** The slice holds each live subscription once. *)
Lemma subscriptions_live es : stream_ok es →
  subscriptions es ≡ₚ filter (λ k, is_Some (subscribed es k)) (seq 0 (length (sub_heap es))).
Proof.
  intros [H1 H2]. apply NoDup_Permutation.
  - apply NoDup_alt. intros i j s Hi Hj. destruct (H1 i s Hi) as (o & Ho & Hoi), (H1 j s Hj) as (o' & Ho' & Hoj).
    simplify_eq. lia.
  - apply NoDup_filter, NoDup_seq.
  - intros s. rewrite list_elem_of_filter, elem_of_seq. unfold subscribed. split.
    + intros [k Hk]%list_elem_of_lookup. destruct (H1 k s Hk) as (o & Ho & Hi). rewrite Ho. simpl.
      destruct (Z.eqb_spec (sub_i o) (-1)); [lia|]. split; [by eexists|]. apply lookup_lt_Some in Ho. lia.
    + intros [[x Hx] _]. destruct (sub_heap es !! s) as [o|] eqn:Ho; simpl in Hx; [|done].
      destruct (Z.eqb_spec (sub_i o) (-1)); [done|]. destruct (H2 s o Ho) as [?|(k & _ & Hk)]; [done|].
      by eapply list_elem_of_lookup_2.
Qed.

Lemma omap_filter_seq {A} (f : nat → option A) (Q : nat → Prop) `{!∀ k, Decision (Q k)} (l : list nat) :
  (∀ k, is_Some (f k) → Q k) → omap f (filter Q l) = omap f l.
Proof.
  intros Hf. induction l as [|k l IH]; [done|]. rewrite filter_cons, list_omap_cons. case_decide as Hk.
  - by rewrite list_omap_cons, IH.
  - rewrite IH. destruct (f k) eqn:He; [|done]. destruct Hk. apply Hf. by rewrite He.
Qed.

Lemma omap_seq_lookup {A B} (f : A → option B) (l : list A) :
  omap (λ k, l !! k ≫= f) (seq 0 (length l)) = omap f l.
Proof.
  induction l as [|x l IH] using rev_ind; [done|]. rewrite length_app, seq_app, !omap_app. f_equal.
  - rewrite <- IH. apply list_omap_ext. apply Forall_Forall2_diag, Forall_forall. intros k [_ Hk]%elem_of_seq.
    by rewrite lookup_app_l.
  - simpl. by rewrite list_lookup_middle.
Qed.

(** An event goes once to each live subscription that accepts it. *)
Lemma Publish_live e es : stream_ok es →
  ∃ called, Publish e es = Ret called es
    ∧ called ≡ₚ omap (λ k, listening e (subscribed es k)) (seq 0 (length (sub_heap es))).
Proof.
  intros Hok. eexists. split; [done|].
  trans (omap (λ k, listening e (subscribed es k)) (subscriptions es)); [apply reflexive_eq, list_omap_ext|].
  2: { rewrite (subscriptions_live es Hok), omap_filter_seq; [done|].
    intros k [c Hc]. by destruct (subscribed es k). }
  apply Forall_Forall2_diag, Forall_forall. intros k [j Hj]%list_elem_of_lookup.
  destruct Hok as [H1 _]. destruct (H1 j k Hj) as (o & Ho & Hi). unfold subscribed. rewrite Ho. simpl.
  destruct (Z.eqb_spec (sub_i o) (-1)); [lia|done].
Qed.

(** Whatever sequence of subscriptions, predicates and
    cancellations is performed, in any order, none of them panics, and an event
    published afterwards is passed exactly once to each callback whose
    subscription is live and whose predicate, if set, accepts the event, and to
    no other. *)
Theorem eventstream_exact (os : list stream_op) (r : registry) :
  registry_ops os = Some r →
  ∃ es, for_each os do_op new_stream = Ret tt es
    ∧ ∀ e, ∃ called, Publish e es = Ret called es ∧ called ≡ₚ omap (listening e) r.
Proof.
  intros Hr.
  assert (wp (for_each os do_op) (λ _ es, ∃ r, registry_ops os = Some r ∧ implements es r) new_stream) as Hw.
  { apply (wp_for_each (λ dn es, ∃ r, registry_ops dn = Some r ∧ implements es r)).
    { exists []. split; [done|]. split_and!; [apply stream_ok_new|done|]. intros k. unfold subscribed. done. }
    intros dn o rest es -> (r1 & Hr1 & Hi). unfold registry_ops in *. rewrite foldl_app in Hr |- *. rewrite Hr1 in Hr |- *. simpl in *.
    destruct (registry_op o r1) as [r2|] eqn:Hr2.
    - eapply wp_mono; [by eapply implements_op|]. intros [] es' Hi'. by exists r2.
    - exfalso. clear -Hr. induction rest; simpl in Hr; done. }
  apply wp_run in Hw as ([] & es & Hrun & r' & Hr' & Hok & Hlen & Hs). assert (r' = r) as -> by congruence.
  exists es. split; [done|]. intros e. destruct (Publish_live e es Hok) as (called & Hc & Hp). exists called. split; [done|].
  rewrite Hp, Hlen, <- (omap_seq_lookup (listening e) r). apply reflexive_eq, list_omap_ext, Forall_Forall2_diag, Forall_forall.
  intros k _. rewrite Hs. by destruct (r !! k) as [[]|].
Qed.
End eventstream.
Arguments Subscription : clear implicits.
Arguments EventStream : clear implicits.
Arguments stream_op : clear implicits.

Lemma eventstream_exact_witness :
  ∃ es, for_each [DoSubscribe "a"; DoSubscribe "b"; DoWithPredicate Nat.even 1; DoUnsubscribe 0] do_op new_stream = Ret tt es
    ∧ ∀ e, ∃ called, Publish e es = Ret called es ∧ called ≡ₚ omap (listening e) [None; Some ("b", Some Nat.even)].
Proof.
  exact (eventstream_exact [DoSubscribe "a"; DoSubscribe "b"; DoWithPredicate Nat.even 1; DoUnsubscribe 0]
    [None; Some ("b", Some Nat.even)] eq_refl).
Defined.
