(* ===== verification/SqlProvider.v ===== *)
(** * The SQL event provider (src/persistence/sql_provider.go, sql_init.go)

    The journal and the snapshots of all actors in two tables of a database.
    A table is the list of its rows in order of insertion. The schema of
    sql_init.go is data of the model, and what [REPLACE INTO] does is computed
    from it. The database and the protobuf codec are parameters: [Database]
    gives the error, if any, of the n-th statement, how many rows of its result
    set arrive before fetching fails, and the order of rows with equal sort
    keys; [ProtoCodec] is the codec. Text is compared byte by byte, as sqlite
    does. Scanning a row into variables of the column types does not fail. *)

From stdpp Require Import sorting.
From S2P Require Import Prelude Model Persistence.
Local Open Scope Z_scope.

(** ** sql_init.go: the schema *)

Inductive driver := sqlite3 | mysql.

Record column := { col_name : string; col_type : string; col_not_null : bool; col_primary : bool }.

Inductive ddl :=
  | CreateTable (name : string) (columns : list column) (indexes : list (string * string))
  | CreateIndex (name table column : string).

Definition text_column (name : string) (primary : bool) : column :=
  {| col_name := name; col_type := "varchar(255)"; col_not_null := true; col_primary := primary |}.

Definition events_columns : list column :=
  [text_column "actor_name" false; text_column "event_type" false;
   {| col_name := "event_index"; col_type := "int"; col_not_null := true; col_primary := false |};
   {| col_name := "event"; col_type := "BLOB"; col_not_null := true; col_primary := false |}].
Definition snapshots_columns : list column :=
  [text_column "actor_name" true; text_column "snapshot_type" false;
   {| col_name := "event_index"; col_type := "int"; col_not_null := true; col_primary := false |};
   {| col_name := "snapshot"; col_type := "BLOB"; col_not_null := true; col_primary := false |}].
Definition blobs_columns : list column :=
  [text_column "prefix" false; text_column "blob_id" true;
   {| col_name := "blob_data"; col_type := "BLOB"; col_not_null := false; col_primary := false |}].

Definition tables (d : driver) : list ddl :=
  match d with
  | sqlite3 =>
      [CreateTable "events" events_columns []; CreateIndex "actors" "events" "actor_name";
       CreateTable "snapshots" snapshots_columns []; CreateTable "blobs" blobs_columns []]
  | mysql =>
      [CreateTable "events" events_columns [("actors", "actor_name")];
       CreateTable "snapshots" snapshots_columns []; CreateTable "blobs" blobs_columns []]
  end.

(** The columns with a uniqueness constraint; a plain index has none. *)
Definition primary_key (d : driver) (table : string) : option string :=
  col_name <$> omap (λ stmt,
    match stmt with
    | CreateTable name cols _ =>
        if String.eqb name table then snd <$> list_find (λ c, col_primary c = true) cols else None
    | CreateIndex _ _ _ => None
    end) (tables d) !! 0%nat.

(** [REPLACE INTO]: a row with the same key is deleted first; without a key it
    is an [INSERT]. *)
Definition replace_into {row : Type} (key : option (row → string)) (r : row) (rows : list row) : list row :=
  match key with
  | Some k => filter (λ r', k r' ≠ k r) rows ++ [r]
  | None => rows ++ [r]
  end.

(** ** Rows, codec, database *)

Record event_row (blob : Type) := {
  ev_actor_name : string; ev_event_type : string; ev_event_index : Z; ev_event : blob }.
Record snapshot_row (blob : Type) := {
  sn_actor_name : string; sn_snapshot_type : string; sn_event_index : Z; sn_snapshot : blob }.
Arguments ev_actor_name {blob}.
Arguments ev_event_type {blob}.
Arguments ev_event_index {blob}.
Arguments ev_event {blob}.
Arguments Build_event_row {blob}.
Arguments sn_actor_name {blob}.
Arguments sn_snapshot_type {blob}.
Arguments sn_event_index {blob}.
Arguments sn_snapshot {blob}.
Arguments Build_snapshot_row {blob}.

(** The text columns of the rows by name. *)
Definition event_column {blob} (c : string) : option (event_row blob → string) :=
  if String.eqb c "actor_name" then Some ev_actor_name
  else if String.eqb c "event_type" then Some ev_event_type else None.
Definition snapshot_column {blob} (c : string) : option (snapshot_row blob → string) :=
  if String.eqb c "actor_name" then Some sn_actor_name
  else if String.eqb c "snapshot_type" then Some sn_snapshot_type else None.

(** proto.MessageName, proto.Marshal, proto.MessageType (whether a type of the
    name is registered) and proto.Unmarshal into a new message of that type. *)
Class ProtoCodec (blob : Type) := {
  MessageName : Event → string;
  Marshal : Event → string + blob;
  MessageType : string → bool;
  Unmarshal : string → blob → string + Event;
}.

(** Every event is a registered message that can be marshalled, and
    unmarshalling gives it back. *)
Class ProtoLaws (blob : Type) `{!ProtoCodec blob} : Prop := {
  MessageType_registered e : MessageType (MessageName e) = true;
  Marshal_total e : ∃ b, Marshal e = inr b;
  Unmarshal_Marshal e b : Marshal e = inr b → Unmarshal (MessageName e) b = inr e;
}.

Class Database (blob : Type) := {
  statement_error : nat → option string;
  rows_fetched : nat → option nat;
  order_by_event_index : list (event_row blob) → list (event_row blob);
  order_by_perm l : order_by_event_index l ≡ₚ l;
  order_by_sorted l : Sorted (λ r r', ev_event_index r ≤ ev_event_index r') (order_by_event_index l);
}.

(** A database without failures. *)
Class DatabaseUp (blob : Type) `{!Database blob} : Prop := {
  statement_ok n : statement_error n = None;
  fetch_ok n : rows_fetched n = None;
}.

(** ** sql_provider.go *)

Record sqlProvider (blob : Type) := {
  sql_snapshotInterval : Z;
  sql_driver : driver;
  sql_events : list (event_row blob);
  sql_snapshots : list (snapshot_row blob);
  sql_statements : nat;   (** statements executed so far *)
}.
Arguments sql_snapshotInterval {blob}.
Arguments sql_driver {blob}.
Arguments sql_events {blob}.
Arguments sql_snapshots {blob}.
Arguments sql_statements {blob}.
Arguments Build_sqlProvider {blob}.

(** [NewSQLProvider] over a database with the given contents. *)
Definition NewSQLProvider {blob} (d : driver) (events : list (event_row blob)) (snapshots : list (snapshot_row blob))
    (interval : Z) : sqlProvider blob :=
  Build_sqlProvider interval d events snapshots 0.

Section provider.
Context {blob : Type} `{!ProtoCodec blob} `{!Database blob}.
Abbreviation P := (sqlProvider blob).

Definition set_events (f : list (event_row blob) → list (event_row blob)) (p : P) : P :=
  Build_sqlProvider (sql_snapshotInterval p) (sql_driver p) (f (sql_events p)) (sql_snapshots p) (sql_statements p).
Definition set_snapshots (f : list (snapshot_row blob) → list (snapshot_row blob)) (p : P) : P :=
  Build_sqlProvider (sql_snapshotInterval p) (sql_driver p) (sql_events p) (f (sql_snapshots p)) (sql_statements p).

(** The number of the statement about to be executed. *)
Definition next_statement : M P nat :=
  p ← get_state;
  modify (λ p, Build_sqlProvider (sql_snapshotInterval p) (sql_driver p) (sql_events p) (sql_snapshots p)
    (S (sql_statements p)));;
  mret (sql_statements p).

Definition extractData (msgTypeName : string) (msgBytes : blob) : string + Event :=
  if MessageType msgTypeName then Unmarshal msgTypeName msgBytes
  else inl "Unsupported protocol type %!s(<nil>)".

Definition sql_GetSnapshot (actorName : string) : M P (option (Event * Z)) :=
  n ← next_statement;
  p ← get_state;
  mret (match statement_error n with
        | Some _ => None
        | None =>
            match list_find (λ r, sn_actor_name r = actorName) (sql_snapshots p) with
            | None => None
            | Some (_, r) =>
                match extractData (sn_snapshot_type r) (sn_snapshot r) with
                | inl _ => None
                | inr message => Some (message, sn_event_index r)
                end
            end
        end).

Definition sql_PersistSnapshot (actorName : string) (eventIndex : Z) (snapshot : Event) : M P unit :=
  match Marshal snapshot with
  | inl err => panic (PanicForeign err)
  | inr pbBytes =>
      n ← next_statement;
      match statement_error n with
      | Some err => panic (PanicForeign err)
      | None =>
          p ← get_state;
          modify (set_snapshots (replace_into (primary_key (sql_driver p) "snapshots" ≫= snapshot_column)
            (Build_snapshot_row actorName (MessageName snapshot) eventIndex pbBytes)))
      end
  end.

(** The loop over the rows: events are passed to the callback until a row
    cannot be decoded. (The calls made before that panic are not recorded: the
    state they were replayed into is given up with the panic.) *)
Fixpoint decode_rows (rows : list (event_row blob)) : M P (list (Z * Event)) :=
  match rows with
  | [] => mret []
  | r :: rows =>
      match extractData (ev_event_type r) (ev_event r) with
      | inl _ => panic ErrMarshalling
      | inr msg => rest ← decode_rows rows; mret ((ev_event_index r, msg) :: rest)
      end
  end.

(** [rows.Next] is false after the last row, and also when fetching fails. *)
Definition fetched (n : nat) (rows : list (event_row blob)) : list (event_row blob) :=
  match rows_fetched n with None => rows | Some k => take k rows end.

Definition sql_GetEvents (actorName : string) (eventIndexStart : Z) : M P (list (Z * Event)) :=
  n ← next_statement;
  match statement_error n with
  | Some _ => panic ErrReadingEvents
  | None =>
      p ← get_state;
      decode_rows (fetched n (order_by_event_index
        (filter (λ r, ev_actor_name r = actorName ∧ eventIndexStart ≤ ev_event_index r) (sql_events p))))
  end.

Definition sql_PersistEvent (actorName : string) (eventIndex : Z) (event : Event) : M P unit :=
  match Marshal event with
  | inl _ => panic ErrMarshalling
  | inr pbBytes =>
      n ← next_statement;
      match statement_error n with
      | Some _ => panic ErrPersistenceFailed
      | None =>
          p ← get_state;
          modify (set_events (replace_into (primary_key (sql_driver p) "events" ≫= event_column)
            (Build_event_row actorName (MessageName event) eventIndex pbBytes)))
      end
  end.

#[export] Instance sqlProvider_state : ProviderState P := {|
  GetSnapshotInterval := sql_snapshotInterval;
  GetSnapshot := sql_GetSnapshot;
  GetEvents := sql_GetEvents;
  PersistEvent := sql_PersistEvent;
  PersistSnapshot := sql_PersistSnapshot;
|}.
End provider.

(** ** The SQL provider is reliable and recoverable *)

Definition rows_of {blob} (n : string) (l : list (event_row blob)) : list (event_row blob) :=
  filter (λ r, ev_actor_name r = n) l.

Lemma rows_of_app {blob} n (l l' : list (event_row blob)) : rows_of n (l ++ l') = rows_of n l ++ rows_of n l'.
Proof. apply filter_app. Qed.

(** Neither driver's schema has a key on the events, both have one on the
    snapshots. *)
Lemma events_key d : primary_key d "events" = None.
Proof. by destruct d. Qed.
Lemma snapshots_key d : primary_key d "snapshots" = Some "actor_name".
Proof. by destruct d. Qed.

Section laws.
Context {blob : Type} `{!ProtoCodec blob} `{!Database blob}.
Abbreviation P := (sqlProvider blob).
Implicit Types p : P.

(** The event of a row, if it can be decoded. *)
Definition row_event (r : event_row blob) : option Event :=
  match extractData (ev_event_type r) (ev_event r) with inl _ => None | inr e => Some e end.

Definition sql_journal (n : string) (p : P) : list Event := omap row_event (rows_of n (sql_events p)).

Lemma sql_journal_events n p p' : sql_events p' = sql_events p → sql_journal n p' = sql_journal n p.
Proof. unfold sql_journal. by intros ->. Qed.

Lemma decode_rows_ok (l : list (event_row blob)) es p :
  mapM row_event l = Some es → decode_rows l p = Ret (zip (ev_event_index <$> l) es) p.
Proof.
  revert es. induction l as [|r l IH]; intros es; simpl; [by intros [= <-]|].
  destruct (row_event r) as [e|] eqn:He; simpl; [|done].
  destruct (mapM row_event l) as [es'|]; simpl; [|done]. intros [= <-].
  unfold row_event in He. destruct (extractData _ _); simplify_eq.
  unfold mbind, M_bind. by rewrite (IH es').
Qed.

Context `{!ProtoLaws blob} `{!DatabaseUp blob}.

(** What a statement without failure does. *)
Lemma wp_next_statement (Q : nat → P → Prop) p :
  (∀ n p', sql_events p' = sql_events p → sql_snapshots p' = sql_snapshots p →
     sql_snapshotInterval p' = sql_snapshotInterval p → sql_driver p' = sql_driver p → Q n p') →
  wp next_statement Q p.
Proof. intros HQ. unfold next_statement. by apply wp_bind, wp_get, wp_bind, wp_modify, wp_ret, HQ. Qed.

Definition encoded (n : string) (i : Z) (e : Event) (r : event_row blob) : Prop :=
  ev_actor_name r = n ∧ ev_event_index r = i ∧ row_event r = Some e.

Lemma wp_sql_PersistEvent n i e p (Q : unit → P → Prop) :
  (∀ r p', encoded n i e r → sql_events p' = sql_events p ++ [r] → sql_snapshots p' = sql_snapshots p →
     sql_snapshotInterval p' = sql_snapshotInterval p → sql_driver p' = sql_driver p → Q tt p') →
  wp (sql_PersistEvent n i e) Q p.
Proof.
  intros HQ. unfold sql_PersistEvent. destruct (Marshal_total e) as [b Hb]. rewrite Hb.
  apply wp_bind, wp_next_statement. intros k p1 He Hs Hi Hd. rewrite statement_ok.
  apply wp_bind, wp_get, wp_modify. rewrite Hd, events_key. simpl.
  apply (HQ (Build_event_row n (MessageName e) i b)); simpl; [|by rewrite He|done..].
  split_and!; [done|done|]. unfold row_event, extractData. simpl.
  by rewrite MessageType_registered, (Unmarshal_Marshal _ _ Hb).
Qed.

Lemma rows_of_snoc n m i e (l : list (event_row blob)) r : encoded m i e r →
  rows_of n (l ++ [r]) = rows_of n l ++ (if decide (m = n) then [r] else []).
Proof.
  intros (<- & _ & _). unfold rows_of. by rewrite filter_app, filter_cons, filter_nil.
Qed.

Lemma sql_journal_snoc n m i e r p p' : encoded m i e r → sql_events p' = sql_events p ++ [r] →
  sql_journal n p' = sql_journal n p ++ (if decide (m = n) then [e] else []).
Proof.
  intros Hr He. unfold sql_journal. rewrite He, (rows_of_snoc n m i e) by done. rewrite omap_app.
  case_decide; [|done]. destruct Hr as (_ & _ & Hr). by rewrite list_omap_cons, Hr.
Qed.

#[export] Instance sql_reliable : ReliableProvider P.
Proof using ProtoLaws0 DatabaseUp0.
  refine {| journal := sql_journal |}.
  intros n i e p. apply wp_sql_PersistEvent. intros r p' Hr He _ Hi _. split_and!; [| |done].
  - by rewrite (sql_journal_snoc n n i e r p p' Hr He), decide_True.
  - intros n' Hne. by rewrite (sql_journal_snoc n' n i e r p p' Hr He), decide_False, app_nil_r.
Defined.

(** The rows of an actor hold its journal, numbered consecutively. *)
Definition numbered (n : string) (p : P) : Prop :=
  let l := rows_of n (sql_events p) in
  mapM row_event l = Some (sql_journal n p) ∧ ev_event_index <$> l = seqZ 0 (Z.of_nat (length l)).

Lemma numbered_length n p : numbered n p → length (sql_journal n p) = length (rows_of n (sql_events p)).
Proof. intros [H _]. symmetry. by eapply length_mapM. Qed.

Lemma numbered_events n p p' : sql_events p' = sql_events p → numbered n p → numbered n p'.
Proof. unfold numbered, sql_journal. by intros ->. Qed.

Lemma numbered_snoc n m i e r p p' :
  encoded m i e r → sql_events p' = sql_events p ++ [r] → numbered n p →
  (m = n → i = Z.of_nat (length (sql_journal m p))) → numbered n p'.
Proof.
  intros Hr He Hn Hi. pose proof (numbered_length n p Hn) as Hlen. destruct Hn as [Hm Hx]. unfold numbered.
  rewrite (sql_journal_snoc n m i e r p p' Hr He), He, (rows_of_snoc n m i e) by done.
  case_decide as Hmn; [subst m|by rewrite !app_nil_r].
  split.
  - apply mapM_Some. apply Forall2_app; [by apply mapM_Some|]. repeat constructor. by destruct Hr as (_ & _ & ->).
  - rewrite fmap_app, Hx, length_app. simpl. destruct Hr as (_ & -> & _). rewrite Hi, Hlen by done.
    rewrite Nat2Z.inj_add, seqZ_app by lia. f_equal.
Qed.

Lemma filter_from_index (l : list (event_row blob)) a t :
  ev_event_index <$> l = seqZ a (Z.of_nat (length l)) →
  filter (λ r, t ≤ ev_event_index r) l = drop (Z.to_nat (t - a)) l.
Proof.
  revert a. induction l as [|r l IH]; intros a; simpl; [by rewrite drop_nil|].
  rewrite seqZ_cons by lia. intros [= Ha Hl]. rewrite Nat2Z.inj_succ, Z.pred_succ in Hl.
  rewrite filter_cons, (IH (Z.succ a)) by done. case_decide as Ht.
  - replace (Z.to_nat (t - Z.succ a)) with 0%nat by lia. by replace (Z.to_nat (t - a)) with 0%nat by lia.
  - replace (Z.to_nat (t - a)) with (S (Z.to_nat (t - Z.succ a))) by lia. done.
Qed.

(** A sorted list of rows with distinct, increasing indices has only itself as
    a sorted permutation. *)
Lemma ordered_already (l l' : list (event_row blob)) a :
  ev_event_index <$> l = seqZ a (Z.of_nat (length l)) → l' ≡ₚ l →
  Sorted (λ r r', ev_event_index r ≤ ev_event_index r') l' → l' = l.
Proof.
  intros Hx Hp Hs. assert (Transitive (λ r r' : event_row blob, ev_event_index r ≤ ev_event_index r')) as Ht.
  { intros x y z. lia. }
  assert (∀ i r, l !! i = Some r → ev_event_index r = a + Z.of_nat i) as Hi.
  { intros i r Hr. assert ((ev_event_index <$> l) !! i = Some (ev_event_index r)) as H by by rewrite list_lookup_fmap, Hr.
    rewrite Hx in H. apply lookup_seqZ in H. lia. }
  apply (Sorted_unique_strong (λ r r' : event_row blob, ev_event_index r ≤ ev_event_index r')); [| done| |done].
  - intros r r' Hr Hr' H1 H2. rewrite Hp in Hr. apply list_elem_of_lookup in Hr as [i Hr], Hr' as [j Hr'].
    pose proof (Hi _ _ Hr). pose proof (Hi _ _ Hr'). assert (i = j) as -> by lia. congruence.
  - clear Hp Hs Hi l'. revert a Hx. induction l as [|r l IH]; intros a; [by constructor|]. simpl.
    rewrite seqZ_cons by lia. intros [= Ha Hl]. rewrite Nat2Z.inj_succ, Z.pred_succ in Hl.
    constructor; [by apply (IH (Z.succ a))|]. destruct l as [|r' l]; constructor. simpl in Hl.
    rewrite seqZ_cons in Hl by lia. injection Hl. lia.
Qed.

Lemma seqZ_drop k a n : drop k (seqZ a (Z.of_nat n)) = seqZ (a + Z.of_nat k) (Z.of_nat (n - k)).
Proof.
  apply list_eq. intros i. rewrite lookup_drop. apply option_eq. intros x. rewrite !lookup_seqZ. lia.
Qed.

Lemma mapM_drop {A B} (f : A → option B) k l es : mapM f l = Some es → mapM f (drop k l) = Some (drop k es).
Proof. rewrite !mapM_Some. apply Forall2_drop. Qed.

(** The query for a numbered journal from index [t] on selects a suffix of its
    rows, already in order. *)
Lemma select_numbered n t p :
  numbered n p →
  order_by_event_index (filter (λ r, ev_actor_name r = n ∧ t ≤ ev_event_index r) (sql_events p))
  = drop (Z.to_nat t) (rows_of n (sql_events p)).
Proof.
  intros [_ Hx]. set (l := rows_of n (sql_events p)) in *. set (k := Z.to_nat t) in *.
  assert (filter (λ r, ev_actor_name r = n ∧ t ≤ ev_event_index r) (sql_events p) = drop k l) as ->.
  { pose proof (filter_from_index _ 0 t Hx) as Hf. rewrite Z.sub_0_r in Hf. unfold k. rewrite <- Hf. unfold l, rows_of.
    rewrite list_filter_filter. apply list_filter_iff. naive_solver. }
  apply (ordered_already _ _ (Z.of_nat k)); [|apply order_by_perm|apply order_by_sorted].
  rewrite fmap_drop, Hx, length_drop. apply seqZ_drop.
Qed.

(** Decoding rows of a numbered journal. *)
Lemma decode_numbered n k m p p' :
  numbered n p →
  decode_rows (take m (drop k (rows_of n (sql_events p)))) p'
  = Ret (imap (λ i e, (Z.of_nat (k + i), e)) (take m (drop k (sql_journal n p)))) p'.
Proof.
  intros [Hm Hx]. set (l := rows_of n (sql_events p)) in *.
  assert (mapM row_event (take m (drop k l)) = Some (take m (drop k (sql_journal n p)))) as Hm'.
  { apply mapM_Some, Forall2_take, Forall2_drop, mapM_Some, Hm. }
  rewrite (decode_rows_ok _ _ _ Hm'). f_equal. apply list_eq. intros i.
  rewrite list_lookup_imap. destruct (take m (drop k (sql_journal n p)) !! i) as [e|] eqn:Hi; simpl.
  - apply lookup_zip_with_Some. do 2 eexists. split_and!; [done| |done].
    pose proof (length_mapM _ _ _ Hm') as Hlen. pose proof (lookup_lt_Some _ _ _ Hi) as Hlt. rewrite <- Hlen in Hlt.
    rewrite length_take, length_drop in Hlt.
    rewrite fmap_take, lookup_take, decide_True by lia. rewrite fmap_drop, lookup_drop, Hx. apply lookup_seqZ. lia.
  - apply lookup_zip_with_None. by right.
Qed.

Lemma wp_sql_GetEvents n t p (Q : list (Z * Event) → P → Prop) :
  numbered n p →
  (∀ p', let k := Z.to_nat t in
     sql_events p' = sql_events p → sql_snapshots p' = sql_snapshots p →
     sql_snapshotInterval p' = sql_snapshotInterval p → sql_driver p' = sql_driver p →
     Q (imap (λ i e, (Z.of_nat (k + i), e)) (drop k (sql_journal n p))) p') →
  wp (sql_GetEvents n t) Q p.
Proof using ProtoLaws0 DatabaseUp0.
  intros Hn HQ. unfold sql_GetEvents. apply wp_bind, wp_next_statement. intros c p1 He Hs Hi Hd.
  rewrite statement_ok. apply wp_bind, wp_get. rewrite He, select_numbered by done.
  unfold fetched. rewrite fetch_ok. apply wp_run. do 2 eexists. split; [|by apply HQ].
  pose proof (decode_numbered n (Z.to_nat t) (length (rows_of n (sql_events p))) p p1 Hn) as Hd'.
  rewrite !take_ge in Hd'; [exact Hd'| |]; rewrite length_drop, ?numbered_length by done; lia.
Qed.

(** ** Snapshots *)

(** The snapshot of an actor, if it has one that can be decoded. *)
Definition sql_snapshot (n : string) (p : P) : option (Event * Z) :=
  match list_find (λ r, sn_actor_name r = n) (sql_snapshots p) with
  | None => None
  | Some (_, r) =>
      match extractData (sn_snapshot_type r) (sn_snapshot r) with
      | inl _ => None
      | inr e => Some (e, sn_event_index r)
      end
  end.

Lemma sql_snapshot_same n p p' : sql_snapshots p' = sql_snapshots p → sql_snapshot n p' = sql_snapshot n p.
Proof. unfold sql_snapshot. by intros ->. Qed.

Lemma find_cons {A} (Q : A → Prop) `{!∀ x, Decision (Q x)} x l :
  snd <$> list_find Q (x :: l) = if decide (Q x) then Some x else snd <$> list_find Q l.
Proof. simpl. case_decide; [done|]. by destruct (list_find Q l) as [[]|]. Qed.

(** The row found for a name after [REPLACE INTO] on that key. *)
Lemma find_replaced n (r : snapshot_row blob) l :
  snd <$> list_find (λ r, sn_actor_name r = n) (replace_into (Some sn_actor_name) r l)
  = if decide (sn_actor_name r = n) then Some r else snd <$> list_find (λ r, sn_actor_name r = n) l.
Proof.
  unfold replace_into. induction l as [|x l IH]; [by rewrite filter_nil, app_nil_l, find_cons|].
  rewrite find_cons, filter_cons. destruct (decide (sn_actor_name x ≠ sn_actor_name r)) as [Hx|Hx].
  - simpl app. rewrite find_cons, IH. repeat case_decide; congruence.
  - rewrite IH. repeat case_decide; naive_solver congruence.
Qed.

Lemma wp_sql_PersistSnapshot n i e p (Q : unit → P → Prop) :
  (∀ p', sql_events p' = sql_events p → sql_snapshotInterval p' = sql_snapshotInterval p →
     (∀ m, sql_snapshot m p' = if decide (n = m) then Some (e, i) else sql_snapshot m p) → Q tt p') →
  wp (sql_PersistSnapshot n i e) Q p.
Proof using ProtoLaws0 DatabaseUp0.
  intros HQ. unfold sql_PersistSnapshot. destruct (Marshal_total e) as [b Hb]. rewrite Hb.
  apply wp_bind, wp_next_statement. intros k p1 He Hs Hi Hd. rewrite statement_ok.
  apply wp_bind, wp_get, wp_modify. rewrite Hd, snapshots_key. apply HQ; [done|done|]. intros m.
  unfold sql_snapshot. cbn [sql_snapshots set_snapshots]. rewrite Hs. change (Some "actor_name" ≫= snapshot_column) with (Some (@sn_actor_name blob)).
  pose proof (find_replaced m (Build_snapshot_row n (MessageName e) i b) (sql_snapshots p)) as Hf.
  destruct (list_find _ (replace_into _ _ _)) as [[? r]|]; simpl in Hf; case_decide; simplify_eq.
  - unfold extractData. simpl. by rewrite MessageType_registered, (Unmarshal_Marshal _ _ Hb).
  - by destruct (list_find _ (sql_snapshots p)) as [[? ?]|]; simplify_eq/=.
  - by destruct (list_find _ (sql_snapshots p)) as [[? ?]|]; simplify_eq/=.
Qed.

Lemma wp_sql_GetSnapshot n p (Q : option (Event * Z) → P → Prop) :
  (∀ p', sql_events p' = sql_events p → sql_snapshots p' = sql_snapshots p →
     sql_snapshotInterval p' = sql_snapshotInterval p → Q (sql_snapshot n p) p') →
  wp (sql_GetSnapshot n) Q p.
Proof using ProtoLaws0 DatabaseUp0.
  intros HQ. unfold sql_GetSnapshot. apply wp_bind, wp_next_statement. intros k p1 He Hs Hi Hd.
  apply wp_bind, wp_get, wp_ret. rewrite statement_ok, Hs. by apply HQ.
Qed.

#[export] Instance sql_recoverable : RecoverableProvider P.
Proof using ProtoLaws0 DatabaseUp0.
  refine {| replayable n p := numbered n p ∧ sql_snapshot n p = None |}.
  - intros n' n i e p [Hn Hs] Hi. apply wp_sql_PersistEvent. intros r p' Hr He Hsn _ _. split.
    + by eapply numbered_snoc.
    + by rewrite (sql_snapshot_same _ _ _ Hsn).
  - intros n p [Hn Hs]. apply wp_sql_GetSnapshot. intros p' He Hsn Hi.
    split; [done|]. split; [|by split; [apply sql_journal_events|]].
    split; [by eapply numbered_events|]. by rewrite (sql_snapshot_same _ _ _ Hsn).
  - intros n p [Hn Hs]. apply wp_sql_GetEvents; [done|]. intros p' k He Hsn Hi _.
    split; [by rewrite drop_0|]. split; [|by split; [apply sql_journal_events|]].
    split; [by eapply numbered_events|]. by rewrite (sql_snapshot_same _ _ _ Hsn).
Defined.
End laws.
