(* ===== verification/GraphActor.v ===== *)
(** * The graph actor (src/actor/graph.go)

    One actor owns one graph. It validates commands, turns them into events,
    persists every event before applying it to the graph, and implements the
    graph's listener by doing the same re-entrantly: a callback persists an
    event and calls [UpdateWithEvent] on the graph that is calling it. The
    re-entrant calls are bounded by fuel: [listener n] is the listener whose
    own updates use [listener (n - 1)].

    Everything the actor sends (to the executor, to itself, to its supervisor,
    to the requester) is recorded, in order, in [ga_effects]. *)

From S2P Require Import Prelude Model Stage Graph Persistence.

(** Readings of the system clock, in nanoseconds since the epoch. *)
Class Clock := { time_Now : nat → Z }.

Definition second : Z := 1000000000.
Definition commitTimeout : Z := (5 * 60 * second)%Z.
Definition completionTimeout : Z := (24 * 3600 * second)%Z.
Definition readTimeout : Z := (5 * 60 * second)%Z.

Inductive Effect :=
  | ToExecutor (r : ExecutorRequest)
  | TellSelf (c : Command)
  | TellSelfAfter (nanos : Z) (c : Command)
  | TellParent (c : Command)
  | Respond (r : Response)
  | AwaitFuture (stage : stage_ptr) (flowId stageId : string)
  | SetReceiveTimeout (nanos : Z)
  | GracefulStop.

(** The messages a graph actor can be sent. *)
Inductive Message :=
  | MCommand (c : Command)
  | MEvent (e : Event)
  | MRequestSnapshot
  | MStarted
  | MReceiveTimeout
  | MReplayComplete
  | MUnknown.

Record graphActor (P : Type) := {
  ga_graph : option CompletionGraph;
  ga_persistence : persistent P;
  ga_effects : list Effect;
  ga_clock : nat;
}.
Arguments ga_graph {P}.
Arguments ga_persistence {P}.
Arguments ga_effects {P}.
Arguments ga_clock {P}.
Arguments Build_graphActor {P}.

(** The continuation given to [context.AwaitFuture]. *)
Definition await_continuation (flowId stageId : string) (result : option CompletionResult) (err : bool) : Response :=
  if err then RError (NewAwaitStageError flowId stageId)
  else RAwaitStageResult flowId stageId result.

(** [createExternalState] *)
Definition stage_status (s : CompletionStage) : string :=
  if IsFailed s then "failed"
  else if IsSuccessful s then "successful"
  else if IsTriggered s then "running"
  else "pending".

Definition stage_representation (g : CompletionGraph) (s : CompletionStage) : StageRepresentation :=
  {| rep_Type := CompletionOperation_name (stage_operation s);
     rep_Status := stage_status s;
     rep_Dependencies := omap (λ d, GetID <$> load_dep g d) (stage_dependencies s) |}.

Definition createExternalState (g : CompletionGraph) : Response :=
  RGetGraphState (gr_ID g) (gr_FunctionID g)
    (list_to_map ((λ s, (stage_ID s, stage_representation g s)) <$> GetStages g)).

Section GraphActor.
Context {P : Type} `{!ProviderState P} `{!MapOrder} `{!Clock}.
Abbreviation A := (graphActor P).

Definition put_persistence (q : persistent P) (s : A) : A :=
  Build_graphActor (ga_graph s) q (ga_effects s) (ga_clock s).
#[global] Instance graphActor_has_graph : HasGraph A := {|
  graph_of := ga_graph;
  put_graph := λ g s, Build_graphActor (Some g) (ga_persistence s) (ga_effects s) (ga_clock s);
  graph_of_put := λ g s, eq_refl;
|}.

Definition emit (e : Effect) : M A unit :=
  modify (λ s, Build_graphActor (ga_graph s) (ga_persistence s) (ga_effects s ++ [e]) (ga_clock s)).
Definition now : M A Z :=
  s ← get_state;
  modify (λ s, Build_graphActor (ga_graph s) (ga_persistence s) (ga_effects s) (S (ga_clock s)));;
  mret (time_Now (ga_clock s)).
Definition stamp : M A (option Timestamp) := t ← now; mret (Some (currentTimestamp t)).
Definition timeMillis : M A Z := t ← now; mret (Z.quot t 1000000).
Definition persist (e : Event) : M A unit := zoom ga_persistence put_persistence (PersistReceive e).
Definition recovering : M A bool := s ← get_state; mret (Recovering (ga_persistence s)).

(** [persistAndUpdateGraph], given the graph's [UpdateWithEvent]. *)
Definition persistAndUpdate_with (update : Event → bool → M A unit) (event : Event) : M A unit :=
  s ← get_state;
  match ga_graph s with
  | None => mret tt
  | Some _ =>
      persist event;;
      r ← recovering;
      update event (negb r)
  end.

(** The five callbacks, given [persistAndUpdateGraph]. *)
Definition actor_listener (persistAndUpdateGraph : Event → M A unit) : CompletionEventListener A := {|
  OnExecuteStage stage results :=
    ts ← stamp;
    g ← get_graph;
    s ← get_stage stage;
    persist (EFaasInvocationStarted {|
      started_FlowId := gr_ID g; started_StageId := stage_ID s;
      started_Ts := ts; started_FunctionId := gr_FunctionID g |});;
    emit (ToExecutor (InvokeStage {|
      istage_FunctionId := gr_FunctionID g; istage_FlowId := gr_ID g;
      istage_StageId := stage_ID s; istage_Args := results;
      istage_Closure := stage_closure s |}));
  OnCompleteStage stage result :=
    ts ← stamp;
    g ← get_graph;
    s ← get_stage stage;
    persistAndUpdateGraph (EStageCompleted {|
      stagecompleted_FlowId := gr_ID g; stagecompleted_StageId := stage_ID s;
      stagecompleted_Result := result; stagecompleted_Ts := ts |});
  OnComposeStage stage composedStage :=
    ts ← stamp;
    g ← get_graph;
    s ← get_stage stage;
    c ← get_stage composedStage;
    persistAndUpdateGraph (EStageComposed {|
      composed_FlowId := gr_ID g; composed_StageId := stage_ID s;
      composed_ComposedStageId := stage_ID c; composed_Ts := ts |});
  OnGraphExecutionFinished :=
    r ← recovering;
    if r : bool then mret tt
    else
      ts ← stamp;
      g ← get_graph;
      persistAndUpdateGraph (EGraphTerminating {|
        terminating_FlowId := gr_ID g; terminating_FunctionId := gr_FunctionID g;
        terminating_Status := succeeded; terminating_Ts := ts |});
  OnGraphComplete :=
    r ← recovering;
    if r : bool then mret tt
    else
      ts ← stamp;
      g ← get_graph;
      persistAndUpdateGraph (EGraphCompleted {|
        completed_FlowId := gr_ID g; completed_FunctionId := gr_FunctionID g;
        completed_Ts := ts |});;
      g ← get_graph;
      emit (TellSelf (CDeactivateGraph (gr_ID g)));
|}.

(** The listener of a graph whose re-entrant depth is at most [n]. *)
Fixpoint listener (n : nat) : CompletionEventListener A :=
  match n with
  | 0 => {| OnExecuteStage _ _ := no_fuel; OnCompleteStage _ _ := no_fuel;
            OnComposeStage _ _ := no_fuel; OnGraphExecutionFinished := no_fuel;
            OnGraphComplete := no_fuel |}
  | S n => actor_listener (persistAndUpdate_with (UpdateWithEvent (listener n)))
  end.

Definition persistAndUpdateGraph (n : nat) (event : Event) : M A unit :=
  persistAndUpdate_with (UpdateWithEvent (listener n)) event.

Definition initGraph (event : GraphCreatedEvent) : M A unit :=
  t ← now;
  modify (put_graph (New (created_FlowId event) (created_FunctionId event) t)).

Definition scheduleDelay (event : DelayScheduledEvent) : M A unit :=
  ms ← timeMillis;
  let delayMs := int64 (delay_TimeMs event - ms) in
  let delayReq := CCompleteDelayStage {|
    cdelay_FlowId := delay_FlowId event; cdelay_StageId := delay_StageId event;
    cdelay_Result := Some NewEmptyResult |} in
  if (0 <? delayMs)%Z
  then emit (TellSelfAfter (int64 (delayMs * 1000000)) delayReq)
  else emit (TellSelf delayReq).

Definition receiveEvent (n : nat) (event : Event) : M A unit :=
  match event with
  | EGraphCreated e => initGraph e
  | EDelayScheduled e => scheduleDelay e
  | e =>
      s ← get_state;
      match ga_graph s with
      | None => panic (PanicString "Trying to replay event but graph is not initialized")
      | Some _ => UpdateWithEvent (listener n) e false
      end
  end.

Definition validateCmd (cmd : Command) : M A bool :=
  s ← get_state;
  match cmd with
  | CCreateGraph msg =>
      match ga_graph s with
      | Some _ => emit (Respond (RError (NewGraphAlreadyExistsError (create_FlowId msg))));; mret false
      | None => mret true
      end
  | msg =>
      match ga_graph s with
      | None => emit (Respond (RError (NewGraphNotFoundError (GetFlowId msg))));; mret false
      | Some _ =>
          validationError ← ValidateCommand msg;
          match validationError with
          | Some e => emit (Respond (RError e));; mret false
          | None => mret true
          end
      end
  end.

(** The [StageAddedEvent] of a command, built with the next stage id. *)
Definition stage_added (flowId stageId : string) (op : CompletionOperation)
    (closure : option BlobDatum) (deps : list string) (ts : option Timestamp)
    (codeLocation callerId : string) : Event :=
  EStageAdded {| added_FlowId := flowId; added_StageId := stageId; added_Op := op;
                 added_Closure := closure; added_Dependencies := deps; added_Ts := ts;
                 added_CodeLocation := codeLocation; added_CallerId := callerId |}.

Definition stage_completed (flowId stageId : string) (result : option CompletionResult)
    (ts : option Timestamp) : Event :=
  EStageCompleted {| stagecompleted_FlowId := flowId; stagecompleted_StageId := stageId;
                     stagecompleted_Result := result; stagecompleted_Ts := ts |}.

(** ** The cases of [receiveCommand], after validation *)

Definition receive_CreateGraph (msg : CreateGraphRequest) : M A unit :=
  ts ← stamp;
  let event := {| created_FlowId := create_FlowId msg;
                  created_FunctionId := create_FunctionId msg; created_Ts := ts |} in
  persist (EGraphCreated event);;
  initGraph event;;
  emit (Respond (RCreateGraph (create_FlowId msg))).
Definition receive_GetGraphState (flowId : string) : M A unit :=
  g ← get_graph;
  emit (Respond (createExternalState g)).
Definition receive_AddStage (n : nat) (msg : AddStageRequest) : M A unit :=
  g ← get_graph;
  let stageID := NextStageID g in
  ts ← stamp;
  persistAndUpdateGraph n (stage_added (add_FlowId msg) stageID (add_Operation msg)
    (add_Closure msg) (add_Deps msg) ts (add_CodeLocation msg) (add_CallerId msg));;
  emit (Respond (RAddStage (add_FlowId msg) stageID)).
Definition receive_AddCompletedValueStage (n : nat) (msg : AddCompletedValueStageRequest) : M A unit :=
  g ← get_graph;
  let stageID := NextStageID g in
  ts ← stamp;
  persistAndUpdateGraph n (stage_added (value_FlowId msg) stageID completedValue None [] ts
    (value_CodeLocation msg) (value_CallerId msg));;
  ts ← stamp;
  persistAndUpdateGraph n (stage_completed (value_FlowId msg) stageID (value_Value msg) ts);;
  emit (Respond (RAddStage (value_FlowId msg) stageID)).
Definition receive_AddDelayStage (n : nat) (msg : AddDelayStageRequest) : M A unit :=
  g ← get_graph;
  let stageID := NextStageID g in
  ts ← stamp;
  persistAndUpdateGraph n (stage_added (adddelay_FlowId msg) stageID delay None [] ts
    (adddelay_CodeLocation msg) (adddelay_CallerId msg));;
  ms ← timeMillis;
  ts ← stamp;
  let delayEvent := {| delay_FlowId := adddelay_FlowId msg; delay_StageId := stageID;
                       delay_TimeMs := int64 (ms + adddelay_DelayMs msg); delay_Ts := ts |} in
  persist (EDelayScheduled delayEvent);;
  scheduleDelay delayEvent;;
  emit (Respond (RAddStage (adddelay_FlowId msg) stageID)).
Definition receive_AddInvokeFunctionStage (n : nat) (msg : AddInvokeFunctionStageRequest) : M A unit :=
  g ← get_graph;
  let stageID := NextStageID g in
  ts ← stamp;
  persistAndUpdateGraph n (stage_added (invoke_FlowId msg) stageID invokeFunction None [] ts
    (invoke_CodeLocation msg) (invoke_CallerId msg));;
  ts ← stamp;
  persist (EFaasInvocationStarted {|
    started_FlowId := invoke_FlowId msg; started_StageId := stageID;
    started_Ts := ts; started_FunctionId := invoke_FunctionId msg |});;
  emit (ToExecutor (InvokeFunction {|
    ifun_FlowId := invoke_FlowId msg; ifun_StageId := stageID;
    ifun_FunctionId := invoke_FunctionId msg; ifun_Arg := invoke_Arg msg |}));;
  emit (Respond (RAddStage (invoke_FlowId msg) stageID)).
Definition receive_CompleteStageExternally (n : nat) (msg : CompleteStageExternallyRequest) : M A unit :=
  g ← get_graph;
  p ← deref (GetStage g (ext_StageId msg));
  s ← get_stage p;
  let completable := negb (IsResolved s) in
  (if completable then
     ts ← stamp;
     persistAndUpdateGraph n (stage_completed (ext_FlowId msg) (ext_StageId msg) (ext_Value msg) ts)
   else mret tt);;
  emit (Respond (RCompleteStageExternally (ext_FlowId msg) (ext_StageId msg) completable)).
Definition receive_CommitGraph (n : nat) (flowId : string) : M A unit :=
  g ← get_graph;
  if IsCommitted g then emit (Respond (RGraphRequestProcessed flowId))
  else
    ts ← stamp;
    persistAndUpdateGraph n (EGraphCommitted {| committed_FlowId := flowId; committed_Ts := ts |});;
    emit (SetReceiveTimeout completionTimeout);;
    emit (Respond (RGraphRequestProcessed flowId)).
Definition receive_AwaitStageResult (msg : AwaitStageResultRequest) : M A unit :=
  g ← get_graph;
  p ← deref (GetStage g (await_StageId msg));
  emit (AwaitFuture p (await_FlowId msg) (await_StageId msg)).
Definition receive_CompleteDelayStage (n : nat) (msg : CompleteDelayStageRequest) : M A unit :=
  g ← get_graph;
  already ← match GetStage g (cdelay_StageId msg) with
            | Some p => s ← get_stage p; mret (IsResolved s)
            | None => mret false
            end;
  if already : bool then mret tt
  else
    ts ← stamp;
    persistAndUpdateGraph n (stage_completed (cdelay_FlowId msg) (cdelay_StageId msg) (cdelay_Result msg) ts).
Definition receive_FaasInvocationResponse (n : nat) (msg : FaasInvocationResponse) : M A unit :=
  ts ← stamp;
  persistAndUpdateGraph n (EFaasInvocationCompleted {|
    invoked_FlowId := faas_FlowId msg; invoked_StageId := faas_StageId msg;
    invoked_Result := faas_Result msg; invoked_Ts := ts; invoked_CallId := faas_CallId msg |}).
Definition receive_DeactivateGraph (flowId : string) : M A unit :=
  emit (TellParent (CDeactivateGraph flowId)).

(** The switch on the type of the command. *)
Definition executeCommand (n : nat) (cmd : Command) : M A unit :=
  match cmd with
  | CCreateGraph msg => receive_CreateGraph msg
  | CGetGraphState flowId => receive_GetGraphState flowId
  | CAddStage msg => receive_AddStage n msg
  | CAddCompletedValueStage msg => receive_AddCompletedValueStage n msg
  | CAddDelayStage msg => receive_AddDelayStage n msg
  | CAddInvokeFunctionStage msg => receive_AddInvokeFunctionStage n msg
  | CCompleteStageExternally msg => receive_CompleteStageExternally n msg
  | CCommitGraph flowId => receive_CommitGraph n flowId
  | CAwaitStageResult msg => receive_AwaitStageResult msg
  | CCompleteDelayStage msg => receive_CompleteDelayStage n msg
  | CFaasInvocationResponse msg => receive_FaasInvocationResponse n msg
  | CDeactivateGraph flowId => receive_DeactivateGraph flowId
  | COther _ => mret tt
  end.

Definition receiveCommand (n : nat) (cmd : Command) : M A unit :=
  valid ← validateCmd cmd;
  if valid : bool then executeCommand n cmd else mret tt.

Definition receiveMessage (n : nat) (msg : Message) : M A unit :=
  match msg with
  | MRequestSnapshot => mret tt
  | MStarted => emit (SetReceiveTimeout commitTimeout)
  | MReceiveTimeout =>
      s ← get_state;
      match ga_graph s with
      | Some g => emit (TellParent (CDeactivateGraph (gr_ID g)))
      | None => emit GracefulStop
      end
  | MReplayComplete =>
      s ← get_state;
      match ga_graph s with
      | Some _ =>
          Recover (listener n);;
          g ← get_graph;
          if IsCompleted g then emit (SetReceiveTimeout readTimeout)
          else emit (SetReceiveTimeout completionTimeout)
      | None => mret tt
      end
  | _ => mret tt
  end.

(** [Receive]. An event also satisfies the [Command] interface (it has a flow
    id), so outside recovery it is handled as a command of unknown type. *)
Definition Receive (n : nat) (msg : Message) : M A unit :=
  r ← recovering;
  if r : bool then
    match msg with MEvent e => receiveEvent n e | _ => mret tt end
  else
    match msg with
    | MCommand c => receiveCommand n c
    | MEvent e => receiveCommand n (COther (event_FlowId e))
    | m => receiveMessage n m
    end.

(** receiver.go, [Using]: [Started] first reaches the actor, then starts the
    recovery; after any other message a pending snapshot request is sent. *)
Definition Using (n : nat) (selfId : string) (msg : Message) : M A unit :=
  match msg with
  | MStarted =>
      Receive n MStarted;;
      init ga_persistence put_persistence (λ e, Receive n (MEvent e)) (Receive n MReplayComplete) selfId
  | m =>
      Receive n m;;
      s ← get_state;
      if isSnapshotRequested (ga_persistence s)
      then on_mixin ga_persistence put_persistence (set_snapshotRequested false);;
           Receive n MRequestSnapshot
      else mret tt
  end.

(** A new actor instance ([NewGraphActor]) over a provider. *)
Definition NewGraphActor (p : P) : A :=
  {| ga_graph := None;
     ga_persistence := Build_persistent
       {| mx_eventIndex := 0; mx_name := ""; mx_recovering := false; mx_snapshotRequested := false |} p;
     ga_effects := []; ga_clock := 0 |}.
End GraphActor.

(** A command down to the body of its case. *)
Ltac unfold_command := unfold executeCommand, receive_CreateGraph, receive_GetGraphState, receive_AddStage, receive_AddCompletedValueStage, receive_AddDelayStage,
  receive_AddInvokeFunctionStage, receive_CompleteStageExternally, receive_CommitGraph,
  receive_AwaitStageResult, receive_CompleteDelayStage, receive_FaasInvocationResponse, receive_DeactivateGraph.
Tactic Notation "unfold_command" "in" hyp(H) := unfold executeCommand, receive_CreateGraph, receive_GetGraphState, receive_AddStage, receive_AddCompletedValueStage, receive_AddDelayStage,
  receive_AddInvokeFunctionStage, receive_CompleteStageExternally, receive_CommitGraph,
  receive_AwaitStageResult, receive_CompleteDelayStage, receive_FaasInvocationResponse, receive_DeactivateGraph in H.
