(* ===== verification/ActorSpec.v ===== *)
(** * The graph actor meets the graph's contract

    The actor's callbacks, which persist an event and apply it re-entrantly to
    the graph that called them, satisfy [ListenerSpec]: [listener n] handles
    any graph of weight below [n]. *)

From S2P Require Import Prelude Model Stage StageFacts Graph GraphFacts GraphGrowth.
From S2P Require Import GraphSpec Persistence GraphActor.

Section actor_spec.
Context {P : Type} `{!ProviderState P} `{!ReliableProvider P} `{!MapOrder} `{!Clock}.
Abbreviation A := (graphActor P).
Implicit Types s : A.

(** The actor is past recovery and its provider's snapshot interval is not 0. *)
Definition live (s : A) : Prop :=
  Recovering (ga_persistence s) = false
  ∧ GetSnapshotInterval (pers_provider (ga_persistence s)) ≠ 0%Z.

Definition actor_journal (s : A) : list Event :=
  journal (Name (ga_persistence s)) (pers_provider (ga_persistence s)).

(** A request sent to the executor concerns a stage that can take its
    response, and a delay that will be told to the actor concerns a stage of
    the graph. *)
Definition invocable (g : CompletionGraph) (id : string) : Prop :=
  ∃ p x, GetStage g id = Some p ∧ gr_objects g !! p = Some x ∧ parent_resolved g x ∧ takes_result x.

Definition was_triggered (g : CompletionGraph) (id : string) : Prop :=
  ∃ p x, GetStage g id = Some p ∧ gr_objects g !! p = Some x ∧ stage_triggered x = true.

Definition answerable (g : CompletionGraph) (ef : Effect) : Prop :=
  match ef with
  | ToExecutor (InvokeStage r) => invocable g (istage_StageId r) ∧ was_triggered g (istage_StageId r)
  | ToExecutor (InvokeFunction r) => invocable g (ifun_StageId r)
  | TellSelf (CCompleteDelayStage m) | TellSelfAfter _ (CCompleteDelayStage m) =>
      is_Some (GetStage g (cdelay_StageId m)) ∧ is_Some (cdelay_Result m)
  | _ => True
  end.

(** The stages whose closure has been sent for execution, in order. *)
Definition executions (effects : list Effect) : list string :=
  omap (λ ef, match ef with ToExecutor (InvokeStage r) => Some (istage_StageId r) | _ => None end) effects.

Definition actor_ok (g : CompletionGraph) (s : A) : Prop :=
  live s ∧ Forall (answerable g) (ga_effects s) ∧ NoDup (executions (ga_effects s)).

Lemma answerable_mono g g' ef :
  (∀ id, invocable g id → invocable g' id) → (∀ id, was_triggered g id → was_triggered g' id) →
  (∀ id, is_Some (GetStage g id) → is_Some (GetStage g' id)) →
  answerable g ef → answerable g' ef.
Proof. intros Hinv Htr Hget. destruct ef as [[|]|[]|? []| | | | | ]; simpl; naive_solver. Qed.

Lemma invocable_evolves g g' id : evolves g g' → invocable g id → invocable g' id.
Proof.
  intros Hev (p & x & Hid & Hx & Hp & Htk). destruct (evolves_lookup _ _ _ _ Hev Hx) as (y & Hy & Hxy).
  unfold GetStage in Hid. rewrite <- (ev_stages _ _ Hev) in Hid.
  exists p, y. split_and!; [done..|by eapply parent_resolved_evolves|].
  unfold takes_result. by rewrite (sev_strategy _ _ _ Hxy).
Qed.
Lemma actor_ok_evolves g g' s : actor_ok g s → evolves g g' → actor_ok g' (put_graph g' s).
Proof.
  intros (Hl & Hef & Hnd) Hev. split_and!; [done| |done]. eapply Forall_impl; [exact Hef|]. intros ef.
  apply answerable_mono; [by intros id; apply invocable_evolves| |]; unfold was_triggered, GetStage;
    rewrite (ev_stages _ _ Hev); [|done].
  - intros id (p & x & Hid & Hx & Hp). destruct (evolves_lookup _ _ _ _ Hev Hx) as (y & Hy & Hxy).
    exists p, y. split_and!; [done..|]. by apply (sev_triggered _ _ _ Hxy).
Qed.

Lemma actor_ok_grows x g g' s :
  graph_wf g → 2 ≤ rank (gr_state g) → gr_stages g !! stage_ID x = None → actor_ok g s → grows x g g' →
  actor_ok g' (put_graph g' s).
Proof.
  intros Hwf Hrank Hfresh (Hl & Hef & Hnd) Hgr. split_and!; [done| |done].
  eapply Forall_impl; [exact Hef|]. intros ef.
  assert (∀ id p, GetStage g id = Some p → GetStage g' id = Some p) as Hget.
  { intros id p Hid. unfold GetStage in *. rewrite (gw_stages _ _ _ Hgr), lookup_insert_ne; congruence. }
  apply answerable_mono; [| |by intros id [p Hp]; rewrite (Hget _ _ Hp)];
    intros id (p & y & Hid & Hy & Hp); destruct (grows_lookup _ _ _ Hgr p y Hy) as (z & Hz & Hk);
    exists p, z; (split; [by auto|split; [done|]]).
  - destruct Hp as [Hp Htk]. split; [by eapply parent_resolved_grows|]. unfold takes_result. by rewrite (sk_strategy _ _ _ Hk).
  - by rewrite (sk_triggered _ _ _ Hk).
Qed.

Lemma actor_ok_unexecuted g p x s :
  graph_wf g → actor_ok g s → gr_objects g !! p = Some x → stage_triggered x = false →
  stage_ID x ∉ executions (ga_effects s).
Proof.
  intros Hwf (_ & Hef & _) Hp Htr Hin. apply list_elem_of_omap in Hin as (ef & Hin & Hid).
  rewrite Forall_forall in Hef. specialize (Hef ef Hin).
  destruct ef as [[r|]| | | | | | |]; simplify_eq/=. rewrite Hid in Hef.
  destruct Hef as (_ & q & y & Hq & Hy & Hty).
  pose proof (wf_obj _ Hwf _ _ Hp). unfold GetStage in Hq. simplify_eq. congruence.
Qed.

#[global] Instance graphActor_listener_state : ListenerState A := {|
  Aux := actor_ok;
  Unexecuted id s := id ∉ executions (ga_effects s);
  Aux_evolves := actor_ok_evolves;
  Aux_grows := actor_ok_grows;
  Unexecuted_put id g s H := H;
  Aux_unexecuted := actor_ok_unexecuted;
|}.

(** ** Elementary effects *)

Lemma wp_PersistReceive e (q : persistent P) :
  GetSnapshotInterval (pers_provider q) ≠ 0%Z →
  wp (PersistReceive e) (λ _ q',
    Recovering q' = Recovering q ∧ Name q' = Name q
    ∧ GetSnapshotInterval (pers_provider q') = GetSnapshotInterval (pers_provider q)
    ∧ journal (Name q) (pers_provider q') = journal (Name q) (pers_provider q) ++ [e]) q.
Proof.
  intros Hi. unfold PersistReceive. apply wp_bind, wp_get, wp_bind.
  apply wp_zoom. eapply wp_mono; [apply PersistEvent_ok|].
  intros [] p' (Hj & _ & Hint). apply wp_bind, wp_modify, wp_bind, wp_get, wp_bind.
  unfold go_rem. simpl. rewrite Hint. destruct (Z.eqb_spec (GetSnapshotInterval (pers_provider q)) 0); [done|].
  apply wp_ret. destruct (Z.eqb _ 0); [apply wp_modify|apply wp_ret]; by split_and!.
Qed.

Lemma wp_persist e (Q : unit → A → Prop) s :
  live s →
  (∀ s', ga_graph s' = ga_graph s → ga_effects s' = ga_effects s → live s' →
     actor_journal s' = actor_journal s ++ [e] → Q tt s') →
  wp (persist e) Q s.
Proof.
  intros [Hr Hi] HQ. apply wp_zoom. eapply wp_mono; [by apply wp_PersistReceive|].
  intros [] q (H1 & H2 & H3 & H4). apply HQ; [done|done| |].
  - split; simpl; congruence.
  - unfold actor_journal. simpl. congruence.
Qed.

Lemma wp_stamp (Q : option Timestamp → A → Prop) s :
  (∀ ts s', ga_graph s' = ga_graph s → ga_persistence s' = ga_persistence s →
     ga_effects s' = ga_effects s → Q ts s') → wp stamp Q s.
Proof. intros HQ. cbv [wp stamp now]. by apply HQ. Qed.

Lemma wp_timeMillis (Q : Z → A → Prop) s :
  (∀ ms s', ga_graph s' = ga_graph s → ga_persistence s' = ga_persistence s →
     ga_effects s' = ga_effects s → Q ms s') → wp timeMillis Q s.
Proof. intros HQ. cbv [wp timeMillis now]. by apply HQ. Qed.

Lemma wp_emit ef (Q : unit → A → Prop) s :
  (∀ s', ga_graph s' = ga_graph s → ga_persistence s' = ga_persistence s →
     ga_effects s' = ga_effects s ++ [ef] → Q tt s') → wp (emit ef) Q s.
Proof. intros HQ. by apply HQ. Qed.


Lemma at_graph_ext g s s' :
  at_graph g s → ga_graph s' = ga_graph s → ga_persistence s' = ga_persistence s →
  ga_effects s' = ga_effects s → at_graph g s'.
Proof.
  intros (Hg & [H1 H2] & Hef) Eg Ep Ee. split; [simpl in *; congruence|].
  split; [split; congruence|by rewrite Ee].
Qed.
Lemma at_graph_persist g s s' :
  at_graph g s → ga_graph s' = ga_graph s → ga_effects s' = ga_effects s → live s' → at_graph g s'.
Proof. intros (Hg & _ & Hef) Eg Ee Hl. split; [simpl in *; congruence|]. by rewrite <- Ee in Hef. Qed.

Lemma wp_emit_at g ef (Q : unit → A → Prop) s :
  at_graph g s → answerable g ef → (∀ id, id ∈ executions [ef] → Unexecuted id s) →
  (∀ s', at_graph g s' → last (ga_effects s') = Some ef → Q tt s') → wp (emit ef) Q s.
Proof.
  intros (Hg & [H1 H2] & Hef & Hnd) Ha Hun HQ. apply wp_emit. intros s' Eg Ep Ee.
  apply HQ; [|by rewrite Ee, last_snoc]. split; [simpl in *; congruence|].
  split_and!; [split; congruence| |].
  - rewrite Ee. apply Forall_app. by repeat constructor.
  - rewrite Ee. unfold executions. rewrite omap_app. apply NoDup_app. split_and!; [done| |].
    + intros id Hin Hin'. by apply (Hun id).
    + destruct ef as [[]| | | | | | |]; simpl; repeat constructor; apply not_elem_of_nil.
Qed.
Lemma wp_emit_other g ef (Q : unit → A → Prop) s :
  at_graph g s → answerable g ef → executions [ef] = [] →
  (∀ s', at_graph g s' → last (ga_effects s') = Some ef → Q tt s') → wp (emit ef) Q s.
Proof. intros Hat Ha He HQ. eapply wp_emit_at; eauto. rewrite He. by intros id ?%not_elem_of_nil. Qed.
Lemma wp_persist_at g e (Q : unit → A → Prop) s :
  at_graph g s → (∀ s', at_graph g s' → Q tt s') → wp (persist e) Q s.
Proof.
  intros Hat HQ. apply wp_persist; [apply Hat|]. intros s' Eg Ee Hl _.
  apply HQ. by eapply at_graph_persist.
Qed.

Lemma wp_persistAndUpdate_with (L : CompletionEventListener A) e (Q : unit → A → Prop) g s :
  at_graph g s →
  (∀ s', at_graph (update_startTime e g) s' → wp (dispatch_event L e true) Q s') →
  wp (persistAndUpdate_with (UpdateWithEvent L) e) Q s.
Proof.
  intros Hat HQ. apply wp_bind, wp_get. destruct (Hat) as (Hg & Hlive & _). simpl in Hg. rewrite Hg.
  apply wp_bind, wp_persist; [done|]. intros s' Eg Ee Hlive' _.
  pose proof (at_graph_persist g s s' Hat Eg Ee Hlive') as Hat'.
  apply wp_bind, wp_bind, wp_get, wp_ret. destruct Hlive' as [Hr' Hi']. rewrite Hr'.
  apply wp_bind. eapply wp_modify_graph; [exact Hat'|apply evolves_update_startTime|apply HQ].
Qed.

(** The event names the stage behind a pointer. *)
Lemma GetStage_ID g p x :
  graph_wf g → gr_objects g !! p = Some x → GetStage g (stage_ID x) = Some p.
Proof. intros Hwf Hp. by apply (wf_obj _ Hwf). Qed.

End actor_spec.

(** Reads of the clock, the graph and a stage leave the graph in place. *)
Ltac read_clock Hat :=
  apply wp_bind, wp_stamp; intros ?ts ?s ?Eg ?Ep ?Ee;
  eapply at_graph_ext in Hat; [|eassumption..]; clear Eg Ep Ee.
Ltac read_graph g := apply wp_bind, (wp_get_graph g); [assumption|].
Ltac read_stage p x g := apply wp_bind, (wp_get_stage p x g); [assumption|assumption|].

Section actor_listener_spec.
Context {P : Type} `{!ProviderState P} `{!ReliableProvider P} `{!MapOrder} `{!Clock}.
Abbreviation A := (graphActor P).
Implicit Types s : A.

Section callbacks.
Context (n : nat) (HL : ListenerSpec n (listener n)).

Lemma OnExecuteStage_ok p x rs g s :
  at_graph g s → graph_wf g → gr_objects g !! p = Some x → parent_resolved g x → takes_result x →
  stage_triggered x = true → Unexecuted (stage_ID x) s →
  wp (OnExecuteStage (listener (S n)) p rs) (λ _, at_graph g) s.
Proof.
  intros Hat Hwf Hp Hpar Htk Htr Hun. simpl in Hun. simpl. apply wp_bind, wp_stamp. intros ts s1 Eg Ep Ee.
  rewrite <- Ee in Hun. eapply at_graph_ext in Hat; [|eassumption..]. clear Eg Ep Ee.
  read_graph g. read_stage p x g.
  apply wp_bind, wp_persist; [apply Hat|]. intros s' Eg Ee Hlive _. rewrite <- Ee in Hun.
  eapply at_graph_persist in Hat; [|eassumption..].
  apply (wp_emit_at g); [done| | |done].
  - pose proof (GetStage_ID g p x Hwf Hp). split; exists p, x; by split_and!.
  - intros id Hid. simpl in Hid. by apply list_elem_of_singleton in Hid as ->.
Qed.

Lemma OnCompleteStage_ok p x r g s :
  at_graph g s → graph_wf g → gr_objects g !! p = Some x → closed_except p g →
  weight g + b2n (IsResolved x) < S n →
  wp (OnCompleteStage (listener (S n)) p (Some r))
    (λ _, becomes g (λ g', settled g' ∧ has_result p (default r (stage_result x)) g')) s.
Proof.
  intros Hat Hwf Hp Hc Hw. simpl. read_clock Hat. read_graph g. read_stage p x g.
  eapply wp_persistAndUpdate_with; [exact Hat|]. set (e := EStageCompleted _). intros s' Hat'.
  pose proof (evolves_update_startTime e g) as Hev. destruct (update_startTime_eq e g) as [t Et].
  rewrite Et in *. apply wp_bind.
  eapply wp_mono; [eapply (wp_handleStageCompleted n _ HL _ r p x); eauto with evolve|].
  - exact (GetStage_ID g p x Hwf Hp).
  - intros b s'' Hb. apply wp_ret. eapply becomes_trans; [exact Hev|exact Hb|done].
Qed.

Lemma OnComposeStage_ok p q g s :
  at_graph g s → graph_wf g → settled g → p < length (gr_objects g) → q < length (gr_objects g) →
  weight g + 1 < S n →
  wp (OnComposeStage (listener (S n)) p q) (λ _, becomes g settled) s.
Proof.
  intros Hat Hwf Hs [x Hx]%lookup_lt_is_Some [y Hy]%lookup_lt_is_Some Hw. simpl.
  read_clock Hat. read_graph g. read_stage p x g. read_stage q y g.
  eapply wp_persistAndUpdate_with; [exact Hat|]. set (e := EStageComposed _). intros s' Hat'.
  pose proof (evolves_update_startTime e g) as Hev. destruct (update_startTime_eq e g) as [t Et].
  rewrite Et in *.
  eapply wp_mono; [eapply (wp_handleStageComposed n _ HL _ p q (with_startTime t g));
    eauto using settled_startTime with evolve|].
  - exact (GetStage_ID g p x Hwf Hx).
  - exact (GetStage_ID g q y Hwf Hy).
  - change (weight (with_startTime t g)) with (weight g). lia.
  - intros [] s'' Hb. eapply becomes_trans; [exact Hev|exact Hb|done].
Qed.

Lemma OnGraphExecutionFinished_ok g s :
  at_graph g s → graph_wf g → gr_state g = StateCommitted → ¬ pending g MainExecPhase →
  compose_closed g → weight g < S n →
  wp (OnGraphExecutionFinished (listener (S n))) (λ _, becomes g settled) s.
Proof.
  intros Hat Hwf Hst Hp Hc Hw. simpl. apply wp_bind, wp_bind, wp_get, wp_ret.
  destruct (Hat) as (_ & [Hr _] & _). rewrite Hr.
  read_clock Hat. read_graph g.
  eapply wp_persistAndUpdate_with; [exact Hat|]. set (e := EGraphTerminating _). intros s' Hat'.
  pose proof (evolves_update_startTime e g) as Hev. destruct (update_startTime_eq e g) as [t Et].
  rewrite Et in *.
  eapply wp_mono; [eapply (wp_handleTerminating n _ HL _ (with_startTime t g)); eauto with evolve|].
  intros [] s'' Hb. eapply becomes_trans; [exact Hev|exact Hb|done].
Qed.

Lemma OnGraphComplete_ok g s :
  at_graph g s → graph_wf g → gr_state g = StateTerminating → ¬ pending g TerminationExecPhase →
  compose_closed g → no_ready g → weight g < S n →
  wp (OnGraphComplete (listener (S n))) (λ _, becomes g settled) s.
Proof.
  intros Hat Hwf Hst Hp Hc Hn Hw. simpl. apply wp_bind, wp_bind, wp_get, wp_ret.
  destruct (Hat) as (_ & [Hr _] & _). rewrite Hr.
  read_clock Hat. read_graph g. apply wp_bind.
  eapply wp_persistAndUpdate_with; [exact Hat|]. set (e := EGraphCompleted _). intros s' Hat'.
  pose proof (evolves_update_startTime e g) as Hev. destruct (update_startTime_eq e g) as [t Et].
  rewrite Et in *.
  eapply wp_mono; [eapply (wp_handleCompleted (with_startTime t g)); eauto|].
  intros [] s'' Hb. apply (becomes_trans g _ _ settled) in Hb; [|done|done].
  destruct Hb as (g' & Hat'' & Hrest). read_graph g'. apply (wp_emit_other g'); [done..|].
  intros s3 Hat3 _. by exists g'.
Qed.
End callbacks.

Theorem listener_spec n : ListenerSpec n (listener n).
Proof.
  induction n as [|n IH]; [by split; intros; lia|]. split; intros.
  - by eapply OnExecuteStage_ok.
  - by eapply OnCompleteStage_ok.
  - by eapply OnComposeStage_ok.
  - by eapply OnGraphExecutionFinished_ok.
  - by eapply OnGraphComplete_ok.
Qed.
End actor_listener_spec.
