(* ===== verification/ActorCommands.v ===== *)
(** * Commands and events at the level of the graph actor

    A command that arrives in a quiescent state is fully processed: the actor
    returns (it neither panics nor recurses for ever) and is quiescent again,
    so that no stage is left ready and untriggered, no composed stage is left
    behind, and the graph's lifecycle has caught up with its stages. *)

From S2P Require Import Prelude Model Stage StageFacts Graph GraphFacts GraphGrowth.
From S2P Require Import GraphSpec Persistence GraphActor ActorSpec.

(** Stage ids are the decimal numbers 0, 1, 2, ... in order of creation. *)
Definition ids_dense (g : CompletionGraph) : Prop :=
  ∀ id p, gr_stages g !! id = Some p → id = itoa p.

Record quiescent (g : CompletionGraph) : Prop := {
  q_wf : graph_wf g;
  q_settled : settled g;
  q_ids : ids_dense g;
  q_size : length (gr_objects g) ≤ 1000;
}.

Lemma ids_fresh g : graph_wf g → ids_dense g → GetStage g (NextStageID g) = None.
Proof.
  intros Hwf Hids. destruct (GetStage g (NextStageID g)) as [p|] eqn:Hp; [|done].
  pose proof (Hids _ _ Hp) as Heq. unfold NextStageID in Heq. apply itoa_inj in Heq.
  rewrite (size_stages _ Hwf) in Heq. destruct (wf_map _ Hwf _ _ Hp) as (x & Hx & _).
  apply lookup_lt_Some in Hx. lia.
Qed.

Lemma quiescent_evolves g g' : quiescent g → evolves g g' → settled g' → quiescent g'.
Proof.
  intros [Hwf _ Hids Hsz] Hev Hs. split; [by eapply evolves_wf|done| |].
  - intros id p. rewrite (ev_stages _ _ Hev). apply Hids.
  - by rewrite (evolves_length _ _ Hev).
Qed.

Lemma quiescent_startTime e g : quiescent g → quiescent (update_startTime e g).
Proof.
  intros Hq. eapply quiescent_evolves; [done|apply evolves_update_startTime|].
  destruct (update_startTime_eq e g) as [t ->]. apply settled_startTime, (q_settled _ Hq).
Qed.

Lemma ids_grows x g g' :
  graph_wf g → ids_dense g → grows x g g' → stage_ID x = NextStageID g → ids_dense g'.
Proof.
  intros Hwf Hids Hgr Hid id p. rewrite (gw_stages _ _ _ Hgr).
  intros [[<- <-]|[_ Hp]]%lookup_insert_Some; [|by apply Hids].
  rewrite Hid. unfold NextStageID. by rewrite (size_stages _ Hwf).
Qed.

Lemma grows_startTime x t g g' : grows x (with_startTime t g) g' → grows x g g'.
Proof. by intros []. Qed.

Lemma weight_bound g : weight g ≤ 2 * length (gr_objects g) + 3.
Proof.
  unfold weight. assert (∀ l, sum_list_with stage_weight l ≤ 2 * length l) as Hl.
  { induction l as [|x l IH]; simpl; [done|]. unfold stage_weight at 1.
    destruct (negb _), (negb _); simpl; lia. }
  specialize (Hl (gr_objects g)). destruct (gr_state g); simpl; lia.
Qed.

(** What validation leaves unchecked: that the messages which do not come from
    a client (delay completions, invocation responses) concern an existing
    stage and carry a result, and that the protobuf messages of a client's
    value are present. *)
Definition carries_datum (v : option CompletionResult) : Prop :=
  ∃ r d, v = Some r ∧ result_Datum r = Some d.

Definition command_ok (g : CompletionGraph) (cmd : Command) : Prop :=
  match cmd with
  | CAddCompletedValueStage msg => carries_datum (value_Value msg)
  | CCompleteStageExternally msg => carries_datum (ext_Value msg)
  | CCompleteDelayStage msg =>
      is_Some (GetStage g (cdelay_StageId msg)) ∧ is_Some (cdelay_Result msg)
  | CFaasInvocationResponse msg => is_Some (faas_Result msg) ∧ invocable g (faas_StageId msg)
  | _ => True
  end.

Lemma command_ok_mono g g' cmd :
  (∀ id, invocable g id → invocable g' id) → (∀ id, is_Some (GetStage g id) → is_Some (GetStage g' id)) →
  command_ok g cmd → command_ok g' cmd.
Proof. destruct cmd; simpl; naive_solver. Qed.
Lemma command_ok_evolves g g' cmd : evolves g g' → command_ok g cmd → command_ok g' cmd.
Proof.
  intros Hev. apply command_ok_mono; [by intros id; apply invocable_evolves|].
  intros id. unfold GetStage. by rewrite (ev_stages _ _ Hev).
Qed.

(** ** Validation *)

(** What a command that adds a stage is known to satisfy once validated. *)
Record add_valid (g : CompletionGraph) (op : CompletionOperation) (deps : nat) : Prop := {
  av_open : 2 ≤ rank (gr_state g);
  av_strategy : is_Some (getStrategyFromOperation op);
  av_arity strat : getStrategyFromOperation op = Some strat → bad_arity strat deps = false;
  av_size : size (gr_stages g) < 1000;
}.

Lemma validate_add_None g f c :
  validate_add g f c = None → add_valid g (GetOperation c) (GetDependencyCount c).
Proof.
  unfold validate_add. destruct (canModifyGraph g) eqn:Hcan; [|done]. simpl.
  destruct (getStrategyFromOperation (GetOperation c)) as [strat|] eqn:Hst; [|done].
  destruct (bad_arity strat (GetDependencyCount c)) eqn:Har; [done|].
  destruct (TakesClosure strat && negb (HasClosure c)); [done|].
  destruct (negb (TakesClosure strat) && HasClosure c); [done|].
  destruct (Z.leb_spec maxStages (Z.of_nat (size (gr_stages g)))) as [|Hsz]; [done|]. intros _.
  split.
  - unfold canModifyGraph in Hcan. destruct (gr_state g); done || (simpl; lia).
  - by rewrite Hst.
  - intros strat' ?. rewrite Hst in *. by simplify_eq.
  - unfold maxStages in Hsz. lia.
Qed.

Lemma validateStages_mapM g ids :
  validateStages g ids = true → is_Some (mapM (GetStage g) ids).
Proof.
  intros Hv. apply mapM_is_Some, Forall_forall. intros id Hin.
  unfold validateStages in Hv. rewrite forallb_forall in Hv.
  specialize (Hv id (proj1 (list_elem_of_In _ _) Hin)). simpl. by destruct (GetStage g id).
Qed.

Section commands.
Context {P : Type} `{!ProviderState P} `{!ReliableProvider P} `{!MapOrder} `{!Clock}.
Abbreviation A := (graphActor P).
Implicit Types s : A.

(** [ValidateCommand] on a present graph returns and changes nothing. *)
Lemma wp_ValidateCommand g cmd (Q : option status_error → A → Prop) s :
  at_graph g s → command_ok g cmd →
  (∀ err, (err = None → match as_AddStageCommand cmd with
             | Some c => add_valid g (GetOperation c) (GetDependencyCount c)
             | None => True
             end
             ∧ match cmd with
               | CAddStage msg => validateStages g (add_Deps msg) = true
               | CCompleteStageExternally msg => is_Some (GetStage g (ext_StageId msg))
               | CAwaitStageResult msg => is_Some (GetStage g (await_StageId msg))
               | _ => True
               end) → Q err s) →
  wp (ValidateCommand cmd) Q s.
Proof.
  intros Hat Hok HQ. apply wp_bind, (wp_get_graph g); [done|].
  destruct (as_AddStageCommand cmd ≫= validate_add g (GetFlowId cmd)) as [err|] eqn:Hv.
  { apply wp_ret, HQ. done. }
  assert (match as_AddStageCommand cmd with
          | Some c => add_valid g (GetOperation c) (GetDependencyCount c) | None => True end) as Hadd.
  { destruct (as_AddStageCommand cmd); [|done]. by eapply validate_add_None. }
  destruct cmd; simpl in *; try (apply wp_ret, HQ; intros; split; [done|done]).
  - apply wp_ret, HQ. intros Hn. split; [done|]. by destruct (validateStages g _).
  - destruct Hok as (v & d & -> & Hd). apply wp_bind, wp_ret, wp_bind. rewrite Hd.
    apply wp_bind, wp_ret, wp_ret, wp_ret, HQ. intros _. by split.
  - destruct Hok as (v & d & -> & Hd). apply wp_bind, wp_ret, wp_bind. rewrite Hd.
    apply wp_bind, wp_ret, wp_ret, wp_ret, HQ. intros Hn. split; [done|].
    destruct (negb _); [done|]. destruct (GetStage g (ext_StageId r)); [by eexists|done].
  - apply wp_ret, HQ. intros Hn. split; [done|]. destruct (GetStage g (await_StageId r)); [by eexists|done].
Qed.

(** ** The events commands produce *)

Context (n : nat).

(** A stage has been added: the new stage is the last object, and the graph
    may have evolved since. *)
Definition stage_was_added (g : CompletionGraph) (id : string) (op : CompletionOperation)
    (closure : option BlobDatum) (g2 : CompletionGraph) : Prop :=
  ∃ x g1, grows x g g1 ∧ evolves g1 g2
    ∧ stage_ID x = id ∧ stage_operation x = op ∧ stage_closure x = closure.

Lemma update_stage_added e g s :
  at_graph g s → quiescent g → add_valid g (added_Op e) (length (added_Dependencies e)) →
  added_StageId e = NextStageID g →
  is_Some (mapM (GetStage g) (added_Dependencies e)) → weight g + 2 < n →
  wp (persistAndUpdateGraph n (EStageAdded e)) (λ _ s', ∃ g2, at_graph g2 s' ∧ quiescent g2
    ∧ stage_was_added g (NextStageID g) (added_Op e) (added_Closure e) g2
    ∧ weight g2 ≤ weight g + 2) s.
Proof.
  intros Hat Hq [Hopen [strat Hst] Har Hsz] Hid [ds Hds] Hw.
  eapply wp_persistAndUpdate_with; [exact Hat|]. intros s' Hat'.
  apply (quiescent_startTime (EStageAdded e)) in Hq as Hq'.
  destruct (update_startTime_eq (EStageAdded e) g) as [t Et]. rewrite Et in *.
  set (g0 := with_startTime t g) in *. destruct Hq' as [Hwf Hs Hids Hlen].
  rewrite (size_stages g (q_wf _ Hq)) in Hsz.
  assert (GetStage g0 (added_StageId e) = None) as Hfresh by (rewrite Hid; by apply (ids_fresh g0)).
  assert (∀ x g1 g2, grows x g0 g1 → graph_wf g1 → evolves g1 g2 → settled g2 →
    stage_ID x = added_StageId e → quiescent g2) as Hqui.
  { intros x g1 g2 Hgr Hwf1 Hev Hs2 Hx. split; [by eapply evolves_wf|done| |].
    - intros id p. rewrite (ev_stages _ _ Hev). eapply (ids_grows x g0); eauto. by rewrite Hx.
    - rewrite (evolves_length _ _ Hev), (grows_length _ _ _ Hgr). simpl. lia. }
  unfold dispatch_event. case_bool_decide as Hop.
  - eapply wp_mono; [apply (wp_handleAddTerminationHook e g0); try done; simpl; lia|].
    intros [] s'' (x & g1 & Hwf1 & Hs1 & Hat1 & Hx & Hxop & Hcl & Hxw & Hgr).
    exists g1. split_and!; [done|by eapply (Hqui x g1 g1)| |].
    + exists x, g1. split_and!; [by eapply grows_startTime|done|congruence|congruence|done].
    + rewrite (grows_weight _ _ _ Hgr), Hxw. done.
  - eapply wp_mono; [apply (wp_handleStageAdded n _ (listener_spec n) e strat ds g0); eauto; simpl; lia|].
    intros [] s'' (g1 & Hwf1 & Hgr & g2 & Hat2 & Hev2 & Hs2).
    exists g2. split_and!; [done|by eapply Hqui| |].
    + eexists _, g1. split_and!; [by eapply grows_startTime|done..].
    + apply evolves_weight in Hev2. rewrite (grows_weight _ _ _ Hgr) in Hev2. exact Hev2.
Qed.

Lemma update_stage_completed f id r ts p x g s :
  at_graph g s → quiescent g → GetStage g id = Some p → gr_objects g !! p = Some x →
  weight g < n →
  wp (persistAndUpdateGraph n (stage_completed f id (Some r) ts)) (λ _ s', ∃ g', at_graph g' s'
    ∧ quiescent g' ∧ evolves g g' ∧ has_result p (default r (stage_result x)) g') s.
Proof.
  intros Hat Hq Hid Hp Hw. eapply wp_persistAndUpdate_with; [exact Hat|]. intros s' Hat'.
  set (e := stage_completed _ _ _ _) in *.
  apply (quiescent_startTime e) in Hq as Hq'. pose proof (evolves_update_startTime e g) as Hev.
  destruct (update_startTime_eq e g) as [t Et]. rewrite Et in *.
  apply wp_bind. eapply wp_mono.
  - eapply (wp_handleStageCompleted n _ (listener_spec n) _ r p x (with_startTime t g)); eauto.
    + apply Hq'.
    + apply closed_weaken, Hq'.
    + change (weight (with_startTime t g)) with (weight g). destruct (IsResolved x); simpl; lia.
  - intros b s'' (g' & Hat2 & Hev2 & Hs2 & Hr2). apply wp_ret. exists g'. split_and!; [done| |by etrans|done].
    by eapply quiescent_evolves.
Qed.

Lemma update_invoke_completed e r p x g s :
  at_graph g s → quiescent g → invoked_Result e = Some r →
  GetStage g (invoked_StageId e) = Some p → gr_objects g !! p = Some x → parent_resolved g x →
  weight g + 1 < n →
  wp (persistAndUpdateGraph n (EFaasInvocationCompleted e))
    (λ _ s', ∃ g', at_graph g' s' ∧ quiescent g' ∧ evolves g g'
       ∧ (takes_result x → resolved_at g' p ∨ ∃ q, composes g x r q)) s.
Proof.
  intros Hat Hq Hr Hid Hp Hpar Hw. eapply wp_persistAndUpdate_with; [exact Hat|]. intros s' Hat'.
  apply (quiescent_startTime (EFaasInvocationCompleted e)) in Hq as Hq'.
  pose proof (evolves_update_startTime (EFaasInvocationCompleted e) g) as Hev.
  destruct (update_startTime_eq (EFaasInvocationCompleted e) g) as [t Et]. rewrite Et in *.
  eapply wp_mono.
  - eapply (wp_handleInvokeComplete n _ (listener_spec n) e r p x (with_startTime t g)); eauto; apply Hq'.
  - intros [] s'' (g' & Hat2 & Hev2 & Hs2 & Hres). exists g'. split_and!; [done| |by etrans|done].
    by eapply quiescent_evolves.
Qed.

Lemma update_committed e g s :
  at_graph g s → quiescent g → gr_state g = StateInitial → weight g < n →
  wp (persistAndUpdateGraph n (EGraphCommitted e))
    (λ _ s', ∃ g', at_graph g' s' ∧ quiescent g' ∧ evolves g g' ∧ gr_state g' ≠ StateInitial) s.
Proof.
  intros Hat Hq Hst Hw. eapply wp_persistAndUpdate_with; [exact Hat|]. intros s' Hat'.
  apply (quiescent_startTime (EGraphCommitted e)) in Hq as Hq'.
  pose proof (evolves_update_startTime (EGraphCommitted e) g) as Hev.
  destruct (update_startTime_eq (EGraphCommitted e) g) as [t Et]. rewrite Et in *.
  eapply wp_mono.
  - eapply (wp_handleCommitted n _ (listener_spec n) (with_startTime t g));
      [done|apply Hq'|apply Hq'|done|simpl]. change (weight (with_startTime t g)) with (weight g). lia.
  - intros [] s'' (g' & Hat2 & Hev2 & Hs2 & Hne). exists g'. split_and!; [done| |by etrans|done].
    by eapply quiescent_evolves.
Qed.

(** ** Commands, one by one *)

Lemma exec_AddStage msg g s :
  at_graph g s → quiescent g → add_valid g (add_Operation msg) (length (add_Deps msg)) →
  validateStages g (add_Deps msg) = true → weight g + 2 < n →
  wp (executeCommand n (CAddStage msg)) (λ _ s', ∃ g2, at_graph g2 s' ∧ quiescent g2
    ∧ stage_was_added g (NextStageID g) (add_Operation msg) (add_Closure msg) g2
    ∧ last (ga_effects s') = Some (Respond (RAddStage (add_FlowId msg) (NextStageID g)))) s.
Proof.
  intros Hat Hq Hadd Hv Hw. simpl. read_graph g. read_clock Hat. apply wp_bind.
  eapply wp_mono; [eapply update_stage_added; eauto using validateStages_mapM|].
  intros [] s' (g2 & Hat2 & Hq2 & Hx & Hw2). apply (wp_emit_other g2); [done..|]. intros s'' Hat3 He.
  by exists g2.
Qed.

(** The stage just added is where its id says. *)
Lemma added_lookup g id op closure g2 :
  stage_was_added g id op closure g2 → ∃ p x, GetStage g2 id = Some p ∧ gr_objects g2 !! p = Some x
    ∧ p = length (gr_objects g) ∧ stage_operation x = op ∧ stage_closure x = closure.
Proof.
  intros (x & g1 & Hgr & Hev & <- & <- & <-).
  destruct (evolves_lookup _ _ _ _ Hev (grows_new _ _ _ Hgr)) as (x' & Hx' & Hevx).
  exists (length (gr_objects g)), x'. unfold GetStage.
  rewrite (ev_stages _ _ Hev), (gw_stages _ _ _ Hgr), lookup_insert_eq.
  by rewrite (sev_operation _ _ _ Hevx), (sev_closure _ _ _ Hevx).
Qed.

Lemma exec_AddCompletedValueStage msg r g s :
  at_graph g s → quiescent g → add_valid g completedValue 0 → value_Value msg = Some r →
  weight g + 2 < n →
  wp (executeCommand n (CAddCompletedValueStage msg)) (λ _ s', ∃ g2, at_graph g2 s' ∧ quiescent g2
    ∧ stage_was_added g (NextStageID g) completedValue None g2
    ∧ last (ga_effects s') = Some (Respond (RAddStage (value_FlowId msg) (NextStageID g)))) s.
Proof.
  intros Hat Hq Hadd Hr Hw. simpl. read_graph g. read_clock Hat. apply wp_bind.
  eapply wp_mono; [eapply update_stage_added; eauto; by eexists|].
  intros [] s' (g2 & Hat2 & Hq2 & Hx & Hw2).
  destruct (added_lookup _ _ _ _ _ Hx) as (p & y & Hid & Hy & _).
  read_clock Hat2. rewrite Hr. apply wp_bind.
  eapply wp_mono; [eapply update_stage_completed; eauto; lia|].
  intros [] s'' (g3 & Hat3 & Hq3 & Hev3 & _). apply (wp_emit_other g3); [done..|].
  intros s3 Hat4 He. exists g3. split_and!; [done|done| |done].
  destruct Hx as (x & g1 & ? & ? & Hx). exists x, g1. split_and!; [done|by etrans|apply Hx..].
Qed.

Lemma wp_scheduleDelay e g (Q : unit → A → Prop) s :
  at_graph g s → is_Some (GetStage g (delay_StageId e)) → (∀ s', at_graph g s' → Q tt s') →
  wp (scheduleDelay e) Q s.
Proof.
  intros Hat Hid HQ. unfold scheduleDelay. apply wp_bind, wp_timeMillis. intros ms s' Eg Ep Ee.
  eapply at_graph_ext in Hat; [|done..].
  destruct (0 <? _)%Z; (apply (wp_emit_other g); [done|simpl; eauto|done|auto]).
Qed.

Lemma exec_AddDelayStage msg g s :
  at_graph g s → quiescent g → add_valid g delay 0 → weight g + 2 < n →
  wp (executeCommand n (CAddDelayStage msg)) (λ _ s', ∃ g2, at_graph g2 s' ∧ quiescent g2
    ∧ stage_was_added g (NextStageID g) delay None g2
    ∧ last (ga_effects s') = Some (Respond (RAddStage (adddelay_FlowId msg) (NextStageID g)))) s.
Proof.
  intros Hat Hq Hadd Hw. simpl. read_graph g. read_clock Hat. apply wp_bind.
  eapply wp_mono; [eapply update_stage_added; eauto; by eexists|].
  intros [] s' (g2 & Hat2 & Hq2 & Hx & Hw2).
  apply wp_bind, wp_timeMillis. intros ms s0' Eg0 Ep0 Ee0. eapply at_graph_ext in Hat2; [|done..].
  read_clock Hat2. apply wp_bind, (wp_persist_at g2); [done|]. intros s2 Hat3.
  apply wp_bind, (wp_scheduleDelay _ g2); [done| |].
  { destruct (added_lookup _ _ _ _ _ Hx) as (p & y & Hid & _). by eexists. }
  intros s3 Hat4. apply (wp_emit_other g2); [done..|]. intros. by exists g2.
Qed.

Lemma exec_AddInvokeFunctionStage msg g s :
  at_graph g s → quiescent g → add_valid g invokeFunction 0 → weight g + 2 < n →
  wp (executeCommand n (CAddInvokeFunctionStage msg)) (λ _ s', ∃ g2, at_graph g2 s' ∧ quiescent g2
    ∧ stage_was_added g (NextStageID g) invokeFunction None g2
    ∧ last (ga_effects s') = Some (Respond (RAddStage (invoke_FlowId msg) (NextStageID g)))) s.
Proof.
  intros Hat Hq Hadd Hw. simpl. read_graph g. read_clock Hat. apply wp_bind.
  eapply wp_mono; [eapply update_stage_added; eauto; by eexists|].
  intros [] s' (g2 & Hat2 & Hq2 & Hx & Hw2). read_clock Hat2.
  apply wp_bind, (wp_persist_at g2); [done|]. intros s2 Hat3.
  apply wp_bind, (wp_emit_other g2); [done| |done|].
  { destruct (added_lookup _ _ _ _ _ Hx) as (p & y & Hid & Hy & _ & Hop & _). exists p, y.
    pose proof (swf_strategy _ _ (wf_stage _ (q_wf _ Hq2) _ _ Hy)) as Hst. rewrite Hop in Hst. injection Hst as Hst.
    unfold parent_resolved, takes_result. rewrite <- Hst. by split_and!. }
  intros s3 Hat4 _. apply (wp_emit_other g2); [done..|]. intros. by exists g2.
Qed.

Lemma exec_CompleteStageExternally msg r p x g s :
  at_graph g s → quiescent g → ext_Value msg = Some r →
  GetStage g (ext_StageId msg) = Some p → gr_objects g !! p = Some x → weight g < n →
  wp (executeCommand n (CCompleteStageExternally msg)) (λ _ s', ∃ g2, at_graph g2 s' ∧ quiescent g2
    ∧ evolves g g2 ∧ has_result p (default r (stage_result x)) g2
    ∧ last (ga_effects s') = Some (Respond (RCompleteStageExternally (ext_FlowId msg) (ext_StageId msg)
                                            (negb (IsResolved x))))) s.
Proof.
  intros Hat Hq Hr Hid Hp Hw. simpl. read_graph g. apply wp_bind. apply (wp_deref _ p); [done|].
  read_stage p x g. apply wp_bind.
  apply (wp_mono _ (λ _ s', ∃ g', at_graph g' s' ∧ quiescent g' ∧ evolves g g'
    ∧ has_result p (default r (stage_result x)) g')).
  - destruct (IsResolved x) eqn:Hres; simpl.
    + apply wp_ret. exists g. split_and!; [done..|]. exists x. split; [done|].
      unfold IsResolved in Hres. simpl in Hres. by destruct (stage_result x).
    + read_clock Hat. rewrite Hr. by eapply update_stage_completed.
  - intros [] s' (g' & Hat' & Hq' & Hev & Hres). apply (wp_emit_other g'); [done..|].
    intros s'' Hat3 He. by exists g'.
Qed.

(** ** Any command *)

(** The state between two messages. *)
Definition good (s : A) : Prop :=
  match ga_graph s with
  | Some g => actor_ok g s ∧ quiescent g
  | None => actor_ok (New "" "" 0) s
  end.

Lemma good_at g s : at_graph g s → quiescent g → good s.
Proof. intros [Hg Ha] Hq. unfold good. simpl in Hg. by rewrite Hg. Qed.

(** Sending a message that needs no answer changes nothing else. *)
Lemma good_emit ef s :
  (∀ g, answerable g ef) → executions [ef] = [] → good s →
  wp (emit ef) (λ _ s', good s' ∧ ga_graph s' = ga_graph s ∧ ga_persistence s' = ga_persistence s
    ∧ ga_effects s' = ga_effects s ++ [ef]) s.
Proof.
  intros Ha He Hs. apply wp_emit. intros s' Eg Ep Ee. split_and!; [|done..].
  assert (∀ g, actor_ok g s → actor_ok g s') as Hok.
  { intros g ([? ?] & Hef & Hnd). split_and!; [split; congruence| |].
    - rewrite Ee. apply Forall_app. by repeat constructor.
    - rewrite Ee. unfold executions in *. rewrite omap_app. simpl in He |- *. rewrite He. by rewrite app_nil_r. }
  unfold good in *. rewrite Eg. destruct (ga_graph s); [|auto]. split; [apply Hok|]; apply Hs.
Qed.
(** Answering with an error changes nothing else. *)
Lemma good_error e s : good s → wp (emit (Respond (RError e))) (λ _, good) s.
Proof. intros Hs. eapply wp_mono; [by apply good_emit|]. by intros [] s' [? _]. Qed.

Lemma quiescent_New id fn t : quiescent (New id fn t).
Proof.
  split; [split| |done|simpl; lia]; try done.
  split_and!; [|done|done]. by intros _ (p & x & Hp & _).
Qed.

Lemma good_CommitGraph f g s :
  at_graph g s → quiescent g → weight g < n →
  wp (executeCommand n (CCommitGraph f)) (λ _, good) s.
Proof.
  intros Hat Hq Hw. simpl. read_graph g. unfold IsCommitted.
  destruct (gr_state g) eqn:Hst;
    try (apply (wp_emit_other g); [done..|]; intros; by eapply good_at).
  read_clock Hat. apply wp_bind. eapply wp_mono; [by eapply update_committed|].
  intros [] s' (g' & Hat' & Hq' & _). apply wp_bind, (wp_emit_other g'); [done..|]. intros s1 Hat1 _.
  apply (wp_emit_other g'); [done..|]. intros. by eapply good_at.
Qed.

Lemma good_CompleteDelayStage msg g s :
  at_graph g s → quiescent g → command_ok g (CCompleteDelayStage msg) → weight g < n →
  wp (executeCommand n (CCompleteDelayStage msg)) (λ _, good) s.
Proof.
  intros Hat Hq [[p Hp] [r Hr]] Hw. simpl. read_graph g. rewrite Hp, Hr.
  destruct (wf_map _ (q_wf _ Hq) _ _ Hp) as (x & Hx & _).
  apply wp_bind. read_stage p x g. apply wp_ret. destruct (IsResolved x).
  { apply wp_ret. by eapply good_at. }
  read_clock Hat. eapply wp_mono; [by eapply update_stage_completed|].
  intros [] s' (g' & Hat' & Hq' & _). by eapply good_at.
Qed.

Lemma good_FaasInvocationResponse msg g s :
  at_graph g s → quiescent g → command_ok g (CFaasInvocationResponse msg) → weight g + 1 < n →
  wp (executeCommand n (CFaasInvocationResponse msg)) (λ _, good) s.
Proof.
  intros Hat Hq ([r Hr] & p & x & Hp & Hx & Hpar & _) Hw. simpl. read_clock Hat.
  eapply wp_mono; [by eapply update_invoke_completed|].
  intros [] s' (g' & Hat' & Hq' & _). by eapply good_at.
Qed.

Lemma good_executeCommand cmd g s :
  at_graph g s → quiescent g → command_ok g cmd → weight g + 2 < n →
  match as_AddStageCommand cmd with
  | Some c => add_valid g (GetOperation c) (GetDependencyCount c)
  | None => True
  end →
  match cmd with
  | CCreateGraph _ => False
  | CAddStage msg => validateStages g (add_Deps msg) = true
  | CCompleteStageExternally msg => is_Some (GetStage g (ext_StageId msg))
  | CAwaitStageResult msg => is_Some (GetStage g (await_StageId msg))
  | _ => True
  end →
  wp (executeCommand n cmd) (λ _, good) s.
Proof.
  intros Hat Hq Hok Hw Hadd Hv.
  assert (∀ ef, answerable g ef → executions [ef] = [] → wp (emit ef) (λ _, good) s) as Hemit.
  { intros ef Ha He. apply (wp_emit_other g); [done..|]. intros. by eapply good_at. }
  destruct cmd; simpl in Hadd, Hv.
  - done.
  - simpl. read_graph g. by apply Hemit.
  - eapply wp_mono; [by eapply exec_AddStage|]. intros [] s' (g' & ? & ? & _). by eapply good_at.
  - destruct Hok as (v & d & Hval & _).
    eapply wp_mono; [by eapply exec_AddCompletedValueStage|]. intros [] s' (g' & ? & ? & _). by eapply good_at.
  - eapply wp_mono; [by eapply exec_AddDelayStage|]. intros [] s' (g' & ? & ? & _). by eapply good_at.
  - eapply wp_mono; [by eapply exec_AddInvokeFunctionStage|]. intros [] s' (g' & ? & ? & _). by eapply good_at.
  - destruct Hok as (v & d & Hval & _), Hv as [p Hp].
    destruct (wf_map _ (q_wf _ Hq) _ _ Hp) as (x & Hx & _).
    eapply wp_mono; [eapply exec_CompleteStageExternally; eauto; lia|].
    intros [] s' (g' & ? & ? & _). by eapply good_at.
  - eapply good_CommitGraph; eauto. lia.
  - destruct Hv as [p Hp]. simpl. read_graph g. apply wp_bind. apply (wp_deref _ p); [done|]. by apply Hemit.
  - eapply good_CompleteDelayStage; eauto. lia.
  - eapply good_FaasInvocationResponse; eauto. lia.
  - by apply Hemit.
  - apply wp_ret. by eapply good_at.
Qed.

(** Nothing can have been asked of the executor before the graph exists. *)
Lemma answerable_initial g ef : answerable (New "" "" 0) ef → answerable g ef.
Proof.
  apply answerable_mono; [by intros id (p & x & Hp & _)..|]. intros id [p Hp]. done.
Qed.

Lemma good_CreateGraph msg s :
  good s → ga_graph s = None → wp (executeCommand n (CCreateGraph msg)) (λ _, good) s.
Proof.
  unfold good. intros Hgood Hg. rewrite Hg in Hgood. destruct Hgood as (Hl & Hef & Hnd).
  simpl. apply wp_bind, wp_stamp. intros ts s1 Eg1 Ep1 Ee1.
  apply wp_bind, wp_persist; [destruct Hl; split; congruence|]. intros s2 _ Ee2 Hl2 _.
  apply wp_bind. apply (wp_emit_other (New (create_FlowId msg) (create_FunctionId msg) (time_Now (ga_clock s2)))).
  - split; [done|]. split; [exact Hl2|]. simpl. rewrite Ee2, Ee1. split; [|done].
    eapply Forall_impl; [exact Hef|]. apply answerable_initial.
  - done.
  - done.
  - intros s3 Hat _. eapply good_at; [exact Hat|apply quiescent_New].
Qed.
End commands.
