(* ===== verification/ActorTheorems.v ===== *)
(** * The graph actor in its environment

    The messages that can reach a graph actor, the states it can be in, and
    the theorems about all of them: every message is processed to the end, a
    processed message leaves nothing undone, stages are executed at most once,
    results are final, the lifecycle is exact. *)

From S2P Require Import Prelude Model Stage StageFacts Graph GraphFacts GraphGrowth.
From S2P Require Import GraphSpec Persistence GraphActor ActorSpec ActorCommands.

(** The bound on the depth of re-entrant updates that suffices for a graph of
    [maxStages] stages: each stage is triggered once and completed once, the
    graph moves through three transitions, and a new stage adds two. *)
Definition depth_bound : nat := 2006.

Section environment.
Context {P : Type} `{!ProviderState P} `{!ReliableProvider P} `{!MapOrder} `{!Clock}.
Abbreviation A := (graphActor P).
Implicit Types s : A.

Definition request_stage (r : ExecutorRequest) : string :=
  match r with InvokeStage r => istage_StageId r | InvokeFunction r => ifun_StageId r end.

(** What may arrive: any client command (whose value, if it carries one, has
    a datum), the executor's response to a request the actor has sent, and
    the delay completions the actor has scheduled. *)
Definition arrives (s : A) (cmd : Command) : Prop :=
  match cmd with
  | CAddCompletedValueStage msg => carries_datum (value_Value msg)
  | CCompleteStageExternally msg => carries_datum (ext_Value msg)
  | CFaasInvocationResponse msg =>
      is_Some (faas_Result msg)
      ∧ ∃ r, ToExecutor r ∈ ga_effects s ∧ request_stage r = faas_StageId msg
  | CCompleteDelayStage _ => TellSelf cmd ∈ ga_effects s ∨ ∃ t, TellSelfAfter t cmd ∈ ga_effects s
  | _ => True
  end.

(** The states of one uninterrupted life of an actor: a new one, over a provider
    with a snapshot interval other than 0, then whatever messages that arrive
    make of it. Lives with crashes and restarts are in [Recovery]. *)
Inductive reachable (n : nat) : A → Prop :=
  | reachable_new p : GetSnapshotInterval p ≠ 0%Z → reachable n (NewGraphActor p)
  | reachable_step s cmd s' :
      reachable n s → arrives s cmd → receiveCommand n cmd s = Ret tt s' → reachable n s'.

Lemma arrives_ok g s cmd : actor_ok g s → arrives s cmd → command_ok g cmd.
Proof.
  intros (_ & Hef & _) Harr. rewrite Forall_forall in Hef. destruct cmd; simpl in *; try done.
  - destruct Harr as [Hin|[t Hin]]; apply Hef in Hin; exact Hin.
  - destruct Harr as (Hr & q & Hin & <-). split; [done|]. apply Hef in Hin. destruct q; simpl in *; naive_solver.
Qed.

Lemma good_receiveCommand_ok n cmd s :
  depth_bound ≤ n → good s → (∀ g, ga_graph s = Some g → command_ok g cmd) →
  wp (receiveCommand n cmd) (λ _, good) s.
Proof.
  unfold depth_bound. intros Hn Hgood Hcmd. unfold receiveCommand, validateCmd.
  apply wp_bind, wp_bind, wp_get.
  assert (∀ e, wp (emit (Respond (RError e));; mret false)
    (λ (valid : bool), wp (if valid then executeCommand n cmd else mret tt) (λ _, good)) s) as Herr.
  { intros e. apply wp_bind. eapply wp_mono; [by apply good_error|]. intros [] s' Hs'. by apply wp_ret, wp_ret. }
  destruct (ga_graph s) as [g|] eqn:Hg.
  - assert (actor_ok g s ∧ quiescent g) as [Ha Hq] by (unfold good in Hgood; by rewrite Hg in Hgood).
    assert (at_graph g s) as Hat by done. pose proof (weight_bound g). pose proof (q_size _ Hq).
    pose proof (Hcmd g eq_refl) as Hok.
    destruct cmd; try apply Herr; apply wp_bind, (wp_ValidateCommand g); try done;
      intros [err|] Hv; try apply Herr; apply wp_ret; destruct (Hv eq_refl);
      apply (good_executeCommand n _ g); (done || lia).
  - destruct cmd; try apply Herr. apply wp_ret. by apply good_CreateGraph.
Qed.

Lemma good_receiveCommand n cmd s :
  depth_bound ≤ n → good s → arrives s cmd → wp (receiveCommand n cmd) (λ _, good) s.
Proof.
  intros Hn Hgood Harr. apply good_receiveCommand_ok; [done|done|]. intros g Hg. eapply arrives_ok; [|done].
  unfold good in Hgood. rewrite Hg in Hgood. apply Hgood.
Qed.

Lemma reachable_good n s : depth_bound ≤ n → reachable n s → good s.
Proof.
  intros Hn. induction 1 as [p Hp|s cmd s' _ IH Harr Hrun].
  - unfold good, actor_ok, live, executions. simpl. split_and!; [done|done|constructor|constructor].
  - pose proof (good_receiveCommand n cmd s Hn IH Harr) as Hw. unfold wp in Hw. by rewrite Hrun in Hw.
Qed.
End environment.

Section theorems.
Context {P : Type} `{!ProviderState P} `{!ReliableProvider P} `{!MapOrder} `{!Clock}.
Context (n : nat) (Hn : depth_bound ≤ n).
Implicit Types s : graphActor P.

Lemma reachable_graph s g : reachable n s → ga_graph s = Some g → actor_ok g s ∧ quiescent g.
Proof. intros Hs Hg. apply reachable_good in Hs; [|done]. unfold good in Hs. by rewrite Hg in Hs. Qed.

(** C1: whatever arrives, in any state the actor can be in
    and for any order of map iteration, [receiveCommand] returns: no panic, no
    unbounded re-entrance. *)
Theorem receiveCommand_total s cmd :
  reachable n s → arrives s cmd → ∃ s', receiveCommand n cmd s = Ret tt s' ∧ reachable n s'.
Proof.
  intros Hs Harr. apply reachable_good in Hs as Hg; [|done].
  pose proof (good_receiveCommand n cmd s Hn Hg Harr) as Hw.
  apply wp_run in Hw as ([] & s' & Hrun & _). exists s'. split; [done|]. by eapply reachable_step.
Qed.

(** C7: between messages no stage is left ready and
    untriggered, and when a stage that another one is recorded to be composed of
    (its [composeReference]) is resolved, that other stage is resolved too. A
    reference holds one stage: what it has been overwritten with is not covered
    (see [Flaws]). *)
Theorem nothing_left_undone s g :
  reachable n s → ga_graph s = Some g →
  (∀ p x, gr_objects g !! p = Some x → stage_result x = None → stage_triggered x = false →
     ready g x = false)
  ∧ (∀ i o x y, gr_objects g !! i = Some x → gr_objects g !! o = Some y →
       stage_composeReference x = Some o → is_Some (stage_result x) → is_Some (stage_result y)).
Proof.
  intros Hs Hg. destruct (reachable_graph s g Hs Hg) as [_ [_ [Hno _ Hc] _ _]]. split; [exact Hno|].
  intros i o x y Hx Hy Ho Hr. apply stage_resolved in Hr.
  destruct (Hc i x o Hx Hr Ho) as (y' & Hy' & Hr'). simplify_eq. by apply stage_resolved in Hr'.
Qed.

(** Between messages the state of the graph agrees with its
    stages: committed exactly while main work is pending, terminating exactly
    while hooks are pending, completed only when every stage is resolved. *)
Theorem lifecycle_exact s g :
  reachable n s → ga_graph s = Some g →
  match gr_state g with
  | StateInitial => True
  | StateCommitted => pending g MainExecPhase
  | StateTerminating => ¬ pending g MainExecPhase ∧ pending g TerminationExecPhase
  | StateCompleted => ∀ p x, gr_objects g !! p = Some x → is_Some (stage_result x)
  end.
Proof.
  intros Hs Hg. destruct (reachable_graph s g Hs Hg) as [_ [Hwf [_ Hl _] _ _]].
  destruct (wf_safe _ Hwf) as (Hm & Ht & _). unfold lifecycle_current in Hl.
  destruct (gr_state g) eqn:Hst; [done|done|by split; [apply Hm; simpl; lia|]|].
  intros p x Hx. apply stage_resolved. destruct (IsResolved x) eqn:Hr; [done|].
  destruct (stage_execPhase x) eqn:Hph.
  - destruct Hm; [simpl; lia|]. by exists p, x.
  - destruct (Ht eq_refl). by exists p, x.
Qed.


(** The stages of a graph are numbered 0, 1, 2, ... in
    order of creation, so that the id handed to the next stage is fresh. *)
Theorem stage_ids_sequential s g :
  reachable n s → ga_graph s = Some g →
  (∀ id p, GetStage g id = Some p ↔ id = itoa p ∧ p < length (gr_objects g))
  ∧ GetStage g (NextStageID g) = None ∧ NextStageID g = itoa (length (gr_objects g)).
Proof.
  intros Hs Hg. destruct (reachable_graph s g Hs Hg) as [_ [Hwf _ Hids _]]. split_and!.
  - intros id p. split.
    + intros Hp. split; [by apply Hids|]. destruct (wf_map _ Hwf _ _ Hp) as (x & Hx & _).
      by eapply lookup_lt_Some.
    + intros [-> Hp]. apply lookup_lt_is_Some in Hp as [x Hx].
      pose proof (wf_obj _ Hwf _ _ Hx) as Hid. by rewrite (Hids _ _ Hid) in Hid.
  - by apply ids_fresh.
  - unfold NextStageID. by rewrite (size_stages _ Hwf).
Qed.

(** An unresolved dependency of a stage that does not fire. *)
Lemma waiting_dependency g p x :
  graph_wf g → gr_objects g !! p = Some x → stage_operation x ≠ terminationHook → ready g x = false →
  strat_Trigger (stage_strategy x) = Fn_triggerNever
  ∨ ∃ q y, q < p ∧ gr_objects g !! q = Some y ∧ stage_result y = None.
Proof.
  intros Hwf Hx Hop Hr. pose proof (wf_stage _ Hwf _ _ Hx) as Hxwf.
  destruct (wf_load_deps g x Hxwf) as [deps Hdeps]. unfold ready in Hr. rewrite Hdeps in Hr.
  assert (Exists (λ d, IsResolved d = false) deps →
    ∃ q y, q < p ∧ gr_objects g !! q = Some y ∧ stage_result y = None) as Hex.
  { intros (d & Hd & Hun)%Exists_exists. apply mapM_Some in Hdeps.
    apply list_elem_of_lookup in Hd as [i Hi].
    destruct (Forall2_lookup_r _ _ _ _ _ Hdeps Hi) as (ref & Href & Hload).
    pose proof (wf_acyclic _ Hwf _ _ Hx Hop) as Hac. rewrite Forall_lookup in Hac.
    destruct (Hac i ref Href) as (q & -> & Hq). simpl in Hload.
    destruct (gr_objects g !! q) as [y|] eqn:Hy; simpl in Hload; [|done]. injection Hload as <-.
    exists q, y. split_and!; [done..|]. unfold IsResolved in Hun. simpl in Hun. by destruct (stage_result y). }
  destruct (run_trigger_inv (strat_Trigger (stage_strategy x)) deps) as (fires & st & rs & Hrun & _).
  rewrite Hrun in Hr. subst fires.
  destruct (not_fires (strat_Trigger (stage_strategy x)) deps) as [Ht|[[Ht ->]|Hun]];
    [by exists st, rs|by left| |by right; auto].
  assert (length (stage_dependencies x) = 0) as Hlen by (apply mapM_Some, Forall2_length in Hdeps; exact Hdeps).
  pose proof (swf_arity _ _ Hxwf) as Har. rewrite decide_False, Hlen in Har by done.
  destruct Har as [Har _]. pose proof (swf_strategy _ _ Hxwf) as Hst.
  destruct (stage_operation x); simpl in Hst; try discriminate; injection Hst as Hst;
    rewrite <- Hst in Har, Ht; discriminate.
Qed.

(** An unresolved stage is never stuck by itself: it, or a stage
    it depends on through earlier stages, is unresolved and either triggered
    (its execution is outstanding or it awaits a composed stage), completed
    only by an external event, or a termination hook. *)
Theorem no_deadlock s g p x :
  reachable n s → ga_graph s = Some g → gr_objects g !! p = Some x → stage_result x = None →
  ∃ q y, q ≤ p ∧ gr_objects g !! q = Some y ∧ stage_result y = None
    ∧ (stage_triggered y = true ∨ strat_Trigger (stage_strategy y) = Fn_triggerNever
       ∨ stage_operation y = terminationHook).
Proof.
  intros Hs Hg. destruct (reachable_graph s g Hs Hg) as [_ [Hwf [Hno _ _] _ _]].
  revert x. induction (lt_wf p) as [p _ IH]. intros x Hx Hres.
  destruct (stage_triggered x) eqn:Htr; [exists p, x; split_and!; by auto|].
  destruct (decide (stage_operation x = terminationHook)) as [Hop|Hop]; [exists p, x; split_and!; by auto|].
  destruct (waiting_dependency g p x Hwf Hx Hop (Hno p x Hx Hres Htr)) as [Hnv|(q & y & Hq & Hy & Hyr)].
  - exists p, x. split_and!; by auto.
  - destruct (IH q Hq y Hy Hyr) as (q' & y' & Hle & Hrest). exists q', y'. split; [lia|done].
Qed.

(** C12: the closure of a termination hook is sent for
    execution only after the hook registered next after it is resolved, or,
    for the newest hook, after the graph has started to terminate. *)
Theorem hooks_run_in_reverse s g p x :
  reachable n s → ga_graph s = Some g → gr_objects g !! p = Some x →
  stage_operation x = terminationHook → stage_ID x ∈ executions (ga_effects s) →
  (gr_terminationChainHead g = Some p ∧ is_Some (raw_result (gr_terminationRoot g)))
  ∨ ∃ q y, p < q ∧ gr_objects g !! q = Some y ∧ stage_operation y = terminationHook
      ∧ is_Some (stage_result y) ∧ no_hook_between g p q.
Proof.
  intros Hs Hg Hx Hop (ef & Hin & Hid)%list_elem_of_omap.
  destruct (reachable_graph s g Hs Hg) as [(_ & Hef & _) [Hwf _ _ _]].
  rewrite Forall_forall in Hef. specialize (Hef ef Hin).
  destruct ef as [[r|]| | | | | | |]; simplify_eq/=. rewrite Hid in Hef.
  destruct Hef as [(p' & x' & Hp' & Hx' & Hpar & _) _].
  pose proof (wf_obj _ Hwf _ _ Hx). unfold GetStage in Hp'. simplify_eq.
  assert (strat_ResultHandling (stage_strategy x) = Fn_parentStageResult) as Hrh.
  { pose proof (swf_strategy _ _ (wf_stage _ Hwf _ _ Hx)) as Hst. rewrite Hop in Hst. by injection Hst as <-. }
  destruct (wf_chain _ Hwf _ _ Hx Hop) as [(Hd & Hhd & _)|(q & y & Hd & Hpq & Hy & Hyop & Hnb)].
  - left. split; [done|]. destruct (Hpar Hrh TerminationRootRef) as [rr Hr]; [rewrite Hd; by left|].
    simpl in Hr. injection Hr as ->. by eexists.
  - right. exists q, y. destruct (Hpar Hrh (StageRef q)) as [rr Hr]; [rewrite Hd; by left|].
    simpl in Hr. rewrite Hy in Hr. simpl in Hr. injection Hr as Hr. rewrite Hr. by eauto 10.
Qed.

(** ** The commands, one by one, errors included *)

(** The command was refused: an error is the answer, nothing else changed. *)
Definition refused (s s' : graphActor P) : Prop :=
  ga_graph s' = ga_graph s ∧ ga_persistence s' = ga_persistence s
  ∧ ∃ e, ga_effects s' = ga_effects s ++ [Respond (RError e)].

Lemma receive_validated s g cmd (Q : graphActor P → Prop) :
  reachable n s → ga_graph s = Some g → arrives s cmd →
  match cmd with CCreateGraph _ => False | _ => True end →
  ((match as_AddStageCommand cmd with
    | Some c => add_valid g (GetOperation c) (GetDependencyCount c)
    | None => True
    end
    ∧ match cmd with
      | CAddStage msg => validateStages g (add_Deps msg) = true
      | CCompleteStageExternally msg => is_Some (GetStage g (ext_StageId msg))
      | CAwaitStageResult msg => is_Some (GetStage g (await_StageId msg))
      | _ => True
      end) → at_graph g s → quiescent g → weight g + 2 < n →
   wp (executeCommand n cmd) (λ _, Q) s) →
  ∃ s', receiveCommand n cmd s = Ret tt s' ∧ (refused s s' ∨ Q s').
Proof.
  intros Hs Hg Harr Hcmd Hex. destruct (reachable_graph s g Hs Hg) as [Ha Hq].
  assert (at_graph g s) as Hat by done.
  assert (weight g + 2 < n) as Hw.
  { pose proof (weight_bound g). pose proof (q_size _ Hq). unfold depth_bound in Hn. lia. }
  assert (wp (receiveCommand n cmd) (λ _ s', refused s s' ∨ Q s') s) as Hwp.
  { unfold receiveCommand, validateCmd. apply wp_bind, wp_bind, wp_get.
    assert (wp (validationError ← ValidateCommand cmd;
        match validationError with
        | Some e => emit (Respond (RError e));; mret false
        | None => mret true
        end)
      (λ valid : bool, wp (if valid then executeCommand n cmd else mret tt) (λ _ s', refused s s' ∨ Q s')) s) as Hv.
    { apply wp_bind, (wp_ValidateCommand g); [done|by eapply arrives_ok|]. intros [err|] Hval.
      - apply wp_bind, wp_emit. intros s' Eg Ep Ee. apply wp_ret, wp_ret. left.
        unfold refused. by eauto.
      - apply wp_ret. eapply wp_mono; [by apply Hex; auto|]. by right. }
    rewrite Hg. destruct cmd; done. }
  apply wp_run in Hwp as ([] & s' & Hrun & H'). by exists s'.
Qed.

Lemma added_keeps g id op closure g2 q y :
  stage_was_added g id op closure g2 → gr_objects g !! q = Some y →
  ∃ z, gr_objects g2 !! q = Some z ∧ stage_ID z = stage_ID y ∧ stage_operation z = stage_operation y
    ∧ (∀ r, stage_result y = Some r → stage_result z = Some r).
Proof.
  intros (x & g1 & Hgr & Hev & _) Hq. destruct (grows_lookup _ _ _ Hgr q y Hq) as (y1 & Hy1 & Hk).
  destruct (evolves_lookup _ _ _ _ Hev Hy1) as (z & Hz & Hevz). exists z. destruct Hk, Hevz.
  split_and!; [done|congruence|congruence|]. intros r Hr. apply sev_result. congruence.
Qed.

(** C13: an [AddStageRequest] is either refused, with an error
    and no other change, or answered with the next stage id, under which the
    new stage then exists with the operation and closure asked for; the
    existing stages keep their ids, operations and results. *)
Theorem add_stage_correct s g msg :
  reachable n s → ga_graph s = Some g →
  ∃ s', receiveCommand n (CAddStage msg) s = Ret tt s' ∧
    (refused s s' ∨ ∃ g2 x, ga_graph s' = Some g2
       ∧ last (ga_effects s') = Some (Respond (RAddStage (add_FlowId msg) (NextStageID g)))
       ∧ GetStage g2 (NextStageID g) = Some (length (gr_objects g))
       ∧ gr_objects g2 !! length (gr_objects g) = Some x
       ∧ stage_operation x = add_Operation msg ∧ stage_closure x = add_Closure msg
       ∧ ∀ q y, gr_objects g !! q = Some y → ∃ z, gr_objects g2 !! q = Some z
           ∧ stage_ID z = stage_ID y ∧ stage_operation z = stage_operation y
           ∧ ∀ r, stage_result y = Some r → stage_result z = Some r).
Proof.
  intros Hs Hg. apply (receive_validated s g); try done. intros [Hadd Hv] Hat Hq Hw.
  eapply wp_mono; [by eapply exec_AddStage|]. intros [] s' (g2 & [Hg2 _] & _ & Hx & Hlast).
  destruct (added_lookup _ _ _ _ _ Hx) as (p & x & Hid & Hp & -> & Hop & Hcl).
  exists g2, x. split_and!; try done. intros q y Hy. by eapply added_keeps.
Qed.

(** Nothing happens but the error reply [e]. *)
Definition refused_with (e : status_error) (s s' : graphActor P) : Prop :=
  ga_graph s' = ga_graph s ∧ ga_persistence s' = ga_persistence s ∧ ga_effects s' = ga_effects s ++ [Respond (RError e)].

(** A command that validates with [err] when a graph is present. *)
Lemma receive_decided s g cmd err (Q : graphActor P → Prop) :
  ga_graph s = Some g → match cmd with CCreateGraph _ => False | _ => True end →
  ValidateCommand cmd s = Ret err s →
  match err with
  | Some e => ∀ s', refused_with e s s' → Q s'
  | None => wp (executeCommand n cmd) (λ _, Q) s
  end → ∃ s', receiveCommand n cmd s = Ret tt s' ∧ Q s'.
Proof.
  intros Hg Hcmd Hval HQ.
  assert (wp (receiveCommand n cmd) (λ _, Q) s) as Hwp; [|by apply wp_run in Hwp as ([] & s' & ? & ?); exists s'].
  unfold receiveCommand, validateCmd. apply wp_bind, wp_bind, wp_get. rewrite Hg.
  assert (wp (validationError ← ValidateCommand cmd;
      match validationError with
      | Some e => emit (Respond (RError e));; mret false
      | None => mret true
      end) (λ valid : bool, wp (if valid then executeCommand n cmd else mret tt) (λ _, Q)) s) as Hv.
  { apply wp_bind, wp_run. exists err, s. split; [done|]. destruct err as [e|]; [|by apply wp_ret].
    apply wp_bind, wp_emit. intros s' Eg Ep Ee. by apply wp_ret, wp_ret, HQ. }
  by destruct cmd.
Qed.

(** C14: completing a stage externally is refused, with an error and no other
    change, exactly when the datum has no value or the flow has no such stage.
    Otherwise the answer says whether the stage was still unresolved; afterwards
    the stage has the given value if it was, and its previous result if not. *)
Theorem complete_externally_correct s g msg r d :
  reachable n s → ga_graph s = Some g → ext_Value msg = Some r → result_Datum r = Some d →
  ∃ s', receiveCommand n (CCompleteStageExternally msg) s = Ret tt s' ∧
    match Val d, GetStage g (ext_StageId msg) with
    | None, _ => refused_with (NewInvalidDatumError (ext_FlowId msg)) s s'
    | Some _, None => refused_with (NewStageNotFoundError (ext_FlowId msg) (ext_StageId msg)) s s'
    | Some _, Some p => ∃ x g2 y, gr_objects g !! p = Some x ∧ ga_graph s' = Some g2 ∧ gr_objects g2 !! p = Some y
        ∧ stage_result y = Some (default r (stage_result x))
        ∧ last (ga_effects s') = Some (Respond (RCompleteStageExternally (ext_FlowId msg)
            (ext_StageId msg) (negb (IsResolved x))))
    end.
Proof.
  intros Hs Hg Hr Hd. destruct (reachable_graph s g Hs Hg) as [Ha Hq].
  assert (weight g + 2 < n) as Hw.
  { pose proof (weight_bound g). pose proof (q_size _ Hq). unfold depth_bound in Hn. lia. }
  apply (receive_decided s g _ (match Val d with
    | None => Some (NewInvalidDatumError (ext_FlowId msg))
    | Some _ => match GetStage g (ext_StageId msg) with
                | None => Some (NewStageNotFoundError (ext_FlowId msg) (ext_StageId msg)) | Some _ => None end end)); [done|done| |].
  - unfold ValidateCommand, HasValidValue, get_graph, get_state, mbind, M_bind, deref, mret, M_ret. simpl. rewrite Hg.
    simpl. unfold mbind, M_bind, HasValidValue, deref, mret, M_ret. rewrite Hr. simpl.
    unfold mbind, M_bind, mret, M_ret. rewrite Hd. simpl. unfold mbind, M_bind, mret, M_ret. simpl.
    by destruct (Val d) as [[]|].
  - destruct (Val d); [|done]. destruct (GetStage g (ext_StageId msg)) as [p|] eqn:Hp; [|done].
    destruct (wf_map _ (q_wf _ Hq) _ _ Hp) as (x & Hx & _).
    assert (weight g < n) by lia. eapply wp_mono; [by eapply exec_CompleteStageExternally|].
    intros [] s' (g2 & [Hg2 _] & _ & _ & (y & Hy & Hyr) & Hlast). by exists x, g2, y.
Qed.

Lemma exec_CommitGraph f g s :
  at_graph g s → quiescent g → weight g < n →
  wp (executeCommand n (CCommitGraph f)) (λ _ s',
    last (ga_effects s') = Some (Respond (RGraphRequestProcessed f))
    ∧ ∃ g', ga_graph s' = Some g' ∧ gr_state g' ≠ StateInitial
        ∧ (gr_state g ≠ StateInitial → g' = g ∧ ga_persistence s' = ga_persistence s)) s.
Proof.
  intros Hat Hq Hw. simpl. read_graph g. unfold IsCommitted. destruct (gr_state g) eqn:Hst.
  - read_clock Hat. apply wp_bind. eapply wp_mono; [by eapply update_committed|].
    intros [] s' (g' & Hat' & Hq' & _ & Hne). apply wp_bind, (wp_emit_other g'); [done..|]. intros s1 Hat1 _.
    apply (wp_emit_other g'); [done..|]. intros s2 [Hg2 _] Hlast. split; [done|]. by exists g'.
  - apply wp_emit. intros s' Eg Ep Ee. rewrite Ee, last_snoc, Eg. split; [done|].
    destruct Hat as [Hg _]. exists g. by rewrite Hst.
  - apply wp_emit. intros s' Eg Ep Ee. rewrite Ee, last_snoc, Eg. split; [done|].
    destruct Hat as [Hg _]. exists g. by rewrite Hst.
  - apply wp_emit. intros s' Eg Ep Ee. rewrite Ee, last_snoc, Eg. split; [done|].
    destruct Hat as [Hg _]. exists g. by rewrite Hst.
Qed.

(** Committing is always acknowledged, leaves the graph
    committed, and does nothing (no event, no change) to a graph that is. *)
Theorem commit_idempotent s g f :
  reachable n s → ga_graph s = Some g →
  ∃ s' g', receiveCommand n (CCommitGraph f) s = Ret tt s' ∧ ga_graph s' = Some g'
    ∧ last (ga_effects s') = Some (Respond (RGraphRequestProcessed f))
    ∧ gr_state g' ≠ StateInitial
    ∧ (gr_state g ≠ StateInitial → g' = g ∧ ga_persistence s' = ga_persistence s).
Proof.
  intros Hs Hg. destruct (reachable_graph s g Hs Hg) as [Ha Hq].
  pose proof (weight_bound g). pose proof (q_size _ Hq). unfold depth_bound in Hn.
  assert (at_graph g s) as Hat by done.
  assert (wp (receiveCommand n (CCommitGraph f)) (λ _ s',
    last (ga_effects s') = Some (Respond (RGraphRequestProcessed f))
    ∧ ∃ g', ga_graph s' = Some g' ∧ gr_state g' ≠ StateInitial
        ∧ (gr_state g ≠ StateInitial → g' = g ∧ ga_persistence s' = ga_persistence s)) s) as Hwp.
  { unfold receiveCommand, validateCmd. apply wp_bind, wp_bind, wp_get. rewrite Hg.
    apply wp_bind, wp_bind, (wp_get_graph g); [done|]. simpl. apply wp_ret, wp_ret.
    eapply exec_CommitGraph; eauto. lia. }
  apply wp_run in Hwp as ([] & s' & Hrun & Hlast & g' & ? & ? & ?). by exists s', g'.
Qed.
End theorems.
