(* ===== verification/ActorSafety.v ===== *)
(** * What no message can undo

    Across any command, event or timer, from any state and whatever the
    outcome (a panic of the actor included), results are final, stages are
    never lost, and messages already sent stay sent. *)

From S2P Require Import Prelude Model Stage StageFacts Graph GraphFacts GraphSafety.
From S2P Require Import Persistence GraphActor.

(** ** Relations the whole actor keeps

    A relation between states that holds between a state and itself, whenever
    the graph goes up in [graph_le], a message is sent or the clock is read, and
    across [PersistReceive], is kept by every callback and every command. *)
Section actor_keeps.
Context {P : Type} `{!ProviderState P} `{!MapOrder} `{!Clock}.
Abbreviation A := (graphActor P).
Implicit Types s : A.
Context (R : A → A → Prop) `{!PreOrder R}.
Context (R_put : ∀ s g g', graph_of s = Some g → graph_le g g' → R s (put_graph g' s)).
Context (R_frame : ∀ s s', ga_graph s' = ga_graph s → ga_persistence s' = ga_persistence s →
  (∃ l, ga_effects s' = ga_effects s ++ l) → R s s').
Context (R_persist : ∀ e, keeps R (persist e)).

Lemma keeps_silent {B} (m : M A B) :
  (∀ s, ∃ b k, m s = Ret b (Build_graphActor (ga_graph s) (ga_persistence s) (ga_effects s) k)) → keeps R m.
Proof.
  intros Hm s. destruct (Hm s) as (b & k & ->). apply R_frame; [done|done|]. exists []. by rewrite app_nil_r.
Qed.
Lemma keeps_emit ef : keeps R (emit ef).
Proof. intros s. apply R_frame; [done|done|]. by exists [ef]. Qed.
Lemma keeps_stamp : keeps R (stamp : M A _).
Proof. apply keeps_silent. intros s. by do 2 eexists. Qed.
Lemma keeps_timeMillis : keeps R (timeMillis : M A _).
Proof. apply keeps_silent. intros s. by do 2 eexists. Qed.
Lemma keeps_recovering : keeps R (recovering : M A _).
Proof.
  apply keeps_silent. intros s. exists (Recovering (ga_persistence s)), (ga_clock s). by destruct s.
Qed.

(** Walks through a computation of the actor. *)
Ltac walk :=
  repeat first
    [ progress auto using keeps_emit, keeps_stamp, keeps_timeMillis, keeps_recovering,
        keeps_get_graph, keeps_get_stage with flow
    | match goal with |- keeps _ (_ ≫= _) => apply keeps_bind; [apply _| |intros ?] end
    | match goal with |- keeps _ (match ?x with _ => _ end) => destruct x end ].

Definition listener_keeps (L : CompletionEventListener A) : Prop :=
  (∀ p rs, keeps R (OnExecuteStage L p rs)) ∧ (∀ p r, keeps R (OnCompleteStage L p r))
  ∧ (∀ p q, keeps R (OnComposeStage L p q))
  ∧ keeps R (OnGraphExecutionFinished L) ∧ keeps R (OnGraphComplete L).

Lemma keeps_persistAndUpdate_with L e :
  listener_keeps L → keeps R (persistAndUpdate_with (UpdateWithEvent L) e).
Proof.
  intros (H1 & H2 & H3 & H4 & H5). unfold persistAndUpdate_with. walk. by apply keeps_UpdateWithEvent.
Qed.

Lemma listener_keeps_all n : listener_keeps (listener n).
Proof.
  induction n as [|n IH]; [by repeat split|].
  assert (∀ e, keeps R (persistAndUpdate_with (UpdateWithEvent (listener n)) e)) as Hp
    by auto using keeps_persistAndUpdate_with.
  unfold listener_keeps. simpl. split_and!; intros; walk.
Qed.

Lemma keeps_persistAndUpdateGraph n e : keeps R (persistAndUpdateGraph n e : M A _).
Proof. apply keeps_persistAndUpdate_with, listener_keeps_all. Qed.
Lemma keeps_scheduleDelay e : keeps R (scheduleDelay e : M A _).
Proof. unfold scheduleDelay. walk. Qed.

Lemma keeps_executeCommand n cmd :
  match cmd with CCreateGraph _ => False | _ => True end → keeps R (executeCommand n cmd : M A _).
Proof.
  intros Hc. destruct cmd; [done|..]; unfold_command;
    walk; auto using keeps_persistAndUpdateGraph, keeps_scheduleDelay.
Qed.

Lemma keeps_validateCmd cmd : keeps R (validateCmd cmd : M A _).
Proof.
  unfold validateCmd. walk; unfold ValidateCommand, validate_by_type, HasValidValue; walk.
Qed.

Lemma keeps_actor_Recover n : keeps R (Recover (listener n) : M A _).
Proof.
  destruct (listener_keeps_all n) as (H1 & H2 & H3 & H4 & H5). by apply keeps_Recover.
Qed.
End actor_keeps.

(** ** Results are final *)

Section safety.
Context {P : Type} `{!ProviderState P} `{!MapOrder} `{!Clock}.
Abbreviation A := (graphActor P).
Implicit Types s : A.

Definition actor_le (s s' : A) : Prop :=
  (∃ l, ga_effects s' = ga_effects s ++ l)
  ∧ ∀ g, ga_graph s = Some g → ∃ g', ga_graph s' = Some g' ∧ graph_le g g'.

#[local] Instance actor_le_preorder : PreOrder actor_le.
Proof.
  split.
  - intros s. split; [exists []; by rewrite app_nil_r|]. intros g Hg. exists g. by split.
  - intros s1 s2 s3 [[l1 E1] G1] [[l2 E2] G2]. split.
    + exists (l1 ++ l2). by rewrite E2, E1, app_assoc.
    + intros g Hg. destruct (G1 g Hg) as (g' & Hg' & H1). destruct (G2 g' Hg') as (g'' & Hg'' & H2).
      exists g''. split; [done|]. by etrans.
Qed.

Lemma actor_le_put s g g' : graph_of s = Some g → graph_le g g' → actor_le s (put_graph g' s).
Proof.
  intros Hg Hle. split; [exists []; by rewrite app_nil_r|]. intros g0 Hg0. simpl in *. simplify_eq. by eauto.
Qed.
Lemma actor_le_frame s s' :
  ga_graph s' = ga_graph s → ga_persistence s' = ga_persistence s →
  (∃ l, ga_effects s' = ga_effects s ++ l) → actor_le s s'.
Proof. intros Eg _ Hl. split; [done|]. intros g Hg. exists g. by rewrite Eg. Qed.
Lemma actor_le_persist e : keeps actor_le (persist e : M A _).
Proof.
  intros s. unfold persist, zoom. destruct (PersistReceive e (ga_persistence s)); try done;
    (split; [exists []; by rewrite app_nil_r|intros g Hg; by exists g]).
Qed.
(** A command to create a graph only gets past validation where there is none. *)
Lemma validateCmd_create msg s s' :
  validateCmd (CCreateGraph msg) s = Ret true s' → ga_graph s' = None.
Proof. unfold validateCmd, get_state, mbind, M_bind. by destruct (ga_graph s) eqn:Hg; intros [= <-]. Qed.

Definition effects_le s s' : Prop := ∃ l, ga_effects s' = ga_effects s ++ l.
#[local] Instance effects_le_preorder : PreOrder effects_le.
Proof.
  split; [intros s; exists []; by rewrite app_nil_r|].
  intros s1 s2 s3 [l1 E1] [l2 E2]. exists (l1 ++ l2). by rewrite E2, E1, app_assoc.
Qed.
Lemma create_effects n msg : keeps effects_le (executeCommand n (CCreateGraph msg) : M A _).
Proof.
  assert (∀ s s', ga_effects s' = ga_effects s → effects_le s s') as Hsame.
  { intros s s' E. exists []. by rewrite E, app_nil_r. }
  unfold_command. unfold initGraph.
  repeat match goal with |- keeps _ (_ ≫= _) => apply keeps_bind; [apply _| |intros ?] end.
  - intros s. by apply Hsame.
  - intros s. unfold persist, zoom. destruct (PersistReceive _ _); by try apply Hsame.
  - intros s. by apply Hsame.
  - intros s. by apply Hsame.
  - intros s. by eexists.
Qed.

Lemma keeps_receiveCommand n cmd : keeps actor_le (receiveCommand n cmd : M A _).
Proof.
  destruct cmd as [msg| | | | | | | | | | | |].
  { intros s. pose proof (keeps_validateCmd actor_le actor_le_frame
      (CCreateGraph msg) s) as Hv.
    pose proof (validateCmd_create msg s) as Hc.
    unfold receiveCommand, mbind, M_bind.
    destruct (validateCmd (CCreateGraph msg) s) as [[] s'|w s'|]; [|done..].
    specialize (Hc s' eq_refl).
    pose proof (create_effects n msg s') as He.
    assert (∀ s2 : A, effects_le s' s2 → actor_le s s2) as Hnone.
    { intros s2 Hl. etrans; [exact Hv|]. split; [exact Hl|]. intros g Hg. congruence. }
    destruct (executeCommand n (CCreateGraph msg) s'); auto. }
  all: unfold receiveCommand; apply keeps_bind; [apply _|apply (keeps_validateCmd actor_le actor_le_frame)|intros []];
    [by apply (keeps_executeCommand actor_le actor_le_put actor_le_frame actor_le_persist)|by apply keeps_ret, _].
Qed.

(** C10: whatever command an actor receives, in any state, and even
    if handling it panics: every stage is still there with its id, operation,
    strategy and closure; a result, and the value of the future clients wait
    on, once set never changes; a triggered stage stays triggered; and
    messages already sent are not withdrawn. *)
Theorem results_final n cmd : keeps actor_le (receiveCommand n cmd : M A _).
Proof. apply keeps_receiveCommand. Qed.
End safety.
