(* ===== verification/Returns.v ===== *)
(** * Computations of the actor that return

    A logic of partial correctness: [returns R m] relates the state a
    computation starts in to the one it returns in. A relation that does not
    mind reads of the clock, effects and the bookkeeping of iteration is
    [Framed]; for such relations most of the code is checked by walking through
    it ([walk_returns]). *)

From S2P Require Import Prelude Model Stage Graph Persistence GraphActor.

Definition returns {S A} (R : S → S → Prop) (m : M S A) : Prop := ∀ s a s', m s = Ret a s' → R s s'.

Lemma returns_bind {S A B} (R1 R2 R : S → S → Prop) (m : M S A) (k : A → M S B) :
  returns R1 m → (∀ a, returns R2 (k a)) → (∀ s1 s2 s3, R1 s1 s2 → R2 s2 s3 → R s1 s3) → returns R (m ≫= k).
Proof.
  intros Hm Hk HR s b s'' Hrun. unfold mbind, M_bind in Hrun. destruct (m s) as [a s'| |] eqn:Hms; [|done..].
  eapply HR; [by eapply Hm|by eapply Hk].
Qed.

Lemma bind_ret_inv {S A B} (m : M S A) (k : A → M S B) s c s' :
  (m ≫= k) s = Ret c s' → ∃ b s1, m s = Ret b s1 ∧ k b s1 = Ret c s'.
Proof. unfold mbind, M_bind. destruct (m s) as [b s1| |]; [|done..]. by exists b, s1. Qed.

Section returns.
Context {P : Type} `{!ProviderState P} `{!MapOrder} `{!Clock}.
Abbreviation A := (graphActor P).
Implicit Types s : A.

(** ** Taking a computation that returned apart *)

Lemma modify_graph_run f s b s' :
  modify_graph f s = Ret b s' → ∃ g, ga_graph s = Some g ∧ s' = put_graph (f g) s.
Proof.
  unfold modify_graph, get_graph, get_state, modify, mbind, M_bind, deref, mret, M_ret. simpl.
  destruct (ga_graph s) as [g|]; simpl; [|done]. intros [= _ <-]. by exists g.
Qed.
Lemma modify_graph_ret f s b s' :
  modify_graph f s = Ret b s' →
  ∃ g, ga_graph s = Some g ∧ ga_graph s' = Some (f g) ∧ ga_persistence s' = ga_persistence s.
Proof. intros (g & Hg & ->)%modify_graph_run. by exists g. Qed.
Lemma stamp_run {B} (k : option Timestamp → M A B) s x s' :
  (stamp ≫= k) s = Ret x s' →
  ∃ ts s1, ga_graph s1 = ga_graph s ∧ ga_persistence s1 = ga_persistence s ∧ ga_effects s1 = ga_effects s
    ∧ k ts s1 = Ret x s'.
Proof. intros Hk. do 2 eexists. split_and!; [| | |exact Hk]; done. Qed.
Lemma stamp_ret {B} (k : option Timestamp → M A B) s x s' :
  (stamp ≫= k) s = Ret x s' →
  ∃ ts s1, ga_graph s1 = ga_graph s ∧ ga_persistence s1 = ga_persistence s ∧ k ts s1 = Ret x s'.
Proof. intros (ts & s1 & ? & ? & _ & ?)%stamp_run. by exists ts, s1. Qed.
Lemma get_graph_ret {B} (k : CompletionGraph → M A B) s x s' :
  (get_graph ≫= k) s = Ret x s' → ∃ g, ga_graph s = Some g ∧ k g s = Ret x s'.
Proof.
  unfold get_graph, get_state, mbind, M_bind, deref, mret, M_ret. simpl.
  destruct (ga_graph s) as [g|] eqn:Hg; simpl; [|done]. by exists g.
Qed.
Lemma get_stage_ret {B} p g (k : CompletionStage → M A B) s x s' :
  ga_graph s = Some g → (get_stage p ≫= k) s = Ret x s' → ∃ y, gr_objects g !! p = Some y ∧ k y s = Ret x s'.
Proof.
  intros Hg. unfold get_stage, get_graph, get_state, mbind, M_bind, deref, mret, M_ret. simpl. rewrite Hg. simpl.
  destruct (gr_objects g !! p) as [y|]; simpl; [|done]. by exists y.
Qed.

(** ** Framed relations *)

Class Framed (R : A → A → Prop) : Prop := {
  framed_preorder :: PreOrder R;
  framed s s' : ga_graph s' = ga_graph s → ga_persistence s' = ga_persistence s →
    (∃ l, ga_effects s' = ga_effects s ++ l) → R s s';
  framed_iteration s g : ga_graph s = Some g → R s (put_graph (next_iteration g) s);
}.

Section framed.
Context (R : A → A → Prop) `{!Framed R}.

Lemma returns_seq {B C} (m : M A B) (k : B → M A C) :
  returns R m → (∀ b, returns R (k b)) → returns R (m ≫= k).
Proof. intros Hm Hk. eapply returns_bind; eauto. intros s1 s2 s3. by etrans. Qed.
(** Steps that leave graph and journal as they are. *)
Lemma returns_same {B} (m : M A B) :
  (∀ s b s', m s = Ret b s' → ga_persistence s' = ga_persistence s ∧ ga_graph s' = ga_graph s
     ∧ ∃ l, ga_effects s' = ga_effects s ++ l) → returns R m.
Proof. intros Hm s b s' Hrun. destruct (Hm s b s' Hrun) as (Ep & Eg & El). by apply framed. Qed.
Lemma returns_ret {B} (b : B) : returns R (mret b : M A B).
Proof. by intros s b' s' [= _ <-]. Qed.
Lemma returns_panic {B} w : returns R (panic w : M A B).
Proof. by intros s b s'. Qed.
Lemma returns_deref {B} (o : option B) : returns R (deref o : M A B).
Proof. destruct o; [apply returns_ret|apply returns_panic]. Qed.
Lemma returns_get : returns R (get_state : M A _).
Proof. by intros s b' s' [= _ <-]. Qed.
Lemma returns_get_graph : returns R (get_graph : M A _).
Proof. apply returns_seq; [apply returns_get|intros; apply returns_deref]. Qed.
Lemma returns_get_stage p : returns R (get_stage p : M A _).
Proof. apply returns_seq; [apply returns_get_graph|intros; apply returns_deref]. Qed.
Lemma returns_emit ef : returns R (emit ef : M A _).
Proof. apply returns_same. intros s b s' [= _ <-]. split_and!; [done..|]. by eexists. Qed.
Lemma returns_stamp : returns R (stamp : M A _).
Proof. apply returns_same. intros s b s' [= _ <-]. split_and!; [done..|]. exists []. by rewrite app_nil_r. Qed.
Lemma returns_timeMillis : returns R (timeMillis : M A _).
Proof. apply returns_same. intros s b s' [= _ <-]. split_and!; [done..|]. exists []. by rewrite app_nil_r. Qed.
Lemma returns_recovering : returns R (recovering : M A _).
Proof. by intros s b' s' [= _ <-]. Qed.
Lemma returns_for_each {B} (l : list B) body :
  (∀ x, returns R (body x)) → returns R (for_each l body : M A _).
Proof. intros Hb. induction l; simpl; [apply returns_ret|]. by apply returns_seq. Qed.
Lemma returns_range_stages body : (∀ p, returns R (body p)) → returns R (range_stages body : M A _).
Proof.
  intros Hb. unfold range_stages. apply returns_seq; [apply returns_get_graph|intros g].
  apply returns_seq.
  { intros s b s' (g' & Hg & ->)%modify_graph_run. by apply framed_iteration. }
  intros _. apply returns_for_each. intros id. apply returns_seq; [apply returns_get_graph|intros g'].
  destruct (GetStage g' id); [apply Hb|apply returns_ret].
Qed.
End framed.
End returns.

Create HintDb returns discriminated.
#[export] Hint Resolve returns_ret returns_panic returns_deref returns_get returns_get_graph returns_get_stage
  returns_emit returns_stamp returns_timeMillis returns_recovering : returns.
#[export] Hint Extern 0 (Framed _) => apply _ : returns.

(** Walks through a computation whose steps are all in the relation. *)
Ltac walk_returns :=
  repeat first
    [ progress auto with returns
    | match goal with |- returns _ (_ ≫= _) => apply returns_seq; [apply _| |intros ?] end
    | match goal with |- returns _ (match ?x with _ => _ end) => destruct x end ].
