(* ===== verification/Journal.v ===== *)
(** * Journals

    What a journal means and which journals there are. [apply_event] is what
    one event does to a graph, without any of the triggering, execution and
    callbacks that go on while the actor is live; [replay] applies a journal.
    Graphs are compared up to [≡]: the trigger flags (which the journal does not
    record), the start time and the model's iteration counter are left out.

    [valid] is the grammar of journals: which event may follow which. It is
    stated on the graph replayed so far, closed under prefixes, and strong
    enough to keep every replayed graph well-formed, so that a journal cut off
    at any point describes a graph the service can continue from. *)

From S2P Require Import Prelude Model Stage StageFacts Graph GraphFacts GraphGrowth.
From S2P Require Import GraphSpec GraphActor ActorCommands.

(** ** The equivalence *)

Definition untrigger (x : CompletionStage) : CompletionStage :=
  {| stage_ID := stage_ID x; stage_result := stage_result x; stage_operation := stage_operation x;
     stage_strategy := stage_strategy x; stage_closure := stage_closure x;
     stage_dependencies := stage_dependencies x; stage_children := stage_children x;
     stage_whenComplete := stage_whenComplete x; stage_composeReference := stage_composeReference x;
     stage_triggered := false; stage_execPhase := stage_execPhase x |}.

Definition erase (g : CompletionGraph) : CompletionGraph :=
  {| gr_ID := gr_ID g; gr_FunctionID := gr_FunctionID g; gr_objects := untrigger <$> gr_objects g;
     gr_stages := gr_stages g; gr_state := gr_state g; gr_terminationRoot := gr_terminationRoot g;
     gr_terminationChainHead := gr_terminationChainHead g; gr_startTime := 0; gr_iterations := 0 |}.

#[export] Instance graph_equiv : Equiv CompletionGraph := λ g g', erase g = erase g'.
#[export] Instance graph_equivalence : Equivalence (≡@{CompletionGraph}).
Proof. unfold equiv, graph_equiv. split; red; congruence. Qed.

(** ** One event, purely *)

Definition apply_event (event : Event) (g : CompletionGraph) : CompletionGraph :=
  match event with
  | EGraphCommitted _ => with_state StateCommitted g
  | EGraphTerminating e =>
      with_terminationRoot
        (SetResult (NewSuccessfulResult (Some (NewStateDatum (terminating_Status e)))) (gr_terminationRoot g))
        (with_state StateTerminating g)
  | EGraphCompleted _ => with_state StateCompleted g
  | EStageAdded e =>
      match getStrategyFromOperation (added_Op e) with
      | None => g
      | Some strat =>
          if bool_decide (added_Op e = terminationHook)
          then insert_hook (added_StageId e) (added_Closure e) strat g
          else match mapM (GetStage g) (added_Dependencies e) with
               | None => g
               | Some ds => insert_stage (new_stage (added_StageId e) (added_Op e) strat (added_Closure e)
                                            (StageRef <$> ds) [] MainExecPhase) ds g
               end
      end
  | EStageCompleted e =>
      match GetStage g (stagecompleted_StageId e), stagecompleted_Result e with
      | Some p, Some r => alter_stage (complete_stage r) p g
      | _, _ => g
      end
  | EStageComposed e =>
      match GetStage g (composed_ComposedStageId e) with
      | Some inner => alter_stage (set_composeReference (GetStage g (composed_StageId e))) inner g
      | None => g
      end
  | EFaasInvocationStarted _ | EFaasInvocationCompleted _ | EGraphCreated _ | EDelayScheduled _ => g
  end.

(** The graph a journal describes, starting from the graph (if any) before it. *)
Definition replay_event (og : option CompletionGraph) (event : Event) : option CompletionGraph :=
  match event with
  | EGraphCreated e => Some (New (created_FlowId e) (created_FunctionId e) 0)
  | e => apply_event e <$> og
  end.
Definition replay (og : option CompletionGraph) (events : list Event) : option CompletionGraph :=
  foldl replay_event og events.

(** ** [apply_event] respects the equivalence *)

Lemma untrigger_idem x : untrigger (untrigger x) = untrigger x.
Proof. done. Qed.
Lemma alter_untrigger f f' p (os : list CompletionStage) :
  (∀ x, untrigger (f x) = f' (untrigger x)) →
  untrigger <$> alter f p os = alter f' p (untrigger <$> os).
Proof.
  intros Hf. apply list_eq. intros i. rewrite list_lookup_fmap, !list_lookup_alter, !list_lookup_fmap.
  case_decide; [|done]. destruct (os !! p); simpl; [|done]. by rewrite Hf.
Qed.

Lemma erase_alter f f' p g :
  (∀ x, untrigger (f x) = f' (untrigger x)) →
  erase (alter_stage f p g) = alter_stage f' p (erase g).
Proof. intros Hf. unfold erase, alter_stage, with_objects. simpl. f_equal. by apply alter_untrigger. Qed.

Lemma alter_proper f f' p :
  (∀ x, untrigger (f x) = f' (untrigger x)) → Proper ((≡) ==> (≡)) (alter_stage f p).
Proof. intros Hf g g' Hg. unfold equiv, graph_equiv in *. by rewrite !(erase_alter f f'), Hg. Qed.

Lemma untrigger_complete r x :
  untrigger (complete_stage r x) = untrigger (complete_stage r (untrigger x)).
Proof. unfold complete_stage. simpl. by destruct (stage_result x). Qed.

Lemma foldl_add_child_untrigger p (ds : list nat) (os : list CompletionStage) :
  untrigger <$> foldl (λ os d, alter (add_child p) d os) os ds
  = foldl (λ os d, alter (add_child p) d os) (untrigger <$> os) ds.
Proof.
  revert os. induction ds as [|d ds IH]; intros os; simpl; [done|].
  rewrite IH. f_equal. by apply alter_untrigger.
Qed.

Lemma erase_insert_stage s ds g :
  stage_triggered s = false → erase (insert_stage s ds g) = insert_stage s ds (erase g).
Proof.
  intros Hs. unfold erase, insert_stage. simpl. rewrite length_fmap. f_equal.
  rewrite foldl_add_child_untrigger, fmap_app. do 3 f_equal. by destruct s; simplify_eq/=.
Qed.
Lemma erase_insert_hook id c st g : erase (insert_hook id c st g) = insert_hook id c st (erase g).
Proof.
  unfold erase, insert_hook. simpl. rewrite length_fmap. f_equal.
  destruct (gr_terminationChainHead g); [|by rewrite fmap_app].
  rewrite (alter_untrigger _ (set_dependencies [StageRef (length (gr_objects g))])) by done. by rewrite fmap_app.
Qed.

#[export] Instance apply_event_proper e : Proper ((≡) ==> (≡)) (apply_event e).
Proof.
  intros g g' Hg. assert (gr_stages g = gr_stages g') as Hst by (by injection Hg).
  assert (gr_terminationRoot g = gr_terminationRoot g') as Hrt by (by injection Hg).
  assert (GetStage g = GetStage g') as Hget by (unfold GetStage; by rewrite Hst).
  unfold equiv, graph_equiv in *. destruct e; simpl; try done.
  - rewrite Hrt. unfold erase in *. simpl in *. congruence.
  - unfold erase in *. simpl in *. congruence.
  - unfold erase in *. simpl in *. congruence.
  - rewrite Hget. destruct (getStrategyFromOperation _); [|done]. case_bool_decide.
    + by rewrite !erase_insert_hook, Hg.
    + destruct (mapM _ _); [|done]. by rewrite !erase_insert_stage, Hg.
  - rewrite Hget. destruct (GetStage g' _), (stagecompleted_Result e) as [c|]; try done.
    apply (alter_proper _ (λ x, untrigger (complete_stage c x))); [apply untrigger_complete|done].
  - rewrite Hget. destruct (GetStage g' (composed_ComposedStageId _)); [|done].
    by apply (alter_proper _ (set_composeReference (GetStage g' (composed_StageId e)))).
Qed.

Lemma replay_proper og og' es :
  erase <$> og = erase <$> og' → erase <$> replay og es = erase <$> replay og' es.
Proof.
  revert og og'. induction es as [|e es IH]; intros og og' Heq; simpl; [done|]. apply IH.
  assert (∀ e, erase <$> (apply_event e <$> og) = erase <$> (apply_event e <$> og')) as Hap.
  { intros e'. destruct og as [g|], og' as [g'|]; simpl in *; [|done..].
    f_equal. apply (apply_event_proper e'). unfold equiv, graph_equiv. congruence. }
  destruct e; [done|apply Hap..].
Qed.

(** ** Reading an equivalent graph *)

Lemma equiv_lookup g g' p x :
  g ≡ g' → gr_objects g !! p = Some x → ∃ y, gr_objects g' !! p = Some y ∧ untrigger x = untrigger y.
Proof.
  intros Hg Hx. assert (untrigger <$> gr_objects g = untrigger <$> gr_objects g') as Ho by (by injection Hg).
  apply (f_equal (λ l, l !! p)) in Ho. rewrite !list_lookup_fmap, Hx in Ho.
  destruct (gr_objects g' !! p) as [y|]; simpl in Ho; [|done]. injection Ho as Ho1. exists y. split; [done|].
  unfold untrigger. congruence.
Qed.

(** The fields of stages that differ in their trigger flag only. *)
Lemma untrigger_fields x y :
  untrigger x = untrigger y →
  stage_ID y = stage_ID x ∧ stage_result y = stage_result x ∧ stage_operation y = stage_operation x
  ∧ stage_strategy y = stage_strategy x ∧ stage_dependencies y = stage_dependencies x
  ∧ stage_composeReference y = stage_composeReference x ∧ stage_execPhase y = stage_execPhase x.
Proof. intros [=]. by split_and!. Qed.

Record equiv_shape (g g' : CompletionGraph) : Prop := {
  es_stages : gr_stages g' = gr_stages g;
  es_state : gr_state g' = gr_state g;
  es_root : gr_terminationRoot g' = gr_terminationRoot g;
  es_head : gr_terminationChainHead g' = gr_terminationChainHead g;
  es_length : length (gr_objects g') = length (gr_objects g);
}.
Lemma equiv_shape_of g g' : g ≡ g' → equiv_shape g g'.
Proof.
  intros Hg. split; try (by injection Hg).
  assert (untrigger <$> gr_objects g = untrigger <$> gr_objects g') as Ho by (by injection Hg).
  apply (f_equal length) in Ho. by rewrite !length_fmap in Ho.
Qed.

Lemma equiv_load_dep g g' d :
  g ≡ g' → option_map GetResult (load_dep g d) = option_map GetResult (load_dep g' d).
Proof.
  intros Hg. destruct d as [p|]; simpl; [|by rewrite (es_root _ _ (equiv_shape_of _ _ Hg))].
  destruct (gr_objects g !! p) as [x|] eqn:Hx.
  - destruct (equiv_lookup _ _ _ _ Hg Hx) as (y & -> & Hxy). simpl.
    by destruct (untrigger_fields _ _ Hxy) as (_ & -> & _).
  - destruct (gr_objects g' !! p) as [y|] eqn:Hy; [|done]. symmetry in Hg.
    destruct (equiv_lookup _ _ _ _ Hg Hy) as (x & Hx' & _). congruence.
Qed.

Lemma equiv_pending g g' ph : g ≡ g' → pending g ph → pending g' ph.
Proof.
  intros Hg (p & x & Hx & Hph & Hr). destruct (equiv_lookup _ _ _ _ Hg Hx) as (y & Hy & Hxy).
  destruct (untrigger_fields _ _ Hxy) as (_ & Er & _ & _ & _ & _ & Ep). exists p, y. split; [done|].
  split; [congruence|]. unfold IsResolved in *. simpl in *. by rewrite Er.
Qed.

(** Well-formedness does not look at the trigger flags. *)
#[export] Instance graph_wf_proper : Proper ((≡) ==> impl) graph_wf.
Proof.
  intros g g' Hg Hwf. destruct (equiv_shape_of _ _ Hg) as [Est Esa Ert Ehd Elen].
  assert (∀ p y, gr_objects g' !! p = Some y → ∃ x, gr_objects g !! p = Some x ∧ untrigger x = untrigger y) as Hinv.
  { intros p y Hy. symmetry in Hg. destruct (equiv_lookup _ _ _ _ Hg Hy) as (x & ? & ?). by exists x. }
  assert (∀ q r, no_hook_between g q r → no_hook_between g' q r) as Hbt.
  { intros q r Hn i z Hi Hz. destruct (Hinv _ _ Hz) as (z0 & Hz0 & Hzz).
    destruct (untrigger_fields _ _ Hzz) as (_ & _ & -> & _). by eapply Hn. }
  assert (∀ ph, ¬ pending g ph → ¬ pending g' ph) as Hpe.
  { intros ph Hn Hp. apply Hn. eapply equiv_pending; [by symmetry|done]. }
  split.
  - intros id p. rewrite Est. intros Hp. destruct (wf_map _ Hwf _ _ Hp) as (x & Hx & <-).
    destruct (equiv_lookup _ _ _ _ Hg Hx) as (y & Hy & Hxy). exists y. split; [done|].
    by destruct (untrigger_fields _ _ Hxy) as (Ei & _).
  - intros p y Hy. destruct (Hinv _ _ Hy) as (x & Hx & Hxy). destruct (untrigger_fields _ _ Hxy) as (-> & _).
    rewrite Est. by apply (wf_obj _ Hwf).
  - intros p y Hy. destruct (Hinv _ _ Hy) as (x & Hx & Hxy).
    destruct (untrigger_fields _ _ Hxy) as (_ & _ & Eo & Es & Ed & Ec & Ep).
    destruct (wf_stage _ Hwf _ _ Hx) as [H1 H2 H3 H4]. split; rewrite ?Eo, ?Es, ?Ed, ?Ec, ?Ep, ?Elen; try done.
    eapply Forall_impl; [exact H3|]. intros d [v Hv]. pose proof (equiv_load_dep g g' d Hg) as Heq.
    rewrite Hv in Heq. by destruct (load_dep g' d).
  - intros p y Hy. destruct (Hinv _ _ Hy) as (x & Hx & Hxy).
    destruct (untrigger_fields _ _ Hxy) as (_ & _ & -> & _ & -> & _). by apply (wf_acyclic _ Hwf).
  - intros h. rewrite Ehd. intros Hh. destruct (wf_head _ Hwf _ Hh) as (x & Hx & Hop & Hd).
    destruct (equiv_lookup _ _ _ _ Hg Hx) as (y & Hy & Hxy). exists y.
    by destruct (untrigger_fields _ _ Hxy) as (_ & _ & -> & _ & -> & _).
  - intros p y Hy Hop. destruct (Hinv _ _ Hy) as (x & Hx & Hxy). unfold hook_linked.
    destruct (untrigger_fields _ _ Hxy) as (_ & _ & Eo & _ & Ed & _). rewrite Ed, Ehd, Elen.
    rewrite Eo in Hop. destruct (wf_chain _ Hwf _ _ Hx Hop) as [(? & ? & ?)|(q & z & ? & ? & Hz & ? & ?)]; [left; auto|].
    right. destruct (equiv_lookup _ _ _ _ Hg Hz) as (z' & Hz' & Hzz). exists q, z'.
    destruct (untrigger_fields _ _ Hzz) as (_ & _ & -> & _). split_and!; auto.
  - rewrite Elen. apply (wf_size _ Hwf).
  - destruct (wf_safe _ Hwf) as (H1 & H2 & H3). unfold lifecycle_safe. rewrite Esa, Ert. split_and!; auto.
Qed.

(** ** The grammar of journals *)

(** The graphs a journal may describe: well-formed, their stages numbered in
    order of creation, and no more of them than the service accepts. *)
Record planned (g : CompletionGraph) : Prop := {
  pl_wf : graph_wf g;
  pl_ids : ids_dense g;
  pl_size : length (gr_objects g) ≤ 1000;
}.

(** May the event follow, when the journal so far describes [g]? *)
Definition event_ok (g : CompletionGraph) (event : Event) : Prop :=
  match event with
  | EGraphCreated _ => False
  | EGraphCommitted _ => gr_state g = StateInitial
  | EGraphTerminating _ => gr_state g = StateCommitted ∧ ¬ pending g MainExecPhase
  | EGraphCompleted _ => gr_state g = StateTerminating ∧ ¬ pending g TerminationExecPhase
  | EStageAdded e =>
      2 ≤ rank (gr_state g) ∧ size (gr_stages g) < 1000 ∧ added_StageId e = NextStageID g
      ∧ is_Some (mapM (GetStage g) (added_Dependencies e))
      ∧ match getStrategyFromOperation (added_Op e) with
        | Some strat => bad_arity strat (length (added_Dependencies e)) = false
        | None => False
        end
  | EStageCompleted e => is_Some (GetStage g (stagecompleted_StageId e)) ∧ is_Some (stagecompleted_Result e)
  | EStageComposed e =>
      is_Some (GetStage g (composed_StageId e)) ∧ is_Some (GetStage g (composed_ComposedStageId e))
  | EFaasInvocationStarted e => is_Some (GetStage g (started_StageId e))
  | EFaasInvocationCompleted _ => True
  | EDelayScheduled e => is_Some (GetStage g (delay_StageId e))
  end.

(** The first event creates the graph, no later one does. *)
Definition allowed (og : option CompletionGraph) (event : Event) : Prop :=
  match og with
  | None => match event with EGraphCreated _ => True | _ => False end
  | Some g => event_ok g event
  end.
Fixpoint valid (og : option CompletionGraph) (events : list Event) : Prop :=
  match events with
  | [] => True
  | e :: rest => allowed og e ∧ valid (replay_event og e) rest
  end.

#[export] Instance event_ok_dec g e : Decision (event_ok g e).
Proof. destruct e; simpl; try apply _. destruct (getStrategyFromOperation _); apply _. Defined.
#[export] Instance allowed_dec og e : Decision (allowed og e).
Proof. destruct og; simpl; [apply _|]. destruct e; apply _. Defined.
#[export] Instance valid_dec og es : Decision (valid og es).
Proof. revert og. induction es as [|e es IH]; intros og; simpl; apply _. Defined.

Definition plan (og : option CompletionGraph) : Prop :=
  match og with Some g => planned g | None => True end.

#[export] Instance planned_proper : Proper ((≡) ==> impl) planned.
Proof.
  intros g g' Hg [Hwf Hids Hsz]. destruct (equiv_shape_of _ _ Hg) as [Est _ _ _ Elen]. split.
  - by rewrite <- Hg.
  - unfold ids_dense. by rewrite Est.
  - by rewrite Elen.
Qed.
#[export] Instance event_ok_proper : Proper ((≡) ==> eq ==> impl) event_ok.
Proof.
  intros g g' Hg e ? <-. destruct (equiv_shape_of _ _ Hg) as [Est Esa _ _ _].
  assert (GetStage g' = GetStage g) as Eg by (unfold GetStage; by rewrite Est).
  assert (∀ ph, ¬ pending g ph → ¬ pending g' ph) as Hpe.
  { intros ph Hn Hp. apply Hn. eapply equiv_pending; [by symmetry|done]. }
  destruct e; unfold impl, event_ok, NextStageID; rewrite ?Esa, ?Est, ?Eg; naive_solver.
Qed.

Lemma plan_erase og og' : erase <$> og = erase <$> og' → plan og → plan og'.
Proof. destruct og, og'; simpl; try done. intros Hg%(inj Some). by apply planned_proper. Qed.
Lemma replay_event_erase og og' e :
  erase <$> og = erase <$> og' → erase <$> replay_event og e = erase <$> replay_event og' e.
Proof. apply (replay_proper og og' [e]). Qed.
Lemma allowed_erase og og' e : erase <$> og = erase <$> og' → allowed og e → allowed og' e.
Proof. destruct og, og'; simpl; try done. intros Hg%(inj Some). by apply event_ok_proper. Qed.
Lemma valid_erase og og' es : erase <$> og = erase <$> og' → valid og es → valid og' es.
Proof.
  revert og og'. induction es as [|e es IH]; intros og og' Heq; simpl; [done|]. intros [Ha Hv].
  split; [by eapply allowed_erase|]. eapply IH; [|exact Hv]. by apply replay_event_erase.
Qed.

Lemma valid_app og es es' : valid og (es ++ es') ↔ valid og es ∧ valid (replay og es) es'.
Proof. revert og. induction es as [|e es IH]; intros og; simpl; [naive_solver|]. rewrite IH. naive_solver. Qed.
Lemma replay_app og es es' : replay og (es ++ es') = replay (replay og es) es'.
Proof. unfold replay. apply foldl_app. Qed.

(** ** Valid journals describe planned graphs *)

Lemma planned_evolves g g' : planned g → evolves g g' → planned g'.
Proof.
  intros [Hwf Hids Hsz] Hev. split; [by eapply evolves_wf| |by rewrite (evolves_length _ _ Hev)].
  unfold ids_dense. by rewrite (ev_stages _ _ Hev).
Qed.

Lemma planned_grows x g g' :
  planned g → size (gr_stages g) < 1000 → grows x g g' → stage_ID x = NextStageID g → graph_wf g' → planned g'.
Proof.
  intros [Hwf Hids Hsz] Hlt Hgr Hid Hwf'. split; [done|by apply (ids_grows x g)|].
  rewrite (grows_length _ _ _ Hgr). rewrite (size_stages _ Hwf) in Hlt. lia.
Qed.

Lemma apply_added_planned e g : planned g → event_ok g (EStageAdded e) → planned (apply_event (EStageAdded e) g).
Proof.
  intros Hpl (Hrank & Hlt & Hid & [ds Hds] & Har). destruct (Hpl) as [Hwf Hids Hsz]. simpl.
  destruct (getStrategyFromOperation (added_Op e)) as [strat|] eqn:Hst; [|done].
  assert (gr_stages g !! added_StageId e = None) as Hfresh.
  { rewrite Hid. exact (ids_fresh g Hwf Hids). }
  case_bool_decide as Hop.
  - rewrite Hop in Hst. destruct (insert_hook_grows (added_StageId e) (added_Closure e) strat g Hwf) as [ch Hgr].
    eapply planned_grows; [done|done|exact Hgr|done|]. apply (insert_hook_wf g Hwf _ _ strat Hst Hrank); [done|lia].
  - rewrite Hds. assert (Forall (λ d, d < length (gr_objects g)) ds) as Hdlt.
    { apply mapM_Some in Hds. apply Forall_lookup. intros i d Hd.
      destruct (Forall2_lookup_r _ _ _ _ _ Hds Hd) as (id & _ & Hg).
      destruct (wf_map _ Hwf _ _ Hg) as (y & Hy & _). by eapply lookup_lt_Some. }
    assert (length ds = length (added_Dependencies e)) as Hlen by by apply mapM_Some, Forall2_length in Hds.
    eapply planned_grows; [done|done|by apply insert_stage_grows|done|].
    apply insert_stage_wf; try done; [lia|congruence].
Qed.

Lemma apply_event_planned e g : planned g → event_ok g e → planned (apply_event e g).
Proof.
  intros Hpl Hok. destruct e; try done; try (by apply apply_added_planned);
    (eapply planned_evolves; [exact Hpl|]); simpl in *.
  - destruct Hok as [Hst Hp]. etrans; [by apply evolves_terminating|]. by apply evolves_with_root.
  - destruct Hok as [Hst Hp]. by apply evolves_completed.
  - by apply evolves_committed.
  - destruct Hok as [[p ->] [r ->]]. apply evolves_complete.
  - destruct Hok as [[o Ho] [i ->]]. rewrite Ho. apply evolves_set_compose.
    destruct (wf_map _ (pl_wf _ Hpl) _ _ Ho) as (y & Hy & _). by eapply lookup_lt_Some.
Qed.

Lemma planned_New id fn t : planned (New id fn t).
Proof. split; [apply quiescent_New|done|simpl; lia]. Qed.

Lemma replay_event_plan og e : plan og → allowed og e → plan (replay_event og e).
Proof.
  destruct og as [g|]; simpl; intros Hpl Hok; [|destruct e; try done; apply planned_New].
  destruct e; [done|by apply apply_event_planned..].
Qed.
Lemma replay_plan og es : plan og → valid og es → plan (replay og es).
Proof.
  revert og. induction es as [|e es IH]; intros og Hpl; simpl; [done|]. intros [Ha Hv].
  apply IH; [by apply replay_event_plan|done].
Qed.

(** ** Stages are never lost *)

Definition no_create (es : list Event) : Prop :=
  Forall (λ e, match e with EGraphCreated _ => False | _ => True end) es.

Lemma apply_keeps_stage e g id : is_Some (GetStage g id) → is_Some (GetStage (apply_event e g) id).
Proof.
  unfold GetStage. intros Hid. assert (∀ k p, is_Some (<[k:=p]> (gr_stages g) !! id)) as Hins.
  { intros k p. destruct (decide (k = id)) as [->|]; [by rewrite lookup_insert_eq|by rewrite lookup_insert_ne]. }
  destruct e; simpl; try done; repeat case_match; simpl; auto.
Qed.
Lemma replay_keeps_stage es g id :
  no_create es → is_Some (GetStage g id) → ∃ g', replay (Some g) es = Some g' ∧ is_Some (GetStage g' id).
Proof.
  revert g. induction es as [|e es IH]; intros g; [by exists g|]. intros [He Hes]%Forall_cons Hid.
  destruct (IH (apply_event e g) Hes (apply_keeps_stage e g id Hid)) as (g' & Hg' & Hid').
  exists g'. split; [|done]. rewrite <- Hg'. by destruct e.
Qed.
Lemma apply_added e g :
  is_Some (getStrategyFromOperation (added_Op e)) → is_Some (mapM (GetStage g) (added_Dependencies e)) →
  is_Some (GetStage (apply_event (EStageAdded e) g) (added_StageId e)).
Proof.
  intros [strat Hst] [ds Hds]. unfold GetStage. simpl. rewrite Hst, Hds.
  case_bool_decide; simpl; by rewrite lookup_insert_eq.
Qed.
Lemma valid_no_create g es : valid (Some g) es → no_create es.
Proof.
  revert g. induction es as [|e es IH]; intros g; [constructor|]. intros [Ha Hv].
  destruct e; [done|constructor; [done|by eapply IH]..].
Qed.
