(* ===== verification/EventSourcing.v ===== *)
(** * The journal determines the graph

    The graph of a running actor is, at any time, the graph obtained by
    applying the events of its journal in order ("is" up to [≡], see Journal),
    and the journal follows the grammar [valid]. *)

From S2P Require Import Prelude Model Stage StageFacts Graph GraphFacts GraphSpec.
From S2P Require Import Persistence GraphActor ActorSpec ActorCommands Returns Journal.

Section sourcing.
Context {P : Type} `{!ProviderState P} `{!ReliableProvider P} `{!MapOrder} `{!Clock}.
Abbreviation A := (graphActor P).
Implicit Types s : A.

(** From [s] to [s'] the events [es] went to the journal, the graph is what
    [es] make of [og], and, if [og] is the graph of a valid journal, [es] may
    follow it. *)
Definition extends (og : option CompletionGraph) (s s' : A) : Prop :=
  ∃ es, actor_journal s' = actor_journal s ++ es
    ∧ Name (ga_persistence s') = Name (ga_persistence s)
    ∧ erase <$> ga_graph s' = erase <$> replay og es
    ∧ (is_Some og → no_create es)
    ∧ (plan og → valid og es).

Definition sourced s s' : Prop := extends (ga_graph s) s s'.
(** The event [e], already in the journal, is applied, then others are sourced. *)
Definition applies (e : Event) s s' : Prop := extends (replay_event (ga_graph s) e) s s'.

Lemma erase_is_Some og og' : erase <$> og = erase <$> og' → is_Some og → is_Some og'.
Proof. destruct og, og'; simpl; naive_solver. Qed.
Lemma replay_is_Some og es : is_Some og → is_Some (replay og es).
Proof.
  revert og. induction es as [|e es IH]; intros og [g ->]; [by eexists|]. apply IH. destruct e; by eexists.
Qed.

Lemma extends_trans og s1 s2 s3 : extends og s1 s2 → sourced s2 s3 → extends og s1 s3.
Proof.
  intros (es & J1 & N1 & G1 & C1 & V1) (es' & J2 & N2 & G2 & C2 & V2). exists (es ++ es'). split_and!.
  - by rewrite J2, J1, app_assoc.
  - congruence.
  - rewrite replay_app, G2. by apply replay_proper.
  - intros Hog. apply Forall_app. split; [by apply C1|]. apply C2.
    eapply erase_is_Some; [symmetry; exact G1|]. by apply replay_is_Some.
  - intros Hpl. apply valid_app. split; [by apply V1|]. eapply valid_erase; [exact G1|]. apply V2.
    eapply plan_erase; [symmetry; exact G1|]. apply replay_plan; auto.
Qed.
Lemma extends_same og s s' :
  ga_persistence s' = ga_persistence s → erase <$> ga_graph s' = erase <$> og → extends og s s'.
Proof.
  intros Ep Eg. exists []. unfold actor_journal. rewrite Ep, app_nil_r. split_and!; try done. constructor.
Qed.

#[local] Instance sourced_preorder : PreOrder sourced.
Proof.
  split; [intros s; by apply extends_same|]. intros s1 s2 s3. apply extends_trans.
Qed.

#[local] Instance sourced_framed : Framed sourced.
Proof.
  split; [apply _| |].
  - intros s s' Eg Ep _. apply extends_same; [done|by rewrite Eg].
  - intros s g Hg. apply extends_same; [done|]. by rewrite Hg.
Qed.

Lemma returns_then {B C} e (m : M A B) (k : B → M A C) :
  returns (applies e) m → (∀ b, returns sourced (k b)) → returns (applies e) (m ≫= k).
Proof. intros Hm Hk. eapply returns_bind; eauto. intros s1 s2 s3. apply extends_trans. Qed.

(** A mutation of the graph that is, up to [≡], the event [e]. *)
Lemma returns_modify_graph f : (∀ g, f g ≡ g) → returns sourced (modify_graph f : M A _).
Proof.
  intros Hf s b s' Hrun. destruct (modify_graph_ret _ _ _ _ Hrun) as (g & Hg & Hg' & Ep).
  apply extends_same; [done|]. rewrite Hg, Hg'. simpl. f_equal. apply Hf.
Qed.

Lemma set_triggered_equiv p g : alter_stage set_triggered p g ≡ g.
Proof.
  unfold equiv, graph_equiv. rewrite (erase_alter _ (λ x, x)) by done.
  unfold alter_stage, with_objects. rewrite list_alter_id by done. by destruct g.
Qed.
Lemma next_iteration_equiv g : next_iteration g ≡ g.
Proof. done. Qed.
Lemma update_startTime_equiv e g : update_startTime e g ≡ g.
Proof. by destruct (update_startTime_eq e g) as [t ->]. Qed.

#[local] Hint Resolve returns_modify_graph set_triggered_equiv next_iteration_equiv update_startTime_equiv : returns.

Lemma returns_requestTrigger p : returns sourced (requestTrigger p : M A _).
Proof. unfold requestTrigger. walk_returns. Qed.

(** The graph has just been found finished in its current state. *)
Definition finished (st : State) (ph : ExecutionPhase) s : Prop :=
  ∃ g, ga_graph s = Some g ∧ gr_state g = st ∧ getPendingCount g ph = 0%Z.
Definition returns_when {B} (pre : A → Prop) (m : M A B) : Prop :=
  ∀ s b s', pre s → m s = Ret b s' → sourced s s'.

Definition listener_sourced (L : CompletionEventListener A) : Prop :=
  (∀ p rs, returns sourced (OnExecuteStage L p rs)) ∧ (∀ p r, returns sourced (OnCompleteStage L p r))
  ∧ (∀ p q, returns sourced (OnComposeStage L p q))
  ∧ returns_when (finished StateCommitted MainExecPhase) (OnGraphExecutionFinished L)
  ∧ returns_when (finished StateTerminating TerminationExecPhase) (OnGraphComplete L).

(** Reading the graph: the rest may use that it is the graph of the state. *)
Lemma returns_read_graph {B} (R : A → A → Prop) (k : CompletionGraph → M A B) :
  (∀ g s b s', ga_graph s = Some g → k g s = Ret b s' → R s s') → returns R (get_graph ≫= k).
Proof.
  intros Hk s b s'. unfold get_graph, get_state, mbind, M_bind, deref, mret, M_ret. simpl.
  destruct (ga_graph s) as [g|] eqn:Hg; simpl; [by eapply Hk|done].
Qed.

Section handlers.
Context (L : CompletionEventListener A).
Context (HLe : ∀ p rs, returns sourced (OnExecuteStage L p rs)) (HLc : ∀ p r, returns sourced (OnCompleteStage L p r)).
Context (HLo : ∀ p q, returns sourced (OnComposeStage L p q)).
Context (HLf : returns_when (finished StateCommitted MainExecPhase) (OnGraphExecutionFinished L)).
Context (HLg : returns_when (finished StateTerminating TerminationExecPhase) (OnGraphComplete L)).

Lemma returns_trigger p status rs : returns sourced (trigger L p status rs).
Proof.
  unfold trigger. walk_returns. destruct (if status then _ else _); unfold run_execution, succeedWithEmpty,
    invokeWithoutArgs, invokeWithResult, completeExternally, invokeWithResultOrError, propagateResult; walk_returns.
Qed.
Lemma returns_triggerReadyStages : returns sourced (triggerReadyStages L).
Proof. apply returns_range_stages; [apply _|]. intros p. walk_returns; auto using returns_requestTrigger, returns_trigger. Qed.
Lemma returns_checkForExecutionFinished : returns sourced (checkForExecutionFinished L).
Proof.
  apply returns_read_graph. intros g s b s' Hg. destruct (gr_state g) eqn:Hst.
  - by eapply (returns_ret sourced).
  - destruct (Z.eqb_spec (getPendingCount g MainExecPhase) 0); [|by eapply (returns_ret sourced)].
    apply HLf. by exists g.
  - destruct (Z.eqb_spec (getPendingCount g TerminationExecPhase) 0); [|by eapply (returns_ret sourced)].
    apply HLg. by exists g.
  - by eapply (returns_ret sourced).
Qed.
Lemma returns_tryCompleteComposedStage o i : returns sourced (tryCompleteComposedStage L o i).
Proof. unfold tryCompleteComposedStage. walk_returns. Qed.
Lemma returns_handleResult p r : returns sourced (handleResult L p r).
Proof.
  unfold handleResult. walk_returns. destruct (strat_ResultHandling _);
    unfold run_result_handling, invocationResult, referencedStageResult, parentStageResult, noResultStrategy; walk_returns.
Qed.
Lemma returns_Recover : returns sourced (Recover L).
Proof.
  unfold Recover. walk_returns; auto using returns_triggerReadyStages, returns_checkForExecutionFinished.
  apply returns_range_stages; [apply _|]. intros p. walk_returns. apply returns_requestTrigger.
Qed.
End handlers.

(** *** Handlers apply their event *)

Lemma applies_graph e g g' s s' :
  match e with EGraphCreated _ => False | _ => True end →
  ga_graph s = Some g → ga_graph s' = Some g' → ga_persistence s' = ga_persistence s →
  g' ≡ apply_event e g → applies e s s'.
Proof.
  intros He Hg Hg' Ep Heq. apply extends_same; [done|]. rewrite Hg, Hg'.
  destruct e; simpl; [done|..]; f_equal; exact Heq.
Qed.
Lemma returns_apply e f :
  match e with EGraphCreated _ => False | _ => True end →
  (∀ g, f g ≡ apply_event e g) → returns (applies e) (modify_graph f : M A _).
Proof.
  intros He Hf s b s' Hrun. destruct (modify_graph_ret _ _ _ _ Hrun) as (g & Hg & Hg' & Ep).
  by eapply applies_graph.
Qed.

Lemma complete_ret p r g s b s' :
  ga_graph s = Some g → complete p (Some r) s = Ret b s' →
  ∃ g', ga_graph s' = Some g' ∧ g' ≡ alter_stage (complete_stage r) p g ∧ ga_persistence s' = ga_persistence s.
Proof.
  intros Hg. unfold complete, get_stage, modify_graph, get_graph, get_state, modify, mbind, M_bind, deref, mret, M_ret.
  simpl. rewrite Hg. simpl. destruct (gr_objects g !! p) as [x|] eqn:Hx; simpl; [|done].
  rewrite Hg. simpl. rewrite list_lookup_alter_eq, Hx. simpl.
  assert (∀ f : CompletionStage → CompletionStage, f x = complete_stage r x →
    alter_stage f p g ≡ alter_stage (complete_stage r) p g) as Hext.
  { intros f Hf. unfold equiv, graph_equiv, erase, alter_stage, with_objects. simpl. f_equal.
    f_equal. apply list_alter_ext; [|done]. intros y Hy. by simplify_eq. }
  destruct (stage_result x) eqn:Hr; simpl; intros [= _ <-]; simpl.
  - eexists. split_and!; [done| |done]. apply Hext. unfold complete_stage. by rewrite Hr.
  - eexists. split_and!; [done| |done].
    transitivity (alter_stage (set_result (Some r) ∘ set_triggered) p g).
    { unfold alter_stage, with_objects. simpl. by rewrite list_alter_alter_eq. }
    apply Hext. unfold complete_stage. by rewrite Hr.
Qed.

Lemma applies_noop e s s' : replay_event (ga_graph s) e = ga_graph s → sourced s s' → applies e s s'.
Proof. unfold applies, sourced. by intros ->. Qed.

(** What [m] returns from [s], then sourced steps. *)
Lemma then_sourced {B C} og (m : M A B) (k : B → M A C) s c s' :
  (m ≫= k) s = Ret c s' → (∀ b s1, m s = Ret b s1 → extends og s s1) →
  (∀ b, returns sourced (k b)) → extends og s s'.
Proof.
  unfold mbind, M_bind. destruct (m s) as [b s1| |] eqn:Hm; [|done..]. intros Hk Hm' Hs.
  eapply extends_trans; [by eapply Hm'|by eapply Hs].
Qed.

Section dispatch.
Context (L : CompletionEventListener A) (HL : listener_sourced L).

Lemma applies_terminating e b : returns (applies (EGraphTerminating e)) (handleTerminating L e b).
Proof.
  destruct HL as (H1 & H2 & H3 & H4 & H5). intros s c s' Hrun.
  apply bind_ret_inv in Hrun as (x & s1 & Hm1 & Hrun). apply bind_ret_inv in Hrun as (y & s2 & Hm2 & Hrun).
  destruct (modify_graph_ret _ _ _ _ Hm1) as (g & Hg & Hg1 & Ep1).
  destruct (modify_graph_ret _ _ _ _ Hm2) as (g1 & Hg1' & Hg2 & Ep2).
  rewrite Hg1 in Hg1'. injection Hg1' as <-. apply (extends_trans _ s s2).
  - eapply applies_graph; [done|exact Hg|exact Hg2|congruence|reflexivity].
  - revert Hrun. generalize s2 c s'. change (returns (A:=unit) sourced
      ((if b then triggerReadyStages L else mret tt);; checkForExecutionFinished L)).
    walk_returns; auto using returns_triggerReadyStages, returns_checkForExecutionFinished.
Qed.

Lemma applies_added e b :
  added_Op e ≠ terminationHook → returns (applies (EStageAdded e)) (handleStageAdded L e b).
Proof.
  destruct HL as (H1 & H2 & H3 & H4 & H5). intros Hop. unfold handleStageAdded.
  destruct (getStrategyFromOperation (added_Op e)) as [strat|] eqn:Hst; [|by intros ???].
  destruct (bad_arity _ _); [by intros ???|]. apply returns_read_graph. intros g s c s' Hg.
  destruct (GetStage g (added_StageId e)); [done|].
  destruct (mapM (GetStage g) (added_Dependencies e)) as [ds|] eqn:Hds; [|done]. intros Hrun.
  eapply then_sourced; [exact Hrun| |intros ?; cbv beta; walk_returns; by apply returns_triggerReadyStages].
  intros x s1 Hm. destruct (modify_graph_ret _ _ _ _ Hm) as (g0 & Hg0 & Hg1 & Ep).
  rewrite Hg in Hg0. injection Hg0 as <-. eapply applies_graph; [done|done|exact Hg1|done|].
  simpl. rewrite Hst, Hds, bool_decide_eq_false_2 by done. done.
Qed.

Lemma applies_completed e b : returns (applies (EStageCompleted e)) (handleStageCompleted L e b).
Proof.
  destruct HL as (H1 & H2 & H3 & H4 & H5). unfold handleStageCompleted.
  destruct (stagecompleted_Result e) as [r|] eqn:Hr; [|by intros ???].
  apply (returns_read_graph (applies (EStageCompleted e))). intros g s c s' Hg.
  destruct (GetStage g (stagecompleted_StageId e)) as [p|] eqn:Hp; [|done]. intros Hrun.
  apply bind_ret_inv in Hrun as (? & ? & Hd & Hrun). injection Hd as <- <-.
  eapply then_sourced; [exact Hrun| |].
  - intros x s1 Hc. destruct (complete_ret _ _ _ _ _ _ Hg Hc) as (g' & Hg' & Heq & Ep).
    eapply applies_graph; [done|exact Hg|exact Hg'|done|]. simpl. by rewrite Hp, Hr.
  - intros x. cbv beta. walk_returns; auto using returns_tryCompleteComposedStage, returns_triggerReadyStages,
      returns_checkForExecutionFinished.
Qed.

Lemma applies_composed e : returns (applies (EStageComposed e)) (handleStageComposed L e).
Proof.
  destruct HL as (H1 & H2 & H3 & H4 & H5). unfold handleStageComposed.
  apply returns_read_graph. intros g s c s' Hg.
  destruct (GetStage g (composed_ComposedStageId e)) as [q|] eqn:Hq; [|done]. intros Hrun.
  apply bind_ret_inv in Hrun as (? & ? & Hd & Hrun). injection Hd as <- <-.
  eapply then_sourced; [exact Hrun| |by intros; cbv beta; apply returns_tryCompleteComposedStage].
  intros x s1 Hm. destruct (modify_graph_ret _ _ _ _ Hm) as (g0 & Hg0 & Hg1 & Ep).
  rewrite Hg in Hg0. injection Hg0 as <-. eapply applies_graph; [done|done|exact Hg1|done|].
  simpl. by rewrite Hq.
Qed.

Lemma applies_dispatch e b :
  match e with EGraphCreated _ => False | _ => True end → returns (applies e) (dispatch_event L e b).
Proof.
  destruct (HL) as (H1 & H2 & H3 & H4 & H5).
  assert (∀ {B} e (m : M A B), (∀ og, replay_event og e = og) → returns sourced m → returns (applies e) m) as Hno.
  { intros B e' m He Hm s x s' Hrun. apply applies_noop; [apply He|by eapply Hm]. }
  assert (∀ (og : option CompletionGraph), (λ g, g) <$> og = og) as Hid by by intros [].
  destruct e; intros He; cbn [dispatch_event]; [done|..].
  - apply Hno; [by intros []|walk_returns].
  - apply applies_terminating.
  - by apply returns_apply.
  - apply returns_then; [by apply returns_apply|intros _; by apply returns_checkForExecutionFinished].
  - case_bool_decide as Hop; [|by apply applies_added]. unfold handleAddTerminationHook. simpl.
    apply returns_apply; [done|]. intros g. simpl. by rewrite Hop.
  - apply returns_then; [apply applies_completed|intros _; walk_returns].
  - apply applies_composed.
  - apply Hno; [by intros []|walk_returns].
  - apply Hno; [by intros []|]. destruct b; [|walk_returns]. unfold handleInvokeComplete. walk_returns. by apply returns_handleResult.
Qed.
End dispatch.

(** *** The actor *)

Lemma PersistReceive_ret e (q q' : persistent P) x :
  PersistReceive e q = Ret x q' →
  Name q' = Name q ∧ journal (Name q) (pers_provider q') = journal (Name q) (pers_provider q) ++ [e].
Proof.
  unfold PersistReceive, on_provider, zoom, get_state, with_mixin, modify, mbind, M_bind. simpl.
  pose proof (PersistEvent_ok (Name q) (mx_eventIndex (pers_mixin q)) e (pers_provider q)) as Hok.
  unfold wp in Hok. destruct (PersistEvent _ _ _ _) as [[] p'| |]; [|done..]. destruct Hok as (Hj & _ & _). simpl.
  unfold go_rem. destruct (Z.eqb (GetSnapshotInterval p') 0); simpl; [done|].
  destruct (Z.eqb _ 0); intros [= _ <-]; by split.
Qed.
Lemma persist_ret e s x s' :
  persist e s = Ret x s' →
  ga_graph s' = ga_graph s ∧ Name (ga_persistence s') = Name (ga_persistence s)
  ∧ actor_journal s' = actor_journal s ++ [e].
Proof.
  unfold persist, zoom. destruct (PersistReceive e (ga_persistence s)) as [y q'| |] eqn:Hp; [|done..].
  intros [= _ <-]. destruct (PersistReceive_ret _ _ _ _ Hp) as [Hn Hj]. split_and!; [done|done|].
  unfold actor_journal. simpl. by rewrite Hn.
Qed.

(** The event [e] was the first of those that went to the journal. *)
Definition sourced_by (e : Event) s s' : Prop :=
  ∃ es, actor_journal s' = actor_journal s ++ e :: es
    ∧ Name (ga_persistence s') = Name (ga_persistence s)
    ∧ erase <$> ga_graph s' = erase <$> replay (ga_graph s) (e :: es)
    ∧ (is_Some (ga_graph s) → no_create (e :: es))
    ∧ (plan (ga_graph s) → valid (ga_graph s) (e :: es)).
Lemma sourced_by_sourced e s s' : sourced_by e s s' → sourced s s'.
Proof. intros (es & ?). by exists (e :: es). Qed.

Definition not_created (e : Event) : Prop := match e with EGraphCreated _ => False | _ => True end.

(** Persisting an event and then applying it is sourced. *)
Lemma persist_then_applies e s s1 s' :
  not_created e → ga_graph s1 = ga_graph s → Name (ga_persistence s1) = Name (ga_persistence s) →
  actor_journal s1 = actor_journal s ++ [e] → (plan (ga_graph s) → allowed (ga_graph s) e) →
  is_Some (ga_graph s) → applies e s1 s' → sourced_by e s s'.
Proof.
  intros He Eg En Ej Ha [g Hg] (es & J & N & G & C & V). rewrite Eg in *. exists es. split_and!.
  - by rewrite J, Ej, <- app_assoc.
  - congruence.
  - exact G.
  - intros _. constructor; [done|]. apply C. rewrite Hg. destruct e; by eexists.
  - intros Hpl. split; [by apply Ha|]. apply V. apply replay_event_plan; auto.
Qed.
(** Persisting an event that does not concern the graph is sourced. *)
Lemma persist_sourced e g s x s' :
  (∀ og, replay_event og e = og) → ga_graph s = Some g → (planned g → event_ok g e) →
  persist e s = Ret x s' → sourced s s'.
Proof.
  intros He Hg Hok Hrun. destruct (persist_ret _ _ _ _ Hrun) as (Eg & En & Ej).
  exists [e]. split_and!; [done|done| | |].
  - simpl. by rewrite He, Eg.
  - intros _. constructor; [|constructor]. specialize (He None). by destruct e.
  - rewrite Hg. intros Hpl. simpl. auto.
Qed.

(** Taking a computation that returned apart, one read at a time. *)
Lemma sourced_from s s1 s' :
  ga_graph s1 = ga_graph s → ga_persistence s1 = ga_persistence s → sourced s1 s' → sourced s s'.
Proof. intros Eg Ep (es & Hes). exists es. unfold actor_journal in *. by rewrite <- Eg, <- Ep. Qed.
(** A completion without a result or of an unknown stage never gets past the
    graph. *)
Definition accepted (g : CompletionGraph) (e : Event) : Prop :=
  match e with EStageCompleted _ => event_ok g e | _ => True end.
Lemma dispatch_accepted L e b g s x s' :
  ga_graph s = Some g → dispatch_event L e b s = Ret x s' → accepted g e.
Proof.
  destruct e as [| | | | | |e| | |]; try done. intros Hg Hrun. apply bind_ret_inv in Hrun as (? & ? & Hrun & _).
  apply bind_ret_inv in Hrun as (? & ? & Hd & Hrun). destruct (stagecompleted_Result e) eqn:Hr; [|done].
  injection Hd as <- <-. apply get_graph_ret in Hrun as (g' & Hg' & Hrun). assert (g' = g) as -> by congruence.
  simpl. rewrite Hr. destruct (GetStage g _); [by split; eexists|done].
Qed.

Lemma persist_update L e s x s' :
  listener_sourced L → not_created e →
  (∀ g, ga_graph s = Some g → accepted g e → planned g → event_ok g e) →
  persistAndUpdate_with (UpdateWithEvent L) e s = Ret x s' →
  sourced s s' ∧ (is_Some (ga_graph s) → sourced_by e s s').
Proof.
  intros HL He Hok Hrun. unfold persistAndUpdate_with in Hrun.
  apply bind_ret_inv in Hrun as (? & ? & Hd & Hrun). injection Hd as <- <-.
  destruct (ga_graph s) as [g|] eqn:Hg; [|split; [by eapply (returns_ret sourced)|by intros []]].
  apply bind_ret_inv in Hrun as (? & s1 & Hp & Hrun). destruct (persist_ret _ _ _ _ Hp) as (Eg & En & Ej).
  assert (sourced_by e s s') as Hby; [|split; [by eapply sourced_by_sourced|done]].
  apply bind_ret_inv in Hrun as (r & ? & Hd & Hrun). injection Hd as <- <-.
  apply bind_ret_inv in Hrun as (? & s2 & Hm & Hrun).
  destruct (modify_graph_ret _ _ _ _ Hm) as (g1 & Hg1 & Hg2 & Ep2).
  pose proof (dispatch_accepted _ _ _ _ _ _ _ Hg2 Hrun) as Hv.
  assert (accepted g e) as Hv'.
  { assert (g1 = g) as -> by congruence. destruct (update_startTime_eq e g) as [t Et]. by rewrite Et in Hv. }
  assert (erase <$> replay_event (ga_graph s2) e = erase <$> replay_event (ga_graph s1) e) as Hev.
  { apply replay_event_erase. rewrite Hg2, Hg1. simpl. f_equal. apply update_startTime_equiv. }
  eapply (persist_then_applies e s s1); [done|congruence|exact En|exact Ej| |by eexists|].
  - rewrite Hg. simpl. auto.
  - destruct (applies_dispatch L HL e _ He _ _ _ Hrun) as (es & J & N & G & C & V). exists es. split_and!.
    + rewrite J. unfold actor_journal. by rewrite Ep2.
    + congruence.
    + rewrite G. by apply replay_proper.
    + intros Hs. apply C. eapply erase_is_Some; [symmetry; exact Hev|done].
    + intros Hpl. eapply valid_erase; [exact Hev|]. apply V. eapply plan_erase; [symmetry; exact Hev|done].
Qed.

Lemma planned_stage g p x : planned g → gr_objects g !! p = Some x → is_Some (GetStage g (stage_ID x)).
Proof. intros Hpl Hp. exists p. by apply (wf_obj _ (pl_wf _ Hpl)). Qed.

Lemma listener_is_sourced n : listener_sourced (listener n).
Proof.
  induction n as [|n IH]; [by repeat split|]. unfold listener_sourced. simpl. split_and!.
  - intros p rs s b s' Hrun. apply stamp_ret in Hrun as (ts & s1 & Eg & Ep & Hrun).
    apply get_graph_ret in Hrun as (g & Hg & Hrun). apply (get_stage_ret p g) in Hrun as (x & Hx & Hrun); [|done].
    apply (sourced_from s s1 s' Eg Ep). eapply then_sourced; [exact Hrun| |intros; apply (returns_emit sourced)].
    intros ? s2. apply (persist_sourced _ g); [by intros []|done|]. intros Hpl. by eapply planned_stage.
  - intros p r s b s' Hrun. apply stamp_ret in Hrun as (ts & s1 & Eg & Ep & Hrun).
    apply get_graph_ret in Hrun as (g & Hg & Hrun). apply (get_stage_ret p g) in Hrun as (x & Hx & Hrun); [|done].
    apply (sourced_from s s1 s' Eg Ep). eapply persist_update in Hrun as [? _]; [done|done|done|].
    by intros g' Hg' Hv _.
  - intros p q s b s' Hrun. apply stamp_ret in Hrun as (ts & s1 & Eg & Ep & Hrun).
    apply get_graph_ret in Hrun as (g & Hg & Hrun). apply (get_stage_ret p g) in Hrun as (x & Hx & Hrun); [|done].
    apply (get_stage_ret q g) in Hrun as (y & Hy & Hrun); [|done].
    apply (sourced_from s s1 s' Eg Ep). eapply persist_update in Hrun as [? _]; [done|done|done|].
    intros g' Hg' Hv Hpl. simplify_eq. split; by eapply planned_stage.
  - intros s b s' (g0 & Hg0 & Hst & Hpc) Hrun.
    apply bind_ret_inv in Hrun as (r & ? & Hd & Hrun). injection Hd as <- <-.
    destruct (Recovering _); [by eapply (returns_ret sourced)|]. apply stamp_ret in Hrun as (ts & s1 & Eg & Ep & Hrun).
    apply get_graph_ret in Hrun as (g & Hg & Hrun). apply (sourced_from s s1 s' Eg Ep).
    eapply persist_update in Hrun as [? _]; [done|done|done|]. intros g' Hg' _ Hpl.
    assert (g' = g0) as -> by congruence. split; [done|]. by apply pending_count; [apply Hpl|].
  - intros s b s' (g0 & Hg0 & Hst & Hpc) Hrun.
    apply bind_ret_inv in Hrun as (r & ? & Hd & Hrun). injection Hd as <- <-.
    destruct (Recovering _); [by eapply (returns_ret sourced)|]. apply stamp_ret in Hrun as (ts & s1 & Eg & Ep & Hrun).
    apply get_graph_ret in Hrun as (g & Hg & Hrun). apply (sourced_from s s1 s' Eg Ep).
    eapply then_sourced; [exact Hrun| |intros; cbv beta; walk_returns].
    intros ? s2 Hu. eapply persist_update in Hu as [? _]; [done|done|done|]. intros g' Hg' _ Hpl.
    assert (g' = g0) as -> by congruence. split; [done|]. by apply pending_count; [apply Hpl|].
Qed.

Lemma update_sourced n e s x s' :
  not_created e → (∀ g, ga_graph s = Some g → accepted g e → planned g → event_ok g e) →
  persistAndUpdateGraph n e s = Ret x s' → sourced s s' ∧ (is_Some (ga_graph s) → sourced_by e s s').
Proof. intros He Hok. apply persist_update; [apply listener_is_sourced|done|done]. Qed.
Lemma returns_scheduleDelay e : returns sourced (scheduleDelay e : M A _).
Proof. unfold scheduleDelay. walk_returns. Qed.

(** *** Commands *)

(** What is known of a command that has passed validation on the graph [g]. *)
Definition validated (g : CompletionGraph) (cmd : Command) : Prop :=
  match as_AddStageCommand cmd with
  | Some c => add_valid g (GetOperation c) (GetDependencyCount c)
  | None => True
  end
  ∧ match cmd with CAddStage msg => validateStages g (add_Deps msg) = true | _ => True end.

Lemma ValidateCommand_ret cmd s err s' :
  ValidateCommand cmd s = Ret err s' → s' = s ∧ (err = None → ∃ g, ga_graph s = Some g ∧ validated g cmd).
Proof.
  intros Hrun. apply get_graph_ret in Hrun as (g & Hg & Hrun).
  destruct (as_AddStageCommand cmd ≫= validate_add g (GetFlowId cmd)) as [e|] eqn:Hv; [by injection Hrun as <- <-|].
  assert (match as_AddStageCommand cmd with
          | Some c => add_valid g (GetOperation c) (GetDependencyCount c) | None => True end) as Hadd.
  { destruct (as_AddStageCommand cmd); [|done]. by eapply validate_add_None. }
  assert (s = s' ∧ (match cmd with CAddStage msg => err = None → validateStages g (add_Deps msg) = true
    | _ => True end) → s' = s ∧ (err = None → ∃ g, ga_graph s = Some g ∧ validated g cmd)) as Hdone.
  { intros [-> Hc]. split; [done|]. intros ->. exists g. split; [done|]. split; [done|]. destruct cmd; auto. }
  apply Hdone. unfold validate_by_type, HasValidValue, mbind, M_bind, deref, mret, M_ret in Hrun.
  destruct cmd; repeat case_match; simplify_eq; split; try done. by destruct (validateStages g _).
Qed.

Lemma validateCmd_ret cmd s b s' :
  validateCmd cmd s = Ret b s' →
  sourced s s' ∧ (b = true → s' = s ∧ match cmd with
                                     | CCreateGraph _ => ga_graph s = None
                                     | _ => ∃ g, ga_graph s = Some g ∧ validated g cmd
                                     end).
Proof.
  intros Hrun. apply bind_ret_inv in Hrun as (? & ? & Hd & Hrun). injection Hd as <- <-.
  assert (∀ e, (emit (Respond (RError e));; mret false) s = Ret b s' → sourced s s' ∧ b = false) as Herr.
  { intros e Hr. apply bind_ret_inv in Hr as ([] & s1 & He & Hr). injection Hr as <- <-.
    split; [by eapply (returns_emit sourced)|done]. }
  assert (∀ e, (emit (Respond (RError e));; mret false) s = Ret b s' → sourced s s' ∧ (b = true → s' = s ∧
    match cmd with CCreateGraph _ => ga_graph s = None | _ => ∃ g, ga_graph s = Some g ∧ validated g cmd end)) as Herr'.
  { intros e [? ->]%Herr. done. }
  destruct (ga_graph s) as [g|] eqn:Hg.
  - assert (∀ m : M A _, m = ValidateCommand cmd → (v ← m; match v with
        | Some e => emit (Respond (RError e));; mret false | None => mret true end) s = Ret b s' →
      sourced s s' ∧ (b = true → s' = s ∧ ∃ g', Some g = Some g' ∧ validated g' cmd)) as Hval.
    { intros m -> Hr. apply bind_ret_inv in Hr as (err & s1 & Hv & Hr).
      apply ValidateCommand_ret in Hv as [-> Hv]. destruct err as [e|]; [by apply Herr in Hr as [? ->]|].
      injection Hr as <- <-. split; [reflexivity|]. intros _. split; [done|]. rewrite <- Hg. auto. }
    destruct cmd; [by eapply Herr'|eapply Hval; [reflexivity|exact Hrun]..].
  - destruct cmd; [injection Hrun as <- <-; by split|by eapply Herr'..].
Qed.

(** The stage an event adds is in the graph afterwards. *)
Lemma sourced_by_added e g s s' :
  ga_graph s = Some g → sourced_by (EStageAdded e) s s' →
  is_Some (getStrategyFromOperation (added_Op e)) → is_Some (mapM (GetStage g) (added_Dependencies e)) →
  ∃ g', ga_graph s' = Some g' ∧ is_Some (GetStage g' (added_StageId e)).
Proof.
  intros Hg (es & _ & _ & G & C & _) Hst Hds. rewrite Hg in *. specialize (C (ltac:(by eexists))).
  apply Forall_cons in C as [_ C].
  destruct (replay_keeps_stage es (apply_event (EStageAdded e) g) (added_StageId e) C) as (g2 & Hg2 & Hid).
  { by apply apply_added. }
  change (replay (Some g) (EStageAdded e :: es)) with (replay (Some (apply_event (EStageAdded e) g)) es) in G.
  rewrite Hg2 in G. destruct (ga_graph s') as [g'|]; [|done]. exists g'. split; [done|].
  apply (inj Some) in G. unfold GetStage in *. by rewrite (es_stages _ _ (equiv_shape_of g' g2 G)) in Hid.
Qed.

(** A command that adds a stage without dependencies, and then does [k]. *)
Lemma add_then {B} n op (deps : list string) closure loc caller f (k : M A B) g s x s' :
  ga_graph s = Some g → add_valid g op (length deps) → is_Some (mapM (GetStage g) deps) →
  (ts ← stamp;
   persistAndUpdateGraph n (stage_added f (NextStageID g) op closure deps ts loc caller);; k) s = Ret x s' →
  (∀ g1 s1, ga_graph s1 = Some g1 → is_Some (GetStage g1 (NextStageID g)) → k s1 = Ret x s' → sourced s1 s') →
  sourced s s'.
Proof.
  intros Hg [Hrank Hst Har Hsz] Hds Hrun Hk. apply stamp_ret in Hrun as (ts & s1 & Eg & Ep & Hrun).
  apply (sourced_from s s1 s' Eg Ep). apply bind_ret_inv in Hrun as ([] & s2 & Hu & Hrun).
  apply update_sourced in Hu as [_ Hby]; [|done|].
  - specialize (Hby ltac:(rewrite Eg, Hg; by eexists)).
    destruct (sourced_by_added _ g s1 s2 ltac:(congruence) Hby Hst Hds) as (g2 & Hg2 & Hid).
    eapply extends_trans; [by eapply sourced_by_sourced|]. by eapply Hk.
  - intros g' Hg' _ Hpl. assert (g' = g) as -> by congruence. simpl. split_and!; try done.
    destruct (getStrategyFromOperation op) as [strat|]; [by apply Har|]. by destruct Hst.
Qed.

Lemma returns_create n msg s x s' :
  ga_graph s = None → executeCommand n (CCreateGraph msg) s = Ret x s' → sourced s s'.
Proof.
  intros Hg Hrun. apply stamp_ret in Hrun as (ts & s1 & Eg & Ep & Hrun). apply (sourced_from s s1 s' Eg Ep).
  apply bind_ret_inv in Hrun as (? & s2 & Hp & Hrun). destruct (persist_ret _ _ _ _ Hp) as (Eg2 & En & Ej).
  injection Hrun as _ <-. eexists [_]. split_and!; [exact Ej|exact En|done| |]; rewrite Eg, Hg; simpl; auto.
  by intros [].
Qed.

Lemma returns_complete_event n f id r ts : returns sourced (persistAndUpdateGraph n (stage_completed f id r ts) : M A _).
Proof. intros s x s' Hrun. apply update_sourced in Hrun as [? _]; [done|done|]. by intros g _ Hv _. Qed.

Lemma returns_executeCommand n cmd g s x s' :
  ga_graph s = Some g → validated g cmd → match cmd with CCreateGraph _ => False | _ => True end →
  executeCommand n cmd s = Ret x s' → sourced s s'.
Proof.
  intros Hg [Hadd Hv] Hcr Hrun. destruct cmd; unfold_command in Hrun; simpl in Hadd, Hv; try done;
    try (apply get_graph_ret in Hrun as (g0 & Hg0 & Hrun); rewrite Hg in Hg0; injection Hg0 as <-).
  - by eapply (returns_emit sourced).
  - eapply add_then; [exact Hg|done|by apply validateStages_mapM|exact Hrun|]. intros. by eapply (returns_emit sourced).
  - eapply (add_then n completedValue []); [exact Hg|done|by eexists|exact Hrun|]. clear Hrun. intros g1 s1 _ _. revert s1 x s'.
    change (returns (A:=unit) sourced (ts ← stamp; persistAndUpdateGraph n (stage_completed (value_FlowId r)
      (NextStageID g) (value_Value r) ts);; emit (Respond (RAddStage (value_FlowId r) (NextStageID g))) : M A _)).
    walk_returns. apply returns_complete_event.
  - eapply (add_then n delay []); [exact Hg|done|by eexists|exact Hrun|]. intros g1 s1 Hg1 Hid Hr.
    apply bind_ret_inv in Hr as (ms & s2 & Hms & Hr). injection Hms as <- <-.
    apply stamp_ret in Hr as (ts & s3 & Eg & Ep & Hr). simpl in Eg, Ep. apply (sourced_from s1 s3 s' Eg Ep).
    eapply then_sourced; [exact Hr| |intros; cbv beta; walk_returns; apply returns_scheduleDelay]. intros ? s4.
    apply (persist_sourced _ g1); [by intros []|congruence|by intros].
  - eapply (add_then n invokeFunction []); [exact Hg|done|by eexists|exact Hrun|]. intros g1 s1 Hg1 Hid Hr.
    apply stamp_ret in Hr as (ts & s3 & Eg & Ep & Hr). apply (sourced_from s1 s3 s' Eg Ep).
    eapply then_sourced; [exact Hr| |intros; cbv beta; walk_returns]. intros ? s4.
    apply (persist_sourced _ g1); [by intros []|congruence|by intros].
  - clear Hg. revert s x s' Hrun. match goal with |- ∀ s x s', ?m s = _ → _ => change (returns sourced m) end.
    walk_returns. apply returns_complete_event.
  - destruct (IsCommitted g) eqn:Hc; [by eapply (returns_emit sourced)|].
    apply stamp_ret in Hrun as (ts & s1 & Eg & Ep & Hrun). apply (sourced_from s s1 s' Eg Ep).
    eapply then_sourced; [exact Hrun| |intros; cbv beta; walk_returns]. intros ? s2 Hr.
    apply update_sourced in Hr as [? _]; [done|done|]. intros g' Hg' _ _. assert (g' = g) as -> by congruence.
    unfold IsCommitted in Hc. simpl. by destruct (gr_state g).
  - clear Hg. revert s x s' Hrun. match goal with |- ∀ s x s', ?m s = _ → _ => change (returns sourced m) end. walk_returns.
  - clear Hg. revert s x s' Hrun. match goal with |- ∀ s x s', ?m s = _ → _ => change (returns sourced m) end.
    walk_returns. apply returns_complete_event.
  - apply stamp_ret in Hrun as (ts & s1 & Eg & Ep & Hrun). apply (sourced_from s s1 s' Eg Ep).
    by apply update_sourced in Hrun as [? _].
  - by eapply (returns_emit sourced).
  - by eapply (returns_ret sourced).
Qed.

Lemma sourced_receiveCommand n cmd : returns sourced (receiveCommand n cmd : M A _).
Proof.
  intros s x s' Hrun. apply bind_ret_inv in Hrun as (b & s1 & Hv & Hrun).
  apply validateCmd_ret in Hv as [Hs Hv]. destruct b; [|by injection Hrun as _ <-].
  destruct (Hv eq_refl) as [-> Hcmd]. destruct cmd; [by eapply returns_create|..];
    destruct Hcmd as (g & Hg & Hval); by eapply returns_executeCommand.
Qed.

(** One command handled to the end. *)
Definition handles (n : nat) s s' : Prop := ∃ cmd, receiveCommand n cmd s = Ret tt s'.

(** C2: whenever a command has been handled, the events it added
    to the journal, applied in order to the graph before, give the graph
    after, up to trigger flags and the start time; and when the graph before was
    one a journal can describe, each of these events may follow that journal. *)
Theorem event_sourced n s s' :
  handles n s s' →
  ∃ es, actor_journal s' = actor_journal s ++ es
    ∧ erase <$> ga_graph s' = erase <$> replay (ga_graph s) es
    ∧ (plan (ga_graph s) → valid (ga_graph s) es).
Proof.
  intros [cmd Hrun]. destruct (sourced_receiveCommand n cmd s tt s' Hrun) as (es & J & _ & G & _ & V). by exists es.
Qed.

Lemma sourced_rtc n s0 s : rtc (handles n) s0 s → sourced s0 s.
Proof.
  induction 1 as [s|s1 s2 s3 [cmd Hrun] _ IH]; [reflexivity|].
  etrans; [by eapply sourced_receiveCommand|done].
Qed.

(** C3: an actor that starts without a graph over an
    empty journal has, after any number of commands, exactly the graph its
    journal describes, up to trigger flags and the start time; and the journal
    follows the grammar: it begins with the creation of the graph, adds stages
    in order under the next free number while the graph is open, on stages it
    has added before, completes and composes only such stages, and commits,
    terminates and completes the graph in this order, the latter two only when
    no stage of the phase is pending. *)
Theorem journal_determines_graph n s0 s :
  ga_graph s0 = None → actor_journal s0 = [] → rtc (handles n) s0 s →
  erase <$> ga_graph s = erase <$> replay None (actor_journal s)
  ∧ valid None (actor_journal s).
Proof.
  intros Hg Hj (es & J & _ & G & _ & V)%sourced_rtc.
  rewrite Hj in J. simpl in J. rewrite Hg in *. by rewrite J, G; split; [|apply V].
Qed.
End sourcing.
