(* ===== verification/Recovery.v ===== *)
(** * Recovery of a graph actor from its journal

    An actor that starts over a provider reads its journal back
    ([Mixin.init], [receiveEvent]), then looks for work that was lost
    ([Graph.Recover]). Here the two phases are put together with the rest of
    the actor's life, for journals without compositions (replaying a
    composition appends to the journal, see Flaws): the replay of any valid
    journal returns with the graph the journal describes, appends nothing and
    sends nothing but the pending delays; the recovery that follows returns,
    with nothing left undone. Since validity is closed under prefixes, the
    journal may be cut off after any event. *)

From S2P Require Import Prelude Model Stage StageFacts Graph GraphFacts GraphGrowth.
From S2P Require Import GraphSpec GraphSafety Persistence GraphActor ActorSpec ActorCommands.
From S2P Require Import ActorTheorems ActorSafety Returns Journal EventSourcing.

(** ** Journals without compositions *)

Definition simple (e : Event) : Prop := match e with EStageComposed _ => False | _ => True end.
#[export] Instance simple_dec e : Decision (simple e).
Proof. destruct e; apply _. Defined.

Definition no_refs (g : CompletionGraph) : Prop := Forall (λ x, stage_composeReference x = None) (gr_objects g).

Lemma no_refs_alter f p g :
  (∀ x, stage_composeReference (f x) = stage_composeReference x) → no_refs g → no_refs (alter_stage f p g).
Proof. intros Hf Hg. apply Forall_alter; [done|]. intros x _ Hx. by rewrite Hf. Qed.
Lemma foldl_add_child_refs p ds os :
  Forall (λ x, stage_composeReference x = None) os →
  Forall (λ x, stage_composeReference x = None) (foldl (λ os d, alter (add_child p) d os) os ds).
Proof. revert os. induction ds as [|d ds IH]; intros os Hos; [done|]. apply IH, Forall_alter; [done|by intros]. Qed.

Lemma apply_no_refs e g : simple e → no_refs g → no_refs (apply_event e g).
Proof.
  intros He Hg. destruct e as [| | | | |e|e| | |]; try done; unfold apply_event.
  - destruct (getStrategyFromOperation _); [|done]. case_bool_decide.
    + unfold no_refs, insert_hook. simpl. assert (∀ x, stage_composeReference x = None →
        Forall (λ x, stage_composeReference x = None) (gr_objects g ++ [x])) as Hsnoc.
      { intros x Hx. apply Forall_app. by repeat constructor. }
      destruct (gr_terminationChainHead g); [apply Forall_alter; [|by intros]|]; by apply Hsnoc.
    + destruct (mapM _ _); [|done]. apply foldl_add_child_refs, Forall_app. by repeat constructor.
  - destruct (GetStage _ _), (stagecompleted_Result e); try done.
    apply no_refs_alter; [apply complete_stage_compose|done].
Qed.
Lemma replay_no_refs es g g' :
  Forall simple es → no_create es → no_refs g → replay (Some g) es = Some g' → no_refs g'.
Proof.
  revert g. induction es as [|e es IH]; intros g; [by intros _ _ ? [= <-]|].
  intros [He Hes]%Forall_cons [Hc Hcs]%Forall_cons Hg. destruct e; [done|apply IH; auto using apply_no_refs..].
Qed.
#[export] Instance no_refs_proper : Proper ((≡) ==> impl) no_refs.
Proof.
  intros g g' Hg Hn. apply Forall_lookup. intros p y Hy. symmetry in Hg.
  destruct (equiv_lookup _ _ _ _ Hg Hy) as (x & Hx & Hxy).
  destruct (untrigger_fields _ _ Hxy) as (_ & _ & _ & _ & _ & <- & _). by eapply Forall_lookup in Hn.
Qed.
Lemma no_refs_closed g : no_refs g → compose_closed g.
Proof. intros Hn i x o Hx _ Ho. eapply Forall_lookup in Hn; [|exact Hx]. simpl in Hn. congruence. Qed.

Section recovery.
Context {P : Type} `{!ProviderState P} `{!ReliableProvider P} `{!RecoverableProvider P} `{!MapOrder} `{!Clock}.
Abbreviation A := (graphActor P).
Implicit Types s : A.

(** ** Replaying an event *)

(** The graph has become, up to [≡], [g'], and nothing else has changed. *)
Definition moved (g' : CompletionGraph) s s' : Prop :=
  ga_persistence s' = ga_persistence s ∧ ga_effects s' = ga_effects s ∧ ∃ g1, ga_graph s' = Some g1 ∧ g1 ≡ g'.

Lemma wp_read_graph g (Q : _ → A → Prop) s : ga_graph s = Some g → Q g s → wp get_graph Q s.
Proof. intros Hg HQ. apply wp_bind, wp_get. by apply (wp_deref _ g). Qed.
Lemma wp_move f g (Q : unit → A → Prop) s :
  ga_graph s = Some g → (∀ s', ga_graph s' = Some (f g) → ga_persistence s' = ga_persistence s →
    ga_effects s' = ga_effects s → Q tt s') → wp (modify_graph f) Q s.
Proof. intros Hg HQ. apply wp_bind, (wp_read_graph g); [done|]. by apply wp_modify, HQ. Qed.

(** While recovering, the graph is not told that it has finished. *)
Lemma wp_check_recovering n g (Q : unit → A → Prop) s :
  ga_graph s = Some g → Recovering (ga_persistence s) = true → Q tt s →
  wp (checkForExecutionFinished (listener (S n))) Q s.
Proof.
  intros Hg Hr HQ. apply wp_bind, (wp_read_graph g); [done|].
  assert (∀ m : M A unit, wp (r ← recovering; if r : bool then mret tt else m) Q s) as Hcb.
  { intros m. apply wp_bind, wp_bind, wp_get, wp_ret. rewrite Hr. by apply wp_ret. }
  destruct (gr_state g); [by apply wp_ret| | |by apply wp_ret];
    (destruct (Z.eqb _ 0); [apply Hcb|by apply wp_ret]).
Qed.

Lemma wp_complete_any p r x g s :
  ga_graph s = Some g → gr_objects g !! p = Some x →
  wp (complete p (Some r)) (λ _, moved (alter_stage (complete_stage r) p g) s) s.
Proof.
  intros Hg Hx. assert (wp (complete p (Some r)) (λ _ s', ga_effects s' = ga_effects s) s) as Hret.
  { unfold wp, complete, get_stage, modify_graph, get_graph, get_state, modify, mbind, M_bind, deref, mret, M_ret.
    simpl. rewrite Hg. simpl. rewrite Hx. simpl. rewrite Hg. simpl. rewrite list_lookup_alter_eq, Hx. simpl.
    by destruct (stage_result x). }
  apply wp_run in Hret as (b & s' & Hrun & He). apply wp_run. exists b, s'. split; [done|].
  destruct (complete_ret _ _ _ _ _ _ Hg Hrun) as (g' & Hg' & Heq & Ep). split_and!; eauto.
Qed.

Lemma wp_replay_update n e g s :
  ga_graph s = Some g → Recovering (ga_persistence s) = true → planned g → no_refs g →
  event_ok g e → simple e →
  wp (UpdateWithEvent (listener (S n)) e false) (λ _, moved (apply_event e g) s) s.
Proof.
  intros Hg Hr Hpl Hn Hok Hs. apply wp_bind, (wp_move _ g); [done|]. intros s1 Hg1 Ep1 Ee1.
  rewrite <- Ep1 in Hr. destruct (update_startTime_eq e g) as [t Et]. rewrite Et in *. set (g0 := with_startTime t g) in *.
  assert (event_ok g0 e) as Hok0 by by destruct e. assert (planned g0) as Hpl0 by (by eapply planned_proper; [|exact Hpl]).
  assert (∀ g' s', ga_graph s' = Some g' → ga_persistence s' = ga_persistence s1 → ga_effects s' = ga_effects s1 →
    g' ≡ apply_event e g0 → moved (apply_event e g) s s') as Hdone.
  { intros g' s' Hg' Ep Ee Heq. split_and!; [congruence..|]. exists g'. split; [done|]. rewrite Heq. by f_equiv. }
  assert (Recovering (ga_persistence s1) = true) as Hr1 by done.
  destruct e as [| |e|e|e|e|e|e|e|e]; cbn [dispatch_event]; try done.
  - apply wp_ret. by eapply Hdone.
  - apply wp_bind, (wp_move _ g0); [done|]. intros s2 Hg2 Ep2 Ee2.
    apply wp_bind, (wp_move _ (with_state StateTerminating g0)); [done|]. intros s3 Hg3 Ep3 Ee3.
    apply wp_bind, wp_ret. eapply wp_check_recovering; [exact Hg3|congruence|]. eapply Hdone; [exact Hg3|congruence..|done].
  - apply (wp_move _ g0); [done|]. intros s2 Hg2 Ep2 Ee2. by eapply Hdone.
  - apply wp_bind, (wp_move _ g0); [done|]. intros s2 Hg2 Ep2 Ee2.
    eapply wp_check_recovering; [exact Hg2|congruence|]. eapply Hdone; [exact Hg2|congruence..|done].
  - destruct Hok0 as (_ & _ & Hid & [ds Hds] & Har).
    destruct (getStrategyFromOperation (added_Op e)) as [strat|] eqn:Hst; [|done].
    case_bool_decide as Hop.
    + apply (wp_move _ g0); [done|]. intros s2 Hg2 Ep2 Ee2. eapply Hdone; [exact Hg2|done..|]. simpl.
      rewrite Hst, bool_decide_eq_true_2 by done. rewrite Hop in Hst. simpl in Hst. injection Hst as <-. done.
    + unfold handleStageAdded. rewrite Hst, Har. apply wp_bind, (wp_read_graph g0); [done|].
      assert (GetStage g0 (added_StageId e) = None) as ->.
      { rewrite Hid. apply (ids_fresh g0); apply Hpl0. }
      rewrite Hds. apply wp_bind, (wp_move _ g0); [done|]. intros s2 Hg2 Ep2 Ee2. apply wp_ret.
      eapply Hdone; [exact Hg2|done..|]. simpl. by rewrite Hst, bool_decide_eq_false_2, Hds.
  - destruct Hok0 as [[p Hp] [r Hres]]. destruct (wf_map _ (pl_wf _ Hpl0) _ _ Hp) as (x & Hx & _).
    apply wp_bind, wp_bind. apply (wp_deref _ r); [done|]. apply wp_bind, (wp_read_graph g0); [done|].
    apply wp_bind. apply (wp_deref _ p); [done|]. rewrite Hres. apply wp_bind.
    eapply wp_mono; [by eapply wp_complete_any|]. intros b s2 (Ep2 & Ee2 & g2 & Hg2 & Heq).
    assert (no_refs g2) as Hn2.
    { rewrite Heq. apply no_refs_alter; [apply complete_stage_compose|exact Hn]. }
    assert (p < length (gr_objects g2)) as [y Hy]%lookup_lt_is_Some.
    { rewrite <- (es_length _ _ (equiv_shape_of _ _ Heq)). simpl. rewrite length_alter. by eapply lookup_lt_Some. }
    apply wp_bind, wp_bind, (wp_read_graph g2); [done|]. apply (wp_deref _ y); [done|].
    pose proof (Forall_lookup_1 _ _ _ _ Hn2 Hy) as Hc. simpl in Hc. rewrite Hc. apply wp_bind, wp_ret, wp_bind, wp_ret, wp_bind.
    eapply wp_check_recovering; [exact Hg2|congruence|]. apply wp_ret, wp_ret.
    eapply Hdone; [exact Hg2|congruence..|]. simpl. by rewrite Hp, Hres.
  - apply wp_ret. by eapply Hdone.
  - apply wp_ret. by eapply Hdone.
Qed.

(** ** The numbering of events *)

(** The provider can be read back, and the next index is the journal's length. *)
Definition numbered s : Prop :=
  replayable (Name (ga_persistence s)) (pers_provider (ga_persistence s))
  ∧ mx_eventIndex (pers_mixin (ga_persistence s)) = Z.of_nat (length (actor_journal s)).
Definition keeps_numbers s s' : Prop := numbered s → numbered s'.

#[local] Instance keeps_numbers_preorder : PreOrder keeps_numbers.
Proof. split; [by intros s Hs|]. intros s1 s2 s3 H12 H23 H1. auto. Qed.

Lemma numbers_same s s' : ga_persistence s' = ga_persistence s → keeps_numbers s s'.
Proof. intros Ep. unfold keeps_numbers, numbered, actor_journal. by rewrite Ep. Qed.
Lemma numbers_persist e : keeps keeps_numbers (persist e : M A _).
Proof.
  intros s. unfold persist, zoom, PersistReceive, mbind, M_bind, get_state, on_provider, zoom. simpl.
  set (q := ga_persistence s). unfold with_mixin, modify. simpl.
  pose proof (PersistEvent_ok (Name q) (mx_eventIndex (pers_mixin q)) e (pers_provider q)) as Hok.
  pose proof (PersistEvent_replayable (Name q) (Name q) (mx_eventIndex (pers_mixin q)) e (pers_provider q)) as Hre.
  unfold wp in Hok, Hre. destruct (PersistEvent _ _ _ _) as [[] p'| |]; [|done..]. destruct Hok as (Hj & _ & _).
  assert (∀ b, keeps_numbers s (put_persistence (Build_persistent {| mx_eventIndex := (mx_eventIndex (pers_mixin q) + 1)%Z;
    mx_name := Name q; mx_recovering := Recovering q; mx_snapshotRequested := b |} p') s)) as Hnum.
  { intros b [Hs Hi]. split.
    - unfold Name. simpl. apply Hre; [done|]. intros _. exact Hi.
    - change (mx_eventIndex (pers_mixin q) + 1 = Z.of_nat (length (journal (Name q) p')))%Z.
      rewrite Hj, length_app. unfold actor_journal in Hi. fold q in Hi. rewrite Hi. simpl. lia. }
  unfold go_rem. simpl. destruct (Z.eqb (GetSnapshotInterval p') 0); simpl; [apply Hnum|].
  destruct (Z.eqb _ 0); simpl; apply Hnum.
Qed.
Lemma numbers_put s g g' : graph_of s = Some g → graph_le g g' → keeps_numbers s (put_graph g' s).
Proof. intros _ _. by apply numbers_same. Qed.
Lemma numbers_frame s s' :
  ga_graph s' = ga_graph s → ga_persistence s' = ga_persistence s →
  (∃ l, ga_effects s' = ga_effects s ++ l) → keeps_numbers s s'.
Proof. intros _ Ep _. by apply numbers_same. Qed.

Lemma numbers_receiveCommand n cmd : keeps keeps_numbers (receiveCommand n cmd : M A _).
Proof.
  apply keeps_bind; [apply _|apply (keeps_validateCmd keeps_numbers numbers_frame)|intros []; [|by apply keeps_ret, _]].
  destruct cmd; [|by apply (keeps_executeCommand keeps_numbers numbers_put numbers_frame numbers_persist)..].
  assert (∀ f : A → A, (∀ s, ga_persistence (f s) = ga_persistence s) → keeps keeps_numbers (modify f)) as Hm.
  { intros f Hf. apply keeps_modify. intros s. by apply numbers_same. }
  unfold_command. unfold initGraph, stamp, now.
  repeat match goal with |- keeps _ (_ ≫= _) => apply keeps_bind; [apply _| |intros ?] end;
    auto using numbers_persist, keeps_ret, keeps_get, keeps_numbers_preorder; by apply Hm.
Qed.
Lemma numbers_Recover n : keeps keeps_numbers (Recover (listener n) : M A _).
Proof. apply (keeps_actor_Recover keeps_numbers numbers_put numbers_frame numbers_persist). Qed.

(** ** The replay *)

(** What may have been sent during the replay: timeouts, and reminders of
    delays whose stage is in the graph. *)
Definition quiet (og : option CompletionGraph) (ef : Effect) : Prop :=
  match ef with
  | SetReceiveTimeout _ => True
  | TellSelf (CCompleteDelayStage m) | TellSelfAfter _ (CCompleteDelayStage m) =>
      (∃ g, og = Some g ∧ is_Some (GetStage g (cdelay_StageId m))) ∧ is_Some (cdelay_Result m)
  | _ => False
  end.

(** [k] events have been read back and they describe [og]. *)
Record replaying (name : string) (js : list Event) (interval : Z) (k : nat) (og : option CompletionGraph) s : Prop := {
  rp_graph : erase <$> ga_graph s = erase <$> og;
  rp_effects : Forall (quiet og) (ga_effects s);
  rp_name : Name (ga_persistence s) = name;
  rp_recovering : Recovering (ga_persistence s) = true;
  rp_replayable : replayable name (pers_provider (ga_persistence s));
  rp_journal : journal name (pers_provider (ga_persistence s)) = js;
  rp_interval : GetSnapshotInterval (pers_provider (ga_persistence s)) = interval;
  rp_index : mx_eventIndex (pers_mixin (ga_persistence s)) = Z.of_nat k;
}.

Lemma quiet_mono e og ef : allowed og e → quiet og ef → quiet (replay_event og e) ef.
Proof.
  intros Ha. assert (∀ id, (∃ g, og = Some g ∧ is_Some (GetStage g id)) →
    ∃ g, replay_event og e = Some g ∧ is_Some (GetStage g id)) as Hk.
  { intros id (g & -> & Hid). exists (apply_event e g). split; [by destruct e|by apply apply_keeps_stage]. }
  destruct ef as [|[]|? []| | | | |]; simpl; try done; intros [? ?]; auto.
Qed.

Definition refs_free (og : option CompletionGraph) : Prop := match og with Some g => no_refs g | None => True end.

(** The mixin's bookkeeping after an event has been received. *)
Lemma wp_next_index name js interval k og og' s s' :
  replaying name js interval k og s → ga_persistence s' = ga_persistence s →
  erase <$> ga_graph s' = erase <$> og' → Forall (quiet og') (ga_effects s') →
  wp (on_mixin ga_persistence put_persistence (set_eventIndex (Z.of_nat k + 1)%Z))
    (λ _, replaying name js interval (S k) og') s'.
Proof.
  intros [] Ep Hg Hef. apply wp_zoom, wp_modify. rewrite <- Ep in *. split; simpl; try done. lia.
Qed.

Lemma wp_receive_event n name js interval k og e s :
  replaying name js interval k og s → allowed og e → plan og → refs_free og → simple e →
  wp (Receive (S n) (MEvent e);; on_mixin ga_persistence put_persistence (set_eventIndex (Z.of_nat k + 1)%Z))
    (λ _, replaying name js interval (S k) (replay_event og e)) s.
Proof.
  intros Hrp Ha Hpl Hrf Hs. destruct (Hrp) as [Hg Hef Hn Hr _ _ _ _]. apply wp_bind. unfold Receive.
  apply wp_bind, wp_bind, wp_get, wp_ret. rewrite Hr.
  assert (Forall (quiet (replay_event og e)) (ga_effects s)) as Hef' by (eapply Forall_impl; [exact Hef|intros; by apply quiet_mono]).
  destruct og as [g0|].
  - destruct (ga_graph s) as [g|] eqn:Hsg; [|done]. apply (inj Some) in Hg as Hgg.
    assert (wp (UpdateWithEvent (listener (S n)) e false) (λ _, moved (apply_event e g) s) s) as Hup.
    { apply wp_replay_update; try done.
      - by eapply planned_proper; [symmetry|].
      - by eapply no_refs_proper; [symmetry|].
      - by eapply event_ok_proper; [symmetry| |]. }
    assert (wp (UpdateWithEvent (listener (S n)) e false) (λ _, wp (on_mixin ga_persistence put_persistence
      (set_eventIndex (Z.of_nat k + 1)%Z)) (λ _, replaying name js interval (S k) (Some (apply_event e g0)))) s) as Hup'.
    { eapply wp_mono; [exact Hup|]. intros [] s' (Ep & Ee & g' & Hg' & Heq). eapply wp_next_index; [exact Hrp|done| |].
      - rewrite Hg'. simpl. f_equal. assert (g' ≡ apply_event e g0) as Hgoal; [|exact Hgoal].
        rewrite Heq. by apply apply_event_proper.
      - rewrite Ee. by destruct e. }
    destruct e; try (unfold receiveEvent; apply wp_bind, wp_get; rewrite Hsg; exact Hup'); [done|].
    unfold receiveEvent, scheduleDelay. apply wp_bind, wp_timeMillis. intros ms s1 Eg Ep Ee.
    destruct (0 <? _)%Z; apply wp_emit; intros s2 Eg2 Ep2 Ee2;
      (eapply wp_next_index; [exact Hrp|congruence|by rewrite Eg2, Eg, Hsg|]);
      rewrite Ee2, Ee; apply Forall_app; (split; [done|]); repeat constructor; simpl; eauto.
  - destruct e; try done. unfold receiveEvent, initGraph, now. apply wp_bind, wp_bind, wp_get, wp_bind, wp_modify, wp_ret, wp_modify.
    eapply wp_next_index; [exact Hrp|done|done|exact Hef'].
Qed.

Lemma refs_free_replay og es : refs_free og → Forall simple es → refs_free (replay og es).
Proof.
  revert og. induction es as [|e es IH]; intros og Hog; [done|]. intros [He Hes]%Forall_cons. apply IH; [|done].
  destruct og as [g|].
  - destruct e; [by apply Forall_nil|exact (apply_no_refs _ g He Hog)..].
  - destruct e; try done. by apply Forall_nil.
Qed.

(** ** Recovery with nothing lost *)

(** No unresolved stage is ready, triggered or not. *)
Definition nothing_in_flight (g : CompletionGraph) : Prop :=
  ∀ p x, gr_objects g !! p = Some x → stage_result x = None → ready g x = false.

Definition iterated (k : nat) (g : CompletionGraph) : CompletionGraph :=
  {| gr_ID := gr_ID g; gr_FunctionID := gr_FunctionID g; gr_objects := gr_objects g;
     gr_stages := gr_stages g; gr_state := gr_state g; gr_terminationRoot := gr_terminationRoot g;
     gr_terminationChainHead := gr_terminationChainHead g; gr_startTime := gr_startTime g; gr_iterations := k |}.
(** Only the model's iteration counter has changed. *)
Definition still (g : CompletionGraph) s s' : Prop :=
  ga_persistence s' = ga_persistence s ∧ ga_effects s' = ga_effects s ∧ ∃ k, ga_graph s' = Some (iterated k g).

Lemma wp_range_still body g s0 s :
  still g s0 s → graph_wf g →
  (∀ p x s1, still g s0 s1 → gr_objects g !! p = Some x → wp (body p) (λ _, still g s0) s1) →
  wp (range_stages body) (λ _, still g s0) s.
Proof.
  intros (Ep & Ee & k & Hg) Hwf Hbody. unfold range_stages. apply wp_bind, (wp_read_graph (iterated k g)); [done|].
  apply wp_bind, (wp_move _ (iterated k g)); [done|]. intros s1 Hg1 Ep1 Ee1.
  eapply wp_mono; [apply (wp_for_each (λ _ s', still g s0 s'))|by intros].
  - split_and!; [congruence..|]. by exists (S k).
  - intros dn id rest s2 _ Hs2. destruct (Hs2) as (Ep2 & Ee2 & k2 & Hg2).
    apply wp_bind, (wp_read_graph (iterated k2 g)); [done|]. unfold GetStage. simpl.
    destruct (gr_stages g !! id) as [p|] eqn:Hp; [|by apply wp_ret].
    destruct (wf_map _ Hwf _ _ Hp) as (x & Hx & _). by eapply Hbody.
Qed.

Lemma wp_requestTrigger_still g p x s0 s :
  still g s0 s → graph_wf g → gr_objects g !! p = Some x → ready g x = false →
  wp (requestTrigger p) (λ '(fires, _, _) s', fires = false ∧ still g s0 s') s.
Proof.
  intros Hst Hwf Hx Hrd. destruct (Hst) as (Ep & Ee & k & Hg). unfold requestTrigger, get_stage.
  apply wp_bind, wp_bind, (wp_read_graph (iterated k g)); [done|]. apply (wp_deref _ x); [done|].
  destruct (stage_triggered x); [by apply wp_ret|].
  apply wp_bind, (wp_read_graph (iterated k g)); [done|].
  destruct (wf_load_deps g x (wf_stage _ Hwf _ _ Hx)) as [deps Hdeps]. apply wp_bind. apply (wp_deref _ deps); [done|].
  destruct (run_trigger_inv (strat_Trigger (stage_strategy x)) deps) as (fires & status & rs & Hrun & _).
  unfold ready in Hrd. rewrite Hdeps, Hrun in Hrd. subst fires.
  apply wp_bind. apply (wp_deref _ (false, status, rs)); [done|]. by apply wp_bind, wp_ret, wp_ret.
Qed.

(** A pass over the unresolved stages that only acts on those whose trigger
    fires. *)
Lemma wp_scan_still (k : stage_ptr → trigger_result → M A unit) g s0 s :
  (∀ p status rs, k p (false, status, rs) = mret tt) →
  still g s0 s → graph_wf g → nothing_in_flight g →
  wp (range_stages (λ p, x ← get_stage p; if negb (IsResolved x) then requestTrigger p ≫= k p else mret tt))
    (λ _, still g s0) s.
Proof.
  intros Hk Hs Hwf Hno. apply wp_range_still; [done..|]. intros p x s1 Hs1 Hx.
  destruct (Hs1) as (Ep & Ee & i & Hg). unfold get_stage.
  apply wp_bind, wp_bind, (wp_read_graph (iterated i g)); [done|]. apply (wp_deref _ x); [done|].
  destruct (IsResolved x) eqn:Hr; [by apply wp_ret|]. simpl.
  assert (stage_result x = None) as Hn by (unfold IsResolved in Hr; simpl in Hr; by destruct (stage_result x)).
  apply wp_bind. eapply wp_mono; [eapply wp_requestTrigger_still; eauto|].
  intros [[fires status] rs] s2 [-> Hs2]. rewrite Hk. by apply wp_ret.
Qed.

Lemma wp_Recover_still n g s :
  ga_graph s = Some g → graph_wf g → nothing_in_flight g → lifecycle_current g →
  wp (Recover (listener n)) (λ _, still g s) s.
Proof.
  intros Hg Hwf Hno Hl. assert (still g s s) as Hs.
  { split_and!; [done..|]. exists (gr_iterations g). rewrite Hg. by destruct g. }
  unfold Recover. apply wp_bind. eapply wp_mono.
  { by apply (wp_scan_still (λ p '(triggered, _, _),
      if triggered : bool then OnCompleteStage (listener n) p (Some stageRecoveryFailedResult) else mret tt)). }
  intros [] s1 Hs1. apply wp_bind. eapply wp_mono.
  { by apply (wp_scan_still (λ p '(triggered, status, input),
      if triggered : bool then trigger (listener n) p status input else mret tt) g s). }
  intros [] s2 (Ep & Ee & k & Hg2). apply wp_bind, (wp_read_graph (iterated k g)); [done|].
  assert (∀ ph, getPendingCount (iterated k g) ph = getPendingCount g ph) as Hc by done. rewrite !Hc.
  assert (still g s s2) as Hs2 by (split_and!; eauto). unfold lifecycle_current in Hl. simpl.
  destruct (gr_state g); [by apply wp_ret| | |by apply wp_ret].
  - destruct (Z.eqb_spec (getPendingCount g MainExecPhase) 0) as [Hz|]; [|by apply wp_ret].
    by apply pending_count in Hz.
  - destruct (Z.eqb_spec (getPendingCount g TerminationExecPhase) 0) as [Hz|]; [|by apply wp_ret].
    by apply pending_count in Hz.
Qed.

(** ** The whole start *)

(** The state of an actor between two messages of its life. *)
Record alive (name : string) s : Prop := {
  al_good : good s;
  al_name : Name (ga_persistence s) = name;
  al_numbered : numbered s;
  al_valid : valid None (actor_journal s);
  al_graph : erase <$> ga_graph s = erase <$> replay None (actor_journal s);
}.

(** What a start over the journal [js] leaves of the graph [g] it describes:
    nothing is forgotten, answers that [g] could take can still be taken, and
    nothing at all happens if nothing was in flight and the lifecycle was up to
    date. *)
Definition keeps_graph (js : list Event) (g : CompletionGraph) s : Prop :=
  ∃ g', ga_graph s = Some g'
    ∧ (∀ p x, gr_objects g !! p = Some x → ∃ y, gr_objects g' !! p = Some y
         ∧ stage_ID y = stage_ID x ∧ stage_operation y = stage_operation x
         ∧ ∀ r, stage_result x = Some r → stage_result y = Some r)
    ∧ (∀ cmd, command_ok g cmd → command_ok g' cmd)
    ∧ (nothing_in_flight g → lifecycle_current g →
         g' ≡ g ∧ actor_journal s = js ∧ Forall (quiet (Some g)) (ga_effects s)).

Lemma quiet_answerable g g' ef : g' ≡ g → quiet (Some g) ef → answerable g' ef.
Proof.
  intros Hg. assert (GetStage g' = GetStage g) as Eg.
  { unfold GetStage. by rewrite (es_stages _ _ (equiv_shape_of _ _ Hg)). }
  destruct ef as [|[]|? []| | | | |]; simpl; rewrite ?Eg; naive_solver.
Qed.
Lemma quiet_executions og l : Forall (quiet og) l → executions l = [].
Proof. induction 1 as [|ef l Hef _ IH]; [done|]. unfold executions in *. cbn. rewrite IH. by destruct ef. Qed.

Lemma command_ok_equiv g g' cmd : g ≡ g' → command_ok g cmd → command_ok g' cmd.
Proof.
  intros Hg. assert (GetStage g' = GetStage g) as Eg.
  { unfold GetStage. by rewrite (es_stages _ _ (equiv_shape_of _ _ Hg)). }
  apply command_ok_mono; [|intros id; by rewrite Eg]. intros id (p & x & Hid & Hx & Hp & Htk).
  destruct (equiv_lookup _ _ _ _ Hg Hx) as (y & Hy & Hxy).
  destruct (untrigger_fields _ _ Hxy) as (_ & _ & _ & Es & Ed & _). exists p, y. split_and!; [congruence|done| |].
  - intros Hs d Hd. rewrite <- (equiv_load_dep _ _ d Hg). apply Hp; congruence.
  - unfold takes_result. by rewrite Es.
Qed.

Lemma nothing_in_flight_proper g g' : g ≡ g' → nothing_in_flight g → nothing_in_flight g'.
Proof.
  intros Hg Hno p y Hy Hr. symmetry in Hg. destruct (equiv_lookup _ _ _ _ Hg Hy) as (x & Hx & Hxy).
  destruct (untrigger_fields _ _ Hxy) as (_ & Er & _ & Es & Ed & _). rewrite <- (Hno p x Hx) by congruence.
  transitivity (ready g' x); [unfold ready; by rewrite Ed, Es|].
  apply ready_deps, Forall_true. intros d. by apply equiv_load_dep.
Qed.
Lemma lifecycle_current_proper g g' : g ≡ g' → lifecycle_current g → lifecycle_current g'.
Proof.
  intros Hg. unfold lifecycle_current. rewrite (es_state _ _ (equiv_shape_of _ _ Hg)).
  destruct (gr_state g); eauto using equiv_pending.
Qed.

Context (n : nat) (Hn : depth_bound ≤ n).

Lemma sourced_Recover s x s' : Recover (listener n) s = Ret x s' → sourced s s'.
Proof.
  destruct (listener_is_sourced n) as (H1 & H2 & H3 & H4 & H5). by apply returns_Recover.
Qed.

(** [Recover] on the replayed graph. *)
Lemma recover_ret g0 g s :
  ga_graph s = Some g → g ≡ g0 → planned g0 → no_refs g0 → live s → numbered s →
  Forall (quiet (Some g0)) (ga_effects s) →
  ∃ s' g', Recover (listener n) s = Ret tt s' ∧ ga_graph s' = Some g' ∧ good s' ∧ numbered s' ∧ sourced s s'
    ∧ evolves g g'
    ∧ (nothing_in_flight g0 → lifecycle_current g0 →
         g' ≡ g0 ∧ ga_persistence s' = ga_persistence s ∧ ga_effects s' = ga_effects s).
Proof.
  intros Hg Heq Hpl Hrf Hl Hnum Hq. assert (planned g) as Hpg by (by eapply planned_proper; [symmetry|]).
  assert (at_graph g s) as Hat.
  { split; [done|]. split_and!; [done| |rewrite (quiet_executions _ _ Hq); constructor].
    eapply Forall_impl; [exact Hq|]. intros ef. by apply quiet_answerable. }
  assert (weight g < n) as Hw.
  { pose proof (weight_bound g). pose proof (pl_size _ Hpg). unfold depth_bound in Hn. lia. }
  assert (compose_closed g) as Hc by (apply no_refs_closed; by eapply no_refs_proper; [symmetry|]).
  pose proof (wp_Recover n _ (listener_spec n) g s Hat (pl_wf _ Hpg) Hc Hw) as Hrec.
  apply wp_run in Hrec as ([] & s' & Hrun & g' & Hat' & Hev & Hset).
  pose proof (numbers_Recover n s) as Hnr. rewrite Hrun in Hnr. destruct (Hat') as [Hg' _].
  exists s', g'. split_and!; [done|done| |by apply Hnr|by eapply sourced_Recover|done|].
  - eapply good_at; [exact Hat'|]. destruct Hpg as [Hwf Hids Hsz]. split; [by eapply evolves_wf|done| |].
    + unfold ids_dense. by rewrite (ev_stages _ _ Hev).
    + by rewrite (evolves_length _ _ Hev).
  - intros Hno Hlc. symmetry in Heq.
    pose proof (wp_Recover_still n g s Hg (pl_wf _ Hpg) (nothing_in_flight_proper _ _ Heq Hno)
      (lifecycle_current_proper _ _ Heq Hlc)) as Hst. unfold wp in Hst. rewrite Hrun in Hst.
    destruct Hst as (Ep & Ee & k & Hk). simpl in Hg'. rewrite Hg' in Hk. injection Hk as ->. split_and!; [|done|done].
    by rewrite Heq.
Qed.

Lemma wp_replay_complete name js interval g0 s :
  replaying name js interval (length js) (Some g0) s → interval ≠ 0%Z →
  replay None js = Some g0 → valid None js → Forall simple js →
  wp (on_mixin ga_persistence put_persistence (set_recovering false);; Receive n MReplayComplete)
    (λ _ s', alive name s' ∧ (∃ es, actor_journal s' = js ++ es) ∧ keeps_graph js g0 s') s.
Proof.
  intros [Hg Hq Hna Hr Hre Hj Hi Hx] Hint Hrep Hv Hs. apply wp_bind, wp_zoom, wp_modify.
  destruct (ga_graph s) as [g|] eqn:Hsg; [|done]. apply (inj Some) in Hg.
  set (s1 := put_persistence _ s).
  pose proof (replay_plan None js I Hv) as Hpl. rewrite Hrep in Hpl. simpl in Hpl.
  pose proof (refs_free_replay None js I Hs) as Hrf. rewrite Hrep in Hrf. simpl in Hrf.
  assert (Name (ga_persistence s1) = name) as Hn1 by exact Hna.
  assert (actor_journal s1 = js) as Hj1 by (unfold actor_journal; rewrite Hn1; exact Hj).
  destruct (recover_ret g0 g s1) as (s2 & g2 & Hrun & Hg2 & Hgood & Hnum & Hsrc & Hev & Hstill); try done.
  { split; [done|]. simpl. by rewrite Hi. }
  { split; [rewrite Hn1; exact Hre|]. rewrite Hj1. exact Hx. }
  unfold Receive. apply wp_bind, wp_bind, wp_get, wp_ret. simpl.
  apply wp_bind, wp_get. simpl. rewrite Hsg. apply wp_bind, wp_run. exists tt, s2. split; [done|].
  apply wp_bind, (wp_read_graph g2); [done|].
  assert (∀ t, wp (emit (SetReceiveTimeout t)) (λ _ s', alive name s' ∧ (∃ es, actor_journal s' = js ++ es)
    ∧ keeps_graph js g0 s') s2) as Hem; [|by destruct (IsCompleted g2); apply Hem].
  intros t. eapply wp_mono; [by apply good_emit|]. intros [] s3 (Hgood3 & Eg & Ep & Ee).
  destruct Hsrc as (es & J & N & G & _ & V). simpl in G, V, N. rewrite Hsg in G, V.
  assert (erase <$> Some g = erase <$> replay None js) as Hrg by (rewrite Hrep; simpl; by f_equal).
  assert (actor_journal s3 = js ++ es) as J3.
  { unfold actor_journal in *. rewrite Ep, J. f_equal. exact Hj1. }
  split_and!.
  - split; [done|rewrite Ep, N; exact Hna|unfold numbered, actor_journal; rewrite Ep; exact Hnum| |].
    + rewrite J3. apply valid_app. split; [done|]. eapply valid_erase; [exact Hrg|].
      apply V. by eapply planned_proper; [symmetry|].
    + rewrite Eg, J3, G, replay_app. by apply replay_proper.
  - by exists es.
  - exists g2. split_and!; [congruence| | |].
    2: { intros cmd Hc. eapply command_ok_evolves; [exact Hev|]. eapply command_ok_equiv; [|exact Hc]. by symmetry. }
    + intros p x Hx0. symmetry in Hg. destruct (equiv_lookup _ _ _ _ Hg Hx0) as (x1 & Hx1 & Hxx).
      destruct (untrigger_fields _ _ Hxx) as (E1 & E2 & E3 & _).
      destruct (evolves_lookup _ _ _ _ Hev Hx1) as (y & Hy & Hyy). exists y.
      rewrite (sev_ID _ _ _ Hyy), (sev_operation _ _ _ Hyy). split_and!; [done..|]. intros r Hr0.
      apply (sev_result _ _ _ Hyy). congruence.
    + intros Hno Hlc. destruct (Hstill Hno Hlc) as (Heq & Ep2 & Ee2). split_and!; [done| |].
      * unfold actor_journal. rewrite Ep, Ep2. exact Hj1.
      * rewrite Ee, Ee2. apply Forall_app. split; [done|]. by repeat constructor.
Qed.

Lemma valid_replay_None js : valid None js → replay None js = None → js = [].
Proof.
  destruct js as [|e js]; [done|]. intros [Ha _] Hr. destruct e; try done.
  assert (is_Some (replay None (EGraphCreated e :: js))) as [g Hg]; [|congruence].
  eapply (replay_is_Some (Some _) js). by eexists.
Qed.

Lemma wp_start name p :
  replayable name p → GetSnapshotInterval p ≠ 0%Z → valid None (journal name p) → Forall simple (journal name p) →
  wp (Using n name MStarted) (λ _ s', alive name s' ∧ (∃ es, actor_journal s' = journal name p ++ es)
    ∧ ∀ g, replay None (journal name p) = Some g → keeps_graph (journal name p) g s') (NewGraphActor p).
Proof.
  intros Hre Hint Hv Hs. assert (∃ m, n = S m) as [m Hm].
  { pose proof Hn as Hn'. unfold depth_bound in Hn'. exists (pred n). lia. }
  apply wp_bind. unfold Receive at 1. apply wp_bind, wp_bind, wp_get, wp_ret. simpl.
  apply wp_emit. intros s0 Eg0 Ep0 Ee0. apply (wp_init ga_persistence put_persistence (λ q s, eq_refl) (λ q q2 s, eq_refl)
    _ _ _ (λ dn s', replaying name (journal name p) (GetSnapshotInterval p) (length dn) (replay None dn) s'));
    rewrite ?Ep0; simpl; [done|..].
  - intros p' Hre' Hj' Hi'. split; simpl; try done; [by rewrite Eg0|]. rewrite Ee0. by repeat constructor.
  - intros dn e rest s' Heq Hrp. rewrite Heq in Hv, Hs. apply valid_app in Hv as [Hv1 [Hv2 _]].
    apply Forall_app in Hs as [Hs1 [Hs2 _]%Forall_cons]. rewrite length_app, Nat.add_comm, replay_app.
    rewrite Hm. apply wp_receive_event; try done; [by apply replay_plan|by apply refs_free_replay].
  - intros s' Hrp. destruct (replay None (journal name p)) as [g|] eqn:Hrep.
    + eapply wp_mono; [by eapply wp_replay_complete|]. intros [] s2 (Ha & He & Hk). split_and!; [done..|].
      by intros g' [= <-].
    + apply valid_replay_None in Hrep as Hj0; [|done]. rewrite Hj0 in *. destruct Hrp as [Hg Hq Hna Hr Hre' Hj Hi Hx].
      apply wp_bind, wp_zoom, wp_modify. unfold Receive. apply wp_bind, wp_bind, wp_get, wp_ret. simpl.
      destruct (ga_graph s') eqn:Hsg; [done|]. apply wp_bind, wp_get. simpl. rewrite Hsg. apply wp_ret.
      assert (actor_journal (put_persistence (Build_persistent (set_recovering false (pers_mixin (ga_persistence s')))
        (pers_provider (ga_persistence s'))) s') = []) as Hj1.
      { unfold actor_journal. simpl. change (Name _) with (Name (ga_persistence s')). by rewrite Hna. }
      split_and!; [|by exists []; rewrite Hj1|done]. split; rewrite ?Hj1; try done.
      * unfold good. simpl. rewrite Hsg. split_and!; [split; [done|simpl; by rewrite Hi]| |].
        -- simpl. eapply Forall_impl; [exact Hq|]. intros ef. by destruct ef as [|[]|? []| | | | |]; simpl; naive_solver.
        -- simpl. rewrite (quiet_executions _ _ Hq). constructor.
      * split; [|by rewrite Hj1]. change (Name _) with (Name (ga_persistence s')). by rewrite Hna.
      * simpl. by rewrite Hsg.
Qed.

(** ** The life of an actor, across crashes *)

(** The messages of the environment: commands that may arrive, and, after a
    restart, answers to what an earlier incarnation had sent, which concern a
    stage that can take them; the expiry of the receive timeout, and anything
    the actor does not know. *)
Definition message_ok s (msg : Message) : Prop :=
  match msg with
  | MCommand c => arrives s c ∨ ∃ g, ga_graph s = Some g ∧ command_ok g c
  | MReceiveTimeout | MRequestSnapshot | MUnknown => True
  | _ => False
  end.

(** An actor starts over an empty journal, handles messages, and may at any
    time be lost and started again over what its journal then was: any prefix of
    the journal it would have written. *)
Inductive life (name : string) : A → Prop :=
  | life_start p s :
      journal name p = [] → replayable name p → GetSnapshotInterval p ≠ 0%Z →
      Using n name MStarted (NewGraphActor p) = Ret tt s → life name s
  | life_message s msg s' :
      life name s → message_ok s msg → Using n name msg s = Ret tt s' → life name s'
  | life_restart s p s' :
      life name s → journal name p `prefix_of` actor_journal s → Forall simple (journal name p) →
      replayable name p → GetSnapshotInterval p ≠ 0%Z →
      Using n name MStarted (NewGraphActor p) = Ret tt s' → life name s'.

Lemma alive_not_recovering name s : alive name s → Recovering (ga_persistence s) = false.
Proof. intros [Hg _ _ _ _]. unfold good in Hg. destruct (ga_graph s); [destruct Hg as [Hg _]|]; apply Hg. Qed.

Lemma alive_sourced name s s' : alive name s → sourced s s' → good s' → numbered s' → alive name s'.
Proof.
  intros [_ Hna _ Hv Hgr] (es & J & N & G & _ & V) Hgood Hnum. symmetry in Hgr.
  split; [done|congruence|done| |]; rewrite J.
  - apply valid_app. split; [done|]. eapply valid_erase; [symmetry; exact Hgr|]. apply V.
    eapply plan_erase; [exact Hgr|]. by apply replay_plan.
  - rewrite replay_app, G. by apply replay_proper.
Qed.

Lemma alive_snapshot name b s :
  alive name s → alive name (put_persistence (Build_persistent (set_snapshotRequested b (pers_mixin (ga_persistence s)))
                              (pers_provider (ga_persistence s))) s).
Proof.
  by intros [].
Qed.

Lemma alive_Receive name s msg :
  alive name s → message_ok s msg → wp (Receive n msg) (λ _, alive name) s.
Proof.
  intros Hs Hm. unfold Receive. apply wp_bind, wp_bind, wp_get, wp_ret. rewrite (alive_not_recovering _ _ Hs).
  assert (∀ ef, (∀ g, answerable g ef) → executions [ef] = [] → wp (emit ef) (λ _, alive name) s) as Hemit.
  { intros ef Ha He. eapply wp_mono; [apply good_emit; [done|done|apply Hs]|].
    intros [] s' (Hg & Eg & Ep & _). destruct Hs as [_ Hna Hnum Hv Hgr].
    unfold numbered, actor_journal in *. by split; unfold numbered, actor_journal; rewrite ?Ep, ?Eg. }
  destruct msg as [c|e| | | | |]; try done.
  - assert (wp (receiveCommand n c) (λ _, good) s) as Hw.
    { destruct Hm as [Hm|(g & Hg & Hc)]; [by apply good_receiveCommand; [|apply Hs|]|].
      apply good_receiveCommand_ok; [done|apply Hs|]. intros g' Hg'. by simplify_eq. }
    apply wp_run in Hw as ([] & s' & Hrun & Hg). apply wp_run. exists tt, s'. split; [done|].
    pose proof (numbers_receiveCommand n c s) as Hnum. rewrite Hrun in Hnum.
    eapply alive_sourced; [exact Hs|by eapply sourced_receiveCommand|done|]. apply Hnum, Hs.
  - apply wp_bind, wp_get. destruct (ga_graph s); by apply Hemit.
Qed.

Lemma alive_Using name s msg :
  alive name s → message_ok s msg → wp (Using n name msg) (λ _, alive name) s.
Proof.
  intros Hs Hm. assert (wp (Receive n msg;; s ← get_state;
    if isSnapshotRequested (ga_persistence s)
    then on_mixin ga_persistence put_persistence (set_snapshotRequested false);; Receive n MRequestSnapshot
    else mret tt) (λ _, alive name) s) as Hw; [|by destruct msg].
  apply wp_bind. eapply wp_mono; [by apply alive_Receive|]. intros [] s1 Hs1. apply wp_bind, wp_get.
  destruct (isSnapshotRequested _); [|by apply wp_ret]. apply wp_bind, wp_zoom, wp_modify.
  by apply alive_Receive; [apply alive_snapshot|].
Qed.

Lemma valid_prefix js js' : js `prefix_of` js' → valid None js' → valid None js.
Proof. intros [l ->]. by intros [? _]%valid_app. Qed.

Lemma life_alive name s : life name s → alive name s.
Proof.
  induction 1 as [p s Hj Hre Hi Hrun|s msg s' _ IH Hm Hrun|s p s' _ IH Hpre Hsi Hre Hi Hrun].
  - pose proof (wp_start name p Hre Hi) as Hw. rewrite Hj in Hw. specialize (Hw I (Forall_nil_2 _)).
    unfold wp in Hw. rewrite Hrun in Hw. apply Hw.
  - pose proof (alive_Using name s msg IH Hm) as Hw. unfold wp in Hw. by rewrite Hrun in Hw.
  - pose proof (wp_start name p Hre Hi (valid_prefix _ _ Hpre (al_valid _ _ IH)) Hsi) as Hw.
    unfold wp in Hw. rewrite Hrun in Hw. apply Hw.
Qed.

(** C4: an actor that is lost at any moment of its life, its journal cut off after
    any event and without compositions, can be started again: the start returns
    (no panic, whatever the journal), every stage the journal knows is there, with
    its operation and, if it has one, its result, and can take the answers it is
    waiting for; the journal is only appended to; and when no stage was in flight and the lifecycle was up to date, the
    graph is the one the journal describes, not an event is written, and
    nothing is sent but the reminders of pending delays. *)
Theorem recovery_faithful name s p :
  life name s → journal name p `prefix_of` actor_journal s → Forall simple (journal name p) →
  replayable name p → GetSnapshotInterval p ≠ 0%Z →
  ∃ s', Using n name MStarted (NewGraphActor p) = Ret tt s' ∧ life name s'
    ∧ (∃ es, actor_journal s' = journal name p ++ es)
    ∧ ∀ g, replay None (journal name p) = Some g → keeps_graph (journal name p) g s'.
Proof.
  intros Hl Hpre Hsi Hre Hi. pose proof (al_valid _ _ (life_alive _ _ Hl)) as Hv.
  pose proof (wp_start name p Hre Hi (valid_prefix _ _ Hpre Hv) Hsi) as Hw.
  apply wp_run in Hw as ([] & s' & Hrun & _ & Hes & Hk). exists s'. split_and!; [done| |done|done].
  by eapply life_restart.
Qed.

(** A crash after a command: whatever may arrive at the lost actor may arrive at
    its successor. *)
Lemma late_message name s p s' c :
  life name s → journal name p = actor_journal s → Forall simple (journal name p) →
  replayable name p → GetSnapshotInterval p ≠ 0%Z →
  Using n name MStarted (NewGraphActor p) = Ret tt s' → arrives s c → message_ok s' (MCommand c).
Proof.
  intros Hl Hj Hsi Hre Hi Hrun Harr. destruct (life_alive _ _ Hl) as [Hgood _ _ Hv Hgr].
  rewrite <- Hj in Hv, Hgr. pose proof (wp_start name p Hre Hi Hv Hsi) as Hw. unfold wp in Hw. rewrite Hrun in Hw.
  destruct Hw as (_ & _ & Hk). unfold good in Hgood. destruct (ga_graph s) as [g|].
  - destruct (replay None (journal name p)) as [g0|]; [|done]. apply (inj Some) in Hgr.
    destruct (Hk g0 eq_refl) as (g' & Hg' & _ & Hc & _). right. exists g'. split; [done|].
    apply Hc. eapply command_ok_equiv; [exact Hgr|]. eapply arrives_ok; [|done]. apply Hgood.
  - left. pose proof (arrives_ok _ _ _ Hgood Harr) as Hc. destruct c; try done.
    + destruct Hc as [[q Hq] _]. done.
    + destruct Hc as [_ (q & x & Hq & _)]. done.
Qed.

(** C8: at any point of a life with crashes and restarts (over journals without
    compositions), every message that can arrive is handled to the end by the
    middleware and the actor, and the life goes on. Answers to requests and
    delays of an earlier incarnation are among these messages: what may arrive
    at an actor that is lost between two messages may arrive at its
    successor. *)
Theorem total_across_crashes name s :
  life name s →
  (∀ msg, message_ok s msg → ∃ s', Using n name msg s = Ret tt s' ∧ life name s')
  ∧ ∀ p c, journal name p = actor_journal s → Forall simple (journal name p) →
      replayable name p → GetSnapshotInterval p ≠ 0%Z → arrives s c →
      ∃ s1 s2, Using n name MStarted (NewGraphActor p) = Ret tt s1
        ∧ Using n name (MCommand c) s1 = Ret tt s2 ∧ life name s2.
Proof.
  intros Hl. split.
  2: { intros p c Hj Hsi Hre Hi Harr. pose proof (al_valid _ _ (life_alive _ _ Hl)) as Hv. rewrite <- Hj in Hv.
    pose proof (wp_start name p Hre Hi Hv Hsi) as Hw. apply wp_run in Hw as ([] & s1 & Hrun & Ha & _).
    pose proof (alive_Using name s1 (MCommand c) Ha (late_message name s p s1 c Hl Hj Hsi Hre Hi Hrun Harr)) as Hw.
    apply wp_run in Hw as ([] & s2 & Hrun2 & _). exists s1, s2. split_and!; [done|done|].
    eapply life_message; [|by eapply late_message|exact Hrun2]. eapply life_restart; [exact Hl|by rewrite Hj|done..]. }
  intros msg Hm. pose proof (alive_Using name s msg (life_alive _ _ Hl) Hm) as Hw.
  apply wp_run in Hw as ([] & s' & Hrun & _). exists s'. split; [done|]. by eapply life_message.
Qed.

(** C11: whatever crashes there have been, at any event, with restarts over
    journals without compositions, between two messages the journal follows the
    grammar and describes the graph; no stage is ready and untriggered; the state
    of the graph agrees with its stages; and no closure has been sent for execution
    twice since the last start. *)
Theorem invariants_across_crashes name s g :
  life name s → ga_graph s = Some g →
  valid None (actor_journal s)
  ∧ erase <$> Some g = erase <$> replay None (actor_journal s)
  ∧ no_ready g ∧ lifecycle_current g ∧ lifecycle_safe g ∧ compose_closed g
  ∧ NoDup (executions (ga_effects s)).
Proof.
  intros Hl Hg. destruct (life_alive _ _ Hl) as [Hgood _ _ Hv Hgr]. unfold good in Hgood. rewrite Hg in *.
  destruct Hgood as [(_ & _ & Hnd) [Hwf [Hno Hlc Hcc] _ _]]. split_and!; try done. apply (wf_safe _ Hwf).
Qed.
End recovery.
