(* ===== verification/Accounting.v ===== *)
(** * Triggered stages are accounted for

    [accounts] follows, through all the re-entrant calls of graph and actor, that
    a stage that is triggered is sent for execution or completed on the spot,
    that resolved stages stay resolved, and that the termination chain has its
    source when the graph terminates. *)

From S2P Require Import Prelude Model Stage StageFacts Graph GraphFacts GraphGrowth GraphSpec GraphSafety.
From S2P Require Import Persistence GraphActor ActorSpec ActorCommands ActorTheorems ActorSafety Returns.

(** Completed only by a message: triggering the stage sends nothing. *)
Definition passive (x : CompletionStage) : Prop :=
  strat_Success (stage_strategy x) = Fn_completeExternally ∨ strat_Failure (stage_strategy x) = Fn_completeExternally.

Section accounting.
Context {P : Type} `{!ProviderState P} `{!MapOrder} `{!Clock}.
Abbreviation A := (graphActor P).
Implicit Types s : A.

Definition resolved_in (p : stage_ptr) s : Prop := ∃ g, ga_graph s = Some g ∧ resolved_at g p.

(** The stages triggered and unresolved are passive or have been sent for
    execution, those in [E] aside, which are being dealt with. *)
Definition accounted (E : stage_ptr → Prop) s : Prop :=
  ∀ g p x, ga_graph s = Some g → gr_objects g !! p = Some x → stage_triggered x = true → IsResolved x = false →
    E p ∨ passive x ∨ stage_ID x ∈ executions (ga_effects s).

(** A stage is found under its id. *)
Definition named s : Prop :=
  ∀ g p x, ga_graph s = Some g → gr_objects g !! p = Some x → GetStage g (stage_ID x) = Some p.

(** The hooks of a terminating graph can run. *)
Definition rooted s : Prop :=
  ∀ g, ga_graph s = Some g → gr_state g = StateTerminating → is_Some (raw_result (gr_terminationRoot g)).

Definition accounts s s' : Prop :=
  (∀ p, resolved_in p s → resolved_in p s') ∧ (rooted s → rooted s') ∧ (named s → named s' ∧ ∀ E, accounted E s → accounted E s').

(** A stage as the accounting sees it. *)
Record stage_same (x y : CompletionStage) : Prop := {
  ss_ID : stage_ID y = stage_ID x;
  ss_strategy : stage_strategy y = stage_strategy x;
  ss_result : stage_result y = stage_result x;
  ss_triggered : stage_triggered y = stage_triggered x;
}.
#[local] Instance stage_same_preorder : PreOrder stage_same.
Proof. split; [intros x; by split|]. intros x y z [] []. split; congruence. Qed.

Lemma stage_same_resolved x y : stage_same x y → IsResolved y = IsResolved x.
Proof. intros []. unfold IsResolved. simpl. by rewrite ss_result0. Qed.

(** The graph was rooted in this way before, or is not terminating. *)
Definition keeps_root (g g' : CompletionGraph) : Prop :=
  gr_state g' = StateTerminating →
  (gr_state g = StateTerminating → is_Some (raw_result (gr_terminationRoot g))) → is_Some (raw_result (gr_terminationRoot g')).
Lemma keeps_root_rooted s g g' : ga_graph s = Some g → keeps_root g g' → rooted s → rooted (put_graph g' s).
Proof. intros Hg Hk Hr g0 [= <-] Hst. apply Hk; [done|]. by apply Hr. Qed.
Lemma keeps_root_same g g' :
  gr_state g' = gr_state g → gr_terminationRoot g' = gr_terminationRoot g → keeps_root g g'.
Proof. unfold keeps_root. intros -> ->. auto. Qed.

Lemma accounts_objects s g g' :
  ga_graph s = Some g → Forall2 stage_same (gr_objects g) (gr_objects g') → gr_stages g' = gr_stages g →
  keeps_root g g' → accounts s (put_graph g' s).
Proof.
  intros Hg Hobj Hst Hroot. split; [|split; [by eapply keeps_root_rooted|intros Hn; split]].
  - intros p (g0 & Hg0 & x & Hx & Hr). simplify_eq. destruct (Forall2_lookup_l _ _ _ _ _ Hobj Hx) as (y & Hy & Hs).
    exists g'. split; [done|]. exists y. by rewrite (stage_same_resolved x y Hs).
  - intros g0 p y [= <-] Hy. destruct (Forall2_lookup_r _ _ _ _ _ Hobj Hy) as (x & Hx & []).
    unfold GetStage. rewrite Hst. rewrite ss_ID0. by eapply Hn.
  - intros E HE g0 p y [= <-] Hy Ht Hr. destruct (Forall2_lookup_r _ _ _ _ _ Hobj Hy) as (x & Hx & Hs).
    rewrite (stage_same_resolved x y Hs) in Hr. destruct Hs. unfold passive. rewrite ss_ID0, ss_strategy0.
    apply (HE g p x Hg Hx); congruence.
Qed.

Lemma accounts_frame s s' :
  ga_graph s' = ga_graph s → (∃ l, ga_effects s' = ga_effects s ++ l) → accounts s s'.
Proof.
  intros Eg [l El]. unfold accounts, resolved_in, rooted, named, accounted. rewrite Eg. split; [done|]. split; [done|]. intros Hn.
  split; [done|]. intros E HE g p x Hg Hx Ht Hr. destruct (HE g p x Hg Hx Ht Hr) as [?|[?|?]]; [by auto..|].
  right; right. rewrite El. unfold executions. rewrite omap_app. by apply elem_of_app; left.
Qed.

#[export] Instance accounts_framed : Framed accounts.
Proof.
  split; [split| |].
  - intros s. apply accounts_frame; [done|]. exists []. by rewrite app_nil_r.
  - intros s1 s2 s3 (R1 & T1 & N1) (R2 & T2 & N2). split; [auto|]. split; [auto|]. intros Hn. destruct (N1 Hn) as [Hn2 A1].
    destruct (N2 Hn2) as [Hn3 A2]. auto.
  - intros s s' Eg _ Hl. by apply accounts_frame.
  - intros s g Hg. apply (accounts_objects s g); [done..|]. by apply keeps_root_same.
Qed.

Lemma accounts_modify f :
  (∀ g, Forall2 stage_same (gr_objects g) (gr_objects (f g)) ∧ gr_stages (f g) = gr_stages g ∧ keeps_root g (f g)) →
  returns accounts (modify_graph f : M A _).
Proof.
  intros Hf s b s' (g & Hg & ->)%modify_graph_run. destruct (Hf g) as (? & ? & ?). by eapply accounts_objects.
Qed.
Lemma accounts_persist e : returns accounts (persist e : M A _).
Proof.
  intros s b s'. unfold persist, zoom. destruct (PersistReceive e (ga_persistence s)); [|done..].
  intros [= _ <-]. apply accounts_frame; [done|]. exists []. by rewrite app_nil_r.
Qed.

(** ** Mutations the accounting notices *)

Lemma complete_run p r s b s' :
  complete p (Some r) s = Ret b s' →
  ∃ g x, ga_graph s = Some g ∧ gr_objects g !! p = Some x ∧ s' = put_graph (alter_stage (complete_stage r) p g) s.
Proof.
  unfold complete, get_stage, modify_graph, get_graph, get_state, modify, mbind, M_bind, deref, mret, M_ret. simpl.
  destruct (ga_graph s) as [g|] eqn:Hg; simpl; [|done]. destruct (gr_objects g !! p) as [x|] eqn:Hx; simpl; [|done].
  rewrite Hg. simpl. rewrite list_lookup_alter_eq, Hx. simpl. intros Hrun. exists g, x. split_and!; [done..|].
  assert (∀ f : CompletionStage → CompletionStage, f x = complete_stage r x →
    alter f p (gr_objects g) = alter (complete_stage r) p (gr_objects g)) as Hext.
  { intros f Hf. apply list_alter_ext; [|done]. intros y Hy. by simplify_eq. }
  destruct (stage_result x) eqn:Hr; simpl in Hrun; injection Hrun as _ <-; unfold alter_stage, with_objects, put_graph; simpl.
  - by rewrite (Hext set_triggered) by (unfold complete_stage; by rewrite Hr).
  - rewrite list_alter_alter_eq. by rewrite (Hext (set_result (Some r) ∘ set_triggered))
      by (unfold complete_stage; by rewrite Hr).
Qed.

Lemma requestTrigger_run p s fires status rs s' :
  requestTrigger p s = Ret (fires, status, rs) s' →
  ∃ g, ga_graph s = Some g ∧ s' = if fires : bool then put_graph (alter_stage set_triggered p g) s else s.
Proof.
  unfold requestTrigger, get_stage, modify_graph, get_graph, get_state, modify, mbind, M_bind, deref, mret, M_ret.
  simpl. destruct (ga_graph s) as [g|] eqn:Hg; simpl; [|done]. destruct (gr_objects g !! p) as [x|]; simpl; [|done].
  destruct (stage_triggered x); simpl; [intros [= <- _ _ <-]; by exists g|]. rewrite Hg. simpl.
  destruct (load_deps g _) as [deps|]; simpl; [|done]. destruct (run_trigger _ deps) as [[[[] st] rs']|]; simpl; [| |done].
  - rewrite Hg. simpl. intros [= <- _ _ <-]. by exists g.
  - intros [= <- _ _ <-]. by exists g.
Qed.

(** Altering the stage at [p]: it is to be dealt with. *)
Lemma accounts_alter f p s g :
  ga_graph s = Some g →
  (∀ x, gr_objects g !! p = Some x → stage_ID (f x) = stage_ID x
     ∧ (IsResolved x = true → IsResolved (f x) = true)) →
  (∀ q, resolved_in q s → resolved_in q (put_graph (alter_stage f p g) s))
  ∧ (rooted s → rooted (put_graph (alter_stage f p g) s))
  ∧ (named s → named (put_graph (alter_stage f p g) s)
     ∧ ∀ E, accounted E s → accounted (λ q, E q ∨ q = p) (put_graph (alter_stage f p g) s)).
Proof.
  intros Hg Hf. split; [|split; [by eapply keeps_root_rooted, keeps_root_same|intros Hn; split]].
  - intros q (g0 & Hg0 & x & Hx & Hr). simplify_eq. eexists. split; [done|]. unfold resolved_at.
    rewrite lookup_alter_stage. case_decide; [subst|by exists x]. rewrite Hx. exists (f x). split; [done|].
    by apply Hf.
  - intros g0 q y [= <-] Hy. rewrite lookup_alter_stage in Hy. case_decide; [|exact (Hn g q y Hg Hy)].
    subst. destruct (gr_objects g !! q) as [x|] eqn:Hx; [|done]. injection Hy as <-.
    destruct (Hf x) as [-> _]; [done|]. exact (Hn g _ x Hg Hx).
  - intros E HE g0 q y [= <-] Hy Ht Hr. rewrite lookup_alter_stage in Hy. case_decide; [by auto|].
    destruct (HE g q y Hg Hy Ht Hr) as [?|?]; auto.
Qed.

(** A stage in [E] that has been dealt with is not an exception any more. *)
Lemma accounted_settle E p s :
  accounted (λ q, E q ∨ q = p) s →
  (∀ g x, ga_graph s = Some g → gr_objects g !! p = Some x → stage_triggered x = true → IsResolved x = false →
     passive x ∨ stage_ID x ∈ executions (ga_effects s)) → accounted E s.
Proof.
  intros HE Hp g q x Hg Hx Ht Hr. destruct (HE g q x Hg Hx Ht Hr) as [[?| ->]|?]; auto. right. by eapply Hp.
Qed.
Lemma accounted_resolved E p s : accounted (λ q, E q ∨ q = p) s → resolved_in p s → accounted E s.
Proof.
  intros HE (g & Hg & y & Hy & Hr). apply (accounted_settle E p s HE). intros g0 x Hg0 Hx _ Hn. simplify_eq. congruence.
Qed.

Lemma complete_accounts p r s b s' :
  complete p (Some r) s = Ret b s' → accounts s s' ∧ resolved_in p s'.
Proof.
  intros (g & x & Hg & Hx & ->)%complete_run.
  assert (∀ x, IsResolved (complete_stage r x) = true) as Hres.
  { intros y. unfold IsResolved. simpl. by rewrite complete_stage_result. }
  assert (resolved_in p (put_graph (alter_stage (complete_stage r) p g) s)) as Hp.
  { eexists. split; [done|]. unfold resolved_at. rewrite lookup_alter_stage, decide_True, Hx by done. by eexists. }
  destruct (accounts_alter (complete_stage r) p s g Hg) as (HR & HT & HN).
  { intros y _. split; [|by auto]. unfold complete_stage. by destruct (stage_result y). }
  split; [|done]. split; [done|]. split; [done|]. intros Hn. destruct (HN Hn) as [? HE]. split; [done|]. intros E HEs.
  eapply accounted_resolved; [by apply HE|done].
Qed.

(** A new stage under a fresh id, untriggered; the others as before. *)
Lemma accounts_insert x g g' s :
  ga_graph s = Some g → GetStage g (stage_ID x) = None → stage_triggered x = false →
  gr_stages g' = <[stage_ID x := length (gr_objects g)]> (gr_stages g) →
  Forall2 stage_same (gr_objects g ++ [x]) (gr_objects g') → keeps_root g g' → accounts s (put_graph g' s).
Proof.
  intros Hg Hid Htr Hst Hobj Hroot. split; [|split; [by eapply keeps_root_rooted|intros Hn; split]].
  - intros p (g0 & Hg0 & y & Hy & Hr). simplify_eq.
    destruct (Forall2_lookup_l _ _ _ _ _ Hobj (lookup_app_l_Some _ _ _ _ Hy)) as (z & Hz & Hs).
    exists g'. split; [done|]. exists z. by rewrite (stage_same_resolved y z Hs).
  - intros g0 p z [= <-] Hz. destruct (Forall2_lookup_r _ _ _ _ _ Hobj Hz) as (y & Hy & []).
    unfold GetStage. rewrite Hst, ss_ID0. apply lookup_snoc_Some in Hy as [[_ Hy]|[-> <-]].
    + rewrite lookup_insert_ne; [exact (Hn g p y Hg Hy)|]. intros Heq. apply (Hn g) in Hy; [|done]. congruence.
    + by rewrite lookup_insert_eq.
  - intros E HE g0 p z [= <-] Hz Ht Hr. destruct (Forall2_lookup_r _ _ _ _ _ Hobj Hz) as (y & Hy & Hs).
    rewrite (stage_same_resolved y z Hs) in Hr. destruct Hs. rewrite ss_triggered0 in Ht.
    apply lookup_snoc_Some in Hy as [[_ Hy]|[-> <-]]; [|congruence].
    unfold passive. rewrite ss_ID0, ss_strategy0. by eapply HE.
Qed.

(** ** Handlers *)

(** What the accounting asks of a listener. *)
Record listener_accounts (L : CompletionEventListener A) : Prop := {
  la_execute p rs s b s' : OnExecuteStage L p rs s = Ret b s' →
    accounts s s' ∧ ga_graph s' = ga_graph s
    ∧ ∀ g x, ga_graph s = Some g → gr_objects g !! p = Some x → stage_ID x ∈ executions (ga_effects s');
  la_complete p r s b s' : OnCompleteStage L p r s = Ret b s' → accounts s s' ∧ (named s → resolved_in p s');
  la_compose p q : returns accounts (OnComposeStage L p q);
  la_finished : returns accounts (OnGraphExecutionFinished L);
  la_completed : returns accounts (OnGraphComplete L);
}.

Lemma accounts_state st :
  st ≠ StateTerminating → returns accounts (modify_graph (with_state st) : M A _).
Proof. intros Hst. apply accounts_modify. intros g. split_and!; [done..|]. by intros Ht. Qed.
Lemma accounts_startTime e : returns accounts (modify_graph (update_startTime e) : M A _).
Proof.
  apply accounts_modify. intros g. destruct (update_startTime_eq e g) as [t ->]. split_and!; [done..|].
  by apply keeps_root_same.
Qed.
Lemma accounts_compose o p : returns accounts (modify_graph (alter_stage (set_composeReference o) p) : M A _).
Proof.
  apply accounts_modify. intros g. split_and!; [|done|by apply keeps_root_same].
  apply Forall2_alter_r; [apply _|]. intros x _. by split.
Qed.
(** Termination starts: the state is set, then the source of the chain. *)
Lemma accounts_terminating {B} r (k : M A B) :
  returns accounts k →
  returns accounts (modify_graph (with_state StateTerminating);;
    modify_graph (λ g, with_terminationRoot (SetResult r (gr_terminationRoot g)) g);; k).
Proof.
  intros Hk s x s' Hrun. apply bind_ret_inv in Hrun as (? & s1 & (g & Hg & ->)%modify_graph_run & Hrun).
  apply bind_ret_inv in Hrun as (? & s2 & (g1 & [= <-] & ->)%modify_graph_run & Hrun).
  etrans; [|by eapply Hk]. change (accounts s (put_graph (with_terminationRoot
    (SetResult r (gr_terminationRoot (with_state StateTerminating g))) (with_state StateTerminating g)) s)).
  apply (accounts_objects s g); [done..|]. intros _ _. by eexists.
Qed.
#[local] Hint Resolve accounts_state accounts_startTime accounts_compose accounts_persist : returns.
#[local] Hint Extern 1 (_ ≠ StateTerminating) => discriminate : returns.

Section handlers.
Context (L : CompletionEventListener A) (HL : listener_accounts L).

Lemma returns_complete_accounts p r : returns accounts (OnCompleteStage L p r).
Proof. intros s b s' Hrun. by apply (la_complete _ HL) in Hrun as [? _]. Qed.
#[local] Hint Resolve returns_complete_accounts la_compose la_finished la_completed : returns.

(** A stage that has just been triggered, and is now run. *)
Lemma trigger_accounts p status rs s b s' :
  trigger L p status rs s = Ret b s' →
  accounts s s' ∧ (named s → ∀ E, accounted (λ q, E q ∨ q = p) s → accounted E s').
Proof.
  intros Hrun. destruct (ga_graph s) as [g|] eqn:Hg; [|by unfold trigger, get_stage, get_graph, get_state, mbind, M_bind in Hrun; simpl in Hrun; rewrite Hg in Hrun].
  destruct (get_stage_ret p g _ _ _ _ Hg Hrun) as (x & Hx & Hx'). clear Hrun. rename Hx' into Hrun.
  assert (∀ rs, OnExecuteStage L p rs s = Ret b s' → accounts s s' ∧ (named s → ∀ E,
    accounted (λ q, E q ∨ q = p) s → accounted E s')) as Hexec.
  { intros args (Ha & Eg & Hin)%(la_execute _ HL). split; [done|]. intros Hn E HE.
    apply (accounted_settle E p); [by apply Ha|]. intros g0 y Hg0 Hy _ _. right. rewrite Eg in Hg0. by eapply Hin. }
  assert (∀ r, OnCompleteStage L p r s = Ret b s' → accounts s s' ∧ (named s → ∀ E,
    accounted (λ q, E q ∨ q = p) s → accounted E s')) as Hcompl.
  { intros r (Ha & Hr)%(la_complete _ HL). split; [done|]. intros Hn E HE.
    apply (accounted_resolved E p); [by apply Ha|by apply Hr]. }
  set (f := if status then _ else _) in Hrun.
  assert (f = Fn_completeExternally → passive x) as Hpass.
  { unfold f, passive. destruct status; auto. }
  destruct f; simpl in Hrun; unfold succeedWithEmpty, invokeWithoutArgs, invokeWithResult, invokeWithResultOrError,
    completeExternally, propagateResult in Hrun.
  - by eapply Hcompl.
  - by eapply Hexec.
  - by eapply Hexec.
  - destruct rs as [|[r|] [|]]; try done. apply bind_ret_inv in Hrun as (? & ? & Hd & Hrun).
    injection Hd as <- <-. by eapply Hexec.
  - injection Hrun as _ <-. split; [reflexivity|]. intros Hn E HE. apply (accounted_settle E p); [done|].
    intros g0 y Hg0 Hy _ _. simplify_eq. left. by apply Hpass.
  - destruct rs as [|r [|]]; try done. by eapply Hcompl.
Qed.

Lemma accounts_triggerReadyStages : returns accounts (triggerReadyStages L).
Proof.
  apply returns_range_stages; [apply _|]. intros p. apply returns_seq; [apply _|auto with returns|]. intros x.
  destruct (negb (IsResolved x)); [|auto with returns]. intros s b s' Hrun.
  apply bind_ret_inv in Hrun as ([[fires status] rs] & s1 & Hreq & Hrun).
  apply requestTrigger_run in Hreq as (g & Hg & ->). destruct fires; [|by injection Hrun as _ <-].
  apply trigger_accounts in Hrun as [(HR & HT & HA) HE].
  destruct (accounts_alter set_triggered p s g Hg) as (HR1 & HT1 & HN1); [by intros y _|].
  split; [by auto|]. split; [by auto|]. intros Hn. destruct (HN1 Hn) as [Hn1 HE1]. split; [by apply HA|]. intros E HEs.
  apply (HE Hn1). by apply HE1.
Qed.
#[local] Hint Resolve accounts_triggerReadyStages : returns.

Lemma accounts_checkForExecutionFinished : returns accounts (checkForExecutionFinished L).
Proof. unfold checkForExecutionFinished. walk_returns. Qed.
Lemma accounts_tryCompleteComposedStage o i : returns accounts (tryCompleteComposedStage L o i).
Proof. unfold tryCompleteComposedStage. walk_returns. Qed.
Lemma accounts_handleResult p r : returns accounts (handleResult L p r).
Proof.
  unfold handleResult. walk_returns. destruct (strat_ResultHandling _);
    unfold run_result_handling, invocationResult, referencedStageResult, parentStageResult, noResultStrategy; walk_returns.
Qed.
#[local] Hint Resolve accounts_checkForExecutionFinished accounts_tryCompleteComposedStage accounts_handleResult : returns.

(** Completing a stage by its id resolves it. *)
Lemma handleStageCompleted_accounts e b s x s' :
  handleStageCompleted L e b s = Ret x s' →
  accounts s s' ∧ ∀ g p, ga_graph s = Some g → GetStage g (stagecompleted_StageId e) = Some p → resolved_in p s'.
Proof.
  intros Hrun. apply bind_ret_inv in Hrun as (r & s0 & Hd & Hrun).
  destruct (stagecompleted_Result e) as [r'|] eqn:Hr; [|done]. injection Hd as <- <-.
  apply get_graph_ret in Hrun as (g & Hg & Hrun). destruct (GetStage g _) as [p|] eqn:Hp; [|done].
  apply bind_ret_inv in Hrun as (? & ? & Hd & Hrun). injection Hd as <- <-.
  apply bind_ret_inv in Hrun as (ok & s1 & Hc & Hrun). apply complete_accounts in Hc as [Ha Hres].
  assert (accounts s1 s') as Ha'.
  { revert Hrun. generalize s1 x s'. change (returns (A:=bool) accounts (y ← get_stage p;
      match stage_composeReference y with Some outer => tryCompleteComposedStage L (Some outer) p | None => mret tt end;;
      (if b then triggerReadyStages L else mret tt);; checkForExecutionFinished L;; mret ok)). walk_returns. }
  split; [by etrans|]. intros g0 q Hg0 Hq. simplify_eq. by apply Ha'.
Qed.

(** The stage an event adds is new. *)
Definition fresh_event (e : Event) s : Prop :=
  match e with EStageAdded e => ∀ g, ga_graph s = Some g → GetStage g (added_StageId e) = None | _ => True end.

Lemma foldl_add_child_same p ds os : Forall2 stage_same os (foldl (λ os d, alter (add_child p) d os) os ds).
Proof.
  revert os. induction ds as [|d ds IH]; intros os; simpl; [reflexivity|].
  etrans; [|apply IH]. apply Forall2_alter_r; [apply _|]. intros x _. by split.
Qed.

Lemma accounts_added e b : returns accounts (handleStageAdded L e b).
Proof.
  unfold handleStageAdded. destruct (getStrategyFromOperation _) as [strat|]; [|by intros ???].
  destruct (bad_arity _ _); [by intros ???|]. intros s x s' Hrun. apply get_graph_ret in Hrun as (g & Hg & Hrun).
  destruct (GetStage g (added_StageId e)) eqn:Hid; [done|]. destruct (mapM _ _) as [ds|]; [|done].
  apply bind_ret_inv in Hrun as (? & s1 & (g0 & Hg0 & ->)%modify_graph_run & Hrun). simplify_eq.
  set (y := new_stage _ _ _ _ _ _ _) in Hrun. transitivity (put_graph (insert_stage y ds g) s).
  - eapply (accounts_insert y); [done..|apply foldl_add_child_same|by apply keeps_root_same].
  - destruct b; [by eapply accounts_triggerReadyStages|by eapply (returns_ret accounts)].
Qed.

Lemma accounts_hook e s x s' :
  fresh_event (EStageAdded e) s → handleAddTerminationHook e s = Ret x s' → accounts s s'.
Proof.
  intros Hf (g & Hg & ->)%modify_graph_run. specialize (Hf g Hg).
  unfold insert_hook. destruct (gr_terminationChainHead g);
    (eapply (accounts_insert (new_stage (added_StageId e) _ _ _ _ _ _)); [done..|simpl|by apply keeps_root_same]); [|reflexivity].
  apply Forall2_alter_r; [apply _|]. intros y _. by split.
Qed.

Lemma dispatch_accounts e b s x s' :
  fresh_event e s → dispatch_event L e b s = Ret x s' →
  accounts s s' ∧ match e with
                  | EStageCompleted e => ∀ g p, ga_graph s = Some g →
                      GetStage g (stagecompleted_StageId e) = Some p → resolved_in p s'
                  | _ => True
                  end.
Proof.
  intros Hf Hrun.
  assert (returns accounts (dispatch_event L e b) → accounts s s' ∧ True) as Hret by (intros Hd; split; [by eapply Hd|done]).
  destruct e as [e|e|e|e|e|e|e|e|e|e]; try (apply Hret; unfold dispatch_event, handleCompleted,
    handleCommitted, handleStageComposed, handleInvokeComplete; by walk_returns).
  - apply Hret. simpl. apply accounts_terminating. walk_returns.
  - split; [|done]. simpl in Hrun. case_bool_decide; [by eapply accounts_hook|by eapply accounts_added].
  - apply bind_ret_inv in Hrun as (? & s1 & Hrun & Hd). injection Hd as _ <-.
    by apply handleStageCompleted_accounts in Hrun.
Qed.
End handlers.

(** ** The actor *)

Lemma update_accounts L e s x s' :
  listener_accounts L → fresh_event e s → persistAndUpdate_with (UpdateWithEvent L) e s = Ret x s' →
  accounts s s' ∧ match e with
                  | EStageCompleted e => ∀ g p, ga_graph s = Some g →
                      GetStage g (stagecompleted_StageId e) = Some p → resolved_in p s'
                  | _ => True
                  end.
Proof.
  intros HL Hf Hrun. apply bind_ret_inv in Hrun as (? & ? & Hd & Hrun). injection Hd as <- <-.
  destruct (ga_graph s) as [g|] eqn:Hg; [|injection Hrun as _ <-; split; [reflexivity|by destruct e]].
  apply bind_ret_inv in Hrun as (? & s1 & Hp & Hrun).
  assert (ga_graph s1 = Some g) as Hg1.
  { unfold persist, zoom in Hp. destruct (PersistReceive e _); simplify_eq/=. done. }
  apply accounts_persist in Hp.
  apply bind_ret_inv in Hrun as (r & ? & Hd & Hrun). injection Hd as <- <-.
  apply bind_ret_inv in Hrun as (? & s2 & Hm & Hrun). pose proof (accounts_startTime _ _ _ _ Hm) as Ha.
  apply modify_graph_run in Hm as (g1 & Hg1' & ->). rewrite Hg1 in Hg1'. injection Hg1' as <-.
  assert (gr_stages (update_startTime e g) = gr_stages g) as Est by by destruct (update_startTime_eq e g) as [t ->].
  apply (dispatch_accounts L HL) in Hrun as [Ha' He].
  - split; [by etrans; [|etrans]|]. destruct e; try done. intros g0 p [= <-] Hid. eapply He; [done|].
    unfold GetStage in *. by rewrite Est.
  - destruct e; try done. intros g0 [= <-]. unfold GetStage. rewrite Est. by apply Hf.
Qed.

Lemma listener_accounted n : listener_accounts (listener n).
Proof.
  induction n as [|n IH]; [by split|].
  assert (∀ e, (∀ s, fresh_event e s) → returns accounts (persistAndUpdate_with (UpdateWithEvent (listener n)) e)) as Hup.
  { intros e He s x s' Hrun. by apply update_accounts in Hrun as [? _]. }
  split; simpl.
  - intros p rs s b s' Hrun. apply stamp_run in Hrun as (ts & s1 & Eg & Ep & Ee & Hrun).
    apply get_graph_ret in Hrun as (g & Hg & Hrun).
    destruct (get_stage_ret p g _ _ _ _ Hg Hrun) as (x & Hx & Hrun'). clear Hrun.
    apply bind_ret_inv in Hrun' as (? & s2 & Hp & Hrun).
    assert (ga_graph s2 = ga_graph s1 ∧ ga_effects s2 = ga_effects s1) as [Eg2 Ee2].
    { unfold persist, zoom in Hp. destruct (PersistReceive _ _); simplify_eq/=. done. }
    injection Hrun as _ <-. simpl. split_and!; [|congruence|].
    + apply accounts_frame; simpl; [congruence|]. rewrite Ee2, Ee. by eexists.
    + intros g0 y Hg0 Hy. assert (g0 = g) as -> by congruence. simplify_eq. unfold executions. rewrite omap_app.
      apply elem_of_app. right. by left.
  - intros p r s b s' Hrun. apply stamp_run in Hrun as (ts & s1 & Eg & Ep & Ee & Hrun).
    apply get_graph_ret in Hrun as (g & Hg & Hrun).
    destruct (get_stage_ret p g _ _ _ _ Hg Hrun) as (x & Hx & Hrun'). clear Hrun.
    apply update_accounts in Hrun' as [Ha Hres]; [|done|done].
    split; [etrans; [apply (accounts_frame s s1); [done|exists []; by rewrite app_nil_r]|done]|].
    intros Hn. apply (Hres g p Hg). apply (Hn g p x); [congruence|done].
  - intros p q. walk_returns. by apply Hup.
  - walk_returns. by apply Hup.
  - walk_returns. by apply Hup.
Qed.

Lemma accounts_persistAndUpdateGraph n e :
  (∀ s, fresh_event e s) → returns accounts (persistAndUpdateGraph n e : M A _).
Proof. intros He s x s' Hrun. apply update_accounts in Hrun as [? _]; [done|apply listener_accounted|done]. Qed.

(** A command that adds a stage under the next id, and then does [k]. *)
Lemma accounts_add {B} n g op closure deps loc caller f (k : option Timestamp → M A B) s x s' :
  ga_graph s = Some g → GetStage g (NextStageID g) = None →
  (ts ← stamp;
   persistAndUpdateGraph n (stage_added f (NextStageID g) op closure deps ts loc caller);; k ts) s = Ret x s' →
  (∀ ts, returns accounts (k ts)) → accounts s s'.
Proof.
  intros Hg Hid Hrun Hk. apply stamp_run in Hrun as (ts & s1 & Eg & Ep & Ee & Hrun).
  apply bind_ret_inv in Hrun as ([] & s2 & Hu & Hrun).
  apply update_accounts in Hu as [Ha _]; [|apply listener_accounted|by intros g0 Hg0; simpl; congruence].
  etrans; [apply (accounts_frame s s1); [done|exists []; by rewrite app_nil_r]|]. etrans; [exact Ha|]. by eapply Hk.
Qed.

Lemma accounts_executeCommand n cmd g s x s' :
  ga_graph s = Some g → GetStage g (NextStageID g) = None →
  match cmd with CCreateGraph _ => False | _ => True end →
  executeCommand n cmd s = Ret x s' → accounts s s'.
Proof.
  intros Hg Hid Hc Hrun.
  assert (∀ m : M A unit, m s = Ret x s' → returns accounts m → accounts s s') as Hret by (intros m Hm Hr; by eapply Hr).
  assert (∀ f id r ts, returns accounts (persistAndUpdateGraph n (stage_completed f id r ts) : M A _)) as Hcompl
    by (intros; by apply accounts_persistAndUpdateGraph).
  destruct cmd; [done|..]; unfold_command in Hrun.
  2-5: apply get_graph_ret in Hrun as (g0 & Hg0 & Hrun); rewrite Hg in Hg0; injection Hg0 as <-;
       eapply accounts_add; [exact Hg|exact Hid|exact Hrun|]; intros ts; cbv beta; unfold scheduleDelay; walk_returns.
  all: eapply Hret; [exact Hrun|]; walk_returns; by apply accounts_persistAndUpdateGraph.
Qed.
End accounting.
