(* ===== verification/Progress.v ===== *)
(** * Flows come to an end

    A committed flow that has not completed waits for something outside the
    actor: the response of the executor to a request, a delay, or a client. When
    nothing of the kind is outstanding the flow has completed, unless its stages
    wait for each other in a circle or a composition has been forgotten. *)

From S2P Require Import Prelude Model Stage StageFacts Graph GraphFacts GraphGrowth GraphSpec GraphSafety.
From S2P Require Import Persistence GraphActor ActorSpec ActorCommands ActorTheorems ActorSafety Returns Journal EventSourcing Accounting.

(** A stage is completed after those it depends on, after the one it takes its
    result from and, as a hook, after the main stages. *)
Definition waits_on (g : CompletionGraph) (p q : stage_ptr) : Prop :=
  ∃ x y, gr_objects g !! p = Some x ∧ gr_objects g !! q = Some y
    ∧ (StageRef q ∈ stage_dependencies x ∨ stage_composeReference y = Some p
       ∨ stage_operation x = terminationHook ∧ stage_execPhase y = MainExecPhase).

(** No circle of stages that wait for each other. *)
Definition waits_acyclic (g : CompletionGraph) : Prop :=
  ∃ level : stage_ptr → nat, ∀ p q, waits_on g p q → level q < level p.

Section progress.
Context {P : Type} `{!ProviderState P} `{!ReliableProvider P} `{!MapOrder} `{!Clock}.
Abbreviation A := (graphActor P).
Implicit Types s : A.
Context (n : nat) (Hn : depth_bound ≤ n).

(** An actor and the commands it has handled, in order. *)
Inductive history : list Command → A → Prop :=
  | history_new p : GetSnapshotInterval p ≠ 0%Z → history [] (NewGraphActor p)
  | history_step cs s cmd s' :
      history cs s → arrives s cmd → receiveCommand n cmd s = Ret tt s' → history (cs ++ [cmd]) s'.

Lemma history_reachable cs s : history cs s → reachable n s.
Proof. induction 1; [by apply reachable_new|by eapply reachable_step]. Qed.

Lemma history_returns cs s cmd :
  history cs s → arrives s cmd → ∃ s', receiveCommand n cmd s = Ret tt s' ∧ history (cs ++ [cmd]) s'.
Proof.
  intros Hh Harr. pose proof (reachable_good n s Hn (history_reachable _ _ Hh)) as Hgood.
  pose proof (good_receiveCommand n cmd s Hn Hgood Harr) as Hw. apply wp_run in Hw as ([] & s' & Hrun & _).
  exists s'. split; [done|]. by eapply history_step.
Qed.

(** A delay the actor has scheduled for itself. *)
Definition scheduled s (m : CompleteDelayStageRequest) : Prop :=
  TellSelf (CCompleteDelayStage m) ∈ ga_effects s ∨ ∃ t, TellSelfAfter t (CCompleteDelayStage m) ∈ ga_effects s.

(** Nothing outside the actor is under way: every request has been answered,
    every delay has fired, and the stages that only a client can complete have
    been completed. *)
Record nothing_outstanding (cs : list Command) s (g : CompletionGraph) : Prop := {
  no_requests r : ToExecutor r ∈ ga_effects s → ∃ m, CFaasInvocationResponse m ∈ cs ∧ faas_StageId m = request_stage r;
  no_delays m : scheduled s m → CCompleteDelayStage m ∈ cs;
  no_clients p x : gr_objects g !! p = Some x → passive x →
    (∀ r, ToExecutor r ∈ ga_effects s → request_stage r ≠ stage_ID x) →
    (∀ m, scheduled s m → cdelay_StageId m ≠ stage_ID x) → IsResolved x = true;
}.

(** The compositions the responses asked for are still known to the graph,
    unless they are done with. *)
Definition compositions_kept (cs : list Command) (g : CompletionGraph) : Prop :=
  ∀ m r p x q, CFaasInvocationResponse m ∈ cs → faas_Result m = Some r →
    GetStage g (faas_StageId m) = Some p → gr_objects g !! p = Some x → composes g x r q → IsResolved x = false →
    ∃ y, gr_objects g !! q = Some y ∧ stage_composeReference y = Some p.

(** ** What has been answered has had its effect *)

Definition response_done (g : CompletionGraph) (m : FaasInvocationResponse) : Prop :=
  ∃ p x r, GetStage g (faas_StageId m) = Some p ∧ gr_objects g !! p = Some x ∧ faas_Result m = Some r
    ∧ (IsResolved x = true ∨ ∃ q, composes g x r q).
Definition delay_done (g : CompletionGraph) (m : CompleteDelayStageRequest) : Prop :=
  ∃ p, GetStage g (cdelay_StageId m) = Some p ∧ resolved_at g p.
Definition command_done (g : CompletionGraph) (c : Command) : Prop :=
  match c with
  | CFaasInvocationResponse m => response_done g m
  | CCompleteDelayStage m => delay_done g m
  | _ => True
  end.

Definition is_answer (c : Command) : Prop :=
  match c with CCompleteDelayStage _ | CFaasInvocationResponse _ => True | _ => False end.

Lemma GetStage_le g g' id p :
  graph_wf g → graph_wf g' → graph_le g g' → GetStage g id = Some p → GetStage g' id = Some p.
Proof.
  intros Hwf Hwf' (_ & _ & Hle) Hp. destruct (wf_map _ Hwf _ _ Hp) as (x & Hx & <-).
  destruct (Hle p x Hx) as (y & Hy & []). rewrite <- sl_ID. by apply (wf_obj _ Hwf').
Qed.

Lemma command_done_le g g' c :
  graph_wf g → graph_wf g' → graph_le g g' → command_done g c → command_done g' c.
Proof.
  intros Hwf Hwf' Hle. pose proof (GetStage_le g g') as Hget.
  assert (∀ x y, stage_le x y → IsResolved x = true → IsResolved y = true) as Hres.
  { intros x y [] Hr. apply stage_resolved in Hr as [r Hr]. apply stage_resolved. eauto. }
  destruct c as [| | | | | | | | |m|m| |]; simpl; try done.
  - intros (p & Hp & x & Hx & Hr). destruct Hle as (Hi & Hf & Hle). destruct (Hle p x Hx) as (y & Hy & Hxy).
    exists p. split; [by apply Hget|]. exists y. eauto.
  - intros (p & x & r & Hp & Hx & Hr & Hd). destruct (Hle) as (Hi & Hf & Ho). destruct (Ho p x Hx) as (y & Hy & Hxy).
    exists p, y, r. split_and!; [by apply Hget|done|done|]. destruct Hd as [Hd|(q & Hrh & Hs & ref & Href & Hq)]; [by eauto|].
    right. exists q. split_and!; [by rewrite (sl_strategy _ _ Hxy)|done|]. exists ref. split; [done|]. by apply Hget.
Qed.

(** Neither a response nor a delay is refused. *)
Lemma receive_unchecked s g cmd (Q : unit → A → Prop) :
  ga_graph s = Some g → is_answer cmd →
  wp (executeCommand n cmd) Q s → wp (receiveCommand n cmd) Q s.
Proof.
  intros Hg Hcmd Hex. unfold receiveCommand, validateCmd. apply wp_bind, wp_bind, wp_get. rewrite Hg.
  destruct cmd; try done; apply wp_bind; unfold ValidateCommand; apply wp_bind; unfold get_graph; apply wp_bind, wp_get;
    (apply (wp_deref _ g); [done|]); simpl; by apply wp_ret, wp_ret.
Qed.

Lemma answer_done s cmd g :
  reachable n s → ga_graph s = Some g → arrives s cmd →
  is_answer cmd →
  wp (receiveCommand n cmd) (λ _ s', ∃ g', ga_graph s' = Some g' ∧ command_done g' cmd) s.
Proof.
  intros Hs Hg Harr Hcmd. destruct (reachable_graph n Hn s g Hs Hg) as [Ha Hq].
  pose proof (arrives_ok _ _ _ Ha Harr) as Hok. assert (at_graph g s) as Hat by done.
  assert (weight g + 1 < n) as Hw.
  { pose proof (weight_bound g). pose proof (q_size _ Hq). unfold depth_bound in Hn. lia. }
  apply (receive_unchecked s g); [done|done|]. destruct cmd as [| | | | | | | | |m|m| |]; try done.
  - destruct Hok as [[p Hp] [r Hr]]. simpl. read_graph g. rewrite Hp, Hr.
    destruct (wf_map _ (q_wf _ Hq) _ _ Hp) as (x & Hx & _). apply wp_bind. read_stage p x g. apply wp_ret.
    destruct (IsResolved x) eqn:Hres.
    { apply wp_ret. exists g. split; [done|]. exists p. split; [done|]. by exists x. }
    read_clock Hat. eapply wp_mono; [eapply update_stage_completed; eauto; lia|].
    intros [] s' (g' & [Hg' _] & Hq' & Hev & y & Hy & Hyr). exists g'. split; [done|]. exists p. split.
    + unfold GetStage. by rewrite (ev_stages _ _ Hev).
    + exists y. split; [done|]. by apply stage_resolved; eexists.
  - destruct Hok as ([r Hr] & p & x & Hp & Hx & Hpar & Htk). simpl. read_clock Hat.
    eapply wp_mono; [by eapply update_invoke_completed|]. intros [] s' (g' & [Hg' _] & Hq' & Hev & Hres).
    exists g'. split; [done|]. destruct (evolves_lookup _ _ _ _ Hev Hx) as (y & Hy & Hxy). exists p, y, r.
    assert (∀ id, GetStage g' id = GetStage g id) as Hget by (intros id; unfold GetStage; by rewrite (ev_stages _ _ Hev)).
    split_and!; [by rewrite Hget|done|done|].
    destruct (Hres Htk) as [(z & Hz & Hzr)|(q & Hrh & Hsuc & ref & Href & Hq2)]; [left; by simplify_eq|].
    right. exists q. split_and!; [by rewrite (sev_strategy _ _ _ Hxy)|done|]. exists ref. by rewrite Hget.
Qed.

Lemma reachable_named s : reachable n s → named s.
Proof.
  intros Hs g p x Hg Hx. destruct (reachable_graph n Hn s g Hs Hg) as [_ Hq]. by apply (wf_obj _ (q_wf _ Hq)).
Qed.

Lemma receive_accounts s cmd s' :
  reachable n s → receiveCommand n cmd s = Ret tt s' → accounts s s'.
Proof.
  intros Hs Hrun. apply bind_ret_inv in Hrun as (b & s1 & Hv & Hrun).
  assert (returns accounts (validateCmd cmd : M A _)) as Hval.
  { unfold validateCmd, ValidateCommand, validate_by_type, HasValidValue. walk_returns. }
  pose proof (Hval _ _ _ Hv) as Ha. apply validateCmd_ret in Hv as [_ Hv].
  destruct b; [|by injection Hrun as <-]. destruct (Hv eq_refl) as [-> Hg]. destruct cmd.
  { apply stamp_run in Hrun as (ts & s1 & Eg & Ep & Ee & Hrun). apply bind_ret_inv in Hrun as (? & s2 & Hp & Hrun).
    injection Hrun as <-. split; [|split].
    - intros p (g & Hg' & _). congruence.
    - by intros _ g [= <-].
    - intros _. split; [by intros g p y [= <-]|]. by intros E HE g p y [= <-]. }
  all: destruct Hg as (g & Hg & _); destruct (reachable_graph n Hn s g Hs Hg) as [_ Hq];
    (refine (accounts_executeCommand n _ g s _ s' Hg _ _ Hrun); [apply ids_fresh; apply Hq|done]).
Qed.

Lemma reachable_accounted s : reachable n s → rooted s ∧ accounted (λ _, False) s.
Proof.
  induction 1 as [p Hp|s cmd s' Hs [IHr IH] Harr Hrun]; [by split|].
  apply receive_accounts in Hrun as (_ & Hr & Ha); [|done]. destruct (Ha (reachable_named s Hs)) as [_ Ha']. auto.
Qed.

(** Without a graph nothing has been asked. *)
Lemma answer_has_graph s cmd : reachable n s → arrives s cmd → is_answer cmd → ∃ g, ga_graph s = Some g.
Proof.
  intros Hs Harr Hans. destruct (ga_graph s) as [g|] eqn:Hg; [by exists g|].
  apply (reachable_good n s Hn) in Hs. unfold good in Hs. rewrite Hg in Hs.
  pose proof (arrives_ok _ _ _ Hs Harr) as Hok. destruct cmd; try done.
  - by destruct Hok as [[p Hp] _].
  - by destruct Hok as (_ & p & x & Hp & _).
Qed.

(** Every answer handled so far has had its effect. *)
Lemma history_done cs s c :
  history cs s → c ∈ cs → is_answer c → ∃ g, ga_graph s = Some g ∧ command_done g c.
Proof.
  intros Hh. revert c. induction Hh as [p Hp|cs s cmd s' Hh IH Harr Hrun]; [by intros c ?%not_elem_of_nil|].
  pose proof (history_reachable _ _ Hh) as Hs. assert (reachable n s') as Hs' by by eapply reachable_step.
  intros c [Hc| ->%list_elem_of_singleton]%elem_of_app Hans.
  - destruct (IH c Hc Hans) as (g & Hg & Hd). pose proof (keeps_receiveCommand n cmd s) as Hle. rewrite Hrun in Hle.
    destruct Hle as [_ Hle]. destruct (Hle g Hg) as (g' & Hg' & Hle'). exists g'. split; [done|].
    destruct (reachable_graph n Hn s g Hs Hg) as [_ Hq]. destruct (reachable_graph n Hn s' g' Hs' Hg') as [_ Hq'].
    eapply command_done_le; [apply Hq|apply Hq'|done|done].
  - destruct (answer_has_graph s cmd Hs Harr Hans) as [g Hg].
    pose proof (answer_done s cmd g Hs Hg Harr Hans) as Hw. unfold wp in Hw. by rewrite Hrun in Hw.
Qed.

(** ** Completion *)

Section completion.
Context (cs : list Command) (s : A) (g : CompletionGraph).
Context (Hh : history cs s) (Hg : ga_graph s = Some g).
Context (Hkept : compositions_kept cs g) (Hout : nothing_outstanding cs s g).

(** A response has come for the stage: it is resolved if what it waits for is. *)
Lemma answered_resolved p x m :
  gr_objects g !! p = Some x → (∀ q, waits_on g p q → resolved_at g q) →
  CFaasInvocationResponse m ∈ cs → faas_StageId m = stage_ID x → IsResolved x = true.
Proof.
  intros Hx Hdeps Hm Hid. destruct (reachable_graph n Hn s g (history_reachable _ _ Hh) Hg) as [_ [Hwf [_ _ Hc] _ _]].
  destruct (history_done cs s _ Hh Hm I) as (g' & Hg' & p' & x' & r & Hp & Hx' & Hr & Hd). simplify_eq.
  assert (p' = p) as ->. { rewrite Hid in Hp. pose proof (wf_obj _ Hwf _ _ Hx). unfold GetStage in Hp. congruence. }
  simplify_eq. destruct Hd as [?|[q Hq]]; [done|]. destruct (IsResolved x) eqn:Hres; [done|].
  destruct (Hkept m r p x q Hm Hr Hp Hx Hq Hres) as (y & Hy & Hyc).
  destruct (Hdeps q) as (y' & Hy' & Hyr); [exists x, y; by auto|]. simplify_eq.
  destruct (Hc q y p Hy Hyr Hyc) as (x2 & Hx2 & Hr2). congruence.
Qed.

Lemma passive_resolved p x :
  gr_objects g !! p = Some x → passive x → (∀ q, waits_on g p q → resolved_at g q) → IsResolved x = true.
Proof.
  intros Hx Hpass Hdeps. destruct (IsResolved x) eqn:Hres; [done|]. rewrite <- Hres.
  eapply (no_clients _ _ _ Hout); [done|done| |].
  - intros r Hr Hid. destruct (no_requests _ _ _ Hout r Hr) as (m & Hm & Hmid).
    assert (IsResolved x = true) by (eapply answered_resolved; [done..|congruence]). congruence.
  - intros m Hm Hid. apply (no_delays _ _ _ Hout) in Hm.
    destruct (history_done cs s _ Hh Hm I) as (g' & Hg' & q & Hq & y & Hy & Hyr). simplify_eq.
    destruct (reachable_graph n Hn s g (history_reachable _ _ Hh) Hg) as [_ [Hwf _ _ _]].
    rewrite Hid in Hq. pose proof (wf_obj _ Hwf _ _ Hx). unfold GetStage in Hq. simplify_eq. congruence.
Qed.

Lemma triggered_resolved p x :
  gr_objects g !! p = Some x → stage_triggered x = true → (∀ q, waits_on g p q → resolved_at g q) → IsResolved x = true.
Proof.
  intros Hx Htr Hdeps. destruct (IsResolved x) eqn:Hres; [done|]. rewrite <- Hres.
  destruct (reachable_accounted s (history_reachable _ _ Hh)) as [_ Hacc].
  destruct (Hacc g p x Hg Hx Htr Hres) as [[]|[Hpass|Hex]]; [by eapply passive_resolved|].
  apply list_elem_of_omap in Hex as (ef & Hin & Hid). destruct ef as [[r|]| | | | | | |]; try done. injection Hid as Hid.
  destruct (no_requests _ _ _ Hout _ Hin) as (m & Hm & Hmid). simpl in Hmid. eapply answered_resolved; [done..|congruence].
Qed.

(** The dependencies of an untriggered stage are resolved once everything it
    waits for is. *)
Lemma dependencies_resolved p x d dep :
  gr_state g ≠ StateInitial → gr_state g ≠ StateCompleted →
  gr_objects g !! p = Some x → (∀ q, waits_on g p q → resolved_at g q) →
  d ∈ stage_dependencies x → load_dep g d = Some dep → IsResolved dep = true.
Proof.
  intros Hni Hnc Hx Hdeps Hd Hload.
  destruct (reachable_graph n Hn s g (history_reachable _ _ Hh) Hg) as [_ [Hwf [_ Hl _] _ _]].
  destruct d as [q|]; simpl in Hload.
  - destruct (gr_objects g !! q) as [y|] eqn:Hy; simpl in Hload; [|done]. injection Hload as <-.
    destruct (Hdeps q) as (y' & Hy' & Hr); [exists x, y; by auto|]. by simplify_eq.
  - injection Hload as <-. destruct (decide (stage_operation x = terminationHook)) as [Hop|Hop].
    + unfold lifecycle_current in Hl. destruct (gr_state g) eqn:Hst; try done.
      * destruct Hl as (q & y & Hy & Hph & Hyn). destruct (Hdeps q) as (y' & Hy' & Hr); [exists x, y; by eauto 10|].
        simplify_eq. congruence.
      * destruct (reachable_accounted s (history_reachable _ _ Hh)) as [Hroot _].
        destruct (Hroot g Hg Hst) as [r Hr]. unfold IsResolved. simpl. by rewrite Hr.
    + pose proof (wf_acyclic _ Hwf _ _ Hx Hop) as Hac. rewrite Forall_forall in Hac.
      by destruct (Hac _ Hd) as (q & ? & _).
Qed.

Lemma never_triggered_passive p x :
  graph_wf g → gr_objects g !! p = Some x → strat_Trigger (stage_strategy x) = Fn_triggerNever → passive x.
Proof.
  intros Hwf Hx Ht. pose proof (swf_strategy _ _ (wf_stage _ Hwf _ _ Hx)) as Hst. unfold passive.
  destruct (stage_operation x); simpl in Hst; try discriminate; injection Hst as Hst; rewrite <- Hst in *; auto; discriminate.
Qed.

Lemma untriggered_resolved p x :
  gr_state g ≠ StateInitial → gr_state g ≠ StateCompleted →
  gr_objects g !! p = Some x → stage_triggered x = false → (∀ q, waits_on g p q → resolved_at g q) → IsResolved x = true.
Proof.
  intros Hni Hnc Hx Htr Hdeps. destruct (IsResolved x) eqn:Hres; [done|].
  destruct (reachable_graph n Hn s g (history_reachable _ _ Hh) Hg) as [_ [Hwf [Hno _ _] _ _]].
  assert (stage_result x = None) as Hrn.
  { unfold IsResolved in Hres. simpl in Hres. by destruct (stage_result x). }
  pose proof (Hno p x Hx Hrn Htr) as Hrd. unfold ready in Hrd.
  destruct (wf_load_deps g x (wf_stage _ Hwf _ _ Hx)) as [deps Hload]. rewrite Hload in Hrd.
  destruct (run_trigger_inv (strat_Trigger (stage_strategy x)) deps) as (fires & st & rs & Hrun & _).
  rewrite Hrun in Hrd. subst fires. rewrite <- Hres.
  destruct (not_fires (strat_Trigger (stage_strategy x)) deps) as [Ht|[[Ht ->]|Hun]]; [by exists st, rs|..].
  - eapply passive_resolved; [done| |done]. by eapply never_triggered_passive.
  - apply mapM_Some, Forall2_length in Hload. pose proof (swf_arity _ _ (wf_stage _ Hwf _ _ Hx)) as Har.
    pose proof (swf_strategy _ _ (wf_stage _ Hwf _ _ Hx)) as Hst. rewrite Hload in Har. simpl in Har.
    case_decide; [by destruct Har|]. destruct Har as [Har _].
    destruct (stage_operation x); simpl in Hst; try discriminate; injection Hst as Hst;
      rewrite <- Hst in Har, Ht; discriminate.
  - apply Exists_exists in Hun as (dep & Hin & Hf). apply mapM_Some in Hload. apply list_elem_of_lookup in Hin as [i Hi].
    destruct (Forall2_lookup_r _ _ _ _ _ Hload Hi) as (d & Hd & Hdep). apply list_elem_of_lookup_2 in Hd.
    pose proof (dependencies_resolved p x d dep Hni Hnc Hx Hdeps Hd Hdep). congruence.
Qed.

Lemma all_resolved p x :
  waits_acyclic g → gr_state g ≠ StateInitial → gr_state g ≠ StateCompleted →
  gr_objects g !! p = Some x → IsResolved x = true.
Proof.
  intros [level Hlevel] Hni Hnc. revert p x.
  assert (∀ l p x, level p < l → gr_objects g !! p = Some x → IsResolved x = true) as Hind; [|by intros p x; apply (Hind (S (level p))); lia].
  induction l as [|l IH]; [lia|]. intros p x Hl Hx.
  assert (∀ q, waits_on g p q → resolved_at g q) as Hdeps.
  { intros q Hq. pose proof (Hlevel p q Hq). destruct Hq as (_ & y & _ & Hy & _). exists y. split; [done|].
    apply (IH q y); [lia|done]. }
  destruct (stage_triggered x) eqn:Htr; [by eapply triggered_resolved|by eapply untriggered_resolved].
Qed.
End completion.

(** C6: a committed flow for which nothing is outstanding
    has completed. Whatever commands the actor has handled: once every request it
    sent to the executor has been answered, every delay it scheduled has fired,
    and the stages left to clients have been completed, the graph is completed
    and every stage has its result, provided that its stages do not wait for each
    other in a circle and that no composition has been forgotten. So a flow
    that has not completed always has something outstanding. *)
Theorem committed_flow_completes cs s g :
  history cs s → ga_graph s = Some g → gr_state g ≠ StateInitial →
  waits_acyclic g → compositions_kept cs g → nothing_outstanding cs s g →
  gr_state g = StateCompleted ∧ ∀ p x, gr_objects g !! p = Some x → is_Some (stage_result x).
Proof.
  intros Hh Hg Hni Hac Hkept Hout.
  destruct (reachable_graph n Hn s g (history_reachable _ _ Hh) Hg) as [_ [Hwf [_ Hl _] _ _]].
  destruct (decide (gr_state g = StateCompleted)) as [Hst|Hnc].
  - split; [done|]. intros p x Hx. apply stage_resolved. destruct (wf_safe _ Hwf) as (Hm & Ht & _).
    destruct (IsResolved x) eqn:Hr; [done|]. destruct (stage_execPhase x) eqn:Hph.
    + destruct Hm; [by rewrite Hst; simpl; lia|]. by exists p, x.
    + destruct (Ht Hst). by exists p, x.
  - assert (∀ ph, ¬ pending g ph) as Hnone.
    { intros ph (p & x & Hx & _ & Hr). by rewrite (all_resolved cs s g Hh Hg Hkept Hout p x Hac Hni Hnc Hx) in Hr. }
    unfold lifecycle_current in Hl. destruct (gr_state g); try done; by destruct (Hnone _ Hl).
Qed.
End progress.

(** ** The hypotheses can be evaluated *)

Section tests.
Context {P : Type}.
Implicit Types s : graphActor P.

Definition passive_b (x : CompletionStage) : bool :=
  match strat_Success (stage_strategy x), strat_Failure (stage_strategy x) with
  | Fn_completeExternally, _ | _, Fn_completeExternally => true
  | _, _ => false
  end.
Definition has_response (cs : list Command) (id : string) : bool :=
  existsb (λ c, match c with CFaasInvocationResponse m => String.eqb (faas_StageId m) id | _ => false end) cs.
Definition has_fired (cs : list Command) (m : CompleteDelayStageRequest) : bool :=
  existsb (λ c, match c with CCompleteDelayStage m' => bool_decide (m' = m) | _ => false end) cs.
Definition nothing_outstanding_b (cs : list Command) s (g : CompletionGraph) : bool :=
  forallb (λ ef, match ef with
    | ToExecutor r => has_response cs (request_stage r)
    | TellSelf (CCompleteDelayStage m) | TellSelfAfter _ (CCompleteDelayStage m) => has_fired cs m
    | _ => true
    end) (ga_effects s)
  && forallb (λ x, IsResolved x || negb (passive_b x)) (gr_objects g).

Lemma nothing_outstanding_sound cs s g : nothing_outstanding_b cs s g = true → nothing_outstanding cs s g.
Proof.
  intros [Hef Hobj]%andb_true_iff. rewrite forallb_forall in Hef. rewrite forallb_forall in Hobj.
  assert (∀ m, has_fired cs m = true → CCompleteDelayStage m ∈ cs) as Hfired.
  { intros m (c & Hc & Hm)%existsb_exists. destruct c; try done. apply bool_decide_eq_true in Hm as ->. by apply list_elem_of_In. }
  split.
  - intros r Hr%list_elem_of_In. apply Hef, existsb_exists in Hr as (c & Hc & Hm). destruct c as [| | | | | | | | | |m| |]; try done.
    exists m. split; [by apply list_elem_of_In|]. by apply String.eqb_eq.
  - intros m [Hm|[t Hm]]; apply list_elem_of_In, Hef in Hm; by apply Hfired.
  - intros p x Hx Hpass _ _. apply list_elem_of_lookup_2, list_elem_of_In, Hobj in Hx.
    apply orb_true_iff in Hx as [?|Hx]; [done|]. unfold passive_b in Hx.
    destruct Hpass as [Hp|Hp]; rewrite Hp in Hx; [done|]. by destruct (strat_Success _).
Qed.

Definition waits_on_b (g : CompletionGraph) (p q : stage_ptr) : bool :=
  match gr_objects g !! p, gr_objects g !! q with
  | Some x, Some y =>
      existsb (λ d, match d with StageRef q' => q' =? q | TerminationRootRef => false end) (stage_dependencies x)
      || bool_decide (stage_composeReference y = Some p)
      || bool_decide (stage_operation x = terminationHook) && bool_decide (stage_execPhase y = MainExecPhase)
  | _, _ => false
  end.
(** [levels] gives each stage a level above those of the stages it waits for. *)
Definition acyclic_by (levels : list nat) (g : CompletionGraph) : bool :=
  let stages := seq 0 (length (gr_objects g)) in
  forallb (λ p, forallb (λ q, implb (waits_on_b g p q) (nth q levels 0 <? nth p levels 0)) stages) stages.

Lemma acyclic_by_sound levels g : acyclic_by levels g = true → waits_acyclic g.
Proof.
  intros Hac. exists (λ p, nth p levels 0). intros p q Hw.
  assert (waits_on_b g p q = true) as Hb.
  { destruct Hw as (x & y & Hx & Hy & Hw). unfold waits_on_b. rewrite Hx, Hy.
    destruct Hw as [Hd|[Hc|[Ho Hp]]].
    - apply orb_true_iff. left. apply orb_true_iff. left. apply existsb_exists. exists (StageRef q).
      split; [by apply list_elem_of_In|]. apply Nat.eqb_refl.
    - rewrite (bool_decide_eq_true_2 _ Hc). by rewrite orb_true_r.
    - rewrite (bool_decide_eq_true_2 _ Ho), (bool_decide_eq_true_2 _ Hp). by rewrite orb_true_r. }
  destruct Hw as (x & y & Hx%lookup_lt_Some & Hy%lookup_lt_Some & _).
  unfold acyclic_by in Hac. rewrite forallb_forall in Hac.
  specialize (Hac p ltac:(apply in_seq; lia)). rewrite forallb_forall in Hac.
  specialize (Hac q ltac:(apply in_seq; lia)). rewrite Hb in Hac. by apply Nat.ltb_lt.
Qed.

Definition composition_kept_b (g : CompletionGraph) (r : CompletionResult) (p : stage_ptr) : bool :=
  match gr_objects g !! p with
  | Some x =>
      IsResolved x ||
      match GetStageRef (result_Datum r) ≫= (λ ref, GetStage g (ref_StageId ref)) with
      | Some q => bool_decide ((gr_objects g !! q) ≫= stage_composeReference = Some p)
      | None => true
      end
  | None => true
  end.
Definition compositions_kept_b (cs : list Command) (g : CompletionGraph) : bool :=
  forallb (λ c, match c with
    | CFaasInvocationResponse m =>
        match faas_Result m, GetStage g (faas_StageId m) with
        | Some r, Some p => composition_kept_b g r p
        | _, _ => true
        end
    | _ => true
    end) cs.

Lemma compositions_kept_sound cs g : compositions_kept_b cs g = true → compositions_kept cs g.
Proof.
  intros Hb m r p x q Hm%list_elem_of_In Hr Hp Hx (_ & _ & ref & Href & Hq) Hun.
  unfold compositions_kept_b in Hb. rewrite forallb_forall in Hb. specialize (Hb _ Hm). simpl in Hb.
  rewrite Hr, Hp in Hb. unfold composition_kept_b in Hb. rewrite Hx, Hun, Href in Hb. simpl in Hb. rewrite Hq in Hb.
  apply bool_decide_eq_true in Hb. destruct (gr_objects g !! q) as [y|]; [|done]. by exists y.
Qed.
End tests.
