(* ===== verification/Replies.v ===== *)
(** * Every request is answered exactly once

    The graph actor answers a request by a message to the requester or, for
    [AwaitStageResult], by a continuation on the future of the stage. The
    callers (src/actor/api.go) assert the dynamic type of the reply and panic
    if it is not the one of the request: [reply_typed] is that contract. *)

From S2P Require Import Prelude Model Stage StageFacts Graph GraphFacts GraphGrowth.
From S2P Require Import GraphSpec GraphSafety Persistence GraphActor ActorSpec ActorCommands.
From S2P Require Import ActorTheorems.

(** The type of the reply to a request; an error answers any request. *)
Definition reply_typed (cmd : Command) (r : Response) : Prop :=
  match r with
  | RError _ => True
  | RCreateGraph _ => match cmd with CCreateGraph _ => True | _ => False end
  | RGetGraphState _ _ _ => match cmd with CGetGraphState _ => True | _ => False end
  | RAddStage _ _ =>
      match cmd with
      | CAddStage _ | CAddCompletedValueStage _ | CAddDelayStage _ | CAddInvokeFunctionStage _ => True
      | _ => False
      end
  | RCompleteStageExternally _ _ _ => match cmd with CCompleteStageExternally _ => True | _ => False end
  | RGraphRequestProcessed _ => match cmd with CCommitGraph _ => True | _ => False end
  | RAwaitStageResult _ _ _ => match cmd with CAwaitStageResult _ => True | _ => False end
  end.

(** The requests of the service; the other commands are internal. *)
Definition is_request (cmd : Command) : bool :=
  match cmd with
  | CCompleteDelayStage _ | CFaasInvocationResponse _ | CDeactivateGraph _ | COther _ => false
  | _ => true
  end.

Definition is_reply (ef : Effect) : Prop :=
  match ef with Respond _ | AwaitFuture _ _ _ => True | _ => False end.
#[export] Instance is_reply_dec ef : Decision (is_reply ef).
Proof. destruct ef; simpl; apply _. Defined.

(** Whether an effect answers a request: the continuation of a future answers
    with [await_continuation], whatever the future holds. *)
Definition answers (cmd : Command) (ef : Effect) : Prop :=
  match ef with
  | Respond r => reply_typed cmd r
  | AwaitFuture _ flowId stageId => ∀ result err, reply_typed cmd (await_continuation flowId stageId result err)
  | _ => False
  end.

Section replies.
Context {P : Type} `{!ProviderState P} `{!MapOrder} `{!Clock}.
Abbreviation A := (graphActor P).
Implicit Types s : A.

Definition replies s : list Effect := filter is_reply (ga_effects s).

Definition silent s s' : Prop := replies s' = replies s.
#[local] Instance silent_preorder : PreOrder silent.
Proof. split; [done|]. intros s1 s2 s3 H1 H2. unfold silent in *. congruence. Qed.

Definition answered cmd s s' : Prop := ∃ ef, replies s' = replies s ++ [ef] ∧ answers cmd ef.

Lemma silent_put s g g' : graph_of s = Some g → graph_le g g' → silent s (put_graph g' s).
Proof. done. Qed.
Lemma silent_emit ef : ¬ is_reply ef → keeps silent (emit ef : M A _).
Proof.
  intros Hn s. unfold silent, replies. simpl. by rewrite filter_app, filter_cons, decide_False, app_nil_r.
Qed.
Lemma silent_stamp : keeps silent (stamp : M A _).
Proof. by intros s. Qed.
Lemma silent_timeMillis : keeps silent (timeMillis : M A _).
Proof. by intros s. Qed.
Lemma silent_persistence {B} (m : M (persistent P) B) : keeps silent (zoom ga_persistence put_persistence m).
Proof. intros s. unfold zoom. by destruct (m (ga_persistence s)). Qed.
Lemma silent_recovering : keeps silent (recovering : M A _).
Proof. by intros s. Qed.

Ltac hush :=
  pose proof silent_preorder;
  repeat first
    [ match goal with |- keeps _ (emit _) => apply silent_emit; by intros [] end
    | progress auto using silent_stamp, silent_timeMillis, silent_persistence, silent_recovering,
        keeps_get_graph, keeps_get_stage with flow
    | match goal with |- keeps _ (_ ≫= _) => apply keeps_bind; [apply _| |intros ?] end
    | match goal with |- keeps _ (match ?x with _ => _ end) => destruct x end ].

Definition listener_silent (L : CompletionEventListener A) : Prop :=
  (∀ p rs, keeps silent (OnExecuteStage L p rs)) ∧ (∀ p r, keeps silent (OnCompleteStage L p r))
  ∧ (∀ p q, keeps silent (OnComposeStage L p q))
  ∧ keeps silent (OnGraphExecutionFinished L) ∧ keeps silent (OnGraphComplete L).

Lemma silent_persistAndUpdate_with L e :
  listener_silent L → keeps silent (persistAndUpdate_with (UpdateWithEvent L) e).
Proof.
  intros (H1 & H2 & H3 & H4 & H5). unfold persistAndUpdate_with. hush; [apply silent_persistence|].
  apply keeps_UpdateWithEvent; auto. apply silent_put.
Qed.

(** No callback of the listener answers anybody. *)
Lemma listener_silent_all n : listener_silent (listener n).
Proof.
  induction n as [|n IH]; [by repeat split|].
  assert (∀ e, keeps silent (persistAndUpdate_with (UpdateWithEvent (listener n)) e)) as Hp
    by auto using silent_persistAndUpdate_with.
  unfold listener_silent. simpl. split_and!; intros; hush; auto; apply silent_persistence.
Qed.

Lemma silent_persistAndUpdateGraph n e : keeps silent (persistAndUpdateGraph n e : M A _).
Proof. apply silent_persistAndUpdate_with, listener_silent_all. Qed.
Lemma silent_persist e : keeps silent (persist e : M A _).
Proof. apply silent_persistence. Qed.
Lemma silent_initGraph e : keeps silent (initGraph e : M A _).
Proof. by intros s. Qed.
Lemma silent_scheduleDelay e : keeps silent (scheduleDelay e : M A _).
Proof. unfold scheduleDelay. hush. Qed.
Lemma silent_ValidateCommand cmd : keeps silent (ValidateCommand cmd : M A _).
Proof. unfold ValidateCommand, validate_by_type, HasValidValue. hush. Qed.

(** ** A computation that ends by answering *)

Definition ends_with (R : A → A → Prop) {B} (m : M A B) : Prop := ∀ s b s', m s = Ret b s' → R s s'.

Lemma ends_bind {B C} cmd (m : M A B) (k : B → M A C) :
  keeps silent m → (∀ b, ends_with (answered cmd) (k b)) → ends_with (answered cmd) (m ≫= k).
Proof.
  intros Hm Hk s c s'. unfold mbind, M_bind. specialize (Hm s). destruct (m s) as [b s1| |]; [|done|done].
  intros Hrun. destruct (Hk b _ _ _ Hrun) as (ef & He & Ha). exists ef. by rewrite He, Hm.
Qed.
Lemma ends_emit cmd ef : is_reply ef → answers cmd ef → ends_with (answered cmd) (emit ef : M A _).
Proof.
  intros Hr Ha s b s' [= _ <-]. exists ef. split; [|done]. unfold replies. simpl.
  by rewrite filter_app, filter_cons, decide_True.
Qed.

Ltac answer :=
  repeat first
    [ match goal with |- ends_with _ (emit _) => apply ends_emit; [by simpl|by simpl] end
    | match goal with |- ends_with _ (_ ≫= _) => apply ends_bind; [|intros ?] end
    | match goal with |- ends_with _ (match ?x with _ => _ end) => destruct x end
    | match goal with |- keeps _ _ =>
        solve [hush; auto using silent_persistAndUpdateGraph, silent_persist, silent_initGraph, silent_scheduleDelay] end ].

Lemma executeCommand_answers n cmd : is_request cmd = true → ends_with (answered cmd) (executeCommand n cmd : M A _).
Proof.
  intros Hr. destruct cmd; try done; unfold_command; answer.
  apply ends_emit; [done|]. intros result []; by simpl.
Qed.

(** Validation is silent when it lets the command through and answers with an
    error when it does not. *)
Lemma validateCmd_answers cmd s b s' :
  validateCmd cmd s = Ret b s' → if b : bool then silent s s' else answered cmd s s'.
Proof.
  assert (∀ e, ∀ b s', (emit (Respond (RError e));; mret false) s = Ret b s' →
    if b : bool then silent s s' else answered cmd s s') as Herr.
  { intros e b' s1 [= <- <-]. apply (ends_emit cmd (Respond (RError e)) I I s tt). done. }
  unfold validateCmd, get_state. unfold mbind at 1, M_bind at 1.
  assert (∀ msg, (validationError ← ValidateCommand msg;
     match validationError with Some e => emit (Respond (RError e));; mret false | None => mret true end) s = Ret b s' →
    if b : bool then silent s s' else answered cmd s s') as Hval.
  { intros msg. unfold mbind at 1, M_bind at 1. pose proof (silent_ValidateCommand msg s) as Hs.
    destruct (ValidateCommand msg s) as [[e|] s1| |]; [| |done|done].
    - intros [= <- <-]. destruct (ends_emit cmd (Respond (RError e)) I I s1 tt _ eq_refl) as (ef & He & Ha).
      exists ef. by rewrite He, Hs.
    - intros [= <- <-]. exact Hs. }
  destruct cmd; destruct (ga_graph s); try apply Hval; try apply Herr. by intros [= <- <-].
Qed.

Lemma receiveCommand_answers n cmd s s' :
  is_request cmd = true → receiveCommand n cmd s = Ret tt s' → answered cmd s s'.
Proof.
  intros Hr. unfold receiveCommand, mbind, M_bind.
  destruct (validateCmd cmd s) as [b s1| |] eqn:Hv; [|done|done]. apply validateCmd_answers in Hv.
  destruct b; [|by intros [= <-]]. intros Hrun.
  destruct (executeCommand_answers n cmd Hr _ _ _ Hrun) as (ef & He & Ha). exists ef. by rewrite He, Hv.
Qed.
End replies.

Section answered_once.
Context {P : Type} `{!ProviderState P} `{!ReliableProvider P} `{!MapOrder} `{!Clock}.
Context (n : nat) (Hn : depth_bound ≤ n).

(** In every state the actor can be in, handling any request of
    the service returns and adds exactly one reply, and the reply is an error
    or has the type that the caller of this request asserts. *)
Lemma answered_once (s : graphActor P) cmd :
  reachable n s → arrives s cmd → is_request cmd = true →
  ∃ s' ef, receiveCommand n cmd s = Ret tt s' ∧ replies s' = replies s ++ [ef] ∧ answers cmd ef.
Proof.
  intros Hs Harr Hr. apply reachable_good in Hs as Hg; [|done].
  pose proof (good_receiveCommand n cmd s Hn Hg Harr) as Hw.
  apply wp_run in Hw as ([] & s' & Hrun & _).
  destruct (receiveCommand_answers n cmd s s' Hr Hrun) as (ef & He & Ha). by exists s', ef.
Qed.
End answered_once.
