(* ===== verification/Validators.v ===== *)
(** * Validation of requests (src/model/model.validator.pb.go)

    The [Validate] methods of the messages that can arrive in a request, and
    the interceptor of the API server (src/server/server.go) that applies them
    before any handler runs. An error is the path of field names with the rule
    that is violated. Timestamps have no validator, so the events validate
    whatever time they carry. *)

From S2P Require Import Prelude Model Uuid.
From S2P Require Import Stage Graph Persistence GraphActor ActorSpec ActorCommands ActorTheorems Replies.
Local Open Scope Z_scope.

Inductive rule :=
  | must_not_be_empty
  | must_be_greater_than (bound : Z)
  | message_must_exist
  | function_id_must_be_specified
  | invalid_function_id
  | must_conform_to_regex.

Record field_error := { error_path : list string; error_rule : rule }.

Definition validation : Type := option field_error.

(** [FieldError(name, err)] for a violated rule, and for the error of a nested
    message. *)
Definition FieldError (name : string) (r : rule) : validation := Some {| error_path := [name]; error_rule := r |}.
Definition nested (name : string) (v : validation) : validation :=
  match v with
  | Some e => Some {| error_path := name :: error_path e; error_rule := error_rule e |}
  | None => None
  end.

(** Checks in sequence: the first error is returned. *)
Definition and_then (v w : validation) : validation := match v with Some e => Some e | None => w end.
Infix ";?" := and_then (at level 60, right associativity) : flow_scope.
Local Open Scope flow_scope.

Definition not_empty (name value : string) : validation :=
  if String.eqb value "" then FieldError name must_not_be_empty else None.
Definition greater_than (name : string) (value bound : Z) : validation :=
  if bound <? value then None else FieldError name (must_be_greater_than bound).
Definition if_present {A} (name : string) (m : option A) (validate : A → validation) : validation :=
  match m with Some m => nested name (validate m) | None => None end.
Definition required {A} (name : string) (m : option A) (validate : A → validation) : validation :=
  match m with Some m => nested name (validate m) | None => FieldError name message_must_exist end.

(** A loop over a repeated field. *)
Fixpoint each {A} (name : string) (l : list A) (validate : A → validation) : validation :=
  match l with
  | [] => None
  | x :: l => nested name (validate x) ;? each name l validate
  end.

(** The regular expression of the function id of a request: up to 255
    characters, or none at all, of letters, digits, underscore, dot and
    hyphen. *)
Definition function_id_char (b : Z) : bool :=
  ((97 <=? b) && (b <=? 122)) || ((65 <=? b) && (b <=? 90)) || ((48 <=? b) && (b <=? 57))
  || (b =? 95) || (b =? 46) || (b =? 45).
Definition function_id_matches (s : string) : bool :=
  forallb function_id_char (bytes_of s) && (length (bytes_of s) <=? 255)%nat.

(** ** Data *)

Definition Validate_BlobDatum (this : BlobDatum) : validation :=
  not_empty "BlobId" (BlobId this) ;? not_empty "ContentType" (ContentType this) ;? greater_than "Length" (Length this) 0.

Definition Validate_HTTPHeader (this : HTTPHeader) : validation :=
  not_empty "Key" (Key this) ;? not_empty "Value" (Value this).

Definition Validate_HTTPReqDatum (this : HTTPReqDatum) : validation :=
  if_present "Body" (req_Body this) Validate_BlobDatum ;? each "Headers" (req_Headers this) Validate_HTTPHeader.

Definition Validate_HTTPRespDatum (this : HTTPRespDatum) : validation :=
  if_present "Body" (resp_Body this) Validate_BlobDatum ;? each "Headers" (resp_Headers this) Validate_HTTPHeader
  ;? greater_than "StatusCode" (resp_StatusCode this) 0.

Definition Validate_StageRefDatum (this : StageRefDatum) : validation := not_empty "StageId" (ref_StageId this).

Definition Validate_Datum (this : Datum) : validation :=
  match Val this with
  | Some (Datum_Blob blob) => if_present "Blob" blob Validate_BlobDatum
  | Some (Datum_StageRef ref) => if_present "StageRef" ref Validate_StageRefDatum
  | Some (Datum_HttpReq req) => if_present "HttpReq" req Validate_HTTPReqDatum
  | Some (Datum_HttpResp resp) => if_present "HttpResp" resp Validate_HTTPRespDatum
  | Some (Datum_Empty _) | Some (Datum_Error _) | Some (Datum_Status _) | None => None
  end.

Definition Validate_CompletionResult (this : CompletionResult) : validation :=
  required "Datum" (result_Datum this) Validate_Datum.

(** ** Requests *)

Definition Validate_AddStageRequest (this : AddStageRequest) : validation :=
  not_empty "FlowId" (add_FlowId this) ;? if_present "Closure" (add_Closure this) Validate_BlobDatum.

Definition Validate_CompleteStageExternallyRequest (this : CompleteStageExternallyRequest) : validation :=
  not_empty "FlowId" (ext_FlowId this) ;? not_empty "StageId" (ext_StageId this)
  ;? required "Value" (ext_Value this) Validate_CompletionResult.

Definition Validate_AddCompletedValueStageRequest (this : AddCompletedValueStageRequest) : validation :=
  not_empty "FlowId" (value_FlowId this) ;? required "Value" (value_Value this) Validate_CompletionResult.

Definition Validate_AddDelayStageRequest (this : AddDelayStageRequest) : validation :=
  not_empty "FlowId" (adddelay_FlowId this) ;? greater_than "DelayMs" (adddelay_DelayMs this) (-1).

Definition Validate_AddInvokeFunctionStageRequest (this : AddInvokeFunctionStageRequest) : validation :=
  not_empty "FlowId" (invoke_FlowId this)
  ;? (if function_id_matches (invoke_FunctionId this) then None
      else FieldError "FunctionId" function_id_must_be_specified)
  ;? required "Arg" (invoke_Arg this) Validate_HTTPReqDatum.

Definition Validate_CompleteDelayStageRequest (this : CompleteDelayStageRequest) : validation :=
  not_empty "FlowId" (cdelay_FlowId this) ;? not_empty "StageId" (cdelay_StageId this)
  ;? if_present "Result" (cdelay_Result this) Validate_CompletionResult.

Definition Validate_CreateGraphRequest (this : CreateGraphRequest) : validation :=
  if function_id_matches (create_FunctionId this) then None
  else FieldError "FunctionId" function_id_must_be_specified.

Definition Validate_FaasInvocationResponse (this : FaasInvocationResponse) : validation :=
  if_present "Result" (faas_Result this) Validate_CompletionResult.

Definition Validate_AwaitStageResultRequest (this : AwaitStageResultRequest) : validation :=
  not_empty "FlowId" (await_FlowId this) ;? not_empty "StageId" (await_StageId this)
  ;? greater_than "TimeoutMs" (await_TimeoutMs this) (-1).

(** The requests whose only rule is a flow id: [CommitGraphRequest],
    [DeactivateGraphRequest] and [GetGraphStateRequest]. *)
Definition Validate_FlowId (flowId : string) : validation := not_empty "FlowId" flowId.

Definition Validate (c : Command) : validation :=
  match c with
  | CCreateGraph r => Validate_CreateGraphRequest r
  | CGetGraphState f => Validate_FlowId f
  | CAddStage r => Validate_AddStageRequest r
  | CAddCompletedValueStage r => Validate_AddCompletedValueStageRequest r
  | CAddDelayStage r => Validate_AddDelayStageRequest r
  | CAddInvokeFunctionStage r => Validate_AddInvokeFunctionStageRequest r
  | CCompleteStageExternally r => Validate_CompleteStageExternallyRequest r
  | CCommitGraph f => Validate_FlowId f
  | CAwaitStageResult r => Validate_AwaitStageResultRequest r
  | CCompleteDelayStage r => Validate_CompleteDelayStageRequest r
  | CFaasInvocationResponse r => Validate_FaasInvocationResponse r
  | CDeactivateGraph f => Validate_FlowId f
  | COther _ => None
  end.

(** [grpc_validator.UnaryServerInterceptor] in front of a handler. *)
Definition intercepted {S B} (handler : Command → M S B) (c : Command) : M S (field_error + B) :=
  match Validate c with
  | Some err => mret (inl err)
  | None => r ← handler c; mret (inr r)
  end.

(** ** What a valid request guarantees *)

Lemma and_then_None v w : (v ;? w) = None → v = None ∧ w = None.
Proof. destruct v; [done|]. by split. Qed.

Lemma required_None {A} name (m : option A) validate :
  required name m validate = None → ∃ x, m = Some x ∧ validate x = None.
Proof. destruct m as [x|]; [|done]. simpl. destruct (validate x) eqn:Hv; [done|]. eauto. Qed.

Lemma valid_value_carries_datum v : required "Value" v Validate_CompletionResult = None → carries_datum v.
Proof.
  intros (r & -> & Hr)%required_None. apply required_None in Hr as (d & Hd & _). by exists r, d.
Qed.

(** A request that validates is one a graph actor can handle in any state. *)
Lemma Validate_arrives {P} (s : graphActor P) cmd :
  is_request cmd = true → Validate cmd = None → arrives s cmd.
Proof.
  intros Hr Hv. destruct cmd; try done; simpl in *.
  - apply and_then_None in Hv as [_ Hv]. by apply valid_value_carries_datum.
  - apply and_then_None in Hv as [_ [_ Hv]%and_then_None]. by apply valid_value_carries_datum.
Qed.

(** A validated invocation has the argument the executor dereferences. *)
Lemma Validate_invoke_Arg r : Validate (CAddInvokeFunctionStage r) = None → is_Some (invoke_Arg r).
Proof.
  intros [_ [_ Hv]%and_then_None]%and_then_None. apply required_None in Hv as (x & Hx & _). by exists x.
Qed.

Section validated.
Context {P : Type} `{!ProviderState P} `{!ReliableProvider P} `{!MapOrder} `{!Clock}.
Context (n : nat) (Hn : (depth_bound ≤ n)%nat).

(** C5: no request from outside can make a graph actor panic
    or hang. Whatever the request and whatever state the actor is in, either
    the validation in front of the service refuses it, and nothing happens, or
    the actor handles it to the end, answers exactly once with a reply of the
    request's type or an error, and is again in a reachable state. *)
Theorem any_request_is_safe (s : graphActor P) cmd :
  reachable n s → is_request cmd = true →
  ∃ r s', intercepted (receiveCommand n) cmd s = Ret r s' ∧ reachable n s' ∧
    match r with
    | inl _ => s' = s
    | inr _ => ∃ ef, replies s' = replies s ++ [ef] ∧ answers cmd ef
    end.
Proof.
  intros Hs Hr. unfold intercepted. destruct (Validate cmd) as [err|] eqn:Hv; [by eexists (inl err), s|].
  pose proof (Validate_arrives s cmd Hr Hv) as Harr.
  destruct (answered_once n Hn s cmd Hs Harr Hr) as (s' & ef & Hrun & He & Ha).
  exists (inr tt), s'. split_and!; [unfold mbind, M_bind; by rewrite Hrun|by eapply reachable_step|by exists ef].
Qed.
End validated.

(** The rule that reports "function id must be specified" accepts an empty id:
    the whole pattern is optional. *)
Example empty_function_id_accepted :
  Validate (CCreateGraph {| create_FunctionId := ""; create_FlowId := "" |}) = None.
Proof. reflexivity. Qed.

(** A delay of 0 passes this validation, and is refused by the graph. *)
Example zero_delay_accepted :
  Validate (CAddDelayStage {| adddelay_FlowId := "f"; adddelay_DelayMs := 0;
    adddelay_CodeLocation := ""; adddelay_CallerId := "" |}) = None.
Proof. reflexivity. Qed.
