(* ===== verification/Scenario.v ===== *)
(** * A concrete flow

    The concrete provider, clock and iteration order on which the theorems are
    instantiated, and a flow run on them: a supplied stage, a stage chained to
    it, two termination hooks, a commit, and the executor's responses. *)

From S2P Require Import Prelude Model Stage StageFacts Graph GraphFacts GraphGrowth.
From S2P Require Import GraphSpec Persistence GraphActor ActorSpec ActorCommands.
From S2P Require Import ActorTheorems Journal EventSourcing.

#[export] Instance scenario_order : MapOrder := key_order.
#[export] Instance scenario_clock : Clock := {| time_Now n := (Z.of_nat n * 1000000000)%Z |}.

Definition provider : InMemory.InMemoryProvider := InMemory.NewInMemoryProvider 1000.
Abbreviation actor := (graphActor InMemory.InMemoryProvider).

Definition new_actor : actor := NewGraphActor provider.

Definition after (cmd : Command) (s : actor) : actor :=
  match receiveCommand depth_bound cmd s with Ret _ s' => s' | _ => s end.

Definition a_closure : option BlobDatum := Some (NewBlob "blob" 4 "text/plain").
Definition a_value : CompletionResult := NewSuccessfulResult (Some (NewBlobDatum a_closure)).

Definition cmd_create : Command := CCreateGraph {| create_FunctionId := "app/fn"; create_FlowId := "flow" |}.
Definition cmd_add (op : CompletionOperation) (deps : list string) : Command :=
  CAddStage {| add_FlowId := "flow"; add_Operation := op; add_Closure := a_closure; add_Deps := deps;
               add_CodeLocation := ""; add_CallerId := "" |}.
Definition cmd_commit : Command := CCommitGraph "flow".
Definition cmd_response (stage : string) : Command :=
  CFaasInvocationResponse {| faas_FlowId := "flow"; faas_StageId := stage; faas_FunctionId := "app/fn";
    faas_Result := Some a_value; faas_CallId := "call" |}.

Definition s_created : actor := after cmd_create new_actor.
Definition s_supplied : actor := after (cmd_add supply []) s_created.
Definition s_chained : actor := after (cmd_add whenComplete ["0"]) s_supplied.
Definition s_hooked : actor := after (cmd_add terminationHook []) (after (cmd_add terminationHook []) s_chained).
Definition s_committed : actor := after cmd_commit s_hooked.
Definition s_running : actor := after (cmd_response "0") s_committed.
Definition s_terminating : actor := after (cmd_response "1") s_running.
Definition s_completed : actor := after (cmd_response "2") (after (cmd_response "3") s_terminating).

(** The graph of a state, for the statements below. *)
Definition graph_in (s : actor) : CompletionGraph :=
  match ga_graph s with Some g => g | None => New "" "" 0 end.

Definition results_in (s : actor) : list (string * bool * bool) :=
  (λ x, (stage_ID x, stage_triggered x, IsResolved x)) <$> gr_objects (graph_in s).

(** The flow runs to completion, its hooks in reverse order of registration. *)
Example flow_runs :
  results_in s_committed = [("0", true, false); ("1", false, false); ("2", false, false); ("3", false, false)]
  ∧ gr_state (graph_in s_running) = StateCommitted
  ∧ gr_state (graph_in s_terminating) = StateTerminating
  ∧ gr_state (graph_in s_completed) = StateCompleted
  ∧ executions (ga_effects s_completed) = ["0"; "1"; "3"; "2"].
Proof. by vm_compute. Qed.

(** ** Its states are reachable *)

Lemma reachable_after cmd (s : actor) :
  reachable depth_bound s → arrives s cmd → reachable depth_bound (after cmd s).
Proof.
  intros Hs Ha. unfold after. destruct (receiveCommand depth_bound cmd s) as [[] s'| |] eqn:Hr; [|done..].
  by eapply reachable_step.
Qed.

Lemma arrives_response id (s : actor) : id ∈ executions (ga_effects s) → arrives s (cmd_response id).
Proof.
  intros (ef & Hin & Hid)%list_elem_of_omap. split; [by eexists|].
  destruct ef as [[r|]| | | | | | |]; simplify_eq/=. by exists (InvokeStage r).
Qed.

(** A response to a request the actor has sent, checked by computation. *)
Ltac responds := apply arrives_response; refine (bool_decide_unpack _ _); vm_compute; exact I.

Lemma reach_created : reachable depth_bound s_created.
Proof. apply reachable_after; [by apply reachable_new|exact I]. Qed.
Lemma reach_chained : reachable depth_bound s_chained.
Proof. apply reachable_after; [apply reachable_after; [apply reach_created|exact I]|exact I]. Qed.
Lemma reach_committed : reachable depth_bound s_committed.
Proof.
  apply reachable_after; [|exact I]. apply reachable_after; [|exact I].
  apply reachable_after; [apply reach_chained|exact I].
Qed.
Lemma reach_running : reachable depth_bound s_running.
Proof. apply reachable_after; [apply reach_committed|responds]. Qed.
Lemma reach_terminating : reachable depth_bound s_terminating.
Proof. apply reachable_after; [apply reach_running|responds]. Qed.
Lemma reach_completed : reachable depth_bound s_completed.
Proof. apply reachable_after; [apply reachable_after; [apply reach_terminating|responds]|responds]. Qed.

Lemma graph_in_eq (s : actor) : is_Some (ga_graph s) → ga_graph s = Some (graph_in s).
Proof. unfold graph_in. by intros [g ->]. Qed.

(** ** The theorems at these states *)

Lemma receiveCommand_total_witness :
  ∃ s', receiveCommand depth_bound (cmd_response "1") s_running = Ret tt s' ∧ reachable depth_bound s'.
Proof.
  apply (receiveCommand_total depth_bound (le_n _) s_running (cmd_response "1") reach_running).
  apply arrives_response. refine (bool_decide_unpack _ _). vm_compute. exact I.
Defined.

Lemma nothing_left_undone_witness :
  (∀ p x, gr_objects (graph_in s_running) !! p = Some x → stage_result x = None → stage_triggered x = false →
     ready (graph_in s_running) x = false)
  ∧ (∀ i o x y, gr_objects (graph_in s_running) !! i = Some x → gr_objects (graph_in s_running) !! o = Some y →
       stage_composeReference x = Some o → is_Some (stage_result x) → is_Some (stage_result y)).
Proof.
  refine (nothing_left_undone depth_bound (le_n _) s_running (graph_in s_running) reach_running _).
  vm_compute. reflexivity.
Defined.

Lemma lifecycle_exact_witness :
  ¬ pending (graph_in s_terminating) MainExecPhase ∧ pending (graph_in s_terminating) TerminationExecPhase.
Proof.
  refine (lifecycle_exact depth_bound (le_n _) s_terminating (graph_in s_terminating) reach_terminating _).
  vm_compute. reflexivity.
Defined.


Lemma stage_ids_sequential_witness : NextStageID (graph_in s_running) = "4".
Proof.
  refine (eq_trans (proj2 (proj2 (stage_ids_sequential depth_bound (le_n _) s_running (graph_in s_running)
    reach_running _))) _); vm_compute; reflexivity.
Defined.

Lemma no_deadlock_witness :
  ∃ q y, q ≤ 1 ∧ gr_objects (graph_in s_committed) !! q = Some y ∧ stage_result y = None
    ∧ (stage_triggered y = true ∨ strat_Trigger (stage_strategy y) = Fn_triggerNever
       ∨ stage_operation y = terminationHook).
Proof.
  eapply (no_deadlock depth_bound (le_n _) s_committed (graph_in s_committed) 1 _ reach_committed);
    vm_compute; reflexivity.
Defined.

Lemma hooks_run_in_reverse_witness :
  (gr_terminationChainHead (graph_in s_completed) = Some 2
   ∧ is_Some (raw_result (gr_terminationRoot (graph_in s_completed))))
  ∨ ∃ q y, 2 < q ∧ gr_objects (graph_in s_completed) !! q = Some y ∧ stage_operation y = terminationHook
      ∧ is_Some (stage_result y) ∧ no_hook_between (graph_in s_completed) 2 q.
Proof.
  eapply (hooks_run_in_reverse depth_bound (le_n _) s_completed (graph_in s_completed) 2 _ reach_completed);
    [vm_compute; reflexivity|vm_compute; reflexivity|vm_compute; reflexivity|].
  refine (bool_decide_unpack _ _). vm_compute. exact I.
Defined.

Lemma add_stage_correct_witness :
  ∃ s', receiveCommand depth_bound (cmd_add thenApply ["1"]) s_running = Ret tt s' ∧
    (refused s_running s' ∨ ∃ g2 x, ga_graph s' = Some g2
       ∧ last (ga_effects s') = Some (Respond (RAddStage "flow" (NextStageID (graph_in s_running))))
       ∧ GetStage g2 (NextStageID (graph_in s_running)) = Some 4
       ∧ gr_objects g2 !! 4 = Some x
       ∧ stage_operation x = thenApply ∧ stage_closure x = a_closure
       ∧ ∀ q y, gr_objects (graph_in s_running) !! q = Some y → ∃ z, gr_objects g2 !! q = Some z
           ∧ stage_ID z = stage_ID y ∧ stage_operation z = stage_operation y
           ∧ ∀ r, stage_result y = Some r → stage_result z = Some r).
Proof.
  exact (add_stage_correct depth_bound (le_n _) s_running (graph_in s_running)
    {| add_FlowId := "flow"; add_Operation := thenApply; add_Closure := a_closure; add_Deps := ["1"];
       add_CodeLocation := ""; add_CallerId := "" |} reach_running
    ltac:(vm_compute; reflexivity)).
Defined.

Definition external_request : CompleteStageExternallyRequest :=
  {| ext_FlowId := "flow"; ext_StageId := "1"; ext_Value := Some a_value;
     ext_CodeLocation := ""; ext_CallerId := "" |}.

Lemma complete_externally_correct_witness :
  ∃ s', receiveCommand depth_bound (CCompleteStageExternally external_request) s_running = Ret tt s' ∧
    ∃ x g2 y, gr_objects (graph_in s_running) !! 1 = Some x ∧ ga_graph s' = Some g2 ∧ gr_objects g2 !! 1 = Some y
       ∧ stage_result y = Some (default a_value (stage_result x))
       ∧ last (ga_effects s') = Some (Respond (RCompleteStageExternally "flow" "1" (negb (IsResolved x)))).
Proof.
  exact (complete_externally_correct depth_bound (le_n _) s_running (graph_in s_running)
    external_request a_value (NewBlobDatum a_closure) reach_running
    ltac:(vm_compute; reflexivity) ltac:(vm_compute; reflexivity) ltac:(vm_compute; reflexivity)).
Defined.

Lemma commit_idempotent_witness :
  ∃ s' g', receiveCommand depth_bound cmd_commit s_running = Ret tt s' ∧ ga_graph s' = Some g'
    ∧ last (ga_effects s') = Some (Respond (RGraphRequestProcessed "flow"))
    ∧ gr_state g' ≠ StateInitial
    ∧ (gr_state (graph_in s_running) ≠ StateInitial →
       g' = graph_in s_running ∧ ga_persistence s' = ga_persistence s_running).
Proof.
  exact (commit_idempotent depth_bound (le_n _) s_running (graph_in s_running) "flow" reach_running
    ltac:(vm_compute; reflexivity)).
Defined.

Lemma event_sourced_witness :
  ∃ es, actor_journal s_running = actor_journal s_committed ++ es
    ∧ erase <$> ga_graph s_running = erase <$> replay (ga_graph s_committed) es
    ∧ (plan (ga_graph s_committed) → valid (ga_graph s_committed) es).
Proof.
  apply (event_sourced depth_bound s_committed s_running). exists (cmd_response "0"). vm_compute. reflexivity.
Defined.

Lemma journal_determines_graph_witness :
  erase <$> ga_graph s_supplied = erase <$> replay None (actor_journal s_supplied)
  ∧ valid None (actor_journal s_supplied).
Proof.
  apply (journal_determines_graph depth_bound new_actor s_supplied); [reflexivity|reflexivity|].
  apply (rtc_l _ _ s_created); [exists cmd_create; vm_compute; reflexivity|].
  apply rtc_once. exists (cmd_add supply []). vm_compute. reflexivity.
Defined.
