(* ===== verification/Flaws.v ===== *)
(** * Where the graph and its actor fall short

    Runs of the actor, through the persistence middleware and over the
    in-memory provider, that show behaviour at odds with the comments of the
    sources: a composed stage that is not completed, a recovery that
    executes closures a second time, and one that changes the journal it
    reads. *)

From S2P Require Import Prelude Model Stage Graph Persistence GraphActor.
From S2P Require Import ActorSpec ActorCommands ActorTheorems Journal EventSourcing Scenario.

Definition path : string := "supervisor-0/flow".

(** The middleware's handling of a message, and of a start over a provider. *)
Definition receive (msg : Message) (s : actor) : actor :=
  match Using depth_bound path msg s with Ret _ s' => s' | _ => s end.
Definition start (p : InMemory.InMemoryProvider) : actor := receive MStarted (NewGraphActor p).
Definition send (s : actor) (c : Command) : actor := receive (MCommand c) s.

Definition journal_in (s : actor) : list Event :=
  mem_journal path (pers_provider (ga_persistence s)).

Definition cmd_external : Command :=
  CAddStage {| add_FlowId := "flow"; add_Operation := externalCompletion; add_Closure := None; add_Deps := [];
               add_CodeLocation := ""; add_CallerId := "" |}.
(** The closure of a stage returns a reference to another stage. *)
Definition cmd_compose (stage ref : string) : Command :=
  CFaasInvocationResponse {| faas_FlowId := "flow"; faas_StageId := stage; faas_FunctionId := "app/fn";
    faas_Result := Some (NewSuccessfulResult (Some (NewStageRefDatum ref))); faas_CallId := "call" |}.
Definition cmd_complete (stage : string) : Command :=
  CCompleteStageExternally {| ext_FlowId := "flow"; ext_StageId := stage; ext_Value := Some a_value;
     ext_CodeLocation := ""; ext_CallerId := "" |}.

Definition run (cmds : list Command) : actor := foldl send (start provider) cmds.

Definition two_composers : actor :=
  run [cmd_create; cmd_external; cmd_add supply []; cmd_add thenCompose ["1"]; cmd_add thenCompose ["1"];
       cmd_response "1"; cmd_compose "2" "0"; cmd_compose "3" "0"; cmd_complete "0"].

Definition two_lost : actor := run [cmd_create; cmd_add supply []; cmd_add supply []].

Definition cmd_invoke : Command :=
  CAddInvokeFunctionStage {| invoke_FlowId := "flow"; invoke_FunctionId := "app/other"; invoke_Arg := None;
                             invoke_CodeLocation := ""; invoke_CallerId := "" |}.
Definition two_invocations : actor := run [cmd_create; cmd_invoke; cmd_invoke].
Definition requests (s : actor) : list Effect :=
  List.filter (λ ef, match ef with ToExecutor _ => true | _ => false end) (ga_effects s).

Definition one_composer : actor :=
  run [cmd_create; cmd_external; cmd_add supply []; cmd_add thenCompose ["1"];
       cmd_response "1"; cmd_compose "2" "0"; cmd_complete "0"].
Definition restarted (s : actor) : actor := start (pers_provider (ga_persistence s)).

Definition composed_2_of_0 (e : Event) : bool :=
  match e with
  | EStageComposed e => String.eqb (composed_StageId e) "2" && String.eqb (composed_ComposedStageId e) "0"
  | _ => false
  end.

(** A stage has room for one stage composed of it. When, as here, the
    closures of two stages return a reference to the same pending stage, the
    second composition overwrites the first: once the inner stage has
    completed, stage 3 has its result, but stage 2, whose composition is in
    the journal and whose closure has answered, is unresolved, and no stage of
    the graph refers to it any more. *)
Theorem compose_forgotten :
  ∃ g x0 x2 x3, ga_graph two_composers = Some g
    ∧ gr_objects g !! 0 = Some x0 ∧ stage_result x0 = Some a_value
    ∧ gr_objects g !! 3 = Some x3 ∧ stage_result x3 = Some a_value
    ∧ gr_objects g !! 2 = Some x2 ∧ stage_result x2 = None ∧ stage_triggered x2 = true
    ∧ existsb composed_2_of_0 (journal_in two_composers) = true
    ∧ Forall (λ y, stage_composeReference y ≠ Some 2) (gr_objects g).
Proof.
  eexists (graph_in two_composers), _, _, _. split_and!; try (vm_compute; reflexivity).
  refine (bool_decide_unpack _ _). vm_compute. exact I.
Qed.

(** After this crash with two stages executing, recovery does not fail them
    both. Failing the first one triggers the others, since
    the recovered graph no longer knows that they had been triggered. Where they
    run closures, a closure sent for execution before the crash (that of stage
    0) is sent a second time, and the stage is left pending instead of failed.
    Where they are function invocations, triggering does nothing: stage 0 is
    neither failed nor invoked again, and its invocation was lost with the
    actor. *)
Theorem recovery_reexecutes :
  (executions (ga_effects two_lost) = ["0"; "1"]
   ∧ executions (ga_effects (restarted two_lost)) = ["0"]
   ∧ results_in (restarted two_lost) = [("0", true, false); ("1", true, true)])
  ∧ (length (requests two_invocations) = 2
     ∧ requests (restarted two_invocations) = []
     ∧ results_in (restarted two_invocations) = [("0", true, false); ("1", true, true)]).
Proof. by vm_compute. Qed.

(** Reading back a journal in which a stage was
    completed through a composition changes it: replaying the completion of
    the inner stage persists the completion of the outer one again. The stages
    recovered are the same, but the journal is one event longer after every
    recovery. *)
Theorem recovery_extends_journal :
  (∃ e, journal_in (restarted one_composer) = journal_in one_composer ++ [e])
  ∧ length (journal_in (restarted (restarted one_composer))) = length (journal_in one_composer) + 2
  ∧ results_in (restarted one_composer) = results_in one_composer.
Proof. split_and!; [eexists; vm_compute; reflexivity|vm_compute; reflexivity|vm_compute; reflexivity]. Qed.
