(* ===== verification/RecoveryScenario.v ===== *)
(** * Recovery at concrete journals

    The theorems of Recovery on a flow run by the middleware over the in-memory
    provider, lost and started again, over its whole journal and over a journal
    that breaks off in the middle of a command. *)

From S2P Require Import Prelude Model Stage Graph GraphFacts GraphSpec Persistence GraphActor.
From S2P Require Import ActorSpec ActorCommands ActorTheorems Journal EventSourcing Recovery Scenario Flaws.

Lemma life_started : life depth_bound path (start provider).
Proof. apply (life_start depth_bound path provider); [reflexivity|exact I|done|vm_compute; reflexivity]. Qed.

Lemma life_send s cmd : life depth_bound path s → arrives s cmd → life depth_bound path (send s cmd).
Proof.
  intros Hs Ha. unfold send, receive. destruct (Using depth_bound path (MCommand cmd) s) as [[] s'| |] eqn:Hrun; try done.
  by apply (life_message depth_bound path s (MCommand cmd)); [|left|].
Qed.

(** A supplied stage has answered, the stage chained to it is executing, and a
    delay is pending. *)
Definition cmd_delay : Command :=
  CAddDelayStage {| adddelay_FlowId := "flow"; adddelay_DelayMs := 1000; adddelay_CodeLocation := "";
                    adddelay_CallerId := "" |}.
Definition s_delayed : actor := run [cmd_create; cmd_delay; cmd_external].
Definition s_waiting : actor := send (run [cmd_create; cmd_add supply []; cmd_add thenApply ["0"]]) (cmd_response "0").

Lemma life_delayed : life depth_bound path s_delayed.
Proof. do 3 (apply life_send; [|exact I]). apply life_started. Qed.
Lemma life_waiting : life depth_bound path s_waiting.
Proof.
  apply life_send; [do 3 (apply life_send; [|exact I]); apply life_started|].
  apply arrives_response. refine (bool_decide_unpack _ _). vm_compute. exact I.
Qed.

(** The journal of an actor, broken off after [k] events. *)
Definition broken_off (k : nat) (s : actor) : InMemory.InMemoryProvider :=
  {| InMemory.snapshotInterval := 1000;
     InMemory.store := {[path := {| InMemory.entry_eventIndex := 0; InMemory.entry_snapshot := None;
                                    InMemory.entry_events := take k (journal_in s) |}]} |}.
Lemma broken_off_prefix k s :
  actor_journal s = journal_in s → journal path (broken_off k s) `prefix_of` actor_journal s.
Proof.
  intros ->. change (journal path (broken_off k s)) with (mem_journal path (broken_off k s)).
  unfold mem_journal. simpl. rewrite lookup_singleton_eq. simpl. apply prefix_take.
Qed.

(** With a delay pending and nothing else in flight, a restart over the whole
    journal finds the same graph, writes nothing and only reminds itself of the
    delay. *)
Lemma recovery_faithful_witness :
  ∃ s', Using depth_bound path MStarted (NewGraphActor (broken_off 4 s_delayed)) = Ret tt s'
    ∧ (∃ es, actor_journal s' = journal path (broken_off 4 s_delayed) ++ es)
    ∧ ∀ g, replay None (journal path (broken_off 4 s_delayed)) = Some g →
        keeps_graph (journal path (broken_off 4 s_delayed)) g s'.
Proof.
  destruct (recovery_faithful depth_bound (le_n _) path s_delayed (broken_off 4 s_delayed) life_delayed)
    as (s' & Hrun & _ & Hes & Hk).
  - apply broken_off_prefix. vm_compute. reflexivity.
  - refine (bool_decide_unpack _ _). vm_compute. exact I.
  - vm_compute. reflexivity.
  - done.
  - exists s'. split_and!; [exact Hrun|exact Hes|exact Hk].
Defined.
Example delayed_restart :
  length (journal_in s_delayed) = 4
  ∧ journal_in (start (broken_off 4 s_delayed)) = journal_in s_delayed
  ∧ length (ga_effects (start (broken_off 4 s_delayed))) = 3.
Proof. by vm_compute. Qed.

(** A response arrives after a restart over a journal that broke off. *)
Definition s_restarted : actor := start (broken_off 3 s_waiting).
Lemma life_restarted : life depth_bound path s_restarted.
Proof.
  apply (life_restart depth_bound path s_waiting (broken_off 3 s_waiting)).
  - apply life_waiting.
  - apply broken_off_prefix. vm_compute. reflexivity.
  - refine (bool_decide_unpack _ _). vm_compute. exact I.
  - vm_compute. reflexivity.
  - done.
  - vm_compute. reflexivity.
Qed.

(** The stage chained to the first one is executing when the actor is lost; the
    answer of the executor arrives at the successor. *)
Lemma total_across_crashes_witness :
  (∃ s', Using depth_bound path (MCommand cmd_commit) s_restarted = Ret tt s' ∧ life depth_bound path s')
  ∧ ∃ s1 s2, Using depth_bound path MStarted (NewGraphActor (broken_off 9 s_waiting)) = Ret tt s1
      ∧ Using depth_bound path (MCommand (cmd_response "1")) s1 = Ret tt s2 ∧ life depth_bound path s2.
Proof.
  split.
  - apply (total_across_crashes depth_bound (le_n _) path s_restarted life_restarted). by left.
  - apply (total_across_crashes depth_bound (le_n _) path s_waiting life_waiting).
    + vm_compute. reflexivity.
    + refine (bool_decide_unpack _ _). vm_compute. exact I.
    + vm_compute. reflexivity.
    + done.
    + apply arrives_response. refine (bool_decide_unpack _ _). vm_compute. exact I.
Defined.

Lemma invariants_across_crashes_witness :
  no_ready (graph_in s_restarted) ∧ lifecycle_current (graph_in s_restarted)
  ∧ NoDup (executions (ga_effects s_restarted)).
Proof.
  destruct (invariants_across_crashes depth_bound (le_n _) path s_restarted (graph_in s_restarted) life_restarted)
    as (_ & _ & H1 & H2 & _ & _ & H3); [vm_compute; reflexivity|]. by split_and!.
Defined.
