(* ===== verification/ProgressScenario.v ===== *)
(** * A flow with every kind of stage, and one that never ends

    The theorem on the completion of flows at a flow with a composition, a delay,
    a function invocation, a stage completed by a client and a termination hook;
    and what happens without its hypotheses: a stage that depends on a
    termination hook, which the graph accepts, keeps a committed flow from ever
    completing. *)

From S2P Require Import Prelude Model Stage StageFacts Graph GraphFacts GraphSpec Persistence GraphActor.
From S2P Require Import ActorSpec ActorCommands ActorTheorems Scenario Flaws Accounting Progress.

Definition cmd_delay : Command :=
  CAddDelayStage {| adddelay_FlowId := "flow"; adddelay_DelayMs := 1000; adddelay_CodeLocation := ""; adddelay_CallerId := "" |}.
Definition cmd_fired (stage : string) : Command :=
  CCompleteDelayStage {| cdelay_FlowId := "flow"; cdelay_StageId := stage; cdelay_Result := Some NewEmptyResult |}.

Definition all_kinds : list Command :=
  [cmd_create; cmd_external; cmd_add supply []; cmd_add thenCompose ["1"]; cmd_delay; cmd_invoke;
   cmd_add terminationHook []; cmd_commit; cmd_response "1"; cmd_compose "2" "0"; cmd_complete "0";
   cmd_fired "3"; cmd_response "4"; cmd_response "5"].

(** A stage that depends on a hook. *)
Definition circular : list Command :=
  [cmd_create; cmd_add terminationHook []; cmd_add thenRun ["0"]; cmd_commit].

Definition handled (cs : list Command) : actor := foldl (λ s c, after c s) new_actor cs.

(** What may arrive, as a test. *)
Definition arrives_b (s : actor) (cmd : Command) : bool :=
  match cmd with
  | CAddCompletedValueStage msg => bool_decide (is_Some (value_Value msg ≫= result_Datum))
  | CCompleteStageExternally msg => bool_decide (is_Some (ext_Value msg ≫= result_Datum))
  | CFaasInvocationResponse msg =>
      bool_decide (is_Some (faas_Result msg))
      && existsb (λ ef, match ef with ToExecutor r => String.eqb (request_stage r) (faas_StageId msg) | _ => false end)
           (ga_effects s)
  | CCompleteDelayStage m =>
      existsb (λ ef, match ef with
        | TellSelf (CCompleteDelayStage m') | TellSelfAfter _ (CCompleteDelayStage m') => bool_decide (m' = m)
        | _ => false
        end) (ga_effects s)
  | _ => true
  end.
Fixpoint arrive_b (s : actor) (cs : list Command) : bool :=
  match cs with [] => true | c :: cs => arrives_b s c && arrive_b (after c s) cs end.

Lemma arrives_sound s cmd : arrives_b s cmd = true → arrives s cmd.
Proof.
  destruct cmd as [| | |m| | |m| | |m|m| |]; simpl; try done.
  - intros [d Hd]%bool_decide_eq_true. destruct (value_Value m) as [r|] eqn:Hr; simpl in Hd; [|done]. by exists r, d.
  - intros [d Hd]%bool_decide_eq_true. destruct (ext_Value m) as [r|] eqn:Hr; simpl in Hd; [|done]. by exists r, d.
  - intros (ef & Hin & Hef)%existsb_exists. apply list_elem_of_In in Hin.
    destruct ef as [|[]|? []| | | | |]; try done; apply bool_decide_eq_true in Hef as ->; [by left|by right; eexists].
  - intros [Hr (ef & Hin & Hef)%existsb_exists]%andb_true_iff. apply bool_decide_eq_true in Hr. split; [done|].
    apply list_elem_of_In in Hin. destruct ef as [r| | | | | | |]; try done. exists r. split; [done|]. by apply String.eqb_eq.
Qed.

Lemma history_handled cs :
  arrive_b new_actor cs = true → history depth_bound cs (handled cs).
Proof.
  assert (∀ pre s rest, history depth_bound pre s → arrive_b s rest = true →
    history depth_bound (pre ++ rest) (foldl (λ s c, after c s) s rest)) as Hgen.
  { intros pre s rest. revert pre s. induction rest as [|c rest IH]; intros pre s Hh Ha; simpl; [by rewrite app_nil_r|].
    simpl in Ha. apply andb_true_iff in Ha as [Hc Ha]. rewrite (assoc_L (++) pre [c] rest : pre ++ c :: rest = (pre ++ [c]) ++ rest).
    apply IH; [|done]. apply arrives_sound in Hc.
    destruct (history_returns depth_bound (le_n _) pre s c Hh Hc) as (s' & Hrun & Hh'). unfold after. by rewrite Hrun. }
  intros Ha. apply (Hgen [] new_actor cs); [by apply history_new|done].
Qed.

Lemma all_kinds_history : history depth_bound all_kinds (handled all_kinds).
Proof. apply history_handled. vm_compute. reflexivity. Qed.

(** Each stage above those it waits for: the hook above all others. *)
Definition all_kinds_levels : list nat := [0; 0; 1; 0; 0; 2].

Lemma committed_flow_completes_witness :
  gr_state (graph_in (handled all_kinds)) = StateCompleted
  ∧ ∀ p x, gr_objects (graph_in (handled all_kinds)) !! p = Some x → is_Some (stage_result x).
Proof.
  apply (committed_flow_completes depth_bound (le_n _) all_kinds (handled all_kinds) (graph_in (handled all_kinds))).
  - exact all_kinds_history.
  - vm_compute. reflexivity.
  - vm_compute. discriminate.
  - apply (acyclic_by_sound all_kinds_levels). vm_compute. reflexivity.
  - apply compositions_kept_sound. vm_compute. reflexivity.
  - apply nothing_outstanding_sound. vm_compute. reflexivity.
Defined.

(** Nobody checks the flag [CanAddChildren], which is off for termination hooks:
    a stage may depend on a hook. A hook runs when the main stages are resolved,
    so the flow of such a stage does not complete by itself: it is committed,
    nothing is outstanding, and no further response or delay can arrive. Only a
    client that completes the stage itself could end it. *)
Theorem hook_dependency_deadlock :
  ∃ g, history depth_bound circular (handled circular) ∧ ga_graph (handled circular) = Some g
    ∧ gr_state g = StateCommitted ∧ nothing_outstanding circular (handled circular) g
    ∧ (∀ cmd, is_answer cmd → ¬ arrives (handled circular) cmd).
Proof.
  exists (graph_in (handled circular)). split_and!.
  - apply history_handled. vm_compute. reflexivity.
  - vm_compute. reflexivity.
  - vm_compute. reflexivity.
  - apply nothing_outstanding_sound. vm_compute. reflexivity.
  - intros cmd Hans Harr. assert (Forall (λ ef, match ef with ToExecutor _ | TellSelf _ | TellSelfAfter _ _ => False | _ => True end)
      (ga_effects (handled circular))) as Hef.
    { vm_compute. repeat constructor. }
    rewrite Forall_forall in Hef. destruct cmd; try done.
    + destruct Harr as [Hin|[t Hin]]; by apply Hef in Hin.
    + destruct Harr as (_ & q & Hin & _). by apply Hef in Hin.
Qed.
