(* ===== verification/Sharding.v ===== *)
(** * Shards (src/sharding)

    Every flow belongs to one of a fixed number of shards, computed from its
    id. [ShardExtractor] is the Go interface; [ShardLaws] is what the cluster
    manager and the actor manager rely on; the fixed-size extractor, the only
    implementation, is shown to have it. *)

From S2P Require Import Prelude Uuid.
Local Open Scope Z_scope.

Class ShardExtractor (E : Type) := {
  ShardID {S} : E → string → M S (parse_error + Z);
  ShardCount : E → Z;
}.

(** [ShardID] always returns, and names an existing shard for every id it does
    not refuse; it refuses exactly the texts that are no UUIDs. *)
Class ShardLaws {E} `{!ShardExtractor E} (m : E) := {
  shard_of : string → parse_error + Z;
  ShardID_of {S} flowID (s : S) : ShardID m flowID s = Ret (shard_of flowID) s;
  shard_of_range flowID shard : shard_of flowID = inr shard → 0 ≤ shard < ShardCount m;
  shard_of_uuid flowID u : Parse flowID = inr u → ∃ shard, shard_of flowID = inr shard;
  shard_of_error flowID e : Parse flowID = inl e → shard_of flowID = inl e;
}.

Record fixedSizeShardExtractor := { shardCount : Z }.

Definition NewFixedSizeExtractor (shardCount : Z) : fixedSizeShardExtractor :=
  {| shardCount := shardCount |}.

(** [binary.BigEndian.Uint64] of the standard library. *)
Definition BigEndian_Uint64 (b : list Z) : Z := foldl (λ acc x, Z.lor (Z.shiftl acc 8) x) 0 b.

(** The conversion [uint64(m.shardCount)] wraps, and [%] panics on zero. *)
Definition fixed_ShardID {S} (m : fixedSizeShardExtractor) (flowID : string) : M S (parse_error + Z) :=
  match Parse flowID with
  | inl err => mret (inl err)
  | inr UUID =>
      let lowBits := BigEndian_Uint64 (take 8 UUID) in
      let hiBits := BigEndian_Uint64 (drop 8 UUID) in
      let hilo := Z.lxor lowBits hiBits in
      shard ← go_rem hilo (uint64 (shardCount m));
      mret (inr (int64 shard))
  end.

#[export] Instance fixed_extractor : ShardExtractor fixedSizeShardExtractor :=
  {| ShardID S := fixed_ShardID; ShardCount := shardCount |}.

(** ** Lemmas *)

Lemma BigEndian_step acc x n : 0 ≤ n → 0 ≤ acc < 2 ^ n → is_byte x →
  0 ≤ Z.lor (Z.shiftl acc 8) x < 2 ^ (n + 8).
Proof.
  intros Hn Ha Hx. rewrite Z.shiftl_mul_pow2 by lia. unfold is_byte in Hx.
  assert (2 ^ (n + 8) = 2 ^ n * 256) as Hp by (rewrite Z.pow_add_r; lia).
  apply lor_bound; lia.
Qed.

Lemma BigEndian_bound b : length b = 8%nat → Forall is_byte b → 0 ≤ BigEndian_Uint64 b < 2 ^ 64.
Proof.
  intros Hlen Hb.
  assert (∀ l acc n, 0 ≤ n → 0 ≤ acc < 2 ^ n → Forall is_byte l →
    0 ≤ foldl (λ acc x, Z.lor (Z.shiftl acc 8) x) acc l < 2 ^ (n + 8 * Z.of_nat (length l))) as Hloop.
  { induction l as [|x l IH]; intros acc n Hn Ha Hl; simpl length.
    - simpl. by rewrite Z.add_0_r.
    - apply Forall_cons in Hl as [Hx Hl]. simpl foldl.
      replace (n + 8 * Z.of_nat (S (length l))) with ((n + 8) + 8 * Z.of_nat (length l)) by lia.
      apply IH; [lia|by apply BigEndian_step|done]. }
  specialize (Hloop b 0 0). rewrite Hlen in Hloop. apply Hloop; [lia|lia|done].
Qed.

Lemma int64_small z : -2 ^ 63 ≤ z < 2 ^ 63 → int64 z = z.
Proof. intros Hz. unfold int64. rewrite Z.mod_small; lia. Qed.

(** The shard of a UUID: the exclusive or of its two halves, modulo the number
    of shards. *)
Definition uuid_shard (count : Z) (u : UUID) : Z :=
  Z.lxor (BigEndian_Uint64 (take 8 u)) (BigEndian_Uint64 (drop 8 u)) `mod` count.

Lemma fixed_ShardID_eq {S} count flowID (s : S) : 0 < count < 2 ^ 63 →
  fixed_ShardID (NewFixedSizeExtractor count) flowID s =
    Ret (match Parse flowID with inl e => inl e | inr u => inr (uuid_shard count u) end) s.
Proof.
  intros Hc. unfold fixed_ShardID. destruct (Parse flowID) as [e|u] eqn:Hp; [done|].
  destruct (Parse_valid _ _ Hp) as [Hlen Hb]. simpl.
  rewrite uint64_small by lia. unfold go_rem.
  destruct (Z.eqb_spec count 0) as [->|_]; [lia|].
  assert (0 ≤ BigEndian_Uint64 (take 8 u) < 2 ^ 64) by
    (apply BigEndian_bound; [rewrite length_take; lia|by apply Forall_take]).
  assert (0 ≤ BigEndian_Uint64 (drop 8 u) < 2 ^ 64) by
    (apply BigEndian_bound; [rewrite length_drop; lia|by apply Forall_drop]).
  unfold mbind, M_bind, mret, M_ret. simpl.
  rewrite Z.rem_mod_nonneg by (try apply (lxor_bound _ _ 64); lia).
  rewrite int64_small; [done|]. pose proof (Z.mod_pos_bound
    (Z.lxor (BigEndian_Uint64 (take 8 u)) (BigEndian_Uint64 (drop 8 u))) count). lia.
Qed.

#[export] Instance fixed_laws count `{Hc : !TCEq (0 <? count) true} `{Hc' : !TCEq (count <? 2 ^ 63) true} :
  ShardLaws (NewFixedSizeExtractor count).
Proof.
  assert (0 < count < 2 ^ 63) as Hcount.
  { apply TCEq_eq in Hc, Hc'. apply Z.ltb_lt in Hc, Hc'. done. }
  refine {| shard_of flowID := match Parse flowID with inl e => inl e | inr u => inr (uuid_shard count u) end |}.
  - intros S flowID s. by apply fixed_ShardID_eq.
  - intros flowID shard. destruct (Parse flowID); intros; simplify_eq/=. apply Z.mod_pos_bound. lia.
  - intros flowID u ->. eauto.
  - by intros flowID e ->.
Defined.

(** With a positive number of shards (any positive Go [int])
    the extractor never panics; it gives every UUID, in whichever of its text
    forms, the shard of its sixteen bytes, a number below the shard count, and
    refuses every other text with the error of the parser. *)
Theorem shard_in_range {S} (count : Z) (flowID : string) (s : S) :
  0 < count < 2 ^ 63 →
  match Parse flowID with
  | inl e => ShardID (NewFixedSizeExtractor count) flowID s = Ret (inl e) s
  | inr u => ShardID (NewFixedSizeExtractor count) flowID s = Ret (inr (uuid_shard count u)) s
             ∧ 0 ≤ uuid_shard count u < ShardCount (NewFixedSizeExtractor count)
  end.
Proof.
  intros Hc. simpl. rewrite fixed_ShardID_eq by done.
  destruct (Parse flowID); [done|]. split; [done|]. apply Z.mod_pos_bound. lia.
Qed.

Lemma shard_in_range_witness :
  ShardID (NewFixedSizeExtractor 7) (String_ sample_uuid) tt = Ret (inr (uuid_shard 7 sample_uuid)) tt
  ∧ 0 ≤ uuid_shard 7 sample_uuid < ShardCount (NewFixedSizeExtractor 7).
Proof. exact (shard_in_range 7 (String_ sample_uuid) tt ltac:(lia)). Defined.

(** A shard count of zero, which the configuration of the service does not
    exclude, makes every request with a well-formed flow id panic. *)
Example zero_shards_panic :
  ShardID (NewFixedSizeExtractor 0) (String_ sample_uuid) tt = Panic DivideByZero tt.
Proof. vm_compute. reflexivity. Qed.
