(* ===== verification/Cluster.v ===== *)
(** * The cluster (src/cluster)

    A node knows the number of nodes and its own index. [Manager] maps a flow
    to the node that hosts its shard and holds one gRPC client per node;
    [clusterProxy] is the public service, which sends each request to the
    client of the right node. The gRPC client, its calls and [grpc.Dial] are
    parameters: the type [client], [rpc] and [grpc_Dial]. *)

From S2P Require Import Prelude Model Uuid Sharding.
Local Open Scope Z_scope.

Record Settings := { NodeCount : Z; NodeID : Z; NodePrefix : string; NodePort : Z }.

Definition nodeName (s : Settings) (index : Z) : string := NodePrefix s +:+ itoaZ index.

Definition nodeAddress (s : Settings) (i : Z) : string :=
  if i =? NodeID s then "localhost:" +:+ itoaZ (NodePort s)
  else nodeName s i +:+ ":" +:+ itoaZ (NodePort s).

(** The settings of node [i] of the same cluster. *)
Definition as_node (i : Z) (s : Settings) : Settings :=
  {| NodeCount := NodeCount s; NodeID := i; NodePrefix := NodePrefix s; NodePort := NodePort s |}.

(** Errors a request can end with before or at the remote node. *)
Inductive proxy_error :=
  | BadFlowId (e : parse_error)
  | NoRandom (e : string)
  | Remote (e : status_error).

(** The part of [gin.Context] that [shouldForward] reads. *)
Record gin_Context := { gin_Path : string; gin_Query : string → string; gin_Param : string → string }.

Definition extractFlowID (c : gin_Context) : string :=
  if String.eqb (gin_Path c) "/graph" then gin_Query c "FlowId" else gin_Param c "FlowId".

Section cluster.
Context {S E client : Type} `{!ShardExtractor E}.
Context (grpc_Dial : string → M S (string + client)).
Context (rpc : client → Command → M S (status_error + Response)).

Record Manager := {
  settings : Settings;
  extractor : E;
  reverseProxies : gmap string client;
}.

(** The loop of [NewManager]; a failed dial panics. *)
Fixpoint dial_nodes (st : Settings) (nodes : list Z) (proxies : gmap string client) : M S (gmap string client) :=
  match nodes with
  | [] => mret proxies
  | i :: nodes =>
      conn ← grpc_Dial (nodeAddress st i);
      match conn with
      | inl err => panic (PanicString err)
      | inr conn => dial_nodes st nodes (<[nodeName st i := conn]> proxies)
      end
  end.

Definition NewManager (st : Settings) (ex : E) : M S Manager :=
  proxies ← dial_nodes st (seqZ 0 (NodeCount st)) ∅;
  mret {| settings := st; extractor := ex; reverseProxies := proxies |}.

Fixpoint local_shards (st : Settings) (shards : list Z) : M S (list Z) :=
  match shards with
  | [] => mret []
  | shard :: shards =>
      nodeIndex ← go_rem shard (NodeCount st);
      rest ← local_shards st shards;
      mret (if nodeIndex =? NodeID st then shard :: rest else rest)
  end.

Definition LocalShards (m : Manager) : M S (list Z) :=
  local_shards (settings m) (seqZ 0 (ShardCount (extractor m))).

(** [(int, error)]: the index is -1 next to an error. *)
Definition resolveNode (m : Manager) (flowID : string) : M S (Z * option parse_error) :=
  shard ← ShardID (extractor m) flowID;
  match shard with
  | inl err => mret (-1, Some err)
  | inr shard => nodeIndex ← go_rem shard (NodeCount (settings m)); mret (nodeIndex, None)
  end.

(** A missing client is a nil interface value. *)
Definition GetClient (m : Manager) (flowID : string) : M S (parse_error + option client) :=
  '(idx, err) ← resolveNode m flowID;
  match err with
  | Some err => mret (inl err)
  | None => mret (inr (reverseProxies m !! nodeName (settings m) idx))
  end.

(** The clients of all nodes, in the order in which the map is ranged over. *)
Definition GetClients `{!MapOrder} (iteration : nat) (m : Manager) : list client :=
  omap (λ name, reverseProxies m !! name) (range_order iteration (map_to_list (reverseProxies m)).*1).

Definition shouldForward (m : Manager) (c : gin_Context) : M S (bool * string) :=
  let flowID := extractFlowID c in
  if (String.length flowID =? 0)%nat then mret (false, "") else
  '(nodeIndex, err) ← resolveNode m flowID;
  let name := nodeName (settings m) nodeIndex in
  match err with
  | Some _ => mret (false, "")
  | None => mret (if nodeIndex =? NodeID (settings m) then (false, name) else (true, name))
  end.

(** ** clusterProxy *)

(** What every method does with its request: find the client of the flow and
    call the same method there. *)
Definition forward (m : Manager) (cmd : Command) : M S (proxy_error + Response) :=
  c ← GetClient m (GetFlowId cmd);
  match c with
  | inl err => mret (inl (BadFlowId err))
  | inr c =>
      c ← deref c;
      r ← rpc c cmd;
      mret (match r with inl e => inl (Remote e) | inr r => inr r end)
  end.

Definition proxy_CreateGraph (m : Manager) (random : string + list Z) (r : CreateGraphRequest) :
    M S (proxy_error + Response) :=
  match NewRandom random with
  | inl err => mret (inl (NoRandom err))
  | inr flowID =>
      forward m (CCreateGraph {| create_FunctionId := create_FunctionId r; create_FlowId := String_ flowID |})
  end.

Definition proxy_AddStage (m : Manager) (r : AddStageRequest) := forward m (CAddStage r).
Definition proxy_AddValueStage (m : Manager) (r : AddCompletedValueStageRequest) :=
  forward m (CAddCompletedValueStage r).
Definition proxy_AddInvokeFunction (m : Manager) (r : AddInvokeFunctionStageRequest) :=
  forward m (CAddInvokeFunctionStage r).
Definition proxy_AddDelay (m : Manager) (r : AddDelayStageRequest) := forward m (CAddDelayStage r).
Definition proxy_AwaitStageResult (m : Manager) (r : AwaitStageResultRequest) := forward m (CAwaitStageResult r).
Definition proxy_CompleteStageExternally (m : Manager) (r : CompleteStageExternallyRequest) :=
  forward m (CCompleteStageExternally r).
Definition proxy_Commit (m : Manager) (flowId : string) := forward m (CCommitGraph flowId).
Definition proxy_GetGraphState (m : Manager) (flowId : string) := forward m (CGetGraphState flowId).

(** ** Lemmas *)

(** A client that [NewManager] put in the table was dialled at the address of
    its node. *)
Definition dialled (st : Settings) (i : Z) (c : client) : Prop :=
  ∃ s1 s2, grpc_Dial (nodeAddress st i) s1 = Ret (inr c) s2.

Lemma nodeName_inj st i j : nodeName st i = nodeName st j → i = j.
Proof. unfold nodeName, itoaZ. intros H%(inj _). by apply (inj pretty). Qed.

Lemma dial_nodes_table st nodes proxies s r s' :
  NoDup nodes → dial_nodes st nodes proxies s = Ret r s' →
  (∀ i, i ∈ nodes → ∃ c, r !! nodeName st i = Some c ∧ dialled st i c)
  ∧ (∀ i, i ∉ nodes → r !! nodeName st i = proxies !! nodeName st i).
Proof.
  revert proxies s. induction nodes as [|i nodes IH]; intros proxies s Hnd Hrun.
  { injection Hrun as -> ->. split; [|done]. intros i []%not_elem_of_nil. }
  apply NoDup_cons in Hnd as [Hni Hnd].
  simpl in Hrun. unfold mbind, M_bind in Hrun. destruct (grpc_Dial _ s) as [[err|c] s1| |] eqn:Hd; try done.
  destruct (IH _ _ Hnd Hrun) as [Hin Hout]. split.
  - intros j [->|Hj]%elem_of_cons; [|by apply Hin].
    exists c. rewrite Hout by done. rewrite lookup_insert_eq. split; [done|]. by exists s, s1.
  - intros j [Hne Hj]%not_elem_of_cons. rewrite Hout, lookup_insert_ne; [done| |done].
    intros Heq%nodeName_inj. congruence.
Qed.

Lemma local_shards_eq st shards (s : S) : NodeCount st ≠ 0 →
  local_shards st shards s = Ret (filter (λ shard, Z.rem shard (NodeCount st) = NodeID st) shards) s.
Proof.
  intros Hn. induction shards as [|x l IH]; [done|]. simpl. unfold go_rem, mbind, M_bind, mret, M_ret.
  destruct (Z.eqb_spec (NodeCount st) 0); [done|]. rewrite IH, filter_cons.
  destruct (Z.eqb_spec (Z.rem x (NodeCount st)) (NodeID st)), (decide (Z.rem x (NodeCount st) = NodeID st)); done.
Qed.

(** The shards of node [i], as [LocalShards] computes them there. *)
Definition shards_of (st : Settings) (ex : E) (i : Z) : list Z :=
  filter (λ shard, Z.rem shard (NodeCount st) = i) (seqZ 0 (ShardCount ex)).

Lemma LocalShards_eq m (s : S) : NodeCount (settings m) ≠ 0 →
  LocalShards m s = Ret (shards_of (settings m) (extractor m) (NodeID (settings m))) s.
Proof. apply local_shards_eq. Qed.

(** With no nodes at all there is no shard either, or the loop panics. *)
Lemma LocalShards_Ret m (s : S) shards s' :
  LocalShards m s = Ret shards s' → shards = shards_of (settings m) (extractor m) (NodeID (settings m)).
Proof.
  intros Hl. destruct (decide (NodeCount (settings m) = 0)) as [H0|Hn].
  - unfold LocalShards in Hl. unfold shards_of. destruct (seqZ 0 _) as [|x l]; [by injection Hl as <-|].
    cbn [local_shards] in Hl. unfold go_rem, mbind, M_bind in Hl. by rewrite H0 in Hl.
  - rewrite LocalShards_eq in Hl by done. by injection Hl as <- <-.
Qed.

Lemma elem_of_shards_of st ex i shard :
  shard ∈ shards_of st ex i ↔ 0 ≤ shard < ShardCount ex ∧ Z.rem shard (NodeCount st) = i.
Proof. unfold shards_of. rewrite list_elem_of_filter, elem_of_seqZ. lia. Qed.

Context (st : Settings) (ex : E) `{!ShardLaws ex}.

Lemma resolveNode_eq m flowID shard (s : S) :
  settings m = st → extractor m = ex → 0 < NodeCount st → shard_of flowID = inr shard →
  resolveNode m flowID s = Ret (Z.rem shard (NodeCount st), None) s.
Proof.
  intros <- <- Hn Hshard. unfold resolveNode, mbind, M_bind. rewrite ShardID_of, Hshard. unfold go_rem.
  destruct (Z.eqb_spec (NodeCount (settings m)) 0); [lia|done].
Qed.

Lemma NewManager_fields s m s' : NewManager st ex s = Ret m s' →
  settings m = st ∧ extractor m = ex
  ∧ ∀ i, 0 ≤ i < NodeCount st → ∃ c, reverseProxies m !! nodeName st i = Some c ∧ dialled st i c.
Proof.
  unfold NewManager, mbind, M_bind. destruct (dial_nodes _ _ _ s) as [t s1| |] eqn:Hd; [|done|done].
  intros [= <- <-]. simpl. split_and!; [done|done|]. intros i Hi.
  destruct (dial_nodes_table _ _ _ _ _ _ (NoDup_seqZ 0 (NodeCount st)) Hd) as [Hin _].
  apply Hin, elem_of_seqZ. lia.
Qed.

(** The nodes share out the shards: every shard is
    supervised by exactly one of the nodes of the cluster, and no node
    supervises a shard twice. *)
Theorem shards_partitioned :
  0 < NodeCount st →
  (∀ shard, 0 ≤ shard < ShardCount ex →
     ∃ i, 0 ≤ i < NodeCount st ∧ ∀ j proxies (s : S), ∃ shards,
       LocalShards {| settings := as_node j st; extractor := ex; reverseProxies := proxies |} s = Ret shards s
       ∧ NoDup shards ∧ (shard ∈ shards ↔ j = i)).
Proof.
  intros Hn shard Hs. exists (Z.rem shard (NodeCount st)).
  split; [by apply Z.rem_bound_pos; lia|]. intros j proxies s.
  exists (shards_of (as_node j st) ex j). rewrite LocalShards_eq by (simpl; lia).
  split_and!; [done|apply NoDup_filter, NoDup_seqZ|]. rewrite elem_of_shards_of. simpl. split; [by intros [_ ->]|auto].
Qed.

(** The route of a flow: a node, its client, and the shard it supervises. *)
Lemma GetClient_route s m s' flowID u :
  0 < NodeCount st → NewManager st ex s = Ret m s' → Parse flowID = inr u →
  ∃ shard c, shard_of flowID = inr shard ∧ 0 ≤ shard < ShardCount ex
    ∧ dialled st (Z.rem shard (NodeCount st)) c
    ∧ ∀ t : S, GetClient m flowID t = Ret (inr (Some c)) t.
Proof.
  intros Hn Hm Hp. destruct (shard_of_uuid _ _ Hp) as [shard Hshard].
  pose proof (shard_of_range _ _ Hshard) as Hr. destruct (NewManager_fields _ _ _ Hm) as (Hst & Hex & Htab).
  destruct (Htab (Z.rem shard (NodeCount st))) as (c & Hc & Hd); [by apply Z.rem_bound_pos; lia|].
  exists shard, c. split_and!; [done|lia|lia|done|].
  intros t. unfold GetClient, mbind, M_bind. rewrite (resolveNode_eq _ _ shard) by done. by rewrite Hst, Hc.
Qed.

(** Once the manager has connected to all nodes, the client
    it returns for a flow is the one dialled at the address of the node whose
    [LocalShards] contain the flow's shard: a request reaches the node that
    supervises the flow, whichever node it enters through. *)
Theorem routed_to_owner s m s' flowID u :
  0 < NodeCount st → NewManager st ex s = Ret m s' → Parse flowID = inr u →
  ∃ i c shard, 0 ≤ i < NodeCount st ∧ dialled st i c
    ∧ (∀ t : S, GetClient m flowID t = Ret (inr (Some c)) t)
    ∧ (∀ t : S, ShardID ex flowID t = Ret (inr shard) t)
    ∧ ∀ proxies (t : S), ∃ shards,
        LocalShards {| settings := as_node i st; extractor := ex; reverseProxies := proxies |} t = Ret shards t
        ∧ shard ∈ shards.
Proof.
  intros Hn Hm Hp. destruct (GetClient_route _ _ _ _ _ Hn Hm Hp) as (shard & c & Hshard & Hr & Hd & Hget).
  set (i := Z.rem shard (NodeCount st)) in *. exists i, c, shard.
  split_and!; [by apply Z.rem_bound_pos; lia|by apply Z.rem_bound_pos; lia|done|done| |].
  - intros t. by rewrite ShardID_of, Hshard.
  - intros proxies t. exists (shards_of (as_node i st) ex i).
    rewrite LocalShards_eq by (simpl; lia). split; [done|]. by apply elem_of_shards_of.
Qed.

(** What is sent back for a request that is passed on to a client. *)
Definition relayed (c : client) (cmd : Command) : M S (proxy_error + Response) :=
  r ← rpc c cmd; mret (match r with inl e => inl (Remote e) | inr r => inr r end).

(** C26: creating a flow through the proxy never fails for want of a route. The
    flow gets the UUID with the random bits drawn (all but the six that mark the
    version), and the request, with that id in place of the caller's, is sent to
    the node whose [LocalShards] have the shard of the id; there every later
    request for that id is sent too, unchanged, by every method. *)
Theorem flow_affinity s m s' r bytes :
  0 < NodeCount st → NewManager st ex s = Ret m s' → valid_uuid bytes →
  ∃ u i c shard, let flowID := String_ u in
    Parse flowID = inr u ∧ random_bits bytes u
    ∧ dialled st i c ∧ (∀ t : S, ShardID ex flowID t = Ret (inr shard) t)
    ∧ (∀ proxies (t : S), ∃ shards,
         LocalShards {| settings := as_node i st; extractor := ex; reverseProxies := proxies |} t = Ret shards t
         ∧ shard ∈ shards)
    ∧ (∀ t : S, proxy_CreateGraph m (inr bytes) r t =
         relayed c (CCreateGraph {| create_FunctionId := create_FunctionId r; create_FlowId := flowID |}) t)
    ∧ (∀ r (t : S), add_FlowId r = flowID → proxy_AddStage m r t = relayed c (CAddStage r) t)
    ∧ (∀ r (t : S), value_FlowId r = flowID → proxy_AddValueStage m r t = relayed c (CAddCompletedValueStage r) t)
    ∧ (∀ r (t : S), invoke_FlowId r = flowID → proxy_AddInvokeFunction m r t = relayed c (CAddInvokeFunctionStage r) t)
    ∧ (∀ r (t : S), adddelay_FlowId r = flowID → proxy_AddDelay m r t = relayed c (CAddDelayStage r) t)
    ∧ (∀ r (t : S), await_FlowId r = flowID → proxy_AwaitStageResult m r t = relayed c (CAwaitStageResult r) t)
    ∧ (∀ r (t : S), ext_FlowId r = flowID →
         proxy_CompleteStageExternally m r t = relayed c (CCompleteStageExternally r) t)
    ∧ (∀ t : S, proxy_Commit m flowID t = relayed c (CCommitGraph flowID) t)
    ∧ (∀ t : S, proxy_GetGraphState m flowID t = relayed c (CGetGraphState flowID) t).
Proof.
  intros Hn Hm Hb. destruct (NewRandom (inr bytes : string + list Z)) as [|u] eqn:Hu; [done|].
  assert (valid_uuid u) as Hv by (by eapply NewRandom_valid).
  destruct (GetClient_route _ _ _ (String_ u) u Hn Hm (Parse_text u Hv)) as (shard & c & Hshard & Hr & Hd & Hget).
  assert (∀ cmd (t : S), GetFlowId cmd = String_ u → forward m cmd t = relayed c cmd t) as Hfwd.
  { intros cmd t Hf. unfold forward, mbind at 1, M_bind at 1. by rewrite Hf, Hget. }
  exists u, (Z.rem shard (NodeCount st)), c, shard. split_and!; try (by intros; apply Hfwd).
  - by apply Parse_text.
  - by eapply NewRandom_bits.
  - done.
  - intros t. by rewrite ShardID_of, Hshard.
  - intros proxies t. exists (shards_of (as_node (Z.rem shard (NodeCount st)) st) ex (Z.rem shard (NodeCount st))).
    rewrite LocalShards_eq by (simpl; lia). split; [done|]. by apply elem_of_shards_of.
  - intros t. unfold proxy_CreateGraph. rewrite Hu. by apply Hfwd.
Qed.

(** [shouldForward] answers true exactly when another node
    supervises the flow, and then names that node. *)
Theorem forwards_elsewhere s m s' c shard :
  0 < NodeCount st → NewManager st ex s = Ret m s' →
  extractFlowID c ≠ "" → shard_of (extractFlowID c) = inr shard →
  ∀ t : S, ∃ b i, shouldForward m c t = Ret (b, nodeName st i) t
    ∧ shard ∈ shards_of st ex i ∧ (b = true ↔ i ≠ NodeID st).
Proof.
  intros Hn Hm Hne Hshard t. destruct (NewManager_fields _ _ _ Hm) as (Hst & Hex & _).
  exists (negb (Z.rem shard (NodeCount st) =? NodeID st)), (Z.rem shard (NodeCount st)).
  pose proof (shard_of_range _ _ Hshard). split_and!.
  - unfold shouldForward. destruct (extractFlowID c) as [|a str] eqn:Hf; [done|]. simpl.
    unfold mbind, M_bind. rewrite (resolveNode_eq _ _ shard) by done. rewrite Hst. by destruct (_ =? _).
  - by apply elem_of_shards_of.
  - destruct (Z.eqb_spec (Z.rem shard (NodeCount st)) (NodeID st)); simpl; naive_solver.
Qed.
End cluster.
Arguments Manager : clear implicits.

(** ** A cluster of three nodes and seven shards *)

Definition three_nodes : Settings :=
  {| NodeCount := 3; NodeID := 0; NodePrefix := "node-"; NodePort := 19081 |}.
Definition seven_shards : fixedSizeShardExtractor := NewFixedSizeExtractor 7.
(** A dialler that always succeeds, the client being the address it was
    given. *)
Definition dial_ok (address : string) : M unit (string + string) := mret (inr address).
Definition echo (client : string) (cmd : Command) : M unit (status_error + Response) :=
  mret (inr (RGraphRequestProcessed client)).

Definition sample_manager : Manager fixedSizeShardExtractor string :=
  {| settings := three_nodes; extractor := seven_shards;
     reverseProxies := {[ "node-0" := "localhost:19081"; "node-1" := "node-1:19081"; "node-2" := "node-2:19081" ]} |}.

Example sample_NewManager : NewManager dial_ok three_nodes seven_shards tt = Ret sample_manager tt.
Proof. vm_compute. reflexivity. Qed.

Lemma sample_uuid_valid : valid_uuid sample_uuid.
Proof. split; [reflexivity|]. unfold sample_uuid, is_byte. repeat (constructor; [lia|]). constructor. Qed.

Lemma shards_partitioned_witness :
  ∃ i, 0 ≤ i < 3 ∧ ∀ j proxies (s : unit), ∃ shards,
    LocalShards (client := string) {| settings := as_node j three_nodes; extractor := seven_shards;
      reverseProxies := proxies |} s = Ret shards s ∧ NoDup shards ∧ (5 ∈ shards ↔ j = i).
Proof. exact (shards_partitioned three_nodes seven_shards ltac:(reflexivity) 5 ltac:(vm_compute; split; congruence)). Defined.

Lemma routed_to_owner_witness :
  ∃ i c shard, 0 ≤ i < 3 ∧ dialled dial_ok three_nodes i c
    ∧ (∀ t : unit, GetClient sample_manager (String_ sample_uuid) t = Ret (inr (Some c)) t)
    ∧ (∀ t : unit, ShardID seven_shards (String_ sample_uuid) t = Ret (inr shard) t)
    ∧ ∀ proxies (t : unit), ∃ shards,
        LocalShards (client := string) {| settings := as_node i three_nodes; extractor := seven_shards;
          reverseProxies := proxies |} t = Ret shards t ∧ shard ∈ shards.
Proof.
  apply (routed_to_owner dial_ok three_nodes seven_shards tt sample_manager tt (String_ sample_uuid) sample_uuid);
    [simpl; lia|vm_compute; reflexivity|vm_compute; reflexivity].
Defined.

Lemma flow_affinity_witness :
  ∃ u i c, random_bits sample_uuid u ∧ dialled dial_ok three_nodes i c
    ∧ (∀ t : unit, proxy_CreateGraph echo sample_manager (inr sample_uuid)
         {| create_FunctionId := "fn"; create_FlowId := "" |} t =
         relayed echo c (CCreateGraph {| create_FunctionId := "fn"; create_FlowId := String_ u |}) t)
    ∧ (∀ t : unit, proxy_Commit echo sample_manager (String_ u) t = relayed echo c (CCommitGraph (String_ u)) t).
Proof.
  destruct (flow_affinity dial_ok echo three_nodes seven_shards tt sample_manager tt
    {| create_FunctionId := "fn"; create_FlowId := "" |} sample_uuid)
    as (u & i & c & _ & _ & Hbits & Hd & _ & _ & Hc & _ & _ & _ & _ & _ & _ & Hcommit & _).
  - simpl. lia.
  - vm_compute. reflexivity.
  - split; [reflexivity|]. unfold sample_uuid, is_byte. repeat (constructor; [lia|]). constructor.
  - exists u, i, c. split_and!; [exact Hbits|exact Hd|exact Hc|exact Hcommit].
Defined.

Definition sample_context : gin_Context :=
  {| gin_Path := "/graph"; gin_Query := λ _, String_ sample_uuid; gin_Param := λ _, "" |}.

Lemma forwards_elsewhere_witness :
  ∃ b i, shouldForward sample_manager sample_context tt = Ret (b, nodeName three_nodes i) tt
    ∧ uuid_shard 7 sample_uuid ∈ shards_of three_nodes seven_shards i ∧ (b = true ↔ i ≠ NodeID three_nodes).
Proof.
  apply (forwards_elsewhere dial_ok three_nodes seven_shards tt sample_manager tt sample_context
    (uuid_shard 7 sample_uuid)); [simpl; lia|vm_compute; reflexivity|vm_compute; congruence|vm_compute; reflexivity].
Defined.
