(* ===== verification/ClusterStream.v ===== *)
(** * Merging the lifecycle streams of all nodes (src/cluster/cluster_proxy.go)

    [clusterProxy.StreamLifecycle] starts one goroutine per node. Each opens
    the stream of its node and hands the events it receives, through an
    unbuffered channel, to the main loop, which sends them on to the caller; an
    error goes into a buffered channel with room for one error per node and
    ends the call. The goroutines interleave freely, so the component is a
    transition system: one rule per communication, the outcomes of the
    network calls ([StreamLifecycle], [Recv], [Send], cancellation) being
    chosen by the environment. [StreamEvents] relays one stream and is
    sequential. *)

From S2P Require Import Prelude Model Sharding Cluster.

Definition lifecycle_event : Type := GraphLifecycleEvent.

(** Where the goroutine of one node is. *)
Inductive goroutine :=
  | Connecting                         (** in [client.StreamLifecycle] *)
  | Receiving                          (** in [inStream.Recv] *)
  | Offering (event : lifecycle_event) (** in the select on [done] and [events] *)
  | Failing (err : status_error)       (** in [errors <- err] *)
  | Finished.

(** The main loop: in its select, or returned. [done] is closed on return. *)
Inductive main_loop := Selecting | Returned (err : option status_error).

Record merge := {
  gs : list goroutine;
  errors : list status_error;                  (** contents of the channel [errors] *)
  loop : main_loop;
  received : list (list lifecycle_event);      (** by node: what its [Recv] delivered *)
  sent : list (nat * lifecycle_event);         (** what [stream.Send] accepted, with the node it came from *)
}.

Definition set_g (i : nat) (g : goroutine) (m : merge) : merge :=
  {| gs := <[i := g]> (gs m); errors := errors m; loop := loop m; received := received m; sent := sent m |}.

(** The state after the goroutines have been started for [n] clients. *)
Definition started (n : nat) : merge :=
  {| gs := replicate n Connecting; errors := []; loop := Selecting; received := replicate n []; sent := [] |}.

(** [clusterProxy.StreamLifecycle] up to its main loop; [GetClients] has no
    error to return. *)
Definition proxy_StreamLifecycle {E client} `{!MapOrder} (iteration : nat) (m : Manager E client) : merge :=
  started (length (GetClients iteration m)).

Lemma omap_lookup_keys {A} (m : gmap string A) (l : list (string * A)) :
  (∀ k a, (k, a) ∈ l → m !! k = Some a) → omap (λ k, m !! k) l.*1 = l.*2.
Proof.
  induction l as [|[k a] l IH]; intros Hl; [done|]. simpl. rewrite (Hl k a) by left. simpl.
  f_equal. apply IH. intros k' a' ?. apply Hl. by right.
Qed.
(** One goroutine for each node, whatever the order of the map. *)
Lemma StreamLifecycle_every_node {E client} `{!MapOrder} iteration (m : Manager E client) :
  length (gs (proxy_StreamLifecycle iteration m)) = size (reverseProxies m).
Proof.
  simpl. rewrite length_replicate. unfold GetClients.
  rewrite (omap_Permutation _ _ _ (range_order_perm iteration _)), omap_lookup_keys.
  - by rewrite length_fmap, length_map_to_list.
  - intros k a. apply elem_of_map_to_list.
Qed.

(** [make(chan error, len(clients))] *)
Definition errors_cap (m : merge) : nat := length (gs m).

Inductive merge_step : merge → merge → Prop :=
  | connect_ok m i : gs m !! i = Some Connecting → merge_step m (set_g i Receiving m)
  | connect_fail m i e : gs m !! i = Some Connecting → merge_step m (set_g i (Failing e) m)
  | recv_ok m i ev : gs m !! i = Some Receiving →
      merge_step m {| gs := <[i := Offering ev]> (gs m); errors := errors m; loop := loop m;
                      received := alter (λ l, l ++ [ev]) i (received m); sent := sent m |}
  | recv_fail m i e : gs m !! i = Some Receiving → merge_step m (set_g i (Failing e) m)
  | push_error m i e : gs m !! i = Some (Failing e) → length (errors m) < errors_cap m →
      merge_step m {| gs := <[i := Finished]> (gs m); errors := errors m ++ [e]; loop := loop m;
                      received := received m; sent := sent m |}
  | done_closed m i ev r : gs m !! i = Some (Offering ev) → loop m = Returned r →
      merge_step m (set_g i Finished m)
  | send_ok m i ev : gs m !! i = Some (Offering ev) → loop m = Selecting →
      merge_step m {| gs := <[i := Receiving]> (gs m); errors := errors m; loop := Selecting;
                      received := received m; sent := sent m ++ [(i, ev)] |}
  | send_fail m i ev e : gs m !! i = Some (Offering ev) → loop m = Selecting →
      merge_step m {| gs := <[i := Receiving]> (gs m); errors := errors m; loop := Returned (Some e);
                      received := received m; sent := sent m |}
  | take_error m e es : errors m = e :: es → loop m = Selecting →
      merge_step m {| gs := gs m; errors := es; loop := Returned (Some e);
                      received := received m; sent := sent m |}
  | cancelled m : loop m = Selecting →
      merge_step m {| gs := gs m; errors := errors m; loop := Returned None;
                      received := received m; sent := sent m |}.

(** ** Invariants *)

Definition is_finished (g : goroutine) : Prop := g = Finished.
#[export] Instance is_finished_dec g : Decision (is_finished g).
Proof. destruct g; (by left) || (by right). Defined.

Definition sent_from (i : nat) (m : merge) : list lifecycle_event :=
  (filter (λ p, p.1 = i) (sent m)).*2.

(** The event of node [i] that is between [Recv] and [Send]. *)
Definition in_flight (g : goroutine) : list lifecycle_event :=
  match g with Offering ev => [ev] | _ => [] end.

Record merge_inv (n : nat) (m : merge) : Prop := {
  mi_gs : length (gs m) = n;
  mi_received : length (received m) = n;
  (** every error was put in by a goroutine that has finished *)
  mi_errors : length (errors m) ≤ length (filter is_finished (gs m));
  (** while the loop runs nothing is lost *)
  mi_flow : loop m = Selecting → ∀ i g l, gs m !! i = Some g → received m !! i = Some l →
    l = sent_from i m ++ in_flight g;
  mi_prefix : ∀ i l, received m !! i = Some l → sent_from i m `prefix_of` l;
}.

Lemma finished_insert l i g h : l !! i = Some h → ¬ is_finished h →
  length (filter is_finished (<[i := g]> l))
  = length (filter is_finished l) + (if decide (is_finished g) then 1 else 0).
Proof.
  intros Hi Hh. rewrite insert_take_drop by (by eapply lookup_lt_Some).
  rewrite <- (take_drop_middle l i h Hi) at 3. rewrite !filter_app, !length_app, !filter_cons.
  rewrite (decide_False (P := is_finished h)) by done. destruct (decide (is_finished g)); simpl; lia.
Qed.

Lemma failing_has_room l i h : l !! i = Some h → ¬ is_finished h → length (filter is_finished l) < length l.
Proof. intros Hi Hh. eapply length_filter_lt; [|exact Hh]. by eapply list_elem_of_lookup_2. Qed.

Lemma sent_from_app (i : nat) ps p : (filter (λ q, q.1 = i) (ps ++ [p])).*2
  = (filter (λ q, q.1 = i) ps).*2 ++ (if decide (p.1 = i) then [p.2] else []) :> list lifecycle_event.
Proof. rewrite filter_app, fmap_app, filter_cons, filter_nil. by destruct (decide (p.1 = i)). Qed.

Lemma merge_inv_started n : merge_inv n (started n).
Proof.
  split; simpl; [by rewrite length_replicate|by rewrite length_replicate|lia| |].
  - by intros _ i g l [-> _]%lookup_replicate [-> _]%lookup_replicate.
  - by intros i l [-> _]%lookup_replicate.
Qed.

(** A goroutine moves on without an event changing hands. *)
Lemma merge_inv_move n m i g h es :
  merge_inv n m → gs m !! i = Some h → ¬ is_finished h →
  length es ≤ length (errors m) + (if decide (is_finished g) then 1 else 0) →
  (loop m = Selecting → in_flight g = in_flight h) →
  merge_inv n {| gs := <[i := g]> (gs m); errors := es; loop := loop m; received := received m; sent := sent m |}.
Proof.
  intros [Hg Hr He Hf Hp] Hi Hh Hes Hin. split; simpl; [by rewrite length_insert|done| | |done].
  - rewrite (finished_insert _ _ _ h) by done. lia.
  - intros Hl j g' l [[-> [<- _]]|[Hne Hj]]%list_lookup_insert_Some Hrj; [|by apply Hf].
    rewrite Hin by done. by apply Hf.
Qed.

Lemma merge_inv_step n m m' : merge_inv n m → merge_step m m' → merge_inv n m'.
Proof.
  intros Hm Hstep. pose proof Hm as [Hg Hr He Hf Hp]. inversion Hstep; subst; clear Hstep.
  - eapply merge_inv_move; try done. simpl. lia.
  - eapply merge_inv_move; try done. simpl. lia.
  - split; simpl; [by rewrite length_insert|by rewrite length_alter| | |].
    + rewrite (finished_insert _ _ _ Receiving) by done. simpl. lia.
    + intros Hl j g' l Hj Hrj. rewrite list_lookup_alter in Hrj.
      destruct (decide (i = j)) as [->|Hne].
      * rewrite list_lookup_insert_eq in Hj by (by eapply lookup_lt_Some). simplify_eq/=.
        apply fmap_Some in Hrj as (l0 & Hl0 & ->). by rewrite (Hf Hl _ _ _ H Hl0), app_nil_r.
      * rewrite list_lookup_insert_ne in Hj by done. by apply Hf.
    + intros j l Hrj. rewrite list_lookup_alter in Hrj. destruct (decide (i = j)) as [->|Hne]; [|by apply Hp].
      apply fmap_Some in Hrj as (l0 & Hl0 & ->). by apply prefix_app_r, Hp.
  - eapply merge_inv_move; try done. simpl. lia.
  - eapply merge_inv_move; try done. rewrite length_app. simpl. lia.
  - eapply merge_inv_move; try done; [simpl; lia|congruence].
  - split; simpl; [by rewrite length_insert|done| | |].
    + rewrite (finished_insert _ _ _ (Offering ev)) by done. simpl. lia.
    + intros _ j g' l Hj Hrj. unfold sent_from; simpl. rewrite sent_from_app. simpl.
      destruct (decide (i = j)) as [->|Hne].
      * rewrite list_lookup_insert_eq in Hj by (by eapply lookup_lt_Some). simplify_eq/=.
        rewrite app_nil_r. by apply (Hf ltac:(done) _ _ _ H Hrj).
      * rewrite list_lookup_insert_ne in Hj by done. rewrite app_nil_r. by apply Hf.
    + intros j l Hrj. unfold sent_from; simpl. rewrite sent_from_app. simpl.
      destruct (decide (i = j)) as [->|Hne]; [|rewrite app_nil_r; by apply Hp].
      by rewrite (Hf ltac:(done) _ _ _ H Hrj).
  - split; simpl; [by rewrite length_insert|done| |done|done].
    rewrite (finished_insert _ _ _ (Offering ev)) by done. simpl. lia.
  - split; simpl; [done|done| |done|done]. rewrite H in He. simpl in He. lia.
  - split; simpl; [done|done|done|done|done].
Qed.

Lemma merge_inv_reachable n m : rtc merge_step (started n) m → merge_inv n m.
Proof.
  intros Hm. assert (merge_inv n (started n)) as Hi by apply merge_inv_started. revert Hi.
  induction Hm as [|x y z Hxy _ IH]; [done|]. intros Hx. by apply IH, (merge_inv_step _ x).
Qed.

(** C30: however the goroutines interleave, what the caller of
    [StreamLifecycle] has been sent from a node is, in order and without
    duplicates or gaps, a prefix of what that node's stream delivered; while
    the call runs it is all of it but for the one event in flight. *)
Theorem merge_in_order n m i g l :
  rtc merge_step (started n) m → gs m !! i = Some g → received m !! i = Some l →
  sent_from i m `prefix_of` l ∧ (loop m = Selecting → l = sent_from i m ++ in_flight g).
Proof.
  intros Hm Hg Hl. apply merge_inv_reachable in Hm as [_ _ _ Hf Hp]. split; [by apply Hp|].
  intros Hloop. by apply Hf.
Qed.

(** No goroutine of [StreamLifecycle] can get stuck in the
    service itself: one that has an error always finds room for it in the
    channel, and one that holds an event when the call has returned ends. *)
Theorem merge_no_leak n m i g :
  rtc merge_step (started n) m → gs m !! i = Some g →
  match g with
  | Failing _ => ∃ m', merge_step m m' ∧ gs m' !! i = Some Finished
  | Offering _ => loop m ≠ Selecting → ∃ m', merge_step m m' ∧ gs m' !! i = Some Finished
  | _ => True
  end.
Proof.
  intros Hm Hg. apply merge_inv_reachable in Hm as [Hlen _ He _ _]. pose proof (lookup_lt_Some _ _ _ Hg) as Hlt.
  destruct g as [| |ev|e|]; try done.
  - intros Hloop. destruct (loop m) as [|r] eqn:Hr; [done|].
    eexists. split; [by eapply done_closed|]. simpl. by rewrite list_lookup_insert_eq.
  - eexists. split.
    + eapply push_error; [done|]. unfold errors_cap.
      pose proof (failing_has_room _ _ _ Hg ltac:(by intros [=])). lia.
    + simpl. by rewrite list_lookup_insert_eq.
Qed.

(** ** StreamEvents: one remote stream relayed *)

(** [remote] lists what successive calls of [remoteStream.Recv] return and
    [sends] whether the successive calls of [stream.Send] fail. The result is
    the events sent and the error the call ends with; no error when the
    outcomes listed are used up, the call then being blocked in [Recv]. *)
Fixpoint relay (remote : list (status_error + GraphStreamEvent)) (sends : list (option status_error)) :
    list GraphStreamEvent * option status_error :=
  match remote with
  | [] => ([], None)
  | inl err :: _ => ([], Some err)
  | inr event :: remote =>
      match sends with
      | Some err :: _ => ([], Some err)
      | None :: sends => let '(out, r) := relay remote sends in (event :: out, r)
      | [] => ([], None)
      end
  end.

Definition proxy_StreamEvents (opened : status_error + list (status_error + GraphStreamEvent))
    (sends : list (option status_error)) : list GraphStreamEvent * option status_error :=
  match opened with inl err => ([], Some err) | inr remote => relay remote sends end.

(** The events sent are a prefix of the events received, and all of them when
    no send failed. *)
Lemma relay_prefix remote sends :
  ∃ k, (relay remote sends).1 = take k (omap (λ r, match r with inr e => Some e | inl _ => None end) remote).
Proof.
  revert sends. induction remote as [|[err|ev] remote IH]; intros sends; [by exists 0|by exists 0|].
  destruct sends as [|[err|] sends]; [by exists 0|by exists 0|].
  destruct (IH sends) as [k Hk]. exists (S k). simpl. destruct (relay remote sends); simpl in *. by rewrite Hk.
Qed.

(** ** Two nodes: one event passed on, then an error *)

Definition sample_lifecycle : lifecycle_event :=
  {| life_FlowId := "flow"; life_Seq := 0; life_Val := None |}.
Definition sample_error : status_error := Errorf Unknown "EOF".

Definition m1 : merge := set_g 0 Receiving (started 2).
Definition m2 : merge :=
  {| gs := [Offering sample_lifecycle; Connecting]; errors := []; loop := Selecting;
     received := [[sample_lifecycle]; []]; sent := [] |}.
Definition m3 : merge :=
  {| gs := [Receiving; Connecting]; errors := []; loop := Selecting;
     received := [[sample_lifecycle]; []]; sent := [(0, sample_lifecycle)] |}.
Definition m4 : merge := set_g 1 (Failing sample_error) m3.

Lemma sample_merge : rtc merge_step (started 2) m4.
Proof.
  apply (rtc_l _ _ m1); [by apply (connect_ok (started 2) 0)|].
  apply (rtc_l _ _ m2); [by apply (recv_ok m1 0)|].
  apply (rtc_l _ _ m3); [by apply (send_ok m2 0)|].
  apply rtc_once. by apply (connect_fail m3 1).
Qed.

Lemma merge_in_order_witness :
  sent_from 0 m4 `prefix_of` [sample_lifecycle]
  ∧ (loop m4 = Selecting → [sample_lifecycle] = sent_from 0 m4 ++ in_flight Receiving).
Proof. exact (merge_in_order 2 m4 0 Receiving [sample_lifecycle] sample_merge eq_refl eq_refl). Defined.

Lemma merge_no_leak_witness : ∃ m', merge_step m4 m' ∧ gs m' !! 1 = Some Finished.
Proof. exact (merge_no_leak 2 m4 1 (Failing sample_error) sample_merge eq_refl). Defined.
