(* ===== verification/Setup.v ===== *)
(** * Configuration of a node (src/setup/setup.go)

    The part of [InitFromEnv] that reads the cluster settings from the
    environment and wires the shard extractor, the cluster manager and the
    local shards together. The environment is a finite map and a working directory; [os.Getenv]
    gives the empty string for a variable that is not set. *)

From S2P Require Import Prelude Uuid Sharding Cluster.
Local Open Scope Z_scope.

(** ** Reading the configuration *)

Definition slashes (s : string) : string :=
  string_of ((λ b, if b =? 92 then 47 else b) <$> bytes_of s).

(** The variables and the working directory of the process. *)
Record environment := { variables : gmap string string; Getwd : string }.

Definition Getenv (env : environment) (key : string) : string := default "" (variables env !! key).

Definition setDefaultConfig (key val : string) (m : gmap string string) : gmap string string := <[key := val]> m.

(** [configDefaults] after the calls of [setDefaultConfig] in [InitFromEnv]. *)
Definition configDefaults (env : environment) : gmap string string :=
  foldl (λ m '(key, val), setDefaultConfig key val m) ∅
    [ ("API_URL", "http://localhost:8080/invoke");
      ("DB_URL", "sqlite3://" +:+ slashes (Getwd env) +:+ "/data/flow.db");
      ("LOG_LEVEL", "info"); ("LISTEN", ":8081"); ("GRPC_LISTEN", "127.0.0.1:9999");
      ("SNAPSHOT_INTERVAL", "1000"); ("REQUEST_TIMEOUT", "60000ms");
      ("CLUSTER_NODE_COUNT", "1"); ("CLUSTER_SHARD_COUNT", "1"); ("CLUSTER_NODE_PREFIX", "node-");
      ("CLUSTER_NODE_ID", "0"); ("CLUSTER_NODE_PORT", "19081") ].

Definition getStringConfig (env : environment) (key : string) : string :=
  let val := Getenv env key in
  if String.eqb val "" then default "" (configDefaults env !! key) else val.

Definition dquote : string := String.String (Ascii.ascii_of_nat 34) EmptyString.

Definition getIntConfig {S} (env : environment) (key : string) : M S Z :=
  let stringVal := getStringConfig env key in
  match Atoi stringVal with
  | Some intVal => mret intVal
  | None => panic (PanicString ("parameter " +:+ key +:+ " with val " +:+ dquote +:+ stringVal
                                +:+ dquote +:+ " could not be converted to an int"))
  end.

(** The snapshot interval of [initStorageFromEnv]. *)
Definition snapshotInterval (env : environment) : Z :=
  default 1000 (Atoi (getStringConfig env "SNAPSHOT_INTERVAL")).

Definition shard_count {S} (env : environment) (nodeCount : Z) : M S Z :=
  if (String.length (getStringConfig env "CLUSTER_SHARD_COUNT") =? 0)%nat
  then mret (int64 (10 * nodeCount))
  else getIntConfig env "CLUSTER_SHARD_COUNT".

Section setup.
Context {S client : Type} (grpc_Dial : string → M S (string + client)).

(** From the settings to the shards this node supervises. *)
Definition init_cluster (env : environment) : M S (Manager fixedSizeShardExtractor client * list Z) :=
  nodeCount ← getIntConfig env "CLUSTER_NODE_COUNT";
  shardCount ← shard_count env nodeCount;
  let shardExtractor := NewFixedSizeExtractor shardCount in
  nodeID ← getIntConfig env "CLUSTER_NODE_ID";
  nodePort ← getIntConfig env "CLUSTER_NODE_PORT";
  clusterManager ← NewManager grpc_Dial
    {| NodeCount := nodeCount; NodeID := nodeID;
       NodePrefix := getStringConfig env "CLUSTER_NODE_PREFIX"; NodePort := nodePort |} shardExtractor;
  shards ← LocalShards clusterManager;
  mret (clusterManager, shards).

(** The settings that a run of [init_cluster] ends with. *)
Lemma init_cluster_settings env s m shards s' :
  init_cluster env s = Ret (m, shards) s' →
  ∃ s1 s2 : S, getIntConfig env "CLUSTER_SHARD_COUNT" s1 = Ret (ShardCount (extractor m)) s1
    ∧ getIntConfig env "CLUSTER_NODE_COUNT" s2 = Ret (NodeCount (settings m)) s2
    ∧ shards = shards_of (settings m) (extractor m) (NodeID (settings m)).
Proof.
  unfold init_cluster, mbind, M_bind, shard_count, getIntConfig.
  destruct (Atoi (getStringConfig env "CLUSTER_NODE_COUNT")) as [nc|] eqn:Hnc; [|done]. simpl.
  assert (∃ a str, getStringConfig env "CLUSTER_SHARD_COUNT" = String.String a str) as (a & str & Heq).
  { unfold getStringConfig. destruct (Getenv env _) as [|a str]; simpl; eauto. }
  rewrite Heq. simpl String.length. cbn [Nat.eqb].
  destruct (Atoi (String.String a str)) as [sc|] eqn:Hsc; [|done]. simpl.
  destruct (Atoi (getStringConfig env "CLUSTER_NODE_ID")) as [ni|]; [|done]. simpl.
  destruct (Atoi (getStringConfig env "CLUSTER_NODE_PORT")) as [np|]; [|done]. simpl.
  destruct (NewManager _ _ _ s) as [m' s1| |] eqn:Hm; [|done|done].
  destruct (LocalShards m' s1) as [sh s2| |] eqn:Hl; [|done|done]. intros [= -> -> ->].
  unfold NewManager, mbind, M_bind in Hm. destruct (dial_nodes _ _ _ _ s) as [t s3| |]; [|done|done].
  injection Hm as <- <-. exists s, s. simpl. split_and!; [done|done|].
  by apply LocalShards_Ret in Hl.
Qed.

(** The shard count is never derived from the
    number of nodes: since [CLUSTER_SHARD_COUNT] has a default, the branch for
    ten shards per node is dead, and with the variable unset a cluster of any
    size has one shard, so every node but node 0 supervises nothing. *)
Theorem shard_count_ignores_nodes env s m shards s' :
  Getenv env "CLUSTER_SHARD_COUNT" = "" → init_cluster env s = Ret (m, shards) s' →
  ShardCount (extractor m) = 1
  ∧ (NodeCount (settings m) ≠ 0 → NodeID (settings m) ≠ 0 → shards = []).
Proof.
  intros Hunset Hrun. apply init_cluster_settings in Hrun as (s1 & s2 & Hsc & _ & Hsh).
  unfold getIntConfig, getStringConfig in Hsc. rewrite Hunset in Hsc.
  assert (ShardCount (extractor m) = 1) as H1 by (vm_compute in Hsc; injection Hsc; done).
  split; [done|]. intros Hn Hid. rewrite Hsh. unfold shards_of. rewrite H1.
  change (seqZ 0 1) with [0]. rewrite filter_cons, decide_False; [done|]. rewrite Z.rem_0_l by done. congruence.
Qed.
End setup.

(** Node 1 of a cluster of three nodes with no shard count set. *)
Definition sample_env : environment :=
  {| variables := {[ "CLUSTER_NODE_COUNT" := "3"; "CLUSTER_NODE_ID" := "1" ]}; Getwd := "/app" |}.
Definition sample_node : Manager fixedSizeShardExtractor string :=
  {| settings := as_node 1 three_nodes; extractor := NewFixedSizeExtractor 1;
     reverseProxies := {[ "node-0" := "node-0:19081"; "node-1" := "localhost:19081"; "node-2" := "node-2:19081" ]} |}.

Lemma shard_count_ignores_nodes_witness :
  ShardCount (extractor sample_node) = 1
  ∧ (NodeCount (settings sample_node) ≠ 0 → NodeID (settings sample_node) ≠ 0 → @nil Z = []).
Proof.
  apply (shard_count_ignores_nodes dial_ok sample_env tt sample_node [] tt); vm_compute; reflexivity.
Defined.
