(* ===== verification/Api.v ===== *)
(** * The node-local service (src/actor/api.go)

    [actorManager] serves the requests for the flows of the node's own shards:
    it finds the supervisor of the flow's shard, sends it the request, waits
    for the reply with a timeout, and asserts the type of the reply. The
    actor library is a parameter: [spawn] starts a named actor and [ask] is
    [RequestFuture(...).Result()]. Durations are nanoseconds. *)

From S2P Require Import Prelude Model Uuid Sharding Cluster Replies.
Local Open Scope Z_scope.

Definition supervisorName (shardID : Z) : string := "supervisor-" +:+ itoaZ shardID.

(** The error of a future. *)
Inductive future_error := ErrTimeout | FutureError (e : status_error).

(** ** Timeouts *)

(** Conversion of an [int64] to [float64] and back: exact up to 53 bits,
    beyond that to the nearest representable value, ties to even. *)
Definition float64_of (z : Z) : Z :=
  let m := Z.abs z in
  let e := Z.log2 m - 52 in
  if e <=? 0 then z
  else
    let q := Z.shiftr m e in
    let r := m - Z.shiftl q e in
    let half := Z.shiftl 1 (e - 1) in
    let q := if (half <? r) || ((half =? r) && Z.odd q) then q + 1 else q in
    Z.sgn z * Z.shiftl q e.

Definition hour : Z := 3600 * 1000000000.

(** [awaitTimeout], given the time left until the deadline of the context, if
    it has one. *)
Definition awaitTimeout (timeoutMs : Z) (untilDeadline : option Z) : Z :=
  let t := Z.min (float64_of (int64 (timeoutMs * 1000000))) (float64_of hour) in
  match untilDeadline with
  | Some u => Z.min (float64_of u) (float64_of t)
  | None => t
  end.

(** The time until the deadline of the context the request is made with:
    [context.WithTimeout] never extends a deadline. *)
Definition await_context (timeoutMs : Z) (untilDeadline : option Z) : option Z :=
  if 0 <? timeoutMs then
    let d := awaitTimeout timeoutMs untilDeadline in
    Some (match untilDeadline with Some u => Z.min u d | None => d end)
  else untilDeadline.

Definition defaultRequestTimeout : Z := 5 * 1000000000.

(** ** The manager *)

Section api.
Context {S E : Type} `{!ShardExtractor E}.
Context (spawn : string → M S (string + string)).
Context (ask : string → Command → Z → M S (future_error + Response)).

Record actorManager := { shardSupervisors : gmap Z string; shardExtractor : E }.

(** The loop of [NewGraphManager] that starts the supervisors; an actor that
    cannot be started is fatal. *)
Fixpoint spawn_supervisors (shards : list Z) (supervisors : gmap Z string) : M S (gmap Z string) :=
  match shards with
  | [] => mret supervisors
  | shard :: shards =>
      let name := supervisorName shard in
      r ← spawn name;
      match r with
      | inl err => panic (PanicString ("Failed to spawn actor " +:+ name +:+ ": " +:+ err))
      | inr pid => spawn_supervisors shards (<[shard := pid]> supervisors)
      end
  end.

Definition NewGraphManager (ex : E) (shards : list Z) : M S actorManager :=
  supervisors ← spawn_supervisors shards ∅;
  mret {| shardSupervisors := supervisors; shardExtractor := ex |}.

Definition lookupSupervisor (m : actorManager) (req : Command) : M S (status_error + string) :=
  shardID ← ShardID (shardExtractor m) (GetFlowId req);
  match shardID with
  | inl _ => mret (inl (NewGraphNotFoundError (GetFlowId req)))
  | inr shardID =>
      match shardSupervisors m !! shardID with
      | None => mret (inl (NewGraphNotFoundError (GetFlowId req)))
      | Some pid => mret (inr pid)
      end
  end.

Definition forwardRequest (m : actorManager) (untilDeadline : option Z) (req : Command) :
    M S (status_error + Response) :=
  let requestTimeout := default defaultRequestTimeout untilDeadline in
  supervisor ← lookupSupervisor m req;
  match supervisor with
  | inl err => mret (inl err)
  | inr supervisor =>
      r ← ask supervisor req requestTimeout;
      mret (match r with
            | inl ErrTimeout => inl (Errorf DeadlineExceeded "future: timeout")
            | inl (FutureError err) => inl err
            | inr (RError err) => inl err
            | inr r => inr r
            end)
  end.

(** The type assertions on a reply. *)
Definition is_CreateGraphResponse r := match r with RCreateGraph _ => true | _ => false end.
Definition is_GetGraphStateResponse r := match r with RGetGraphState _ _ _ => true | _ => false end.
Definition is_AddStageResponse r := match r with RAddStage _ _ => true | _ => false end.
Definition is_AwaitStageResultResponse r := match r with RAwaitStageResult _ _ _ => true | _ => false end.
Definition is_CompleteStageExternallyResponse r :=
  match r with RCompleteStageExternally _ _ _ => true | _ => false end.
Definition is_GraphRequestProcessedResponse r := match r with RGraphRequestProcessed _ => true | _ => false end.

(** [r, e := ...; if e != nil { return nil, e }; return r.( *T), e] *)
Definition checked (assertion : Response → bool) (r : status_error + Response) : M S (status_error + Response) :=
  match r with
  | inl e => mret (inl e)
  | inr r => if assertion r then mret (inr r) else panic InterfaceConversion
  end.

(** [r, e := ...; return r.( *T), e]: the assertion fails on the nil interface
    that comes with an error. *)
Definition unchecked (assertion : Response → bool) (r : status_error + Response) : M S (status_error + Response) :=
  match r with
  | inl e => panic InterfaceConversion
  | inr r => if assertion r then mret (inr r) else panic InterfaceConversion
  end.

Definition api_CreateGraph m (ctx : option Z) (req : CreateGraphRequest) :=
  forwardRequest m ctx (CCreateGraph req) ≫= checked is_CreateGraphResponse.
Definition api_GetGraphState m (ctx : option Z) (flowId : string) :=
  forwardRequest m ctx (CGetGraphState flowId) ≫= checked is_GetGraphStateResponse.
Definition api_AddInvokeFunction m (ctx : option Z) (req : AddInvokeFunctionStageRequest) :=
  forwardRequest m ctx (CAddInvokeFunctionStage req) ≫= checked is_AddStageResponse.
Definition api_AddDelay m (ctx : option Z) (req : AddDelayStageRequest) :=
  forwardRequest m ctx (CAddDelayStage req) ≫= checked is_AddStageResponse.
Definition api_AddStage m (ctx : option Z) (req : AddStageRequest) :=
  forwardRequest m ctx (CAddStage req) ≫= checked is_AddStageResponse.
Definition api_AddValueStage m (ctx : option Z) (req : AddCompletedValueStageRequest) :=
  forwardRequest m ctx (CAddCompletedValueStage req) ≫= checked is_AddStageResponse.
Definition api_AwaitStageResult m (ctx : option Z) (req : AwaitStageResultRequest) :=
  forwardRequest m (await_context (await_TimeoutMs req) ctx) (CAwaitStageResult req)
    ≫= checked is_AwaitStageResultResponse.
Definition api_CompleteStageExternally m (ctx : option Z) (req : CompleteStageExternallyRequest) :=
  forwardRequest m ctx (CCompleteStageExternally req) ≫= unchecked is_CompleteStageExternallyResponse.
Definition api_Commit m (ctx : option Z) (flowId : string) :=
  forwardRequest m ctx (CCommitGraph flowId) ≫= checked is_GraphRequestProcessedResponse.

(** The method of the service that a request of each kind goes to. *)
Definition serve m (ctx : option Z) (req : Command) : option (M S (status_error + Response)) :=
  match req with
  | CCreateGraph r => Some (api_CreateGraph m ctx r)
  | CGetGraphState f => Some (api_GetGraphState m ctx f)
  | CAddInvokeFunctionStage r => Some (api_AddInvokeFunction m ctx r)
  | CAddDelayStage r => Some (api_AddDelay m ctx r)
  | CAddStage r => Some (api_AddStage m ctx r)
  | CAddCompletedValueStage r => Some (api_AddValueStage m ctx r)
  | CAwaitStageResult r => Some (api_AwaitStageResult m ctx r)
  | CCompleteStageExternally r => Some (api_CompleteStageExternally m ctx r)
  | CCommitGraph f => Some (api_Commit m ctx f)
  | _ => None
  end.

(** The path of the actor of a flow, which is the name of its journal. *)
Definition graphActorPath (m : actorManager) (flowID : string) : M S (parse_error + string) :=
  shardID ← ShardID (shardExtractor m) flowID;
  mret (match shardID with
        | inl err => inl err
        | inr shardID => inr (supervisorName shardID +:+ "/" +:+ flowID)
        end).
End api.
Arguments actorManager : clear implicits.
