(* ===== verification/ApiFacts.v ===== *)
(** * Properties of the node-local service

    A request that the cluster sends to a node finds a supervisor there; no
    method but one can panic on a reply the graph actor gives; the time a
    caller can be kept waiting is bounded. *)

From S2P Require Import Prelude Model Uuid Sharding Cluster Replies Api.
Local Open Scope Z_scope.

(** ** Waiting *)

Lemma float64_of_exact z : Z.abs z < 2 ^ 53 → float64_of z = z.
Proof.
  intros Hz. unfold float64_of.
  destruct (Z.leb_spec (Z.log2 (Z.abs z) - 52) 0) as [|Hlog]; [done|].
  assert (Z.log2 (Z.abs z) < 53); [|lia]. destruct (decide (z = 0)) as [->|]; [done|].
  apply Z.log2_lt_pow2; lia.
Qed.

Lemma float64_of_large z : 2 ^ 53 ≤ z → 2 ^ 53 ≤ float64_of z.
Proof.
  intros Hz. unfold float64_of. rewrite Z.abs_eq, Z.sgn_pos by lia.
  destruct (Z.leb_spec (Z.log2 z - 52) 0) as [|Hlog]; [done|]. set (e := Z.log2 z - 52) in *.
  assert (Z.shiftl 2 52 ≤ Z.shiftl (Z.shiftr z e) e) as Hq.
  { rewrite !Z.shiftl_mul_pow2, Z.shiftr_div_pow2 by lia.
    assert (2 ^ 52 ≤ z / 2 ^ e) as Hd.
    { apply Z.div_le_lower_bound; [lia|]. rewrite <- Z.pow_add_r by lia.
      replace (e + 52) with (Z.log2 z) by lia. apply Z.log2_spec. lia. }
    assert (2 ≤ 2 ^ e) by (change 2 with (2 ^ 1) at 1; apply Z.pow_le_mono_r; lia). nia. }
  assert (Z.shiftl (Z.shiftr z e) e ≤ Z.shiftl (Z.shiftr z e + 1) e).
  { rewrite !Z.shiftl_mul_pow2 by lia. assert (0 < 2 ^ e) by lia. nia. }
  change (2 ^ 53) with (Z.shiftl 2 52). rewrite Z.mul_1_l. destruct (_ || _); lia.
Qed.

(** A caller of [AwaitStageResult] that asks for a positive
    timeout (any number of milliseconds that fits a Go duration) waits for
    exactly the least of that timeout, one hour, and the time left in its own
    context; the request to the actor always carries that bound. *)
Theorem await_bounded (timeoutMs : Z) (untilDeadline : option Z) :
  0 < timeoutMs → timeoutMs * 1000000 < 2 ^ 63 →
  (∀ u, untilDeadline = Some u → Z.abs u < 2 ^ 53) →
  await_context timeoutMs untilDeadline =
    Some (Z.min (Z.min (timeoutMs * 1000000) hour) (default hour untilDeadline)).
Proof.
  intros Hpos Hfits Hu. unfold await_context, awaitTimeout.
  destruct (Z.ltb_spec 0 timeoutMs); [|lia]. rewrite int64_small by lia.
  rewrite (float64_of_exact hour) by (unfold hour; lia).
  assert (Z.min (float64_of (timeoutMs * 1000000)) hour = Z.min (timeoutMs * 1000000) hour) as ->.
  { destruct (decide (timeoutMs * 1000000 < 2 ^ 53)); [by rewrite float64_of_exact by lia|].
    rewrite !Z.min_r; [done|unfold hour; lia|].
    assert (2 ^ 53 ≤ float64_of (timeoutMs * 1000000)); [|unfold hour; lia].
    apply float64_of_large. lia. }
  destruct untilDeadline as [u|]; simpl; [|f_equal; lia].
  specialize (Hu u eq_refl). rewrite !float64_of_exact by (unfold hour in *; lia). f_equal. lia.
Qed.

Lemma await_bounded_witness :
  await_context 90000000 (Some 7200000000000) =
    Some (Z.min (Z.min (90000000 * 1000000) hour) (default hour (Some 7200000000000))).
Proof.
  apply (await_bounded 90000000 (Some 7200000000000)); [lia|lia|]. intros u [= <-]. lia.
Defined.

(** ** Supervisors *)

Section supervisors.
Context {S E : Type} `{!ShardExtractor E}.
Context (spawn : string → M S (string + string)).

Definition spawned (name pid : string) : Prop := ∃ s1 s2, spawn name s1 = Ret (inr pid) s2.

Lemma spawn_supervisors_table shards table s r s' :
  spawn_supervisors spawn shards table s = Ret r s' →
  (∀ shard, shard ∈ shards → ∃ pid, r !! shard = Some pid ∧ spawned (supervisorName shard) pid)
  ∧ (∀ shard, shard ∉ shards → r !! shard = table !! shard).
Proof.
  revert table s. induction shards as [|x shards IH]; intros table s Hrun.
  { injection Hrun as -> ->. split; [|done]. intros i []%not_elem_of_nil. }
  simpl in Hrun. unfold mbind, M_bind in Hrun. destruct (spawn _ s) as [[err|pid] s1| |] eqn:Hsp; try done.
  destruct (IH _ _ Hrun) as [Hin Hout]. split.
  - intros shard [->|Hs]%elem_of_cons; [|by apply Hin].
    destruct (decide (x ∈ shards)) as [Hx|Hx]; [by apply Hin|].
    exists pid. rewrite Hout, lookup_insert_eq by done. split; [done|]. by exists s, s1.
  - intros shard [Hne Hs]%not_elem_of_cons. by rewrite Hout, lookup_insert_ne.
Qed.

Context (st : Settings) (ex : E) `{!ShardLaws ex}.

Lemma lookupSupervisor_eq m req shard (s : S) :
  shardExtractor m = ex → shard_of (GetFlowId req) = inr shard →
  lookupSupervisor m req s = Ret (match shardSupervisors m !! shard with
    | Some pid => inr pid | None => inl (NewGraphNotFoundError (GetFlowId req)) end) s.
Proof.
  intros <- Hshard. unfold lookupSupervisor, mbind, M_bind. rewrite ShardID_of, Hshard.
  by destruct (shardSupervisors m !! shard).
Qed.

(** C25: the cluster and the nodes agree on who serves a flow.
    The node that any node's cluster manager resolves a flow id to has, once
    it has started its supervisors for its local shards, a supervisor for the
    flow; every other node answers that it does not know the flow. *)
Theorem owner_has_supervisor {client} (cm : Manager E client) (req : Command) (u : UUID) :
  settings cm = st → extractor cm = ex → 0 < NodeCount st → Parse (GetFlowId req) = inr u →
  ∃ owner shard, (∀ t : S, resolveNode cm (GetFlowId req) t = Ret (owner, None) t)
    ∧ ∀ i s m s' (t : S), NewGraphManager spawn ex (shards_of st ex i) s = Ret m s' →
      if decide (i = owner)
      then ∃ pid, spawned (supervisorName shard) pid ∧ lookupSupervisor m req t = Ret (inr pid) t
      else lookupSupervisor m req t = Ret (inl (NewGraphNotFoundError (GetFlowId req))) t.
Proof.
  intros Hst Hex Hn Hp. destruct (shard_of_uuid _ _ Hp) as [shard Hshard].
  exists (Z.rem shard (NodeCount st)), shard. split.
  { intros t. by rewrite (resolveNode_eq st ex cm _ shard). }
  intros i s m s' t Hm. unfold NewGraphManager, mbind, M_bind in Hm.
  destruct (spawn_supervisors spawn _ ∅ s) as [table s1| |] eqn:Hsp; [|done|done]. injection Hm as <- <-.
  rewrite (lookupSupervisor_eq _ _ shard) by done. simpl.
  destruct (spawn_supervisors_table _ _ _ _ _ Hsp) as [Hin Hout].
  pose proof (shard_of_range _ _ Hshard). case_decide as Hi.
  - destruct (Hin shard) as (pid & -> & Hpid); [by apply elem_of_shards_of|]. by exists pid.
  - rewrite Hout; [done|]. rewrite elem_of_shards_of. intros [_ Heq]. congruence.
Qed.

End supervisors.

(** ** Replies *)

Section replies.
Context {S E : Type} `{!ShardExtractor E} (ex : E) `{!ShardLaws ex}.
Context (ask : string → Command → Z → M S (future_error + Response)).

(** What the actors guarantee: the future of a request is always resolved, by
    its timeout if not by a reply, and a reply has the type of the request. *)
Definition replies_typed : Prop :=
  ∀ pid cmd t s, ∃ r s', ask pid cmd t s = Ret r s' ∧ ∀ resp, r = inr resp → reply_typed cmd resp.

Lemma forwardRequest_typed m ctx req (s : S) :
  replies_typed → shardExtractor m = ex →
  ∃ r s', forwardRequest ask m ctx req s = Ret r s'
    ∧ ∀ resp, r = inr resp → reply_typed req resp ∧ (∀ e, resp ≠ RError e).
Proof.
  intros Hask Hex. unfold forwardRequest, lookupSupervisor, mbind, M_bind. rewrite Hex, ShardID_of.
  destruct (shard_of (GetFlowId req)) as [e|shard]; [by eexists _, s|].
  destruct (shardSupervisors m !! shard) as [pid|]; [|by eexists _, s].
  destruct (Hask pid req (default defaultRequestTimeout ctx) s) as (r & s' & Hrun & Hty).
  simpl. rewrite Hrun. eexists _, s'. split; [reflexivity|].
  destruct r as [[|e]|resp]; try done. intros resp' Hr. destruct resp; simplify_eq; (split; [by apply Hty|done]).
Qed.

Lemma checked_typed assertion r (s : S) :
  (∀ resp, r = inr resp → assertion resp = true) → checked assertion r s = Ret r s.
Proof. intros Ha. destruct r as [e|resp]; [done|]. simpl. by rewrite Ha. Qed.

(** C31: every method of the service but
    [CompleteStageExternally] returns an error or the reply to its request:
    the type assertion on the reply never fails. *)
Theorem served_without_panic m ctx req method (s : S) :
  replies_typed → shardExtractor m = ex →
  serve ask m ctx req = Some method → (∀ r, req ≠ CCompleteStageExternally r) →
  ∃ r s', method s = Ret r s' ∧ ∀ resp, r = inr resp → reply_typed req resp ∧ (∀ e, resp ≠ RError e).
Proof.
  intros Hask Hex Hserve Hne.
  assert (∀ ctx assertion, (∀ resp, reply_typed req resp → (∀ e, resp ≠ RError e) → assertion resp = true) →
    ∃ r s', (forwardRequest ask m ctx req ≫= checked assertion) s = Ret r s'
      ∧ ∀ resp, r = inr resp → reply_typed req resp ∧ (∀ e, resp ≠ RError e)) as Hcall.
  { intros ctx' assertion Ha. destruct (forwardRequest_typed m ctx' req s Hask Hex) as (r & s' & Hrun & Hr).
    exists r, s'. split; [|done]. unfold mbind, M_bind. rewrite Hrun. apply checked_typed.
    intros resp Heq. destruct (Hr resp Heq). by apply Ha. }
  destruct req; simplify_eq/=; try (apply Hcall; intros []; naive_solver). by edestruct Hne.
Qed.

(** [CompleteStageExternally] asserts the type of
    the reply before looking at the error: whenever the request fails for any
    reason (an unknown flow or stage, a completed graph, a timeout) the method
    does not return the error but panics. *)
Theorem complete_externally_panics m ctx req (s s' : S) (e : status_error) :
  forwardRequest ask m ctx (CCompleteStageExternally req) s = Ret (inl e) s' →
  api_CompleteStageExternally ask m ctx req s = Panic InterfaceConversion s'.
Proof. intros Hrun. unfold api_CompleteStageExternally, mbind, M_bind. by rewrite Hrun. Qed.
End replies.

(** ** A node of the sample cluster *)

Definition spawn_ok (name : string) : M unit (string + string) := mret (inr name).

(** A supervisor that refuses every request: a legitimate reply to each. *)
Definition ask_refused (pid : string) (cmd : Command) (timeout : Z) : M unit (future_error + Response) :=
  mret (inr (RError (NewStageNotFoundError (GetFlowId cmd) "9"))).

Definition sample_request : Command := CCommitGraph (String_ sample_uuid).

Lemma owner_has_supervisor_witness :
  ∃ owner shard, (∀ t : unit, resolveNode sample_manager (GetFlowId sample_request) t = Ret (owner, None) t)
    ∧ ∀ i s m s' (t : unit), NewGraphManager spawn_ok seven_shards (shards_of three_nodes seven_shards i) s = Ret m s' →
      if decide (i = owner)
      then ∃ pid, spawned spawn_ok (supervisorName shard) pid ∧ lookupSupervisor m sample_request t = Ret (inr pid) t
      else lookupSupervisor m sample_request t = Ret (inl (NewGraphNotFoundError (GetFlowId sample_request))) t.
Proof.
  apply (owner_has_supervisor spawn_ok three_nodes seven_shards sample_manager sample_request sample_uuid);
    [reflexivity|reflexivity|simpl; lia|vm_compute; reflexivity].
Defined.

Definition sample_node_manager : actorManager fixedSizeShardExtractor :=
  {| shardSupervisors := {[ 0 := "supervisor-0"; 1 := "supervisor-1"; 2 := "supervisor-2"; 3 := "supervisor-3";
                            4 := "supervisor-4"; 5 := "supervisor-5"; 6 := "supervisor-6" ]};
     shardExtractor := seven_shards |}.

Lemma served_without_panic_witness :
  ∃ r s', api_Commit ask_refused sample_node_manager None (String_ sample_uuid) tt = Ret r s'
    ∧ ∀ resp, r = inr resp → reply_typed sample_request resp ∧ (∀ e, resp ≠ RError e).
Proof.
  apply (served_without_panic seven_shards ask_refused sample_node_manager None sample_request
    (api_Commit ask_refused sample_node_manager None (String_ sample_uuid)) tt);
    [|reflexivity|reflexivity|discriminate].
  intros pid cmd t []. eexists _, tt. split; [reflexivity|]. by intros resp [= <-].
Defined.

Definition sample_completion : CompleteStageExternallyRequest :=
  {| ext_FlowId := String_ sample_uuid; ext_StageId := "9"; ext_Value := Some NewEmptyResult;
     ext_CodeLocation := ""; ext_CallerId := "" |}.

Lemma complete_externally_panics_witness :
  api_CompleteStageExternally ask_refused sample_node_manager None sample_completion tt
  = Panic InterfaceConversion tt.
Proof.
  apply (complete_externally_panics ask_refused sample_node_manager None sample_completion tt tt
    (NewStageNotFoundError (String_ sample_uuid) "9")).
  vm_compute. reflexivity.
Defined.
