(* ===== verification/Strategy.v ===== *)
(** * Restarting failed graph actors (src/actor/strategy.go, supervisor.go)

    The decider that maps the reason of a failure to a directive and the
    strategy that carries the directive out, with the restart statistics of
    the actor library (src/vendor/github.com/AsynkronIT/protoactor-go/actor).
    Times are nanoseconds since the Unix epoch. *)

From S2P Require Import Prelude Model Persistence.
Local Open Scope Z_scope.

Inductive Directive := ResumeDirective | RestartDirective | StopDirective | EscalateDirective.

#[export] Instance Directive_eq_dec : EqDecision Directive.
Proof. solve_decision. Defined.

(** [switch reason]: a comparison of interface values with the error values. *)
Definition graphDecider (reason : panic_value) : Directive :=
  if decide (reason = ErrPersistenceFailed ∨ reason = ErrReadingEvents) then RestartDirective
  else if decide (reason = ErrPersistingSnapshot) then ResumeDirective
  else StopDirective.

(** ** RestartStatistics *)

Record RestartStatistics := { FailureCount : Z; LastFailureTime : Z }.

(** The zero [time.Time], 1 January of year 1. *)
Definition zero_time : Z := -62135596800 * 1000000000.

(** [ctx.RestartStats()] of an actor that has not failed before. *)
Definition fresh_statistics : RestartStatistics := {| FailureCount := 0; LastFailureTime := zero_time |}.

Definition Fail (rs : RestartStatistics) : RestartStatistics :=
  {| FailureCount := int64 (FailureCount rs + 1); LastFailureTime := LastFailureTime rs |}.
Definition Reset (rs : RestartStatistics) : RestartStatistics :=
  {| FailureCount := 0; LastFailureTime := LastFailureTime rs |}.

(** [time.Since], which saturates at the bounds of [Duration]. *)
Definition Since (now t : Z) : Z := Z.max (- 2 ^ 63) (Z.min (now - t) (2 ^ 63 - 1)).

Definition IsWithinDuration (now : Z) (rs : RestartStatistics) (withinDuration : Z) : bool :=
  Since now (LastFailureTime rs) <? withinDuration.

(** ** exponentialBackoffStrategy *)

Record exponentialBackoffStrategy := {
  backoffWindow : Z; initialBackoff : Z; decider : panic_value → Directive }.

Definition NewExponentialBackoffStrategy (window initial : Z) (d : panic_value → Directive) :
    exponentialBackoffStrategy :=
  {| backoffWindow := window; initialBackoff := initial; decider := d |}.

Definition graphStrategy : exponentialBackoffStrategy :=
  NewExponentialBackoffStrategy (60 * 1000000000) (100 * 1000000) graphDecider.

(** What the strategy asks of the supervisor and of the event stream. The
    child is the one that failed. *)
Inductive Action :=
  | PublishFailure (reason : panic_value) (d : Directive)
  | ResumeChildren
  | StopChildren
  | EscalateFailure (reason : panic_value).

Definition setFailureCount (strategy : exponentialBackoffStrategy) (now : Z) (rs : RestartStatistics) :
    RestartStatistics :=
  let rs := Fail rs in
  if IsWithinDuration now rs (backoffWindow strategy) then rs else Reset rs.

(** [noise] is the value of [rand.Intn(500)]; [RestartChildren] is what the
    timer does last. *)
Inductive RestartAction := Restart (published : Action).

Definition handleRestart (strategy : exponentialBackoffStrategy) (now noise : Z) (rs : RestartStatistics)
    (reason : panic_value) : RestartStatistics * (Z * RestartAction) :=
  let rs := setFailureCount strategy now rs in
  let backoff := int64 (FailureCount rs * initialBackoff strategy) in
  let dur := int64 (backoff + noise) in
  (rs, (dur, Restart (PublishFailure reason RestartDirective))).

(** The actions taken at once, and the delayed restart, if any. *)
Definition HandleFailure (strategy : exponentialBackoffStrategy) (now noise : Z) (rs : RestartStatistics)
    (reason : panic_value) : RestartStatistics * list Action * option (Z * RestartAction) :=
  match decider strategy reason with
  | ResumeDirective => (rs, [PublishFailure reason ResumeDirective; ResumeChildren], None)
  | RestartDirective =>
      let '(rs, r) := handleRestart strategy now noise rs reason in (rs, [], Some r)
  | StopDirective => (rs, [PublishFailure reason StopDirective; StopChildren], None)
  | EscalateDirective => (rs, [EscalateFailure reason], None)
  end.

(** The statistics after a history of failures (time, noise, reason). *)
Fixpoint failures (strategy : exponentialBackoffStrategy) (rs : RestartStatistics)
    (history : list (Z * Z * panic_value)) : RestartStatistics :=
  match history with
  | [] => rs
  | (now, noise, reason) :: history =>
      failures strategy (HandleFailure strategy now noise rs reason).1.1 history
  end.

(** ** Properties *)

(** The only failures that restart a graph actor are those
    of reading or writing its journal, and the only one it resumes from is a
    failed snapshot; any other panic (a marshalling error included) stops it,
    and the stopped or resumed actor is never scheduled for a restart. *)
Theorem failure_directives (now noise : Z) (rs : RestartStatistics) (reason : panic_value) :
  let '(_, actions, restart) := HandleFailure graphStrategy now noise rs reason in
  (is_Some restart ↔ reason = ErrPersistenceFailed ∨ reason = ErrReadingEvents)
  ∧ (In ResumeChildren actions ↔ reason = ErrPersistingSnapshot)
  ∧ (In StopChildren actions ↔
     reason ≠ ErrPersistenceFailed ∧ reason ≠ ErrReadingEvents ∧ reason ≠ ErrPersistingSnapshot).
Proof.
  unfold HandleFailure. change (decider graphStrategy) with graphDecider. unfold graphDecider.
  destruct (decide (reason = ErrPersistenceFailed ∨ reason = ErrReadingEvents)) as [H|H].
  - destruct (handleRestart _ _ _ _ _) as [rs' r]. simpl. split_and!.
    + split; [done|]. by exists r.
    + split; [done|]. intros ->. by destruct H.
    + split; [done|]. by destruct H as [->| ->]; intros (?&?&?).
  - destruct (decide (reason = ErrPersistingSnapshot)) as [->|Hs]; simpl; split_and!.
    + split; [by intros [? ?]|done].
    + split; [done|]. intros _. auto.
    + split; [by intros [|[|[]]]|]. by intros (_&_&?).
    + split; [by intros [? ?]|done].
    + split; [by intros [|[|[]]]|done].
    + split; [|auto]. intros _. split_and!; [|..|done]; intros ->; apply H; auto.
Qed.

Lemma setFailureCount_outside strategy now rs :
  backoffWindow strategy ≤ Since now (LastFailureTime rs) →
  setFailureCount strategy now rs = Reset rs.
Proof.
  intros H. unfold setFailureCount, IsWithinDuration. simpl.
  destruct (Z.ltb_spec (Since now (LastFailureTime rs)) (backoffWindow strategy)); [lia|done].
Qed.

(** Nothing in the strategy records the time of a failure. *)
Lemma HandleFailure_time strategy now noise rs reason :
  LastFailureTime (HandleFailure strategy now noise rs reason).1.1 = LastFailureTime rs.
Proof.
  unfold HandleFailure. destruct (decider strategy reason); simpl; try done.
  unfold setFailureCount. by destruct (IsWithinDuration _ _ _).
Qed.

Lemma failures_time strategy rs history :
  LastFailureTime (failures strategy rs history) = LastFailureTime rs.
Proof.
  revert rs. induction history as [|[[now noise] reason] h IH]; intros rs; [done|].
  simpl. rewrite IH. apply HandleFailure_time.
Qed.

(** The restart delay never grows. The time of the last failure is
    never recorded, so every failure looks older than the window, the counter
    is reset each time, and however often and quickly an actor has failed
    before, it is restarted after the random noise alone, less than 500
    nanoseconds. *)
Theorem no_backoff (history : list (Z * Z * panic_value)) (now noise : Z) (reason : panic_value) :
  0 ≤ now → 0 ≤ noise < 500 →
  reason = ErrPersistenceFailed ∨ reason = ErrReadingEvents →
  (HandleFailure graphStrategy now noise (failures graphStrategy fresh_statistics history) reason).2
  = Some (noise, Restart (PublishFailure reason RestartDirective)).
Proof.
  intros Hnow Hnoise Hreason. unfold HandleFailure. simpl. unfold graphDecider. rewrite decide_True by done.
  unfold handleRestart. rewrite setFailureCount_outside.
  - simpl. unfold int64. rewrite !Z.mod_small; lia || (rewrite ?Z.mod_small; repeat f_equal; lia).
  - rewrite failures_time. simpl. unfold Since, zero_time. lia.
Qed.

Lemma no_backoff_witness :
  (HandleFailure graphStrategy 1500000000000000000 17
     (failures graphStrategy fresh_statistics
        [(1499999999000000000, 3, ErrPersistenceFailed); (1499999999500000000, 4, ErrPersistenceFailed)])
     ErrPersistenceFailed).2
  = Some (17, Restart (PublishFailure ErrPersistenceFailed RestartDirective)).
Proof.
  apply (no_backoff [(1499999999000000000, 3, ErrPersistenceFailed); (1499999999500000000, 4, ErrPersistenceFailed)]
    1500000000000000000 17 ErrPersistenceFailed); [lia|lia|by left].
Defined.
