(* ===== verification/Supervisor.v ===== *)
(** * The shard supervisor (src/actor/supervisor.go)

    One supervisor per shard is the parent of the actors of the shard's flows.
    It journals which flows are active, spawns a graph actor when a flow is
    created or first addressed, passes every request on to the actor of its
    flow, and after a restart respawns the actors of all active flows.

    Of the actor library the model keeps the supervisor's children, the names
    in the process registry, and the messages sent, in [sup_effects]. Being
    watched by its parent is implied by being a child. *)

From S2P Require Import Prelude Model Persistence.

Inductive SupEffect :=
  | ToChild (id : string) (c : Command)
  | PoisonPill (id : string)
  | RespondError (e : status_error).

(** The messages a supervisor can be sent. *)
Inductive SupMessage :=
  | SCommand (c : Command)
  | SEvent (e : Event)
  | STerminated (who : string)
  | SReplayComplete
  | SStarted
  | SOther.

Record graphSupervisor (P : Type) := {
  sup_activeGraphs : gset string;      (** the keys of [activeGraphs], all mapped to true *)
  sup_persistence : persistent P;
  sup_children : list string;          (** [context.Children()], by id *)
  sup_registry : gset string;          (** ids in the process registry *)
  sup_self : string;
  sup_effects : list SupEffect;
  sup_metric : Z;                      (** [activeGraphsMetric] *)
  sup_iteration : nat;
}.
Arguments sup_activeGraphs {P}.
Arguments sup_persistence {P}.
Arguments sup_children {P}.
Arguments sup_registry {P}.
Arguments sup_self {P}.
Arguments sup_effects {P}.
Arguments sup_metric {P}.
Arguments sup_iteration {P}.
Arguments Build_graphSupervisor {P}.

(** [strings.Split] for a non-empty separator: [skip] characters of an
    occurrence are left to drop, [cur] is the field read so far, reversed. *)
Fixpoint split_aux (sep s : list Ascii.ascii) (skip : nat) (cur : list Ascii.ascii) : list (list Ascii.ascii) :=
  match s with
  | [] => [reverse cur]
  | c :: s' =>
      match skip with
      | S skip => split_aux sep s' skip cur
      | O => if decide (sep `prefix_of` s)
             then reverse cur :: split_aux sep s' (pred (length sep)) []
             else split_aux sep s' 0 (c :: cur)
      end
  end.
Definition Split (s sep : string) : list string :=
  String.string_of_list_ascii <$>
    split_aux (String.list_ascii_of_string sep) (String.list_ascii_of_string s) 0 [].

Definition getFlowID (supervisorName childId : string) : string * bool :=
  match Split childId (supervisorName +:+ "/") with
  | [_; flow] => if (0 <? String.length flow)%nat then (flow, true) else ("", false)
  | _ => ("", false)
  end.

Section Supervisor.
Context {P : Type} `{!ProviderState P} `{!MapOrder}.
Abbreviation Sup := (graphSupervisor P).

Definition sup_put_persistence (q : persistent P) (s : Sup) : Sup :=
  Build_graphSupervisor (sup_activeGraphs s) q (sup_children s) (sup_registry s) (sup_self s)
    (sup_effects s) (sup_metric s) (sup_iteration s).
Definition sup_emit (e : SupEffect) : M Sup unit :=
  modify (λ s, Build_graphSupervisor (sup_activeGraphs s) (sup_persistence s) (sup_children s)
    (sup_registry s) (sup_self s) (sup_effects s ++ [e]) (sup_metric s) (sup_iteration s)).
Definition set_active (f : gset string → gset string) (d : Z) (s : Sup) : Sup :=
  Build_graphSupervisor (f (sup_activeGraphs s)) (sup_persistence s) (sup_children s)
    (sup_registry s) (sup_self s) (sup_effects s) (sup_metric s + d)%Z (sup_iteration s).
Definition sup_persist (e : Event) : M Sup unit :=
  zoom sup_persistence sup_put_persistence (PersistReceive e).

Definition handleActiveGraph (flowID : string) : M Sup unit := modify (set_active (λ a, {[flowID]} ∪ a) 1).
Definition handleInactiveGraph (flowID : string) : M Sup unit := modify (set_active (λ a, a ∖ {[flowID]}) (-1)).

(** [context.SpawnNamed]: the id must be new in the registry; the new actor
    becomes a child. *)
Definition spawnGraphActor (flowID : string) : M Sup (option string) :=
  s ← get_state;
  let id := sup_self s +:+ "/" +:+ flowID in
  if decide (id ∈ sup_registry s) then mret None
  else
    modify (λ s, Build_graphSupervisor (sup_activeGraphs s) (sup_persistence s) (sup_children s ++ [id])
      ({[id]} ∪ sup_registry s) (sup_self s) (sup_effects s) (sup_metric s) (sup_iteration s));;
    mret (Some id).

Definition findChild (flowID : string) : M Sup (option string) :=
  s ← get_state;
  let fullID := sup_self s +:+ "/" +:+ flowID in
  mret (snd <$> list_find (λ id, id = fullID) (sup_children s)).

Definition getGraphActor (flowID : string) : M Sup (option string) :=
  child ← findChild flowID;
  match child with
  | Some child => mret (Some child)
  | None => spawnGraphActor flowID
  end.

(** A created event carries only the flow id; so does a completed one. *)
Definition sup_created (flowId : string) : Event :=
  EGraphCreated {| created_FlowId := flowId; created_FunctionId := ""; created_Ts := None |}.
Definition sup_completed (flowId : string) : Event :=
  EGraphCompleted {| completed_FlowId := flowId; completed_FunctionId := ""; completed_Ts := None |}.

(** [case model.GraphMessage]: any other message with a flow id. *)
Definition forward_message (c : Command) : M Sup unit :=
  child ← getGraphActor (GetFlowId c);
  match child with
  | None => sup_emit (RespondError (NewGraphNotFoundError (GetFlowId c)))
  | Some child => sup_emit (ToChild child c)
  end.

Definition sup_receiveCommand (msg : SupMessage) : M Sup unit :=
  match msg with
  | SCommand (CCreateGraph r) =>
      let flowId := create_FlowId r in
      child ← spawnGraphActor flowId;
      match child with
      | None => sup_emit (RespondError (NewGraphCreationError flowId))
      | Some child =>
          sup_persist (sup_created flowId);;
          handleActiveGraph flowId;;
          sup_emit (ToChild child (CCreateGraph r))
      end
  | SCommand (CDeactivateGraph flowId) =>
      s ← get_state;
      (if decide (flowId ∈ sup_activeGraphs s)
       then sup_persist (sup_completed flowId);; handleInactiveGraph flowId
       else mret tt);;
      child ← findChild flowId;
      match child with Some child => sup_emit (PoisonPill child) | None => mret tt end
  | SCommand c => forward_message c
  | SEvent e => forward_message (COther (event_FlowId e))
  | STerminated _ => mret tt
  | SReplayComplete =>
      s ← get_state;
      modify (λ s, Build_graphSupervisor (sup_activeGraphs s) (sup_persistence s) (sup_children s)
        (sup_registry s) (sup_self s) (sup_effects s) (sup_metric s) (S (sup_iteration s)));;
      for_each (range_order (sup_iteration s) (elements (sup_activeGraphs s)))
        (λ flowID, spawnGraphActor flowID;; mret tt)
  | SStarted | SOther => mret tt
  end.

Definition sup_receiveEvent (msg : SupMessage) : M Sup unit :=
  match msg with
  | SEvent (EGraphCreated e) => handleActiveGraph (created_FlowId e)
  | SEvent (EGraphCompleted e) => handleInactiveGraph (completed_FlowId e)
  | _ => mret tt
  end.

Definition sup_Receive (msg : SupMessage) : M Sup unit :=
  s ← get_state;
  if Recovering (sup_persistence s) then sup_receiveEvent msg else sup_receiveCommand msg.

(** The middleware of receiver.go around [Receive], for the first message. *)
Definition sup_start : M Sup unit :=
  sup_Receive SStarted;;
  s ← get_state;
  init sup_persistence sup_put_persistence (λ e, sup_Receive (SEvent e)) (sup_Receive SReplayComplete) (sup_self s).

Definition sup_Using (msg : SupMessage) : M Sup unit :=
  match msg with
  | SStarted => sup_start
  | m =>
      sup_Receive m;;
      s ← get_state;
      if isSnapshotRequested (sup_persistence s)
      then on_mixin sup_persistence sup_put_persistence (set_snapshotRequested false);; sup_Receive SOther
      else mret tt
  end.

(** [NewGraphSupervisor], spawned under a name, in a process where the given
    ids are taken. *)
Definition NewGraphSupervisor (self : string) (registry : gset string) (p : P) : Sup :=
  {| sup_activeGraphs := ∅;
     sup_persistence := Build_persistent
       {| mx_eventIndex := 0; mx_name := ""; mx_recovering := false; mx_snapshotRequested := false |} p;
     sup_children := []; sup_registry := registry; sup_self := self;
     sup_effects := []; sup_metric := 0; sup_iteration := 0 |}.

(** The library's bookkeeping when a child has stopped: its name is freed and
    it is no longer a child; then the supervisor is told. *)
Definition child_stopped (who : string) (s : Sup) : Sup :=
  Build_graphSupervisor (sup_activeGraphs s) (sup_persistence s) (filter (λ id, id ≠ who) (sup_children s))
    (sup_registry s ∖ {[who]}) (sup_self s) (sup_effects s) (sup_metric s) (sup_iteration s).
End Supervisor.
