(* ===== verification/SupervisorFacts.v ===== *)
(** * Properties of the shard supervisor

    The set of active flows is at all times the one its journal describes;
    every request reaches the actor of its flow or is answered with an error;
    and a supervisor that starts over a journal (after a crash of the node)
    has the active flows of its predecessor and an actor for each of them. *)

From S2P Require Import Prelude Model Persistence Supervisor.

(** The active flows a journal describes. *)
Definition activate (a : gset string) (e : Event) : gset string :=
  match e with
  | EGraphCreated e => {[created_FlowId e]} ∪ a
  | EGraphCompleted e => a ∖ {[completed_FlowId e]}
  | _ => a
  end.
Definition active_of (es : list Event) : gset string := foldl activate ∅ es.

Lemma active_of_snoc es e : active_of (es ++ [e]) = activate (active_of es) e.
Proof. unfold active_of. by rewrite foldl_app. Qed.

Section facts.
Context {P : Type} `{!ProviderState P} `{!ReliableProvider P} `{!RecoverableProvider P} `{!MapOrder}.
Abbreviation Sup := (graphSupervisor P).
Implicit Types s : Sup.

Definition child_id s (flowID : string) : string := sup_self s +:+ "/" +:+ flowID.
Definition sup_journal s : list Event := journal (sup_self s) (pers_provider (sup_persistence s)).

Record sup_inv s : Prop := {
  si_name : Name (sup_persistence s) = sup_self s;
  si_live : Recovering (sup_persistence s) = false;
  si_interval : GetSnapshotInterval (pers_provider (sup_persistence s)) ≠ 0%Z;
  si_replayable : replayable (sup_self s) (pers_provider (sup_persistence s));
  si_index : mx_eventIndex (pers_mixin (sup_persistence s)) = Z.of_nat (length (sup_journal s));
  si_active : sup_activeGraphs s = active_of (sup_journal s);
  si_nodup : NoDup (sup_children s);
  si_registered : ∀ id, id ∈ sup_children s → id ∈ sup_registry s;
  si_children : ∀ id, id ∈ sup_children s → ∃ flowID, id = child_id s flowID;
}.

(** ** Operations *)

Lemma wp_sup_persist e s (Q : unit → Sup → Prop) :
  sup_inv s →
  (∀ q, let s' := sup_put_persistence q s in
     Name q = sup_self s → Recovering q = false →
     GetSnapshotInterval (pers_provider q) ≠ 0%Z → replayable (sup_self s) (pers_provider q) →
     mx_eventIndex (pers_mixin q) = Z.of_nat (length (sup_journal s')) →
     sup_journal s' = sup_journal s ++ [e] → Q tt s') →
  wp (sup_persist e) Q s.
Proof.
  intros Hs HQ. apply wp_zoom. unfold PersistReceive.
  apply wp_bind, wp_get, wp_bind, wp_zoom. pose proof (si_name _ Hs) as Hn.
  pose proof (PersistEvent_ok (sup_self s) (mx_eventIndex (pers_mixin (sup_persistence s))) e
    (pers_provider (sup_persistence s))) as H1.
  pose proof (PersistEvent_replayable (sup_self s) (sup_self s) (mx_eventIndex (pers_mixin (sup_persistence s))) e
    (pers_provider (sup_persistence s)) (si_replayable _ Hs) (λ _, si_index _ Hs)) as H2.
  rewrite Hn. apply wp_run in H1 as ([] & p' & Hrun & Hj & _ & Hint).
  unfold wp in H2. rewrite Hrun in H2. apply wp_run. exists tt, p'. split; [done|].
  apply wp_bind, wp_modify, wp_bind, wp_get, wp_bind. unfold go_rem. simpl.
  pose proof (si_interval _ Hs) as Hi. rewrite Hint. destruct (Z.eqb_spec (GetSnapshotInterval (pers_provider (sup_persistence s))) 0); [done|].
  apply wp_ret. pose proof (si_live _ Hs). destruct (Z.eqb _ 0); [apply wp_modify|apply wp_ret].
  all: apply HQ; try done; simpl; [by rewrite Hint|]; unfold sup_journal; simpl; rewrite Hj, length_app;
    pose proof (si_index _ Hs) as Hix; unfold sup_journal in Hix; rewrite Hix; simpl; lia.
Qed.

Lemma wp_spawn flowID s (Q : option string → Sup → Prop) :
  (child_id s flowID ∈ sup_registry s → Q None s) →
  (child_id s flowID ∉ sup_registry s →
     Q (Some (child_id s flowID))
       (Build_graphSupervisor (sup_activeGraphs s) (sup_persistence s) (sup_children s ++ [child_id s flowID])
          ({[child_id s flowID]} ∪ sup_registry s) (sup_self s) (sup_effects s) (sup_metric s) (sup_iteration s))) →
  wp (spawnGraphActor flowID) Q s.
Proof.
  intros Hin Hout. unfold spawnGraphActor. apply wp_bind, wp_get.
  fold (child_id s flowID). destruct (decide _) as [Hd|Hd]; [by apply wp_ret, Hin|].
  apply wp_bind, wp_modify, wp_ret. by apply Hout.
Qed.

Lemma spawn_inv flowID s : sup_inv s → child_id s flowID ∉ sup_registry s →
  sup_inv (Build_graphSupervisor (sup_activeGraphs s) (sup_persistence s) (sup_children s ++ [child_id s flowID])
    ({[child_id s flowID]} ∪ sup_registry s) (sup_self s) (sup_effects s) (sup_metric s) (sup_iteration s)).
Proof.
  intros [] Hnew. split; simpl; try done.
  - apply NoDup_app. split_and!; [done| |apply NoDup_singleton]. intros id Hid ->%list_elem_of_singleton. auto.
  - intros id [Hid| ->%list_elem_of_singleton]%elem_of_app; set_solver.
  - intros id [Hid| ->%list_elem_of_singleton]%elem_of_app; [auto|by exists flowID].
Qed.

Lemma wp_findChild flowID s (Q : option string → Sup → Prop) :
  (child_id s flowID ∈ sup_children s → Q (Some (child_id s flowID)) s) →
  (child_id s flowID ∉ sup_children s → Q None s) →
  wp (findChild flowID) Q s.
Proof.
  intros Hin Hout. unfold findChild. apply wp_bind, wp_get, wp_ret. fold (child_id s flowID).
  destruct (list_find _ _) as [[i id]|] eqn:Hf; simpl.
  - apply list_find_Some in Hf as (Hi & -> & _). apply Hin. by eapply list_elem_of_lookup_2.
  - apply list_find_None in Hf. apply Hout. intros Hc. rewrite Forall_forall in Hf. by apply (Hf _ Hc).
Qed.

(** What a request to a flow leads to. *)
Definition delivered (c : Command) s s' : Prop :=
  sup_effects s' = sup_effects s ++ [ToChild (child_id s (GetFlowId c)) c]
    ∧ child_id s (GetFlowId c) ∈ sup_children s'
  ∨ sup_effects s' = sup_effects s ++ [RespondError (NewGraphNotFoundError (GetFlowId c))]
    ∧ child_id s (GetFlowId c) ∈ sup_registry s ∧ child_id s (GetFlowId c) ∉ sup_children s.

Lemma sup_inv_emit e s : sup_inv s →
  sup_inv (Build_graphSupervisor (sup_activeGraphs s) (sup_persistence s) (sup_children s)
    (sup_registry s) (sup_self s) (sup_effects s ++ [e]) (sup_metric s) (sup_iteration s)).
Proof. by intros []. Qed.

Lemma wp_forward_message c s :
  sup_inv s →
  wp (forward_message c) (λ _ s', sup_inv s' ∧ sup_self s' = sup_self s ∧ delivered c s s'
    ∧ sup_persistence s' = sup_persistence s) s.
Proof.
  intros Hs. unfold forward_message, getGraphActor. apply wp_bind, wp_bind, wp_findChild; intros Hc.
  - apply wp_ret, wp_modify. split_and!; [by apply sup_inv_emit|done| |done]. left. by split.
  - apply wp_spawn; intros Hr; apply wp_modify.
    + split_and!; [by apply sup_inv_emit|done|by right|done].
    + split_and!; [by apply sup_inv_emit, (spawn_inv _ _ Hs)|done| |done]. left. split; [done|].
      simpl. apply elem_of_app. right. by apply list_elem_of_singleton.
Qed.

Lemma wp_spawn_all flows s (R : Sup → Prop) :
  sup_inv s → R s →
  (∀ f s, f ∈ flows → R s → sup_inv s → child_id s f ∉ sup_registry s → R (Build_graphSupervisor (sup_activeGraphs s)
     (sup_persistence s) (sup_children s ++ [child_id s f]) ({[child_id s f]} ∪ sup_registry s) (sup_self s)
     (sup_effects s) (sup_metric s) (sup_iteration s))) →
  wp (for_each flows (λ flowID, spawnGraphActor flowID;; mret tt)) (λ _ s', sup_inv s' ∧ R s') s.
Proof.
  intros Hs HR Hstep. apply (wp_for_each (λ _ s', sup_inv s' ∧ R s')); [done|].
  intros dn f rest s' -> [Hs' HR']. apply wp_bind, wp_spawn; intros Hr; apply wp_ret; [done|].
  split; [by apply spawn_inv|]. apply Hstep; try done. set_solver.
Qed.

(** Persisting an event and updating the active set accordingly. *)
Lemma activated_inv e f d q s :
  sup_inv s → Name q = sup_self s → Recovering q = false →
  GetSnapshotInterval (pers_provider q) ≠ 0%Z → replayable (sup_self s) (pers_provider q) →
  mx_eventIndex (pers_mixin q) = Z.of_nat (length (sup_journal (sup_put_persistence q s))) →
  sup_journal (sup_put_persistence q s) = sup_journal s ++ [e] →
  (∀ a, f a = activate a e) →
  sup_inv (set_active f d (sup_put_persistence q s)).
Proof.
  intros [] Hn Hr Hi Hsn Hx Hj Hf. split; simpl; try done.
  change (sup_journal (set_active f d (sup_put_persistence q s))) with (sup_journal (sup_put_persistence q s)).
  by rewrite Hf, Hj, active_of_snoc, si_active0.
Qed.

(** A creation request: refused without a trace when the name is taken, or
    the flow is journalled, active, and has an actor that gets the request. *)
Definition created (r : CreateGraphRequest) s s' : Prop :=
  child_id s (create_FlowId r) ∈ sup_registry s
    ∧ sup_effects s' = sup_effects s ++ [RespondError (NewGraphCreationError (create_FlowId r))]
    ∧ sup_activeGraphs s' = sup_activeGraphs s ∧ sup_journal s' = sup_journal s
  ∨ child_id s (create_FlowId r) ∉ sup_registry s
    ∧ sup_effects s' = sup_effects s ++ [ToChild (child_id s (create_FlowId r)) (CCreateGraph r)]
    ∧ sup_activeGraphs s' = {[create_FlowId r]} ∪ sup_activeGraphs s
    ∧ child_id s (create_FlowId r) ∈ sup_children s'
    ∧ sup_journal s' = sup_journal s ++ [sup_created (create_FlowId r)].

Lemma wp_create r s : sup_inv s →
  wp (sup_receiveCommand (SCommand (CCreateGraph r))) (λ _ s', sup_inv s' ∧ sup_self s' = sup_self s ∧ created r s s') s.
Proof.
  intros Hs. cbn [sup_receiveCommand]. apply wp_bind, wp_spawn; intros Hr.
  - apply wp_modify. split_and!; [by apply sup_inv_emit|done|by left].
  - apply wp_bind, wp_sup_persist; [by apply spawn_inv|]. intros q s1 Hn Hrc Hi Hsn Hx Hj.
    apply wp_bind, wp_modify, wp_modify. split_and!.
    + apply sup_inv_emit. by apply (activated_inv (sup_created (create_FlowId r)) _ _ _ _ (spawn_inv _ _ Hs Hr)).
    + done.
    + right. split_and!; try done. simpl. apply elem_of_app. right. by apply list_elem_of_singleton.
Qed.

(** A request to end a flow: journalled if the flow was active, and its actor,
    if there is one, is told to stop. *)
Definition deactivated (flowId : string) s s' : Prop :=
  sup_activeGraphs s' = sup_activeGraphs s ∖ {[flowId]}
  ∧ sup_journal s' = sup_journal s ++ (if decide (flowId ∈ sup_activeGraphs s) then [sup_completed flowId] else [])
  ∧ sup_effects s' = sup_effects s ++ (if decide (child_id s flowId ∈ sup_children s)
                                       then [PoisonPill (child_id s flowId)] else []).

Lemma wp_deactivate flowId s : sup_inv s →
  wp (sup_receiveCommand (SCommand (CDeactivateGraph flowId)))
    (λ _ s', sup_inv s' ∧ sup_self s' = sup_self s ∧ deactivated flowId s s') s.
Proof.
  intros Hs. cbn [sup_receiveCommand]. apply wp_bind, wp_get, wp_bind.
  assert (∀ s1, sup_inv s1 → sup_self s1 = sup_self s → sup_effects s1 = sup_effects s →
    sup_children s1 = sup_children s → sup_activeGraphs s1 = sup_activeGraphs s ∖ {[flowId]} →
    sup_journal s1 = sup_journal s ++ (if decide (flowId ∈ sup_activeGraphs s) then [sup_completed flowId] else []) →
    wp (child ← findChild flowId; match child with Some child => sup_emit (PoisonPill child) | None => mret tt end)
       (λ _ s', sup_inv s' ∧ sup_self s' = sup_self s ∧ deactivated flowId s s') s1) as Hrest.
  { intros s1 H1 Hself He Hc Ha Hj. assert (child_id s1 flowId = child_id s flowId) as Hid by (unfold child_id; by rewrite Hself).
    apply wp_bind, wp_findChild; rewrite Hid, Hc; intros Hin.
    - apply wp_modify. split_and!; [by apply sup_inv_emit|done|]. split_and!; [done|done|]. simpl.
      by rewrite He, decide_True.
    - apply wp_ret. split_and!; [done|done|]. split_and!; [done|done|]. by rewrite He, decide_False, app_nil_r. }
  destruct (decide (flowId ∈ sup_activeGraphs s)) as [Ha|Ha].
  - apply wp_bind, wp_sup_persist; [done|]. intros q s1 Hn Hrc Hi Hsn Hx Hj. apply wp_modify.
    apply Hrest; try done. by apply (activated_inv (sup_completed flowId)).
  - apply wp_ret, Hrest; try done; [set_solver|by rewrite app_nil_r].
Qed.

Lemma wp_sup_receiveCommand msg s : sup_inv s →
  wp (sup_receiveCommand msg) (λ _ s', sup_inv s' ∧ sup_self s' = sup_self s) s.
Proof.
  intros Hs.
  assert (∀ c, wp (forward_message c) (λ _ s', sup_inv s' ∧ sup_self s' = sup_self s) s) as Hfw.
  { intros c. eapply wp_mono; [by apply wp_forward_message|]. naive_solver. }
  destruct msg as [c|e|who| | |]; try (by apply wp_ret); [|apply Hfw|].
  - destruct c; try apply Hfw.
    + eapply wp_mono; [by apply wp_create|]. naive_solver.
    + eapply wp_mono; [by apply wp_deactivate|]. naive_solver.
  - cbn [sup_receiveCommand]. apply wp_bind, wp_get, wp_bind, wp_modify.
    apply (wp_spawn_all _ _ (λ s', sup_self s' = sup_self s)); [|done|done]. by destruct Hs.
Qed.

Lemma wp_sup_Using msg s Q : msg ≠ SStarted → sup_inv s →
  wp (sup_receiveCommand msg) (λ _ s', sup_inv s' ∧
    ∀ q, sup_inv (sup_put_persistence q s') → sup_journal (sup_put_persistence q s') = sup_journal s' →
      Q tt (sup_put_persistence q s')) s →
  wp (sup_Using msg) Q s.
Proof.
  intros Hm Hs Hw.
  assert (wp (sup_Receive msg;; s ← get_state;
    if isSnapshotRequested (sup_persistence s)
    then on_mixin sup_persistence sup_put_persistence (set_snapshotRequested false);; sup_Receive SOther
    else mret tt) Q s) as Hgoal; [|by destruct msg].
  apply wp_bind. unfold sup_Receive at 1. apply wp_bind, wp_get. rewrite (si_live _ Hs).
  eapply wp_mono; [exact Hw|]. intros [] s' [Hs' HQ]. apply wp_bind, wp_get.
  destruct (isSnapshotRequested _).
  - apply wp_bind, wp_zoom, wp_modify. unfold sup_Receive. apply wp_bind, wp_get. simpl.
    match goal with |- context [if ?b then _ else _] => assert (b = false) as -> by exact (si_live _ Hs') end.
    apply wp_ret.
    apply HQ; [|done]. by destruct Hs'.
  - apply wp_ret. destruct s'. by apply (HQ _ Hs').
Qed.

(** ** Starting over a journal *)

(** The state during the replay of the [k]-th event: [a] is the active set so
    far. *)
Definition replaying (self : string) (registry : gset string) (interval : Z) (js : list Event) (k : nat) (a : gset string) s : Prop :=
  sup_activeGraphs s = a ∧ sup_self s = self ∧ sup_children s = [] ∧ sup_registry s = registry
  ∧ sup_effects s = [] ∧ Name (sup_persistence s) = self ∧ Recovering (sup_persistence s) = true
  ∧ replayable self (pers_provider (sup_persistence s)) ∧ sup_journal s = js
  ∧ GetSnapshotInterval (pers_provider (sup_persistence s)) = interval
  ∧ mx_eventIndex (pers_mixin (sup_persistence s)) = Z.of_nat k.

Lemma wp_replay_event self registry interval js k a e s :
  replaying self registry interval js k a s →
  wp (sup_Receive (SEvent e);; on_mixin sup_persistence sup_put_persistence (set_eventIndex (Z.of_nat k + 1)%Z))
     (λ _ s', replaying self registry interval js (S k) (activate a e) s') s.
Proof.
  intros (Ha & Hs & Hc & Hr & He & Hn & Hrec & Hsn & Hj & Hi & Hk). apply wp_bind. unfold sup_Receive.
  apply wp_bind, wp_get. rewrite Hrec.
  destruct e; (apply wp_modify || apply wp_ret); apply wp_zoom, wp_modify; unfold replaying; simpl;
    rewrite ?Ha; split_and!; try done; lia.
Qed.

Lemma child_id_inj s f g : child_id s f = child_id s g → f = g.
Proof. unfold child_id. intros Heq%(inj _). by apply (inj _) in Heq. Qed.

(** The actors a restart leaves behind: one for every active flow; when none
    of the names was taken, they are exactly the children. *)
Definition respawned s : Prop :=
  (∀ f, f ∈ sup_activeGraphs s → child_id s f ∈ sup_registry s)
  ∧ (∀ id, id ∈ sup_children s → ∃ f, id = child_id s f ∧ f ∈ sup_activeGraphs s).

Lemma wp_respawn s (flows : list string) : sup_inv s → (∀ f, f ∈ flows ↔ f ∈ sup_activeGraphs s) → sup_children s = [] →
  wp (for_each flows (λ flowID, spawnGraphActor flowID;; mret tt)) (λ _ s',
    sup_inv s' ∧ respawned s' ∧ sup_self s' = sup_self s ∧ sup_activeGraphs s' = sup_activeGraphs s
    ∧ sup_journal s' = sup_journal s) s.
Proof.
  intros Hs Hflows Hc.
  set (I := λ (dn : list string) s', sup_inv s' ∧ sup_self s' = sup_self s ∧ sup_activeGraphs s' = sup_activeGraphs s
    ∧ sup_journal s' = sup_journal s ∧ (∀ f, f ∈ dn → child_id s f ∈ sup_registry s')
    ∧ (∀ id, id ∈ sup_children s' → ∃ f, id = child_id s f ∧ f ∈ sup_activeGraphs s)).
  eapply wp_mono; [apply (wp_for_each I)|].
  - unfold I. split_and!; try done; [by intros ? ?%not_elem_of_nil|]. rewrite Hc. by intros ? ?%not_elem_of_nil.
  - intros dn f rest s' Heq (Hs' & Hself & Ha & Hj & Hreg & Hch).
    assert (∀ g, child_id s' g = child_id s g) as Hid by (intros g; unfold child_id; by rewrite Hself).
    assert (f ∈ sup_activeGraphs s) as Hf by (apply Hflows; rewrite Heq; set_solver).
    apply wp_bind, wp_spawn; rewrite Hid; intros Hr; apply wp_ret; unfold I; split_and!; try done.
    + intros g [Hg| ->%list_elem_of_singleton]%elem_of_app; auto.
    + rewrite <- Hid in *. by apply spawn_inv.
    + intros g [Hg| ->%list_elem_of_singleton]%elem_of_app; simpl; set_solver.
    + intros id [Hi| ->%list_elem_of_singleton]%elem_of_app; [auto|by exists f].
  - intros [] s' (Hs' & Hself & Ha & Hj & Hreg & Hch). split_and!; try done.
    assert (∀ g, child_id s' g = child_id s g) as Hid by (intros g; unfold child_id; by rewrite Hself).
    split; rewrite ?Ha.
    + intros f Hf. rewrite Hid. by apply Hreg, Hflows.
    + intros id (f & -> & Hf)%Hch. exists f. by rewrite Hid.
Qed.

Lemma wp_sup_start self registry p :
  replayable self p → GetSnapshotInterval p ≠ 0%Z →
  wp sup_start (λ _ s, sup_inv s ∧ respawned s ∧ sup_self s = self ∧ sup_activeGraphs s = active_of (journal self p)
    ∧ sup_journal s = journal self p) (NewGraphSupervisor self registry p).
Proof.
  intros Hsn Hi. unfold sup_start. apply wp_bind. unfold sup_Receive at 1. apply wp_bind, wp_get, wp_ret.
  apply wp_bind, wp_get. apply (wp_init sup_persistence sup_put_persistence (λ q s, eq_refl) (λ q q2 s, eq_refl) _ _ _ (λ dn s', replaying self registry
    (GetSnapshotInterval p) (journal self p) (length dn) (active_of dn) s')); simpl; [done|..].
  - intros p' Hre Hj Hint. unfold replaying. split_and!; try done; unfold sup_journal; simpl; congruence.
  - intros dn e rest s' Heq Hrep. rewrite active_of_snoc, length_app, Nat.add_comm. by apply wp_replay_event.
  - intros s' (Ha & Hself & Hc & Hr & He & Hn & _ & Hsn3 & Hj & Hi3 & Hx).
    apply wp_bind, wp_zoom, wp_modify. unfold sup_Receive. apply wp_bind, wp_get. simpl.
    apply wp_bind, wp_get, wp_bind, wp_modify.
    eapply wp_mono; [apply wp_respawn|].
    + split; simpl; rewrite ?Hc; [by rewrite Hself|done|by rewrite Hi3|by rewrite Hself| | |constructor|by intros ? ?%not_elem_of_nil..].
      * rewrite Hx, <- Hj. done.
      * rewrite Ha, <- Hj. done.
    + intros f. rewrite range_order_perm. simpl. by rewrite elem_of_elements.
    + done.
    + intros [] s2 (H1 & H2 & H3 & H4 & H5). split_and!; try done; simpl in *; [congruence|congruence|].
      rewrite H5. exact Hj.
Qed.

(** ** The life of a supervisor *)

Inductive sup_reachable (self : string) : Sup → Prop :=
  | sup_started registry p s :
      replayable self p → GetSnapshotInterval p ≠ 0%Z →
      sup_start (NewGraphSupervisor self registry p) = Ret tt s → sup_reachable self s
  | sup_received msg s s' :
      sup_reachable self s → msg ≠ SStarted → sup_Using msg s = Ret tt s' → sup_reachable self s'
  | sup_child_stopped who s :
      sup_reachable self s → sup_reachable self (child_stopped who s).

Lemma child_stopped_inv who s : sup_inv s → sup_inv (child_stopped who s).
Proof.
  intros []. split; simpl; try done.
  - by apply NoDup_filter.
  - intros id [Hne Hid]%list_elem_of_filter. set_solver.
  - intros id [_ Hid]%list_elem_of_filter. auto.
Qed.

Lemma sup_reachable_inv self s : sup_reachable self s → sup_inv s ∧ sup_self s = self.
Proof.
  induction 1 as [registry p s Hsn Hi Hrun|msg s s' _ [IH Hself] Hm Hrun|who s _ [IH Hself]].
  - pose proof (wp_sup_start self registry p Hsn Hi) as Hw. unfold wp in Hw. rewrite Hrun in Hw. naive_solver.
  - assert (wp (sup_Using msg) (λ _ s', sup_inv s' ∧ sup_self s' = self) s) as Hw.
    { apply wp_sup_Using; [done|done|]. eapply wp_mono; [by apply wp_sup_receiveCommand|].
      intros [] s1 [H1 H2]. split; [done|]. intros q Hq _. split; [done|]. simpl. congruence. }
    unfold wp in Hw. by rewrite Hrun in Hw.
  - split; [by apply child_stopped_inv|done].
Qed.

(** C18: whatever a supervisor has been through (requests of
    all kinds, children stopping, earlier restarts), a new supervisor started
    over its journal always comes up, considers exactly the same flows active,
    has seen to it that an actor exists for each of them, and has spawned
    actors for no others. *)
Theorem supervisor_recovers self s registry :
  sup_reachable self s →
  ∃ s', sup_start (NewGraphSupervisor self registry (pers_provider (sup_persistence s))) = Ret tt s'
    ∧ sup_activeGraphs s' = sup_activeGraphs s
    ∧ (∀ f, f ∈ sup_activeGraphs s → child_id s' f ∈ sup_registry s')
    ∧ (∀ id, id ∈ sup_children s' → ∃ f, id = child_id s' f ∧ f ∈ sup_activeGraphs s).
Proof.
  intros [Hs <-]%sup_reachable_inv.
  pose proof (wp_sup_start (sup_self s) registry _ (si_replayable _ Hs) (si_interval _ Hs)) as Hw.
  apply wp_run in Hw as ([] & s' & Hrun & _ & [Hr1 Hr2] & _ & Ha & _). exists s'.
  rewrite (si_active _ Hs : _ = active_of (journal _ _)), <- Ha. by split_and!.
Qed.

(** C27: a request for a flow, other than creating or ending
    it, leads to exactly one effect: it is handed to the child of that flow's
    name (spawned on demand), or it is answered with "not found", the latter
    only when the name is still held by an actor that is no longer a child;
    the active flows and the journal do not change. *)
Theorem supervisor_delivers self s c :
  sup_reachable self s → (∀ r, c ≠ CCreateGraph r) → (∀ f, c ≠ CDeactivateGraph f) →
  ∃ s', sup_Using (SCommand c) s = Ret tt s'
    ∧ delivered c s s' ∧ sup_activeGraphs s' = sup_activeGraphs s ∧ sup_journal s' = sup_journal s.
Proof.
  intros [Hs <-]%sup_reachable_inv Hc Hd.
  assert (wp (sup_Using (SCommand c)) (λ _ s', delivered c s s' ∧ sup_activeGraphs s' = sup_activeGraphs s
    ∧ sup_journal s' = sup_journal s) s) as Hw; [|apply wp_run in Hw as ([] & s' & ? & ?); by exists s'].
  apply wp_sup_Using; [done|done|].
  assert (sup_receiveCommand (SCommand c) = forward_message c) as ->.
  { destruct c; try done; [by destruct (Hc r)|by destruct (Hd flowId)]. }
  eapply wp_mono; [by apply wp_forward_message|]. intros [] s1 (H1 & Hself & Hdel & Hp). split; [done|].
  intros q Hq Hj. assert (sup_journal s1 = sup_journal s) as Hj1 by (unfold sup_journal; by rewrite Hself, Hp).
  split_and!; [exact Hdel| |by rewrite Hj].
  simpl. by rewrite (si_active _ H1), (si_active _ Hs), Hj1.
Qed.

(** Creating a flow journals and activates it and hands
    the request to its new actor, unless an actor of that name exists, in which
    case nothing changes and the caller gets an error; ending a flow journals
    its end exactly if it was active and stops its actor. Both keep the active
    set in step with the journal. *)
Theorem supervisor_lifecycle self s :
  sup_reachable self s →
  (∀ r, ∃ s', sup_Using (SCommand (CCreateGraph r)) s = Ret tt s' ∧ created r s s')
  ∧ (∀ f, ∃ s', sup_Using (SCommand (CDeactivateGraph f)) s = Ret tt s' ∧ deactivated f s s').
Proof.
  intros [Hs <-]%sup_reachable_inv.
  assert (∀ msg (Q : Sup → Prop), msg ≠ SStarted →
    wp (sup_receiveCommand msg) (λ _ s', sup_inv s' ∧ sup_self s' = sup_self s ∧ Q s') s →
    (∀ q s', sup_journal (sup_put_persistence q s') = sup_journal s' → Q s' → Q (sup_put_persistence q s')) →
    ∃ s', sup_Using msg s = Ret tt s' ∧ Q s') as Hrun.
  { intros msg Q Hm Hw HQ. cut (wp (sup_Using msg) (λ _ s', Q s') s).
    { intros Hu. apply wp_run in Hu as ([] & s' & ? & ?). by exists s'. }
    apply wp_sup_Using; [done|done|]. eapply wp_mono; [exact Hw|]. intros [] s1 (H1 & _ & H2). auto. }
  split.
  - intros r. apply Hrun; [done|by apply wp_create|]. intros q s1 Hj. unfold created. by rewrite Hj.
  - intros f. apply Hrun; [done|by apply wp_deactivate|]. intros q s1 Hj. unfold deactivated. by rewrite Hj.
Qed.
End facts.

(** ** Names *)

Definition slash : Ascii.ascii := Ascii.ascii_of_nat 47.

(** A separator that ends in a character the rest of the text does not have is
    not found there. *)
Lemma split_aux_none sep s cur c :
  last sep = Some c → c ∉ s → split_aux sep s 0 cur = [reverse cur ++ s].
Proof.
  intros Hlast. revert cur. induction s as [|x s IH]; intros cur Hc; simpl; [by rewrite app_nil_r|].
  rewrite decide_False.
  - rewrite IH by set_solver. by rewrite reverse_cons, <- app_assoc.
  - intros [k Hk]. apply Hc. rewrite Hk. apply elem_of_app. left. by apply last_Some_elem_of.
Qed.

Lemma split_aux_skip sep s k cur : k ≤ length s → split_aux sep s k cur = split_aux sep (drop k s) 0 cur.
Proof.
  revert k. induction s as [|x s IH]; intros [|k] Hk; simpl in *; try done. apply IH. lia.
Qed.

Lemma split_aux_prefix sep s c :
  last sep = Some c → c ∉ s → split_aux sep (sep ++ s) 0 [] = [[]; s].
Proof.
  intros Hlast Hc. destruct sep as [|x sep]; [done|]. simpl. rewrite decide_True by (by eexists).
  rewrite split_aux_skip by (rewrite length_app; lia). simpl pred. rewrite drop_app_length.
  by rewrite (split_aux_none _ _ _ c).
Qed.

Lemma list_ascii_app s t :
  String.list_ascii_of_string (s +:+ t) = String.list_ascii_of_string s ++ String.list_ascii_of_string t.
Proof. induction s as [|a s IH]; [done|]. simpl. by rewrite IH. Qed.

(** The supervisor recognises its own children: from the id
    of the actor of a flow, [getFlowID] recovers the flow id, whenever that is
    not empty and, as no UUID does, contains no slash. *)
Theorem getFlowID_child (self flowID : string) :
  flowID ≠ "" → slash ∉ String.list_ascii_of_string flowID →
  getFlowID self (self +:+ "/" +:+ flowID) = (flowID, true).
Proof.
  intros Hne Hs. unfold getFlowID, Split.
  assert (String.list_ascii_of_string (self +:+ "/" +:+ flowID)
    = String.list_ascii_of_string (self +:+ "/") ++ String.list_ascii_of_string flowID) as ->.
  { rewrite !list_ascii_app, <- app_assoc. done. }
  rewrite (split_aux_prefix _ _ slash); [|by rewrite list_ascii_app, last_app|done]. simpl.
  rewrite String.string_of_list_ascii_of_string. by destruct flowID.
Qed.

Lemma getFlowID_child_witness :
  getFlowID "supervisor-3" ("supervisor-3" +:+ "/" +:+ "ab1200ff-0102-4304-8506-0708090a0b0c")
  = ("ab1200ff-0102-4304-8506-0708090a0b0c", true).
Proof.
  apply (getFlowID_child "supervisor-3" "ab1200ff-0102-4304-8506-0708090a0b0c"); [congruence|].
  refine (bool_decide_unpack _ _). vm_compute. exact I.
Defined.

(** ** A shard's life: two flows created, one ended, then a restart *)

#[local] Existing Instance key_order.

Definition sample_provider : InMemory.InMemoryProvider := InMemory.NewInMemoryProvider 1000.
Definition run_sup (m : M (graphSupervisor InMemory.InMemoryProvider) unit)
    (s : graphSupervisor InMemory.InMemoryProvider) : graphSupervisor InMemory.InMemoryProvider :=
  match m s with Ret _ s' => s' | _ => s end.
Definition create_flow (f : string) : SupMessage :=
  SCommand (CCreateGraph {| create_FunctionId := "fn"; create_FlowId := f |}).

Definition sup0 := run_sup sup_start (NewGraphSupervisor "supervisor-3" ∅ sample_provider).
Definition sup1 := run_sup (sup_Using (create_flow "a")) sup0.
Definition sup2 := run_sup (sup_Using (create_flow "b")) sup1.
Definition sup3 := run_sup (sup_Using (SCommand (CDeactivateGraph "a"))) sup2.

Lemma sample_supervisor : sup_reachable "supervisor-3" sup3.
Proof.
  apply (sup_received _ (SCommand (CDeactivateGraph "a")) sup2); [|discriminate|vm_compute; reflexivity].
  apply (sup_received _ (create_flow "b") sup1); [|discriminate|vm_compute; reflexivity].
  apply (sup_received _ (create_flow "a") sup0); [|discriminate|vm_compute; reflexivity].
  apply (sup_started _ ∅ sample_provider); [done|done|vm_compute; reflexivity].
Qed.

Lemma supervisor_recovers_witness :
  ∃ s', sup_start (NewGraphSupervisor "supervisor-3" ∅ (pers_provider (sup_persistence sup3))) = Ret tt s'
    ∧ sup_activeGraphs s' = sup_activeGraphs sup3
    ∧ (∀ f, f ∈ sup_activeGraphs sup3 → child_id s' f ∈ sup_registry s')
    ∧ (∀ id, id ∈ sup_children s' → ∃ f, id = child_id s' f ∧ f ∈ sup_activeGraphs sup3).
Proof. exact (supervisor_recovers "supervisor-3" sup3 ∅ sample_supervisor). Defined.

Example sample_active : elements (sup_activeGraphs sup3) = ["b"].
Proof. vm_compute. reflexivity. Qed.

Lemma supervisor_delivers_witness :
  ∃ s', sup_Using (SCommand (CCommitGraph "b")) sup3 = Ret tt s'
    ∧ delivered (CCommitGraph "b") sup3 s' ∧ sup_activeGraphs s' = sup_activeGraphs sup3
    ∧ sup_journal s' = sup_journal sup3.
Proof.
  apply (supervisor_delivers "supervisor-3" sup3 (CCommitGraph "b") sample_supervisor); congruence.
Defined.

Lemma supervisor_lifecycle_witness :
  (∀ r, ∃ s', sup_Using (SCommand (CCreateGraph r)) sup3 = Ret tt s' ∧ created r sup3 s')
  ∧ (∀ f, ∃ s', sup_Using (SCommand (CDeactivateGraph f)) sup3 = Ret tt s' ∧ deactivated f sup3 s').
Proof. exact (supervisor_lifecycle "supervisor-3" sup3 sample_supervisor). Defined.
