(* ===== verification/SqlFacts.v ===== *)
(** * Properties of the SQL event provider

    Events written by any number of actors are read back, from any index on,
    with the numbers they were written with; the SQL provider and the in-memory
    provider are interchangeable but for the numbers of events that are not read
    from the beginning; a failure leaves the tables as they were and
    reaches the failure strategy. Where reading a journal is cut short by the
    database the provider does not notice. *)

From stdpp Require Import sorting.
From S2P Require Import Prelude Model Persistence SqlProvider Strategy Supervisor SupervisorFacts.
Local Open Scope Z_scope.

(** ** Sequences of operations

    As the persistence mixin does, an event is persisted with the number of
    events its actor has persisted before. *)

Section operations.
Context {P : Type} `{!ProviderState P} `{!ReliableProvider P}.

Definition persist_next (n : string) (e : Event) : M P unit :=
  p ← get_state;
  PersistEvent n (Z.of_nat (length (journal n p))) e.

Inductive op :=
  | OpPersistEvent (n : string) (e : Event)
  | OpPersistSnapshot (n : string) (i : Z) (e : Event)
  | OpGetSnapshot (n : string)
  | OpGetEvents (n : string) (start : nat).

Inductive reply :=
  | Done
  | Snapshot (r : option (Event * Z))
  | Events (es : list (Z * Event)).

Definition run_op (o : op) : M P reply :=
  match o with
  | OpPersistEvent n e => persist_next n e;; mret Done
  | OpPersistSnapshot n i e => PersistSnapshot n i e;; mret Done
  | OpGetSnapshot n => r ← GetSnapshot n; mret (Snapshot r)
  | OpGetEvents n start => es ← GetEvents n (Z.of_nat start); mret (Events es)
  end.

Fixpoint run_ops (os : list op) : M P (list reply) :=
  match os with
  | [] => mret []
  | o :: os => r ← run_op o; rs ← run_ops os; mret (r :: rs)
  end.
End operations.

(** A read from [start] on whose numbers count from there, numbered from the
    beginning of the journal. *)
Definition renumber (o : op) (r : reply) : reply :=
  match o, r with
  | OpGetEvents _ start, Events es => Events (prod_map (Z.add (Z.of_nat start)) id <$> es)
  | _, _ => r
  end.

(** The events of one actor among the writes of many. *)
Definition events_of (n : string) (ws : list (string * Event)) : list Event :=
  omap (λ w, if decide (w.1 = n) then Some w.2 else None) ws.

Section sql.
Context {blob : Type} `{!ProtoCodec blob} `{!Database blob} `{!ProtoLaws blob} `{!DatabaseUp blob}.
Abbreviation P := (sqlProvider blob).
Implicit Types p : P.

Lemma numbered_empty d iv n : numbered n (NewSQLProvider (blob := blob) d [] [] iv).
Proof. by split. Qed.

(** Every journal stays numbered whatever the actors write. *)
Lemma wp_persist_all ws p :
  (∀ n, numbered n p) →
  wp (for_each ws (λ '(n, e), persist_next n e))
     (λ _ p', ∀ n, numbered n p' ∧ sql_journal n p' = sql_journal n p ++ events_of n ws) p.
Proof.
  intros Hp. apply (wp_for_each (λ dn p', ∀ n, numbered n p' ∧ sql_journal n p' = sql_journal n p ++ events_of n dn)).
  { intros n. split; [done|]. by rewrite app_nil_r. }
  intros dn [m e] rest p' _ Hp'. unfold persist_next. apply wp_bind, wp_get, wp_sql_PersistEvent.
  intros r p2 Hr He _ _ _ n. destruct (Hp' n) as [Hn Hj]. split.
  - eapply numbered_snoc; [done|done|done|]. done.
  - rewrite (sql_journal_snoc n m _ e r p' p2 Hr He), Hj. unfold events_of. rewrite omap_app, <- app_assoc.
    f_equal. f_equal. simpl. by case_decide.
Qed.

(** C21: after any sequence of writes of any number of
    actors to an empty database, the journal of each actor is read back from
    any index on: exactly its own events from there, in order, each with the
    number it was written with. *)
Theorem sql_journal_roundtrip d iv ws :
  ∃ p, for_each ws (λ '(n, e), persist_next n e) (NewSQLProvider d [] [] iv) = Ret tt p
    ∧ ∀ n t, ∃ p', sql_GetEvents n t p
        = Ret (imap (λ i e, (Z.of_nat (Z.to_nat t + i), e)) (drop (Z.to_nat t) (events_of n ws))) p'.
Proof.
  pose proof (wp_persist_all ws _ (numbered_empty d iv)) as Hw.
  apply wp_run in Hw as ([] & p & Hrun & Hp). exists p. split; [done|]. intros n t. destruct (Hp n) as [Hn Hj].
  assert (wp (sql_GetEvents n t) (λ r _, r = imap (λ i e, (Z.of_nat (Z.to_nat t + i), e))
    (drop (Z.to_nat t) (events_of n ws))) p) as Hg.
  { apply wp_sql_GetEvents; [done|]. intros p' k _ _ _ _. by rewrite Hj. }
  apply wp_run in Hg as (r & p' & Hrun' & ->). by exists p'.
Qed.

(** ** Equivalence with the in-memory provider *)

Definition mem_snapshot (n : string) (q : InMemory.InMemoryProvider) : option (Event * Z) :=
  let e := default InMemory.empty_entry (InMemory.store q !! n) in
  (λ s, (s, InMemory.entry_eventIndex e)) <$> InMemory.entry_snapshot e.

(** The states agree on every journal and every snapshot. *)
Definition agrees (p : P) (q : InMemory.InMemoryProvider) : Prop :=
  ∀ n, numbered n p ∧ sql_journal n p = mem_journal n q ∧ sql_snapshot n p = mem_snapshot n q.

(** The final states of two runs agree, and the result of the first is [f] of the
    result of the second. *)
Definition related {A} (f : A → A) (m1 : M P A) (m2 : M InMemory.InMemoryProvider A) (p : P)
    (q : InMemory.InMemoryProvider) : Prop :=
  ∃ a p' q', m1 p = Ret (f a) p' ∧ m2 q = Ret a q' ∧ agrees p' q'.

Lemma related_bind {A B} f g (m1 : M P A) m2 (k1 : A → M P B) k2 p q :
  related f m1 m2 p q → (∀ a p' q', agrees p' q' → related g (k1 (f a)) (k2 a) p' q') →
  related g (m1 ≫= k1) (m2 ≫= k2) p q.
Proof.
  intros (a & p' & q' & H1 & H2 & Ha) Hk. destruct (Hk a p' q' Ha) as (b & p2 & q2 & H3 & H4 & Hb).
  exists b, p2, q2. unfold mbind, M_bind. by rewrite H1, H2.
Qed.

Lemma related_wp {A} f (m1 : M P A) (m2 : M InMemory.InMemoryProvider A) p q :
  wp m1 (λ a p', wp m2 (λ b q', a = f b ∧ agrees p' q') q) p → related f m1 m2 p q.
Proof.
  intros (a & p' & H1 & Hw)%wp_run. apply wp_run in Hw as (b & q' & H2 & -> & Ha). by exists b, p', q'.
Qed.

(** The entry of an actor after an update of its entry. *)
Lemma put_entry_default n m e q :
  default InMemory.empty_entry (InMemory.store (InMemory.put_entry n e q) !! m)
  = if decide (n = m) then e else default InMemory.empty_entry (InMemory.store q !! m).
Proof. simpl. case_decide; [subst; by rewrite lookup_insert_eq|by rewrite lookup_insert_ne]. Qed.

Lemma mem_journal_same n q q' :
  (∀ n, default InMemory.empty_entry (InMemory.store q' !! n) = default InMemory.empty_entry (InMemory.store q !! n)) →
  mem_journal n q' = mem_journal n q ∧ mem_snapshot n q' = mem_snapshot n q.
Proof. intros H. rewrite !mem_journal_default. unfold mem_snapshot. by rewrite H. Qed.

Lemma related_persist n e p q : agrees p q → related id (persist_next n e) (persist_next n e) p q.
Proof.
  intros Ha. apply related_wp. apply wp_bind, wp_get, wp_sql_PersistEvent. intros r p' Hr He Hs _ _.
  apply wp_bind, wp_get, wp_bind, wp_loadOrInit. intros en l q1 -> Hst _ _. apply wp_modify. split; [done|].
  intros m. destruct (Ha m) as (Hn & Hj & Hsn). destruct (mem_journal_same m q q1 Hst) as [Hj1 Hs1].
  split_and!.
  - by eapply numbered_snoc.
  - rewrite (sql_journal_snoc m n _ e r p p' Hr He), Hj, !mem_journal_default, put_entry_default, Hst.
    case_decide; [by subst|by rewrite app_nil_r].
  - rewrite (sql_snapshot_same m p p' Hs), Hsn. unfold mem_snapshot. rewrite put_entry_default, Hst.
    by case_decide; subst.
Qed.

Lemma related_snapshot n i e p q : agrees p q → related id (PersistSnapshot n i e) (PersistSnapshot n i e) p q.
Proof.
  intros Ha. apply related_wp. apply wp_sql_PersistSnapshot. intros p' He _ Hs.
  apply wp_bind, wp_loadOrInit. intros en l q1 -> Hst _ _. apply wp_modify. split; [done|].
  intros m. destruct (Ha m) as (Hn & Hj & Hsn). split_and!.
  - by eapply numbered_events.
  - rewrite (sql_journal_events m p p' He), Hj, !mem_journal_default, put_entry_default, Hst.
    case_decide; [by subst|done].
  - rewrite Hs, Hsn. unfold mem_snapshot. rewrite put_entry_default, Hst. by case_decide; subst.
Qed.

Lemma related_get_snapshot n p q : agrees p q → related id (GetSnapshot n) (GetSnapshot n) p q.
Proof.
  intros Ha. apply related_wp. apply wp_sql_GetSnapshot. intros p' He Hs _.
  apply wp_bind, wp_loadOrInit. intros en l q1 -> Hst _ ->. apply wp_ret. split.
  - destruct (Ha n) as (_ & _ & ->). unfold mem_snapshot.
    destruct (InMemory.store q !! n) as [en|] eqn:Hn; simpl; [|done]. by destruct (InMemory.entry_snapshot en).
  - intros m. destruct (Ha m) as (Hn & Hj & Hsn). destruct (mem_journal_same m q q1 Hst) as [-> ->]. split_and!.
    + by eapply numbered_events.
    + by rewrite (sql_journal_events m p p' He).
    + by rewrite (sql_snapshot_same m p p' Hs).
Qed.

Lemma mem_GetEvents_from n (k : nat) q (Q : list (Z * Event) → InMemory.InMemoryProvider → Prop) :
  (∀ r q', (∀ n, default InMemory.empty_entry (InMemory.store q' !! n) = default InMemory.empty_entry (InMemory.store q !! n)) →
     r = imap (λ i e, (Z.of_nat i, e)) (drop k (mem_journal n q)) → Q r q') →
  wp (InMemory.mem_GetEvents n (Z.of_nat k)) Q q.
Proof.
  intros HQ. apply wp_bind, wp_loadOrInit. intros en l q1 -> Hst _ _. rewrite mem_journal_default in HQ.
  set (en := default _ _) in *. destruct (Z.leb_spec (Z.of_nat (length (InMemory.entry_events en))) (Z.of_nat k)).
  { apply wp_ret, HQ; [done|]. by rewrite drop_ge by lia. }
  destruct (Z.ltb_spec (Z.of_nat k) 0); [lia|]. apply wp_ret, HQ; [done|]. by rewrite Nat2Z.id.
Qed.

Lemma related_get_events n k p q : agrees p q →
  related (renumber (OpGetEvents n k)) (es ← GetEvents n (Z.of_nat k); mret (Events es))
    (es ← GetEvents n (Z.of_nat k); mret (Events es)) p q.
Proof.
  intros Ha. apply related_wp. apply wp_bind, wp_sql_GetEvents; [apply Ha|]. intros p' k' He Hs _ _.
  apply wp_ret, wp_bind, mem_GetEvents_from. intros r q1 Hst Hr. apply wp_ret. split.
  - unfold k'. rewrite Hr, Nat2Z.id. destruct (Ha n) as (_ & -> & _). simpl. f_equal. apply list_eq. intros i.
    rewrite list_lookup_fmap, !list_lookup_imap. destruct (_ !! i); simpl; [|done]. by rewrite Nat2Z.inj_add.
  - intros m. destruct (Ha m) as (Hn & Hj & Hsn). destruct (mem_journal_same m q q1 Hst) as [-> ->]. split_and!.
    + by eapply numbered_events.
    + by rewrite (sql_journal_events m p p' He).
    + by rewrite (sql_snapshot_same m p p' Hs).
Qed.

Lemma related_op o p q : agrees p q → related (renumber o) (run_op o) (run_op o) p q.
Proof.
  intros Ha. destruct o as [n e|n i e|n|n k]; simpl; [..|by apply related_get_events].
  all: eapply related_bind; [by (apply related_persist || apply related_snapshot || apply related_get_snapshot)|];
    intros a p' q' Ha'; by eexists _, p', q'.
Qed.
Lemma related_ops os p q : agrees p q → related (zip_with renumber os) (run_ops os) (run_ops os) p q.
Proof.
  revert p q. induction os as [|o os IH]; intros p q Ha; [by exists [], p, q|].
  eapply related_bind; [by apply related_op|]. intros r p' q' Ha'.
  eapply related_bind; [by apply IH|]. intros rs p2 q2 Ha2. by exists (r :: rs), p2, q2.
Qed.

(** C19: over a database that works, whatever sequence of writes, snapshots and
    reads the actors perform, the SQL provider over an empty database and the
    in-memory provider both carry it out without failing and give the same
    answers, up to one difference: a read from an index on gives the same events
    in the same order, but the SQL provider numbers them by their place in the
    journal and the in-memory provider by their distance from that index. *)
Theorem providers_equivalent d iv os :
  ∃ rs p q, run_ops os (NewSQLProvider d [] [] iv) = Ret (zip_with renumber os rs) p
    ∧ run_ops os (InMemory.NewInMemoryProvider iv) = Ret rs q.
Proof.
  destruct (related_ops os (NewSQLProvider d [] [] iv) (InMemory.NewInMemoryProvider iv)) as (rs & p & q & H1 & H2 & _).
  - intros n. split_and!; [apply numbered_empty|done|done].
  - by exists rs, p, q.
Qed.
End sql.

(** ** Failures *)

Section failures.
Context {blob : Type} `{!ProtoCodec blob} `{!Database blob}.
Abbreviation P := (sqlProvider blob).
Implicit Types p : P.

Definition same_tables (p p' : P) : Prop :=
  sql_events p' = sql_events p ∧ sql_snapshots p' = sql_snapshots p.

(** The row holds a message that can be read. *)
Definition readable (r : event_row blob) : Prop := ∃ e, extractData (ev_event_type r) (ev_event r) = inr e.
Definition decoded (r : event_row blob) (x : Z * Event) : Prop :=
  ev_event_index r = x.1 ∧ extractData (ev_event_type r) (ev_event r) = inr x.2.

Lemma decode_rows_outcome (l : list (event_row blob)) p :
  (Forall readable l → ∃ es, decode_rows l p = Ret es p ∧ Forall2 decoded l es)
  ∧ (¬ Forall readable l → decode_rows l p = Panic ErrMarshalling p).
Proof.
  induction l as [|r l [IH1 IH2]]; simpl.
  - split; [by exists []|]. intros []. constructor.
  - destruct (extractData (ev_event_type r) (ev_event r)) as [err|e] eqn:He; unfold mbind, M_bind.
    { split; [|done]. intros [[e' He'] _]%Forall_cons. congruence. }
    split.
    + intros [_ Hl]%Forall_cons. destruct (IH1 Hl) as (es & -> & Hes). eexists. split; [done|]. by constructor.
    + intros Hn. rewrite IH2; [done|]. intros Hl. apply Hn. constructor; [by exists e|done].
Qed.

(** The rows a read of a journal gets to see. *)
Definition journal_rows (n : string) (i : Z) p : list (event_row blob) :=
  fetched (sql_statements p) (order_by_event_index
    (filter (λ r, ev_actor_name r = n ∧ i ≤ ev_event_index r) (sql_events p))).

(** C38: what becomes of an operation when something fails. An event that cannot
    be encoded, and a statement that fails, always make a write panic, and then
    the tables are untouched; otherwise exactly one row is added. A query for a
    journal that fails, or a row among those fetched that cannot be decoded,
    always makes the read panic; otherwise it gives exactly the rows fetched (a
    failure while they are fetched is not noticed: [truncated_journal_unnoticed]).
    Reading a snapshot never panics: what cannot be read is taken for absent. The
    failures of the database in reads and writes of events are those the failure
    strategy answers by restarting the actor; a message that cannot be encoded or
    decoded stops it, and so does every failure to write a snapshot. *)
Theorem sql_failures n i e p :
  let failure := statement_error (Database := Database0) (sql_statements p) in
  match Marshal e, failure with
  | inl _, _ => sql_PersistEvent n i e p = Panic ErrMarshalling p
  | inr _, Some _ => ∃ p', sql_PersistEvent n i e p = Panic ErrPersistenceFailed p' ∧ same_tables p p'
  | inr b, None => ∃ p', sql_PersistEvent n i e p = Ret tt p' ∧ sql_snapshots p' = sql_snapshots p
      ∧ sql_events p' = sql_events p ++ [Build_event_row n (MessageName e) i b]
  end
  ∧ match failure with
    | Some _ => ∃ p', sql_GetEvents n i p = Panic ErrReadingEvents p' ∧ same_tables p p'
    | None => ∃ p', same_tables p p'
        ∧ (Forall readable (journal_rows n i p) →
             ∃ es, sql_GetEvents n i p = Ret es p' ∧ Forall2 decoded (journal_rows n i p) es)
        ∧ (¬ Forall readable (journal_rows n i p) → sql_GetEvents n i p = Panic ErrMarshalling p')
    end
  ∧ (∃ r p', sql_GetSnapshot n p = Ret r p' ∧ same_tables p p' ∧ (is_Some failure → r = None))
  ∧ match Marshal e, failure with
    | inl err, _ => sql_PersistSnapshot n i e p = Panic (PanicForeign err) p
    | inr _, Some err => ∃ p', sql_PersistSnapshot n i e p = Panic (PanicForeign err) p' ∧ same_tables p p'
    | inr _, None => ∃ p', sql_PersistSnapshot n i e p = Ret tt p' ∧ sql_events p' = sql_events p
    end
  ∧ graphDecider ErrPersistenceFailed = RestartDirective ∧ graphDecider ErrReadingEvents = RestartDirective
  ∧ graphDecider ErrMarshalling = StopDirective ∧ ∀ err, graphDecider (PanicForeign err) = StopDirective.
Proof.
  intros failure. split_and!; try done.
  - unfold sql_PersistEvent. destruct (Marshal e) as [err|b]; [done|].
    unfold mbind, M_bind, next_statement, get_state, modify. simpl. fold failure.
    destruct failure; eexists; split; [done|done|done|]. simpl. by rewrite events_key.
  - unfold sql_GetEvents, journal_rows, mbind, M_bind, next_statement, get_state, modify. simpl. fold failure.
    destruct failure; [by eexists|]. eexists. split; [|apply decode_rows_outcome]. done.
  - unfold sql_GetSnapshot, mbind, M_bind, next_statement, get_state, modify. simpl. fold failure.
    do 2 eexists. split_and!; [done..|]. by intros [? ->].
  - unfold sql_PersistSnapshot. destruct (Marshal e) as [err|b]; [done|].
    unfold mbind, M_bind, next_statement, get_state, modify. simpl. fold failure. destruct failure; by eexists.
Qed.

(** When the database fails while the rows of a
    journal are being fetched, [GetEvents] returns as if the journal ended
    there: the caller gets the first events and no error, and numbers its next
    event with the index of one that is stored. *)
Theorem truncated_journal_unnoticed n m p :
  statement_error (Database := Database0) (sql_statements p) = None →
  rows_fetched (Database := Database0) (sql_statements p) = Some m →
  numbered n p → (m < length (sql_journal n p))%nat →
  ∃ p', sql_GetEvents n 0 p = Ret (imap (λ i e, (Z.of_nat i, e)) (take m (sql_journal n p))) p'
    ∧ ∃ r, r ∈ sql_events p ∧ ev_actor_name r = n ∧ ev_event_index r = Z.of_nat m.
Proof.
  intros He Hf Hn Hm. unfold sql_GetEvents, mbind, M_bind, next_statement, get_state, modify. simpl. rewrite He.
  rewrite (select_numbered n 0 p Hn). unfold fetched. rewrite Hf. simpl.
  eexists. split; [exact (decode_numbered n 0 m p _ Hn)|].
  rewrite numbered_length in Hm by done. destruct (lookup_lt_is_Some_2 _ _ Hm) as [r Hr].
  exists r. pose proof (list_elem_of_lookup_2 _ _ _ Hr) as [Ha Hin]%list_elem_of_filter. split_and!; [done|done|].
  destruct Hn as [_ Hx]. assert ((ev_event_index <$> rows_of n (sql_events p)) !! m = Some (ev_event_index r)) as Hl
    by by rewrite list_lookup_fmap, Hr.
  rewrite Hx in Hl. apply lookup_seqZ in Hl. lia.
Qed.
End failures.

(** ** A concrete database *)

Definition message_name (e : Event) : string :=
  match e with
  | EGraphCreated _ => "model.GraphCreatedEvent"
  | EDelayScheduled _ => "model.DelayScheduledEvent"
  | EGraphTerminating _ => "model.GraphTerminatingEvent"
  | EGraphCompleted _ => "model.GraphCompletedEvent"
  | EGraphCommitted _ => "model.GraphCommittedEvent"
  | EStageAdded _ => "model.StageAddedEvent"
  | EStageCompleted _ => "model.StageCompletedEvent"
  | EStageComposed _ => "model.StageComposedEvent"
  | EFaasInvocationStarted _ => "model.FaasInvocationStartedEvent"
  | EFaasInvocationCompleted _ => "model.FaasInvocationCompletedEvent"
  end.

(** Messages that are their own encoding. *)
#[local] Instance identity_codec : ProtoCodec Event := {|
  MessageName := message_name; Marshal := inr; MessageType := λ _, true; Unmarshal := λ _, inr |}.
#[local] Instance identity_codec_laws : ProtoLaws Event.
Proof. split; [done|by eexists|]. by intros e b [= ->]. Qed.

Definition index_le (r r' : event_row Event) : Prop := ev_event_index r ≤ ev_event_index r'.
#[local] Instance index_le_dec : RelDecision index_le := λ r r', Z_le_dec (ev_event_index r) (ev_event_index r').
#[local] Instance index_le_total : Total index_le.
Proof. intros r r'. unfold index_le. lia. Qed.

Definition sample_database (fetched : nat → option nat) : Database Event.
Proof.
  refine {| statement_error := λ _, None; rows_fetched := fetched; order_by_event_index := merge_sort index_le |}.
  - apply merge_sort_Permutation.
  - apply (Sorted_merge_sort index_le).
Defined.

Section healthy.
#[local] Instance healthy_database : Database Event := sample_database (λ _, None).
#[local] Instance healthy_up : DatabaseUp Event.
Proof. by split. Qed.

Definition sample_writes : list (string * Event) :=
  [("supervisor-0", sup_created "a"); ("supervisor-1", sup_created "x"); ("supervisor-0", sup_created "b")].

Lemma sql_journal_roundtrip_witness :
  ∃ p, for_each sample_writes (λ '(n, e), persist_next n e) (NewSQLProvider (blob := Event) sqlite3 [] [] 1000) = Ret tt p
    ∧ ∀ n t, ∃ p', sql_GetEvents n t p
        = Ret (imap (λ i e, (Z.of_nat (Z.to_nat t + i), e)) (drop (Z.to_nat t) (events_of n sample_writes))) p'.
Proof. exact (sql_journal_roundtrip sqlite3 1000 sample_writes). Defined.

Definition sample_ops : list op :=
  [OpPersistEvent "a" (sup_created "f"); OpPersistEvent "a" (sup_created "h"); OpPersistSnapshot "a" 1 (sup_created "g");
   OpGetEvents "a" 1; OpGetSnapshot "a"].
Lemma providers_equivalent_witness :
  ∃ rs p q, run_ops sample_ops (NewSQLProvider (blob := Event) mysql [] [] 1000) = Ret (zip_with renumber sample_ops rs) p
    ∧ run_ops sample_ops (InMemory.NewInMemoryProvider 1000) = Ret rs q.
Proof. exact (providers_equivalent mysql 1000 sample_ops). Defined.
End healthy.

(** A database in which fetching the result of the second statement fails after
    one row. *)
Section faulty.
#[local] Instance faulty_database : Database Event :=
  sample_database (λ n, match n with 1%nat => Some 1%nat | _ => None end).
#[local] Existing Instance key_order.

Definition two_flows : sqlProvider Event :=
  NewSQLProvider sqlite3 [Build_event_row "supervisor-0" "model.GraphCreatedEvent" 0 (sup_created "a");
    Build_event_row "supervisor-0" "model.GraphCreatedEvent" 1 (sup_created "b")] [] 1000.

Definition second_statement : sqlProvider Event :=
  Build_sqlProvider 1000 sqlite3 (sql_events two_flows) [] 1.

Lemma truncated_journal_unnoticed_witness :
  ∃ p', sql_GetEvents "supervisor-0" 0 second_statement
      = Ret (imap (λ i e, (Z.of_nat i, e)) (take 1 (sql_journal "supervisor-0" second_statement))) p'
    ∧ ∃ r, r ∈ sql_events second_statement ∧ ev_actor_name r = "supervisor-0" ∧ ev_event_index r = Z.of_nat 1.
Proof.
  apply (truncated_journal_unnoticed "supervisor-0" 1 second_statement);
    [reflexivity|reflexivity|split; vm_compute; reflexivity|vm_compute; lia].
Defined.

(** A supervisor that starts over this database comes up without the second
    flow, and journals the next one it creates under the index of the lost one. *)
Definition restarted : graphSupervisor (sqlProvider Event) :=
  match sup_start (NewGraphSupervisor "supervisor-0" ∅ two_flows) with Ret _ s | Panic _ s => s
  | OutOfFuel => NewGraphSupervisor "supervisor-0" ∅ two_flows end.
Example restarted_runs : sup_start (NewGraphSupervisor "supervisor-0" ∅ two_flows) = Ret tt restarted.
Proof. vm_compute. reflexivity. Qed.
Example restarted_forgets : elements (sup_activeGraphs restarted) = ["a"].
Proof. vm_compute. reflexivity. Qed.
Example restarted_reuses_index :
  (λ r, (ev_event_index r, ev_event r)) <$>
    (match sup_Using (create_flow "c") restarted with
     | Ret _ s => sql_events (pers_provider (sup_persistence s)) | _ => [] end)
  = [(0, sup_created "a"); (1, sup_created "b"); (1, sup_created "c")].
Proof. vm_compute. reflexivity. Qed.
End faulty.
