(* ===== verification/Subscription.v ===== *)
(** * Subscribing to a journal (src/persistence/streaming.go)

    [SubscribeActorJournal] first subscribes to newly persisted events, which
    it buffers, then reads the journal and passes its events on, then flushes
    the buffer and from there on passes new events on directly. Meanwhile the
    actor goes on writing: the decorator persists an event and then publishes
    it; other actors publish theirs on the same stream. The interleaving is a
    transition system. The subscription is made in two steps, each under the
    lock of the stream: [Subscribe], then [WithPredicate]; in between every
    event passes. Events of the actor are named by their position in its
    journal, which is also the index they are published with. *)

From S2P Require Import Prelude Model Persistence.

Inductive streamed :=
  | Own (i : nat)
  | Foreign (actor : string) (i : nat).
Definition event_index (x : streamed) : nat := match x with Own i | Foreign _ i => i end.

Inductive phase := Unsubscribed | NoPredicate | Buffering | Flushing | Committed.

Record subscription := {
  persisted : nat;                (** length of the journal *)
  published : nat;                (** how many of its events have been published *)
  sub_phase : phase;
  highestIndex : Z;
  bufferedEvents : list streamed;
  delivered : list streamed;      (** the calls of [fn], in order *)
  leaked : list streamed;         (** what came in before there was a predicate to refuse it *)
}.

Definition before_subscribing (k : nat) : subscription :=
  {| persisted := k; published := k; sub_phase := Unsubscribed; highestIndex := -1;
     bufferedEvents := []; delivered := []; leaked := [] |}.

(** The writer persists an event. *)
Definition persist_one (s : subscription) : subscription :=
  {| persisted := S (persisted s); published := published s; sub_phase := sub_phase s;
     highestIndex := highestIndex s; bufferedEvents := bufferedEvents s; delivered := delivered s; leaked := leaked s |}.

(** The predicate of the subscription. *)
Definition wanted (fromIndex : nat) (x : streamed) : bool :=
  match x with Own i => bool_decide (fromIndex ≤ i) | Foreign _ _ => false end.

(** What the callback of the subscription does with an event: the events to
    buffer and the events to deliver. *)
Definition on_event (s : subscription) (x : streamed) : list streamed * list streamed :=
  match sub_phase s with
  | Unsubscribed => ([], [])
  | NoPredicate | Buffering | Flushing => ([x], [])
  | Committed => if (highestIndex s <? Z.of_nat (event_index x))%Z then ([], [x]) else ([], [])
  end.

Definition grow (buffer deliver leak : list streamed) (s : subscription) : subscription :=
  {| persisted := persisted s; published := published s; sub_phase := sub_phase s;
     highestIndex := highestIndex s; bufferedEvents := bufferedEvents s ++ buffer;
     delivered := delivered s ++ deliver; leaked := leaked s ++ leak |}.

(** An event reaches the subscription. *)
Definition offer (fromIndex : nat) (x : streamed) (s : subscription) : subscription :=
  let unfiltered := match sub_phase s with NoPredicate => true | _ => false end in
  let '(buffer, deliver) := if unfiltered || wanted fromIndex x then on_event s x else ([], []) in
  grow buffer deliver (if unfiltered && negb (wanted fromIndex x) then [x] else []) s.

(** The writer publishes its next event. *)
Definition publish_one (fromIndex : nat) (s : subscription) : subscription :=
  let s' := offer fromIndex (Own (published s)) s in
  {| persisted := persisted s'; published := S (published s); sub_phase := sub_phase s';
     highestIndex := highestIndex s'; bufferedEvents := bufferedEvents s'; delivered := delivered s'; leaked := leaked s' |}.

Definition set_phase (ph : phase) (s : subscription) : subscription :=
  {| persisted := persisted s; published := published s; sub_phase := ph;
     highestIndex := highestIndex s; bufferedEvents := bufferedEvents s; delivered := delivered s; leaked := leaked s |}.

(** [m.stream.Subscribe(...)] and [.WithPredicate(...)] *)
Definition subscribe (s : subscription) : subscription := set_phase NoPredicate s.
Definition set_predicate (s : subscription) : subscription := set_phase Buffering s.

(** [m.GetEvents(...)]: every event read is passed on, and each time the
    highest index is set, to [fromIndex]. *)
Definition read_journal (fromIndex : nat) (s : subscription) : subscription :=
  let events := seq fromIndex (persisted s - fromIndex) in
  {| persisted := persisted s; published := published s; sub_phase := Flushing;
     highestIndex := match events with [] => highestIndex s | _ => Z.of_nat fromIndex end;
     bufferedEvents := bufferedEvents s; delivered := delivered s ++ (Own <$> events); leaked := leaked s |}.

(** Under the lock: the buffer is passed on and the subscription committed. *)
Definition flush (s : subscription) : subscription :=
  {| persisted := persisted s; published := published s; sub_phase := Committed;
     highestIndex := highestIndex s; bufferedEvents := bufferedEvents s;
     delivered := delivered s ++ bufferedEvents s; leaked := leaked s |}.

(** One actor writes the journal: it publishes an event before it persists the
    next. Others publish at any time. *)
Inductive sub_step (fromIndex : nat) : subscription → subscription → Prop :=
  | step_persist s : persisted s = published s → sub_step fromIndex s (persist_one s)
  | step_publish s : published s < persisted s → sub_step fromIndex s (publish_one fromIndex s)
  | step_other actor i s : sub_step fromIndex s (offer fromIndex (Foreign actor i) s)
  | step_subscribe s : sub_phase s = Unsubscribed → sub_step fromIndex s (subscribe s)
  | step_predicate s : sub_phase s = NoPredicate → sub_step fromIndex s (set_predicate s)
  | step_read s : sub_phase s = Buffering → sub_step fromIndex s (read_journal fromIndex s)
  | step_flush s : sub_phase s = Flushing → sub_step fromIndex s (flush s).

(** ** Invariant *)

(** What a subscriber asked for, up to the end of the journal. *)
Definition asked_for (fromIndex : nat) (s : subscription) (x : streamed) : Prop :=
  ∃ i, x = Own i ∧ fromIndex ≤ i < persisted s.

Record sub_inv (fromIndex : nat) (s : subscription) : Prop := {
  sb_order : published s ≤ persisted s;
  (** what was persisted before the read has been delivered *)
  sb_read : sub_phase s = Flushing ∨ sub_phase s = Committed →
    ∀ i, fromIndex ≤ i < published s → Own i ∈ delivered s ∨ (sub_phase s = Flushing ∧ Own i ∈ bufferedEvents s);
  sb_highest : (highestIndex s = -1 ∨ highestIndex s = Z.of_nat fromIndex ∧ Own fromIndex ∈ delivered s)%Z;
  (** nothing else is delivered but what came in without a predicate *)
  sb_sound : ∀ x, x ∈ delivered s ∨ x ∈ bufferedEvents s → x ∈ leaked s ∨ asked_for fromIndex s x;
}.

Lemma sub_inv_init fromIndex k : sub_inv fromIndex (before_subscribing k).
Proof. split; simpl; try done; [by intros [|]|by left|]. intros i [?%not_elem_of_nil|?%not_elem_of_nil]; done. Qed.

Lemma sub_inv_grow fromIndex buffer deliver leak s :
  sub_inv fromIndex s → (∀ x, x ∈ deliver ∨ x ∈ buffer → x ∈ leak ∨ asked_for fromIndex s x) →
  sub_inv fromIndex (grow buffer deliver leak s).
Proof.
  intros [Ho Hr Hh Hs] Hnew. split; simpl; [done| | |].
  - intros Hp i Hi. destruct (Hr Hp i Hi) as [?|[? ?]]; set_solver.
  - destruct Hh as [?|[? ?]]; [by left|right]. set_solver.
  - intros x Hx. assert ((x ∈ delivered s ∨ x ∈ bufferedEvents s) ∨ (x ∈ deliver ∨ x ∈ buffer)) as [H%Hs|H%Hnew] by set_solver.
    all: destruct H; [left; set_solver|by right].
Qed.

(** An event that the journal holds already, or that is not the actor's, keeps
    the invariant; and if it is wanted it has been taken care of. *)
Lemma sub_inv_offer fromIndex x s :
  sub_inv fromIndex s → (wanted fromIndex x = true → asked_for fromIndex s x) →
  sub_inv fromIndex (offer fromIndex x s)
  ∧ ((sub_phase s = Flushing ∨ sub_phase s = Committed) → wanted fromIndex x = true →
     x ∈ delivered (offer fromIndex x s) ∨ (sub_phase s = Flushing ∧ x ∈ bufferedEvents (offer fromIndex x s))).
Proof.
  intros Hs Hx. unfold offer, on_event. split.
  - destruct (sub_phase s), (wanted fromIndex x); simpl; try destruct (_ <? _)%Z; apply sub_inv_grow; try done; set_solver.
  - intros [Hp|Hp] Hw; rewrite Hp, Hw; simpl; [right; split; [done|set_solver]|left].
    destruct (Z.ltb_spec (highestIndex s) (Z.of_nat (event_index x))); simpl; [set_solver|]. apply elem_of_app. left.
    destruct (Hx Hw) as (i & -> & Hi). simpl in *.
    destruct (sb_highest _ _ Hs) as [Hh|[Hh Hin]]; [lia|]. by assert (i = fromIndex) as -> by lia.
Qed.

Lemma offer_same fromIndex x s :
  sub_phase (offer fromIndex x s) = sub_phase s ∧ published (offer fromIndex x s) = published s
  ∧ persisted (offer fromIndex x s) = persisted s.
Proof. unfold offer. by repeat case_match. Qed.

Lemma sub_inv_step fromIndex s s' : sub_inv fromIndex s → sub_step fromIndex s s' → sub_inv fromIndex s'.
Proof.
  intros Hs Hstep. destruct Hstep as [s He|s Hlt|actor i s|s Hp|s Hp|s Hp|s Hp].
  - destruct Hs as [Ho Hr Hh Hsd]. split; simpl; try done; [lia|]. intros x Hx.
    destruct (Hsd x Hx) as [?|(i & -> & Hi)]; [by left|right]. exists i. simpl. split; [done|lia].
  - destruct (sub_inv_offer fromIndex (Own (published s)) s Hs) as [[Ho Hr Hh Hsd] Hnew].
    { simpl. intros Hw%bool_decide_eq_true. exists (published s). split; [done|lia]. }
    destruct (offer_same fromIndex (Own (published s)) s) as (Hph & Hpub & Hper).
    split; simpl; try done; [lia|]. intros Hc i Hi. destruct (decide (i = published s)) as [->|Hne].
    + rewrite Hph in *. apply Hnew; [done|]. simpl. apply bool_decide_eq_true; lia.
    + apply Hr; [done|lia].
  - by apply sub_inv_offer.
  - destruct Hs as [Ho Hr Hh Hsd]. split; simpl; try done. by intros [|].
  - destruct Hs as [Ho Hr Hh Hsd]. split; simpl; try done. by intros [|].
  - destruct Hs as [Ho Hr Hh Hsd]. split; simpl; try done.
    + intros _ i Hi. left. apply elem_of_app. right. apply list_elem_of_fmap. exists i. split; [done|]. apply elem_of_seq. lia.
    + destruct (persisted s - fromIndex) as [|k] eqn:Hk; simpl; [by rewrite app_nil_r|]. right. set_solver.
    + intros x [[Hx|(i & -> & Hi%elem_of_seq)%list_elem_of_fmap]%elem_of_app|Hx]; [by auto| |by auto].
      right. exists i. simpl. split; [done|lia].
  - destruct Hs as [Ho Hr Hh Hsd]. split; simpl; try done.
    + intros _ i Hi. left. destruct (Hr (or_introl Hp) i Hi) as [?|[_ ?]]; set_solver.
    + destruct Hh as [Hh|[Hh Hin]]; [by left|right]. set_solver.
    + intros x [[Hx|Hx]%elem_of_app|Hx]; auto.
Qed.

Lemma sub_inv_reachable fromIndex k s :
  rtc (sub_step fromIndex) (before_subscribing k) s → sub_inv fromIndex s.
Proof.
  intros Hs. pose proof (sub_inv_init fromIndex k) as Hi. revert Hi.
  induction Hs as [|x y z Hxy _ IH]; [done|]. intros Hx. by apply IH, (sub_inv_step _ x).
Qed.

(** C29: however the writers and the subscriber interleave,
    once [SubscribeActorJournal] has returned, every published event of the
    actor from the index asked for on has been passed to the callback; and
    whatever has been passed to it is such an event, or was published in the
    moment between subscribing and setting the predicate. *)
Theorem subscription_complete fromIndex k s :
  rtc (sub_step fromIndex) (before_subscribing k) s → sub_phase s = Committed →
  (∀ i, fromIndex ≤ i < published s → Own i ∈ delivered s)
  ∧ (∀ x, x ∈ delivered s → x ∈ leaked s ∨ asked_for fromIndex s x).
Proof.
  intros Hs%sub_inv_reachable Hc. split.
  - intros i Hi. destruct (sb_read _ _ Hs (or_intror Hc) i Hi) as [?|[Hf _]]; [done|congruence].
  - intros x Hx. apply (sb_sound _ _ Hs). by left.
Qed.

(** A schedule that delivers an event twice. *)
Definition overlap : subscription :=
  flush (read_journal 0 (publish_one 0 (persist_one (set_predicate (subscribe (before_subscribing 0)))))).

Lemma overlap_reachable : rtc (sub_step 0) (before_subscribing 0) overlap.
Proof.
  eapply rtc_l; [by apply step_subscribe|]. eapply rtc_l; [by apply step_predicate|].
  eapply rtc_l; [by apply step_persist|]. eapply rtc_l; [apply step_publish; simpl; lia|].
  eapply rtc_l; [by apply step_read|]. apply rtc_once. by apply step_flush.
Qed.

(** A schedule that delivers an event of another flow. *)
Definition intrusion : subscription :=
  flush (read_journal 0 (set_predicate (offer 0 (Foreign "supervisor-0/other" 7) (subscribe (before_subscribing 0))))).

Lemma intrusion_reachable : rtc (sub_step 0) (before_subscribing 0) intrusion.
Proof.
  eapply rtc_l; [by apply step_subscribe|]. eapply rtc_l; [apply (step_other _ "supervisor-0/other" 7)|].
  eapply rtc_l; [by apply step_predicate|]. eapply rtc_l; [by apply step_read|]. apply rtc_once. by apply step_flush.
Qed.

(** The subscription does not skip what it has
    already replayed from storage: an event persisted between the subscription
    and the read of the journal is delivered twice. And an event that another
    actor publishes between [Subscribe] and [WithPredicate] is delivered,
    though the predicate excludes it. *)
Theorem subscription_duplicates :
  (∃ s, rtc (sub_step 0) (before_subscribing 0) s ∧ sub_phase s = Committed
    ∧ published s = 1 ∧ delivered s = [Own 0; Own 0])
  ∧ (∃ s actor i, rtc (sub_step 0) (before_subscribing 0) s ∧ sub_phase s = Committed
    ∧ delivered s = [Foreign actor i]).
Proof.
  split.
  - exists overlap. split; [apply overlap_reachable|done].
  - exists intrusion. do 2 eexists. split; [apply intrusion_reachable|done].
Qed.

Lemma subscription_complete_witness :
  (∀ i, 0 ≤ i < published overlap → Own i ∈ delivered overlap)
  ∧ (∀ x, x ∈ delivered overlap → x ∈ leaked overlap ∨ asked_for 0 overlap x).
Proof. exact (subscription_complete 0 0 overlap overlap_reachable eq_refl). Defined.

(** Read from a later index on, the in-memory
    provider numbers the events from 0 again, where the contract (and the SQL
    provider) gives each event its index in the journal: a client that resumes
    a stream at index [k] is told sequence numbers that start at 0. *)
Theorem memory_journal_renumbered (p : InMemory.InMemoryProvider) (actor : string) (es : list Event) (k : nat) :
  mem_journal actor p = es → is_Some (InMemory.store p !! actor) → k < length es →
  InMemory.mem_GetEvents actor (Z.of_nat k) p
  = Ret (imap (λ i e, (Z.of_nat i, e)) (drop k es)) p.
Proof.
  intros Hj [e He] Hk. unfold mem_journal in Hj. rewrite He in Hj. subst es.
  unfold InMemory.mem_GetEvents, InMemory.loadOrInit, get_state, mbind, M_bind. rewrite He. simpl.
  destruct (Z.leb_spec (Z.of_nat (length (InMemory.entry_events e))) (Z.of_nat k)); [lia|].
  destruct (Z.ltb_spec (Z.of_nat k) 0); [lia|]. by rewrite Nat2Z.id.
Qed.

Definition two_events : InMemory.InMemoryProvider :=
  InMemory.put_entry "a" {| InMemory.entry_eventIndex := 0; InMemory.entry_snapshot := None;
    InMemory.entry_events := [EGraphCommitted {| committed_FlowId := "f"; committed_Ts := None |};
                              EGraphCompleted {| completed_FlowId := "f"; completed_FunctionId := ""; completed_Ts := None |}] |}
    (InMemory.NewInMemoryProvider 10).

Lemma memory_journal_renumbered_witness :
  InMemory.mem_GetEvents "a" 1 two_events
  = Ret [(0%Z, EGraphCompleted {| completed_FlowId := "f"; completed_FunctionId := ""; completed_Ts := None |})] two_events.
Proof.
  refine (memory_journal_renumbered two_events "a" _ 1 eq_refl _ _); [by eexists|vm_compute; lia].
Defined.
