(* ===== verification/ApiStream.v ===== *)
(** * The streaming methods of the node-local service (src/actor/api.go)

    [StreamLifecycle] and [StreamEvents] pass events from the event stream of
    the persistence provider to a client. The callback that the provider calls
    runs inside the write of an actor and must not block, so it puts events in
    a channel of bounded size and skips them when it is full; a loop takes them
    out and sends them. Writers, loop, client and the return of the method
    interleave freely: each method is a transition system with one rule per
    communication. Publishing holds the read lock of the event stream,
    subscribing and unsubscribing its write lock, so each is one step. *)

From S2P Require Import Prelude Model Persistence Uuid Sharding Api SqlProvider SqlFacts.

(** number of streaming events that will be buffered prior to being read *)
Definition eventBufferSize : nat := 1000.

(** [strings.Contains(s, "/")] *)
Definition has_slash (s : string) : bool :=
  existsb (Ascii.eqb (Ascii.ascii_of_nat 47)) (String.list_ascii_of_string s).

Definition lifecycle_of (event : Streaming.StreamEvent) : option GraphLifecycleEvent :=
  GraphLifecycleEvent_of (Streaming.StreamedEvent event) (Streaming.EventIndex event).

Definition isGraphLifecycleEvent (event : Streaming.StreamEvent) : bool :=
  match lifecycle_of event with
  | Some _ => has_slash (Streaming.ActorName event)
  | None => false
  end.

(** A sublist that is as long as the list is the list. *)
Lemma sublist_same_length {A} (l k : list A) : l `sublist_of` k → length k ≤ length l → l = k.
Proof.
  induction 1 as [|x l k H IH|x l k H IH]; simpl; intros Hl; [done|f_equal; apply IH; lia|].
  apply sublist_length in H. lia.
Qed.

(** ** StreamLifecycle *)

Module Lifecycle.
(** Where the method is; the deferred calls run in the order unsubscribe, close. *)
Inductive position :=
  | Starting
  | Subscribed                               (** after [Subscribe], before [WithPredicate] *)
  | Looping
  | Unsubscribing (err : option status_error)
  | Closing (err : option status_error)
  | Returned (err : option status_error).

Record state := {
  pos : position;
  eventsChan : list GraphLifecycleEvent;
  closed : bool;
  sent : list GraphLifecycleEvent;           (** what [stream.Send] accepted *)
  window : list Streaming.StreamEvent;       (** published before the predicate was set *)
  log : list Streaming.StreamEvent;          (** published while subscribed with the predicate *)
  skipped : nat;
  writer_panics : list panic_value;          (** panics of the callback, in the writing actors *)
}.

Definition init : state :=
  {| pos := Starting; eventsChan := []; closed := false; sent := []; window := []; log := [];
     skipped := 0; writer_panics := [] |}.

Definition at_pos (p : position) (s : state) : state :=
  {| pos := p; eventsChan := eventsChan s; closed := closed s; sent := sent s; window := window s;
     log := log s; skipped := skipped s; writer_panics := writer_panics s |}.

Definition writer_panic (w : panic_value) (s : state) : state :=
  {| pos := pos s; eventsChan := eventsChan s; closed := closed s; sent := sent s; window := window s;
     log := log s; skipped := skipped s; writer_panics := writer_panics s ++ [w] |}.

(** The callback: a type assertion, then a send that does not block. *)
Definition on_event (event : Streaming.StreamEvent) (s : state) : state :=
  match lifecycle_of event with
  | None => writer_panic InterfaceConversion s
  | Some msg =>
      if closed s then writer_panic (PanicForeign "send on closed channel") s
      else if (length (eventsChan s) <? eventBufferSize)%nat
      then {| pos := pos s; eventsChan := eventsChan s ++ [msg]; closed := closed s; sent := sent s;
              window := window s; log := log s; skipped := skipped s; writer_panics := writer_panics s |}
      else {| pos := pos s; eventsChan := eventsChan s; closed := closed s; sent := sent s;
              window := window s; log := log s; skipped := S (skipped s); writer_panics := writer_panics s |}
  end.

(** An event is published: it reaches the callback while the subscription
    exists, and once the predicate is set only if it satisfies it. *)
Definition publish (event : Streaming.StreamEvent) (s : state) : state :=
  match pos s with
  | Starting | Closing _ | Returned _ => s
  | Subscribed =>
      on_event event {| pos := pos s; eventsChan := eventsChan s; closed := closed s; sent := sent s;
        window := window s ++ [event]; log := log s; skipped := skipped s; writer_panics := writer_panics s |}
  | Looping | Unsubscribing _ =>
      let s' := {| pos := pos s; eventsChan := eventsChan s; closed := closed s; sent := sent s;
        window := window s; log := log s ++ [event]; skipped := skipped s; writer_panics := writer_panics s |} in
      if isGraphLifecycleEvent event then on_event event s' else s'
  end.

Definition take_event (rest : list GraphLifecycleEvent) (delivered : list GraphLifecycleEvent) (p : position)
    (s : state) : state :=
  {| pos := p; eventsChan := rest; closed := closed s; sent := sent s ++ delivered; window := window s;
     log := log s; skipped := skipped s; writer_panics := writer_panics s |}.

Inductive step : state → state → Prop :=
  | subscribe s : pos s = Starting → step s (at_pos Subscribed s)
  | set_predicate s : pos s = Subscribed → step s (at_pos Looping s)
  | published event s : step s (publish event s)
  | client_done s : pos s = Looping → step s (at_pos (Unsubscribing None) s)
  | send_ok msg rest s : pos s = Looping → eventsChan s = msg :: rest → step s (take_event rest [msg] Looping s)
  | send_fail err msg rest s : pos s = Looping → eventsChan s = msg :: rest →
      step s (take_event rest [] (Unsubscribing (Some err)) s)
  | unsubscribe err s : pos s = Unsubscribing err → step s (at_pos (Closing err) s)
  | close err s : pos s = Closing err →
      step s {| pos := Returned err; eventsChan := eventsChan s; closed := true; sent := sent s;
                window := window s; log := log s; skipped := skipped s; writer_panics := writer_panics s |}.

(** What the client is to be told: the lifecycle events of graph actors, and
    whatever lifecycle event slipped in before the predicate was set. *)
Definition offered (s : state) : list GraphLifecycleEvent :=
  omap lifecycle_of (window s) ++ omap lifecycle_of (filter (λ e, isGraphLifecycleEvent e = true) (log s)).

Definition running (p : position) : Prop :=
  match p with Starting | Subscribed | Looping => True | _ => False end.

Record inv (s : state) : Prop := {
  inv_closed : closed s = true → ∃ err, pos s = Returned err;
  inv_order : (running (pos s) → sent s ++ eventsChan s `sublist_of` offered s)
              ∧ sent s `sublist_of` offered s;
  inv_count : running (pos s) → length (offered s) = length (sent s) + length (eventsChan s) + skipped s;
  inv_log : pos s = Starting ∨ pos s = Subscribed → log s = [];
  inv_panics : ∀ w, w ∈ writer_panics s → w = InterfaceConversion ∧ ∃ e, e ∈ window s ∧ lifecycle_of e = None;
}.

Lemma inv_init : inv init.
Proof. by split; simpl; try (intros ? ?%not_elem_of_nil). Qed.

(** [s'] is [s] with the event recorded as published. *)
Definition recorded (event : Streaming.StreamEvent) (s s' : state) : Prop :=
  pos s' = pos s ∧ eventsChan s' = eventsChan s ∧ closed s' = closed s ∧ sent s' = sent s
  ∧ skipped s' = skipped s ∧ writer_panics s' = writer_panics s
  ∧ (∀ e, e ∈ window s → e ∈ window s') ∧ (pos s = Starting ∨ pos s = Subscribed → log s' = []).

Lemma inv_recorded event s s' : inv s → recorded event s s' → offered s' = offered s → inv s'.
Proof.
  intros [Hc [Ho1 Ho2] Hn Hl Hp] (H1 & H2 & H3 & H4 & H5 & H6 & Hw & Hl') Hoff.
  split; rewrite ?H1, ?H2, ?H3, ?H4, ?H5, ?H6, ?Hoff; try done.
  intros w Hin. destruct (Hp w Hin) as (-> & e & He & Hne). eauto.
Qed.

Lemma inv_on_event event s s' :
  inv s → recorded event s s' → closed s = false →
  offered s' = offered s ++ option_list (lifecycle_of event) →
  (lifecycle_of event = None → event ∈ window s') → inv (on_event event s').
Proof.
  intros Hs Hrec Hcl Hoff Hwin. unfold on_event. destruct (lifecycle_of event) as [msg|] eqn:He; simpl in Hoff.
  - destruct Hs as [Hc [Ho1 Ho2] Hn Hl Hp], Hrec as (H1 & H2 & H3 & H4 & H5 & H6 & Hw & Hl'). rewrite H3, Hcl.
    assert (∀ w, w ∈ writer_panics s' → w = InterfaceConversion ∧ ∃ e, e ∈ window s' ∧ lifecycle_of e = None) as Hp'.
    { rewrite H6. intros w Hin. destruct (Hp w Hin) as (-> & e & ? & ?). eauto. }
    destruct (length (eventsChan s') <? eventBufferSize); split; simpl; try done;
      fold (offered s'); change (offered _) with (offered s'); rewrite ?H1, ?Hoff, ?H2, ?H4, ?H5; try done.
    + split; [|by apply sublist_inserts_r]. intros Hr. rewrite app_assoc. apply sublist_app; auto.
    + intros Hr. rewrite !length_app, Hn by done. simpl. lia.
    + split; [|by apply sublist_inserts_r]. intros Hr. apply sublist_inserts_r. auto.
    + intros Hr. rewrite !length_app, Hn by done. simpl. lia.
  - rewrite app_nil_r in Hoff. destruct (inv_recorded event s s' Hs Hrec Hoff) as [Hc Ho Hn Hl Hp]. split; simpl; try done.
    intros w [Hin| ->%list_elem_of_singleton]%elem_of_app; [by apply Hp|]. split; [done|]. eauto.
Qed.

Lemma inv_publish event s : inv s → inv (publish event s).
Proof.
  intros Hs. unfold publish.
  assert (∀ p, pos s = p → (∀ err, p ≠ Returned err) → closed s = false) as Hcl.
  { intros p Hp Hne. destruct (closed s) eqn:Hc; [|done]. destruct (inv_closed _ Hs Hc) as [err He]. destruct (Hne err). congruence. }
  assert (∀ s', (pos s = Looping ∨ ∃ err, pos s = Unsubscribing err) →
    s' = {| pos := pos s; eventsChan := eventsChan s; closed := closed s; sent := sent s;
        window := window s; log := log s ++ [event]; skipped := skipped s; writer_panics := writer_panics s |} →
    inv (if isGraphLifecycleEvent event then on_event event s' else s')) as Hlog.
  { intros s' Hpos ->. set (s' := Build_state _ _ _ _ _ _ _ _).
    assert (recorded event s s') as Hrec.
    { unfold recorded. simpl. split_and!; try done. intros [H|H]; rewrite H in Hpos; destruct Hpos as [|[]]; done. }
    assert (closed s = false) as Hc by (destruct Hpos as [Hp|[err Hp]]; by apply (Hcl _ Hp)).
    destruct (isGraphLifecycleEvent event) eqn:He.
    - apply (inv_on_event event s); try done.
      + unfold offered, s'. simpl. rewrite filter_app, omap_app, app_assoc, filter_cons, decide_True by done.
        simpl. by destruct (lifecycle_of event).
      + unfold isGraphLifecycleEvent in He. by destruct (lifecycle_of event).
    - apply (inv_recorded event s); try done. unfold offered, s'. simpl.
      rewrite filter_app, filter_cons, decide_False by (by rewrite He). by rewrite app_nil_r. }
  destruct (pos s) eqn:Hp; try done; [|by apply Hlog; [left|]|by apply Hlog; [right; eauto|]].
  pose proof (inv_log _ Hs (or_intror Hp)) as Hl. apply (inv_on_event event s); try done.
  - unfold recorded. simpl. split_and!; try done. set_solver.
  - by apply (Hcl _ eq_refl).
  - unfold offered. simpl. rewrite Hl, !app_nil_r, omap_app. f_equal.
  - simpl. set_solver.
Qed.

Lemma inv_step s s' : inv s → step s s' → inv s'.
Proof.
  intros Hs Hstep. destruct Hstep as [s Hp|s Hp|event s|s Hp|msg rest s Hp Hch|err msg rest s Hp Hch|err s Hp|err s Hp];
    [| |by apply inv_publish| | | | |]; destruct Hs as [Hc [Ho1 Ho2] Hn Hl Hpn]; rewrite Hp in *;
    split; simpl; try done; try (intros Hcl'; destruct (Hc Hcl'); congruence).
  - intros [|]; auto.
  - by intros [|].
  - by intros [|].
  - rewrite <- app_assoc. rewrite Hch in Ho1. split; [done|]. trans (sent s ++ msg :: rest); [|exact (Ho1 I)].
    apply sublist_app; [done|]. apply sublist_skip, sublist_nil_l.
  - intros _. change (offered (take_event rest [msg] Looping s)) with (offered s). rewrite Hn, Hch, length_app by done. simpl. lia.
  - rewrite app_nil_r. split; done.
  - by intros [|].
  - by intros [|].
  - intros _. eauto.
  - by intros [|].
Qed.

Lemma reachable_inv s : rtc step init s → inv s.
Proof.
  intros Hs. pose proof inv_init as Hi. revert Hi.
  induction Hs as [|x y z Hxy _ IH]; [done|]. intros Hx. by apply IH, (inv_step x).
Qed.
End Lifecycle.

(** C32: however publishing actors, the client and the method interleave, what
    the client has been sent are lifecycle events in the order in which they were
    published, of flows once the predicate is set; while the method runs, and
    unless the buffer has been full, none of those is missing, beyond what still
    waits in the buffer. A write of an actor panics in the callback only for an
    event that is not a lifecycle event and was published between [Subscribe] and
    [WithPredicate], in particular never if none was. *)
Theorem lifecycle_stream_faithful s :
  rtc Lifecycle.step Lifecycle.init s →
  Lifecycle.sent s `sublist_of` Lifecycle.offered s
  ∧ (Lifecycle.running (Lifecycle.pos s) → Lifecycle.skipped s = 0 →
     Lifecycle.sent s ++ Lifecycle.eventsChan s = Lifecycle.offered s)
  ∧ (∀ w, w ∈ Lifecycle.writer_panics s →
       w = InterfaceConversion ∧ ∃ e, e ∈ Lifecycle.window s ∧ lifecycle_of e = None)
  ∧ (Lifecycle.window s = [] → Lifecycle.writer_panics s = []).
Proof.
  intros Hs%Lifecycle.reachable_inv. destruct Hs as [_ [Ho1 Ho2] Hn _ Hp]. split_and!; [done| |done|].
  - intros Hr Hk. apply sublist_same_length; [auto|]. rewrite length_app, Hn, Hk by done. lia.
  - intros Hw. destruct (Lifecycle.writer_panics s) as [|w ws]; [done|].
    destruct (Hp w) as (_ & e & He & _); [set_solver|]. rewrite Hw in He. by apply not_elem_of_nil in He.
Qed.

(** A lifecycle stream is being opened while a graph actor adds a stage. *)
Definition stage_event : Streaming.StreamEvent :=
  {| Streaming.ActorName := "supervisor-0/f"; Streaming.EventIndex := 1;
     Streaming.StreamedEvent := EGraphCommitted {| committed_FlowId := "f"; committed_Ts := None |} |}.
Definition in_window : Lifecycle.state :=
  Lifecycle.publish stage_event (Lifecycle.at_pos Lifecycle.Subscribed Lifecycle.init).

(** A client that opens the lifecycle stream can
    crash a flow: an event other than a lifecycle event that is persisted
    between [Subscribe] and [WithPredicate] reaches a callback that asserts its
    type, and the panic is that of the graph actor persisting it. *)
Theorem lifecycle_window_panics :
  ∃ s, rtc Lifecycle.step Lifecycle.init s ∧ Lifecycle.writer_panics s = [InterfaceConversion].
Proof.
  exists in_window. split; [|done]. eapply rtc_l; [by apply Lifecycle.subscribe|]. apply rtc_once, Lifecycle.published.
Qed.

(** Two flows are created while a client listens; it has been sent one event. *)
Definition created_event (f : string) (i : Z) : Streaming.StreamEvent :=
  {| Streaming.ActorName := "supervisor-0/" +:+ f; Streaming.EventIndex := i;
     Streaming.StreamedEvent := EGraphCreated {| created_FlowId := f; created_FunctionId := "fn"; created_Ts := None |} |}.
Definition listening : Lifecycle.state :=
  Lifecycle.publish (created_event "b" 0) (Lifecycle.publish (created_event "a" 0)
    (Lifecycle.at_pos Lifecycle.Looping (Lifecycle.at_pos Lifecycle.Subscribed Lifecycle.init))).

Lemma lifecycle_stream_faithful_witness :
  Lifecycle.sent listening `sublist_of` Lifecycle.offered listening
  ∧ (Lifecycle.running (Lifecycle.pos listening) → Lifecycle.skipped listening = 0 →
     Lifecycle.sent listening ++ Lifecycle.eventsChan listening = Lifecycle.offered listening)
  ∧ (∀ w, w ∈ Lifecycle.writer_panics listening →
       w = InterfaceConversion ∧ ∃ e, e ∈ Lifecycle.window listening ∧ lifecycle_of e = None)
  ∧ (Lifecycle.window listening = [] → Lifecycle.writer_panics listening = []).
Proof.
  apply (lifecycle_stream_faithful listening).
  eapply rtc_l; [by apply Lifecycle.subscribe|]. eapply rtc_l; [by apply Lifecycle.set_predicate|].
  eapply rtc_l; [apply Lifecycle.published|]. apply rtc_once, Lifecycle.published.
Defined.

(** ** StreamEvents

    The method starts a goroutine that sends the events, subscribes to the
    journal of the flow with a callback that fills [eventsChan], and waits on
    the channel [done] (of size 1) for the outcome. *)

Module GraphStream.
(** The goroutine: in its select, past it with an error to report, or gone. *)
Inductive goroutine := InLoop | Ending (err : option string) | Exited.

(** The method: subscribing or in [<-done] (the subscription may call back),
    then in its deferred calls, in the order unsubscribe, close. *)
Inductive position :=
  | SubscribingJournal
  | Waiting
  | Unsubscribing (err : option string)
  | Closing (err : option string)
  | Returned (err : option string).

Record state := {
  pos : position;
  sender : goroutine;
  done_ : option (option string);            (** contents of [done] *)
  eventsChan : list GraphStreamEvent;
  closed : bool;
  sent : list (option GraphStreamEvent);     (** accepted by [stream.Send]; [None] is a nil event *)
  calls : list GraphStreamEvent;             (** what the callback was called with *)
  dropped : nat;
  client_gone : bool;                        (** [stream.Context()] is done *)
  writer_panicked : bool;
}.

Definition init : state :=
  {| pos := SubscribingJournal; sender := InLoop; done_ := None; eventsChan := []; closed := false; sent := [];
     calls := []; dropped := 0; client_gone := false; writer_panicked := false |}.

Definition overflow : string := "Closing graph stream since buffer size exceeded".

(** The callback, with the time at which it converts the event. *)
Definition on_event (now : Z) (event : Streaming.StreamEvent) (s : state) : state :=
  let msg := ToGraphStreamEvent now (Streaming.StreamedEvent event) (Streaming.EventIndex event) in
  let room := (length (eventsChan s) <? eventBufferSize)%nat in
  {| pos := pos s; sender := sender s;
     done_ := if closed s || room then done_ s
              else match done_ s with None => Some (Some overflow) | d => d end;
     eventsChan := if negb (closed s) && room then eventsChan s ++ [msg] else eventsChan s;
     closed := closed s; sent := sent s; calls := calls s ++ [msg];
     dropped := if room then dropped s else S (dropped s);
     client_gone := client_gone s; writer_panicked := writer_panicked s || closed s |}.

(** While the subscription exists. *)
Definition subscribed (p : position) : bool :=
  match p with SubscribingJournal | Waiting | Unsubscribing _ => true | _ => false end.

Definition at_pos (p : position) (s : state) : state :=
  {| pos := p; sender := sender s; done_ := done_ s; eventsChan := eventsChan s; closed := closed s; sent := sent s;
     calls := calls s; dropped := dropped s; client_gone := client_gone s; writer_panicked := writer_panicked s |}.
Definition with_sender (g : goroutine) (d : option (option string)) (s : state) : state :=
  {| pos := pos s; sender := g; done_ := d; eventsChan := eventsChan s; closed := closed s; sent := sent s;
     calls := calls s; dropped := dropped s; client_gone := client_gone s; writer_panicked := writer_panicked s |}.
Definition took (g : goroutine) (rest : list GraphStreamEvent) (delivered : list (option GraphStreamEvent)) (s : state) : state :=
  {| pos := pos s; sender := g; done_ := done_ s; eventsChan := rest; closed := closed s; sent := sent s ++ delivered;
     calls := calls s; dropped := dropped s; client_gone := client_gone s; writer_panicked := writer_panicked s |}.

Inductive step : state → state → Prop :=
  (** the subscription *)
  | call now event s : subscribed (pos s) = true → step s (on_event now event s)
  (** the client *)
  | client_leaves s :
      step s {| pos := pos s; sender := sender s; done_ := done_ s; eventsChan := eventsChan s; closed := closed s;
                sent := sent s; calls := calls s; dropped := dropped s; client_gone := true;
                writer_panicked := writer_panicked s |}
  (** the goroutine *)
  | take_done v s : sender s = InLoop → done_ s = Some v → step s (with_sender (Ending v) None s)
  | context_done s : sender s = InLoop → client_gone s = true → step s (with_sender (Ending None) (done_ s) s)
  | send_ok msg rest s : sender s = InLoop → eventsChan s = msg :: rest → step s (took InLoop rest [Some msg] s)
  | send_fail err msg rest s : sender s = InLoop → eventsChan s = msg :: rest →
      step s (took (Ending (Some err)) rest [] s)
  | send_nil s : sender s = InLoop → eventsChan s = [] → closed s = true → step s (took InLoop [] [None] s)
  | send_nil_fail err s : sender s = InLoop → eventsChan s = [] → closed s = true →
      step s (took (Ending (Some err)) [] [] s)
  | report v s : sender s = Ending v →
      step s (with_sender Exited (match done_ s with None => Some v | d => d end) s)
  (** the method *)
  | journal_subscribed s : pos s = SubscribingJournal → step s (at_pos Waiting s)
  | outcome v s : pos s = Waiting → done_ s = Some v →
      step s (at_pos (Unsubscribing v) (with_sender (sender s) None s))
  | unsubscribe v s : pos s = Unsubscribing v → step s (at_pos (Closing v) s)
  | close v s : pos s = Closing v →
      step s {| pos := Returned v; sender := sender s; done_ := done_ s; eventsChan := eventsChan s; closed := true;
                sent := sent s; calls := calls s; dropped := dropped s; client_gone := client_gone s;
                writer_panicked := writer_panicked s |}.

(** The events among what was sent. *)
Definition sent_events (s : state) : list GraphStreamEvent := omap id (sent s).

(** The values on their way to the caller. *)
Definition pending_outcome (s : state) (v : option string) : Prop :=
  done_ s = Some v ∨ sender s = Ending v
  ∨ pos s = Unsubscribing v ∨ pos s = Closing v ∨ pos s = Returned v.

Record inv (s : state) : Prop := {
  iv_closed : closed s = true → ∃ v, pos s = Returned v;
  iv_panic : writer_panicked s = false;
  iv_order : sent_events s `sublist_of` calls s ∧ (dropped s = 0 → sent_events s `prefix_of` calls s);
  iv_loop : sender s = InLoop → sent_events s ++ eventsChan s `sublist_of` calls s
    ∧ (dropped s = 0 → sent_events s ++ eventsChan s = calls s);
  iv_marked : 0 < dropped s → ∃ v, pending_outcome s v;
  iv_nil : pending_outcome s None → client_gone s = true;
}.

Lemma graph_inv_init : inv init.
Proof.
  split; simpl; try done; [lia|]. intros [?|[?|[?|[?|?]]]]; done.
Qed.

Lemma inv_call now event s : inv s → subscribed (pos s) = true → inv (on_event now event s).
Proof.
  intros [Hc Hp [Ho1 Ho2] Hl Hm Hn] Hsub.
  assert (closed s = false) as Hcl.
  { destruct (closed s) eqn:E; [|done]. destruct Hc as [v Hv]; [done|]. by rewrite Hv in Hsub. }
  unfold on_event. rewrite Hcl. set (msg := ToGraphStreamEvent _ _ _). simpl.
  destruct (length (eventsChan s) <? eventBufferSize)%nat; split; simpl; rewrite ?Hp; try done.
  - split; [by apply sublist_inserts_r|]. intros Hd. by apply prefix_app_r, Ho2.
  - intros Hin. destruct (Hl Hin) as [H1 H2]. unfold sent_events in *. simpl. rewrite app_assoc. split.
    + by apply sublist_app.
    + intros Hd. by rewrite (H2 Hd).
  - split; [by apply sublist_inserts_r|done].
  - intros Hin. destruct (Hl Hin) as [H1 H2]. split; [by apply sublist_inserts_r|done].
  - intros _. destruct (done_ s) as [v|] eqn:Hd; [exists v; by left|]. exists (Some overflow). by left.
  - intros Hv. apply Hn. unfold pending_outcome in *. simpl in Hv. destruct (done_ s); naive_solver.
Qed.

(** The goroutine or the method moves on and hands over an outcome. *)
Lemma inv_move s s' :
  inv s → sent s' = sent s → calls s' = calls s → dropped s' = dropped s → client_gone s' = client_gone s →
  writer_panicked s' = writer_panicked s → (closed s' = true → ∃ v, pos s' = Returned v) →
  (sender s' = InLoop → sender s = InLoop ∧ eventsChan s' = eventsChan s) →
  ((∃ v, pending_outcome s v) → ∃ v, pending_outcome s' v) →
  (pending_outcome s' None → pending_outcome s None ∨ client_gone s = true) → inv s'.
Proof.
  intros [Hc Hp Ho Hl Hm Hn] H1 H2 H3 H4 H5 Hcl Hin Hpend Hnil. unfold sent_events in *.
  split; unfold sent_events; rewrite ?H1, ?H2, ?H3, ?H4, ?H5; try done.
  - intros Hi. destruct (Hin Hi) as [Hi' ->]. by apply Hl.
  - intros Hd. by apply Hpend, Hm.
  - intros [Hv|Hv]%Hnil; [by apply Hn|done].
Qed.

Lemma inv_took g rest msgs s d :
  inv s → sender s = InLoop → eventsChan s = d ++ rest →
  (omap id msgs = d ∧ g = InLoop ∨ omap id msgs = [] ∧ ∃ err, g = Ending (Some err)) → inv (took g rest msgs s).
Proof.
  intros [Hc Hp [Ho1 Ho2] Hl Hm Hn] Hin Hch Hg. destruct (Hl Hin) as [Hl1 Hl2]. rewrite Hch in *.
  assert (sent_events (took g rest msgs s) = sent_events s ++ omap id msgs) as Hsent.
  { unfold sent_events. simpl. by rewrite omap_app. }
  split; rewrite ?Hsent; simpl; try done.
  - destruct Hg as [[-> ->]|[-> _]]; [|by rewrite app_nil_r]. split.
    + etrans; [|exact Hl1]. rewrite app_assoc. by apply sublist_inserts_r.
    + intros Hd. exists rest. by rewrite <- app_assoc, (Hl2 Hd).
  - destruct Hg as [[-> ->]|[_ [err ->]]]; [|done]. by rewrite <- app_assoc.
  - intros (v & Hv)%Hm. unfold pending_outcome in *. simpl. rewrite Hin in Hv. destruct Hv as [|[|]]; naive_solver.
  - intros Hv. apply Hn. unfold pending_outcome in *. simpl in Hv. destruct Hg as [[_ ->]|[_ [err ->]]]; naive_solver.
Qed.

Ltac hand_over Hc :=
  unfold pending_outcome; simpl; try done;
  try (intros Hcl; destruct (Hc Hcl); congruence); intros;
  repeat match goal with
  | H : ∃ _, _ |- _ => destruct H
  | H : _ ∨ _ |- _ => destruct H
  end; simplify_eq; try congruence;
  first [tauto | match goal with v : option string |- ∃ _, _ => exists v; tauto end].

Lemma graph_inv_step s s' : inv s → step s s' → inv s'.
Proof.
  intros Hs Hstep. pose proof (iv_closed _ Hs) as Hc. destruct Hstep.
  - by apply inv_call.
  - by destruct Hs.
  - apply (inv_move s); hand_over Hc.
  - apply (inv_move s); hand_over Hc.
  - eapply (inv_took _ _ _ _ [msg]); [done..|]. by left.
  - eapply (inv_took _ _ _ _ [msg]); [done..|]. right. eauto.
  - eapply (inv_took _ _ _ _ []); [done..|]. by left.
  - eapply (inv_took _ _ _ _ []); [done..|]. right. eauto.
  - apply (inv_move s); try done; destruct (done_ s) eqn:?; hand_over Hc.
  - apply (inv_move s); hand_over Hc.
  - apply (inv_move s); hand_over Hc.
  - apply (inv_move s); hand_over Hc.
  - apply (inv_move s); hand_over Hc.
Qed.

Lemma graph_reachable_inv s : rtc step init s → inv s.
Proof.
  intros Hs. pose proof graph_inv_init as Hi. revert Hi.
  induction Hs as [|x y z Hxy _ IH]; [done|]. intros Hx. by apply IH, (graph_inv_step x).
Qed.

(** With an outcome in [done], a waiting method can return it. *)
Lemma can_return v s : pos s = Waiting → done_ s = Some v →
  ∃ s', rtc step s s' ∧ pos s' = Returned v ∧ client_gone s' = client_gone s.
Proof.
  intros Hp Hd. eexists. split; [|split].
  - eapply rtc_l; [by apply (outcome v)|]. eapply rtc_l; [by apply (unsubscribe v)|]. apply rtc_once. by apply (close v).
  - done.
  - done.
Qed.
End GraphStream.

(** C33: however the writers, the goroutine, the client and the method interleave,
    the events the client is sent are among those the subscription has called the
    callback with, each at most as often and in the order of the calls, and without
    a gap as long as the callback has not dropped one; the callback never panics in
    the writer; and the method reports success only if the client has gone, so a
    stream that lost an event does not end as if it were complete. Which events the
    subscription passes on is [subscription_complete]'s subject. *)
Theorem event_stream_faithful s :
  rtc GraphStream.step GraphStream.init s →
  GraphStream.sent_events s `sublist_of` GraphStream.calls s
  ∧ (GraphStream.dropped s = 0 → GraphStream.sent_events s `prefix_of` GraphStream.calls s)
  ∧ GraphStream.writer_panicked s = false
  ∧ (GraphStream.pos s = GraphStream.Returned None → GraphStream.client_gone s = true).
Proof.
  intros [_ Hp [Ho1 Ho2] _ _ Hn]%GraphStream.graph_reachable_inv. split_and!; try done.
  intros Hr. apply Hn. unfold GraphStream.pending_outcome. auto.
Qed.

(** Once an event has been dropped because the client
    is too slow, the method, when it waits, can always be brought to return,
    and it returns an error unless the client has gone: the stream is never
    left open with a gap in it. *)
Theorem overflow_ends_stream s :
  rtc GraphStream.step GraphStream.init s → GraphStream.pos s = GraphStream.Waiting → 0 < GraphStream.dropped s →
  ∃ s' v, rtc GraphStream.step s s' ∧ GraphStream.pos s' = GraphStream.Returned v
    ∧ (GraphStream.client_gone s = true ∨ v ≠ None).
Proof.
  intros Hs%GraphStream.graph_reachable_inv Hw Hd.
  assert (∃ v s1, rtc GraphStream.step s s1 ∧ GraphStream.pos s1 = GraphStream.Waiting ∧ GraphStream.done_ s1 = Some v
    ∧ GraphStream.client_gone s1 = GraphStream.client_gone s) as (v & s1 & H1 & Hw1 & Hd1 & Hc1).
  { destruct (GraphStream.done_ s) as [v|] eqn:Hdn; [by exists v, s|].
    destruct (GraphStream.iv_marked _ Hs Hd) as [v Hv]. unfold GraphStream.pending_outcome in Hv. rewrite Hw in Hv.
    assert (GraphStream.sender s = GraphStream.Ending v) as Hsd by naive_solver.
    exists v. eexists. split; [apply rtc_once; by apply (GraphStream.report v)|]. simpl. by rewrite Hdn. }
  destruct (GraphStream.can_return v s1 Hw1 Hd1) as (s' & Hr & Hp & Hc). exists s', v.
  split; [by etrans|]. split; [done|]. destruct v as [err|]; [by right|left].
  assert (GraphStream.inv s1) as Hi.
  { clear -Hs H1. induction H1 as [|x y z Hxy _ IH]; [done|]. by apply IH, (GraphStream.graph_inv_step x). }
  rewrite <- Hc1. apply (GraphStream.iv_nil _ Hi). by left.
Qed.

(** Writers fill the buffer while nothing is sent. *)
Definition filled (n : nat) : GraphStream.state := Nat.iter n (GraphStream.on_event 0 stage_event) GraphStream.init.

Lemma filled_reachable n :
  rtc GraphStream.step GraphStream.init (filled n) ∧ GraphStream.pos (filled n) = GraphStream.SubscribingJournal.
Proof.
  induction n as [|n [IH Hp]]; [done|]. split; [|done]. eapply rtc_r; [exact IH|]. apply GraphStream.call.
  change (GraphStream.subscribed (GraphStream.pos (filled n)) = true). by rewrite Hp.
Qed.

Lemma event_stream_faithful_witness :
  GraphStream.sent_events (filled 3) `sublist_of` GraphStream.calls (filled 3)
  ∧ (GraphStream.dropped (filled 3) = 0 → GraphStream.sent_events (filled 3) `prefix_of` GraphStream.calls (filled 3))
  ∧ GraphStream.writer_panicked (filled 3) = false
  ∧ (GraphStream.pos (filled 3) = GraphStream.Returned None → GraphStream.client_gone (filled 3) = true).
Proof. exact (event_stream_faithful (filled 3) (proj1 (filled_reachable 3))). Defined.

Definition overfull : GraphStream.state := GraphStream.at_pos GraphStream.Waiting (filled 1001).

Lemma overfull_reachable : rtc GraphStream.step GraphStream.init overfull.
Proof.
  destruct (filled_reachable 1001) as [H Hp]. eapply rtc_r; [exact H|]. by apply GraphStream.journal_subscribed.
Qed.

Lemma overflow_ends_stream_witness :
  ∃ s' v, rtc GraphStream.step overfull s' ∧ GraphStream.pos s' = GraphStream.Returned v
    ∧ (GraphStream.client_gone overfull = true ∨ v ≠ None).
Proof.
  refine (overflow_ends_stream overfull overfull_reachable eq_refl _). apply Nat.ltb_lt. vm_compute. reflexivity.
Defined.

(** ** Queries *)

Section queries.
Context {P E : Type} `{!ProviderState P} `{!ShardExtractor E}.
Abbreviation St := (Streaming.streamingProviderState P).

(** [QueryGraphEvents]: the events [fn] is called with. *)
Definition QueryGraphEvents (m : actorManager E) (flowID : string) (fromIndex : Z)
    (p : Streaming.StreamEvent → bool) : M St (parse_error + list Streaming.StreamEvent) :=
  graphPath ← graphActorPath m flowID;
  match graphPath with
  | inl err => mret (inl err)
  | inr graphPath => events ← Streaming.QueryActorJournal graphPath fromIndex p; mret (inr events)
  end.
End queries.

(** The events of a journal as a query presents them. *)
Definition stream_events (actor : string) (k : nat) (es : list Event) : list Streaming.StreamEvent :=
  imap (λ i e, {| Streaming.ActorName := actor; Streaming.EventIndex := Z.of_nat (k + i); Streaming.StreamedEvent := e |})
    (drop k es).

Lemma fmap_stream_events actor k es :
  (λ '(idx, e), {| Streaming.ActorName := actor; Streaming.EventIndex := idx; Streaming.StreamedEvent := e |})
    <$> imap (λ i e, (Z.of_nat (k + i), e)) (drop k es) = stream_events actor k es.
Proof.
  unfold stream_events. apply list_eq. intros i. rewrite list_lookup_fmap, !list_lookup_imap. by destruct (drop k es !! i).
Qed.

Section sql_queries.
Context {blob : Type} `{!ProtoCodec blob} `{!Database blob} `{!ProtoLaws blob} `{!DatabaseUp blob}.
Context {E : Type} `{!ShardExtractor E}.

(** Over the SQL provider, a query for a flow is refused exactly
    if its id has no shard; otherwise it delivers precisely the events that the
    actor of the flow, as the supervisor of its shard names it, has journalled
    from the given index on and that satisfy the predicate, in order and
    numbered as they were written. *)
Theorem query_exact (m : actorManager E) `{!ShardLaws (shardExtractor m)} flowID (fromIndex : Z) p
    (s : Streaming.streamingProviderState (sqlProvider blob)) :
  (∀ actor, numbered actor (Streaming.target s)) →
  ∃ s', QueryGraphEvents m flowID fromIndex p s
      = Ret (match shard_of flowID with
             | inl err => inl err
             | inr shard =>
                 let actor := supervisorName shard +:+ "/" +:+ flowID in
                 inr (filter (λ e, p e = true)
                   (stream_events actor (Z.to_nat fromIndex) (sql_journal actor (Streaming.target s))))
             end) s'
    ∧ same_tables (Streaming.target s) (Streaming.target s').
Proof.
  intros Hn. unfold QueryGraphEvents, graphActorPath, mbind, M_bind. rewrite ShardID_of. simpl.
  destruct (shard_of flowID) as [err|shard]; simpl; [by eexists|].
  set (actor := supervisorName shard +:+ _).
  assert (wp (sql_GetEvents actor fromIndex) (λ r p', same_tables (Streaming.target s) p' ∧
    r = imap (λ i e, (Z.of_nat (Z.to_nat fromIndex + i), e)) (drop (Z.to_nat fromIndex) (sql_journal actor (Streaming.target s))))
    (Streaming.target s)) as Hw.
  { apply wp_sql_GetEvents; [done|]. by intros p' k He Hs _ _. }
  apply wp_run in Hw as (r & p' & Hrun & Hsame & ->).
  unfold Streaming.QueryActorJournal, Streaming.on_target, zoom, mbind, M_bind. simpl. rewrite Hrun. simpl.
  rewrite fmap_stream_events. by eexists.
Qed.
End sql_queries.

(** A query for a flow with two journalled events. *)
Section sample_query.
#[local] Existing Instance identity_codec.
#[local] Existing Instance identity_codec_laws.
#[local] Existing Instance healthy_database.
#[local] Existing Instance healthy_up.

Definition sample_manager : actorManager fixedSizeShardExtractor :=
  {| shardSupervisors := {[ 0%Z := "supervisor-0" ]}; shardExtractor := NewFixedSizeExtractor 1 |}.
Definition sample_flow : string := String_ sample_uuid.
Definition sample_journals : Streaming.streamingProviderState (sqlProvider Event) :=
  Streaming.newStreamingProviderState (NewSQLProvider sqlite3
    [Build_event_row ("supervisor-0/" +:+ sample_flow) "model.GraphCreatedEvent" 0
       (EGraphCreated {| created_FlowId := sample_flow; created_FunctionId := "fn"; created_Ts := None |});
     Build_event_row ("supervisor-0/" +:+ sample_flow) "model.GraphCommittedEvent" 1
       (EGraphCommitted {| committed_FlowId := sample_flow; committed_Ts := None |})] [] 1000).

Lemma sample_numbered actor : numbered actor (Streaming.target sample_journals).
Proof.
  unfold numbered, sql_journal, rows_of. cbn [Streaming.target sample_journals Streaming.newStreamingProviderState sql_events NewSQLProvider].
  rewrite !filter_cons, filter_nil. destruct (decide _); done.
Qed.

Lemma query_exact_witness :
  ∃ s', QueryGraphEvents sample_manager sample_flow 1 (λ _, true) sample_journals
      = Ret (inr [{| Streaming.ActorName := "supervisor-0/" +:+ sample_flow; Streaming.EventIndex := 1;
                     Streaming.StreamedEvent := EGraphCommitted {| committed_FlowId := sample_flow; committed_Ts := None |} |}]) s'
    ∧ same_tables (Streaming.target sample_journals) (Streaming.target s').
Proof. exact (query_exact sample_manager sample_flow 1 (λ _, true) sample_journals sample_numbered). Defined.
End sample_query.
