(* ===== verification/StreamApi.v ===== *)
(** * Subscribing to new events (src/persistence/streaming.go, src/actor/api.go)

    The streaming provider with its event stream as it is: subscriptions are
    those of [EventStream], and persisting an event calls the functions of the
    subscriptions that accept it. Functions are named by numbers and their
    calls are logged. The interleaved reading of a journal is in
    [Subscription]. *)

From S2P Require Import Prelude Model Persistence EventStream Uuid Sharding Cluster Api.

Section provider.
Context {P : Type} `{!ProviderState P}.
Abbreviation StreamEvent := Streaming.StreamEvent.

Record StreamingProvider := {
  sp_target : P;
  sp_stream : EventStream StreamEvent nat;
  sp_calls : list (nat * StreamEvent);
}.

Definition NewStreamingProvider (target : P) : StreamingProvider :=
  {| sp_target := target; sp_stream := new_stream; sp_calls := [] |}.
Definition GetEventStream (p : StreamingProvider) : EventStream StreamEvent nat := sp_stream p.

Definition on_target {A} (m : M P A) : M StreamingProvider A :=
  zoom sp_target (λ t p, {| sp_target := t; sp_stream := sp_stream p; sp_calls := sp_calls p |}) m.
Definition on_stream {A} (m : M (EventStream StreamEvent nat) A) : M StreamingProvider A :=
  zoom sp_stream (λ es p, {| sp_target := sp_target p; sp_stream := es; sp_calls := sp_calls p |}) m.
Definition call_fns (fns : list nat) (event : StreamEvent) : M StreamingProvider unit :=
  modify (λ p, {| sp_target := sp_target p; sp_stream := sp_stream p;
                  sp_calls := sp_calls p ++ ((λ fn, (fn, event)) <$> fns) |}).

(** Everything on the stream is a [StreamEvent], so the type tests succeed. The
    subscription is live before it has its predicate: [others] is what other
    goroutines do in between. *)
Definition StreamNewEvents_during (others : M StreamingProvider unit) (predicate : StreamEvent → bool) (fn : nat) :
    M StreamingProvider nat :=
  sub ← on_stream (Subscribe fn);
  others;;
  on_stream (WithPredicate predicate sub);;
  mret sub.
Definition StreamNewEvents : (StreamEvent → bool) → nat → M StreamingProvider nat := StreamNewEvents_during (mret tt).
Definition UnsubscribeStream (sub : nat) : M StreamingProvider unit := on_stream (Unsubscribe sub).

Definition provider_PersistEvent (actorName : string) (eventIndex : Z) (event : Event) : M StreamingProvider unit :=
  on_target (PersistEvent actorName eventIndex event);;
  let e := {| Streaming.ActorName := actorName; Streaming.EventIndex := eventIndex; Streaming.StreamedEvent := event |} in
  fns ← on_stream (Publish e);
  call_fns fns e.

(** ** api.go: the same through the manager *)

Context {E : Type} `{!ShardExtractor E}.
Definition manager_StreamNewEvents (m : actorManager E) (predicate : StreamEvent → bool) (fn : nat) : M StreamingProvider nat :=
  StreamNewEvents predicate fn.
Definition manager_UnsubscribeStream (m : actorManager E) (sub : nat) : M StreamingProvider unit := UnsubscribeStream sub.
(** [SubscribeActorJournal] as a parameter: see [Subscription]. *)
Definition SubscribeGraphEvents {S} (SubscribeActorJournal : string → Z → nat → M S nat) (m : actorManager E)
    (flowID : string) (fromIndex : Z) (fn : nat) : M S (parse_error + nat) :=
  graphPath ← graphActorPath m flowID;
  match graphPath with
  | inl err => mret (inl err)
  | inr graphPath => sub ← SubscribeActorJournal graphPath fromIndex fn; mret (inr sub)
  end.

(** [StreamEvents], up to its subscription, whose callback and the sending of
    events are in [ApiStream]: [from_seq] is a [uint64] and becomes an [int]. *)
Definition manager_StreamEvents {S} (SubscribeActorJournal : string → Z → nat → M S nat) (m : actorManager E)
    (flowID : string) (fromSeq : Z) (fn : nat) : M S (parse_error + nat) :=
  graphPath ← graphActorPath m flowID;
  match graphPath with
  | inl err => mret (inl err)
  | inr graphPath => sub ← SubscribeActorJournal graphPath (int64 fromSeq) fn; mret (inr sub)
  end.

(** ** What a subscription receives *)

Context `{!ReliableProvider P}.

(** Events written one after the other. *)
Definition write_all (ws : list StreamEvent) : M StreamingProvider unit :=
  for_each ws (λ w, provider_PersistEvent (Streaming.ActorName w) (Streaming.EventIndex w) (Streaming.StreamedEvent w)).

Definition calls_of (fn : nat) (p : StreamingProvider) : list StreamEvent := (filter (λ c, c.1 = fn) (sp_calls p)).*2.

(** Whether a subscription that is gone, or has no predicate, or has one, takes
    an event. *)
Definition takes (pred : option (option (StreamEvent → bool))) (e : StreamEvent) : bool :=
  match pred with None => false | Some None => true | Some (Some q) => q e end.

(** The stream is in order, and [fn] belongs to at most the subscription [sub],
    with this predicate. *)
Definition only (fn : nat) (sub : nat) (pred : option (option (StreamEvent → bool))) (p : StreamingProvider) : Prop :=
  stream_ok (sp_stream p) ∧ (sub < length (sub_heap (sp_stream p)))%nat
  ∧ subscribed (sp_stream p) sub = ((λ q, (fn, q)) <$> pred)
  ∧ ∀ k q, k ≠ sub → subscribed (sp_stream p) k ≠ Some (fn, q).

Lemma listening_only fn sub pred p e n :
  only fn sub pred p → (sub < n)%nat →
  filter (λ f, f = fn) (omap (λ k, listening e (subscribed (sp_stream p) k)) (seq 0 n))
  = (if takes pred e then [fn] else []).
Proof.
  intros (_ & _ & Hsub & Hother) Hn.
  assert (∀ k, k ≠ sub → listening e (subscribed (sp_stream p) k) ≠ Some fn) as Hk.
  { intros k Hne Hl. destruct (subscribed (sp_stream p) k) as [[f q]|] eqn:Hs; [|done]. unfold listening in Hl. simpl in Hl.
    destruct q as [q|]; [destruct (q e)|]; simplify_eq; by eapply Hother. }
  assert (∀ l, sub ∉ l → filter (λ f, f = fn) (omap (λ k, listening e (subscribed (sp_stream p) k)) l) = []) as Hnone.
  { induction l as [|k l IH]; intros Hl; [done|]. rewrite list_omap_cons.
    specialize (Hk k ltac:(set_solver)). destruct (listening e _) as [f|]; [|apply IH; set_solver].
    rewrite filter_cons_False by congruence. apply IH. set_solver. }
  replace n with (sub + (1 + (n - sub - 1)))%nat by lia. rewrite !seq_app, !omap_app, !filter_app.
  rewrite (Hnone (seq 0 sub)) by (rewrite elem_of_seq; lia).
  rewrite (Hnone (seq (0 + sub + 1) _)) by (rewrite elem_of_seq; lia).
  rewrite app_nil_r. cbn [seq omap list_omap]. rewrite Nat.add_0_l, Hsub. unfold takes.
  destruct pred as [[q|]|]; simpl; [destruct (q e)| |]; by rewrite ?filter_cons_True.
Qed.

Lemma filter_calls (fn : nat) (e : StreamEvent) fns :
  (filter (λ c, c.1 = fn) ((λ f, (f, e)) <$> fns)).*2 = (λ _, e) <$> filter (λ f, f = fn) fns.
Proof.
  induction fns as [|f fns IH]; [done|]. rewrite fmap_cons, !filter_cons. simpl. case_decide; [|done].
  by rewrite !fmap_cons, IH.
Qed.

Lemma wp_persist_only fn sub pred actorName idx ev p (Q : unit → StreamingProvider → Prop) :
  let e := {| Streaming.ActorName := actorName; Streaming.EventIndex := idx; Streaming.StreamedEvent := ev |} in
  only fn sub pred p →
  (∀ p', only fn sub pred p' →
     calls_of fn p' = calls_of fn p ++ (if takes pred e then [e] else []) → Q tt p') →
  wp (provider_PersistEvent actorName idx ev) Q p.
Proof.
  intros e Hp HQ. unfold provider_PersistEvent. apply wp_bind, wp_zoom. eapply wp_mono; [apply PersistEvent_ok|].
  intros [] t _. fold e. apply wp_bind, wp_zoom. simpl. destruct (Publish_live e (sp_stream p) (proj1 Hp)) as (called & Hc & Hperm).
  unfold wp at 1. rewrite Hc. apply wp_modify, HQ; [exact Hp|]. unfold calls_of. simpl. rewrite filter_app, fmap_app. f_equal.
  assert (filter (λ f, f = fn) called ≡ₚ (if takes pred e then [fn] else [])) as Hf.
  { rewrite Hperm, (listening_only fn sub pred p) by (done || apply Hp). done. }
  rewrite filter_calls.
  destruct (takes pred e).
  - apply Permutation_singleton_r in Hf. by rewrite Hf.
  - apply Permutation_nil_r in Hf. by rewrite Hf.
Qed.

Lemma wp_write_all fn sub pred ws p :
  only fn sub pred p →
  wp (write_all ws) (λ _ p', only fn sub pred p'
    ∧ calls_of fn p' = calls_of fn p ++ filter (λ e, takes pred e = true) ws) p.
Proof.
  revert p. induction ws as [|w ws IH]; intros p Hp; cbn [write_all for_each].
  { apply wp_ret. split; [done|]. by rewrite app_nil_r. }
  apply wp_bind. eapply wp_persist_only; [exact Hp|]. intros p1 Hp1 Hc1. eapply wp_mono; [by apply IH|].
  intros [] p2 [Hp2 Hc2]. split; [done|]. rewrite Hc2, Hc1.
  rewrite filter_cons, <- app_assoc. f_equal. destruct w. simpl. destruct (takes _ _); by case_decide.
Qed.

Lemma wp_StreamNewEvents ws pred fn p :
  stream_ok (sp_stream p) → (∀ k q, subscribed (sp_stream p) k ≠ Some (fn, q)) →
  wp (StreamNewEvents_during (write_all ws) pred fn)
    (λ sub p', only fn sub (Some (Some pred)) p' ∧ calls_of fn p' = calls_of fn p ++ ws) p.
Proof.
  intros Hok Hfn. unfold StreamNewEvents_during. apply wp_bind, wp_zoom. eapply wp_mono; [by apply wp_Subscribe|].
  intros sub es (Hok1 & Hsub & Hlen & Hs1). apply wp_bind. eapply wp_mono; [apply (wp_write_all fn sub (Some None))|].
  { split_and!; simpl; [done|lia|by rewrite Hs1, decide_True|]. intros k q Hk. rewrite Hs1, decide_False by done. apply Hfn. }
  intros [] p1 [(Hok2 & Hlen1 & Hs & Hother) Hc]. apply wp_bind, wp_zoom.
  eapply wp_mono; [by apply (wp_WithPredicate _ _ _ fn None)|].
  intros [] es2 (Hok3 & Hlen2 & Hs2). apply wp_ret. split.
  - split_and!; simpl; [done|lia|by rewrite Hs2, decide_True|].
    intros k q Hk. rewrite Hs2, decide_False by done. by apply Hother.
  - unfold calls_of in *. simpl in *. rewrite Hc. f_equal. clear. induction ws as [|w ws IH]; [done|].
    by rewrite filter_cons_True, IH.
Qed.

Lemma wp_UnsubscribeStream fn sub pred p :
  only fn sub pred p → wp (UnsubscribeStream sub) (λ _ p', only fn sub None p' ∧ sp_calls p' = sp_calls p) p.
Proof.
  intros (Hok & Hlen & Hsub & Hother). unfold UnsubscribeStream. apply wp_zoom.
  eapply wp_mono; [apply wp_Unsubscribe; [done|by apply lookup_lt_is_Some]|]. intros [] es (Hok' & Hlen' & Hs').
  split; [|done]. split_and!; simpl; [done|lia|by rewrite Hs', decide_True|]. intros k q Hk. rewrite Hs', decide_False by done.
  by apply Hother.
Qed.

(** C34: a function subscribed to new events is called with exactly the events
    that are published between the moment its subscription has its predicate and
    its cancellation and that satisfy the predicate, once each and in the order
    in which they are published, by whatever actors, and never afterwards;
    before these it gets every event published between [Subscribe] and
    [WithPredicate], whether it satisfies the predicate or not. This holds
    whatever other subscriptions the stream has. *)
Theorem new_events_exact predicate fn ws0 ws1 ws2 p :
  stream_ok (sp_stream p) → (∀ k q, subscribed (sp_stream p) k ≠ Some (fn, q)) →
  ∃ p', (sub ← StreamNewEvents_during (write_all ws0) predicate fn;
         write_all ws1;;
         UnsubscribeStream sub;;
         write_all ws2) p = Ret tt p'
    ∧ calls_of fn p' = calls_of fn p ++ ws0 ++ filter (λ e, predicate e = true) ws1.
Proof.
  intros Hok Hfn.
  cut (wp (sub ← StreamNewEvents_during (write_all ws0) predicate fn; write_all ws1;; UnsubscribeStream sub;; write_all ws2)
    (λ _ p', calls_of fn p' = calls_of fn p ++ ws0 ++ filter (λ e, predicate e = true) ws1) p).
  { intros ([] & p' & Hr & Hc)%wp_run. eauto. }
  apply wp_bind. eapply wp_mono; [by apply wp_StreamNewEvents|]. intros sub p1 [Hp1 Hc1].
  apply wp_bind. eapply wp_mono; [by apply wp_write_all|]. intros [] p2 [Hp2 Hc2].
  apply wp_bind. eapply wp_mono; [by eapply wp_UnsubscribeStream|]. intros [] p3 [Hp3 Hc3].
  eapply wp_mono; [by apply wp_write_all|]. intros [] p4 [_ Hc4]. rewrite Hc4. unfold calls_of in *. rewrite Hc3, Hc2, Hc1.
  assert (filter (λ e, takes None e = true) ws2 = []) as ->
    by (clear; induction ws2 as [|w ws2 IH]; [done|]; by rewrite filter_cons_False).
  by rewrite app_nil_r, <- app_assoc.
Qed.
End provider.
Arguments StreamingProvider : clear implicits.

(** ** Lifecycle events of one actor *)

Definition sample_committed (actor : string) (i : Z) : Streaming.StreamEvent :=
  {| Streaming.ActorName := actor; Streaming.EventIndex := i;
     Streaming.StreamedEvent := EGraphCommitted {| committed_FlowId := actor; committed_Ts := None |} |}.

Lemma new_events_exact_witness :
  ∃ p', (sub ← StreamNewEvents_during (write_all [sample_committed "c" 0]) (λ e, String.eqb (Streaming.ActorName e) "a") 0;
         write_all [sample_committed "a" 0; sample_committed "b" 0; sample_committed "a" 1];;
         UnsubscribeStream sub;;
         write_all [sample_committed "a" 2]) (NewStreamingProvider (InMemory.NewInMemoryProvider 0)) = Ret tt p'
    ∧ calls_of 0 p' = [sample_committed "c" 0; sample_committed "a" 0; sample_committed "a" 1].
Proof.
  refine (new_events_exact (λ e, String.eqb (Streaming.ActorName e) "a") 0 [sample_committed "c" 0]
    [sample_committed "a" 0; sample_committed "b" 0; sample_committed "a" 1] [sample_committed "a" 2]
    (NewStreamingProvider (InMemory.NewInMemoryProvider 0)) stream_ok_new _).
  intros k q. done.
Defined.

(** ** Sequence numbers out of range

    A subscription reads the journal in the goroutine of the caller, so a panic
    of [GetEvents] is one of the request. *)

Definition reads_journal {P} `{!ProviderState P} (Sub : string → Z → nat → M (StreamingProvider P) nat) : Prop :=
  ∀ name from fn p w p', GetEvents name from (sp_target p) = Panic w p' → ∃ p'', Sub name from fn p = Panic w p''.

Lemma int64_negative z : (2 ^ 63 ≤ z < 2 ^ 64)%Z → (int64 z < 0)%Z.
Proof.
  intros Hz. unfold int64. replace (z + 2 ^ 63)%Z with (z - 2 ^ 63 + 1 * 2 ^ 64)%Z by lia.
  rewrite Z_mod_plus_full, Z.mod_small; lia.
Qed.
Lemma mem_GetEvents_negative name from (p : InMemory.InMemoryProvider) :
  (from < 0)%Z → ∃ p', InMemory.mem_GetEvents name from p = Panic SliceOutOfRange p'.
Proof.
  intros Hneg. unfold InMemory.mem_GetEvents, InMemory.loadOrInit, mbind, M_bind, get_state. simpl.
  destruct (InMemory.store p !! name) as [e|]; simpl.
  all: rewrite (proj2 (Z.leb_gt _ _)) by lia; rewrite (proj2 (Z.ltb_lt _ _)) by done; by eexists.
Qed.

(** Over the in-memory provider a request to stream the events of any flow, of
    this node or not, from a sequence number of 2^63 or more panics; nothing
    validates the number. *)
Theorem huge_sequence_panics {E} `{!ShardExtractor E} (m : actorManager E) `{!ShardLaws (shardExtractor m)}
    Sub flowID shard fromSeq fn (p : StreamingProvider InMemory.InMemoryProvider) :
  reads_journal Sub → shard_of flowID = inr shard → (2 ^ 63 ≤ fromSeq < 2 ^ 64)%Z →
  ∃ p', manager_StreamEvents Sub m flowID fromSeq fn p = Panic SliceOutOfRange p'.
Proof.
  intros Hsub Hshard Hseq. unfold manager_StreamEvents, graphActorPath, mbind, M_bind. rewrite ShardID_of, Hshard. simpl.
  destruct (mem_GetEvents_negative (supervisorName shard +:+ "/" +:+ flowID) (int64 fromSeq) (sp_target p)) as [p1 Hp1].
  { by apply int64_negative. }
  destruct (Hsub _ _ fn p _ _ Hp1) as [p2 Hp2]. exists p2. by setoid_rewrite Hp2.
Qed.

Example huge_sequence_panics_sample :
  ∃ p', manager_StreamEvents (λ name from fn, on_target (GetEvents name from);; mret fn)
    {| shardSupervisors := ∅; shardExtractor := NewFixedSizeExtractor 1 |} (String_ sample_uuid) (2 ^ 64 - 1) 0
    (NewStreamingProvider (InMemory.NewInMemoryProvider 0)) = Panic SliceOutOfRange p'.
Proof. by eexists. Qed.
