(* ===== verification/Http.v ===== *)
(** * Headers and responses of net/http

    What the executor, the gateway and the servers use of Go's net/http and
    net/textproto: canonical header keys, the map of a header, and a response
    being written. *)

From S2P Require Import Prelude Uuid.
Local Open Scope Z_scope.

(** ** Header keys (net/textproto) *)

Definition is_token_byte (b : Z) : bool :=
  ((48 <=? b) && (b <=? 57)) || ((65 <=? b) && (b <=? 90)) || ((97 <=? b) && (b <=? 122))
  || existsb (Z.eqb b) (bytes_of "!#$%&'*+-.^_`|~").

Definition to_upper (b : Z) : Z := if (97 <=? b) && (b <=? 122) then b - 32 else b.

Fixpoint canonical_bytes (upper : bool) (l : list Z) : list Z :=
  match l with
  | [] => []
  | b :: l => (if upper then to_upper b else to_lower b) :: canonical_bytes (b =? dash) l
  end.

(** Upper case for the first letter and any letter after a hyphen, lower case
    for the rest; unchanged if the key is not a valid header name. *)
Definition CanonicalMIMEHeaderKey (s : string) : string :=
  let l := bytes_of s in
  if forallb is_token_byte l then string_of (canonical_bytes true l) else s.

Definition Header : Type := gmap string (list string).
Definition Header_Set (h : Header) (key value : string) : Header := <[CanonicalMIMEHeaderKey key := [value]]> h.
Definition Header_Add (h : Header) (key value : string) : Header :=
  let k := CanonicalMIMEHeaderKey key in <[k := default [] (h !! k) ++ [value]]> h.
Definition Header_Get (h : Header) (key : string) : string :=
  match h !! CanonicalMIMEHeaderKey key with Some (v :: _) => v | _ => "" end.
Definition Header_Del (h : Header) (key : string) : Header := delete (CanonicalMIMEHeaderKey key) h.

(** ** Responses *)

(** A response as gin's writer keeps it: the status to send, whether gin has
    sent it, the status that has gone out, the header, the chunks the client
    has taken, and the outcomes of the writes to come (all succeed once the
    list is used up). *)
Record ResponseWriter := {
  w_status : Z;
  w_written : bool;
  w_sent : option Z;
  w_header : Header;
  w_body : list string;
  w_outcomes : list (option string);
}.
Definition new_response (outcomes : list (option string)) : ResponseWriter :=
  {| w_status := 200; w_written := false; w_sent := None; w_header := ∅; w_body := []; w_outcomes := outcomes |}.

Definition map_header (f : Header → Header) (w : ResponseWriter) : ResponseWriter :=
  {| w_status := w_status w; w_written := w_written w; w_sent := w_sent w; w_header := f (w_header w);
     w_body := w_body w; w_outcomes := w_outcomes w |}.
(** [WriteHeader] only notes the status. *)
Definition set_status (status : Z) (w : ResponseWriter) : ResponseWriter :=
  {| w_status := if 0 <? status then status else w_status w; w_written := w_written w; w_sent := w_sent w;
     w_header := w_header w; w_body := w_body w; w_outcomes := w_outcomes w |}.
(** [WriteHeaderNow] sends it, once; the first status that goes out counts. *)
Definition send_status (w : ResponseWriter) : ResponseWriter :=
  if w_written w then w
  else {| w_status := w_status w; w_written := true; w_sent := Some (default (w_status w) (w_sent w));
          w_header := w_header w; w_body := w_body w; w_outcomes := w_outcomes w |}.
(** [Flush] goes to the writer of net/http, which sends 200 if nothing was sent. *)
Definition flush (w : ResponseWriter) : ResponseWriter :=
  {| w_status := w_status w; w_written := w_written w; w_sent := Some (default 200 (w_sent w));
     w_header := w_header w; w_body := w_body w; w_outcomes := w_outcomes w |}.
Definition take_chunk (buf : string) (w : ResponseWriter) : option string * ResponseWriter :=
  let w := send_status w in
  let '(outcome, rest) := match w_outcomes w with [] => (None, []) | o :: rest => (o, rest) end in
  (outcome,
   {| w_status := w_status w; w_written := w_written w; w_sent := w_sent w; w_header := w_header w;
      w_body := match outcome with None => w_body w ++ [buf] | Some _ => w_body w end;
      w_outcomes := rest |}).

(** The same as operations of a handler, whose state is a world and the response. *)
Section writing.
Context {S : Type}.
Abbreviation W := (S * ResponseWriter)%type.

Definition world {A} (m : M S A) : M W A := zoom fst (λ s p, (s, p.2)) m.
Definition on_response (f : ResponseWriter → ResponseWriter) : M W unit := modify (λ '(s, w), (s, f w)).
Definition on_header (f : Header → Header) : M W unit := on_response (map_header f).
Definition WriteHeader (status : Z) : M W unit := on_response (set_status status).
Definition WriteHeaderNow : M W unit := on_response send_status.
Definition Flush : M W unit := on_response flush.
Definition Write (buf : string) : M W (option string) := λ '(s, w),
  let '(outcome, w') := take_chunk buf w in Ret outcome (s, w').
(** [http.Error] *)
Definition http_Error (text : string) (status : Z) : M W unit :=
  on_header (λ h, Header_Set (Header_Set h "Content-Type" "text/plain; charset=utf-8") "X-Content-Type-Options" "nosniff");;
  WriteHeader status;;
  Write (text +:+ String.String (Ascii.ascii_of_nat 10) EmptyString);;
  mret tt.
End writing.

(** ** What a response has been through *)

(** Nothing has gone out yet. *)
Definition fresh (w : ResponseWriter) : Prop := w_written w = false ∧ w_sent w = None.

(** The client does not take the [k]-th chunk from here. *)
Definition refuses (k : nat) (w : ResponseWriter) : bool :=
  match w_outcomes w !! k with Some (Some _) => true | _ => false end.

Lemma take_chunk_fresh buf w : fresh w → w_sent (take_chunk buf w).2 = Some (w_status w).
Proof. intros [H1 H2]. unfold take_chunk, send_status. rewrite H1, H2. by destruct (w_outcomes w). Qed.
Lemma take_chunk_sent buf w st : w_sent w = Some st → w_sent (take_chunk buf w).2 = Some st.
Proof. intros H1. unfold take_chunk, send_status. rewrite H1. destruct (w_written w); simpl; by destruct (w_outcomes w). Qed.
Lemma take_chunk_body buf w :
  w_body (take_chunk buf w).2 = w_body w ++ (if refuses 0 w then [] else [buf])
  ∧ ((take_chunk buf w).1 = None ↔ refuses 0 w = false).
Proof.
  unfold take_chunk, refuses, send_status.
  destruct (w_written w); simpl; destruct (w_outcomes w) as [|[e|] rest]; simpl; by rewrite ?app_nil_r.
Qed.
Lemma refuses_next k buf w : refuses k (take_chunk buf w).2 = refuses (S k) w.
Proof. unfold take_chunk, refuses, send_status. destruct (w_written w); simpl; by destruct (w_outcomes w). Qed.
