(* ===== verification/GatewayRuntime.v ===== *)
(** * Path patterns and dispatch of the REST gateway (grpc-gateway's runtime)

    The gateway compiles each route into a program for a small stack machine
    ([Pattern]) that is run over the components of a request path. Modelled
    from the vendored pattern.go and mux.go, for a multiplexer without a proto
    error handler, as the service creates it. *)

From S2P Require Import Prelude Supervisor.
Local Open Scope Z_scope.

(** ** utilities/pattern.go *)

Definition OpNop : Z := 0.
Definition OpPush : Z := 1.
Definition OpLitPush : Z := 2.
Definition OpPushM : Z := 3.
Definition OpConcatN : Z := 4.
Definition OpCapture : Z := 5.

(** ** runtime/pattern.go *)

Record op := { op_code : Z; op_operand : Z }.

Record Pattern := {
  pat_ops : list op;
  pat_pool : list string;
  pat_vars : list string;
  pat_stacksize : Z;
  pat_tailLen : Z;
  pat_verb : string;
}.

(** The variables of the loop of [NewPattern]. *)
Record builder := {
  b_ops : list op; b_stack : Z; b_maxstack : Z; b_tailLen : Z; b_pushMSeen : bool; b_vars : list string }.

Definition new_builder : builder :=
  {| b_ops := []; b_stack := 0; b_maxstack := 0; b_tailLen := 0; b_pushMSeen := false; b_vars := [] |}.

Definition emit_op (o : op) (stack tailLen : Z) (pushMSeen : bool) (vars : list string) (b : builder) : builder :=
  {| b_ops := b_ops b ++ [o]; b_stack := stack; b_maxstack := Z.max (b_maxstack b) stack; b_tailLen := tailLen;
     b_pushMSeen := pushMSeen; b_vars := vars |}.

(** The body of the loop; [None] is [ErrInvalidPattern]. *)
Definition build_op (pool : list string) (code operand : Z) (b : builder) : option builder :=
  let o := {| op_code := code; op_operand := operand |} in
  let in_tail := if b_pushMSeen b then b_tailLen b + 1 else b_tailLen b in
  let out_of_pool := (operand <? 0) || (Z.of_nat (length pool) <=? operand) in
  if code =? OpNop then Some b
  else if code =? OpPush then Some (emit_op o (b_stack b + 1) in_tail (b_pushMSeen b) (b_vars b) b)
  else if code =? OpPushM then
    if b_pushMSeen b then None else Some (emit_op o (b_stack b + 1) (b_tailLen b) true (b_vars b) b)
  else if code =? OpLitPush then
    if out_of_pool then None else Some (emit_op o (b_stack b + 1) in_tail (b_pushMSeen b) (b_vars b) b)
  else if code =? OpConcatN then
    if operand <=? 0 then None
    else if b_stack b - operand <? 0 then None
    else Some (emit_op o (b_stack b - operand + 1) (b_tailLen b) (b_pushMSeen b) (b_vars b) b)
  else if code =? OpCapture then
    if out_of_pool then None
    else
      let o := {| op_code := code; op_operand := Z.of_nat (length (b_vars b)) |} in
      if b_stack b - 1 <? 0 then None
      else Some (emit_op o (b_stack b - 1) (b_tailLen b) (b_pushMSeen b)
                   (b_vars b ++ [default "" (pool !! Z.to_nat operand)]) b)
  else None.

Fixpoint build (pool : list string) (ops : list Z) (b : builder) : option builder :=
  match ops with
  | code :: operand :: ops => b ← build_op pool code operand b; build pool ops b
  | _ => Some b
  end.

Definition NewPattern (version : Z) (ops : list Z) (pool : list string) (verb : string) : option Pattern :=
  if negb (version =? 1) then None
  else if negb (Z.of_nat (length ops) `mod` 2 =? 0) then None
  else
    b ← build pool ops new_builder;
    Some {| pat_ops := b_ops b; pat_pool := pool; pat_vars := b_vars b; pat_stacksize := b_maxstack b;
            pat_tailLen := b_tailLen b; pat_verb := verb |}.

(** The machine of [Match]; the top of the stack is the last element. *)
Record machine := { m_pos : nat; m_stack : list string; m_captured : list string }.

Section matching.
Context {S : Type}.

(** One operation: [None] is [ErrNotMatch]. *)
Definition exec_op (p : Pattern) (components : list string) (o : op) (m : machine) : M S (option machine) :=
  let l := length components in
  if op_code o =? OpNop then mret (Some m)
  else if (op_code o =? OpPush) || (op_code o =? OpLitPush) then
    match components !! m_pos m with
    | None => mret None
    | Some c =>
        let pushed := Some {| m_pos := (m_pos m + 1)%nat; m_stack := m_stack m ++ [c]; m_captured := m_captured m |} in
        if op_code o =? OpLitPush then
          match pat_pool p !! Z.to_nat (op_operand o) with
          | None => panic SliceOutOfRange
          | Some lit => mret (if String.eqb c lit then pushed else None)
          end
        else mret pushed
    end
  else if op_code o =? OpPushM then
    let tail := Z.to_nat (pat_tailLen p) in
    if (l <? m_pos m + tail)%nat then mret None
    else
      let end_ := (l - tail)%nat in
      mret (Some {| m_pos := end_;
        m_stack := m_stack m ++ [String.concat "/" (drop (m_pos m) (take end_ components))]; m_captured := m_captured m |})
  else if op_code o =? OpConcatN then
    let k := Z.of_nat (length (m_stack m)) - op_operand o in
    if k <? 0 then panic SliceOutOfRange
    else mret (Some {| m_pos := m_pos m;
           m_stack := take (Z.to_nat k) (m_stack m) ++ [String.concat "/" (drop (Z.to_nat k) (m_stack m))];
           m_captured := m_captured m |})
  else if op_code o =? OpCapture then
    match last (m_stack m) with
    | None => panic SliceOutOfRange
    | Some top =>
        if (Z.to_nat (op_operand o) <? length (m_captured m))%nat then
          mret (Some {| m_pos := m_pos m; m_stack := take (length (m_stack m) - 1) (m_stack m);
                        m_captured := <[Z.to_nat (op_operand o) := top]> (m_captured m) |})
        else panic SliceOutOfRange
    end
  else mret (Some m).

Fixpoint exec_ops (p : Pattern) (components : list string) (ops : list op) (m : machine) : M S (option machine) :=
  match ops with
  | [] => mret (Some m)
  | o :: ops =>
      r ← exec_op p components o m;
      match r with None => mret None | Some m => exec_ops p components ops m end
  end.

Definition Match (p : Pattern) (components : list string) (verb : string) : M S (option (gmap string string)) :=
  if negb (String.eqb (pat_verb p) verb) then mret None
  else
    r ← exec_ops p components (pat_ops p)
          {| m_pos := 0; m_stack := []; m_captured := replicate (length (pat_vars p)) "" |};
    mret (match r with
          | None => None
          | Some m =>
              if (m_pos m <? length components)%nat then None
              else Some (foldl (λ bindings '(x, v), <[x := v]> bindings) ∅ (zip (pat_vars p) (m_captured m)))
          end).
End matching.

(** ** runtime/mux.go *)

Section mux.
Context {S H : Type}.

Record handler := { h_pat : Pattern; h_fn : H }.

(** [handlers]: by method, in order of registration. *)
Definition ServeMux : Type := list (string * list handler).

Fixpoint Handle (meth : string) (h : handler) (mux : ServeMux) : ServeMux :=
  match mux with
  | [] => [(meth, [h])]
  | (m, hs) :: mux => if String.eqb m meth then (m, hs ++ [h]) :: mux else (m, hs) :: Handle meth h mux
  end.

Record http_request := {
  r_method : string; r_path : string; r_content_type : string;
  r_override : string;                  (** the header X-HTTP-Method-Override *)
  r_form_error : option string;         (** the error of [ParseForm], if any *)
}.

Inductive dispatch :=
  | OtherError (status : Z)
  | Invoke (h : H) (pathParams : gmap string string).

Definition isPathLengthFallback (method : string) (r : http_request) : bool :=
  String.eqb method "POST" && String.eqb (r_content_type r) "application/x-www-form-urlencoded".

Definition upper (c : Ascii.ascii) : Ascii.ascii :=
  let n := Ascii.nat_of_ascii c in
  if (97 <=? n)%nat && (n <=? 122)%nat then Ascii.ascii_of_nat (n - 32) else c.
Definition ToUpper (s : string) : string :=
  String.string_of_list_ascii (upper <$> String.list_ascii_of_string s).

Fixpoint first_match (hs : list handler) (components : list string) (verb : string) :
    M S (option (H * gmap string string)) :=
  match hs with
  | [] => mret None
  | h :: hs =>
      r ← Match (h_pat h) components verb;
      match r with
      | Some pathParams => mret (Some (h_fn h, pathParams))
      | None => first_match hs components verb
      end
  end.

(** [strings.LastIndex(s, ":")] *)
Definition colon : Ascii.ascii := Ascii.ascii_of_nat 58.
Fixpoint last_colon (s : list Ascii.ascii) : option nat :=
  match s with
  | [] => None
  | c :: s => match last_colon s with
              | Some i => Some (Datatypes.S i)
              | None => if decide (c = colon) then Some 0%nat else None
              end
  end.

(** The other methods, in the order of the map's iteration; whichever of them
    matches first gives the same answer, as only a POST falls back and then
    only GET is left. *)
Definition other_methods (method : string) (r : http_request) (components : list string) (verb : string)
    (mux : ServeMux) : M S dispatch :=
  found ← first_match (concat (snd <$> filter (λ mh, mh.1 ≠ method) mux)) components verb;
  mret (match found with
        | None => OtherError 404
        | Some (h, pathParams) =>
            if isPathLengthFallback method r
            then match r_form_error r with Some _ => OtherError 400 | None => Invoke h pathParams end
            else OtherError 405
        end).

Definition ServeHTTP (mux : ServeMux) (r : http_request) : M S dispatch :=
  match r_path r with
  | String.String c path =>
      if negb (Ascii.eqb c (Ascii.ascii_of_nat 47)) then mret (OtherError 400)
      else
        let components := Split path "/" in
        let l := length components in
        let lastc := String.list_ascii_of_string (default "" (last components)) in
        match last_colon lastc with
        | Some O => mret (OtherError 404)
        | idx =>
            let '(components, verb) :=
              match idx with
              | None => (components, "")
              | Some i => (take (l - 1) components ++ [String.string_of_list_ascii (take i lastc)],
                           String.string_of_list_ascii (drop (Datatypes.S i) lastc))
              end in
            let overridden := negb (String.eqb (r_override r) "") && isPathLengthFallback (r_method r) r in
            let method := if overridden then ToUpper (r_override r) else r_method r in
            match (if overridden then r_form_error r else None) with
            | Some _ => mret (OtherError 400)
            | None =>
                found ← first_match (default [] (snd <$> (snd <$> list_find (λ mh, mh.1 = method) mux))) components verb;
                match found with
                | Some (h, pathParams) => mret (Invoke h pathParams)
                | None => other_methods method r components verb mux
                end
            end
        end
  | EmptyString => mret (OtherError 400)
  end.
End mux.
Arguments handler : clear implicits.
Arguments ServeMux : clear implicits.
Arguments dispatch : clear implicits.
