(* ===== verification/GatewayPatterns.v ===== *)
(** * Compiled path patterns against path templates

    A route is specified by a path template, a list of literal segments and
    variables. The code generator compiles it to a program for the machine of
    [GatewayRuntime]. Running the compiled program is shown to be the same as
    matching the template, for every template. *)

From S2P Require Import Prelude GatewayRuntime.
Local Open Scope Z_scope.

Inductive segment := Lit (s : string) | Var (x : string).
Definition segment_name (g : segment) : string := match g with Lit s => s | Var x => x end.
Definition var_name (g : segment) : option string := match g with Lit _ => None | Var x => Some x end.

(** ** Reference semantics *)

(** The values of the variables, and the components left over. *)
Fixpoint match_segments (t : list segment) (cs : list string) : option (list string * list string) :=
  match t, cs with
  | [], cs => Some ([], cs)
  | Lit s :: t, c :: cs => if String.eqb c s then match_segments t cs else None
  | Var _ :: t, c :: cs => '(vs, rest) ← match_segments t cs; Some (c :: vs, rest)
  | _ :: _, [] => None
  end.

Definition bind_all (xs vs : list string) : gmap string string :=
  foldl (λ bindings '(x, v), <[x := v]> bindings) ∅ (zip xs vs).

Definition match_template (t : list segment) (cs : list string) : option (gmap string string) :=
  match match_segments t cs with
  | Some (vs, []) => Some (bind_all (omap var_name t) vs)
  | _ => None
  end.

(** ** Compilation *)

(** The i-th segment refers to the i-th entry of the pool. *)
Definition compile_segment (k : nat) (g : segment) : list Z :=
  match g with
  | Lit _ => [OpLitPush; Z.of_nat k]
  | Var _ => [OpPush; 0; OpConcatN; 1; OpCapture; Z.of_nat k]
  end.
Fixpoint compile_from (k : nat) (t : list segment) : list Z :=
  match t with
  | [] => []
  | g :: t => compile_segment k g ++ compile_from (S k) t
  end.
Definition compile (t : list segment) : list Z := compile_from 0 t.

(** What [NewPattern] makes of it: captures refer to variables by number. *)
Definition typed_segment (k j : nat) (g : segment) : list op :=
  match g with
  | Lit _ => [{| op_code := OpLitPush; op_operand := Z.of_nat k |}]
  | Var _ => [{| op_code := OpPush; op_operand := 0 |}; {| op_code := OpConcatN; op_operand := 1 |};
              {| op_code := OpCapture; op_operand := Z.of_nat j |}]
  end.
Fixpoint typed_from (k j : nat) (t : list segment) : list op :=
  match t with
  | [] => []
  | g :: t => typed_segment k j g ++ typed_from (S k) (match g with Lit _ => j | Var _ => S j end) t
  end.

Lemma build_app pool ops1 ops2 b : Nat.Even (length ops1) →
  build pool (ops1 ++ ops2) b = (b ← build pool ops1 b; build pool ops2 b).
Proof.
  intros [n Hn]. revert ops1 b Hn. induction n as [|n IH]; intros [|c [|o ops1]] b Hn; simpl in *; try lia; [done|].
  destruct (build_op pool c o b) as [b'|]; simpl; [|done]. apply IH. lia.
Qed.

(** The pool has the names of the segments from [k] on. *)
Definition in_pool (pool : list string) (k : nat) (t : list segment) : Prop :=
  ∀ i g, t !! i = Some g → pool !! (k + i)%nat = Some (segment_name g).

Lemma in_pool_cons pool k g t : in_pool pool k (g :: t) → pool !! k = Some (segment_name g) ∧ in_pool pool (S k) t.
Proof.
  intros H. split; [rewrite <- (Nat.add_0_r k); by apply H|]. intros i g' Hi.
  replace (S k + i)%nat with (k + S i)%nat by lia. by apply H.
Qed.

Lemma build_compile pool k t b :
  in_pool pool k t → 0 ≤ b_stack b → b_pushMSeen b = false →
  ∃ b', build pool (compile_from k t) b = Some b'
    ∧ b_ops b' = b_ops b ++ typed_from k (length (b_vars b)) t
    ∧ b_vars b' = b_vars b ++ omap var_name t ∧ b_tailLen b' = b_tailLen b.
Proof.
  revert k b. induction t as [|g t IH]; intros k b Hpool Hst Hseen.
  { exists b. by rewrite !app_nil_r. }
  apply in_pool_cons in Hpool as [Hk Hpool]. pose proof (lookup_lt_Some _ _ _ Hk) as Hlt.
  assert ((Z.of_nat k <? 0) || (Z.of_nat (length pool) <=? Z.of_nat k) = false) as Hin.
  { apply orb_false_iff. split; [apply Z.ltb_ge|apply Z.leb_gt]; lia. }
  destruct g as [s|x]; cbn [compile_from compile_segment typed_from typed_segment]; rewrite build_app by first [by exists 1%nat|by exists 3%nat].
  - set (b1 := emit_op {| op_code := OpLitPush; op_operand := Z.of_nat k |} (b_stack b + 1) (b_tailLen b) false (b_vars b) b).
    assert (build pool [OpLitPush; Z.of_nat k] b = Some b1) as ->.
    { cbn [build]. unfold build_op. cbn [Z.eqb OpLitPush OpNop OpPush OpPushM]. simpl. rewrite Hin, Hseen. done. }
    destruct (IH (S k) b1) as (b' & Hb & Ho & Hv & Ht); [done|simpl; lia|done|].
    exists b'. simpl. split_and!; try done. rewrite Ho. simpl. by rewrite <- app_assoc.
  - set (b1 := emit_op {| op_code := OpPush; op_operand := 0 |} (b_stack b + 1) (b_tailLen b) false (b_vars b) b).
    set (b2 := emit_op {| op_code := OpConcatN; op_operand := 1 |} (b_stack b + 1 - 1 + 1) (b_tailLen b) false (b_vars b) b1).
    set (b3 := emit_op {| op_code := OpCapture; op_operand := Z.of_nat (length (b_vars b)) |} (b_stack b + 1 - 1 + 1 - 1)
                 (b_tailLen b) false (b_vars b ++ [x]) b2).
    assert (build pool [OpPush; 0; OpConcatN; 1; OpCapture; Z.of_nat k] b = Some b3) as ->.
    { assert (build_op pool OpPush 0 b = Some b1) as E1 by (unfold build_op; simpl; by rewrite Hseen).
      assert (build_op pool OpConcatN 1 b1 = Some b2) as E2.
      { unfold build_op. simpl. destruct (Z.ltb_spec (b_stack b + 1 - 1) 0); [lia|done]. }
      assert (build_op pool OpCapture (Z.of_nat k) b2 = Some b3) as E3.
      { unfold build_op. simpl. rewrite Hin, Nat2Z.id, Hk. simpl.
        destruct (Z.ltb_spec (b_stack b + 1 - 1 + 1 - 1) 0); [lia|done]. }
      cbn [build]. rewrite E1. simpl. rewrite E2. simpl. by rewrite E3. }
    destruct (IH (S k) b3) as (b' & Hb & Ho & Hv & Ht); [done|simpl; lia|done|].
    exists b'. simpl in *. split_and!; try done.
    + rewrite Ho, length_app, Nat.add_comm, <- !app_assoc. done.
    + by rewrite Hv, <- app_assoc.
Qed.

(** ** Execution *)

Lemma match_segments_rest t cs vs rest : match_segments t cs = Some (vs, rest) → rest = drop (length t) cs
  ∧ length vs = length (omap var_name t).
Proof.
  revert cs vs. induction t as [|[s|x] t IH]; intros [|c cs] vs; simpl; intros; simplify_eq/=; try done.
  - destruct (String.eqb c s); [by apply IH|done].
  - destruct (match_segments t cs) as [[vs' rest']|] eqn:Hm; simplify_eq/=. destruct (IH _ _ Hm) as [-> ->]. done.
Qed.

Section exec.
Context {S : Type} (p : Pattern) (components : list string).

Lemma drop_lookup_cons {A} (l : list A) i : drop i l = match l !! i with Some x => x :: drop (Datatypes.S i) l | None => [] end.
Proof.
  destruct (l !! i) as [x|] eqn:Hx; [by apply drop_S|]. apply drop_ge. by apply lookup_ge_None.
Qed.

Lemma exec_app ops1 ops2 m (s : S) :
  exec_ops p components (ops1 ++ ops2) m s
  = match exec_ops p components ops1 m s with
    | Ret (Some m) s => exec_ops p components ops2 m s
    | r => r
    end.
Proof.
  revert m s. induction ops1 as [|o ops1 IH]; intros m s; simpl; [done|]. unfold mbind, M_bind.
  destruct (exec_op p components o m s) as [[m'|] s'| |]; [apply IH|done..].
Qed.

Lemma exec_lit k n captured pos stack (s : S) :
  pat_pool p !! k = Some n →
  exec_ops p components (typed_segment k 0 (Lit n)) {| m_pos := pos; m_stack := stack; m_captured := captured |} s
  = Ret (match components !! pos with
         | Some c => if String.eqb c n then Some {| m_pos := pos + 1; m_stack := stack ++ [c]; m_captured := captured |} else None
         | None => None
         end) s.
Proof.
  intros Hk. simpl. unfold exec_op, mbind, M_bind. simpl. destruct (components !! pos) as [c|]; [|done].
  rewrite Nat2Z.id, Hk. simpl. by destruct (String.eqb c n).
Qed.

Lemma exec_var k x pre v post pos stack (s : S) :
  exec_ops p components (typed_segment k (length pre) (Var x))
    {| m_pos := pos; m_stack := stack; m_captured := pre ++ v :: post |} s
  = Ret (match components !! pos with
         | Some c => Some {| m_pos := pos + 1; m_stack := stack; m_captured := pre ++ c :: post |}
         | None => None
         end) s.
Proof.
  simpl. unfold exec_op, mbind, M_bind. simpl. destruct (components !! pos) as [c|]; [|done]. simpl.
  rewrite length_app. simpl.
  replace (Z.of_nat (length stack + 1) - 1) with (Z.of_nat (length stack)) by lia.
  destruct (Z.ltb_spec (Z.of_nat (length stack)) 0); [lia|]. rewrite Nat2Z.id, take_app_length, drop_app_length.
  simpl. rewrite last_snoc, Nat2Z.id, length_app. simpl.
  destruct (Nat.ltb_spec (length pre) (length pre + Datatypes.S (length post))); [|lia].
  rewrite insert_app_r_alt, Nat.sub_diag by lia. simpl. rewrite length_app. simpl.
  replace (length stack + 1 - 1)%nat with (length stack) by lia. by rewrite take_app_length.
Qed.

Lemma exec_typed t k pre post pos stack (s : S) :
  in_pool (pat_pool p) k t → length post = length (omap var_name t) →
  ∃ stack', exec_ops p components (typed_from k (length pre) t)
      {| m_pos := pos; m_stack := stack; m_captured := pre ++ post |} s
    = Ret (match match_segments t (drop pos components) with
           | Some (vs, _) => Some {| m_pos := pos + length t; m_stack := stack'; m_captured := pre ++ vs |}
           | None => None
           end) s.
Proof.
  revert k pre post pos stack. induction t as [|g t IH]; intros k pre post pos stack Hpool Hlen.
  { destruct post; [|done]. exists stack. simpl. by rewrite Nat.add_0_r. }
  apply in_pool_cons in Hpool as [Hk Hpool]. rewrite (drop_lookup_cons components pos).
  destruct g as [n|x]; cbn [typed_from].
  - change (typed_segment k (length pre) (Lit n)) with (typed_segment k 0 (Lit n)).
    destruct (IH (Datatypes.S k) pre post (pos + 1)%nat (stack ++ [n]) Hpool Hlen) as [st' IHt]. exists st'.
    rewrite exec_app, exec_lit by done. destruct (components !! pos) as [c|]; [|done]. simpl.
    destruct (String.eqb_spec c n) as [->|]; [|done]. rewrite IHt.
    replace (Datatypes.S pos) with (pos + 1)%nat by lia. by replace (pos + Datatypes.S (length t))%nat with (pos + 1 + length t)%nat by lia.
  - destruct post as [|v post]; [done|]. simpl in Hlen. injection Hlen as Hlen.
    destruct (components !! pos) as [c|] eqn:Hc.
    + destruct (IH (Datatypes.S k) (pre ++ [c]) post (pos + 1)%nat stack Hpool Hlen) as [st' IHt]. exists st'.
      rewrite exec_app, exec_var, Hc. rewrite length_app, Nat.add_comm, <- app_assoc in IHt. simpl in IHt |- *. rewrite IHt.
      replace (Datatypes.S pos) with (pos + 1)%nat by lia. destruct (match_segments t (drop (pos + 1) components)) as [[vs rest]|]; [|done].
      simpl. rewrite <- app_assoc. by replace (pos + Datatypes.S (length t))%nat with (pos + 1 + length t)%nat by lia.
    + exists stack. by rewrite exec_app, exec_var, Hc.
Qed.
End exec.

Lemma compile_even k t : Nat.Even (length (compile_from k t)).
Proof.
  revert k. induction t as [|g t IH]; intros k; [by exists 0%nat|]. destruct (IH (Datatypes.S k)) as [n Hn].
  cbn [compile_from]. rewrite length_app, Hn. destruct g; [exists (1 + n)%nat|exists (3 + n)%nat]; simpl; lia.
Qed.

Lemma compiled_match (t : list segment) :
  ∃ p, NewPattern 1 (compile t) (segment_name <$> t) "" = Some p
    ∧ ∀ S components verb (s : S),
        Match p components verb s = Ret (if String.eqb "" verb then match_template t components else None) s.
Proof.
  assert (in_pool (segment_name <$> t) 0 t) as Hpool by (intros i g Hi; simpl; by rewrite list_lookup_fmap, Hi).
  destruct (build_compile (segment_name <$> t) 0 t new_builder Hpool) as (b & Hb & Ho & Hv & Ht); [done|done|].
  assert (Z.of_nat (length (compile t)) `mod` 2 = 0) as Heven.
  { destruct (compile_even 0 t) as [n Hn]. unfold compile. rewrite Hn. rewrite Nat2Z.inj_mul, Z.mul_comm. apply Z_mod_mult. }
  eexists. split; [|intros S components verb s].
  { unfold NewPattern. simpl. rewrite Heven. simpl. unfold compile. by rewrite Hb. }
  unfold Match. cbn [pat_verb pat_ops pat_vars]. destruct (String.eqb "" verb); cbn [negb]; [|reflexivity]. unfold mbind, M_bind.
  rewrite Ho, Hv. simpl. set (p := {| pat_ops := _ |}).
  destruct (exec_typed p components t 0 [] (replicate (length (omap var_name t)) "") 0 [] s) as [st Hx].
  { exact Hpool. }
  { by rewrite length_replicate. }
  simpl in Hx. rewrite Hx, drop_0. unfold match_template.
  destruct (match_segments t components) as [[vs rest]|] eqn:Hm; [|done]. simpl.
  destruct (match_segments_rest _ _ _ _ Hm) as [-> _]. destruct (Nat.ltb_spec (length t) (length components)) as [Hl|Hl].
  - destruct (drop (length t) components) eqn:Hd; [|done]. apply (f_equal length) in Hd. rewrite length_drop in Hd. simpl in Hd. lia.
  - by rewrite drop_ge by lia.
Qed.

(** The program compiled from a path template is accepted
    by [NewPattern], and running it over the components of any path neither
    panics nor answers anything else than the template does: it matches the
    same paths and binds the same variables to the same components. *)
Theorem pattern_correct {S} (t : list segment) (components : list string) (verb : string) (s : S) :
  ∃ p, NewPattern 1 (compile t) (segment_name <$> t) "" = Some p
    ∧ Match p components verb s = Ret (if String.eqb "" verb then match_template t components else None) s.
Proof.
  destruct (compiled_match t) as (p & Hp & Hm). exists p. by split.
Qed.
