(* ===== verification/Gateway.v ===== *)
(** * The REST gateway (src/model/model.pb.gw.go)

    Each method of the service has a route; its handler decodes the body into
    the request message, sets the fields bound by the path, fills in query
    parameters, and makes the gRPC call. The JSON codec, the population of
    query parameters by reflection and the gRPC client are parameters. *)

From S2P Require Import Prelude Model Uuid GatewayRuntime GatewayPatterns.
Local Open Scope Z_scope.

Inductive rest_method :=
  | CreateGraph_0 | AddStage_0 | AddValueStage_0 | AddInvokeFunction_0 | AddDelay_0 | AwaitStageResult_0
  | CompleteStageExternally_0 | Commit_0 | GetGraphState_0 | StreamLifecycle_0 | StreamEvents_0.

(** ** The compiled patterns *)

Definition flow_ops : list Z := [2; 0; 2; 1; 1; 0; 4; 1; 5; 2; 2; 3].
Definition stage_ops : list Z := [2; 0; 2; 1; 1; 0; 4; 1; 5; 2; 2; 3; 1; 0; 4; 1; 5; 4; 2; 5].

Definition pattern_of (m : rest_method) : option Pattern :=
  match m with
  | CreateGraph_0 => NewPattern 1 [2; 0; 2; 1] ["v1"; "flows"] ""
  | AddStage_0 => NewPattern 1 flow_ops ["v1"; "flows"; "flow_id"; "stage"] ""
  | AddValueStage_0 => NewPattern 1 flow_ops ["v1"; "flows"; "flow_id"; "value"] ""
  | AddInvokeFunction_0 => NewPattern 1 flow_ops ["v1"; "flows"; "flow_id"; "invoke"] ""
  | AddDelay_0 => NewPattern 1 flow_ops ["v1"; "flows"; "flow_id"; "delay"] ""
  | AwaitStageResult_0 => NewPattern 1 stage_ops ["v1"; "flows"; "flow_id"; "stages"; "stage_id"; "await"] ""
  | CompleteStageExternally_0 => NewPattern 1 stage_ops ["v1"; "flows"; "flow_id"; "stages"; "stage_id"; "complete"] ""
  | Commit_0 => NewPattern 1 flow_ops ["v1"; "flows"; "flow_id"; "commit"] ""
  | GetGraphState_0 => NewPattern 1 [2; 0; 2; 1; 1; 0; 4; 1; 5; 2] ["v1"; "flows"; "flow_id"] ""
  | StreamLifecycle_0 => NewPattern 1 [2; 0; 2; 1] ["v1"; "stream"] ""
  | StreamEvents_0 => NewPattern 1 flow_ops ["v1"; "flows"; "flow_id"; "stream"] ""
  end.

(** ** RegisterFlowServiceHandlerClient: the routes in order of registration *)

Definition registered : list (string * rest_method) :=
  [("POST", CreateGraph_0); ("POST", AddStage_0); ("POST", AddValueStage_0); ("POST", AddInvokeFunction_0);
   ("POST", AddDelay_0); ("GET", AwaitStageResult_0); ("POST", CompleteStageExternally_0); ("POST", Commit_0);
   ("GET", GetGraphState_0); ("GET", StreamLifecycle_0); ("GET", StreamEvents_0)].

(** A pattern that [MustPattern] refuses ends the program. *)
Fixpoint register (routes : list (string * rest_method)) (mux : ServeMux rest_method) : option (ServeMux rest_method) :=
  match routes with
  | [] => Some mux
  | (meth, m) :: routes => p ← pattern_of m; register routes (Handle meth {| h_pat := p; h_fn := m |} mux)
  end.
Definition RegisterFlowServiceHandlerClient : option (ServeMux rest_method) := register registered [].

(** ** runtime/context.go: the time limit a request asks for, in nanoseconds *)

Definition timeoutUnitToDuration (u : Z) : option Z :=
  match u with
  | 72 (* H *) => Some (3600 * 1000000000)
  | 77 (* M *) => Some (60 * 1000000000)
  | 83 (* S *) => Some 1000000000
  | 109 (* m *) => Some 1000000
  | 117 (* u *) => Some 1000
  | 110 (* n *) => Some 1
  | _ => None
  end.

(** A number and a unit; the product is a 64-bit integer. *)
Definition timeoutDecode (s : string) : option Z :=
  let size := length (bytes_of s) in
  if (size <? 2)%nat then None
  else
    d ← timeoutUnitToDuration (default 0 (bytes_of s !! (size - 1)%nat));
    t ← Atoi (string_of (take (size - 1) (bytes_of s)));
    Some (int64 (d * t)).

(** [AnnotateContext] as far as the time limit goes: an error, or the timeout
    of the context, if it gets one. [tm] is the header [Grpc-Timeout]. *)
Definition AnnotateContext (tm : string) : status_error + option Z :=
  if String.eqb tm "" then inr None
  else match timeoutDecode tm with
       | None => inl (Errorf InvalidArgument ("invalid grpc-timeout: " +:+ tm))
       | Some timeout => inr (if timeout =? 0 then None else Some timeout)
       end.
Definition annotate_error (tm : string) : option status_error :=
  match AnnotateContext tm with inl err => Some err | inr _ => None end.
Definition annotate_timeout (tm : string) : option Z :=
  match AnnotateContext tm with inl _ => None | inr timeout => timeout end.

(** ** Decoding a request *)

(** [Decode] of a JSON body: an empty body gives [io.EOF], which leaves the
    message as it was. *)
Inductive decoded (A : Type) := Decoded (a : A) | EOF | DecodeError (err : string).
Arguments Decoded {A}.
Arguments EOF {A}.
Arguments DecodeError {A}.

Record StreamGraphRequest := { sg_FlowId : string; sg_FromSeq : Z }.

Class JsonCodec (body : Type) := {
  decode_CreateGraphRequest : body → decoded CreateGraphRequest;
  decode_AddStageRequest : body → decoded AddStageRequest;
  decode_AddCompletedValueStageRequest : body → decoded AddCompletedValueStageRequest;
  decode_AddInvokeFunctionStageRequest : body → decoded AddInvokeFunctionStageRequest;
  decode_AddDelayStageRequest : body → decoded AddDelayStageRequest;
  decode_CompleteStageExternallyRequest : body → decoded CompleteStageExternallyRequest;
}.

(** [PopulateQueryParameters] with a filter of field names. *)
Class QueryCodec (query : Type) := {
  populate_AwaitStageResultRequest : list string → query → AwaitStageResultRequest → string + AwaitStageResultRequest;
  populate_StreamGraphRequest : list string → query → StreamGraphRequest → string + StreamGraphRequest;
}.

(** The fields in the filter keep their values. *)
Class QueryLaws (query : Type) `{!QueryCodec query} : Prop := {
  populate_await_filter q r r' :
    populate_AwaitStageResultRequest ["flow_id"; "stage_id"] q r = inr r' →
    await_FlowId r' = await_FlowId r ∧ await_StageId r' = await_StageId r;
  populate_stream_filter q r r' :
    populate_StreamGraphRequest ["flow_id"] q r = inr r' → sg_FlowId r' = sg_FlowId r;
}.

Definition set_add_FlowId (f : string) (r : AddStageRequest) : AddStageRequest :=
  {| add_FlowId := f; add_Operation := add_Operation r; add_Closure := add_Closure r; add_Deps := add_Deps r;
     add_CodeLocation := add_CodeLocation r; add_CallerId := add_CallerId r |}.
Definition set_value_FlowId (f : string) (r : AddCompletedValueStageRequest) : AddCompletedValueStageRequest :=
  {| value_FlowId := f; value_Value := value_Value r; value_CodeLocation := value_CodeLocation r;
     value_CallerId := value_CallerId r |}.
Definition set_invoke_FlowId (f : string) (r : AddInvokeFunctionStageRequest) : AddInvokeFunctionStageRequest :=
  {| invoke_FlowId := f; invoke_FunctionId := invoke_FunctionId r; invoke_Arg := invoke_Arg r;
     invoke_CodeLocation := invoke_CodeLocation r; invoke_CallerId := invoke_CallerId r |}.
Definition set_adddelay_FlowId (f : string) (r : AddDelayStageRequest) : AddDelayStageRequest :=
  {| adddelay_FlowId := f; adddelay_DelayMs := adddelay_DelayMs r; adddelay_CodeLocation := adddelay_CodeLocation r;
     adddelay_CallerId := adddelay_CallerId r |}.
Definition set_ext_ids (f stage : string) (r : CompleteStageExternallyRequest) : CompleteStageExternallyRequest :=
  {| ext_FlowId := f; ext_StageId := stage; ext_Value := ext_Value r; ext_CodeLocation := ext_CodeLocation r;
     ext_CallerId := ext_CallerId r |}.

(** The zero values of the messages. *)
Definition zero_create : CreateGraphRequest := {| create_FunctionId := ""; create_FlowId := "" |}.
Definition zero_add : AddStageRequest :=
  {| add_FlowId := ""; add_Operation := unknown_operation; add_Closure := None; add_Deps := [];
     add_CodeLocation := ""; add_CallerId := "" |}.
Definition zero_value : AddCompletedValueStageRequest :=
  {| value_FlowId := ""; value_Value := None; value_CodeLocation := ""; value_CallerId := "" |}.
Definition zero_invoke : AddInvokeFunctionStageRequest :=
  {| invoke_FlowId := ""; invoke_FunctionId := ""; invoke_Arg := None; invoke_CodeLocation := ""; invoke_CallerId := "" |}.
Definition zero_adddelay : AddDelayStageRequest :=
  {| adddelay_FlowId := ""; adddelay_DelayMs := 0; adddelay_CodeLocation := ""; adddelay_CallerId := "" |}.
Definition zero_ext : CompleteStageExternallyRequest :=
  {| ext_FlowId := ""; ext_StageId := ""; ext_Value := None; ext_CodeLocation := ""; ext_CallerId := "" |}.

Section requests.
Context {S body query stream : Type} `{!JsonCodec body} `{!QueryCodec query}.
Context (client : Command → M S (status_error + Response)).
Context (client_StreamLifecycle : M S (status_error + stream)).
Context (client_StreamEvents : StreamGraphRequest → M S (status_error + stream)).
Context (Header : stream → M S (option status_error)).

Inductive gateway_response := Message (r : Response) | Stream (st : stream).

Definition failed {A} (msg : string) : M S (status_error + A) := mret (inl (Errorf InvalidArgument msg)).

(** The body into the zero message, or an error. *)
Definition with_body {A B} (d : decoded A) (zero : A) (k : A → M S (status_error + B)) : M S (status_error + B) :=
  match d with
  | Decoded protoReq => k protoReq
  | EOF => k zero
  | DecodeError err => failed err
  end.

Definition with_param {B} (pathParams : gmap string string) (name : string) (k : string → M S (status_error + B)) :
    M S (status_error + B) :=
  match pathParams !! name with
  | Some val => k val
  | None => failed ("missing parameter " +:+ name)
  end.

Definition call (c : Command) : M S (status_error + Response) := client c.

(** A stream is returned once its header has arrived. *)
Definition open_stream (m : M S (status_error + stream)) : M S (status_error + stream) :=
  r ← m;
  match r with
  | inl err => mret (inl err)
  | inr st => h ← Header st; mret (match h with Some err => inl err | None => inr st end)
  end.

Definition request_FlowService_CreateGraph_0 (b : body) (pathParams : gmap string string) :=
  with_body (decode_CreateGraphRequest b) zero_create (λ r, call (CCreateGraph r)).

Definition request_FlowService_AddStage_0 (b : body) (pathParams : gmap string string) :=
  with_body (decode_AddStageRequest b) zero_add (λ r,
  with_param pathParams "flow_id" (λ f, call (CAddStage (set_add_FlowId f r)))).

Definition request_FlowService_AddValueStage_0 (b : body) (pathParams : gmap string string) :=
  with_body (decode_AddCompletedValueStageRequest b) zero_value (λ r,
  with_param pathParams "flow_id" (λ f, call (CAddCompletedValueStage (set_value_FlowId f r)))).

Definition request_FlowService_AddInvokeFunction_0 (b : body) (pathParams : gmap string string) :=
  with_body (decode_AddInvokeFunctionStageRequest b) zero_invoke (λ r,
  with_param pathParams "flow_id" (λ f, call (CAddInvokeFunctionStage (set_invoke_FlowId f r)))).

Definition request_FlowService_AddDelay_0 (b : body) (pathParams : gmap string string) :=
  with_body (decode_AddDelayStageRequest b) zero_adddelay (λ r,
  with_param pathParams "flow_id" (λ f, call (CAddDelayStage (set_adddelay_FlowId f r)))).

Definition request_FlowService_AwaitStageResult_0 (q : query) (pathParams : gmap string string) :=
  with_param pathParams "flow_id" (λ f, with_param pathParams "stage_id" (λ stage,
  match populate_AwaitStageResultRequest ["flow_id"; "stage_id"] q
          {| await_FlowId := f; await_StageId := stage; await_TimeoutMs := 0 |} with
  | inl err => failed err
  | inr protoReq => call (CAwaitStageResult protoReq)
  end)).

Definition request_FlowService_CompleteStageExternally_0 (b : body) (pathParams : gmap string string) :=
  with_body (decode_CompleteStageExternallyRequest b) zero_ext (λ r,
  with_param pathParams "flow_id" (λ f, with_param pathParams "stage_id" (λ stage,
  call (CCompleteStageExternally (set_ext_ids f stage r))))).

Definition request_FlowService_Commit_0 (pathParams : gmap string string) :=
  with_param pathParams "flow_id" (λ f, call (CCommitGraph f)).

Definition request_FlowService_GetGraphState_0 (pathParams : gmap string string) :=
  with_param pathParams "flow_id" (λ f, call (CGetGraphState f)).

Definition request_FlowService_StreamLifecycle_0 (pathParams : gmap string string) :=
  open_stream client_StreamLifecycle.

Definition request_FlowService_StreamEvents_0 (q : query) (pathParams : gmap string string) :=
  with_param pathParams "flow_id" (λ f,
  match populate_StreamGraphRequest ["flow_id"] q {| sg_FlowId := f; sg_FromSeq := 0 |} with
  | inl err => failed err
  | inr protoReq => open_stream (client_StreamEvents protoReq)
  end).

Definition as_response {A} (wrap : A → gateway_response) (m : M S (status_error + A)) : M S (status_error + gateway_response) :=
  r ← m;
  mret (match r with inl err => inl err | inr a => inr (wrap a) end).

Definition request_of (m : rest_method) (b : body) (q : query) (pathParams : gmap string string) :
    M S (status_error + gateway_response) :=
  match m with
  | CreateGraph_0 => as_response Message (request_FlowService_CreateGraph_0 b pathParams)
  | AddStage_0 => as_response Message (request_FlowService_AddStage_0 b pathParams)
  | AddValueStage_0 => as_response Message (request_FlowService_AddValueStage_0 b pathParams)
  | AddInvokeFunction_0 => as_response Message (request_FlowService_AddInvokeFunction_0 b pathParams)
  | AddDelay_0 => as_response Message (request_FlowService_AddDelay_0 b pathParams)
  | AwaitStageResult_0 => as_response Message (request_FlowService_AwaitStageResult_0 q pathParams)
  | CompleteStageExternally_0 => as_response Message (request_FlowService_CompleteStageExternally_0 b pathParams)
  | Commit_0 => as_response Message (request_FlowService_Commit_0 pathParams)
  | GetGraphState_0 => as_response Message (request_FlowService_GetGraphState_0 pathParams)
  | StreamLifecycle_0 => as_response Stream (request_FlowService_StreamLifecycle_0 pathParams)
  | StreamEvents_0 => as_response Stream (request_FlowService_StreamEvents_0 q pathParams)
  end.

(** ** Outcomes: what a request comes to, before it is written *)

Definition HTTPStatusFromCode (c : codes) : Z :=
  match c with
  | Internal => 500
  | AlreadyExists => 409
  | NotFound => 404
  | FailedPrecondition => 412
  | InvalidArgument => 400
  | Unknown => 500
  | Unimplemented => 501
  | ResourceExhausted => 403
  | DeadlineExceeded => 408
  end.

Inductive http_response :=
  | HttpError (status : Z)
  | Forwarded (r : gateway_response).

(** The outcome of the function each route is registered with; [annotate] is
    the error of [AnnotateContext], if any. The context it returns goes to the
    client, whose calls have its time limit. *)
Definition handle_rest (m : rest_method) (annotate : option status_error) (b : body) (q : query)
    (pathParams : gmap string string) : M S http_response :=
  match annotate with
  | Some err => mret (HttpError (HTTPStatusFromCode (code err)))
  | None =>
      r ← request_of m b q pathParams;
      mret (match r with
            | inl err => HttpError (HTTPStatusFromCode (code err))
            | inr resp => Forwarded resp
            end)
  end.

Definition serve_rest (mux : ServeMux rest_method) (r : http_request) (annotate : option status_error) (b : body) (q : query) :
    M S http_response :=
  d ← ServeHTTP mux r;
  match d with
  | OtherError status => mret (HttpError status)
  | Invoke m pathParams => handle_rest m annotate b q pathParams
  end.
End requests.
