(* ===== verification/GatewayFacts.v ===== *)
(** * Properties of the REST gateway

    The routes are those of the HTTP annotations of the service: every URL of
    the API reaches its method with the ids it names, no URL is claimed by two
    methods, and a request addressed to a flow becomes one gRPC call for that
    flow. *)

From S2P Require Import Prelude Model Supervisor SupervisorFacts GatewayRuntime GatewayPatterns Gateway.
Local Open Scope Z_scope.

(** ** The API: method and path template of each call *)

Definition meth_of (m : rest_method) : string :=
  match m with AwaitStageResult_0 | GetGraphState_0 | StreamLifecycle_0 | StreamEvents_0 => "GET" | _ => "POST" end.

Definition flow_path (rest : list segment) : list segment := Lit "v1" :: Lit "flows" :: Var "flow_id" :: rest.

Definition template (m : rest_method) : list segment :=
  match m with
  | CreateGraph_0 => [Lit "v1"; Lit "flows"]
  | AddStage_0 => flow_path [Lit "stage"]
  | AddValueStage_0 => flow_path [Lit "value"]
  | AddInvokeFunction_0 => flow_path [Lit "invoke"]
  | AddDelay_0 => flow_path [Lit "delay"]
  | AwaitStageResult_0 => flow_path [Lit "stages"; Var "stage_id"; Lit "await"]
  | CompleteStageExternally_0 => flow_path [Lit "stages"; Var "stage_id"; Lit "complete"]
  | Commit_0 => flow_path [Lit "commit"]
  | GetGraphState_0 => flow_path []
  | StreamLifecycle_0 => [Lit "v1"; Lit "stream"]
  | StreamEvents_0 => flow_path [Lit "stream"]
  end.

Lemma pattern_of_template m : pattern_of m = NewPattern 1 (compile (template m)) (segment_name <$> template m) "".
Proof. by destruct m. Qed.

Definition empty_pattern : Pattern :=
  {| pat_ops := []; pat_pool := []; pat_vars := []; pat_stacksize := 0; pat_tailLen := 0; pat_verb := "" |}.
Definition route (m : rest_method) : handler rest_method :=
  {| h_pat := default empty_pattern (pattern_of m); h_fn := m |}.

Lemma Match_route {S} m components verb (s : S) :
  Match (h_pat (route m)) components verb s
  = Ret (if String.eqb "" verb then match_template (template m) components else None) s.
Proof.
  unfold route. cbn [h_pat]. rewrite pattern_of_template. destruct (compiled_match (template m)) as (p & -> & Hm). apply Hm.
Qed.

Definition post_methods : list rest_method :=
  [CreateGraph_0; AddStage_0; AddValueStage_0; AddInvokeFunction_0; AddDelay_0; CompleteStageExternally_0; Commit_0].
Definition get_methods : list rest_method := [AwaitStageResult_0; GetGraphState_0; StreamLifecycle_0; StreamEvents_0].

(** All patterns are valid, and the multiplexer has the routes by method. *)
Definition gateway_mux : ServeMux rest_method := [("POST", route <$> post_methods); ("GET", route <$> get_methods)].
Lemma gateway_registered : RegisterFlowServiceHandlerClient = Some gateway_mux.
Proof. vm_compute. reflexivity. Qed.

(** ** No URL belongs to two methods *)

(** Two templates that cannot match the same path. *)
Fixpoint apart (t t' : list segment) : bool :=
  match t, t' with
  | [], [] => false
  | Lit a :: t, Lit b :: t' => negb (String.eqb a b) || apart t t'
  | _ :: t, _ :: t' => apart t t'
  | _, _ => true
  end.

Lemma apart_sound t t' cs vs vs' :
  match_segments t cs = Some (vs, []) → match_segments t' cs = Some (vs', []) → apart t t' = false.
Proof.
  revert t' cs vs vs'. induction t as [|g t IH]; intros [|g' t'] [|c cs] vs vs' H H'; simpl in *; simplify_eq/=; try done.
  - by destruct g'.
  - by destruct g.
  - by destruct g.
  - destruct g as [a|x], g' as [b|y]; simpl in *.
    + destruct (String.eqb_spec c a) as [->|]; [|done]. destruct (String.eqb_spec a b) as [->|]; [|done]. by eapply IH.
    + destruct (String.eqb_spec c a) as [->|]; [|done]. destruct (match_segments t' cs) as [[]|] eqn:E; simplify_eq/=. by eapply IH.
    + destruct (String.eqb_spec c b) as [->|]; [|done]. destruct (match_segments t cs) as [[]|] eqn:E; simplify_eq/=. by eapply IH.
    + destruct (match_segments t cs) as [[]|] eqn:E; simplify_eq/=.
      destruct (match_segments t' cs) as [[]|] eqn:E'; simplify_eq/=. by eapply IH.
Qed.

Lemma match_template_Some t cs b : match_template t cs = Some b → ∃ vs, match_segments t cs = Some (vs, []).
Proof. unfold match_template. destruct (match_segments t cs) as [[vs [|]]|]; intros; simplify_eq; eauto. Qed.

Lemma routes_apart m m' : meth_of m = meth_of m' → apart (template m) (template m') = false → m = m'.
Proof. by destruct m, m'. Qed.

Lemma routes_unique m m' cs b b' :
  meth_of m = meth_of m' → match_template (template m) cs = Some b → match_template (template m') cs = Some b' → m = m'.
Proof.
  intros Hm [vs Hv]%match_template_Some [vs' Hv']%match_template_Some.
  apply routes_apart; [done|]. by eapply apart_sound.
Qed.

Lemma first_match_routes {S} ms m cs b (s : S) :
  m ∈ ms → (∀ m', m' ∈ ms → meth_of m' = meth_of m) → match_template (template m) cs = Some b →
  first_match (route <$> ms) cs "" s = Ret (Some (m, b)) s.
Proof.
  intros Hin Hms Hm. induction ms as [|m' ms IH]; [by apply not_elem_of_nil in Hin|]. rewrite fmap_cons. cbn [first_match].
  unfold mbind, M_bind. rewrite Match_route. cbn [String.eqb]. destruct (match_template (template m') cs) as [b'|] eqn:Hm'.
  - assert (m' = m) as -> by (eapply routes_unique; [apply Hms; set_solver|done|done]). by simplify_eq.
  - apply IH; [|set_solver]. apply elem_of_cons in Hin as [->|]; [congruence|done].
Qed.

(** ** URLs *)

Definition plain (s : string) : Prop :=
  slash ∉ String.list_ascii_of_string s ∧ colon ∉ String.list_ascii_of_string s.

#[export] Instance plain_dec s : Decision (plain s).
Proof. unfold plain. apply _. Defined.
Definition lit_plain (g : segment) : Prop := match g with Lit s => plain s | Var _ => True end.
#[export] Instance lit_plain_dec g : Decision (lit_plain g).
Proof. destruct g; apply _. Defined.

Definition path_of (components : list string) : string := "/" +:+ String.concat "/" components.

Lemma split_aux_slash a s cur :
  slash ∉ a → split_aux [slash] (a ++ slash :: s) 0 cur = (reverse cur ++ a) :: split_aux [slash] s 0 [].
Proof.
  revert cur. induction a as [|x a IH]; intros cur Ha; cbn [app split_aux].
  - rewrite decide_True by (by eexists). simpl. by rewrite app_nil_r.
  - rewrite decide_False.
    + rewrite IH by set_solver. by rewrite reverse_cons, <- app_assoc.
    + intros [k Hk]. simpl in Hk. injection Hk as ->. set_solver.
Qed.

Lemma concat_ascii (cs : list string) c :
  String.list_ascii_of_string (String.concat "/" (c :: cs))
  = String.list_ascii_of_string c ++ concat ((λ x, slash :: String.list_ascii_of_string x) <$> cs).
Proof.
  revert c. induction cs as [|d cs IH]; intros c; [by rewrite app_nil_r|].
  change (String.concat "/" (c :: d :: cs)) with (c +:+ "/" +:+ String.concat "/" (d :: cs)).
  rewrite !list_ascii_app, IH. done.
Qed.

Lemma Split_concat c cs : Forall (λ x, slash ∉ String.list_ascii_of_string x) (c :: cs) →
  Split (String.concat "/" (c :: cs)) "/" = c :: cs.
Proof.
  unfold Split. rewrite concat_ascii. change (String.list_ascii_of_string "/") with [slash].
  revert c. induction cs as [|d cs IH]; intros c [Hc Hcs]%Forall_cons.
  - simpl. rewrite app_nil_r, (split_aux_none _ _ _ slash) by done. simpl. by rewrite String.string_of_list_ascii_of_string.
  - rewrite (fmap_cons _ d cs). cbn [concat app]. rewrite split_aux_slash by done. rewrite fmap_cons.
    f_equal; [by rewrite app_nil_l, String.string_of_list_ascii_of_string|]. by apply IH.
Qed.

Lemma last_colon_None s : colon ∉ s → last_colon s = None.
Proof.
  induction s as [|c s IH]; intros Hs; [done|]. simpl. rewrite IH by set_solver. rewrite decide_False by set_solver. done.
Qed.

(** The path of a template with values for its variables. *)
Definition instantiate (σ : string → string) (t : list segment) : list string :=
  (λ g, match g with Lit s => s | Var x => σ x end) <$> t.

Lemma match_instantiate σ t :
  match_template t (instantiate σ t) = Some (bind_all (omap var_name t) (σ <$> omap var_name t)).
Proof.
  unfold match_template. assert (match_segments t (instantiate σ t) = Some (σ <$> omap var_name t, [])) as ->; [|done].
  induction t as [|[s|x] t IH]; [done| |]; cbn [instantiate fmap list_fmap match_segments]; fold (instantiate σ t).
  - by rewrite String.eqb_refl.
  - by rewrite IH.
Qed.

Lemma instantiate_plain σ m : (∀ x, plain (σ x)) → Forall plain (instantiate σ (template m)).
Proof.
  intros Hσ. unfold instantiate. apply Forall_fmap, Forall_forall. intros [s|x] Hg; [|apply Hσ]. simpl.
  assert (bool_decide (Forall lit_plain (template m)) = true) as H.
  { destruct m; vm_compute; reflexivity. }
  apply bool_decide_eq_true in H. rewrite Forall_forall in H. exact (H _ Hg).
Qed.

(** A request for an API call. *)
Definition api_request (σ : string → string) (m : rest_method) : http_request :=
  {| r_method := meth_of m; r_path := path_of (instantiate σ (template m)); r_content_type := "application/json";
     r_override := ""; r_form_error := None |}.

Definition path_params (σ : string → string) (m : rest_method) : gmap string string :=
  bind_all (omap var_name (template m)) (σ <$> omap var_name (template m)).

Lemma dispatched {S} σ m (s : S) : (∀ x, plain (σ x)) →
  ServeHTTP gateway_mux (api_request σ m) s = Ret (Invoke m (path_params σ m)) s.
Proof.
  intros Hσ. pose proof (instantiate_plain σ m Hσ) as Hp. set (cs := instantiate σ (template m)) in *.
  assert (∃ c cs', cs = c :: cs') as (c & cs' & Hcs) by (unfold cs; destruct m; by do 2 eexists).
  unfold ServeHTTP. change (r_path (api_request σ m)) with (String.String slash (String.concat "/" cs)). cbv beta iota zeta.
  change (Ascii.eqb slash (Ascii.ascii_of_nat 47)) with true. cbn [negb].
  change (r_override (api_request σ m)) with "". change (r_method (api_request σ m)) with (meth_of m).
  assert (Split (String.concat "/" cs) "/" = cs) as ->.
  { rewrite Hcs. apply Split_concat. rewrite <- Hcs. eapply Forall_impl; [exact Hp|]. by intros x []. }
  assert (last_colon (String.list_ascii_of_string (default "" (last cs))) = None) as ->.
  { apply last_colon_None. destruct (last cs) as [x|] eqn:Hl; [|set_solver]. simpl.
    rewrite Forall_forall in Hp. apply Hp. by apply last_Some_elem_of. }
  cbn [String.eqb negb andb]. unfold mbind, M_bind.
  assert (first_match (default [] (snd <$> (snd <$> list_find (λ mh, mh.1 = meth_of m) gateway_mux))) cs "" s
    = Ret (Some (m, path_params σ m)) s) as ->; [|done].
  assert (match_template (template m) cs = Some (path_params σ m)) as Hm by apply match_instantiate.
  assert (default [] (snd <$> (snd <$> list_find (λ mh, mh.1 = meth_of m) gateway_mux))
    = route <$> (if String.eqb (meth_of m) "POST" then post_methods else get_methods)) as -> by by destruct m.
  apply first_match_routes; [|intros m'|done]; destruct m; cbn [meth_of String.eqb Ascii.eqb Bool.eqb]; unfold post_methods, get_methods; set_solver.
Qed.

(** C40: every URL of the API, with any ids that contain neither a
    slash nor a colon (as UUIDs and stage numbers do not), is dispatched to its
    own method with exactly the ids in the URL; and no path is claimed by two
    routes of the same HTTP method, so the order of registration does not
    matter. *)
Theorem rest_routing {S} σ m (s : S) :
  (∀ x, plain (σ x)) →
  (∃ mux, RegisterFlowServiceHandlerClient = Some mux
     ∧ ServeHTTP mux (api_request σ m) s = Ret (Invoke m (path_params σ m)) s)
  ∧ (∀ m1 m2 cs b1 b2, meth_of m1 = meth_of m2 →
       Match (h_pat (route m1)) cs "" s = Ret (Some b1) s → Match (h_pat (route m2)) cs "" s = Ret (Some b2) s → m1 = m2).
Proof.
  intros Hσ. split.
  - exists gateway_mux. split; [apply gateway_registered|by apply dispatched].
  - intros m1 m2 cs b1 b2 Hmeth. rewrite !Match_route. cbn [String.eqb]. intros [= H1] [= H2]. by eapply routes_unique.
Qed.

(** ** From REST to gRPC *)

(** The method a command is the request of. *)
Definition rest_method_of (c : Command) : option rest_method :=
  match c with
  | CCreateGraph _ => Some CreateGraph_0
  | CAddStage _ => Some AddStage_0
  | CAddCompletedValueStage _ => Some AddValueStage_0
  | CAddInvokeFunctionStage _ => Some AddInvokeFunction_0
  | CAddDelayStage _ => Some AddDelay_0
  | CAwaitStageResult _ => Some AwaitStageResult_0
  | CCompleteStageExternally _ => Some CompleteStageExternally_0
  | CCommitGraph _ => Some Commit_0
  | CGetGraphState _ => Some GetGraphState_0
  | _ => None
  end.

(** The calls on an existing flow that have a single response. *)
Definition flow_call (m : rest_method) : bool :=
  match m with CreateGraph_0 | StreamLifecycle_0 | StreamEvents_0 => false | _ => true end.

(** The request that a REST call of a flow stands for: what the body or the
    query decodes to, an empty body to the zero message, with the ids of the URL
    in it; [None] if it cannot be decoded. *)
Section request_command.
Context {body query : Type} `{!JsonCodec body} `{!QueryCodec query}.

Definition message_of {A} (d : decoded A) (zero : A) : option A :=
  match d with Decoded r => Some r | EOF => Some zero | DecodeError _ => None end.

Definition request_command (σ : string → string) (m : rest_method) (b : body) (q : query) : option Command :=
  let f := σ "flow_id" in
  let stage := σ "stage_id" in
  match m with
  | AddStage_0 => CAddStage ∘ set_add_FlowId f <$> message_of (decode_AddStageRequest b) zero_add
  | AddValueStage_0 => CAddCompletedValueStage ∘ set_value_FlowId f
      <$> message_of (decode_AddCompletedValueStageRequest b) zero_value
  | AddInvokeFunction_0 => CAddInvokeFunctionStage ∘ set_invoke_FlowId f
      <$> message_of (decode_AddInvokeFunctionStageRequest b) zero_invoke
  | AddDelay_0 => CAddDelayStage ∘ set_adddelay_FlowId f <$> message_of (decode_AddDelayStageRequest b) zero_adddelay
  | CompleteStageExternally_0 => CCompleteStageExternally ∘ set_ext_ids f stage
      <$> message_of (decode_CompleteStageExternallyRequest b) zero_ext
  | AwaitStageResult_0 =>
      match populate_AwaitStageResultRequest ["flow_id"; "stage_id"] q
              {| await_FlowId := f; await_StageId := stage; await_TimeoutMs := 0 |} with
      | inl _ => None
      | inr r => Some (CAwaitStageResult r)
      end
  | Commit_0 => Some (CCommitGraph f)
  | GetGraphState_0 => Some (CGetGraphState f)
  | _ => None
  end.
End request_command.

Section refinement.
Context {S body query stream : Type} `{!JsonCodec body} `{!QueryCodec query} `{!QueryLaws query}.
Context (client : Command → M S (status_error + Response)).
Context (lifecycle : M S (status_error + stream)) (events : StreamGraphRequest → M S (status_error + stream)).
Context (Header : stream → M S (option status_error)).

(** What the caller sees of a gRPC call. *)
Definition forwarded (c : Command) : M S (http_response (stream := stream)) :=
  r ← client c;
  mret (match r with
        | inl err => HttpError (HTTPStatusFromCode (code err))
        | inr msg => Forwarded (Message msg)
        end).

Lemma param_flow σ m : flow_call m = true → path_params σ m !! "flow_id" = Some (σ "flow_id").
Proof. by destruct m. Qed.
Lemma param_stage σ m : m = AwaitStageResult_0 ∨ m = CompleteStageExternally_0 →
  path_params σ m !! "stage_id" = Some (σ "stage_id").
Proof. by intros [->| ->]. Qed.

(** Whatever ids the body or the query names, the request is for those of the
    URL. *)
Lemma request_command_flow σ m (b : body) (q : query) c : flow_call m = true →
  request_command σ m b q = Some c → rest_method_of c = Some m ∧ GetFlowId c = σ "flow_id".
Proof.
  intros Hm. destruct m; try done; simpl; intros Hc;
    try (apply fmap_Some in Hc as (r & _ & ->); done); try by injection Hc as <-.
  destruct (populate_AwaitStageResultRequest _ _ _) as [err|r] eqn:Hp; [done|]. injection Hc as <-.
  by apply populate_await_filter in Hp as [? _].
Qed.

Lemma with_body_message {A B} (d : decoded A) zero (k : A → M S (status_error + B)) :
  match message_of d zero with
  | None => ∃ err, with_body d zero k = failed err
  | Some r => with_body d zero k = k r
  end.
Proof. destruct d; simpl; eauto. Qed.

Ltac body_message :=
  match goal with |- context [with_body ?d ?z ?k] =>
    pose proof (with_body_message d z k) as Hb; destruct (message_of d z) as [r|]; simpl;
    [rewrite Hb|destruct Hb as [err ->]; by eexists] end.

Lemma request_message σ m b q : flow_call m = true →
  match request_command σ m b q with
  | None => ∃ err, request_of client lifecycle events Header m b q (path_params σ m) = failed err
  | Some c => request_of client lifecycle events Header m b q (path_params σ m) = as_response Message (call client c)
  end.
Proof.
  intros Hm. pose proof (param_flow σ m Hm) as Hf. destruct m; try done; simpl in *.
  - unfold request_FlowService_AddStage_0. body_message. unfold with_param. by rewrite Hf.
  - unfold request_FlowService_AddValueStage_0. body_message. unfold with_param. by rewrite Hf.
  - unfold request_FlowService_AddInvokeFunction_0. body_message. unfold with_param. by rewrite Hf.
  - unfold request_FlowService_AddDelay_0. body_message. unfold with_param. by rewrite Hf.
  - unfold request_FlowService_AwaitStageResult_0, with_param. rewrite Hf, (param_stage σ) by auto.
    destruct (populate_AwaitStageResultRequest _ _ _) as [err|r]; [by eexists|done].
  - unfold request_FlowService_CompleteStageExternally_0. body_message.
    unfold with_param. by rewrite Hf, (param_stage σ) by auto.
Qed.

Lemma serve_rest_message σ m b q s :
  (∀ x, plain (σ x)) → flow_call m = true →
  serve_rest client lifecycle events Header gateway_mux (api_request σ m) None b q s
  = match request_command σ m b q with None => Ret (HttpError 400) s | Some c => forwarded c s end.
Proof.
  intros Hσ Hm. unfold serve_rest, mbind, M_bind. rewrite dispatched by done. unfold handle_rest, mbind, M_bind.
  pose proof (request_message σ m b q Hm) as Hr. destruct (request_command σ m b q) as [c|]; [|by destruct Hr as [err ->]].
  rewrite Hr. unfold as_response, call, forwarded, mbind, M_bind. by destruct (client c s) as [[err|msg] s'| |].
Qed.

(** A REST request for an existing flow is refused with status 400 without any
    call being made exactly when its body or its query cannot be decoded;
    otherwise it is carried out by exactly one gRPC call, with the decoded
    request, which is of the method of the URL and for the flow in the URL,
    whatever flow the body names, and the caller gets the response or the status
    of the error of that call. *)
Theorem rest_refines_grpc σ m b q s :
  (∀ x, plain (σ x)) → flow_call m = true →
  serve_rest client lifecycle events Header gateway_mux (api_request σ m) None b q s
  = match request_command σ m b q with None => Ret (HttpError 400) s | Some c => forwarded c s end
  ∧ ∀ c, request_command σ m b q = Some c → rest_method_of c = Some m ∧ GetFlowId c = σ "flow_id".
Proof. intros Hσ Hm. split; [by apply serve_rest_message|]. intros c. by apply request_command_flow. Qed.
End refinement.

(** ** A request *)

Definition sample_ids (x : string) : string :=
  if String.eqb x "flow_id" then "ab1200ff-0102-4304-8506-0708090a0b0c" else "7".

Lemma sample_ids_plain x : plain (sample_ids x).
Proof. unfold sample_ids. destruct (String.eqb x "flow_id"); by apply (bool_decide_unpack _). Qed.

Lemma rest_routing_witness :
  (∃ mux, RegisterFlowServiceHandlerClient = Some mux
     ∧ ServeHTTP mux (api_request sample_ids AwaitStageResult_0) tt
       = Ret (Invoke AwaitStageResult_0 (path_params sample_ids AwaitStageResult_0)) tt)
  ∧ (∀ m1 m2 cs b1 b2, meth_of m1 = meth_of m2 →
       Match (h_pat (route m1)) cs "" tt = Ret (Some b1) tt → Match (h_pat (route m2)) cs "" tt = Ret (Some b2) tt → m1 = m2).
Proof. exact (rest_routing sample_ids AwaitStageResult_0 tt sample_ids_plain). Defined.

(** Bodies that are empty, queries with a timeout, a client that acknowledges. *)
#[local] Instance empty_bodies : JsonCodec unit :=
  {| decode_CreateGraphRequest _ := EOF; decode_AddStageRequest _ := EOF; decode_AddCompletedValueStageRequest _ := EOF;
     decode_AddInvokeFunctionStageRequest _ := EOF; decode_AddDelayStageRequest _ := EOF;
     decode_CompleteStageExternallyRequest _ := EOF |}.
#[local] Instance timeout_queries : QueryCodec Z :=
  {| populate_AwaitStageResultRequest _ q r :=
       inr {| await_FlowId := await_FlowId r; await_StageId := await_StageId r; await_TimeoutMs := q |};
     populate_StreamGraphRequest _ q r := inr {| sg_FlowId := sg_FlowId r; sg_FromSeq := q |} |}.
#[local] Instance timeout_queries_laws : QueryLaws Z.
Proof. split; intros; simplify_eq/=; by split. Qed.
Definition echo_client (c : Command) : M unit (status_error + Response) := mret (inr (RGraphRequestProcessed (GetFlowId c))).

Lemma rest_refines_grpc_witness :
  serve_rest echo_client (mret (inr tt)) (λ _, mret (inr tt)) (λ _, mret None) gateway_mux
      (api_request sample_ids Commit_0) None tt 0 tt
  = match request_command sample_ids Commit_0 tt 0 with
    | None => Ret (HttpError 400) tt
    | Some c => forwarded echo_client c tt
    end
  ∧ ∀ c, request_command sample_ids Commit_0 tt 0 = Some c →
      rest_method_of c = Some Commit_0 ∧ GetFlowId c = sample_ids "flow_id".
Proof.
  exact (rest_refines_grpc echo_client (mret (inr tt)) (λ _, mret (inr tt)) (λ _, mret None)
    sample_ids Commit_0 tt 0 tt sample_ids_plain eq_refl).
Defined.
