(* ===== verification/Prometheus.v ===== *)
(** * Metric vectors and their registry (client_golang's desc.go, vec.go, registry.go, fnv.go)

    What the collector of the service uses of the Prometheus client: the
    descriptors and the checks made when one is built, the registry that
    refuses a second collector of the same name, and the vectors whose
    children are found by a hash of their label values, collisions included.
    A metric is the sequence of the values observed on it: the histograms and
    quantiles computed from them are not modelled. No metric of the service has
    constant labels. *)

From stdpp Require Import sorting.
From S2P Require Import Prelude Uuid.
Local Open Scope Z_scope.

(** ** fnv.go *)

Definition hashNew : Z := 14695981039346656037.
Definition prime64 : Z := 1099511628211.

Definition hashAddByte (h : Z) (b : Z) : Z := uint64 (Z.lxor h b * prime64).
Definition hashAdd (h : Z) (s : string) : Z := foldl hashAddByte h (bytes_of s).

Definition separatorByte : Z := 255.
Definition hash_parts (h : Z) (l : list string) : Z :=
  foldl (λ h s, hashAddByte (hashAdd h s) separatorByte) h l.

(** ** desc.go *)

Definition is_letter (b : Z) : bool :=
  ((97 <=? b) && (b <=? 122)) || ((65 <=? b) && (b <=? 90)) || (b =? 95).
Definition is_digit (b : Z) : bool := (48 <=? b) && (b <=? 57).

Definition metricNameRE (s : string) : bool :=
  match bytes_of s with
  | [] => false
  | b :: l => is_letter b && forallb (λ b, is_letter b || is_digit b || (b =? 58)) l
  end.
Definition labelNameRE (s : string) : bool :=
  match bytes_of s with
  | [] => false
  | b :: l => is_letter b && forallb (λ b, is_letter b || is_digit b) l
  end.

Definition checkLabelName (l : string) : bool := labelNameRE l && negb (String.prefix "__" l).

Record Desc := {
  fqName : string;
  help : string;
  variableLabels : list string;
  desc_id : Z;
  dimHash : Z;
  desc_err : option string;
}.

Definition bad_desc (fqName help : string) (vars : list string) (err : string) : Desc :=
  {| fqName := fqName; help := help; variableLabels := vars; desc_id := 0; dimHash := 0;
     desc_err := Some err |}.

(** [NewDesc] without constant labels: the id is the hash of the name alone. *)
Definition NewDesc (fqName help : string) (vars : list string) : Desc :=
  if String.eqb help "" then bad_desc fqName help vars "empty help string"
  else if negb (metricNameRE fqName) then bad_desc fqName help vars "not a valid metric name"
  else if negb (forallb checkLabelName vars) then bad_desc fqName help vars "not a valid label name"
  else if negb (length vars =? size (list_to_set vars : gset string))%nat
  then bad_desc fqName help vars "duplicate label names"
  else {| fqName := fqName; help := help; variableLabels := vars;
          desc_id := hash_parts hashNew [fqName];
          dimHash := hash_parts hashNew (help :: merge_sort String.le ((λ l, "$" +:+ l) <$> vars));
          desc_err := None |}.

(** ** registry.go *)

Record Registry := {
  collectorsByID : gmap Z Desc;
  descIDs : gset Z;
  dimHashesByName : gmap string Z;
}.
Definition NewRegistry : Registry :=
  {| collectorsByID := ∅; descIDs := ∅; dimHashesByName := ∅ |}.

(** [Register] on a collector that reports one descriptor, so that the id of
    the collector is the id of the descriptor. *)
Definition Register (d : Desc) (r : Registry) : string + Registry :=
  match desc_err d with
  | Some err => inl ("descriptor is invalid: " +:+ err)
  | None =>
      if match dimHashesByName r !! fqName d with Some h => negb (h =? dimHash d) | None => false end
      then inl "a previously registered descriptor has different label names or a different help string"
      else if bool_decide (is_Some (collectorsByID r !! desc_id d))
      then inl "duplicate metrics collector registration attempted"
      else if bool_decide (desc_id d ∈ descIDs r)
      then inl "descriptor already exists with the same fully-qualified name and const label values"
      else inr {| collectorsByID := <[desc_id d := d]> (collectorsByID r);
                  descIDs := {[desc_id d]} ∪ descIDs r;
                  dimHashesByName :=
                    match dimHashesByName r !! fqName d with
                    | Some _ => dimHashesByName r
                    | None => <[fqName d := dimHash d]> (dimHashesByName r)
                    end |}
  end.

(** ** vec.go *)

Notation Labels := (gmap string string).
Definition metric : Type := list Z.

Record MetricVec := {
  vec_desc : Desc;
  reserved : string;   (** the label [newMetric] refuses: "le" or "quantile" *)
  children : gmap Z (list (list string * metric));
}.

Definition set_children (f : gmap Z (list (list string * metric)) → gmap Z (list (list string * metric)))
    (v : MetricVec) : MetricVec :=
  {| vec_desc := vec_desc v; reserved := reserved v; children := f (children v) |}.

Definition newMetricVec (d : Desc) (reserved : string) : MetricVec :=
  {| vec_desc := d; reserved := reserved; children := ∅ |}.
Definition NewHistogramVec (name help : string) (labelNames : list string) : MetricVec :=
  newMetricVec (NewDesc name help labelNames) "le".
Definition NewSummaryVec (name help : string) (labelNames : list string) : MetricVec :=
  newMetricVec (NewDesc name help labelNames) "quantile".

(** The guards of [newHistogram] and [newSummary]. *)
Definition newMetric (v : MetricVec) (lvs : list string) : string + metric :=
  if negb (length (variableLabels (vec_desc v)) =? length lvs)%nat then inl "inconsistent label cardinality"
  else if bool_decide (reserved v ∈ variableLabels (vec_desc v)) then inl "label name not allowed"
  else inr [].

Fixpoint hash_labels (labels : Labels) (h : Z) (vars : list string) : string + Z :=
  match vars with
  | [] => inr h
  | label :: vars =>
      match labels !! label with
      | None => inl ("label name missing in label map: " +:+ label)
      | Some val => hash_labels labels (hashAddByte (hashAdd h val) separatorByte) vars
      end
  end.
Definition hashLabels (v : MetricVec) (labels : Labels) : string + Z :=
  if negb (size labels =? length (variableLabels (vec_desc v)))%nat then inl "inconsistent label cardinality"
  else hash_labels labels hashNew (variableLabels (vec_desc v)).

Definition get_label (labels : Labels) (k : string) : string := default "" (labels !! k).
Definition extractLabelValues (v : MetricVec) (labels : Labels) : list string :=
  get_label labels <$> variableLabels (vec_desc v).

Definition matchLabels (v : MetricVec) (values : list string) (labels : Labels) : bool :=
  (size labels =? length values)%nat
  && forallb (λ '(i, k), bool_decide (values !! i = Some (get_label labels k)))
       (imap pair (variableLabels (vec_desc v))).

Fixpoint findMetricWithLabels (v : MetricVec) (metrics : list (list string * metric)) (labels : Labels) : nat :=
  match metrics with
  | [] => 0
  | (values, _) :: metrics =>
      if matchLabels v values labels then 0 else S (findMetricWithLabels v metrics labels)
  end.

(** A pointer to a child: its bucket and its position there. *)
Definition child : Type := Z * nat.

Definition bucket (v : MetricVec) (h : Z) : list (list string * metric) := default [] (children v !! h).

Definition getOrCreateMetricWithLabels (v : MetricVec) (h : Z) (labels : Labels) : string + (MetricVec * child) :=
  let i := findMetricWithLabels v (bucket v h) labels in
  if (i <? length (bucket v h))%nat then inr (v, (h, i))
  else
    let lvs := extractLabelValues v labels in
    match newMetric v lvs with
    | inl err => inl err
    | inr m => inr (set_children (<[h := bucket v h ++ [(lvs, m)]]>) v, (h, length (bucket v h)))
    end.

Definition With (v : MetricVec) (labels : Labels) : panic_value + (MetricVec * child) :=
  match hashLabels v labels with
  | inl err => inl (PanicError err)
  | inr h =>
      match getOrCreateMetricWithLabels v h labels with
      | inl err => inl (PanicError err)
      | inr r => inr r
      end
  end.

Definition Observe (x : Z) (c : child) (v : MetricVec) : MetricVec :=
  set_children (alter (alter (λ '(values, m), (values, m ++ [x])) c.2) c.1) v.

(** ** The vector as a map from label values to observations *)

Fixpoint find_values (values : list string) (metrics : list (list string * metric)) : metric :=
  match metrics with
  | [] => []
  | (values', m) :: metrics => if decide (values' = values) then m else find_values values metrics
  end.
Definition observations (v : MetricVec) (values : list string) : metric :=
  find_values values (bucket v (hash_parts hashNew values)).

(** Labels that name every variable label of the vector and nothing else. *)
Definition complete (v : MetricVec) (labels : Labels) : Prop :=
  dom labels = list_to_set (variableLabels (vec_desc v)) ∧ NoDup (variableLabels (vec_desc v)).

Section vec.
Implicit Types (v : MetricVec) (labels : Labels).

Lemma complete_size v labels :
  complete v labels → size labels = length (variableLabels (vec_desc v)).
Proof. intros [Hd Hnd]. rewrite <- (size_dom (D:=gset string)), Hd. by apply size_list_to_set. Qed.

Lemma hash_labels_complete labels h vars :
  (∀ k, k ∈ vars → k ∈ dom labels) →
  hash_labels labels h vars = inr (hash_parts h (get_label labels <$> vars)).
Proof.
  revert h. induction vars as [|k vars IH]; intros h Hin; [done|]. simpl.
  destruct (proj1 (elem_of_dom labels k) (Hin k (list_elem_of_here _ _))) as [x Hx].
  unfold get_label at 1. rewrite Hx. apply IH. intros k' Hk'. apply Hin. by right.
Qed.

Lemma hashLabels_complete v labels :
  complete v labels → hashLabels v labels = inr (hash_parts hashNew (extractLabelValues v labels)).
Proof.
  intros Hc. unfold hashLabels. rewrite (complete_size v), Nat.eqb_refl by done. simpl.
  apply hash_labels_complete. intros k Hk. destruct Hc as [-> _]. by apply elem_of_list_to_set.
Qed.

Lemma matchLabels_complete v labels values :
  complete v labels → matchLabels v values labels = bool_decide (values = extractLabelValues v labels).
Proof.
  intros Hc. unfold matchLabels. rewrite (complete_size v) by done.
  apply eq_true_iff_eq. rewrite andb_true_iff, Nat.eqb_eq, forallb_forall, bool_decide_eq_true.
  split.
  - intros [Hlen Hall]. apply list_eq_same_length with (length values);
      [unfold extractLabelValues; by rewrite length_fmap|done|].
    intros i x y _ Hx Hy. unfold extractLabelValues in Hy.
    apply list_lookup_fmap_Some in Hy as (k & -> & Hk).
    specialize (Hall (i, k)). rewrite bool_decide_eq_true in Hall.
    assert (values !! i = Some (get_label labels k)) as Hv; [|congruence].
    apply Hall. apply list_elem_of_In, elem_of_lookup_imap. eauto.
  - intros ->. unfold extractLabelValues. rewrite length_fmap. split; [done|].
    intros [i k] (j & k' & [= <- <-] & Hk)%list_elem_of_In%elem_of_lookup_imap.
    apply bool_decide_eq_true. by rewrite list_lookup_fmap, Hk.
Qed.

(** The position of the child the labels select. *)
Lemma find_position v labels metrics :
  complete v labels →
  let i := findMetricWithLabels v metrics labels in
  let vals := extractLabelValues v labels in
  (i < length metrics)%nat ∧ (∃ m, metrics !! i = Some (vals, m)
     ∧ ∀ x values, find_values values (alter (λ '(values, m), (values, m ++ [x])) i metrics)
                   = if decide (values = vals) then find_values values metrics ++ [x] else find_values values metrics)
  ∨ (i = length metrics ∧ find_values vals metrics = []
     ∧ ∀ m values, find_values values (metrics ++ [(vals, m)])
                   = if decide (values = vals) then m else find_values values metrics).
Proof.
  intros Hc. induction metrics as [|[values m] metrics IH]; simpl.
  { right. split_and!; [done|done|]. intros m values. repeat case_decide; congruence. }
  rewrite matchLabels_complete by done. case_bool_decide as Heq.
  - left. subst values. split; [lia|]. exists m. split; [done|]. intros x values.
    simpl. repeat case_decide; congruence.
  - destruct IH as [(Hi & m' & Hm & Hf) | (-> & Hn & Hf)].
    + left. split; [lia|]. exists m'. split; [done|]. intros x values'.
      change (alter ?f (S ?i) (?a :: ?l)) with (a :: alter f i l).
      cbn [find_values]. rewrite Hf. repeat case_decide; congruence.
    + right. split_and!; [done| |].
      { by rewrite decide_False. }
      intros m' values'. rewrite Hf. repeat case_decide; congruence.
Qed.

Lemma bucket_set v h l h' :
  bucket (set_children (<[h := l]>) v) h' = if decide (h' = h) then l else bucket v h'.
Proof.
  unfold bucket. simpl. case_decide as Heq; [subst; by rewrite lookup_insert_eq|by rewrite lookup_insert_ne].
Qed.

Lemma bucket_alter v h f h' :
  f [] = [] →
  bucket (set_children (alter f h) v) h' = if decide (h' = h) then f (bucket v h) else bucket v h'.
Proof.
  intros Hf. unfold bucket. simpl. case_decide as Heq.
  - subst. rewrite lookup_alter_eq. by destruct (children v !! h).
  - by rewrite lookup_alter_ne.
Qed.

(** [With] followed by [Observe] adds the value to the observations made under
    the label values of the map, and to no others, whatever hashes collide. *)
Lemma With_Observe v labels x :
  complete v labels → reserved v ∉ variableLabels (vec_desc v) →
  ∃ v' c, With v labels = inr (v', c)
    ∧ vec_desc (Observe x c v') = vec_desc v ∧ reserved (Observe x c v') = reserved v
    ∧ ∀ values, observations (Observe x c v') values
        = if decide (values = extractLabelValues v labels) then observations v values ++ [x]
          else observations v values.
Proof.
  intros Hc Hres. unfold With. rewrite hashLabels_complete by done.
  unfold getOrCreateMetricWithLabels, observations.
  set (vals := extractLabelValues v labels). set (h := hash_parts hashNew vals).
  destruct (find_position v labels (bucket v h) Hc) as [(Hi & m & Hm & Hf) | (Hi & Hn & Hf)].
  - rewrite (proj2 (Nat.ltb_lt _ _) Hi). eexists _, _. split_and!; [done|done|done|]. intros values.
    unfold Observe. rewrite bucket_alter by done. simpl. case_decide as Hh.
    + rewrite Hh. apply Hf.
    + rewrite decide_False; [done|]. by intros ->.
  - rewrite Hi, Nat.ltb_irrefl. unfold newMetric. rewrite bool_decide_eq_false_2 by done.
    unfold vals at 1, extractLabelValues at 1. rewrite length_fmap, Nat.eqb_refl. simpl.
    eexists _, _. split_and!; [done|done|done|]. intros values.
    unfold Observe. rewrite bucket_alter by done. simpl. rewrite !bucket_set.
    case_decide as Hh.
    + rewrite decide_True, alter_app_r_alt, Nat.sub_diag by (done || lia). simpl. rewrite Hf, Hh. fold vals.
      case_decide as Hv; [|done]. rewrite Hv. unfold vals in *. by rewrite Hn.
    + rewrite decide_False; [done|]. by intros ->.
Qed.
End vec.
