(* ===== verification/Metrics.v ===== *)
(** * Spans as metrics (src/server/prom_zip_collector.go, fntracer.go)

    The tracer wraps every span so that finishing it copies its baggage to its
    tags; the recorder (zipkin-go-opentracing's zipkin-recorder.go) turns the
    tags into binary annotations; the collector reports the duration of the span
    on a histogram and a summary named after it, creating them from the labels of
    the first span of that name. The tags the service sets are strings. *)

From S2P Require Import Prelude Uuid Prometheus.
Local Open Scope Z_scope.

(** ** The collector *)

Inductive AnnotationType :=
  | AnnotationType_BOOL | AnnotationType_BYTES | AnnotationType_I16 | AnnotationType_I32
  | AnnotationType_I64 | AnnotationType_DOUBLE | AnnotationType_STRING.
#[export] Instance AnnotationType_eq_dec : EqDecision AnnotationType.
Proof. solve_decision. Defined.

Record BinaryAnnotation := { ann_Key : string; ann_Value : string; ann_Type : AnnotationType }.

Record Span := {
  span_Name : string;
  span_Duration : option Z;
  BinaryAnnotations : list BinaryAnnotation;
}.
Definition GetDuration (sp : Span) : Z := default 0 (span_Duration sp).

Definition is_label (a : BinaryAnnotation) : bool :=
  bool_decide (ann_Type a = AnnotationType_STRING) && String.prefix "fn" (ann_Key a).

Definition getLabels (sp : Span) : list string * Labels :=
  foldl (λ '(keys, labelMap) a,
    if is_label a then (keys ++ [ann_Key a], <[ann_Key a := ann_Value a]> labelMap) else (keys, labelMap))
    ([], ∅) (BinaryAnnotations sp).

(** The three maps of a [PrometheusCollector], and the default registry. *)
Record metrics := {
  registry : Registry;
  histogramVecMap : gmap string MetricVec;
  registeredLabelKeysMap : gmap string (list string);
  summaryVecMap : gmap string MetricVec;
}.
Definition NewPrometheusCollector (r : Registry) : metrics :=
  {| registry := r; histogramVecMap := ∅; registeredLabelKeysMap := ∅; summaryVecMap := ∅ |}.

Definition set_histogram (name : string) (v : MetricVec) (s : metrics) : metrics :=
  {| registry := registry s; histogramVecMap := <[name := v]> (histogramVecMap s);
     registeredLabelKeysMap := registeredLabelKeysMap s; summaryVecMap := summaryVecMap s |}.
Definition set_summary (name : string) (v : MetricVec) (s : metrics) : metrics :=
  {| registry := registry s; histogramVecMap := histogramVecMap s;
     registeredLabelKeysMap := registeredLabelKeysMap s; summaryVecMap := <[name := v]> (summaryVecMap s) |}.
Definition set_label_keys (name : string) (keys : list string) (s : metrics) : metrics :=
  {| registry := registry s; histogramVecMap := histogramVecMap s;
     registeredLabelKeysMap := <[name := keys]> (registeredLabelKeysMap s); summaryVecMap := summaryVecMap s |}.

Definition MustRegister (d : Desc) : M metrics unit := λ s,
  match Register d (registry s) with
  | inl err => Panic (PanicError err) s
  | inr r => Ret tt {| registry := r; histogramVecMap := histogramVecMap s;
      registeredLabelKeysMap := registeredLabelKeysMap s; summaryVecMap := summaryVecMap s |}
  end.

Definition histogram_name (name : string) : string := "flow_span_" +:+ name +:+ "_duration_secs_histogram".
Definition summary_name (name : string) : string := "flow_span_" +:+ name +:+ "_duration_secs_summary".
Definition span_help (name : string) : string := "Span " +:+ name +:+ " duration, by span name".

(** The branch for a span name that has no metric yet. *)
Definition create_metrics (name : string) (keys : list string) : M metrics unit :=
  let histogramVec := NewHistogramVec (histogram_name name) (span_help name) keys in
  let summaryVec := NewSummaryVec (summary_name name) (span_help name) keys in
  modify (set_histogram name histogramVec);;
  MustRegister (vec_desc histogramVec);;
  modify (set_summary name summaryVec);;
  MustRegister (vec_desc summaryVec);;
  modify (set_label_keys name keys).

(** The labels of a span restricted to the keys of its metric. *)
Definition known_labels (expected : list string) (labels : Labels) : Labels :=
  foldl (λ m k, <[k := get_label labels k]> m) ∅ expected.

(** [time.Duration(span.GetDuration()) * time.Microsecond], in nanoseconds. *)
Definition nanos (sp : Span) : Z := int64 (GetDuration sp * 1000).

(** [vecs[name].With(labels).Observe(x)] on one of the maps of vectors. *)
Definition observe_on (vecs : metrics → gmap string MetricVec)
    (put : string → MetricVec → metrics → metrics) (name : string) (labels : Labels) (x : Z) : M metrics unit :=
  s ← get_state;
  v ← deref (vecs s !! name);
  match With v labels with
  | inl w => panic w
  | inr (v', c) => modify (put name (Observe x c v'))
  end.

(** [Collect] after its lookup of the registered label keys. *)
Definition collect_with (sp : Span) (expectedLabelKeys : option (list string)) : M metrics unit :=
  let '(labelKeysFromSpan, labelValuesFromSpan) := getLabels sp in
  labelValuesToUse ←
    match expectedLabelKeys with
    | None => create_metrics (span_Name sp) labelKeysFromSpan;; mret labelValuesFromSpan
    | Some expected => mret (known_labels expected labelValuesFromSpan)
    end;
  observe_on histogramVecMap set_histogram (span_Name sp) labelValuesToUse (nanos sp);;
  observe_on summaryVecMap set_summary (span_Name sp) labelValuesToUse (nanos sp).

Definition Collect (sp : Span) : M metrics unit :=
  s ← get_state;
  collect_with sp (registeredLabelKeysMap s !! span_Name sp).

(** ** The tracer *)

Record RawSpan := {
  Operation : string;
  Tags : gmap string string;
  Baggage : gmap string string;
  Sampled : bool;
  Owner : bool;
  Duration : Z;        (** nanoseconds *)
}.

Definition SetTag (k v : string) (sp : RawSpan) : RawSpan :=
  {| Operation := Operation sp; Tags := <[k := v]> (Tags sp); Baggage := Baggage sp;
     Sampled := Sampled sp; Owner := Owner sp; Duration := Duration sp |}.

Section tracer.
Context `{MapOrder}.

Definition copyBaggageItemsToTags (n : nat) (sp : RawSpan) : RawSpan :=
  foldl (λ sp' k, if String.prefix "fn" k then SetTag k (get_label (Baggage sp) k) sp' else sp')
    sp (range_order n (map_to_list (Baggage sp)).*1).

Definition annotateBinary (key value : string) : BinaryAnnotation :=
  {| ann_Key := key; ann_Value := value; ann_Type := AnnotationType_STRING |}.

(** What the collector reads of the span that [RecordSpan] makes. *)
Definition zipkin_span (n : nat) (sp : RawSpan) : Span := {|
  span_Name := Operation sp;
  span_Duration :=
    if Owner sp then let d := Z.quot (Duration sp) 1000 in Some (if d =? 0 then 1 else d) else None;
  BinaryAnnotations := annotateBinary "lc" "flow-service"
    :: ((λ k, annotateBinary k (get_label (Tags sp) k)) <$> range_order n (map_to_list (Tags sp)).*1);
|}.

(** For tags that are strings, and none of them [span.kind]: the spans of the
    service have no others. *)
Definition RecordSpan (n : nat) (sp : RawSpan) : M metrics unit :=
  if negb (Sampled sp) then mret tt else Collect (zipkin_span n sp).

(** [FnSpan.Finish]; its two loops over maps are the loops [2 n] and [2 n + 1]. *)
Definition Finish (n : nat) (sp : RawSpan) : M metrics unit :=
  RecordSpan (S (2 * n)) (copyBaggageItemsToTags (2 * n) sp).

Definition finish_all (spans : list RawSpan) : M metrics unit :=
  for_each (imap pair spans) (λ '(n, sp), Finish n sp).
End tracer.
