(* ===== verification/MetricsFacts.v ===== *)
(** * The collector never fails and loses no span (theorems about Metrics) *)

From S2P Require Import Prelude Uuid Prometheus Metrics.
Local Open Scope Z_scope.

(** ** Labels *)

Notation zkeys sp := (getLabels sp).1.
Notation zlabels sp := (getLabels sp).2.

Lemma getLabels_spec sp :
  zkeys sp = ann_Key <$> filter (λ a, is_label a) (BinaryAnnotations sp)
  ∧ dom (zlabels sp) = list_to_set (zkeys sp)
  ∧ ∀ k, k ∈ zkeys sp → String.prefix "fn" k = true.
Proof.
  unfold getLabels. induction (BinaryAnnotations sp) as [|a l IH] using rev_ind; [set_solver|].
  rewrite foldl_app, filter_app. simpl. destruct (foldl _ _ l) as [keys labels]. simpl in *.
  destruct IH as (-> & Hdom & Hfn). rewrite filter_cons. destruct (is_label a) eqn:Hl; simpl.
  - rewrite fmap_app. split_and!; [done| |].
    + rewrite dom_insert_L, list_to_set_app_L, Hdom. set_solver.
    + intros k [Hk| ->%list_elem_of_singleton]%elem_of_app; [auto|].
      unfold is_label in Hl. by apply andb_true_iff in Hl as [_ ?].
  - by rewrite app_nil_r.
Qed.

Lemma known_labels_lookup expected labels k :
  known_labels expected labels !! k = if decide (k ∈ expected) then Some (get_label labels k) else None.
Proof.
  unfold known_labels. induction expected as [|k' l IH] using rev_ind; [done|].
  rewrite foldl_app. simpl. destruct (decide (k = k')) as [->|Hne].
  - rewrite lookup_insert_eq, decide_True by set_solver. done.
  - rewrite lookup_insert_ne, IH by done. repeat case_decide; set_solver.
Qed.

Lemma known_labels_dom expected labels : dom (known_labels expected labels) = list_to_set expected.
Proof.
  apply set_eq. intros k. rewrite elem_of_dom, known_labels_lookup, elem_of_list_to_set.
  case_decide; split; naive_solver.
Qed.

Lemma known_labels_values expected labels :
  (get_label (known_labels expected labels) <$> expected) = (get_label labels <$> expected).
Proof.
  apply list_fmap_ext. intros i k Hk. unfold get_label at 1. rewrite known_labels_lookup.
  by rewrite decide_True by (by eapply list_elem_of_lookup_2).
Qed.

(** ** Registering *)

Definition name_id (name : string) : Z := hash_parts hashNew [name].

Definition unregistered (r : Registry) (name : string) : Prop :=
  dimHashesByName r !! name = None ∧ collectorsByID r !! name_id name = None ∧ name_id name ∉ descIDs r.

#[export] Instance unregistered_dec r name : Decision (unregistered r name).
Proof. unfold unregistered. apply _. Defined.

Lemma NewDesc_valid name help keys :
  help ≠ "" → metricNameRE name = true → forallb checkLabelName keys = true → NoDup keys →
  let d := NewDesc name help keys in
  fqName d = name ∧ variableLabels d = keys ∧ desc_id d = name_id name ∧ desc_err d = None.
Proof.
  intros Hh Hn Hk Hnd. unfold NewDesc. rewrite Hn, Hk, size_list_to_set, Nat.eqb_refl by done.
  by rewrite (proj2 (String.eqb_neq help "") Hh).
Qed.

Definition is_registered (r : Registry) (name : string) : Prop :=
  is_Some (collectorsByID r !! name_id name).

Lemma Register_fresh d r :
  desc_err d = None → desc_id d = name_id (fqName d) → unregistered r (fqName d) →
  ∃ r', Register d r = inr r'
    ∧ (∀ name, name_id name ≠ name_id (fqName d) → unregistered r name → unregistered r' name)
    ∧ (∀ name, is_registered r name ∨ name = fqName d → is_registered r' name).
Proof.
  intros He Hid (Hdim & Hc & Hd). unfold Register. rewrite He, Hdim, Hid, Hc. simpl.
  rewrite bool_decide_eq_false_2 by done.
  eexists. split_and!; [done| |].
  - intros name Hne (Hdim' & Hc' & Hd'). unfold unregistered. simpl.
    rewrite !lookup_insert_ne by congruence. split_and!; [done|done|set_solver].
  - intros name Hname. unfold is_registered in *. simpl. rewrite lookup_insert_is_Some'.
    destruct Hname as [?|Heq]; [by right|left; by rewrite Heq].
Qed.

(** A second collector for a registered name is refused. *)
Lemma Register_again d r :
  is_registered r (fqName d) → (desc_err d = None → desc_id d = name_id (fqName d)) →
  ∃ err, Register d r = inl err.
Proof.
  intros [d' Hc] Hid. unfold Register. destruct (desc_err d); [eauto|].
  destruct (match dimHashesByName r !! fqName d with Some h => _ | None => _ end); [eauto|].
  rewrite Hid, Hc by done. simpl. eauto.
Qed.

Lemma NewDesc_id name help keys :
  let d := NewDesc name help keys in
  fqName d = name ∧ (desc_err d = None → desc_id d = name_id (fqName d)).
Proof. unfold NewDesc. repeat case_match; by split. Qed.

(** The metrics of distinct span names have distinct valid names, and the
    hashes of those names do not collide. *)
Definition metric_names (name : string) : list string := [histogram_name name; summary_name name].
Definition separate (names : list string) : bool :=
  let metrics := names ≫= λ n, pair n <$> metric_names n in
  forallb (λ '(_, nm), metricNameRE nm) metrics
  && forallb (λ x, forallb (λ y, negb (name_id x.2 =? name_id y.2) || bool_decide (x = y)) metrics) metrics.

(** ** What the vectors of a span name hold after a sequence of spans *)

Definition matching (name : string) (keys values : list string) (l : list Span) : list Z :=
  nanos <$> filter (λ sp, span_Name sp = name ∧ (get_label (zlabels sp) <$> keys) = values) l.

Definition first_keys (name : string) (l : list Span) : option (list string) :=
  (λ sp, zkeys sp) <$> head (filter (λ sp, span_Name sp = name) l).

Record vec_holds (v : MetricVec) (name : string) (keys : list string) (l : list Span) : Prop := {
  vh_labels : variableLabels (vec_desc v) = keys;
  vh_reserved : String.prefix "fn" (reserved v) = false;
  vh_content values : observations v values = matching name keys values l;
}.

Definition vectors (s : metrics) (name : string) (keys : list string) (l : list Span) : Prop :=
  ∃ hv sv, histogramVecMap s !! name = Some hv ∧ summaryVecMap s !! name = Some sv
    ∧ vec_holds hv name keys l ∧ vec_holds sv name keys l.

Definition good_keys (keys : list string) : Prop :=
  NoDup keys ∧ ∀ k, k ∈ keys → String.prefix "fn" k = true.

Definition clean (names : list string) (sp : Span) : Prop :=
  span_Name sp ∈ names ∧ NoDup (zkeys sp) ∧ forallb checkLabelName (zkeys sp) = true.

Section collector.
Context (names : list string) (Hsep : separate names = true).
Implicit Types (s : metrics) (l : list Span).

Record collected (l : list Span) (s : metrics) : Prop := {
  co_vectors name keys : registeredLabelKeysMap s !! name = Some keys → good_keys keys ∧ vectors s name keys l;
  co_free name : name ∈ names → registeredLabelKeysMap s !! name = None →
    Forall (unregistered (registry s)) (metric_names name);
  co_registered name : is_Some (registeredLabelKeysMap s !! name) →
    Forall (is_registered (registry s)) (metric_names name);
}.

Lemma matching_app name keys values l sp :
  matching name keys values (l ++ [sp])
  = if decide (span_Name sp = name ∧ (get_label (zlabels sp) <$> keys) = values)
    then matching name keys values l ++ [nanos sp] else matching name keys values l.
Proof.
  unfold matching. rewrite filter_app, fmap_app, filter_cons. case_decide; [done|]. apply app_nil_r.
Qed.

Lemma matching_none name keys values l :
  first_keys name l = None → matching name keys values l = [].
Proof.
  unfold first_keys, matching. intros Hf.
  assert (filter (λ sp, span_Name sp = name) l = []) as Hn by (by destruct (filter _ l)).
  induction l as [|sp l IH]; [done|]. rewrite filter_cons in *. case_decide; [done|].
  rewrite decide_False by naive_solver. auto.
Qed.

Lemma vec_holds_other v name keys l sp :
  span_Name sp ≠ name → vec_holds v name keys l → vec_holds v name keys (l ++ [sp]).
Proof.
  intros Hne [? ? Hc]. split; [done|done|]. intros values.
  rewrite Hc, matching_app, decide_False; naive_solver.
Qed.

(** Reporting a span on a vector that holds the earlier ones. *)
Lemma vec_holds_observe v keys l sp labels :
  vec_holds v (span_Name sp) keys l → good_keys keys →
  dom labels = list_to_set keys → (get_label labels <$> keys) = (get_label (zlabels sp) <$> keys) →
  ∃ v' c, With v labels = inr (v', c)
    ∧ vec_holds (Observe (nanos sp) c v') (span_Name sp) keys (l ++ [sp]).
Proof.
  intros [Hl Hr Hc] [Hnd Hfn] Hdom Hval.
  destruct (With_Observe v labels (nanos sp)) as (v' & c & Hw & Hd & Hr' & Ho).
  { split; by rewrite Hl. }
  { rewrite Hl. intros Hin%Hfn. congruence. }
  exists v', c. split; [done|]. split; [by rewrite Hd|by rewrite Hr'|].
  intros values. rewrite Ho, matching_app, Hc. unfold extractLabelValues. rewrite Hl, Hval.
  destruct (decide (values = _)) as [Heq|Heq].
  - rewrite decide_True; [done|]. by split.
  - rewrite decide_False; [done|]. intros [_ Heq']. by apply Heq.
Qed.

(** A map with the vector of one name replaced. *)
Lemma wp_observe_on vecs put v v' c name labels x (Q : unit → metrics → Prop) s :
  vecs s !! name = Some v → With v labels = inr (v', c) → Q tt (put name (Observe x c v') s) →
  wp (observe_on vecs put name labels x) Q s.
Proof.
  intros Hv Hw HQ. unfold observe_on. apply wp_bind, wp_get, wp_bind. eapply wp_deref; [done|].
  rewrite Hw. by apply wp_modify.
Qed.

(** Both reports of a span whose metrics exist. *)
Lemma report_collected l s sp keys labels :
  collected l s → registeredLabelKeysMap s !! span_Name sp = Some keys →
  dom labels = list_to_set keys → (get_label labels <$> keys) = (get_label (zlabels sp) <$> keys) →
  wp (observe_on histogramVecMap set_histogram (span_Name sp) labels (nanos sp);;
      observe_on summaryVecMap set_summary (span_Name sp) labels (nanos sp))
     (λ _ s', collected (l ++ [sp]) s' ∧ registeredLabelKeysMap s' = registeredLabelKeysMap s) s.
Proof.
  intros [Hvec Hfree Hisreg] Hreg Hdom Hval.
  destruct (Hvec _ _ Hreg) as (Hk & hv & sv & Hh & Hs & Hhv & Hsv).
  destruct (vec_holds_observe _ _ _ _ labels Hhv Hk Hdom Hval) as (hv' & ch & Hwh & Hh').
  destruct (vec_holds_observe _ _ _ _ labels Hsv Hk Hdom Hval) as (sv' & cs & Hws & Hs').
  apply wp_bind. eapply wp_observe_on; [done|done|]. eapply wp_observe_on; [done|done|].
  split; [|done]. split; [|done|done]. simpl. intros name keys' Hreg'.
  destruct (decide (name = span_Name sp)) as [->|Hne].
  - simplify_eq. split; [done|]. eexists _, _. simpl. rewrite !lookup_insert_eq. eauto.
  - destruct (Hvec _ _ Hreg') as (Hk' & hv2 & sv2 & ? & ? & ? & ?). split; [done|].
    exists hv2, sv2. simpl. rewrite !lookup_insert_ne by done.
    split_and!; try done; by apply vec_holds_other.
Qed.

(** The names of the metrics of two span names in the list. *)
Lemma separate_spec :
  (∀ name nm, name ∈ names → nm ∈ metric_names name → metricNameRE nm = true)
  ∧ (∀ name name' nm nm', name ∈ names → name' ∈ names → nm ∈ metric_names name →
       nm' ∈ metric_names name' → name_id nm = name_id nm' → name = name' ∧ nm = nm').
Proof.
  unfold separate in Hsep. set (ms := names ≫= _) in Hsep.
  assert (∀ name nm, name ∈ names → nm ∈ metric_names name → In (name, nm) ms) as Hin.
  { intros name nm Hn Hm. apply list_elem_of_In, list_elem_of_bind. exists name.
    split; [|done]. by apply list_elem_of_fmap_2. }
  apply andb_true_iff in Hsep as [Hv Hd]. rewrite forallb_forall in Hv, Hd. split.
  - intros name nm Hn Hm. by apply (Hv (name, nm)), Hin.
  - intros name name' nm nm' Hn Hn' Hm Hm' Heq.
    specialize (Hd _ (Hin _ _ Hn Hm)). rewrite forallb_forall in Hd. specialize (Hd _ (Hin _ _ Hn' Hm')).
    simpl in Hd. rewrite Heq, Z.eqb_refl in Hd. simpl in Hd. apply bool_decide_eq_true in Hd. by simplify_eq.
Qed.

Lemma wp_MustRegister d (Q : unit → metrics → Prop) s r :
  Register d (registry s) = inr r →
  Q tt {| registry := r; histogramVecMap := histogramVecMap s;
          registeredLabelKeysMap := registeredLabelKeysMap s; summaryVecMap := summaryVecMap s |} →
  wp (MustRegister d) Q s.
Proof. intros Hr HQ. unfold wp, MustRegister. by rewrite Hr. Qed.

(** Creating the metrics of the first span of a name. *)
Lemma create_collected l s sp :
  collected l s → clean names sp → registeredLabelKeysMap s !! span_Name sp = None →
  first_keys (span_Name sp) l = None →
  wp (create_metrics (span_Name sp) (zkeys sp))
     (λ _ s', collected l s' ∧ registeredLabelKeysMap s' = <[span_Name sp := zkeys sp]> (registeredLabelKeysMap s)) s.
Proof.
  intros [Hvec Hfree Hisreg] (Hn & Hnd & Hck) Hreg Hnone. set (n := span_Name sp) in *.
  destruct separate_spec as [Hvalid Hids]. pose proof (Hfree n Hn Hreg) as Hun.
  apply Forall_cons in Hun as [Huh Hun]. apply Forall_cons in Hun as [Hus _].
  assert (histogram_name n ∈ metric_names n ∧ summary_name n ∈ metric_names n) as [Hmh Hms]
    by (unfold metric_names; set_solver).
  destruct (NewDesc_valid (histogram_name n) (span_help n) (zkeys sp)) as (Hh1 & Hh2 & Hh3 & Hh4); [done|by eauto..|].
  destruct (NewDesc_valid (summary_name n) (span_help n) (zkeys sp)) as (Hs1 & Hs2 & Hs3 & Hs4); [done|by eauto..|].
  destruct (Register_fresh (NewDesc (histogram_name n) (span_help n) (zkeys sp)) (registry s))
    as (r1 & Hr1 & Hkeep1 & Hin1); [done|by rewrite Hh1|by rewrite Hh1|].
  destruct (Register_fresh (NewDesc (summary_name n) (span_help n) (zkeys sp)) r1)
    as (r2 & Hr2 & Hkeep2 & Hin2); [done|by rewrite Hs1| |].
  { rewrite Hs1. apply Hkeep1; [|done]. rewrite Hh1. intros Heq.
    destruct (Hids _ _ _ _ Hn Hn Hms Hmh Heq) as [_ Heq'].
    by apply (inj (String.append _)), (inj (String.append n)) in Heq'. }
  unfold create_metrics. apply wp_bind, wp_modify, wp_bind. eapply wp_MustRegister; [done|].
  apply wp_bind, wp_modify, wp_bind. eapply wp_MustRegister; [done|]. apply wp_modify.
  split; [|done]. destruct (getLabels_spec sp) as (_ & _ & Hfn). split; simpl.
  - intros name keys. destruct (decide (name = n)) as [->|Hne].
    + rewrite lookup_insert_eq. intros [= <-]. split; [done|]. eexists _, _. simpl.
      rewrite !lookup_insert_eq. split_and!; [done|done| |]; split; simpl; try done;
        intros values; by rewrite matching_none.
    + rewrite lookup_insert_ne by done. intros Hreg'.
      destruct (Hvec _ _ Hreg') as (Hk' & hv2 & sv2 & ? & ? & ? & ?). split; [done|].
      exists hv2, sv2. simpl. by rewrite !lookup_insert_ne by done.
  - intros name Hin. destruct (decide (name = n)) as [->|Hne]; [by rewrite lookup_insert_eq|].
    rewrite lookup_insert_ne by done. intros Hreg'.
    apply list.Forall_forall. intros nm Hnm.
    apply Hkeep2; [|apply Hkeep1]; [rewrite Hs1|rewrite Hh1|].
    + intros Heq. by destruct (Hids _ _ _ _ Hin Hn Hnm Hms Heq).
    + intros Heq. by destruct (Hids _ _ _ _ Hin Hn Hnm Hmh Heq).
    + eapply list.Forall_forall; [by apply Hfree|done].
  - intros name. rewrite lookup_insert_is_Some'. intros Hname. apply list.Forall_forall. intros nm Hnm.
    apply Hin2. destruct Hname as [<-|Hname].
    + unfold metric_names in Hnm. apply elem_of_cons in Hnm as [->|Hnm].
      * left. apply Hin1. right. by rewrite Hh1.
      * right. apply list_elem_of_singleton in Hnm. by rewrite Hs1.
    + left. apply Hin1. left. by eapply list.Forall_forall; [apply Hisreg|].
Qed.

Lemma first_keys_app n l sp :
  first_keys n (l ++ [sp]) =
    match first_keys n l with
    | Some keys => Some keys
    | None => if decide (span_Name sp = n) then Some (zkeys sp) else None
    end.
Proof.
  unfold first_keys. rewrite filter_app. destruct (filter _ l); simpl; [|done].
  rewrite filter_cons. by case_decide.
Qed.

(** One span: whatever came before, it is reported. *)
Lemma Collect_collected l s sp :
  collected l s → (∀ n, registeredLabelKeysMap s !! n = first_keys n l) → clean names sp →
  wp (Collect sp) (λ _ s', collected (l ++ [sp]) s'
                           ∧ ∀ n, registeredLabelKeysMap s' !! n = first_keys n (l ++ [sp])) s.
Proof.
  intros Hco Hfirst Hclean. unfold Collect. apply wp_bind, wp_get. unfold collect_with.
  rewrite (surjective_pairing (getLabels sp)). destruct (getLabels_spec sp) as (_ & Hdom & _).
  destruct (registeredLabelKeysMap s !! span_Name sp) as [expected|] eqn:Hreg.
  - apply wp_bind, wp_ret.
    eapply wp_mono; [by eapply report_collected; [..|apply known_labels_dom|apply known_labels_values]|].
    intros [] s' [Hco' ->]. split; [done|]. intros n. rewrite first_keys_app, <- Hfirst.
    destruct (registeredLabelKeysMap s !! n) eqn:Hn; [done|]. rewrite decide_False; congruence.
  - apply wp_bind, wp_bind. eapply wp_mono; [apply create_collected; [done|done|done|by rewrite <- Hfirst]|].
    intros [] s1 [Hco1 Hreg1]. apply wp_ret.
    eapply wp_mono; [eapply report_collected; [done|by rewrite Hreg1, lookup_insert_eq|done|done]|].
    intros [] s' [Hco' ->]. split; [done|]. intros n. rewrite Hreg1, first_keys_app, <- Hfirst.
    destruct (decide (span_Name sp = n)) as [<-|Hne].
    + by rewrite lookup_insert_eq, Hreg.
    + rewrite lookup_insert_ne by done. by destruct (_ !! n).
Qed.
End collector.

(** ** The spans of the tracer *)

Definition is_fn (k : string) : Prop := String.prefix "fn" k = true.
#[export] Instance is_fn_dec k : Decision (is_fn k).
Proof. unfold is_fn. apply _. Defined.

(** The labels of a span: its tags that begin with "fn", with its baggage on top. *)
Definition span_labels (sp : RawSpan) : Labels := filter (λ kv, is_fn kv.1) (Baggage sp ∪ Tags sp).

Definition reported_duration (sp : RawSpan) : Z :=
  int64 ((if Owner sp then if Z.quot (Duration sp) 1000 =? 0 then 1 else Z.quot (Duration sp) 1000 else 0) * 1000).

Definition reported (name : string) (keys values : list string) (spans : list RawSpan) : list Z :=
  reported_duration <$>
    filter (λ sp, Sampled sp ∧ Operation sp = name ∧ (get_label (span_labels sp) <$> keys) = values) spans.

Lemma span_labels_lookup sp k :
  span_labels sp !! k = if decide (is_fn k) then (Baggage sp ∪ Tags sp) !! k else None.
Proof.
  apply option_eq. intros x. unfold span_labels. rewrite map_lookup_filter_Some. simpl.
  case_decide; naive_solver.
Qed.

Section spans.
Context `{MapOrder}.
Implicit Types (sp : RawSpan).

Lemma copy_tags n sp k :
  is_fn k → Tags (copyBaggageItemsToTags n sp) !! k = (Baggage sp ∪ Tags sp) !! k.
Proof.
  intros Hfn. unfold copyBaggageItemsToTags.
  set (f := λ sp' k, if String.prefix "fn" k then SetTag k (get_label (Baggage sp) k) sp' else sp').
  assert (∀ l sp0, Tags (foldl f sp0 l) !! k
                   = if decide (k ∈ l) then Some (get_label (Baggage sp) k) else Tags sp0 !! k) as Hf.
  { intros l. induction l as [|k' l IH] using rev_ind; intros sp0; [done|].
    rewrite foldl_app. simpl. unfold f at 1. destruct (String.prefix "fn" k') eqn:Hp; simpl.
    - destruct (decide (k = k')) as [->|Hne].
      + rewrite lookup_insert_eq, decide_True by set_solver. done.
      + rewrite lookup_insert_ne, IH by done. apply decide_ext. set_solver.
    - rewrite IH. assert (k ≠ k') by (unfold is_fn in Hfn; congruence).
      apply decide_ext. set_solver. }
  rewrite Hf, lookup_union. unfold get_label. case_decide as Hin.
  - rewrite range_order_perm in Hin. apply list_elem_of_fmap in Hin as ([k1 v] & -> & Hin).
    apply elem_of_map_to_list in Hin. simpl. rewrite Hin. by destruct (Tags sp !! k1).
  - rewrite range_order_perm in Hin. destruct (Baggage sp !! k) as [v|] eqn:Hb.
    + exfalso. apply Hin. apply list_elem_of_fmap. exists (k, v). by rewrite elem_of_map_to_list.
    + by rewrite (left_id_L None _).
Qed.

Lemma copy_rest n sp :
  let sp' := copyBaggageItemsToTags n sp in
  Operation sp' = Operation sp ∧ Sampled sp' = Sampled sp ∧ Owner sp' = Owner sp ∧ Duration sp' = Duration sp.
Proof.
  unfold copyBaggageItemsToTags. induction (range_order _ _) as [|k l IH] using rev_ind; [done|].
  rewrite foldl_app. simpl in *. by destruct (String.prefix "fn" k).
Qed.

(** The labels the collector reads from a list of tags. *)
Lemma getLabels_tags (z : Span) f ks :
  BinaryAnnotations z = annotateBinary "lc" "flow-service" :: ((λ k, annotateBinary k (f k)) <$> ks) →
  zkeys z = filter is_fn ks ∧ ∀ k, zlabels z !! k = if decide (k ∈ filter is_fn ks) then Some (f k) else None.
Proof.
  unfold getLabels. intros ->. simpl. induction ks as [|k' ks IH] using rev_ind; [done|].
  rewrite fmap_app, foldl_app, filter_app, filter_cons. simpl.
  destruct (foldl _ _ _) as [keys labels]. simpl in *. destruct IH as [-> IH].
  unfold is_label. simpl. destruct (decide (is_fn k')) as [Hp|Hp].
  - unfold is_fn in Hp. rewrite Hp. split; [done|]. intros k. simpl. destruct (decide (k = k')) as [->|Hne].
    + rewrite lookup_insert_eq, decide_True by set_solver. done.
    + rewrite lookup_insert_ne, IH by done. apply decide_ext. set_solver.
  - apply not_true_is_false in Hp. by rewrite Hp, app_nil_r.
Qed.

(** The span the recorder hands to the collector for the [n]-th finished span. *)
Definition recorded (p : nat * RawSpan) : Span :=
  zipkin_span (S (2 * p.1)) (copyBaggageItemsToTags (2 * p.1) p.2).

Lemma recorded_labels p :
  zlabels (recorded p) = span_labels p.2 ∧ NoDup (zkeys (recorded p))
  ∧ zkeys (recorded p) ≡ₚ elements (dom (span_labels p.2)).
Proof.
  destruct p as [n sp]. set (sp' := copyBaggageItemsToTags (2 * n) sp).
  set (ks := range_order (S (2 * n)) (map_to_list (Tags sp')).*1).
  destruct (getLabels_tags (recorded (n, sp)) (get_label (Tags sp')) ks eq_refl) as [Hk Hl].
  assert (∀ k, k ∈ ks ↔ is_Some (Tags sp' !! k)) as Hks.
  { intros k. unfold ks. rewrite range_order_perm, list_elem_of_fmap. split.
    - intros ([k1 v] & -> & Hin%elem_of_map_to_list). simpl. eauto.
    - intros [v Hv]. exists (k, v). by rewrite elem_of_map_to_list. }
  assert (NoDup ks) as Hnd by (unfold ks; rewrite range_order_perm; apply NoDup_fst_map_to_list).
  assert (zlabels (recorded (n, sp)) = span_labels sp) as Heq.
  { apply map_eq. intros k. rewrite Hl, span_labels_lookup.
    destruct (decide (is_fn k)) as [Hfn|Hfn].
    - rewrite <- (copy_tags (2 * n)) by done. fold sp'. case_decide as Hin.
      + apply list_elem_of_filter in Hin as [_ [v Hv]%Hks]. unfold get_label. by rewrite Hv.
      + destruct (Tags sp' !! k) eqn:Hv; [|done]. exfalso. apply Hin, list_elem_of_filter.
        by rewrite Hks, Hv.
    - rewrite decide_False; [done|]. rewrite list_elem_of_filter. naive_solver. }
  assert (NoDup (zkeys (recorded (n, sp)))) as Hnk by (rewrite Hk; by apply NoDup_filter).
  split_and!; [done|done|]. cbn [snd]. rewrite <- Heq.
  destruct (getLabels_spec (recorded (n, sp))) as (_ & -> & _).
  by rewrite elements_list_to_set.
Qed.

Definition kept (l : list (nat * RawSpan)) : list Span :=
  omap (λ p, if Sampled p.2 then Some (recorded p) else None) l.

Lemma recorded_rest p :
  span_Name (recorded p) = Operation p.2 ∧ nanos (recorded p) = reported_duration p.2.
Proof.
  destruct p as [n sp]. unfold recorded, nanos, GetDuration, zipkin_span, reported_duration. simpl.
  destruct (copy_rest (n + (n + 0)) sp) as (-> & _ & -> & ->). by destruct (Owner sp).
Qed.

Lemma matching_kept name keys values l :
  matching name keys values (kept l) = reported name keys values l.*2.
Proof.
  unfold matching, reported, kept. induction l as [|p l IH]; [done|].
  destruct (recorded_labels p) as (Hl & _). destruct (recorded_rest p) as [Hn Hd].
  rewrite list_omap_cons, fmap_cons, filter_cons. destruct (Sampled p.2).
  - rewrite filter_cons, Hn, Hl. repeat case_decide; try (simpl in *; tauto); rewrite ?fmap_cons, IH, ?Hd; done.
  - rewrite decide_False by (simpl; tauto). done.
Qed.

Lemma first_keys_kept name l first :
  head (filter (λ sp, Sampled sp ∧ Operation sp = name) l.*2) = Some first →
  ∃ keys, first_keys name (kept l) = Some keys ∧ keys ≡ₚ elements (dom (span_labels first)).
Proof.
  unfold first_keys, kept. induction l as [|p l IH]; [done|].
  destruct (recorded_labels p) as (_ & _ & Hp). destruct (recorded_rest p) as [Hn _].
  rewrite list_omap_cons, fmap_cons, filter_cons. destruct (Sampled p.2).
  - rewrite filter_cons, Hn. repeat case_decide; try (simpl in *; tauto). intros [= <-]. simpl. eauto.
  - rewrite decide_False by (simpl; tauto). done.
Qed.

Lemma finish_all_collected names spans r :
  separate names = true →
  (∀ n, n ∈ names → Forall (unregistered r) (metric_names n)) →
  Forall (λ sp, Operation sp ∈ names ∧ map_Forall (λ k _, checkLabelName k = true) (span_labels sp)) spans →
  wp (finish_all spans) (λ _ s, collected names (kept (imap pair spans)) s
      ∧ ∀ n, registeredLabelKeysMap s !! n = first_keys n (kept (imap pair spans))) (NewPrometheusCollector r).
Proof.
  intros Hsep Hfree Hok. unfold finish_all.
  apply (wp_for_each (λ l s, collected names (kept l) s ∧ ∀ n, registeredLabelKeysMap s !! n = first_keys n (kept l))).
  { split; [|done]. split; [done| |by intros ? []]. intros n Hn _. by apply Hfree. }
  intros l [n sp] rest s Heq [Hco Hfirst].
  assert (Operation sp ∈ names ∧ map_Forall (λ k _, checkLabelName k = true) (span_labels sp)) as [Hin Hkeys].
  { assert ((n, sp) ∈ imap pair spans) as (i & x & [= -> ->] & Hi)%elem_of_lookup_imap
      by (rewrite Heq; set_solver). exact (Forall_lookup_1 _ _ _ _ Hok Hi). }
  destruct (recorded_labels (n, sp)) as (Hl & Hnd & Hperm). destruct (recorded_rest (n, sp)) as [Hname _].
  unfold Finish, RecordSpan. destruct (copy_rest (2 * n) sp) as (_ & -> & _).
  unfold kept. rewrite omap_app. simpl. destruct (Sampled sp); simpl; [|by rewrite app_nil_r].
  apply (Collect_collected names Hsep); [done|done|]. split_and!; [by rewrite Hname|done|].
  apply forallb_forall. intros k Hk%list_elem_of_In.
  rewrite Hperm, elem_of_elements, elem_of_dom in Hk. destruct Hk as [v Hv]. by eapply Hkeys.
Qed.
End spans.

(** The names of the spans the service starts. *)
Definition flow_spans : list string :=
  ["api"; "graph_completion"; "sql_get_events"; "sql_persist_event"; "sql_create_blob"; "sql_read_blob"].

Lemma flow_spans_separate : separate flow_spans = true.
Proof. vm_compute. reflexivity. Qed.

(** C35: however many spans the service finishes, one after the
    other, the collector reports each of them and never panics: from any registry
    that holds no metric of that family, a name has a histogram and a summary as
    soon as one sampled span of that name is finished, labelled by the keys
    beginning with "fn" of the tags and the baggage of the first such span, and
    under every combination of label values both hold the durations of the spans
    that carry those values, in order, with the empty value for a label a span
    does not have. *)
Theorem spans_reported (order : MapOrder) (r : Registry) (spans : list RawSpan) :
  (∀ n, n ∈ flow_spans → Forall (unregistered r) (metric_names n)) →
  Forall (λ sp, Operation sp ∈ flow_spans ∧ map_Forall (λ k _, checkLabelName k = true) (span_labels sp)) spans →
  ∃ s, finish_all spans (NewPrometheusCollector r) = Ret tt s
    ∧ ∀ name first, head (filter (λ sp, Sampled sp ∧ Operation sp = name) spans) = Some first →
        ∃ keys hv sv, keys ≡ₚ elements (dom (span_labels first))
          ∧ histogramVecMap s !! name = Some hv ∧ variableLabels (vec_desc hv) = keys
          ∧ summaryVecMap s !! name = Some sv ∧ variableLabels (vec_desc sv) = keys
          ∧ Forall (is_registered (registry s)) (metric_names name)
          ∧ ∀ values, observations hv values = reported name keys values spans
                      ∧ observations sv values = reported name keys values spans.
Proof.
  intros Hfree Hok.
  pose proof (finish_all_collected flow_spans spans r flow_spans_separate Hfree Hok) as Hrun.
  apply wp_run in Hrun as ([] & s & Hs & [Hvec _ Hreg] & Hfirst). exists s. split; [done|].
  assert ((imap pair spans).*2 = spans) as Hsnd.
  { rewrite fmap_imap. rewrite <- (list_fmap_id spans) at 2. apply (imap_const id). }
  intros name first Hhead. rewrite <- Hsnd in Hhead.
  apply first_keys_kept in Hhead as (keys & Hkeys & Hperm).
  destruct (Hvec name keys) as (_ & hv & sv & Hh & Hv & [Hhl _ Hhc] & [Hsl _ Hsc]); [by rewrite Hfirst|].
  exists keys, hv, sv. split_and!; try done; [by apply Hreg; rewrite Hfirst, Hkeys|]. intros values. by rewrite Hhc, Hsc, matching_kept, Hsnd.
Qed.

(** Two spans of an API call and one of the event store, into a registry with
    the counters of the HTTP engine. *)
Definition sample_span (op fn : string) (d : Z) : RawSpan :=
  {| Operation := op; Tags := if String.eqb fn "" then ∅ else {[ "fn_operation" := fn; "peer" := "x" ]};
     Baggage := ∅; Sampled := true; Owner := true; Duration := d |}.
Definition sample_spans : list RawSpan :=
  [sample_span "api" "CreateGraph" 1500000; sample_span "sql_persist_event" "" 12; sample_span "api" "Commit" 2000999].
Definition http_registry : Registry :=
  match Register (NewDesc "flow_service_http_requests" "Total number of frontend service http requests served" []) NewRegistry with
  | inl _ => NewRegistry
  | inr r => r
  end.

Lemma spans_reported_witness :
  ∃ s, @finish_all key_order sample_spans (NewPrometheusCollector http_registry) = Ret tt s
    ∧ ∃ hv, histogramVecMap s !! "api" = Some hv ∧ observations hv ["Commit"] = [2000000].
Proof.
  destruct (spans_reported key_order http_registry sample_spans) as (s & Hs & Hall).
  - apply list.Forall_forall. refine (bool_decide_unpack _ _). vm_compute. exact I.
  - refine (bool_decide_unpack _ _). vm_compute. exact I.
  - exists s. split; [exact Hs|].
    destruct (Hall "api" (sample_span "api" "CreateGraph" 1500000) eq_refl)
      as (keys & hv & sv & Hk & Hh & _ & _ & _ & _ & Ho).
    exists hv. split; [exact Hh|]. change (elements _) with ["fn_operation"] in Hk.
    apply Permutation_singleton_r in Hk as ->. rewrite (proj1 (Ho _)). vm_compute. reflexivity.
Defined.

(** The collector is not protected against
    concurrent use. When two spans of a name that has no metric yet are finished
    at the same time, so that both look the name up before either has registered
    its metrics, the one that comes second panics on its registration. *)
Theorem concurrent_spans_panic (order : MapOrder) (r : Registry) (sp1 sp2 : RawSpan) (name : string) :
  name ∈ flow_spans → Operation sp1 = name → Operation sp2 = name →
  Forall (unregistered r) (metric_names name) →
  map_Forall (λ k _, checkLabelName k = true) (span_labels sp1) →
  ∃ s1, collect_with (recorded (0%nat, sp1)) None (NewPrometheusCollector r) = Ret tt s1
    ∧ ∃ err s2, collect_with (recorded (1%nat, sp2)) None s1 = Panic (PanicError err) s2.
Proof.
  intros Hin Hop1 Hop2 Hfree Hkeys.
  assert (separate [name] = true) as Hsep.
  { unfold flow_spans in Hin. repeat (apply elem_of_cons in Hin as [->|Hin]; [by vm_compute|]).
    by apply elem_of_nil in Hin. }
  destruct (recorded_labels (0%nat, sp1)) as (_ & Hnd & Hperm). destruct (recorded_rest (0%nat, sp1)) as [Hn1 _].
  destruct (recorded_rest (1%nat, sp2)) as [Hn2 _]. cbn [snd] in Hn1, Hn2.
  assert (wp (Collect (recorded (0%nat, sp1))) (λ _ s', collected [name] ([] ++ [recorded (0%nat, sp1)]) s'
     ∧ ∀ n, registeredLabelKeysMap s' !! n = first_keys n ([] ++ [recorded (0%nat, sp1)]))
     (NewPrometheusCollector r)) as Hrun.
  { apply (Collect_collected [name] Hsep); [|done|].
    - split; [done| |by intros ? []]. intros n ->%list_elem_of_singleton _. done.
    - split_and!; [rewrite Hn1, Hop1; set_solver|done|].
      apply forallb_forall. intros k Hk%list_elem_of_In.
      rewrite Hperm, elem_of_elements, elem_of_dom in Hk. destruct Hk as [v Hv]. by eapply Hkeys. }
  apply wp_run in Hrun as ([] & s1 & Hs1 & [_ _ Hreg] & Hfirst). exists s1.
  split; [exact Hs1|]. specialize (Hreg name). rewrite Hfirst in Hreg.
  unfold first_keys in Hreg. cbn [app] in Hreg. rewrite filter_cons, Hn1, decide_True in Hreg by done.
  apply (Forall_inv (P := is_registered (registry s1))) in Hreg; [|done].
  unfold collect_with. rewrite (surjective_pairing (getLabels (recorded (1%nat, sp2)))), Hn2, Hop2.
  unfold create_metrics, mbind, M_bind, MustRegister. simpl.
  destruct (NewDesc_id (histogram_name name) (span_help name) (zkeys (recorded (1%nat, sp2)))) as [Hf Hid].
  destruct (Register_again (NewDesc (histogram_name name) (span_help name) (zkeys (recorded (1%nat, sp2)))) (registry s1))
    as [err ->]; [by rewrite Hf|done|]. eauto.
Qed.

Lemma concurrent_spans_panic_witness :
  ∃ s1, collect_with (@recorded key_order (0%nat, sample_span "api" "CreateGraph" 1500000)) None
          (NewPrometheusCollector http_registry) = Ret tt s1
    ∧ ∃ err s2, collect_with (@recorded key_order (1%nat, sample_span "api" "Commit" 2000999)) None s1
                = Panic (PanicError err) s2.
Proof.
  apply (concurrent_spans_panic key_order http_registry _ _ "api"); [by left|reflexivity|reflexivity| |];
    refine (bool_decide_unpack _ _); vm_compute; exact I.
Defined.
