(* ===== verification/Tracing.v ===== *)
(** * The tracer of the service (src/server/server.go, fntracer.go)

    [setTracer] installs a tracer whose spans go to Prometheus, and to a Zipkin
    server as well when one is configured. Spans are started from options by
    zipkin-go-opentracing (tracer.go, span.go), wrapped so that they copy their
    baggage to their tags when they finish, and recorded to the collector
    (collector.go). The HTTP collector and the clock are parameters; times are
    nanoseconds. *)

From S2P Require Import Prelude Uuid Prometheus Metrics.
Local Open Scope Z_scope.

(** ** Starting a span *)

(** What is read of a [SpanContext]; the ids only tell spans apart. *)
Record SpanContext := { sc_Sampled : bool; sc_Owner : bool; sc_Baggage : gmap string string }.
Inductive SpanReferenceType := ChildOfRef | FollowsFromRef.
Record StartSpanOptions := {
  sso_References : list (SpanReferenceType * SpanContext);
  sso_StartTime : option Z;
  sso_Tags : gmap string string;
}.
Record spanImpl := { sp_Context : SpanContext; sp_Operation : string; sp_Start : Z; sp_Tags : gmap string string }.

(** The context of a new span: that of its first reference, or that of a root
    span, which is always sampled and owned. A span for the server's side of a
    call shares the client's span, and is not owned. *)
Definition span_context (clientServerSameSpan : bool) (opts : StartSpanOptions) : SpanContext :=
  match sso_References opts with
  | (ChildOfRef, refCtx) :: _ =>
      {| sc_Sampled := sc_Sampled refCtx;
         sc_Owner := negb (clientServerSameSpan && bool_decide (sso_Tags opts !! "span.kind" = Some "server"));
         sc_Baggage := sc_Baggage refCtx |}
  | (FollowsFromRef, refCtx) :: _ =>
      {| sc_Sampled := sc_Sampled refCtx; sc_Owner := true; sc_Baggage := sc_Baggage refCtx |}
  | [] => {| sc_Sampled := true; sc_Owner := true; sc_Baggage := ∅ |}
  end.

Definition startSpanWithOptions (clientServerSameSpan : bool) (now : Z) (operationName : string) (opts : StartSpanOptions) :
    spanImpl :=
  {| sp_Context := span_context clientServerSameSpan opts; sp_Operation := operationName;
     sp_Start := default now (sso_StartTime opts); sp_Tags := sso_Tags opts |}.

Definition span_SetTag (k v : string) (sp : spanImpl) : spanImpl :=
  {| sp_Context := sp_Context sp; sp_Operation := sp_Operation sp; sp_Start := sp_Start sp;
     sp_Tags := <[k := v]> (sp_Tags sp) |}.

(** The span that is recorded when it finishes. *)
Definition raw_span (finishTime : Z) (sp : spanImpl) : RawSpan :=
  {| Operation := sp_Operation sp; Tags := sp_Tags sp; Baggage := sc_Baggage (sp_Context sp);
     Sampled := sc_Sampled (sp_Context sp); Owner := sc_Owner (sp_Context sp); Duration := finishTime - sp_Start sp |}.

(** ** Collectors *)

Inductive Collector :=
  | PromCollector
  | HTTPCollector (endpoint : string)
  | MultiCollector (cs : list Collector).

(** An error of a collector: its own, or the errors of several by position; the
    method of [MultiCollector] returns a pointer that may be nil. *)
Inductive collect_error := CollectError (err : string) | CollectionError (errs : option (list (option collect_error))).

Section tracer.
Context {S : Type} `{MapOrder} (now : S → Z).
Context (http_Collect : string → Span → M S (option string)).
Context (NewHTTPCollector : string → M S (string + unit)).
(** The metrics of the process and the rest of the world. *)
Abbreviation T := (metrics * S)%type.

Definition on_metrics {A} (m : M metrics A) : M T A := zoom fst (λ a p, (a, p.2)) m.
Definition on_world {A} (m : M S A) : M T A := zoom snd (λ b p, (p.1, b)) m.

Fixpoint collect (c : Collector) (sp : Span) : M T (option collect_error) :=
  match c with
  | PromCollector => on_metrics (Collect sp);; mret None
  | HTTPCollector endpoint =>
      err ← on_world (http_Collect endpoint sp);
      mret (CollectError <$> err)
  | MultiCollector cs =>
      e ← (fix aggregateErrors (cs : list Collector) : M T (list (option collect_error)) :=
             match cs with
             | [] => mret []
             | c :: cs => err ← collect c sp; errs ← aggregateErrors cs; mret (err :: errs)
             end) cs;
      mret (Some (CollectionError (if forallb (λ o, match o with None => true | Some _ => false end) e then None else Some e)))
  end.

(** ** setTracer *)

Record FnTracer := {
  tracer_collector : Collector;
  tracer_debug : bool;
  tracer_hostPort : string;
  tracer_serviceName : string;
  clientServerSameSpan : bool;
  traceID128Bit : bool;
}.
(** [NewFnTracer] and [NewFnSpan] only wrap: what they override is below. *)
Definition NewFnTracer (t : FnTracer) : FnTracer := t.

(** [inl] is the message the process ends with. *)
Definition setTracer (ownURL zipkinURL : string) : M T (string + FnTracer) :=
  r ← (if negb (String.eqb zipkinURL "")
       then r ← on_world (NewHTTPCollector zipkinURL);
            mret (match r with
                  | inl err => inl "couldn't start Zipkin trace collector"
                  | inr _ => inr (MultiCollector [HTTPCollector zipkinURL; PromCollector])
                  end)
       else mret (inr PromCollector));
  mret (match r with
        | inl msg => inl msg
        | inr collector => inr (NewFnTracer {|
            tracer_collector := collector; tracer_debug := false; tracer_hostPort := ownURL;
            tracer_serviceName := "flow-service"; clientServerSameSpan := true; traceID128Bit := true |})
        end).

(** ** FnTracer and FnSpan *)

Definition StartSpan (t : FnTracer) (operationName : string) (opts : StartSpanOptions) : M T spanImpl :=
  p ← get_state;
  mret (startSpanWithOptions (clientServerSameSpan t) (now p.2) operationName opts).

(** [RecordSpan] on any collector; the error is ignored. *)
Definition record_span (c : Collector) (n : nat) (sp : RawSpan) : M T unit :=
  if negb (Sampled sp) then mret tt else collect c (zipkin_span n sp);; mret tt.

(** [FinishTime] of the options; [None] is the zero time. *)
Definition FinishWithOptions (t : FnTracer) (n : nat) (finishTime : option Z) (sp : spanImpl) : M T unit :=
  p ← get_state;
  record_span (tracer_collector t) (Datatypes.S (2 * n))
    (copyBaggageItemsToTags (2 * n) (raw_span (default (now p.2) finishTime) sp)).
Definition FnSpan_Finish (t : FnTracer) (n : nat) (sp : spanImpl) : M T unit := FinishWithOptions t n None sp.

(** ** Every finished span reaches the metrics *)

(** The span is sent to the Zipkin server, when there is one. *)
Definition shipped (zipkinURL : string) (sp : RawSpan) (n : nat) (w w' : S) : Prop :=
  if Sampled sp && negb (String.eqb zipkinURL "")
  then ∃ err, http_Collect zipkinURL (zipkin_span n sp) w = Ret err w' else w' = w.

Definition collector_for (zipkinURL : string) : Collector :=
  if String.eqb zipkinURL "" then PromCollector else MultiCollector [HTTPCollector zipkinURL; PromCollector].

Lemma record_span_metrics zipkinURL n sp m w :
  (∀ sp' w, ∃ err w', http_Collect zipkinURL sp' w = Ret err w') →
  ∃ w', shipped zipkinURL sp n w w'
    ∧ record_span (collector_for zipkinURL) n sp (m, w) = on_metrics (RecordSpan n sp) (m, w').
Proof.
  intros Hhttp. unfold shipped, record_span, RecordSpan, collector_for. destruct (Sampled sp); [|by exists w]. simpl.
  destruct (String.eqb zipkinURL ""); simpl.
  - exists w. split; [done|]. unfold on_metrics, zoom, mbind, M_bind. simpl. by destruct (Collect _ m) as [[] ?| |].
  - destruct (Hhttp (zipkin_span n sp) w) as (err & w' & Hc). exists w'. split; [by eexists|].
    unfold on_world, on_metrics, zoom, mbind, M_bind. simpl. rewrite Hc. simpl. by destruct (Collect _ m) as [[] ?| |].
Qed.

Lemma setTracer_cases ownURL zipkinURL m w t p :
  setTracer ownURL zipkinURL (m, w) = Ret (inr t) p →
  tracer_collector t = collector_for zipkinURL ∧ clientServerSameSpan t = true ∧ p.1 = m.
Proof.
  unfold setTracer, collector_for. destruct (String.eqb zipkinURL ""); simpl.
  - unfold mbind, M_bind. simpl. by intros [= <- <-].
  - unfold mbind, M_bind, on_world, zoom. simpl. destruct (NewHTTPCollector zipkinURL w) as [[err|[]] w'| |]; try done.
    by intros [= <- <-].
Qed.

Lemma copy_Sampled k sp : Sampled (copyBaggageItemsToTags k sp) = Sampled sp.
Proof.
  unfold copyBaggageItemsToTags. generalize (range_order k (map_to_list (Baggage sp)).*1). intros ks.
  enough (∀ sp0, Sampled (foldl (λ sp' k, if String.prefix "fn" k then SetTag k (get_label (Baggage sp) k) sp' else sp') sp0 ks)
    = Sampled sp0) as Hall by apply Hall.
  induction ks as [|x ks IH]; intros sp0; [done|]. simpl. rewrite IH. by destruct (String.prefix "fn" x).
Qed.

(** Tags set on a span, in order. *)
Definition SetTags (tags : list (string * string)) (sp : spanImpl) : spanImpl :=
  foldl (λ sp kv, span_SetTag kv.1 kv.2 sp) sp tags.

Lemma SetTags_fields tags sp :
  sp_Context (SetTags tags sp) = sp_Context sp ∧ sp_Operation (SetTags tags sp) = sp_Operation sp
  ∧ sp_Start (SetTags tags sp) = sp_Start sp
  ∧ sp_Tags (SetTags tags sp) = foldl (λ ts kv, <[kv.1 := kv.2]> ts) (sp_Tags sp) tags.
Proof.
  unfold SetTags. revert sp. induction tags as [|kv tags IH]; intros sp; [done|]. cbn [foldl].
  destruct (IH (span_SetTag kv.1 kv.2 sp)) as (-> & -> & -> & ->). done.
Qed.

End tracer.

(** ** A tracer with a Zipkin server that is down *)

Definition zipkin_tracer : FnTracer :=
  {| tracer_collector := MultiCollector [HTTPCollector "http://zipkin:9411"; PromCollector]; tracer_debug := false;
     tracer_hostPort := ":8081"; tracer_serviceName := "flow-service"; clientServerSameSpan := true; traceID128Bit := true |}.
Definition api_options : StartSpanOptions := {| sso_References := []; sso_StartTime := Some 3; sso_Tags := ∅ |}.
Definition no_metrics : metrics := NewPrometheusCollector NewRegistry.


(** ** The metrics of the process

    The [init] functions of the packages register two gauges and two counters
    before anything else runs. *)

Definition executor_init : M metrics unit :=
  MustRegister (NewDesc "flow_concurrent_active_fn_calls" "Current number of fn calls waiting for a response." []).
Definition supervisor_init : M metrics unit :=
  MustRegister (NewDesc "flow_concurrent_active_graphs" "Currently active graphs." []).
Definition server_init : M metrics unit :=
  MustRegister (NewDesc "flow_service_http_requests" "Total number of frontend service http requests served" []);;
  MustRegister (NewDesc "flow_service_http_errors" "Total number of frontend service http engine errors" []).
Definition process_init : M metrics unit := executor_init;; supervisor_init;; server_init.

(** None of them is refused by the registry, so none of them panics. *)
Example process_init_ok : ∃ m, process_init no_metrics = Ret tt m ∧ histogramVecMap m = ∅.
Proof. eexists. split; [vm_compute; reflexivity|reflexivity]. Qed.
