(* ===== verification/Server.v ===== *)
(** * The API server (src/server/server.go, metrics.go, internal_server.go)

    The gRPC server puts three interceptors in front of the cluster proxy: a
    timeout of two minutes, a span, the request validators. The HTTP engine on
    the REST port hands gRPC requests to the same server and routes requests;
    the gateway's handlers come back through gRPC. Every node also serves the
    plain node-local service to the proxies of the cluster. The clock, the
    recording of spans, the actors behind a node and the random source are
    parameters. Durations are nanoseconds. *)

From S2P Require Import Prelude Model Uuid Sharding Cluster Replies Validators Api Supervisor GatewayRuntime GatewayPatterns Gateway GatewayFacts Metrics.
Local Open Scope Z_scope.

(** ** Interceptors *)

(** What a [context.Context] carries here: a deadline and the tag of its span. *)
Record context := { ctx_deadline : option Z; ctx_span : option string }.
Definition Background : context := {| ctx_deadline := None; ctx_span := None |}.

Section interceptors.
Context {S A : Type} (now : S → Z) (finish : RawSpan → M S unit).

Definition UnaryHandler : Type := context → Command → M S A.
Definition UnaryServerInterceptor : Type := context → Command → string → UnaryHandler → M S A.

(** Interceptors run from left to right, each around the rest. *)
Fixpoint ChainUnaryServer (interceptors : list UnaryServerInterceptor) : UnaryServerInterceptor :=
  match interceptors with
  | [] => λ ctx req _ handler, handler ctx req
  | i :: rest => λ ctx req info handler, i ctx req info (λ ctx req, ChainUnaryServer rest ctx req info handler)
  end.

(** [context.WithTimeout] never extends a deadline. *)
Definition WithTimeout (ctx : context) (max : Z) (s : S) : context :=
  {| ctx_deadline := Some (match ctx_deadline ctx with
                           | Some d => Z.min d (now s + max)
                           | None => now s + max
                           end);
     ctx_span := ctx_span ctx |}.

Definition grpcUnaryTimeout (max : Z) : UnaryServerInterceptor :=
  λ ctx req info handler s, handler (WithTimeout ctx max s) req s.

(** [defer fin()]: it also runs when the body panics. *)
Definition deferred {B} (fin : M S unit) (body : M S B) : M S B := λ s,
  match body s with
  | Ret b s' => (fin;; mret b) s'
  | Panic w s' => (fin;; panic w) s'
  | OutOfFuel => OutOfFuel
  end.

(** The span of an API call: a root span, so it is sampled and owned. *)
Definition api_span (operation : string) (duration : Z) : RawSpan :=
  {| Operation := "api"; Tags := {[ "fn_operation" := operation ]}; Baggage := ∅;
     Sampled := true; Owner := true; Duration := duration |}.

Definition finish_since (operation : string) (start : Z) : M S unit :=
  s ← get_state; finish (api_span operation (now s - start)).

Definition unaryMetricsInterceptor : UnaryServerInterceptor := λ ctx req info handler,
  s ← get_state;
  deferred (finish_since info (now s))
    (handler {| ctx_deadline := ctx_deadline ctx; ctx_span := Some info |} req).

(** [grpc_validator.UnaryServerInterceptor]. *)
Definition validatorInterceptor (refuse : field_error → A) : UnaryServerInterceptor := λ ctx req info handler,
  match Validate req with
  | Some err => mret (refuse err)
  | None => handler ctx req
  end.
End interceptors.

Definition minute : Z := 60 * 1000000000.

(** ** From the API server to the actors of a node *)

Inductive rpc_error :=
  | Invalid (e : field_error)
  | ProxyFailed (e : proxy_error).

(** The gRPC status of an error: an error without one is [Unknown]. *)
Definition status_of (e : rpc_error) : status_error :=
  match e with
  | Invalid f => Errorf InvalidArgument (String.concat "." (error_path f))
  | ProxyFailed (Remote e) => e
  | ProxyFailed _ => Errorf Unknown "unknown"
  end.

Section server.
Context {S client E : Type} `{!ShardExtractor E}.
Context (now : S → Z) (finish : RawSpan → M S unit).
Context (node : client → actorManager E).
Context (ask : client → string → Command → Z → M S (future_error + Response)).

(** [model.RegisterFlowServiceServer] on a node: the client's deadline goes
    with the call, and the node computes the time left until it. *)
Definition rpc (ctx : context) (c : client) (cmd : Command) : M S (status_error + Response) := λ s,
  match serve (ask c) (node c) ((λ d, d - now s) <$> ctx_deadline ctx) cmd with
  | Some m => m s
  | None => Ret (inl (Errorf Unimplemented "unknown method")) s
  end.

(** The methods of the cluster proxy. *)
Definition proxy_serve (m : Manager E client) (random : string + list Z) (ctx : context) (cmd : Command) :
    M S (proxy_error + Response) :=
  match cmd with
  | CCreateGraph r => proxy_CreateGraph (rpc ctx) m random r
  | CAddStage r => proxy_AddStage (rpc ctx) m r
  | CAddCompletedValueStage r => proxy_AddValueStage (rpc ctx) m r
  | CAddInvokeFunctionStage r => proxy_AddInvokeFunction (rpc ctx) m r
  | CAddDelayStage r => proxy_AddDelay (rpc ctx) m r
  | CAwaitStageResult r => proxy_AwaitStageResult (rpc ctx) m r
  | CCompleteStageExternally r => proxy_CompleteStageExternally (rpc ctx) m r
  | CCommitGraph f => proxy_Commit (rpc ctx) m f
  | CGetGraphState f => proxy_GetGraphState (rpc ctx) m f
  | _ => mret (inl (Remote (Errorf Unimplemented "unknown method")))
  end.

(** [NewAPIServer]: a unary call of the public gRPC service. *)
Definition api_server (m : Manager E client) (random : string + list Z) (ctx : context) (method : string) (cmd : Command) :
    M S (rpc_error + Response) :=
  ChainUnaryServer
    [grpcUnaryTimeout now (2 * minute); unaryMetricsInterceptor now finish; validatorInterceptor (λ e, inl (Invalid e))]
    ctx cmd method
    (λ ctx cmd, r ← proxy_serve m random ctx cmd;
                mret (match r with inl e => inl (ProxyFailed e) | inr r => inr r end)).

(** The names the generated client calls the methods by. *)
Definition FullMethod (cmd : Command) : string :=
  "/model.FlowService/" +:+
  match cmd with
  | CCreateGraph _ => "CreateGraph"
  | CAddStage _ => "AddStage"
  | CAddCompletedValueStage _ => "AddValueStage"
  | CAddInvokeFunctionStage _ => "AddInvokeFunction"
  | CAddDelayStage _ => "AddDelay"
  | CAwaitStageResult _ => "AwaitStageResult"
  | CCompleteStageExternally _ => "CompleteStageExternally"
  | CCommitGraph _ => "Commit"
  | CGetGraphState _ => "GetGraphState"
  | _ => ""
  end.

(** The client of the gateway: the context of the handler, which has a deadline
    if the request asked for one, goes with the call. A reply that has not come
    by then is an error to the client; the state is the one in which the server
    has finished the call. *)
Definition grpc_client (m : Manager E client) (random : string + list Z) (timeout : option Z) (cmd : Command) :
    M S (status_error + Response) :=
  s ← get_state;
  let ctx := match timeout with Some t => WithTimeout now Background t s | None => Background end in
  r ← api_server m random ctx (FullMethod cmd) cmd;
  s' ← get_state;
  if match ctx_deadline ctx with Some d => d <=? now s' | None => false end
  then mret (inl (Errorf DeadlineExceeded "context deadline exceeded"))
  else mret (match r with inl e => inl (status_of e) | inr r => inr r end).
End server.

(** ** The HTTP engine *)

Inductive route_segment := Static (s : string) | Param (name : string) | CatchAll (name : string).

Inductive endpoint := Ping | ServeGateway | PrometheusMetrics | Swagger | CreateBlob | GetBlob.

(** A route; the method [None] is [Any]. *)
Definition route : Type := option string * list route_segment * endpoint.

(** [createBlobAPI]: the routes of the blob store, in their group, are added to
    those of an engine. *)
Definition createBlobAPI (routes : list route) : list route :=
  routes ++
  [ (Some "POST", [Static "blobs"; Param "prefix"], CreateBlob);
    (Some "GET", [Static "blobs"; Param "prefix"; Param "blobId"], GetBlob) ].

(** The routes, in order: those of [NewAPIServer], to which
    [blobs.NewFromEngine] adds its own (src/setup/setup.go). *)
Definition engine_routes : list route :=
  createBlobAPI
  [ (Some "GET", [Static "ping"], Ping);
    (None, [Static "v1"; CatchAll "path"], ServeGateway);
    (Some "GET", [Static "metrics"], PrometheusMetrics);
    (Some "GET", [Static "swagger.json"], Swagger) ].

Definition any_methods : list string :=
  ["GET"; "POST"; "PUT"; "PATCH"; "HEAD"; "OPTIONS"; "DELETE"; "CONNECT"; "TRACE"].

(** The walk down the routing tree on the components of the path: a parameter
    at the end of a route does not match the empty string. *)
Fixpoint getValue (route : list route_segment) (components : list string) : option (gmap string string) :=
  match route, components with
  | [], [] => Some ∅
  | [CatchAll name], c :: cs => Some {[ name := "/" +:+ String.concat "/" (c :: cs) ]}
  | Static s :: route, c :: cs => if String.eqb s c then getValue route cs else None
  | Param name :: route, c :: cs =>
      if match route, cs with [], [] => String.eqb c "" | _, _ => false end then None
      else <[name := c]> <$> getValue route cs
  | _, _ => None
  end.

Fixpoint find_route (routes : list route) (meth : string)
    (components : list string) : option (endpoint * gmap string string) :=
  match routes with
  | [] => None
  | (m, route, e) :: routes =>
      if match m with Some m => String.eqb m meth | None => bool_decide (meth ∈ any_methods) end
      then match getValue route components with
           | Some params => Some (e, params)
           | None => find_route routes meth components
           end
      else find_route routes meth components
  end.

Definition contains (sub s : string) : bool := bool_decide (is_Some (String.index 0 sub s)).

Definition serverGrpc (protoMajor : Z) (r : http_request) : bool :=
  (protoMajor =? 2) && (String.eqb (r_method r) "PRI" || contains "application/grpc" (r_content_type r)).

(** The endpoint of a request, with its parameters. *)
Definition engine_dispatch (r : http_request) : option (endpoint * gmap string string) :=
  match r_path r with
  | String.String c path =>
      if Ascii.eqb c (Ascii.ascii_of_nat 47) then find_route engine_routes (r_method r) (Split path "/") else None
  | EmptyString => None
  end.
