(* ===== verification/ServerFacts.v ===== *)
(** * What reaches the actors through the API server (theorems about Server) *)

From S2P Require Import Prelude Model Uuid Sharding Cluster Replies Validators Api ApiFacts Supervisor GatewayRuntime GatewayPatterns Gateway GatewayFacts Metrics Server.
Local Open Scope Z_scope.

Section bounded.
Context {S client E : Type} `{!ShardExtractor E}.
Context (now : S → Z) (finish : RawSpan → M S unit) (node : client → actorManager E).
Context `{!∀ c, ShardLaws (shardExtractor (node c))}.
Implicit Types (s : S) (cmd : Command).

(** A question may depend only on the command and the time to wait. *)
Lemma forwardRequest_ext ask1 ask2 (m : actorManager E) `{!ShardLaws (shardExtractor m)} u cmd s :
  (∀ pid, ask1 pid cmd (default defaultRequestTimeout u) s = ask2 pid cmd (default defaultRequestTimeout u) s) →
  forwardRequest ask1 m u cmd s = forwardRequest ask2 m u cmd s.
Proof.
  intros Hask. unfold forwardRequest, lookupSupervisor, mbind, M_bind. rewrite ShardID_of.
  destruct (shard_of _) as [err|shard]; [done|]. simpl.
  destruct (shardSupervisors m !! shard) as [pid|]; [|done]. simpl. by rewrite Hask.
Qed.

Lemma forward_ext rpc1 rpc2 (m : Manager E client) `{!ShardLaws (extractor m)} cmd s :
  (∀ c, rpc1 c cmd s = rpc2 c cmd s) → forward rpc1 m cmd s = forward rpc2 m cmd s.
Proof.
  intros Hrpc. unfold forward, GetClient, resolveNode, mbind, M_bind. rewrite ShardID_of.
  destruct (shard_of _) as [err|shard]; [done|]. unfold go_rem.
  destruct (NodeCount (settings m) =? 0); [done|]. simpl.
  destruct (reverseProxies m !! _) as [c|]; [|done]. simpl. by rewrite Hrpc.
Qed.

(** The time an await waits is at most the time left. *)
Lemma await_context_le t u : ∃ w, await_context t (Some u) = Some w ∧ w ≤ u.
Proof. unfold await_context. destruct (0 <? t); eexists; (split; [done|]); lia. Qed.

(** Two systems of actors that agree on the valid commands asked with a time
    limit of at most [max]. *)
Definition agree (max : Z) (ask1 ask2 : client → string → Command → Z → M S (future_error + Response)) : Prop :=
  ∀ c pid cmd t s, Validate cmd = None → t ≤ max → ask1 c pid cmd t s = ask2 c pid cmd t s.

Lemma rpc_ext max ask1 ask2 ctx d c cmd s :
  agree max ask1 ask2 → Validate cmd = None → ctx_deadline ctx = Some d → d - now s ≤ max →
  rpc now node ask1 ctx c cmd s = rpc now node ask2 ctx c cmd s.
Proof.
  intros Hag Hv Hd Hle. unfold rpc. rewrite Hd. simpl.
  assert (∀ u, u ≤ max → forwardRequest (ask1 c) (node c) (Some u) cmd s
                        = forwardRequest (ask2 c) (node c) (Some u) cmd s) as Hf.
  { intros u Hu. apply forwardRequest_ext; [done|]. intros pid. by apply Hag. }
  specialize (Hf _ Hle) as Hf0.
  destruct cmd; simpl; try done; unfold api_CreateGraph, api_GetGraphState, api_AddInvokeFunction, api_AddDelay,
    api_AddStage, api_AddValueStage, api_AwaitStageResult, api_CompleteStageExternally, api_Commit, mbind, M_bind;
    try by rewrite Hf0.
  destruct (await_context_le (await_TimeoutMs r) (d - now s)) as (w & -> & Hw). rewrite Hf by lia. done.
Qed.

Lemma proxy_serve_ext max ask1 ask2 (m : Manager E client) `{!ShardLaws (extractor m)} random ctx d cmd s :
  agree max ask1 ask2 → Validate cmd = None → ctx_deadline ctx = Some d → d - now s ≤ max →
  proxy_serve now node ask1 m random ctx cmd s = proxy_serve now node ask2 m random ctx cmd s.
Proof.
  intros Hag Hv Hd Hle.
  assert (∀ cmd, Validate cmd = None → forward (rpc now node ask1 ctx) m cmd s
                                     = forward (rpc now node ask2 ctx) m cmd s) as Hf.
  { intros cmd' Hv'. apply forward_ext; [done|]. intros c. by eapply rpc_ext. }
  destruct cmd; simpl; try done; try by apply Hf.
  unfold proxy_CreateGraph. destruct (NewRandom random); [done|]. by apply Hf.
Qed.

(** What is left of the deadline behind the timeout interceptor. *)
Lemma WithTimeout_deadline ctx max s :
  ∃ d, ctx_deadline (WithTimeout now ctx max s) = Some d ∧ d - now s ≤ max
       ∧ ∀ d0, ctx_deadline ctx = Some d0 → d ≤ d0.
Proof.
  unfold WithTimeout. simpl. destruct (ctx_deadline ctx) as [d0|]; eexists; (split_and!; [done|lia|]);
    intros ? [=]; lia.
Qed.

(** C22: a call of the public service asks the
    actors of a node only with commands that pass the validators and with a time
    limit of at most two minutes, whatever the command, the deadline of the
    caller and the time limit an await asks for: two systems of actors that
    agree on such questions give the same reply and the same state. *)
Theorem requests_checked_and_bounded ask1 ask2 (m : Manager E client) `{!ShardLaws (extractor m)}
    random ctx method cmd s :
  agree (2 * minute) ask1 ask2 →
  api_server now finish node ask1 m random ctx method cmd s
  = api_server now finish node ask2 m random ctx method cmd s.
Proof.
  intros Hag. unfold api_server. cbn [ChainUnaryServer].
  unfold grpcUnaryTimeout, unaryMetricsInterceptor, validatorInterceptor, deferred, mbind, M_bind.
  cbn [get_state]. destruct (Validate cmd) as [err|] eqn:Hv; [done|].
  destruct (WithTimeout_deadline ctx (2 * minute) s) as (d & Hd & Hle & _).
  erewrite (proxy_serve_ext (2 * minute) ask1 ask2); done.
Qed.

(** A refused command changes nothing but the metrics. *)
Lemma invalid_refused ask (m : Manager E client) random ctx method cmd err s :
  Validate cmd = Some err →
  api_server now finish node ask m random ctx method cmd s
  = (finish_since now finish method (now s);; mret (inl (Invalid err))) s.
Proof.
  intros Hv. unfold api_server. cbn [ChainUnaryServer].
  unfold grpcUnaryTimeout, unaryMetricsInterceptor, validatorInterceptor. by rewrite Hv.
Qed.
End bounded.

(** ** The URLs of the API through the engine *)

Lemma AnnotateContext_error tm err : AnnotateContext tm = inl err → code err = InvalidArgument.
Proof. unfold AnnotateContext. destruct (String.eqb tm ""); [done|]. destruct (timeoutDecode tm); by intros [= <-]. Qed.

Lemma api_request_path σ m : (∀ x, plain (σ x)) →
  ∃ c cs, Split (String.concat "/" (instantiate σ (template m))) "/" = "v1" :: c :: cs.
Proof.
  intros Hσ. pose proof (instantiate_plain σ m Hσ) as Hp.
  assert (∃ c cs, instantiate σ (template m) = "v1" :: c :: cs) as (c & cs & Heq) by (destruct m; by do 2 eexists).
  rewrite Heq in *. exists c, cs. apply Split_concat. eapply Forall_impl; [exact Hp|]. by intros x [].
Qed.

Lemma engine_gateway σ m : (∀ x, plain (σ x)) →
  serverGrpc 1 (api_request σ m) = false ∧ ∃ params, engine_dispatch (api_request σ m) = Some (ServeGateway, params).
Proof.
  intros Hσ. destruct (api_request_path σ m Hσ) as (c & cs & Hs). split; [done|]. unfold engine_dispatch.
  change (r_path (api_request σ m)) with (String.String (Ascii.ascii_of_nat 47) (String.concat "/" (instantiate σ (template m)))).
  cbv beta iota zeta. rewrite Ascii.eqb_refl, Hs.
  change (r_method (api_request σ m)) with (meth_of m). destruct m; eexists; reflexivity.
Qed.

Section rest.
Context {S client E body query stream : Type} `{!ShardExtractor E} `{!JsonCodec body} `{!QueryCodec query} `{!QueryLaws query}.
Context (now : S → Z) (finish : RawSpan → M S unit) (node : client → actorManager E).
Context (ask : client → string → Command → Z → M S (future_error + Response)).
Context (lifecycle : M S (status_error + stream)) (events : StreamGraphRequest → M S (status_error + stream)).
Context (Header : stream → M S (option status_error)).

(** What the caller of the REST API sees of a reply of the proxy, or of an
    invalid request, that has come by the deadline. *)
Definition rest_reply (r : rpc_error + Response) : http_response (stream := stream) :=
  match r with
  | inl e => HttpError (HTTPStatusFromCode (code (status_of e)))
  | inr msg => Forwarded (Message msg)
  end.
Definition rest_reply_by (deadline : option Z) (r : rpc_error + Response) : M S http_response := λ s,
  Ret (if match deadline with Some d => d <=? now s | None => false end then HttpError 408 else rest_reply r) s.

Lemma proxy_serve_flow (m : Manager E client) random ctx c meth :
  rest_method_of c = Some meth → flow_call meth = true →
  proxy_serve now node ask m random ctx c = forward (rpc now node ask ctx) m c.
Proof. destruct c; intros [= <-]; done. Qed.

(** The time a request may take: what it asks for, at most two minutes. *)
Definition allowed (timeout : option Z) : Z :=
  match timeout with Some t => Z.min t (2 * minute) | None => 2 * minute end.

(** A valid request of the API, carried out by the node of its flow; an invalid
    one. *)
Definition carried_out (m : Manager E client) (timeout : option Z) (c : Command) : M S http_response := λ s,
  (r ← deferred (finish_since now finish (FullMethod c) (now s))
         (forward (rpc now node ask
            {| ctx_deadline := Some (now s + allowed timeout); ctx_span := Some (FullMethod c) |}) m c);
   rest_reply_by (Z.add (now s) <$> timeout) (match r with inl e => inl (ProxyFailed e) | inr r => inr r end)) s.
Definition turned_down (timeout : option Z) (c : Command) (err : field_error) : M S http_response := λ s,
  (finish_since now finish (FullMethod c) (now s);;
   rest_reply_by (Z.add (now s) <$> timeout) (inl (Invalid err))) s.

(** The call a gateway handler makes, seen from the HTTP side. *)
Lemma forwarded_client (m : Manager E client) random timeout c meth s :
  rest_method_of c = Some meth → flow_call meth = true →
  forwarded (stream := stream) (grpc_client now finish node ask m random timeout) c s =
    match Validate c with
    | Some err => turned_down timeout c err s
    | None => carried_out m timeout c s
    end.
Proof.
  intros Hc Hm. unfold forwarded, grpc_client, carried_out, turned_down, rest_reply_by.
  assert (∀ ctx, ctx = match timeout with Some t => WithTimeout now Background t s | None => Background end →
    ctx_deadline ctx = (Z.add (now s) <$> timeout)
    ∧ WithTimeout now ctx (2 * minute) s = {| ctx_deadline := Some (now s + allowed timeout); ctx_span := None |}) as Hctx.
  { intros ctx ->. destruct timeout as [t|]; [|done]. split; [done|]. unfold WithTimeout, allowed. simpl. do 2 f_equal. lia. }
  unfold mbind, M_bind. cbn [get_state]. destruct (Hctx _ eq_refl) as [Hd Hw].
  destruct (Validate c) as [err|] eqn:Hv.
  - rewrite (invalid_refused _ _ _ _ _ _ _ _ _ err) by done. unfold mbind, M_bind.
    destruct (finish_since _ _ _ _ s) as [[] s'| |]; [|done..]. cbn [get_state]. rewrite Hd. simpl.
    by destruct (match Z.add (now s) <$> timeout with Some d => d <=? now s' | None => false end).
  - unfold api_server. cbn [ChainUnaryServer].
    unfold grpcUnaryTimeout, unaryMetricsInterceptor, validatorInterceptor, deferred.
    unfold mbind, M_bind. cbn [get_state]. rewrite Hv, Hw, Hd. cbn [ctx_deadline].
    erewrite proxy_serve_flow by done.
    destruct (forward _ _ c s) as [[e|r] s'|w s'|]; [| | |done]; simpl;
      destruct (finish_since _ _ _ _ s') as [[] s2| |]; try done; simpl;
      by destruct (match Z.add (now s) <$> timeout with Some d => d <=? now s2 | None => false end).
Qed.

End rest.

(** ** The sample cluster behind the API server *)

Definition no_time (s : unit) : Z := 0.
Definition no_spans (sp : RawSpan) : M unit unit := mret tt.
Definition sample_node_of (c : string) : actorManager fixedSizeShardExtractor := sample_node_manager.

(** Actors that acknowledge everything, and actors that fail on a question
    they should not be asked. *)
Definition ask_ack (c pid : string) (cmd : Command) (t : Z) : M unit (future_error + Response) :=
  mret (inr (RGraphRequestProcessed (GetFlowId cmd))).
Definition ask_strict (c pid : string) (cmd : Command) (t : Z) : M unit (future_error + Response) :=
  if (2 * minute <? t) || bool_decide (is_Some (Validate cmd)) then panic NilDereference else ask_ack c pid cmd t.

#[local] Instance sample_node_laws c : ShardLaws (shardExtractor (sample_node_of c)) := fixed_laws 7.
#[local] Instance sample_manager_laws : ShardLaws (extractor sample_manager) := fixed_laws 7.
#[local] Existing Instances empty_bodies timeout_queries timeout_queries_laws.

Definition long_await : Command :=
  CAwaitStageResult {| await_FlowId := String_ sample_uuid; await_StageId := "0"; await_TimeoutMs := 3600000 |}.

Lemma requests_checked_and_bounded_witness :
  api_server no_time no_spans sample_node_of ask_strict sample_manager (inl "no entropy") Background
      "/model.FlowService/AwaitStageResult" long_await tt
  = api_server no_time no_spans sample_node_of ask_ack sample_manager (inl "no entropy") Background
      "/model.FlowService/AwaitStageResult" long_await tt.
Proof.
  apply (requests_checked_and_bounded no_time no_spans sample_node_of); [exact sample_manager_laws|].
  intros c pid cmd t [] Hv Ht. unfold ask_strict. rewrite Hv.
  destruct (Z.ltb_spec (2 * minute) t); [lia|reflexivity].
Defined.


(** The commit above is answered by the node of the flow. *)
Example rest_commit_answer :
  AnnotateContext "30S" = inr (Some 30000000000) ∧
  carried_out (stream := unit) no_time no_spans sample_node_of ask_ack sample_manager (Some 30000000000)
    (CCommitGraph (sample_ids "flow_id")) tt
  = Ret (Forwarded (Message (RGraphRequestProcessed (sample_ids "flow_id")))) tt.
Proof. split; vm_compute; reflexivity. Qed.
