(* ===== verification/GatewayForward.v ===== *)
(** * Writing REST responses (src/model/model.pb.gw.go and grpc-gateway's runtime)

    What the function of each route does with the outcome of its request: the
    error as a JSON body, the response message, or the items of a stream, one
    chunk each, until the stream ends or the client does not take a chunk.
    Modelled from the vendored handler.go and errors.go and from the functions
    the generated code registers. The marshaler is a parameter, and so are the
    outcomes of the writes: the client may go away at any time. *)

From S2P Require Import Prelude Model Uuid Http GatewayRuntime GatewayPatterns Gateway GatewayFacts Metrics Server Setup.
Local Open Scope Z_scope.

(** ** Errors *)

Definition code_number (c : codes) : Z :=
  match c with
  | Unknown => 2 | InvalidArgument => 3 | DeadlineExceeded => 4 | NotFound => 5 | AlreadyExists => 6
  | ResourceExhausted => 8 | FailedPrecondition => 9 | Unimplemented => 12 | Internal => 13
  end.
Definition code_String (c : codes) : string :=
  match c with
  | Unknown => "Unknown" | InvalidArgument => "InvalidArgument" | DeadlineExceeded => "DeadlineExceeded"
  | NotFound => "NotFound" | AlreadyExists => "AlreadyExists" | ResourceExhausted => "ResourceExhausted"
  | FailedPrecondition => "FailedPrecondition" | Unimplemented => "Unimplemented" | Internal => "Internal"
  end.
Definition StatusText (status : Z) : string :=
  if status =? 400 then "Bad Request" else if status =? 403 then "Forbidden"
  else if status =? 404 then "Not Found" else if status =? 408 then "Request Timeout"
  else if status =? 409 then "Conflict" else if status =? 405 then "Method Not Allowed" else if status =? 412 then "Precondition Failed"
  else if status =? 500 then "Internal Server Error" else if status =? 501 then "Not Implemented" else "".

(** A Go error is a gRPC status or something else. *)
Inductive go_error := StatusErr (e : status_error) | OtherErr (text : string).
Definition Error_text (e : go_error) : string :=
  match e with
  | StatusErr e => "rpc error: code = " +:+ code_String (code e) +:+ " desc = " +:+ message e
  | OtherErr t => t
  end.
(** [status.FromError], an error without a status being [Unknown]. *)
Definition status_from (e : go_error) : status_error :=
  match e with StatusErr e => e | OtherErr t => Errorf Unknown t end.

Record StreamError := { GrpcCode : Z; HttpCode : Z; err_Message : string; HttpStatus : string }.

(** What is marshalled: a message, a chunk of a stream, the body of an error. *)
Inductive payload (item : Type) :=
  | PMessage (r : Response)
  | PResult (i : item)
  | PStreamError (e : StreamError)
  | PErrorBody (Error : string) (Code : Z).
Arguments PMessage {item}.
Arguments PResult {item}.
Arguments PStreamError {item}.
Arguments PErrorBody {item}.

Class Marshaler (item : Type) := {
  ContentType : string;
  Marshal : payload item → string + string;
}.

Record ServerMetadata := { HeaderMD : list (string * list string); TrailerMD : list (string * list string) }.

(** ** runtime/handler.go and errors.go *)

Definition MetadataHeaderPrefix : string := "Grpc-Metadata-".
Definition MetadataTrailerPrefix : string := "Grpc-Trailer-".

(** What [recv] returns: an item, or the end of the stream ([None] is [io.EOF]). *)
Definition received_item (item : Type) : Type := option go_error + item.

Section forward.
Context {S item : Type} `{!Marshaler item}.
Abbreviation W := (S * ResponseWriter)%type.

(** The default matcher keeps every key, with a prefix. *)
Definition handleForwardResponseServerMetadata (md : ServerMetadata) : M W unit :=
  for_each (HeaderMD md) (λ '(k, vs),
    for_each vs (λ v, on_header (λ h, Header_Add h (MetadataHeaderPrefix +:+ k) v))).
Definition handleForwardResponseTrailerHeader (md : ServerMetadata) : M W unit :=
  for_each (TrailerMD md) (λ '(k, _),
    on_header (λ h, Header_Add h "Trailer" (CanonicalMIMEHeaderKey (MetadataTrailerPrefix +:+ k)))).
Definition handleForwardResponseTrailer (md : ServerMetadata) : M W unit :=
  for_each (TrailerMD md) (λ '(k, vs),
    for_each vs (λ v, on_header (λ h, Header_Add h (MetadataTrailerPrefix +:+ k) v))).

(** The options of the multiplexer; the service sets none. *)
Fixpoint handleForwardResponseOptions {A} (resp : A) (opts : list (A → M W (option go_error))) : M W (option go_error) :=
  match opts with
  | [] => mret None
  | opt :: opts =>
      err ← opt resp;
      match err with Some e => mret (Some e) | None => handleForwardResponseOptions resp opts end
  end.

Definition quoted (s : string) : string := dquote +:+ s +:+ dquote.
Definition fallback : string := "{" +:+ quoted "error" +:+ ": " +:+ quoted "failed to marshal error message" +:+ "}".
Definition DefaultHTTPError (md : ServerMetadata) (err : go_error) : M W unit :=
  on_header (λ h, Header_Set (Header_Del h "Trailer") "Content-Type" ContentType);;
  let s := status_from err in
  match Marshal (PErrorBody (message s) (code_number (code s))) with
  | inl _ =>
      WriteHeader 500;;
      Write fallback;;
      mret tt
  | inr buf =>
      handleForwardResponseServerMetadata md;;
      handleForwardResponseTrailerHeader md;;
      WriteHeader (HTTPStatusFromCode (code s));;
      Write buf;;
      handleForwardResponseTrailer md
  end.

Definition ForwardResponseMessage (md : ServerMetadata) (resp : Response) (opts : list (Response → M W (option go_error))) :
    M W unit :=
  handleForwardResponseServerMetadata md;;
  handleForwardResponseTrailerHeader md;;
  on_header (λ h, Header_Set h "Content-Type" ContentType);;
  err ← handleForwardResponseOptions resp opts;
  match err with
  | Some e => DefaultHTTPError md e
  | None =>
      match Marshal (PMessage resp) with
      | inl e => DefaultHTTPError md (OtherErr e)
      | inr buf => Write buf;; handleForwardResponseTrailer md
      end
  end.

Definition error_chunk (err : go_error) : payload item :=
  let grpcCode := code (status_from err) in
  let httpCode := HTTPStatusFromCode grpcCode in
  PStreamError {| GrpcCode := code_number grpcCode; HttpCode := httpCode; err_Message := Error_text err;
                  HttpStatus := StatusText httpCode |}.
(** A chunk: a result, or an error (also for a missing result). *)
Definition streamChunk (result : option item) (err : option go_error) : payload item :=
  match err, result with
  | Some e, _ => error_chunk e
  | None, None => error_chunk (OtherErr "empty response")
  | None, Some i => PResult i
  end.

Definition newline : string := String.String (Ascii.ascii_of_nat 10) EmptyString.
Definition handleForwardResponseStreamError (err : go_error) : M W unit :=
  match Marshal (streamChunk None (Some err)) with
  | inl _ => mret tt
  | inr buf => Write (buf +:+ newline);; mret tt
  end.

(** The loop of [ForwardResponseStream]; [fuel] bounds the number of items. *)
Fixpoint forward_items (fuel : nat) (recv : M S (received_item item)) (opts : list (option item → M W (option go_error))) :
    M W unit :=
  match fuel with
  | O => no_fuel
  | Datatypes.S fuel =>
      r ← world recv;
      match r with
      | inl None => mret tt
      | inl (Some err) => handleForwardResponseStreamError err
      | inr resp =>
          err ← handleForwardResponseOptions (Some resp) opts;
          match err with
          | Some e => handleForwardResponseStreamError e
          | None =>
              match Marshal (streamChunk (Some resp) None) with
              | inl _ => mret tt
              | inr buf =>
                  err ← Write buf;
                  match err with
                  | Some _ => mret tt
                  | None => Flush;; forward_items fuel recv opts
                  end
              end
          end
      end
  end.

(** gin's response writer can be flushed, and the metadata is in the context. *)
Definition ForwardResponseStream (fuel : nat) (md : ServerMetadata) (recv : M S (received_item item))
    (opts : list (option item → M W (option go_error))) : M W unit :=
  handleForwardResponseServerMetadata md;;
  on_header (λ h, Header_Set (Header_Set h "Transfer-Encoding" "chunked") "Content-Type" ContentType);;
  err ← handleForwardResponseOptions None opts;
  match err with
  | Some e => http_Error (Error_text e) 500
  | None => WriteHeader 200;; Flush;; forward_items fuel recv opts
  end.
End forward.

(** ** The functions of the routes (model.pb.gw.go) *)

Section routes.
Context {S body query stream item : Type} `{!JsonCodec body} `{!QueryCodec query} `{!Marshaler item}.
Context (client : Command → M S (status_error + Response)).
Context (client_StreamLifecycle : M S (status_error + stream)).
Context (client_StreamEvents : StreamGraphRequest → M S (status_error + stream)).
Context (stream_Header : stream → M S (option status_error)).
Context (Recv : stream → M S (received_item item)).
(** Cancels the context of the call; the metadata the call has returned. *)
Context (cancel : M S unit) (metadata : S → ServerMetadata).
Context (fuel : nat).
Abbreviation W := (S * ResponseWriter)%type.

Definition no_metadata : ServerMetadata := {| HeaderMD := []; TrailerMD := [] |}.

Definition forward_FlowService_CreateGraph_0 : ServerMetadata → Response → list _ → M W unit := ForwardResponseMessage.
Definition forward_FlowService_AddStage_0 : ServerMetadata → Response → list _ → M W unit := ForwardResponseMessage.
Definition forward_FlowService_AddValueStage_0 : ServerMetadata → Response → list _ → M W unit := ForwardResponseMessage.
Definition forward_FlowService_AddInvokeFunction_0 : ServerMetadata → Response → list _ → M W unit := ForwardResponseMessage.
Definition forward_FlowService_AddDelay_0 : ServerMetadata → Response → list _ → M W unit := ForwardResponseMessage.
Definition forward_FlowService_AwaitStageResult_0 : ServerMetadata → Response → list _ → M W unit := ForwardResponseMessage.
Definition forward_FlowService_CompleteStageExternally_0 : ServerMetadata → Response → list _ → M W unit := ForwardResponseMessage.
Definition forward_FlowService_Commit_0 : ServerMetadata → Response → list _ → M W unit := ForwardResponseMessage.
Definition forward_FlowService_GetGraphState_0 : ServerMetadata → Response → list _ → M W unit := ForwardResponseMessage.
Definition forward_FlowService_StreamLifecycle_0 : nat → ServerMetadata → M S _ → list _ → M W unit := ForwardResponseStream.
Definition forward_FlowService_StreamEvents_0 : nat → ServerMetadata → M S _ → list _ → M W unit := ForwardResponseStream.

(** What all of them do: the context is cancelled on every way out. The
    goroutine that cancels it when the connection is closed acts on the gRPC
    call, a parameter here: closing the connection is one of the reasons for
    which a call or a stream ends in an error. *)
Definition with_response {A} (annotate : option status_error) (request : M S (status_error + A))
    (forward : ServerMetadata → A → M W unit) : M W unit :=
  deferred (world cancel) (
    match annotate with
    | Some err => DefaultHTTPError no_metadata (StatusErr err)
    | None =>
        r ← world request;
        p ← get_state;
        let md := metadata p.1 in
        match r with
        | inl err => DefaultHTTPError md (StatusErr err)
        | inr resp => forward md resp
        end
    end).

Definition handle_FlowService_CreateGraph_0 (annotate : option status_error) (b : body) (pathParams : gmap string string) :=
  with_response annotate (request_FlowService_CreateGraph_0 client b pathParams)
    (λ md resp, forward_FlowService_CreateGraph_0 md resp []).
Definition handle_FlowService_AddStage_0 (annotate : option status_error) (b : body) (pathParams : gmap string string) :=
  with_response annotate (request_FlowService_AddStage_0 client b pathParams)
    (λ md resp, forward_FlowService_AddStage_0 md resp []).
Definition handle_FlowService_AddValueStage_0 (annotate : option status_error) (b : body) (pathParams : gmap string string) :=
  with_response annotate (request_FlowService_AddValueStage_0 client b pathParams)
    (λ md resp, forward_FlowService_AddValueStage_0 md resp []).
Definition handle_FlowService_AddInvokeFunction_0 (annotate : option status_error) (b : body) (pathParams : gmap string string) :=
  with_response annotate (request_FlowService_AddInvokeFunction_0 client b pathParams)
    (λ md resp, forward_FlowService_AddInvokeFunction_0 md resp []).
Definition handle_FlowService_AddDelay_0 (annotate : option status_error) (b : body) (pathParams : gmap string string) :=
  with_response annotate (request_FlowService_AddDelay_0 client b pathParams)
    (λ md resp, forward_FlowService_AddDelay_0 md resp []).
Definition handle_FlowService_AwaitStageResult_0 (annotate : option status_error) (q : query) (pathParams : gmap string string) :=
  with_response annotate (request_FlowService_AwaitStageResult_0 client q pathParams)
    (λ md resp, forward_FlowService_AwaitStageResult_0 md resp []).
Definition handle_FlowService_CompleteStageExternally_0 (annotate : option status_error) (b : body) (pathParams : gmap string string) :=
  with_response annotate (request_FlowService_CompleteStageExternally_0 client b pathParams)
    (λ md resp, forward_FlowService_CompleteStageExternally_0 md resp []).
Definition handle_FlowService_Commit_0 (annotate : option status_error) (pathParams : gmap string string) :=
  with_response annotate (request_FlowService_Commit_0 client pathParams)
    (λ md resp, forward_FlowService_Commit_0 md resp []).
Definition handle_FlowService_GetGraphState_0 (annotate : option status_error) (pathParams : gmap string string) :=
  with_response annotate (request_FlowService_GetGraphState_0 client pathParams)
    (λ md resp, forward_FlowService_GetGraphState_0 md resp []).
Definition handle_FlowService_StreamLifecycle_0 (annotate : option status_error) (pathParams : gmap string string) :=
  with_response annotate (request_FlowService_StreamLifecycle_0 client_StreamLifecycle stream_Header pathParams)
    (λ md resp, forward_FlowService_StreamLifecycle_0 fuel md (Recv resp) []).
Definition handle_FlowService_StreamEvents_0 (annotate : option status_error) (q : query) (pathParams : gmap string string) :=
  with_response annotate (request_FlowService_StreamEvents_0 client_StreamEvents stream_Header q pathParams)
    (λ md resp, forward_FlowService_StreamEvents_0 fuel md (Recv resp) []).

Definition handler_of (m : rest_method) (annotate : option status_error) (b : body) (q : query)
    (pathParams : gmap string string) : M W unit :=
  match m with
  | CreateGraph_0 => handle_FlowService_CreateGraph_0 annotate b pathParams
  | AddStage_0 => handle_FlowService_AddStage_0 annotate b pathParams
  | AddValueStage_0 => handle_FlowService_AddValueStage_0 annotate b pathParams
  | AddInvokeFunction_0 => handle_FlowService_AddInvokeFunction_0 annotate b pathParams
  | AddDelay_0 => handle_FlowService_AddDelay_0 annotate b pathParams
  | AwaitStageResult_0 => handle_FlowService_AwaitStageResult_0 annotate q pathParams
  | CompleteStageExternally_0 => handle_FlowService_CompleteStageExternally_0 annotate b pathParams
  | Commit_0 => handle_FlowService_Commit_0 annotate pathParams
  | GetGraphState_0 => handle_FlowService_GetGraphState_0 annotate pathParams
  | StreamLifecycle_0 => handle_FlowService_StreamLifecycle_0 annotate pathParams
  | StreamEvents_0 => handle_FlowService_StreamEvents_0 annotate q pathParams
  end.

(** The gateway on a request. The text of an error before any route is reached
    is that of its status or of the error in the form. *)
Definition gateway_ServeHTTP (mux : ServeMux rest_method) (text : Z → string) (r : http_request)
    (annotate : option status_error) (b : body) (q : query) : M W unit :=
  d ← world (ServeHTTP mux r);
  match d with
  | OtherError status => http_Error (text status) status
  | Invoke m pathParams => handler_of m annotate b q pathParams
  end.

(** *** Registration *)

(** [RegisterFlowServiceHandler] on a connection; the multiplexer's routes call
    the client over it. A pattern that does not compile ends the program. *)
Definition RegisterFlowServiceHandler {conn} (c : conn) : M S (option string * (conn * ServeMux rest_method)) :=
  match RegisterFlowServiceHandlerClient with
  | Some mux => mret (None, (c, mux))
  | None => panic (PanicString "invalid pattern")
  end.

(** The connection is closed when registration fails, else when the context is
    done: [on_done] starts the goroutine that waits for it. *)
Definition RegisterFlowServiceHandlerFromEndpoint {conn} (Dial : string → M S (string + conn))
    (Close : conn → M S (option string)) (on_done : M S (option string) → M S unit) (endpoint : string) :
    M S (string + (conn * ServeMux rest_method)) :=
  r ← Dial endpoint;
  match r with
  | inl err => mret (inl err)
  | inr c =>
      '(err, mux) ← RegisterFlowServiceHandler c;
      match err with
      | Some e => Close c;; mret (inl e)
      | None => on_done (Close c);; mret (inr mux)
      end
  end.
End routes.

(** ** What the caller receives *)

Section written.
Context {S item : Type} `{!Marshaler item}.
Abbreviation W := (S * ResponseWriter)%type.
Implicit Types (w : ResponseWriter) (s : S) (md : ServerMetadata).

(** Only the header of the response changes. *)
Definition header_only (m : M W unit) : Prop := ∀ s w, ∃ f, m (s, w) = Ret tt (s, map_header f w).

Lemma header_only_on f : header_only (on_header f).
Proof. intros s w. by exists f. Qed.
Lemma header_only_each {A} (l : list A) (body : A → M W unit) :
  (∀ x, header_only (body x)) → header_only (for_each l body).
Proof.
  intros Hb. induction l as [|x l IH]; intros s w; [exists id; by destruct w|]. cbn [for_each]. unfold mbind, M_bind.
  destruct (Hb x s w) as (f & ->). destruct (IH s (map_header f w)) as (g & ->). by exists (g ∘ f).
Qed.
Lemma header_only_metadata md : header_only (handleForwardResponseServerMetadata md).
Proof. apply header_only_each. intros [k vs]. apply header_only_each. intros v. apply header_only_on. Qed.
Lemma header_only_trailer_header md : header_only (handleForwardResponseTrailerHeader md).
Proof. apply header_only_each. intros [k vs]. apply header_only_on. Qed.
Lemma header_only_trailer md : header_only (handleForwardResponseTrailer md).
Proof. apply header_only_each. intros [k vs]. apply header_only_each. intros v. apply header_only_on. Qed.
#[local] Hint Resolve header_only_on header_only_metadata header_only_trailer_header header_only_trailer : core.

Lemma wp_header_only m s w (Q : unit → W → Prop) :
  header_only m → (∀ f, Q tt (s, map_header f w)) → wp m Q (s, w).
Proof. intros Hm HQ. destruct (Hm s w) as (f & Hr). unfold wp. by rewrite Hr. Qed.

Lemma wp_on_response f s w (Q : unit → W → Prop) : Q tt (s, f w) → wp (on_response f) Q (s, w).
Proof. done. Qed.
Lemma wp_Write buf s w (Q : option string → W → Prop) :
  Q (take_chunk buf w).1 (s, (take_chunk buf w).2) → wp (Write buf) Q (s, w).
Proof. unfold wp, Write. by destruct (take_chunk buf w). Qed.

(** The steps that only change the header. *)
Ltac headers := repeat (apply wp_bind, wp_header_only; [solve [auto]|]; intros ?).

(** The response to an error: its status, unless its text cannot be marshalled. *)
Definition error_status (err : go_error) : Z :=
  match Marshal (PErrorBody (message (status_from err)) (code_number (code (status_from err)))) with
  | inl _ => 500
  | inr _ => HTTPStatusFromCode (code (status_from err))
  end.

Lemma HTTPStatusFromCode_pos c : (0 <? HTTPStatusFromCode c) = true.
Proof. by destruct c. Qed.

Lemma wp_DefaultHTTPError md err s w (Q : unit → W → Prop) :
  fresh w → (∀ w', w_sent w' = Some (error_status err) → Q tt (s, w')) →
  wp (DefaultHTTPError md err) Q (s, w).
Proof.
  intros Hw HQ. unfold DefaultHTTPError. headers. cbv zeta. unfold error_status in HQ. destruct (Marshal _) as [e|buf].
  - apply wp_bind, wp_on_response, wp_bind, wp_Write, wp_ret, HQ. by rewrite take_chunk_fresh.
  - headers. apply wp_bind, wp_on_response, wp_bind, wp_Write, wp_header_only; [auto|]. intros g. apply HQ. cbn [map_header w_sent].
    rewrite take_chunk_fresh by exact Hw. simpl. by rewrite HTTPStatusFromCode_pos.
Qed.

(** The response to a message: the message, if it can be marshalled. *)
Lemma wp_ForwardResponseMessage md r s w (Q : unit → W → Prop) :
  fresh w → w_status w = 200 → w_body w = [] →
  (∀ w', match Marshal (PMessage r) with
         | inl e => w_sent w' = Some (error_status (OtherErr e))
         | inr buf => w_sent w' = Some 200 ∧ w_body w' = if refuses 0 w then [] else [buf]
         end → Q tt (s, w')) →
  wp (ForwardResponseMessage md r []) Q (s, w).
Proof.
  intros Hf Hw Hb HQ. unfold ForwardResponseMessage. headers. cbn [handleForwardResponseOptions].
  apply wp_bind, wp_ret. destruct (Marshal (PMessage r)) as [e|buf].
  - by apply wp_DefaultHTTPError.
  - apply wp_bind, wp_Write, wp_header_only; [auto|]. intros g. apply HQ. cbn [map_header w_sent w_body].
    rewrite take_chunk_fresh by exact Hf. destruct (take_chunk_body buf (map_header f1 (map_header f0 (map_header f w)))) as [Hb3 _].
    unfold refuses in *. simpl in *. by rewrite Hb3, Hw, Hb.
Qed.

(** How a stream goes on after some items: it ends, perhaps with an error, or
    nothing is known. *)
Inductive ending := EndsWith (e : option go_error) | GoesOn.

(** A stream that gives these items and then goes on in this way. *)
Fixpoint delivers (recv : M S (received_item item)) (items : list item) (e : ending) (s s' : S) : Prop :=
  match items with
  | [] => match e with EndsWith e => recv s = Ret (inl e) s' | GoesOn => s' = s end
  | i :: items => ∃ s1, recv s = Ret (inr i) s1 ∧ delivers recv items e s1 s'
  end.

(** What is written after the last item, as the [k]-th chunk. *)
Definition closing (e : option go_error) (k : nat) (w : ResponseWriter) : list string :=
  match e with
  | None => []
  | Some err => match Marshal (streamChunk None (Some err)) with
                | inl _ => []
                | inr buf => if refuses k w then [] else [buf +:+ newline]
                end
  end.

(** The client gets the first [k] items, in order, each marshalled by itself:
    all of them and then the end of the stream, unless the next one cannot be
    marshalled or the client does not take it. *)
Definition streamed (items : list item) (e : ending) (w w' : ResponseWriter) : Prop :=
  ∃ k bufs, Forall2 (λ i buf, Marshal (PResult i) = inr buf) (take k items) bufs
    ∧ match items !! k with
      | Some i => ((∃ err, Marshal (PResult i) = inl err) ∨ refuses k w = true) ∧ w_body w' = w_body w ++ bufs
      | None => ∃ err, e = EndsWith err ∧ k = length items ∧ w_body w' = w_body w ++ bufs ++ closing err k w
      end.

(** The forwarding stops at the end of these items at the latest: the stream
    ends, or one of them cannot be marshalled or is not taken by the client. *)
Definition stops (items : list item) (e : ending) (w : ResponseWriter) : Prop :=
  e = GoesOn → ∃ k i, items !! k = Some i ∧ ((∃ err, Marshal (PResult i) = inl err) ∨ refuses k w = true).

Lemma stops_cons i items e buf w :
  Marshal (PResult i) = inr buf → refuses 0 w = false → stops (i :: items) e w → stops items e (take_chunk buf w).2.
Proof.
  intros Hi Hr Hs He. destruct (Hs He) as ([|k] & j & Hj & Hc); simplify_eq/=.
  - destruct Hc as [[err Hc]|Hc]; congruence.
  - exists k, j. by rewrite refuses_next.
Qed.

Lemma closing_next e k buf w : closing e k (take_chunk buf w).2 = closing e (Datatypes.S k) w.
Proof. unfold closing. by rewrite refuses_next. Qed.

Lemma streamed_cons i items e buf w w' :
  Marshal (PResult i) = inr buf → refuses 0 w = false →
  streamed items e (take_chunk buf w).2 w' → streamed (i :: items) e w w'.
Proof.
  intros Hi Hr (k & bufs & Hbufs & Hk). exists (Datatypes.S k), (buf :: bufs). split; [by constructor|]. simpl.
  destruct (take_chunk_body buf w) as [Hb _]. rewrite Hr in Hb. rewrite refuses_next in Hk.
  destruct (items !! k) as [j|].
  - destruct Hk as [Hk ->]. split; [done|]. by rewrite Hb, <- app_assoc.
  - destruct Hk as (err & He & -> & ->). exists err. rewrite closing_next, Hb, <- app_assoc. auto.
Qed.

Lemma wp_forward_items fuel recv items e s s' w (Q : unit → W → Prop) :
  delivers recv items e s s' → stops items e w → (length items < fuel)%nat → w_sent w = Some 200 →
  (∀ s1 w', streamed items e w w' → w_sent w' = Some 200 → Q tt (s1, w')) →
  wp (forward_items fuel recv []) Q (s, w).
Proof.
  revert items s w. induction fuel as [|fuel IH]; intros items s w Hd Hst Hf Hw HQ; [lia|]. cbn [forward_items].
  apply wp_bind. unfold world. apply wp_zoom. destruct items as [|i items]; simpl in Hd.
  - destruct e as [e|]; [|by destruct (Hst eq_refl) as (k & i & ? & _)]. unfold wp at 1. simpl. rewrite Hd.
    assert (∀ w', w_body w' = w_body w ++ closing e 0 w → streamed [] (EndsWith e) w w') as Hend.
    { intros w' Hw'. exists 0%nat, []. split; [constructor|]. by exists e. }
    destruct e as [err|].
    + unfold handleForwardResponseStreamError. simpl in Hend. destruct (Marshal _) as [?|buf].
      * apply wp_ret, HQ; [apply Hend; by rewrite app_nil_r|done].
      * apply wp_bind, wp_Write, wp_ret, HQ; [apply Hend, take_chunk_body|]. by apply take_chunk_sent.
    + apply wp_ret, HQ; [apply Hend; by rewrite app_nil_r|done].
  - destruct Hd as (s1 & Hr & Hd). unfold wp at 1. simpl. rewrite Hr. cbn [handleForwardResponseOptions].
    assert (∀ w', (∃ err, Marshal (PResult i) = inl err) ∨ refuses 0 w = true → w_body w' = w_body w →
      streamed (i :: items) e w w') as Hstop.
    { intros w' Hc Hw'. exists 0%nat, []. split; [constructor|]. simpl. by rewrite app_nil_r. }
    apply wp_bind, wp_ret. simpl. destruct (Marshal (PResult i)) as [err|buf] eqn:Hm.
    + apply wp_ret, HQ; [apply Hstop; eauto|done].
    + apply wp_bind, wp_Write. destruct (take_chunk_body buf w) as [Hb Ho].
      destruct (take_chunk buf w).1 as [err|] eqn:Hc.
      * assert (refuses 0 w = true) as Hrf by (destruct (refuses 0 w); [done|]; naive_solver).
        apply wp_ret, HQ; [apply Hstop; [by right|]; by rewrite Hb, Hrf, app_nil_r|by apply take_chunk_sent].
      * apply wp_bind, wp_on_response. pose proof (take_chunk_sent buf w 200 Hw) as Hsent.
        eapply (IH items); [exact Hd|exact (stops_cons i items e buf w Hm (proj1 Ho eq_refl) Hst)|simpl in Hf; lia|simpl; by rewrite Hsent|].
        intros s2 w' Hs. apply HQ. eapply streamed_cons; [done|by apply Ho|exact Hs].
Qed.

Lemma wp_ForwardResponseStream fuel md recv items e s s' w (Q : unit → W → Prop) :
  delivers recv items e s s' → stops items e w → (length items < fuel)%nat → fresh w →
  (∀ s1 w', streamed items e w w' → w_sent w' = Some 200 → Q tt (s1, w')) →
  wp (ForwardResponseStream fuel md recv []) Q (s, w).
Proof.
  intros Hd Hst Hf [Hw Hs] HQ. unfold ForwardResponseStream. headers. cbn [handleForwardResponseOptions].
  apply wp_bind, wp_ret, wp_bind, wp_on_response, wp_bind, wp_on_response.
  eapply wp_forward_items; [exact Hd|exact Hst|exact Hf|simpl; by rewrite Hs|]. exact HQ.
Qed.
End written.

(** ** The functions of the routes write the outcome of their request *)

Section answers.
Context {S body query stream item : Type} `{!JsonCodec body} `{!QueryCodec query} `{!Marshaler item}.
Context (client : Command → M S (status_error + Response)).
Context (lifecycle : M S (status_error + stream)) (events : StreamGraphRequest → M S (status_error + stream)).
Context (stream_Header : stream → M S (option status_error)).
Context (Recv : stream → M S (received_item item)).
Context (cancel : M S unit) (metadata : S → ServerMetadata) (fuel : nat) (text : Z → string).
Hypothesis cancel_total : ∀ s, ∃ s', cancel s = Ret tt s'.
Abbreviation W := (S * ResponseWriter)%type.

Definition forward_any (md : ServerMetadata) (r : gateway_response) : M W unit :=
  match r with
  | Message r => ForwardResponseMessage md r []
  | Stream st => ForwardResponseStream fuel md (Recv st) []
  end.

Lemma with_response_as {A} annotate (wrap : A → gateway_response) (m : M S (status_error + A)) p :
  with_response cancel metadata annotate (as_response wrap m) forward_any p
  = with_response cancel metadata annotate m (λ md a, forward_any md (wrap a)) p.
Proof.
  unfold with_response, deferred, as_response. destruct annotate as [err|]; [done|].
  unfold world, zoom, mbind, M_bind, mret, M_ret. destruct p as [s w]. simpl. by destruct (m s) as [[err|a] s1| |].
Qed.

(** One function per route is one function on the request of the route. *)
Lemma handler_of_request m annotate b q pp p :
  handler_of client lifecycle events stream_Header Recv cancel metadata fuel m annotate b q pp p
  = with_response cancel metadata annotate (request_of client lifecycle events stream_Header m b q pp) forward_any p.
Proof. destruct m; cbn [handler_of request_of]; rewrite with_response_as; reflexivity. Qed.

Lemma wp_deferred {A} (fin : M W unit) (m : M W A) (Q : A → W → Prop) p :
  wp m (λ a, wp fin (λ _, Q a)) p → wp (deferred fin m) Q p.
Proof.
  unfold wp, deferred, mbind, M_bind. destruct (m p) as [a p1| |]; try done. by destruct (fin p1) as [[] p2| |].
Qed.

Lemma wp_cancel s w (Q : unit → W → Prop) :
  (∀ s', cancel s = Ret tt s' → Q tt (s', w)) → wp (world cancel) Q (s, w).
Proof. intros HQ. unfold world. apply wp_zoom. destruct (cancel_total s) as [s' Hc]. unfold wp. simpl. rewrite Hc. by apply HQ. Qed.

(** The stream of an outcome gives these items and goes on in this way, and the
    forwarding stops; [fuel] bounds the number of items. *)
Definition stream_gives (o : http_response (stream := stream)) (s1 : S) (items : list item) (e : ending)
    (outs : list (option string)) : Prop :=
  match o with
  | Forwarded (Stream st) => (length items < fuel)%nat ∧ stops items e (new_response outs)
      ∧ ∃ s2, delivers (Recv st) items e s1 s2
  | _ => True
  end.

(** What the caller gets for an outcome, from a new response. *)
Definition written (o : http_response (stream := stream)) (items : list item) (e : ending)
    (outs : list (option string)) (w : ResponseWriter) : Prop :=
  match o with
  | HttpError st => w_sent w = Some st ∨ w_sent w = Some 500 ∧ ∃ text code err, Marshal (PErrorBody text code) = inl err
  | Forwarded (Message r) =>
      match Marshal (PMessage r) with
      | inl err => w_sent w = Some 500
      | inr buf => w_sent w = Some 200 ∧ w_body w = if refuses 0 (new_response outs) then [] else [buf]
      end
  | Forwarded (Stream st) => w_sent w = Some 200 ∧ streamed items e (new_response outs) w
  end.

Lemma written_error md err (s : S) outs items e :
  wp (DefaultHTTPError md err)
    (λ _ (p : W), p.1 = s ∧ written (HttpError (HTTPStatusFromCode (code (status_from err)))) items e outs p.2)
    (s, new_response outs).
Proof.
  apply wp_DefaultHTTPError; [done|]. intros w' Hw. split; [done|]. simpl. rewrite Hw. unfold error_status.
  destruct (Marshal _) eqn:Hm; [right; eauto|by left].
Qed.

Lemma written_forward md r s outs items e :
  stream_gives (Forwarded r) s items e outs →
  wp (forward_any md r) (λ _ p, written (Forwarded r) items e outs p.2) (s, new_response outs).
Proof.
  intros Hs. destruct r as [r|st]; simpl.
  - apply wp_ForwardResponseMessage; [done|done|done|]. intros w'. simpl. destruct (Marshal (PMessage r)); [|done].
    intros ->. unfold error_status. by destruct (Marshal _).
  - destruct Hs as (Hf & Hst & s2 & Hd). eapply wp_ForwardResponseStream; [done|done|done|done|]. by intros s1 w'.
Qed.

Lemma handler_writes m annotate b q pp s s1 o items e outs :
  handle_rest client lifecycle events stream_Header m annotate b q pp s = Ret o s1 → stream_gives o s1 items e outs →
  wp (handler_of client lifecycle events stream_Header Recv cancel metadata fuel m annotate b q pp)
    (λ _ p, written o items e outs p.2 ∧ ∃ s2, cancel s2 = Ret tt p.1) (s, new_response outs).
Proof.
  intros Ho Hs. unfold wp. rewrite handler_of_request. unfold with_response. apply wp_deferred.
  assert (∀ (m' : M W unit) s0, wp m' (λ _ p, written o items e outs p.2) (s0, new_response outs) →
    wp m' (λ _, wp (world cancel) (λ _ p, written o items e outs p.2 ∧ ∃ s2, cancel s2 = Ret tt p.1)) (s0, new_response outs)) as Hfin.
  { intros m' s0 Hm'. eapply wp_mono; [exact Hm'|]. intros [] [s2 w] Hw. apply wp_cancel. intros s3 Hc. split; [done|].
    by exists s2. }
  unfold handle_rest in Ho. destruct annotate as [err|].
  { injection Ho as <- <-. apply Hfin. eapply wp_mono; [apply (written_error no_metadata (StatusErr err))|]. by intros [] p []. }
  unfold mbind, M_bind in Ho. apply wp_bind. unfold world at 1. apply wp_zoom. unfold wp at 1. simpl.
  destruct (request_of _ _ _ _ m b q pp s) as [[err|r] s2| |]; try done; injection Ho as <- <-; apply wp_bind, wp_get; simpl; apply Hfin.
  - eapply wp_mono; [apply (written_error (metadata s2) (StatusErr err))|]. by intros [] p [].
  - by apply written_forward.
Qed.

Lemma handler_panics m annotate b q pp s s1 v outs :
  handle_rest client lifecycle events stream_Header m annotate b q pp s = Panic v s1 →
  ∃ s3, handler_of client lifecycle events stream_Header Recv cancel metadata fuel m annotate b q pp (s, new_response outs)
      = Panic v (s3, new_response outs) ∧ cancel s1 = Ret tt s3.
Proof.
  intros Ho. rewrite handler_of_request. unfold handle_rest, mbind, M_bind in Ho. destruct annotate as [err|]; [done|].
  unfold with_response, deferred, world, zoom, mbind, M_bind. simpl.
  destruct (request_of _ _ _ _ m b q pp s) as [[err|r] s2| |]; simplify_eq/=.
  destruct (cancel_total s1) as [s3 Hc]. exists s3. by rewrite Hc.
Qed.

(** C16: what a REST caller receives, if the ids of its URL contain neither a
    slash nor a colon, is the outcome of its request: the status of the error, the
    response message, or, for a stream, status 200 and the items in the order in
    which they were received, each marshalled by itself, up to the end of the
    stream or to the first one that cannot be marshalled or is not taken by the
    client, the last chunk reporting the error that ended the stream, if any. The
    function returns when the gRPC call has returned and, for a stream, the stream
    ends or there is such an item; when the call panics nothing is written and the
    panic goes on. In both cases the gRPC call is cancelled last, so no stream
    outlives its caller. *)
Theorem rest_response_exact σ m annotate b q s outs :
  (∀ x, plain (σ x)) →
  let gateway := gateway_ServeHTTP client lifecycle events stream_Header Recv cancel metadata fuel gateway_mux text
      (api_request σ m) annotate b q (s, new_response outs) in
  match serve_rest client lifecycle events stream_Header gateway_mux (api_request σ m) annotate b q s with
  | Ret o s1 => ∀ items e, stream_gives o s1 items e outs →
      ∃ s2 s3 w, gateway = Ret tt (s3, w) ∧ written o items e outs w ∧ cancel s2 = Ret tt s3
  | Panic v s1 => ∃ s3, gateway = Panic v (s3, new_response outs) ∧ cancel s1 = Ret tt s3
  | OutOfFuel => True
  end.
Proof.
  intros Hσ gateway. unfold gateway, gateway_ServeHTTP, serve_rest, mbind, M_bind, world, zoom. simpl. rewrite !dispatched by done.
  destruct (handle_rest _ _ _ _ _ _ _ _ _ s) as [o s1|v s1|] eqn:Ho; [|by apply handler_panics|done].
  intros items e Hs. pose proof (handler_writes m annotate b q _ s s1 o items e outs Ho Hs) as Hw.
  apply wp_run in Hw as ([] & [s3 w] & -> & Hw & s2 & Hc). by exists s2, s3, w.
Qed.
End answers.

(** ** A stream over REST *)

Definition sample_bodies : JsonCodec unit :=
  {| decode_CreateGraphRequest _ := EOF; decode_AddStageRequest _ := EOF; decode_AddCompletedValueStageRequest _ := EOF;
     decode_AddInvokeFunctionStageRequest _ := EOF; decode_AddDelayStageRequest _ := EOF;
     decode_CompleteStageExternallyRequest _ := EOF |}.
Definition sample_queries : QueryCodec Z :=
  {| populate_AwaitStageResultRequest _ q r :=
       inr {| await_FlowId := await_FlowId r; await_StageId := await_StageId r; await_TimeoutMs := q |};
     populate_StreamGraphRequest _ q r := inr {| sg_FlowId := sg_FlowId r; sg_FromSeq := q |} |}.
(** Items are numbers; the state of the world is the items still to come. *)
Definition sample_marshaler : Marshaler nat :=
  {| ContentType := "application/json";
     Marshal p := match p with
                  | PResult i => inr ("r" +:+ itoa i)
                  | PStreamError e => inr ("e" +:+ err_Message e)
                  | _ => inr "m"
                  end |}.
#[local] Existing Instances sample_bodies sample_queries sample_marshaler.
Definition sample_recv (st : unit) : M (list nat) (received_item nat) := λ s,
  match s with
  | [] => Ret (inl (Some (StatusErr (Errorf NotFound "gone")))) []
  | i :: s => Ret (inr i) s
  end.

Definition sample_stream (outs : list (option string)) : outcome (list nat * ResponseWriter) unit :=
  gateway_ServeHTTP (λ _, mret (inl (Errorf NotFound ""))) (mret (inr tt)) (λ _, mret (inr tt)) (λ _, mret None) sample_recv
    (mret tt) (λ _, no_metadata) 5 gateway_mux StatusText (api_request sample_ids StreamEvents_0) None tt 1 ([4; 7]%nat, new_response outs).

Abbreviation sample_rest :=
  (serve_rest (λ _, mret (inl (Errorf NotFound ""))) (mret (inr tt)) (λ _, mret (inr tt)) (λ _ : unit, mret None)
    gateway_mux (api_request sample_ids StreamEvents_0) None tt 1 [4; 7]%nat).

(** All items and the error that ends the stream; and, when the client does not
    take the second item, only the first, the stream being left where it is. *)
Example sample_stream_all :
  (λ p, (p.1, w_sent p.2, w_body p.2)) <$> (match sample_stream [] with Ret _ p => Some p | _ => None end)
  = Some ([], Some 200, ["r4"; "r7"; "erpc error: code = NotFound desc = gone" +:+ newline]).
Proof. vm_compute. reflexivity. Qed.
Example sample_stream_refused :
  (λ p, (p.1, w_sent p.2, w_body p.2)) <$> (match sample_stream [None; Some "broken pipe"] with Ret _ p => Some p | _ => None end)
  = Some ([], Some 200, ["r4"]).
Proof. vm_compute. reflexivity. Qed.

Lemma rest_response_exact_witness :
  match sample_rest with
  | Ret o s1 => ∀ items e, stream_gives (stream := unit) sample_recv 5 o s1 items e [] →
      ∃ s2 s3 w, sample_stream [] = Ret tt (s3, w) ∧ written o items e [] w ∧ (mret tt : M (list nat) unit) s2 = Ret tt s3
  | Panic v s1 => ∃ s3, sample_stream [] = Panic v (s3, new_response []) ∧ (mret tt : M (list nat) unit) s1 = Ret tt s3
  | OutOfFuel => True
  end
  ∧ sample_rest = Ret (Forwarded (Stream tt)) [4; 7]%nat
  ∧ stream_gives (stream := unit) sample_recv 5 (Forwarded (Stream tt)) [4; 7]%nat [4; 7]%nat
      (EndsWith (Some (StatusErr (Errorf NotFound "gone")))) [].
Proof.
  split_and!.
  - pose proof (rest_response_exact (λ _, mret (inl (Errorf NotFound ""))) (mret (inr tt)) (λ _, mret (inr tt)) (λ _, mret None) sample_recv
      (mret tt) (λ _, no_metadata) 5 StatusText (λ s, ex_intro _ s eq_refl) sample_ids StreamEvents_0 None tt 1 [4; 7]%nat []
      sample_ids_plain) as H. cbv zeta in H. unfold sample_stream. exact H.
  - vm_compute. reflexivity.
  - split; [simpl; lia|]. split; [done|]. exists []. simpl. eauto.
Defined.
