(* ===== verification/Engine.v ===== *)
(** * The HTTP engine (src/server/server.go, metrics.go; gin)

    Every request on the REST port goes through a chain of functions: the
    logger, the recovery from panics, the counters, the branch to the gRPC
    server, and the function of its route, if it has one. gin's chain is
    modelled as it is (context.go, gin.go, recovery.go): a function may run
    the rest of the chain itself, and the functions that have not run when it
    returns run after it unless the chain has been aborted. The gRPC server,
    the endpoints and gin's redirects are parameters. *)

From S2P Require Import Prelude Model Uuid Http GatewayRuntime Gateway Metrics Server.
Local Open Scope Z_scope.

Record http_counters := { httpRequestsServed : Z; httpErrorsCounter : Z }.

(** What is kept of a [gin.Context], with the world and the counters. *)
Record gin_Context (S : Type) := {
  c_world : S;
  c_writer : ResponseWriter;
  c_index : Z;
  c_Errors : list string;
  c_counters : http_counters;
}.
Arguments c_world {S}.
Arguments c_writer {S}.
Arguments c_index {S}.
Arguments c_Errors {S}.
Arguments c_counters {S}.

Section engine.
Context {S : Type}.
Abbreviation C := (gin_Context S).

Definition put_io (p : S * ResponseWriter) (c : C) : C :=
  {| c_world := p.1; c_writer := p.2; c_index := c_index c; c_Errors := c_Errors c; c_counters := c_counters c |}.
Definition on_io {A} (m : M (S * ResponseWriter) A) : M C A := zoom (λ c, (c_world c, c_writer c)) put_io m.
Definition set_index (i : Z) (c : C) : C :=
  {| c_world := c_world c; c_writer := c_writer c; c_index := i; c_Errors := c_Errors c; c_counters := c_counters c |}.
Definition add_error (err : string) (c : C) : C :=
  {| c_world := c_world c; c_writer := c_writer c; c_index := c_index c; c_Errors := c_Errors c ++ [err];
     c_counters := c_counters c |}.
Definition set_counters (k : http_counters) (c : C) : C :=
  {| c_world := c_world c; c_writer := c_writer c; c_index := c_index c; c_Errors := c_Errors c; c_counters := k |}.

(** ** context.go *)

Definition abortIndex : Z := 63.
Definition AbortWithStatus (code : Z) : M C unit :=
  on_io (WriteHeader code);; on_io WriteHeaderNow;; modify (set_index abortIndex).
Definition AbortWithError (code : Z) (err : string) : M C unit :=
  AbortWithStatus code;; modify (add_error err).

(** A function of the chain, given what calling [c.Next] does. *)
Definition HandlerFunc : Type := M C unit → M C unit.

(** The loop of [Next] from position [i]: what is left of the chain runs,
    unless the function at [i] has moved the index, by running it or by
    aborting. *)
Fixpoint Next (hs : list HandlerFunc) (i : Z) : M C unit :=
  match hs with
  | [] => modify (set_index i)
  | h :: hs =>
      modify (set_index i);;
      h (Next hs (i + 1));;
      c ← get_state;
      if c_index c =? i then Next hs (i + 1) else mret tt
  end.

(** ** The functions of the engine *)

Definition Logger : HandlerFunc := λ next, next.

Definition Recovery : HandlerFunc := λ next c,
  match next c with
  | Panic _ c' => AbortWithStatus 500 c'
  | r => r
  end.

Definition engineMetrics : HandlerFunc := λ next,
  next;;
  modify (λ c, set_counters {| httpRequestsServed := httpRequestsServed (c_counters c) + 1;
                               httpErrorsCounter := httpErrorsCounter (c_counters c) |} c);;
  c ← get_state;
  if (0 <? length (c_Errors c))%nat
  then modify (λ c, set_counters {| httpRequestsServed := httpRequestsServed (c_counters c);
                                    httpErrorsCounter := httpErrorsCounter (c_counters c) + 1 |} c)
  else mret tt.

(** The gRPC server writes the response itself; the chain is not aborted. *)
Definition serve_grpc (grpc_ServeHTTP : M (S * ResponseWriter) unit) (protoMajor : Z) (r : http_request) : HandlerFunc := λ next,
  if serverGrpc protoMajor r then on_io grpc_ServeHTTP else next.

Section requests.
Context (grpc_ServeHTTP : http_request → M (S * ResponseWriter) unit).
(** The function of an endpoint, and where gin redirects a request. *)
Context (endpoints : endpoint → gmap string string → M C unit).
Context (redirects : http_request → option Z).

Definition middleware (protoMajor : Z) (r : http_request) : list HandlerFunc :=
  [Logger; Recovery; engineMetrics; serve_grpc (grpc_ServeHTTP r) protoMajor r].

Definition default404Body : string := "404 page not found".

(** [handleHTTPRequest]: the chain of the route, a redirect, or [serveError]. *)
Definition handleHTTPRequest (protoMajor : Z) (r : http_request) : M C unit :=
  match engine_dispatch r with
  | Some (e, params) =>
      Next (middleware protoMajor r ++ [λ _, endpoints e params]) 0;;
      on_io WriteHeaderNow
  | None =>
      match redirects r with
      | Some code => on_io (WriteHeader code);; on_io WriteHeaderNow
      | None =>
          on_io (WriteHeader 404);;
          Next (middleware protoMajor r) 0;;
          c ← get_state;
          if w_written (c_writer c) then mret tt
          else if w_status (c_writer c) =? 404 then on_io (Write default404Body);; mret tt
          else on_io WriteHeaderNow
      end
  end.

Definition new_context (s : S) (w : ResponseWriter) (k : http_counters) : C :=
  {| c_world := s; c_writer := w; c_index := -1; c_Errors := []; c_counters := k |}.
End requests.
End engine.

(** ** Every request is answered and counted *)

(** A computation that ends: with [Q] if it returns, with [P] if it panics. *)
Definition ends {S A} (m : M S A) (Q : A → S → Prop) (P : S → Prop) (s : S) : Prop :=
  match m s with Ret a s' => Q a s' | Panic _ s' => P s' | OutOfFuel => False end.

Lemma ends_then {S A B} (m : M S A) (k : A → M S B) Q P s :
  ends m (λ a, ends (k a) Q P) P s → ends (m ≫= k) Q P s.
Proof. unfold ends, mbind, M_bind. by destruct (m s). Qed.
Lemma ends_mono {S A} (m : M S A) (Q Q' : A → S → Prop) (P P' : S → Prop) s :
  ends m Q P s → (∀ a s', Q a s' → Q' a s') → (∀ s', P s' → P' s') → ends m Q' P' s.
Proof. unfold ends. destruct (m s); naive_solver. Qed.

Lemma run_then {S A B} (m : M S A) (k : A → M S B) a s s' : m s = Ret a s' → (m ≫= k) s = k a s'.
Proof. intros Hm. unfold mbind, M_bind. by rewrite Hm. Qed.

(** What gin has written has gone out. *)
Definition writer_ok (w : ResponseWriter) : Prop := w_written w = true → is_Some (w_sent w).

Section answered.
Context {S : Type}.
Abbreviation C := (gin_Context S).
Implicit Types (c : C).

(** An invariant of what is behind the engine. *)
Context (I : S → Prop).

(** What functions behind the counters keep. *)
Definition serving (k : http_counters) (c : C) : Prop := c_counters c = k ∧ writer_ok (c_writer c) ∧ I (c_world c).

(** A function that ends, keeps the counters, and leaves the index alone
    unless it aborts. *)
Definition well_behaved {A} (m : M C A) : Prop :=
  ∀ k c, serving k c → ends m (λ _ c', serving k c' ∧ (c_index c' = c_index c ∨ c_index c' = abortIndex)) (serving k) c.

Lemma wb_ret {A} (a : A) : well_behaved (mret a).
Proof. intros k c Hc. unfold ends. simpl. auto. Qed.
Lemma wb_panic {A} w : well_behaved (panic w : M C A).
Proof. intros k c Hc. done. Qed.
Lemma wb_bind {A B} (m : M C A) (f : A → M C B) :
  well_behaved m → (∀ a, well_behaved (f a)) → well_behaved (m ≫= f).
Proof.
  intros Hm Hf k c Hc. apply ends_then. eapply ends_mono; [by apply Hm| |done]. intros a c1 [Hc1 Hi].
  eapply ends_mono; [by apply Hf| |done]. intros b c2 [Hc2 Hi2]. split; [done|]. destruct Hi2 as [->|]; auto.
Qed.
(** The world and the response, without the rest of the context. *)
Definition io_ok {A} (m : M (S * ResponseWriter) A) : Prop :=
  ∀ p, I p.1 → writer_ok p.2 → ends m (λ _ p', I p'.1 ∧ writer_ok p'.2) (λ p', I p'.1 ∧ writer_ok p'.2) p.
Lemma wb_io {A} (m : M (S * ResponseWriter) A) : io_ok m → well_behaved (on_io m).
Proof.
  intros Hm k c (Hk & Hw & HI). specialize (Hm (c_world c, c_writer c) HI Hw). unfold ends, on_io, zoom in *. simpl in *.
  destruct (m _) as [a [s w]|v [s w]|]; [|by destruct Hm|done]. destruct Hm. split; [done|by left].
Qed.
Lemma io_ret {A} (a : A) : io_ok (mret a).
Proof. by intros p HI Hw. Qed.
Lemma io_bind {A B} (m : M (S * ResponseWriter) A) (f : A → M (S * ResponseWriter) B) :
  io_ok m → (∀ a, io_ok (f a)) → io_ok (m ≫= f).
Proof.
  intros Hm Hf p HI Hw. apply ends_then. eapply ends_mono; [by apply Hm| |done]. intros a p1 [HI1 Hw1].
  by apply Hf.
Qed.
Lemma io_response f : (∀ w, writer_ok w → writer_ok (f w)) → io_ok (on_response f).
Proof. intros Hf [s w] HI Hw. split; [done|by apply Hf]. Qed.
Lemma io_Write buf : io_ok (Write buf).
Proof.
  intros [s w] HI Hw. unfold ends, Write. destruct (take_chunk buf w) as [o w'] eqn:Ht. split; [done|]. simpl in *.
  unfold writer_ok, take_chunk, send_status in *. destruct (w_written w); simpl in Ht; destruct (w_outcomes w); simplify_eq/=; eauto.
Qed.
Lemma io_world {A} (m : M S A) : (∀ s, I s → ends m (λ _, I) I s) → io_ok (world m).
Proof.
  intros Hm [s w] HI Hw. specialize (Hm s HI). unfold ends, world, zoom in *. simpl in *. by destruct (m s).
Qed.
Lemma io_http_Error text status : io_ok (http_Error text status).
Proof.
  unfold http_Error, on_header, WriteHeader. repeat (apply io_bind; [by apply io_response|intros []]).
  apply io_bind; [apply io_Write|intros]. apply io_ret.
Qed.
Lemma wb_abort code : well_behaved (AbortWithStatus code).
Proof.
  intros k c (Hk & Hw & HI). unfold ends, AbortWithStatus, on_io, mbind, M_bind, zoom. simpl. split; [|by right].
  split_and!; [done| |done]. simpl. unfold writer_ok, send_status in *. simpl. destruct (w_written (c_writer c)); simpl; eauto.
Qed.
Lemma wb_abort_error code err : well_behaved (AbortWithError code err).
Proof. apply wb_bind; [apply wb_abort|]. intros [] k c Hc. unfold ends. simpl. auto. Qed.

(** The same for a function of the chain at position [i]. *)
Definition chain_ok (i : Z) (h : HandlerFunc) : Prop :=
  ∀ k next, (∀ c, serving k c → ends next (λ _ c', serving k c' ∧ i + 1 ≤ c_index c') (serving k) c) →
    ∀ c, serving k c → c_index c = i → ends (h next) (λ _ c', serving k c' ∧ i ≤ c_index c') (serving k) c.

Lemma chain_ok_endpoint i m : i ≤ abortIndex → well_behaved m → chain_ok i (λ _, m).
Proof.
  intros Hi Hm k next _ c Hc Hidx. eapply ends_mono; [by apply Hm| |done]. intros [] c' (Hs & [->| ->]); (split; [done|lia]).
Qed.

Lemma Next_ok hs i k c :
  (∀ j h, hs !! j = Some h → chain_ok (i + Z.of_nat j) h) → serving k c →
  ends (Next hs i) (λ _ c', serving k c' ∧ i ≤ c_index c') (serving k) c.
Proof.
  revert i c. induction hs as [|h hs IH]; intros i c Hhs Hc; simpl.
  { unfold ends. simpl. by split. }
  assert (∀ c, serving k c → ends (Next hs (i + 1)) (λ _ c', serving k c' ∧ i + 1 ≤ c_index c') (serving k) c) as Hrest.
  { intros c1 Hc1. apply IH; [|done]. intros j h' Hj. replace (i + 1 + Z.of_nat j) with (i + Z.of_nat (Datatypes.S j)) by lia. by apply Hhs. }
  pose proof (Hhs O h eq_refl) as Hh. rewrite Z.add_0_r in Hh.
  apply ends_then. unfold ends at 1. simpl. apply ends_then.
  eapply ends_mono; [by apply (Hh k _ Hrest)| |done].
  intros [] c1 [Hc1 Hi1]. apply ends_then. unfold ends at 1. simpl.
  destruct (Z.eqb_spec (c_index c1) i).
  - eapply ends_mono; [by apply Hrest| |done]. intros [] c2 [? ?]. split; [done|lia].
  - unfold ends. simpl. split; [done|lia].
Qed.

(** A function that leaves the index elsewhere is the last one to run. *)
Lemma Next_run h hs i c c' :
  h (Next hs (i + 1)) (set_index i c) = Ret tt c' → c_index c' ≠ i → Next (h :: hs) i c = Ret tt c'.
Proof.
  intros Hh Hi. cbn [Next]. unfold mbind, M_bind, modify, get_state. simpl. rewrite Hh. by rewrite (proj2 (Z.eqb_neq _ _) Hi).
Qed.
Lemma Next_panic h hs i c v c' :
  h (Next hs (i + 1)) (set_index i c) = Panic v c' → Next (h :: hs) i c = Panic v c'.
Proof. intros Hh. cbn [Next]. unfold mbind, M_bind, modify, get_state. simpl. by rewrite Hh. Qed.

Context (grpc_ServeHTTP : http_request → M (S * ResponseWriter) unit).
Context (endpoints : endpoint → gmap string string → M C unit) (redirects : http_request → option Z).
Hypothesis grpc_ok : ∀ r, well_behaved (on_io (grpc_ServeHTTP r)).
Hypothesis endpoints_ok : ∀ e params, well_behaved (endpoints e params).

Lemma chain_ok_grpc proto r i : i ≤ abortIndex → chain_ok i (serve_grpc (grpc_ServeHTTP r) proto r).
Proof.
  intros Hi k next Hnext c Hc Hidx. unfold serve_grpc. destruct (serverGrpc proto r).
  - by apply (chain_ok_endpoint i _ Hi (grpc_ok r) k next Hnext).
  - eapply ends_mono; [by apply Hnext| |done]. intros [] c' [? ?]. split; [done|lia].
Qed.

(** What runs behind the counters: the branch to the gRPC server and the
    function of the route, if there is one. *)
Definition behind (proto : Z) (r : http_request) (route : option HandlerFunc) (c : C) : outcome C unit :=
  Next (serve_grpc (grpc_ServeHTTP r) proto r :: option_list route) 3 (set_index 2 c).

(** The counters after a request whose functions have returned. *)
Definition counts (c : C) : http_counters :=
  {| httpRequestsServed := httpRequestsServed (c_counters c) + 1;
     httpErrorsCounter := httpErrorsCounter (c_counters c) + (if (0 <? length (c_Errors c))%nat then 1 else 0) |}.

Lemma engineMetrics_run next c c1 : next c = Ret tt c1 → engineMetrics next c = Ret tt (set_counters (counts c1) c1).
Proof.
  intros Hn. unfold engineMetrics, mbind, M_bind, modify, get_state. rewrite Hn. simpl. unfold counts.
  by destruct (0 <? length (c_Errors c1))%nat; rewrite ?Z.add_0_r.
Qed.
Lemma engineMetrics_panic next c v c1 : next c = Panic v c1 → engineMetrics next c = Panic v c1.
Proof. intros Hn. unfold engineMetrics, mbind, M_bind. by rewrite Hn. Qed.

(** The state after a panic: status 500 goes out if none had. *)
Definition recovered (c : C) : C := set_index abortIndex (put_io (c_world c, send_status (set_status 500 (c_writer c))) c).

(** The whole chain, in front of a route or of none. *)
Lemma middleware_ok proto r route k c :
  (∀ h, route = Some h → chain_ok 4 h) → serving k c →
  ∃ c', Next (middleware grpc_ServeHTTP proto r ++ option_list route) 0 c = Ret tt c'
    ∧ match behind proto r route c with
      | Ret _ c1 => serving k c1 ∧ c' = set_counters (counts c1) c1
      | Panic _ c1 => serving k c1 ∧ c' = recovered c1
      | OutOfFuel => False
      end.
Proof.
  intros Hroute Hc.
  assert (ends (behind proto r route) (λ _ c', serving k c' ∧ 3 ≤ c_index c') (serving k) c) as Hb.
  { apply Next_ok; [|done]. intros [|j] h Hj; simpl in Hj; simplify_eq.
    - apply chain_ok_grpc. by vm_compute.
    - destruct route as [h'|], j; simplify_eq/=. by apply Hroute. }
  unfold ends in Hb. destruct (behind proto r route c) as [[] c1|v c1|] eqn:Hrun; [| |done].
  - destruct Hb as [Hc1 Hi]. exists (set_counters (counts c1) c1). split; [|done].
    do 2 (apply Next_run; [unfold Logger, Recovery|simpl; lia]).
    erewrite Next_run; [reflexivity| |simpl; lia]. by apply engineMetrics_run.
  - exists (recovered c1). split; [|done].
    do 2 (apply Next_run; [unfold Logger, Recovery|done]).
    erewrite Next_panic; [reflexivity|]. by apply engineMetrics_panic.
Qed.

(** The status that goes out in the end, unless one has gone out. *)
Lemma sent_status w : writer_ok w → w_sent (send_status w) = Some (default (w_status w) (w_sent w)).
Proof. unfold writer_ok, send_status. destruct (w_written w); [|done]. intros [st Hst]; [done|]. by rewrite Hst. Qed.
Lemma send_status_ok w : writer_ok w → writer_ok (send_status w).
Proof. intros Hw _. rewrite sent_status by done. by eexists. Qed.

(** The functions that a request runs, from the start. *)
Definition route_of (r : http_request) : option HandlerFunc := (λ '(e, params) _, endpoints e params) <$> engine_dispatch r.
Definition handled_by (proto : Z) (r : http_request) (s : S) (outs : list (option string)) (k : http_counters) : outcome C unit :=
  behind proto r (route_of r)
    (new_context s (match engine_dispatch r with
                    | Some _ => new_response outs
                    | None => set_status 404 (new_response outs)
                    end) k).

(** The end of a request: what has not been sent is. *)
Definition finished (c' c : C) : Prop :=
  c_world c = c_world c' ∧ c_counters c = c_counters c' ∧ w_sent (c_writer c) = w_sent (send_status (c_writer c')).

Lemma finished_404 c' : ∃ c,
  (if w_written (c_writer c') then mret tt
   else if w_status (c_writer c') =? 404 then on_io (Write default404Body);; mret tt
   else on_io WriteHeaderNow) c' = Ret tt c ∧ finished c' c.
Proof.
  destruct (w_written (c_writer c')) eqn:Hw; [|destruct (w_status (c_writer c') =? 404)].
  - exists c'. split; [done|]. split_and!; [done..|]. unfold send_status. by rewrite Hw.
  - unfold on_io, zoom, Write, mbind, M_bind. simpl. destruct (take_chunk default404Body (c_writer c')) as [o w] eqn:Ht.
    eexists. split; [done|]. split_and!; [done..|]. simpl. unfold take_chunk in Ht.
    destruct (w_outcomes (send_status (c_writer c'))); by simplify_eq/=.
  - eexists. split; [reflexivity|]. by split_and!.
Qed.

(** How a request ends: a redirect, or what the functions behind it have come
    to, returning or panicking. *)
Definition answered (proto : Z) (r : http_request) (s : S) (outs : list (option string)) (k : http_counters) (c : C) : Prop :=
  match engine_dispatch r, redirects r with
  | None, Some _ => c_world c = s ∧ c_counters c = k ∧ is_Some (w_sent (c_writer c))
  | _, _ =>
      match handled_by proto r s outs k with
      | Ret _ c1 => c_world c = c_world c1 ∧ c_counters c = counts c1 ∧ c_counters c1 = k
          ∧ w_sent (c_writer c) = Some (default (w_status (c_writer c1)) (w_sent (c_writer c1)))
      | Panic _ c1 => c_world c = c_world c1 ∧ c_counters c = k
          ∧ w_sent (c_writer c) = Some (default 500 (w_sent (c_writer c1)))
      | OutOfFuel => False
      end
  end.

Lemma answered_middleware k c' c b :
  match b with
  | Ret _ c1 => serving k c1 ∧ c' = set_counters (counts c1) c1
  | Panic _ c1 => serving k c1 ∧ c' = recovered c1
  | OutOfFuel => False
  end → finished c' c →
  I (c_world c) ∧
  match b : outcome C unit with
  | Ret _ c1 => c_world c = c_world c1 ∧ c_counters c = counts c1 ∧ c_counters c1 = k
      ∧ w_sent (c_writer c) = Some (default (w_status (c_writer c1)) (w_sent (c_writer c1)))
  | Panic _ c1 => c_world c = c_world c1 ∧ c_counters c = k
      ∧ w_sent (c_writer c) = Some (default 500 (w_sent (c_writer c1)))
  | OutOfFuel => False
  end.
Proof.
  intros Hb (Hw & Hk & Hs). destruct b as [[] c1|v c1|]; [| |done]; destruct Hb as ((Hk1 & Hw1 & HI1) & ->); simpl in *.
  - rewrite Hw, Hk, Hs, sent_status by done. by split_and!.
  - assert (writer_ok (set_status 500 (c_writer c1))) as Hw5 by done.
    rewrite Hw, Hk, Hs, !sent_status by (done || by apply send_status_ok). by split_and!.
Qed.

(** Every HTTP request ends, whatever the endpoint or the gRPC server behind it
    does: the engine never panics and a status always goes out. What the
    endpoints keep invariant holds afterwards. *)
Lemma engine_answers proto r s outs k :
  I s → ∃ c, handleHTTPRequest grpc_ServeHTTP endpoints redirects proto r (new_context s (new_response outs) k) = Ret tt c
    ∧ is_Some (w_sent (c_writer c)) ∧ I (c_world c) ∧ answered proto r s outs k c.
Proof.
  intros HI.
  assert (∀ c', (engine_dispatch r = None → redirects r = None) →
    match handled_by proto r s outs k with
    | Ret _ c1 => serving k c1 ∧ c' = set_counters (counts c1) c1
    | Panic _ c1 => serving k c1 ∧ c' = recovered c1
    | OutOfFuel => False
    end → ∀ c, finished c' c → is_Some (w_sent (c_writer c)) ∧ I (c_world c) ∧ answered proto r s outs k c) as Hdone.
  { intros c' Hrd Hb c Hf. destruct (answered_middleware k c' c _ Hb Hf) as [Hw Ha]. split_and!; [|done|].
    - destruct (handled_by _ _ _ _ _) as [[] c1|v c1|]; [destruct Ha as (_ & _ & _ & ->)|destruct Ha as (_ & _ & ->)|done]; by eexists.
    - unfold answered. destruct (engine_dispatch r); [done|]. by rewrite (Hrd eq_refl). }
  unfold handleHTTPRequest. unfold handled_by, route_of in Hdone. unfold answered in *.
  destruct (engine_dispatch r) as [[e params]|] eqn:Hr; [|destruct (redirects r) as [st|] eqn:Hrd].
  - destruct (middleware_ok proto r (Some (λ _, endpoints e params)) k (new_context s (new_response outs) k)) as (c' & Hc' & Hb);
      [intros h [= <-]; by apply chain_ok_endpoint|done|].
    rewrite (run_then _ _ _ _ _ Hc'). eexists. split; [reflexivity|].
    eapply Hdone; [done|exact Hb|]. by split_and!.
  - eexists. split; [reflexivity|]. split_and!; [by eexists|done|done|done|by eexists].
  - destruct (middleware_ok proto r None k (new_context s (set_status 404 (new_response outs)) k)) as (c' & Hc' & Hb); [done|done|].
    rewrite app_nil_r in Hc'. erewrite run_then by reflexivity. rewrite (run_then _ _ _ _ _ Hc'). erewrite run_then by reflexivity.
    destruct (finished_404 c') as (c & Hc & Hf). exists c. split; [exact Hc|]. by eapply Hdone.
Qed.
End answered.
