(* ===== verification/StreamServer.v ===== *)
(** * Streaming calls of the API server, and serving (src/server)

    A streaming call passes two interceptors, which wrap its stream: the span
    (metrics.go) is opened before and finished after everything else, panics
    included, and every message received is validated (go-grpc-middleware's
    validator). The generated handlers receive the request and call the
    service. [Run] of both servers is here too. The service, the transport and
    the network are parameters. *)

From S2P Require Import Prelude Model Validators Gateway Metrics Server.
Local Open Scope Z_scope.

(** ** Streams *)

Inductive stream_request := SLifecycle | SGraph (r : StreamGraphRequest).

(** The validators of both messages accept everything. *)
Definition Validate_StreamLifecycleRequest : validation := None.
Definition Validate_StreamGraphRequest (r : StreamGraphRequest) : validation := None.
Definition Validate_stream (m : stream_request) : validation :=
  match m with SLifecycle => Validate_StreamLifecycleRequest | SGraph r => Validate_StreamGraphRequest r end.

Section streams.
Context {S : Type} (now : S → Z) (finish : RawSpan → M S unit).

(** [grpc.ServerStream], as the handlers of a method with one request use it. *)
Record ServerStream := {
  ss_Context : context;
  ss_RecvMsg : M S (status_error + stream_request);
}.
Definition StreamHandler : Type := ServerStream → M S (option status_error).
Definition StreamServerInterceptor : Type := ServerStream → string → StreamHandler → M S (option status_error).

Fixpoint ChainStreamServer (interceptors : list StreamServerInterceptor) : StreamServerInterceptor :=
  match interceptors with
  | [] => λ stream _ handler, handler stream
  | i :: rest => λ stream info handler, i stream info (λ stream, ChainStreamServer rest stream info handler)
  end.

(** A stream with another context. *)
Definition WrapServerStream (stream : ServerStream) (ctx : context) : ServerStream :=
  {| ss_Context := ctx; ss_RecvMsg := ss_RecvMsg stream |}.

Definition streamMetricsInterceptor : StreamServerInterceptor := λ stream info handler,
  s ← get_state;
  deferred (finish_since now finish info (now s))
    (handler (WrapServerStream stream {| ctx_deadline := ctx_deadline (ss_Context stream); ctx_span := Some info |})).

(** [recvWrapper.RecvMsg] *)
Definition recvWrapper (stream : ServerStream) : ServerStream :=
  {| ss_Context := ss_Context stream;
     ss_RecvMsg :=
       r ← ss_RecvMsg stream;
       mret (match r with
             | inl err => inl err
             | inr m => match Validate_stream m with
                        | Some f => inl (status_of (Invalid f))
                        | None => inr m
                        end
             end) |}.
Definition validatorStreamInterceptor : StreamServerInterceptor := λ stream info handler, handler (recvWrapper stream).

(** ** The generated handlers and the server *)

Section service.
(** The methods of the service: the request and the context of the stream. *)
Context (service : stream_request → context → M S (option status_error)).

Definition stream_Handler : StreamHandler := λ stream,
  r ← ss_RecvMsg stream;
  match r with
  | inl err => mret (Some err)
  | inr m => service m (ss_Context stream)
  end.

Definition api_stream_server (stream : ServerStream) (method : string) : M S (option status_error) :=
  ChainStreamServer [streamMetricsInterceptor; validatorStreamInterceptor] stream method stream_Handler.
End service.
End streams.

(** ** Running the servers *)

Section run.
Context {S : Type}.

(** What [http.Server] is told. *)
Record http_Server := { srv_Addr : string; srv_ReadTimeout : Z; srv_MaxHeaderBytes : Z }.
Definition Server_Run (ListenAndServe : http_Server → M S (option string)) (listen : string) : M S (option string) :=
  ListenAndServe {| srv_Addr := listen; srv_ReadTimeout := 10 * 1000000000; srv_MaxHeaderBytes := Z.shiftl 1 20 |}.

(** The listener is closed on every way out. *)
Definition InternalServer_Run {L} (net_Listen : string → M S (string + L)) (Close : L → M S unit)
    (grpc_Serve : L → M S (option string)) (listen : string) : M S (option string) :=
  r ← net_Listen listen;
  match r with
  | inl err => mret (Some err)
  | inr lis => deferred (Close lis) (grpc_Serve lis)
  end.
End run.

(** ** Every streaming call reports one span *)

Section spans.
Context {S : Type} (now : S → Z).
(** The spans that have been finished, beside the rest of the world. *)
Abbreviation T := (S * list RawSpan)%type.
Definition record (sp : RawSpan) : M T unit := modify (λ '(s, spans), (s, spans ++ [sp])).
Definition clock (p : T) : Z := now p.1.

(** What has become of the world, whatever the way out. *)
Definition exit_state {A} (o : outcome T A) : option T :=
  match o with Ret _ p | Panic _ p => Some p | OutOfFuel => None end.

Lemma deferred_record {A} info start (m : M T A) p p1 :
  exit_state (m p) = Some p1 →
  exit_state (deferred (finish_since clock record info start) m p)
  = Some (p1.1, p1.2 ++ [api_span info (clock p1 - start)]).
Proof.
  unfold deferred, finish_since. destruct (m p) as [a [s spans]|w [s spans]|]; simpl; [| |done]; by intros [= <-].
Qed.

(** A streaming call, of whatever method, reports exactly one span named
    after it, when the call is over, whether the service returns, fails or
    panics and also when the request cannot be received; the service is called
    at most once, with the request as it was received, in a context that
    carries the span and keeps the deadline. *)
Theorem stream_spans (service : stream_request → context → M T (option status_error)) stream method p p1 :
  exit_state ((r ← ss_RecvMsg stream;
               match r with
               | inl err => mret (Some err)
               | inr m => service m {| ctx_deadline := ctx_deadline (ss_Context stream); ctx_span := Some method |}
               end) p) = Some p1 →
  exit_state (api_stream_server clock record service stream method p)
  = Some (p1.1, p1.2 ++ [api_span method (clock p1 - clock p)]).
Proof.
  intros Hp. unfold api_stream_server. cbn [ChainStreamServer]. unfold streamMetricsInterceptor, validatorStreamInterceptor.
  unfold mbind at 1, M_bind at 1. cbn [get_state]. apply deferred_record. rewrite <- Hp.
  unfold stream_Handler, recvWrapper. cbn [ss_RecvMsg ss_Context WrapServerStream]. unfold mbind, M_bind.
  by destruct (ss_RecvMsg stream p) as [[err|[|r]] p2| |].
Qed.
End spans.

(** A call whose service panics. *)
Definition sample_stream_call : ServerStream :=
  {| ss_Context := Background; ss_RecvMsg := mret (inr SLifecycle) : M (Z * list RawSpan) (status_error + stream_request) |}.

Lemma stream_spans_witness :
  exit_state (api_stream_server (clock (λ t, t)) record (λ _ _ '(t, spans), Panic NilDereference (t + 5, spans))
    sample_stream_call "/model.FlowService/StreamLifecycle" (7, []))
  = Some (12, [api_span "/model.FlowService/StreamLifecycle" 5]).
Proof. apply (stream_spans (λ t, t) _ sample_stream_call _ (7, []) (12, [])). reflexivity. Defined.
