(* ===== verification/Startup.v ===== *)
(** * Starting a node (src/setup/setup.go, persistence/sql_init.go, actor/api.go, server/server.go, main.go)

    [InitFromEnv] as a whole: the log level, the storage chosen by the scheme
    of the database URL, the cluster manager, the executor and the supervisors of
    the local shards, and the two servers; [NewAPIServer] with its tracer, its
    gRPC listener and the connection of its gateway. Parsing of URLs and paths,
    the file system, the SQL driver, the actor system, dialling and listening are
    parameters. The state is the metrics of the process and the rest of the
    world. *)

From S2P Require Import Prelude Uuid Sharding Cluster Setup SqlProvider Replies Api ApiFacts.
From S2P Require Import GatewayRuntime GatewayPatterns Gateway GatewayFacts GatewayForward Prometheus Metrics Tracing.
Local Open Scope Z_scope.

(** ** What the process is started with *)

(** What is read of a [*url.URL]: its scheme, its path, the text of the URL and
    of the URL with another path. *)
Record URL := { Scheme : string; Path : string; URL_String : string; with_path : string → string }.

(** The actors that are started, with what they are given: the executor has the
    URL it calls, a supervisor its name and the executor. *)
Inductive actor_props :=
  | ExecutorProps (faasAddr : string)
  | SupervisorProps (name executor : string).

Class OS (S client conn : Type) := {
  url_Parse : string → option URL;
  filepath_Dir : string → string;
  MkdirAll : string → M S (option string);
  sql_Open : driver → string → M S (string + conn);
  DB_Ping : conn → M S (option string);
  SetMaxIdleConns : conn → Z → M S unit;
  SetMaxOpenConns : conn → Z → M S unit;
  DB_Exec : conn → ddl → M S (option string);
  grpc_Dial : string → M S (string + client);
  Conn_Close : client → M S (option string);
  (** starts a goroutine that waits for the end of the process's context *)
  on_context_done : M S (option string) → M S unit;
  SpawnNamed : actor_props → string → M S (string + string);
  net_Listen : string → M S (option string);
  NewHTTPCollector : string → M S (string + unit);
}.

(** [strings.TrimPrefix] *)
Definition TrimPrefix (s prefix : string) : string :=
  if String.prefix prefix s
  then String.substring (String.length prefix) (String.length s - String.length prefix) s else s.

(** ** Log levels *)

Inductive Level := PanicLevel | FatalLevel | ErrorLevel | WarnLevel | InfoLevel | DebugLevel.

Definition ParseLevel (lvl : string) : option Level :=
  let l := string_of (to_lower <$> bytes_of lvl) in
  if String.eqb l "panic" then Some PanicLevel
  else if String.eqb l "fatal" then Some FatalLevel
  else if String.eqb l "error" then Some ErrorLevel
  else if String.eqb l "warn" || String.eqb l "warning" then Some WarnLevel
  else if String.eqb l "info" then Some InfoLevel
  else if String.eqb l "debug" then Some DebugLevel
  else None.

(** ** Storage *)

Inductive storage (conn : Type) :=
  | InMemoryStorage (snapshotInterval : Z)
  | SqlStorage (d : driver) (db : conn) (snapshotInterval : Z).
Arguments InMemoryStorage {conn}.
Arguments SqlStorage {conn}.

(** The process ends with a message, or [InitFromEnv] returns an error. *)
Inductive startup_error := Fatal (msg : string) | Failed (err : string).

(** ** NewAPIServer *)

(** What a [Server] is made of: the tracer that is now global, where it
    listens, and the routes of its gateway. *)
Record Server (conn : Type) := {
  server_tracer : FnTracer;
  server_listen : string;
  server_grpcListen : string;
  server_gateway : option conn * ServeMux rest_method;
}.
Arguments server_tracer {conn}.
Arguments server_listen {conn}.
Arguments server_grpcListen {conn}.
Arguments server_gateway {conn}.

(** The process ends with a message, or an error is returned. *)
Inductive server_error := ServerFatal (msg : string) | ServerFailed (err : string).

Section new_server.
Context {S conn : Type}.
Abbreviation T := (metrics * S)%type.
Context (NewHTTPCollector : string → M S (string + unit)) (net_Listen : string → M T (option string)).
Context (Dial : string → M T (string + conn)) (Close : conn → M T (option string)).
Context (on_done : M T (option string) → M T unit).

(** The error of registering the gateway is dropped: the multiplexer then has
    no routes. *)
Definition NewAPIServer (restListen grpcListen zipkinURL : string) : M T (server_error + Server conn) :=
  tracer ← setTracer NewHTTPCollector restListen zipkinURL;
  match tracer with
  | inl msg => mret (inl (ServerFatal msg))
  | inr tracer =>
      err ← net_Listen grpcListen;
      match err with
      | Some err => mret (inl (ServerFailed err))
      | None =>
          gw ← RegisterFlowServiceHandlerFromEndpoint Dial Close on_done "localhost:9999";
          mret (inr {| server_tracer := tracer; server_listen := restListen; server_grpcListen := grpcListen;
                       server_gateway := match gw with inl _ => (None, []) | inr (c, mux) => (Some c, mux) end |})
      end
  end.
End new_server.

(** ** The service *)

Record service (client conn : Type) := {
  svc_logLevel : Level;
  svc_storage : storage conn;
  svc_manager : Manager fixedSizeShardExtractor client;
  svc_executor : string;
  svc_local : actorManager fixedSizeShardExtractor;
  svc_internal_listen : string;
  svc_api : Server client;
}.
Arguments svc_logLevel {client conn}.
Arguments svc_storage {client conn}.
Arguments svc_manager {client conn}.
Arguments svc_executor {client conn}.
Arguments svc_local {client conn}.
Arguments svc_internal_listen {client conn}.
Arguments svc_api {client conn}.

(** Go's [if err != nil { return nil, err }]. *)
Definition try {S E A B} (m : M S (E + A)) (k : A → M S (E + B)) : M S (E + B) :=
  r ← m; match r with inl e => mret (inl e) | inr a => k a end.
Definition check {S B} (m : M S (option string)) (k : M S (string + B)) : M S (string + B) :=
  r ← m; match r with Some e => mret (inl e) | None => k end.

Section startup.
Context {S client conn : Type} `{!OS S client conn}.

Definition driver_of (scheme : string) : option driver :=
  if String.eqb scheme "mysql" then Some mysql
  else if String.eqb scheme "sqlite3" then Some sqlite3 else None.

Fixpoint exec_all (db : conn) (statements : list ddl) : M S (string + unit) :=
  match statements with
  | [] => mret (inr tt)
  | v :: statements =>
      r ← DB_Exec db v;
      match r with
      | Some err => mret (inl ("Failed to create database table: " +:+ err))
      | None => exec_all db statements
      end
  end.

Definition set_pool (d : driver) (db : conn) : M S unit :=
  let maxIdleConns := 10 in
  match d with
  | sqlite3 => SetMaxIdleConns db 1;; SetMaxOpenConns db 1
  | mysql => SetMaxIdleConns db maxIdleConns;; SetMaxOpenConns db (5 * maxIdleConns)
  end.

Definition CreateDBConnection (url : URL) : M S (string + (driver * conn)) :=
  match driver_of (Scheme url) with
  | None => mret (inl ("Invalid db driver " +:+ Scheme url))
  | Some d =>
      check (match d with sqlite3 => MkdirAll (filepath_Dir (Path url)) | mysql => mret None end) (
      let uri := TrimPrefix (URL_String url) (Scheme url +:+ "://") in
      try (sql_Open d uri) (λ db,
      check (DB_Ping db) (
      set_pool d db;;
      try (exec_all db (tables d)) (λ _, mret (inr (d, db))))))
  end.

(** [NewSQLProvider] and [NewSQLBlobStore] only keep the connection. *)
Definition initStorageFromEnv (env : environment) : M S (string + storage conn) :=
  match url_Parse (getStringConfig env "DB_URL") with
  | None => mret (inl ("invalid DB URL in DB_URL : " +:+ getStringConfig env "DB_URL"))
  | Some dbURL =>
      if String.eqb (Scheme dbURL) "inmem" then mret (inr (InMemoryStorage (snapshotInterval env)))
      else try (CreateDBConnection dbURL) (λ '(d, db), mret (inr (SqlStorage d db (snapshotInterval env))))
  end.

(** ** The node-local service *)

(** The URL of the functions service: without a path, calls go to [/r]. *)
Definition functions_url (fnURL : string) : option string :=
  parsedURL ← url_Parse fnURL;
  Some (if String.eqb (Path parsedURL) "" then with_path parsedURL "r" else fnURL).

(** The whole of [NewGraphManager]: the executor, then the supervisors, which
    are given the executor. *)
Definition start_graph_manager (fnURL : string) (ex : fixedSizeShardExtractor) (shards : list Z) :
    M S (string + (string * actorManager fixedSizeShardExtractor)) :=
  match functions_url fnURL with
  | None => mret (inl ("Invalid functions server URL: " +:+ fnURL))
  | Some fnURL =>
      executor ← SpawnNamed (ExecutorProps fnURL) "executor";
      match executor with
      | inl err => panic (PanicString ("Failed to spawn executor actor: " +:+ err))
      | inr executor =>
          m ← NewGraphManager (λ name, SpawnNamed (SupervisorProps name executor) name) ex shards;
          mret (inr (executor, m))
      end
  end.

(** ** InitFromEnv *)

Abbreviation T := (metrics * S)%type.

Definition failing {A} (m : M S (string + A)) : M T (startup_error + A) :=
  r ← on_world m; mret (match r with inl e => inl (Failed e) | inr a => inr a end).
Definition server_failing {A} (m : M T (server_error + A)) : M T (startup_error + A) :=
  r ← m;
  mret (match r with inl (ServerFatal msg) => inl (Fatal msg) | inl (ServerFailed e) => inl (Failed e) | inr a => inr a end).

(** A goroutine of the gateway acts on the world alone. *)
Definition api_on_done (m : M T (option string)) : M T unit := λ p,
  on_world (on_context_done (λ s, match m (p.1, s) with
                                  | Ret err (_, s') => Ret err s'
                                  | Panic v (_, s') => Panic v s'
                                  | OutOfFuel => OutOfFuel
                                  end)) p.

Definition api_server_from (env : environment) : M T (server_error + Server client) :=
  NewAPIServer NewHTTPCollector (λ listen, on_world (net_Listen listen)) (λ target, on_world (grpc_Dial target))
    (λ c, on_world (Conn_Close c)) api_on_done
    (getStringConfig env "LISTEN") (getStringConfig env "GRPC_LISTEN") (getStringConfig env "ZIPKIN_URL").

Definition InitFromEnv (env : environment) : M T (startup_error + service client conn) :=
  match ParseLevel (getStringConfig env "LOG_LEVEL") with
  | None => mret (inl (Fatal "Invalid log level."))
  | Some logLevel =>
      try (failing (initStorageFromEnv env)) (λ provider,
      '(clusterManager, shards) ← on_world (init_cluster grpc_Dial env);
      try (failing (start_graph_manager (getStringConfig env "API_URL") (extractor clusterManager) shards)) (λ '(executor, localGraphManager),
      try (server_failing (api_server_from env)) (λ apiServer,
      mret (inr {|
        svc_logLevel := logLevel;
        svc_storage := provider;
        svc_manager := clusterManager;
        svc_executor := executor;
        svc_local := localGraphManager;
        svc_internal_listen := ":" +:+ getStringConfig env "CLUSTER_NODE_PORT";
        svc_api := apiServer |}))))
  end.

(** [main]: the exit code when the service cannot be set up. *)
Definition main (env : environment) : M T (Z + service client conn) :=
  r ← InitFromEnv env;
  mret (match r with inl _ => inl 1 | inr svc => inr svc end).
End startup.

(** ** What a started node is made of *)

Section wiring.
Context {S client conn : Type} `{!OS S client conn}.
Implicit Types (env : environment) (s : S).

Lemma try_Ret {W E A B} (m : M W (E + A)) (k : A → M W (E + B)) (s : W) b (s' : W) :
  try m k s = Ret (inr b) s' → ∃ a (s1 : W), m s = Ret (inr a) s1 ∧ k a s1 = Ret (inr b) s'.
Proof. unfold try, mbind, M_bind. destruct (m s) as [[e|a] s1| |]; try done. eauto. Qed.
Lemma check_Ret {B} (m : M S (option string)) (k : M S (string + B)) s b s' :
  check m k s = Ret (inr b) s' → ∃ s1, m s = Ret None s1 ∧ k s1 = Ret (inr b) s'.
Proof. unfold check, mbind, M_bind. destruct (m s) as [[e|] s1| |]; try done. eauto. Qed.
Lemma on_world_Ret {A} (m : M S A) (p p' : metrics * S) a :
  on_world m p = Ret a p' → ∃ s', m p.2 = Ret a s' ∧ p' = (p.1, s').
Proof. unfold on_world, zoom. destruct (m p.2) as [b s1| |]; try done. intros [= -> <-]. eauto. Qed.
Lemma failing_Ret {A} (m : M S (string + A)) (p p' : metrics * S) a :
  failing m p = Ret (inr a) p' → ∃ s', m p.2 = Ret (inr a) s' ∧ p' = (p.1, s').
Proof.
  unfold failing, mbind, M_bind. destruct (on_world m p) as [[e|b] p1| |] eqn:Hm; try done. intros [= -> ->].
  by apply on_world_Ret in Hm.
Qed.
Lemma server_failing_Ret {A} (m : M (metrics * S) (server_error + A)) p p' a :
  server_failing m p = Ret (inr a) p' → m p = Ret (inr a) p'.
Proof. unfold server_failing, mbind, M_bind. destruct (m p) as [[[]|b] p1| |]; try done. by intros [= -> ->]. Qed.

(** A statement the database accepted. *)
Definition accepted (db : conn) (stmt : ddl) : Prop := ∃ s1 s2, DB_Exec db stmt s1 = Ret None s2.

Lemma exec_all_accepted db stmts s s' : exec_all db stmts s = Ret (inr tt) s' → Forall (accepted db) stmts.
Proof.
  revert s. induction stmts as [|v stmts IH]; intros s Hrun; [constructor|]. simpl in Hrun.
  unfold mbind, M_bind in Hrun. destruct (DB_Exec db v s) as [[err|] s1| |] eqn:Hx; try done.
  constructor; [by exists s, s1|by eapply IH].
Qed.

(** The storage that goes with a database URL: its schema has been created. *)
Definition stores (url : URL) (env : environment) (st : storage conn) : Prop :=
  if String.eqb (Scheme url) "inmem" then st = InMemoryStorage (snapshotInterval env)
  else ∃ d db, driver_of (Scheme url) = Some d ∧ st = SqlStorage d db (snapshotInterval env)
       ∧ (∃ s1 s2, sql_Open d (TrimPrefix (URL_String url) (Scheme url +:+ "://")) s1 = Ret (inr db) s2)
       ∧ Forall (accepted db) (tables d).

Lemma CreateDBConnection_ok url d db s s' :
  CreateDBConnection url s = Ret (inr (d, db)) s' →
  driver_of (Scheme url) = Some d ∧ Forall (accepted db) (tables d)
  ∧ (∃ s1 s2, sql_Open d (TrimPrefix (URL_String url) (Scheme url +:+ "://")) s1 = Ret (inr db) s2).
Proof.
  unfold CreateDBConnection. destruct (driver_of (Scheme url)) as [d0|]; [|done].
  intros (s1 & _ & Hrun)%check_Ret. apply try_Ret in Hrun as (db0 & s2 & Ho & Hrun).
  apply check_Ret in Hrun as (s3 & _ & Hrun). unfold mbind at 1, M_bind at 1 in Hrun.
  destruct (set_pool d0 db0 s3) as [[] s4| |]; [|done|done].
  apply try_Ret in Hrun as ([] & s5 & Hx & [= -> -> ->]). split_and!; [done|by eapply exec_all_accepted|eauto].
Qed.

Lemma initStorage_ok env st s s' :
  initStorageFromEnv env s = Ret (inr st) s' →
  ∃ url, url_Parse (getStringConfig env "DB_URL") = Some url ∧ stores url env st.
Proof.
  unfold initStorageFromEnv. destruct (url_Parse _) as [url|]; [|done]. intros Hrun. exists url. split; [done|].
  unfold stores. destruct (String.eqb _ _); [by injection Hrun as ->|].
  apply try_Ret in Hrun as ([d db] & s1 & Hc & [= <- <-]).
  apply CreateDBConnection_ok in Hc as (Hd & Ht & Ho). eauto 10.
Qed.

(** An actor that was started with these properties under this name. *)
Definition started (props : actor_props) (name pid : string) : Prop := ∃ s1 s2, SpawnNamed props name s1 = Ret (inr pid) s2.

Lemma start_graph_manager_ok fnURL ex shards executor m s s' :
  start_graph_manager fnURL ex shards s = Ret (inr (executor, m)) s' →
  (∃ url, functions_url fnURL = Some url ∧ started (ExecutorProps url) "executor" executor) ∧ shardExtractor m = ex
  ∧ (∀ shard, is_Some (shardSupervisors m !! shard) ↔ shard ∈ shards)
  ∧ ∀ shard pid, shardSupervisors m !! shard = Some pid →
      started (SupervisorProps (supervisorName shard) executor) (supervisorName shard) pid.
Proof.
  unfold start_graph_manager. destruct (functions_url fnURL) as [url|]; [|done].
  unfold mbind, M_bind. destruct (SpawnNamed (ExecutorProps url) "executor" s) as [[err|pid] s1| |] eqn:He; try done.
  unfold NewGraphManager, mbind, M_bind. destruct (spawn_supervisors _ _ _ s1) as [t s2| |] eqn:Hs; try done.
  intros [= <- <- <-]. apply spawn_supervisors_table in Hs as [Hin Hout]. simpl.
  assert (∀ shard p, t !! shard = Some p → shard ∈ shards) as Hdom.
  { intros shard p Hp. destruct (decide (shard ∈ shards)); [done|]. by rewrite Hout in Hp. }
  split_and!; [exists url; split; [done|by exists s, s1]|done| |].
  - intros shard. split; [by intros [p Hp]; eapply Hdom|]. intros Hsh. destruct (Hin _ Hsh) as (p & -> & _). eauto.
  - intros shard p Hp. destruct (Hin shard (Hdom _ _ Hp)) as (p' & Hp' & Hsp). by simplify_eq.
Qed.

(** The API server of a node. *)
Definition serving_api (env : environment) (srv : Server client) : Prop :=
  server_listen srv = getStringConfig env "LISTEN" ∧ server_grpcListen srv = getStringConfig env "GRPC_LISTEN"
  ∧ (∃ s1 s2, net_Listen (server_grpcListen srv) s1 = Ret None s2)
  ∧ tracer_collector (server_tracer srv) = collector_for (getStringConfig env "ZIPKIN_URL")
  ∧ match server_gateway srv with
    | (None, mux) => mux = []
    | (Some c, mux) => mux = gateway_mux ∧ ∃ s1 s2, grpc_Dial "localhost:9999" s1 = Ret (inr c) s2
    end.

Lemma api_server_ok env p srv p' : api_server_from env p = Ret (inr srv) p' → serving_api env srv.
Proof.
  destruct p as [m s]. unfold api_server_from, NewAPIServer, mbind, M_bind.
  destruct (setTracer _ _ _ _) as [[msg|tr] p1| |] eqn:Ht; try done. apply setTracer_cases in Ht as (Htr & _ & _).
  destruct (on_world (net_Listen _) p1) as [[err|] p2| |] eqn:Hl; try done. apply on_world_Ret in Hl as (s2 & Hl & ->).
  unfold RegisterFlowServiceHandlerFromEndpoint, RegisterFlowServiceHandler, mbind, M_bind. rewrite gateway_registered.
  destruct (on_world (grpc_Dial _) _) as [[err|c] p3| |] eqn:Hd; try done.
  - intros [= <- <-]. unfold serving_api. simpl. split_and!; [done|done|eauto|done|done].
  - apply on_world_Ret in Hd as (s3 & Hd & ->). simpl. destruct (api_on_done _ _) as [[] p4| |]; try done.
    intros [= <- <-]. unfold serving_api. simpl. split_and!; [done|done|eauto|done|done|eauto].
Qed.

(** C37: when a node starts, its storage is the one its database URL names, in
    memory or an SQL database all of whose tables have been created; an executor
    has been started for the functions URL, with the path [r] where it has none,
    and with that executor a supervisor for every shard the cluster manager assigns
    to this node, under the same shard function, and for no other, so that the
    requests the proxies send here find one; its API server has its gRPC listener,
    its spans go to the metrics and to the configured Zipkin server, and its
    gateway has the routes of the API over a connection to port 9999 of the host,
    or, if that could not be dialled, none. *)
Theorem startup_wiring env p (svc : service client conn) p' :
  InitFromEnv env p = Ret (inr svc) p' →
  (∃ url, url_Parse (getStringConfig env "DB_URL") = Some url ∧ stores url env (svc_storage svc))
  ∧ (∃ url, functions_url (getStringConfig env "API_URL") = Some url
       ∧ started (ExecutorProps url) "executor" (svc_executor svc))
  ∧ shardExtractor (svc_local svc) = extractor (svc_manager svc)
  ∧ (∀ shard, is_Some (shardSupervisors (svc_local svc) !! shard)
       ↔ shard ∈ shards_of (settings (svc_manager svc)) (extractor (svc_manager svc)) (NodeID (settings (svc_manager svc))))
  ∧ (∀ shard pid, shardSupervisors (svc_local svc) !! shard = Some pid →
       started (SupervisorProps (supervisorName shard) (svc_executor svc)) (supervisorName shard) pid)
  ∧ serving_api env (svc_api svc).
Proof.
  unfold InitFromEnv. destruct (ParseLevel _) as [lvl|]; [|done].
  intros (st & p1 & (s1 & Hst & ->)%failing_Ret & Hrun)%try_Ret.
  unfold mbind at 1, M_bind at 1 in Hrun.
  destruct (on_world (init_cluster grpc_Dial env) _) as [[m shards] p2| |] eqn:Hc; [|done|done].
  apply on_world_Ret in Hc as (s2 & Hc & ->).
  apply try_Ret in Hrun as ([executor lm] & p3 & (s3 & Hg & ->)%failing_Ret & Hrun).
  apply try_Ret in Hrun as (api & p4 & Ha%server_failing_Ret & [= <- <-]). simpl.
  apply start_graph_manager_ok in Hg as (Hu & Hex & Hsh & Hsup). apply initStorage_ok in Hst.
  apply init_cluster_settings in Hc as (_ & _ & _ & _ & Hshards). apply api_server_ok in Ha.
  split_and!; try done. intros shard. by rewrite Hsh, Hshards.
Qed.

(** The REST gateway of a started node, if it has a connection, always has it to
    port 9999 of its own host, so with [GRPC_LISTEN] set to another address the
    gRPC service listens there and the gateway dials elsewhere. *)
Theorem gateway_endpoint_fixed env p (svc : service client conn) p' c mux :
  InitFromEnv env p = Ret (inr svc) p' → server_gateway (svc_api svc) = (Some c, mux) →
  (∃ s1 s2, grpc_Dial "localhost:9999" s1 = Ret (inr c) s2)
  ∧ (Getenv env "GRPC_LISTEN" ≠ "" → server_grpcListen (svc_api svc) = Getenv env "GRPC_LISTEN").
Proof.
  unfold InitFromEnv. destruct (ParseLevel _) as [lvl|]; [|done].
  intros (st & p1 & _ & Hrun)%try_Ret Hgw.
  unfold mbind at 1, M_bind at 1 in Hrun. destruct (on_world _ p1) as [[m shards] p2| |]; [|done|done].
  apply try_Ret in Hrun as ([executor lm] & p3 & _ & Hrun).
  apply try_Ret in Hrun as (api & p4 & Ha%server_failing_Ret & [= <- <-]). simpl in *.
  apply api_server_ok in Ha as (_ & Hl & _ & _ & Hg). rewrite Hgw in Hg. destruct Hg as [_ Hg]. split; [done|].
  intros Hne. rewrite Hl. unfold getStringConfig. by rewrite (proj2 (String.eqb_neq _ _) Hne).
Qed.
End wiring.

(** ** Node 1 of three, on sqlite *)

Definition sample_url (s : string) : URL :=
  {| Scheme := if String.prefix "sqlite3" s then "sqlite3" else "http";
     Path := if String.prefix "sqlite3" s then "/app/data/flow.db" else "/invoke";
     URL_String := s; with_path p := s +:+ "/" +:+ p |}.

#[local] Instance sample_os : OS unit string string :=
  {| url_Parse s := Some (sample_url s); filepath_Dir _ := "/app/data"; MkdirAll _ := mret None;
     sql_Open _ uri := mret (inr uri); DB_Ping _ := mret None; SetMaxIdleConns _ _ := mret tt;
     SetMaxOpenConns _ _ := mret tt; DB_Exec _ _ := mret None; grpc_Dial := dial_ok;
     Conn_Close _ := mret None; on_context_done _ := mret tt;
     SpawnNamed _ name := mret (inr name); net_Listen _ := mret None; NewHTTPCollector _ := mret (inr tt) |}.

Definition sharded_env : environment :=
  {| variables := {[ "CLUSTER_NODE_COUNT" := "3"; "CLUSTER_NODE_ID" := "1"; "CLUSTER_SHARD_COUNT" := "7" ]}; Getwd := "/app" |}.

Definition sample_service : service string string :=
  {| svc_logLevel := InfoLevel; svc_storage := SqlStorage sqlite3 "/app/data/flow.db" 1000;
     svc_manager := {| settings := as_node 1 three_nodes; extractor := NewFixedSizeExtractor 7;
       reverseProxies := {[ "node-0" := "node-0:19081"; "node-1" := "localhost:19081"; "node-2" := "node-2:19081" ]} |};
     svc_executor := "executor";
     svc_local := {| shardSupervisors := {[ 1 := "supervisor-1"; 4 := "supervisor-4" ]}; shardExtractor := NewFixedSizeExtractor 7 |};
     svc_internal_listen := ":19081";
     svc_api := {| server_tracer := {| tracer_collector := PromCollector; tracer_debug := false; tracer_hostPort := ":8081";
                     tracer_serviceName := "flow-service"; clientServerSameSpan := true; traceID128Bit := true |};
                   server_listen := ":8081"; server_grpcListen := "127.0.0.1:9999";
                   server_gateway := (Some "localhost:9999", gateway_mux) |} |}.

Lemma startup_wiring_witness :
  InitFromEnv sharded_env (no_metrics, tt) = Ret (inr sample_service) (no_metrics, tt)
  ∧ ∀ shard, is_Some (shardSupervisors (svc_local sample_service) !! shard)
      ↔ shard ∈ shards_of (as_node 1 three_nodes) (NewFixedSizeExtractor 7) 1.
Proof.
  assert (InitFromEnv sharded_env (no_metrics, tt) = Ret (inr sample_service) (no_metrics, tt)) as Hrun
    by (vm_compute; reflexivity).
  split; [exact Hrun|].
  destruct (startup_wiring sharded_env (no_metrics, tt) sample_service (no_metrics, tt) Hrun) as (_ & _ & _ & Hsh & _).
  exact Hsh.
Defined.

(** When the gateway cannot dial, the server starts all the same, without any
    REST route: every call of the REST API is answered with 404. *)
Example gateway_dial_failure_ignored :
  NewAPIServer (S := unit) (conn := unit) (λ _, mret (inr tt)) (λ _, mret None) (λ _, mret (inl "refused")) (λ _, mret None)
    (λ _, mret tt) ":8081" ":9999" "" (NewPrometheusCollector NewRegistry, tt)
  = Ret (inr {| server_tracer := {| tracer_collector := PromCollector; tracer_debug := false; tracer_hostPort := ":8081";
                  tracer_serviceName := "flow-service"; clientServerSameSpan := true; traceID128Bit := true |};
                server_listen := ":8081"; server_grpcListen := ":9999"; server_gateway := (None, []) |})
      (NewPrometheusCollector NewRegistry, tt).
Proof. reflexivity. Qed.
