(* ===== verification/Assets.v ===== *)
(** * Embedded assets (src/model/swagger_file.go)

    The file embeds one compressed asset, the description of the REST API,
    under its name in a table and at its place in a tree of directories; the
    HTTP engine serves it ([handleSwagger] of src/server/server.go).
    Decompression (compress/gzip), the embedded bytes and the file system are
    parameters; the path functions of path/filepath the code uses are modelled
    for Unix. *)

From S2P Require Import Prelude Supervisor SupervisorFacts GatewayFacts Setup.

(** ** Paths *)

(** [strings.Replace(name, "\\", "/", -1)]. *)
Definition backslash : Ascii.ascii := Ascii.ascii_of_nat 92.
Definition canonical (name : string) : string :=
  String.string_of_list_ascii
    ((λ c, if Ascii.eqb c backslash then slash else c) <$> String.list_ascii_of_string name).

(** [filepath.Clean]: empty and [.] components go, [..] takes the previous one
    with it where there is one. *)
Definition clean_step (rooted : bool) (stack : list string) (c : string) : list string :=
  if String.eqb c "" || String.eqb c "." then stack
  else if String.eqb c ".." then
    match stack with
    | [] => if rooted then [] else [".."]
    | t :: stack' => if String.eqb t ".." then ".." :: stack else stack'
    end
  else c :: stack.
Definition Clean (path : string) : string :=
  let rooted := match path with String.String c _ => Ascii.eqb c slash | EmptyString => false end in
  let out := String.concat "/" (rev (foldl (clean_step rooted) [] (Split path "/"))) in
  if rooted then "/" +:+ out else if String.eqb out "" then "." else out.
(** [filepath.Join]: empty elements are ignored. *)
Definition Join (elems : list string) : string :=
  match filter (λ e, e ≠ "") elems with
  | [] => ""
  | es => Clean (String.concat "/" es)
  end.
(** [filepath.Dir]: all but the last component. *)
Definition Dir (path : string) : string :=
  match rev (Split path "/") with
  | [] | [_] => Clean ""
  | _ :: front => Clean (String.concat "/" (rev front) +:+ "/")
  end.

(** ** Data *)

Record bindataFileInfo := { fi_name : string; fi_size : Z; fi_mode : Z; fi_modTime : Z }.
Definition IsDir (fi : bindataFileInfo) : bool := false.

(** A nil slice is [None]. *)
Record asset := { asset_bytes : option string; asset_info : bindataFileInfo; asset_digest : list Z }.

(** A Go result [(a, err)]. *)
Definition go_result (A : Type) : Type := A * option string.

(** [gzip.NewReader], [io.Copy] from the reader and its [Close], on the
    compressed bytes: the error of each, and what was read. *)
Class Gzip := {
  gzip_NewReader : string → option string;
  gzip_Copy : string → string * option string;
  gzip_Close : string → option string;
}.

Section Assets.
Context `{!Gzip} (modelModelSwaggerJson_data : string).

Definition bindataRead (data name : string) : go_result (option string) :=
  match gzip_NewReader data with
  | Some err => (None, Some ("Read " +:+ dquote +:+ name +:+ dquote +:+ ": " +:+ err))
  | None =>
      let '(buf, err) := gzip_Copy data in
      let clErr := gzip_Close data in
      match err with
      | Some e => (None, Some ("Read " +:+ dquote +:+ name +:+ dquote +:+ ": " +:+ e))
      | None =>
          match clErr with
          | Some _ => (None, err)
          | None => (Some buf, None)
          end
      end
  end.

Definition modelModelSwaggerJsonBytes : go_result (option string) :=
  bindataRead modelModelSwaggerJson_data "model/model.swagger.json".

Definition modelModelSwaggerJson : go_result (option asset) :=
  match modelModelSwaggerJsonBytes with
  | (_, Some err) => (None, Some err)
  | (bytes, None) =>
      let info := {| fi_name := "model/model.swagger.json"; fi_size := 0; fi_mode := 0; fi_modTime := 0 |} in
      (Some {| asset_bytes := bytes; asset_info := info;
               asset_digest := [212; 92; 120; 22; 126; 69; 164; 240; 84; 181; 167; 10; 196; 45; 142; 30;
                                119; 141; 68; 255; 15; 70; 163; 188; 159; 140; 130; 197; 177; 157; 129; 18]%Z |}, None)
  end.

(** ** The table *)

Definition generator : Type := unit → go_result (option asset).
Definition bindata : gmap string generator := {[ "model/model.swagger.json" := λ _, modelModelSwaggerJson ]}.

(** What [Asset], [AssetInfo] and [AssetDigest] have in common: the asset, a
    failure to load it, or an unknown name. *)
Definition load (name : string) : option (go_result (option asset)) :=
  (λ f, f tt) <$> bindata !! canonical name.

Definition load_as {A S} (what : string) (zero : A) (get : asset → A) (name : string) : M S (go_result A) :=
  match load name with
  | Some (a, None) => a ← deref a; mret (get a, None)
  | Some (_, Some err) => mret (zero, Some (what +:+ " " +:+ name +:+ " can't read by error: " +:+ err))
  | None => mret (zero, Some (what +:+ " " +:+ name +:+ " not found"))
  end.

Definition Asset {S} (name : string) : M S (go_result (option string)) :=
  load_as "Asset" None asset_bytes name.
Definition AssetString {S} (name : string) : M S (go_result string) :=
  '(data, err) ← Asset name;
  mret (default "" data, err).
Definition MustAsset {S} (name : string) : M S (option string) :=
  '(a, err) ← Asset name;
  match err with
  | Some e => panic (PanicString ("asset: Asset(" +:+ name +:+ "): " +:+ e))
  | None => mret a
  end.
Definition MustAssetString {S} (name : string) : M S string :=
  a ← MustAsset name;
  mret (default "" a).
Definition AssetInfo {S} (name : string) : M S (go_result (option bindataFileInfo)) :=
  load_as "AssetInfo" None (λ a, Some (asset_info a)) name.
Definition zero_digest : list Z := replicate 32 0%Z.
Definition AssetDigest {S} (name : string) : M S (go_result (list Z)) :=
  load_as "AssetDigest" zero_digest asset_digest name.

(** [range _bindata]: in key order here, the result does not depend on it. *)
Fixpoint digests_of {S} (gens : list (string * generator)) (mp : gmap string (list Z)) :
    M S (go_result (option (gmap string (list Z)))) :=
  match gens with
  | [] => mret (Some mp, None)
  | (name, f) :: gens =>
      match f tt with
      | (_, Some err) => mret (None, Some err)
      | (a, None) => a ← deref a; digests_of gens (<[name := asset_digest a]> mp)
      end
  end.
Definition Digests {S} : M S (go_result (option (gmap string (list Z)))) := digests_of (map_to_list bindata) ∅.
Definition AssetNames : list string := (map_to_list bindata).*1.

(** ** The tree *)

Inductive bintree := Node (Func : option generator) (Children : list (string * bintree)).
Definition Func (t : bintree) : option generator := let 'Node f _ := t in f.
Definition Children (t : bintree) : list (string * bintree) := let 'Node _ c := t in c.

Definition bintree_root : bintree :=
  Node None [("model", Node None [("model.swagger.json", Node (Some (λ _, modelModelSwaggerJson)) [])])].

Fixpoint find_child (name : string) (cs : list (string * bintree)) : option bintree :=
  match cs with
  | [] => None
  | (n, t) :: cs => if String.eqb n name then Some t else find_child name cs
  end.
Fixpoint walk (node : bintree) (pathList : list string) : option bintree :=
  match pathList with
  | [] => Some node
  | p :: rest => node ← find_child p (Children node); walk node rest
  end.

Definition AssetDir (name : string) : go_result (option (list string)) :=
  let not_found := (None, Some ("Asset " +:+ name +:+ " not found")) in
  match (if String.eqb name "" then Some bintree_root else walk bintree_root (Split (canonical name) "/")) with
  | None => not_found
  | Some node =>
      match Func node with
      | Some _ => not_found
      | None => (Some (Children node).*1, None)
      end
  end.

(** ** Restoring to a file system *)

Definition filePath (dir name : string) : string := Join (dir :: Split (canonical name) "/").

Section restore.
Context {F : Type} (MkdirAll : string → Z → M F (option string)).
Context (WriteFile : string → option string → Z → M F (option string)).
Context (Chtimes : string → Z → Z → M F (option string)).

Definition RestoreAsset (dir name : string) : M F (option string) :=
  '(data, err) ← Asset name;
  match err with
  | Some e => mret (Some e)
  | None =>
      '(info, err) ← AssetInfo name;
      match err with
      | Some e => mret (Some e)
      | None =>
          err ← MkdirAll (filePath dir (Dir name)) 493;
          match err with
          | Some e => mret (Some e)
          | None =>
              info ← deref info;
              err ← WriteFile (filePath dir name) data (fi_mode info);
              match err with
              | Some e => mret (Some e)
              | None => Chtimes (filePath dir name) (fi_modTime info) (fi_modTime info)
              end
          end
      end
  end.

(** The recursion goes down the tree; [fuel] bounds its depth. *)
Fixpoint RestoreAssets (fuel : nat) (dir name : string) : M F (option string) :=
  match fuel with
  | 0 => no_fuel
  | S fuel =>
      match AssetDir name with
      | (_, Some _) => RestoreAsset dir name
      | (children, None) =>
          (fix each (cs : list string) : M F (option string) :=
             match cs with
             | [] => mret None
             | child :: cs =>
                 err ← RestoreAssets fuel dir (Join [name; child]);
                 match err with Some e => mret (Some e) | None => each cs end
             end) (default [] children)
      end
  end.
End restore.

(** ** The endpoint *)

Inductive swagger_reply :=
  | SwaggerFailed (status : Z) (err : string)
  | SwaggerData (status : Z) (contentType : string) (body : option string).

Definition handleSwagger {S} : M S swagger_reply :=
  '(file, err) ← Asset "model/model.swagger.json";
  mret (match err with
        | Some _ => SwaggerFailed 500 "error reading swagger content"
        | None => SwaggerData 200 "application/json" file
        end).
End Assets.

(** ** Table and tree hold the same file *)

Lemma split_slash s cur : ∃ c cs, split_aux [slash] s 0 cur = c :: cs
  ∧ c ++ concat ((λ x, slash :: x) <$> cs) = reverse cur ++ s.
Proof.
  revert cur. induction s as [|x s IH]; intros cur; cbn [split_aux].
  - by exists (reverse cur), [].
  - case_decide as Hp.
    + destruct (IH []) as (c & cs & Hs & Hc). exists (reverse cur), (c :: cs). simpl pred. rewrite Hs. split; [done|].
      destruct Hp as [k [= -> ->]]. rewrite fmap_cons. cbn [concat app]. by rewrite Hc.
    + destruct (IH (x :: cur)) as (c & cs & -> & Hc). exists c, cs. split; [done|].
      by rewrite Hc, reverse_cons, <- app_assoc.
Qed.

Lemma concat_Split s : String.concat "/" (Split s "/") = s.
Proof.
  unfold Split. change (String.list_ascii_of_string "/") with [slash].
  destruct (split_slash (String.list_ascii_of_string s) []) as (c & cs & -> & Hc). rewrite fmap_cons.
  rewrite <- (String.string_of_list_ascii_of_string s), <- (String.string_of_list_ascii_of_string (String.concat _ _)).
  f_equal. rewrite concat_ascii, String.list_ascii_of_string_of_list_ascii, <- list_fmap_compose. simpl in Hc.
  rewrite <- Hc. do 2 f_equal. apply list_fmap_ext. intros ???. simpl. by rewrite String.list_ascii_of_string_of_list_ascii.
Qed.

Definition swagger_path : string := "model/model.swagger.json".

Section facts.
Context `{!Gzip} (data : string).

Lemma walk_root l :
  walk (bintree_root data) l
  = if decide (l = []) then Some (bintree_root data)
    else if decide (l = ["model"]) then Some (Node None [("model.swagger.json", Node (Some (λ _, modelModelSwaggerJson data)) [])])
    else if decide (l = ["model"; "model.swagger.json"]) then Some (Node (Some (λ _, modelModelSwaggerJson data)) [])
    else None.
Proof.
  destruct l as [|a l]; [done|]. rewrite decide_False by done. cbn [walk find_child Children bintree_root].
  destruct (String.eqb_spec "model" a) as [<-|Ha]; cbn [mbind option_bind].
  2:{ by rewrite !decide_False by congruence. }
  destruct l as [|b l]; [done|]. rewrite decide_False by done. cbn [walk find_child Children].
  destruct (String.eqb_spec "model.swagger.json" b) as [<-|Hb]; cbn [mbind option_bind].
  2:{ by rewrite decide_False by congruence. }
  by destruct l.
Qed.

Lemma Split_path s c cs : Forall (λ x, slash ∉ String.list_ascii_of_string x) (c :: cs) →
  Split s "/" = c :: cs ↔ s = String.concat "/" (c :: cs).
Proof. intros Hc. split; [intros <-; by rewrite concat_Split|intros ->; by apply Split_concat]. Qed.

Lemma Split_model s : Split s "/" = ["model"] ↔ s = "model".
Proof. apply (Split_path s "model" []). apply (bool_decide_unpack _). vm_compute. exact I. Qed.
Lemma Split_swagger s : Split s "/" = ["model"; "model.swagger.json"] ↔ s = swagger_path.
Proof. apply (Split_path s "model" ["model.swagger.json"]). apply (bool_decide_unpack _). vm_compute. exact I. Qed.

Lemma Split_nonempty s : Split s "/" ≠ [].
Proof.
  unfold Split. change (String.list_ascii_of_string "/") with [slash].
  by destruct (split_slash (String.list_ascii_of_string s) []) as (c & cs & -> & _).
Qed.

Lemma load_name name :
  load data name = if decide (canonical name = swagger_path) then Some (modelModelSwaggerJson data) else None.
Proof.
  unfold load, bindata. case_decide as Hn; [by rewrite Hn|]. rewrite lookup_singleton_ne by done. done.
Qed.

Lemma AssetDir_name name :
  AssetDir data name
  = if decide (name = "") then (Some ["model"], None)
    else if decide (canonical name = "model") then (Some ["model.swagger.json"], None)
    else (None, Some ("Asset " +:+ name +:+ " not found")).
Proof.
  unfold AssetDir. destruct (String.eqb_spec name "") as [->|Hn]; [done|]. rewrite (decide_False (P := name = "")) by done.
  rewrite walk_root. rewrite (decide_False (P := Split _ _ = [])) by apply Split_nonempty.
  destruct (decide (canonical name = "model")) as [Hm|Hm].
  { by rewrite decide_True by by apply Split_model. }
  rewrite (decide_False (P := Split _ _ = ["model"])) by by rewrite Split_model.
  by case_decide.
Qed.

(** What reading the embedded bytes gives: their content, or an error. *)
Definition swagger_content : go_result (option string) := modelModelSwaggerJsonBytes data.

Lemma Asset_name {S} name (s : S) :
  Asset data name s
  = Ret (if decide (canonical name = swagger_path)
         then match swagger_content with
              | (_, Some err) => (None, Some ("Asset " +:+ name +:+ " can't read by error: " +:+ err))
              | (bytes, None) => (bytes, None)
              end
         else (None, Some ("Asset " +:+ name +:+ " not found"))) s.
Proof.
  unfold Asset, load_as. rewrite load_name. case_decide; [|done].
  unfold modelModelSwaggerJson, swagger_content. by destruct (modelModelSwaggerJsonBytes data) as [bytes [err|]].
Qed.

Lemma RestoreAssets_file {F} mkdir write chtimes fuel dir (s : F) :
  RestoreAssets data mkdir write chtimes (S fuel) dir swagger_path s
  = RestoreAsset data mkdir write chtimes dir swagger_path s.
Proof. cbn [RestoreAssets]. by rewrite AssetDir_name. Qed.

(** A directory with one entry. *)
Lemma RestoreAssets_dir {F} mkdir write chtimes fuel dir name child (s : F) :
  AssetDir data name = (Some [child], None) →
  RestoreAssets data mkdir write chtimes (S fuel) dir name s
  = RestoreAssets data mkdir write chtimes fuel dir (Join [name; child]) s.
Proof.
  intros Hd. cbn [RestoreAssets]. rewrite Hd. cbv beta iota delta [default mbind M_bind id].
  by destruct (RestoreAssets _ _ _ _ fuel dir _ s) as [[e|] s'| |].
Qed.

Lemma handleSwagger_reply {F} (s : F) :
  handleSwagger data s
  = Ret (match gzip_NewReader data, gzip_Copy data, gzip_Close data with
         | None, (content, None), None => SwaggerData 200 "application/json" (Some content)
         | None, (_, None), Some _ => SwaggerData 200 "application/json" None
         | _, _, _ => SwaggerFailed 500 "error reading swagger content"
         end) s.
Proof.
  unfold handleSwagger, mbind, M_bind. rewrite Asset_name. cbn [decide].
  unfold swagger_content, modelModelSwaggerJsonBytes, bindataRead.
  destruct (gzip_NewReader data); [by destruct (gzip_Copy data) as [? []]|].
  by destruct (gzip_Copy data) as [c [e|]], (gzip_Close data).
Qed.

(** The table and the tree of the embedded files agree: a name (with slashes
    or backslashes) is a file of the tree exactly when the table knows it, a
    directory only when it is empty or [model], and nothing else, so restoring
    the whole tree restores that one file; and the swagger endpoint answers
    with the decompressed description, or with status 500 when it cannot be
    read. When only closing the decompressor fails, the answer is status 200
    without a body, because the reader then returns neither bytes nor an
    error. *)
Theorem swagger_served {F} mkdir write chtimes dir name (s : F) :
  (is_Some (load data name) ↔ ∃ f, walk (bintree_root data) (Split (canonical name) "/") = Some (Node (Some f) []))
  ∧ ((AssetDir data name).2 = None ↔ name = "" ∨ canonical name = "model")
  ∧ (is_Some (load data name) → (AssetDir data name).1 = None)
  ∧ RestoreAssets data mkdir write chtimes 3 dir "" s = RestoreAsset data mkdir write chtimes dir swagger_path s
  ∧ handleSwagger data s
    = Ret (match gzip_NewReader data, gzip_Copy data, gzip_Close data with
           | None, (content, None), None => SwaggerData 200 "application/json" (Some content)
           | None, (_, None), Some _ => SwaggerData 200 "application/json" None
           | _, _, _ => SwaggerFailed 500 "error reading swagger content"
           end) s.
Proof.
  split_and!.
  - rewrite load_name, walk_root. rewrite (decide_False (P := Split _ _ = [])) by apply Split_nonempty.
    destruct (decide (canonical name = swagger_path)) as [Hn|Hn].
    + rewrite decide_False by (rewrite Split_model; by rewrite Hn). rewrite decide_True by by apply Split_swagger.
      split; eauto.
    + rewrite (decide_False (P := Split _ _ = [_; _])) by by rewrite Split_swagger.
      split; [by intros []|]. case_decide; by intros [f [=]].
  - rewrite AssetDir_name. destruct (decide (name = "")); [simpl; tauto|].
    destruct (decide (canonical name = "model")); simpl; [tauto|]. by split; [|intros []].
  - rewrite load_name, AssetDir_name. case_decide as Hn; [|by intros []]. intros _.
    rewrite !decide_False; [done| |by intros ->]. by rewrite Hn.
  - rewrite (RestoreAssets_dir _ _ _ _ _ "" "model") by done.
    rewrite (RestoreAssets_dir _ _ _ _ _ (Join [""; "model"]) "model.swagger.json").
    + apply RestoreAssets_file.
    + rewrite AssetDir_name. vm_compute. reflexivity.
  - apply handleSwagger_reply.
Qed.
End facts.
