(* ===== verification/Blobs.v ===== *)
(** * The blob store (src/blobs)

    User data (closures, arguments, responses) is kept outside the graph, in a
    store of byte strings with generated ids. [BlobStore] is the Go interface
    [Store], [StoreLaws] what its clients rely on; the in-memory store and the
    SQL store both have it. A reader is what reading it to the end gives: all
    its bytes or an error. *)

From S2P Require Import Prelude Model Uuid.
Local Open Scope Z_scope.

Record Blob := { blob_ID : string; blob_ContentType : string; blob_Length : Z }.

Inductive blob_error := ErrBlobNotFound | BlobFailure (err : string).

Definition reader : Type := string + list Z.

Class BlobStore (B : Type) := {
  Read : string → string → M B (blob_error + list Z);
  Create : string → string → reader → M B (blob_error + Blob);
}.

(** The bytes stored under each id; an operation may fail, but then nothing
    has been stored; what is stored is never changed. *)
Class StoreLaws (B : Type) `{!BlobStore B} := {
  store_ok : B → Prop;
  contents : B → string → option (list Z);
  (** the next operation of the store does not fail *)
  can_create : B → Prop;
  can_read : B → Prop;
  Create_spec prefix contentType data b :
    store_ok b →
    wp (Create prefix contentType data) (λ r b', store_ok b' ∧
      match r with
      | inl _ => (∀ id, contents b' id = contents b id) ∧ (can_create b → ∃ err, data = inl err)
      | inr blob => ∃ bytes, data = inr bytes ∧ contents b (blob_ID blob) = None
          ∧ (∀ id, contents b' id = if decide (id = blob_ID blob) then Some bytes else contents b id)
          ∧ blob_ContentType blob = contentType ∧ blob_Length blob = int64 (Z.of_nat (length bytes))
      end) b;
  Read_spec prefix id b :
    store_ok b →
    wp (Read prefix id) (λ r b', store_ok b' ∧ (∀ id, contents b' id = contents b id) ∧
      match r with
      | inr bytes => contents b id = Some bytes
      | inl ErrBlobNotFound => contents b id = None
      | inl (BlobFailure _) => ¬ can_read b
      end) b;
}.

(** ** inmem_blob_store.go *)

Record inMemBlobStore := { blobs : gmap string (list Z); count : nat }.

Definition NewInMemBlobStore : inMemBlobStore := {| blobs := ∅; count := 0 |}.

Definition mem_Read (flowID blobID : string) : M inMemBlobStore (blob_error + list Z) :=
  s ← get_state;
  mret (match blobs s !! blobID with None => inl ErrBlobNotFound | Some blob => inr blob end).

(** The counter is advanced before the data is read. *)
Definition mem_Create (flowID contentType : string) (data : reader) : M inMemBlobStore (blob_error + Blob) :=
  s ← get_state;
  let id := itoa (count s) in
  modify (λ s, {| blobs := blobs s; count := S (count s) |});;
  match data with
  | inl err => mret (inl (BlobFailure err))
  | inr bytes =>
      modify (λ s, {| blobs := <[id := bytes]> (blobs s); count := count s |});;
      mret (inr {| blob_ID := id; blob_ContentType := contentType; blob_Length := int64 (Z.of_nat (length bytes)) |})
  end.

#[export] Instance mem_store : BlobStore inMemBlobStore := {| Read := mem_Read; Create := mem_Create |}.

(** ** sql_blob_store.go

    The table [blobs] as its rows in order of insertion, and what the
    environment delivers: the random bytes of the next ids, and the error, if
    any, of the next statements. [blob_id] is the primary key of the table
    (src/persistence/sql_init.go), so inserting an id a second time fails. *)
Record blob_row := { row_prefix : string; row_blob_id : string; row_blob_data : list Z }.
Record sqlBlobStore := { rows : list blob_row; random : list (string + list Z); db_errors : list (option string) }.

Definition next_random : M sqlBlobStore (string + list Z) :=
  s ← get_state;
  modify (λ s, {| rows := rows s; random := drop 1 (random s); db_errors := db_errors s |});;
  mret (default (inl "no entropy") (random s !! 0%nat)).
Definition next_db_error : M sqlBlobStore (option string) :=
  s ← get_state;
  modify (λ s, {| rows := rows s; random := random s; db_errors := drop 1 (db_errors s) |});;
  mret (default None (db_errors s !! 0%nat)).

Definition sql_Create (prefix contentType : string) (input : reader) : M sqlBlobStore (blob_error + Blob) :=
  bytes ← next_random;
  match NewRandom bytes with
  | inl err => mret (inl (BlobFailure err))
  | inr id =>
      match input with
      | inl err => mret (inl (BlobFailure err))
      | inr data =>
          let idString := String_ id in
          err ← next_db_error;
          s ← get_state;
          match err, list_find (λ r, row_blob_id r = idString) (rows s) with
          | Some err, _ => mret (inl (BlobFailure err))
          | None, Some _ => mret (inl (BlobFailure "UNIQUE constraint failed: blobs.blob_id"))
          | None, None =>
              modify (λ s, {| rows := rows s ++ [{| row_prefix := prefix; row_blob_id := idString; row_blob_data := data |}];
                              random := random s; db_errors := db_errors s |});;
              mret (inr {| blob_ID := idString; blob_ContentType := contentType;
                           blob_Length := int64 (Z.of_nat (length data)) |})
          end
      end
  end.

(** [SELECT blob_data FROM blobs where blob_id = ?]: the first row found. *)
Definition sql_Read (flowID blobID : string) : M sqlBlobStore (blob_error + list Z) :=
  err ← next_db_error;
  match err with
  | Some err => mret (inl (BlobFailure err))
  | None =>
      s ← get_state;
      mret (match list_find (λ r, row_blob_id r = blobID) (rows s) with
            | None => inl ErrBlobNotFound
            | Some (_, r) => inr (row_blob_data r)
            end)
  end.

#[export] Instance sql_store : BlobStore sqlBlobStore := {| Read := sql_Read; Create := sql_Create |}.

(** ** blobapi.go *)

(** What a handler writes: an abort with a status, the blob as JSON with
    status 200, or the bytes of the blob. *)
Inductive http_reply :=
  | AbortWithError (status : Z)
  | JSON (status : Z) (b : Blob)
  | Body (bytes : list Z).

Section blobapi.
Context {B : Type} `{!BlobStore B}.

Definition createBlob (contentType prefix : string) (body : reader) : M B http_reply :=
  if (String.length contentType =? 0)%nat then mret (AbortWithError 400)
  else
    r ← Create prefix contentType body;
    mret (match r with inl err => AbortWithError 500 | inr blob => JSON 200 blob end).

(** [copy_ok]: whether the client took all of the response. *)
Definition getBlob (prefix blobID : string) (copy_ok : bool) : M B http_reply :=
  r ← Read prefix blobID;
  mret (match r with
        | inl ErrBlobNotFound => AbortWithError 404
        | inl (BlobFailure _) => AbortWithError 500
        | inr bytes => if copy_ok then Body bytes else AbortWithError 500
        end).
End blobapi.

(** ** Both stores keep what they are given *)

(** The ids of the in-memory store are the numbers below its counter. *)
Definition mem_store_ok (b : inMemBlobStore) : Prop :=
  ∀ id, is_Some (blobs b !! id) → ∃ k, (k < count b)%nat ∧ id = itoa k.

#[export] Instance mem_store_laws : StoreLaws inMemBlobStore.
Proof.
  refine {| store_ok := mem_store_ok; contents b id := blobs b !! id; can_create _ := True; can_read _ := True |}.
  - intros prefix ct data b Hb. cbn. unfold mem_Create. apply wp_bind, wp_get, wp_bind, wp_modify.
    assert (mem_store_ok {| blobs := blobs b; count := S (count b) |}) as Hb1.
    { intros id Hid. destruct (Hb id Hid) as (k & Hk & ->). exists k. split; [simpl; lia|done]. }
    destruct data as [err|bytes]; [by apply wp_ret; eauto|]. apply wp_bind, wp_modify, wp_ret. split.
    + intros id. simpl. rewrite lookup_insert_is_Some. intros [<-|[_ Hid]].
      * exists (count b). split; [lia|done].
      * exact (Hb1 id Hid).
    + exists bytes. split_and!; try done; simpl.
      * destruct (blobs b !! itoa (count b)) eqn:Hc; [|done]. destruct (Hb (itoa (count b))) as (k & Hk & Heq); [done|].
        apply itoa_inj in Heq. lia.
      * intros id. case_decide as Hid; [subst; by rewrite lookup_insert_eq|by rewrite lookup_insert_ne].
  - intros prefix id b Hb. cbn. unfold mem_Read. apply wp_bind, wp_get, wp_ret. split_and!; [done|done|].
    by destruct (blobs b !! id).
Defined.

Definition sql_contents (b : sqlBlobStore) (id : string) : option (list Z) :=
  row_blob_data ∘ snd <$> list_find (λ r, row_blob_id r = id) (rows b).

Lemma sql_contents_snoc l r id :
  list_find (λ x, row_blob_id x = row_blob_id r) l = None →
  row_blob_data ∘ snd <$> list_find (λ x, row_blob_id x = id) (l ++ [r])
  = if decide (id = row_blob_id r) then Some (row_blob_data r)
    else row_blob_data ∘ snd <$> list_find (λ x, row_blob_id x = id) l.
Proof.
  intros Hnew. case_decide as Hid.
  - subst id. rewrite list_find_app_r by done. simpl. by rewrite decide_True.
  - destruct (list_find (λ x, row_blob_id x = id) l) as [[i x]|] eqn:Hf.
    + by rewrite (list_find_app_l _ _ _ _ _ Hf).
    + rewrite list_find_app_r by done. simpl. by rewrite decide_False.
Qed.

(** The next statement succeeds; there is entropy for an id that is not in use. *)
Definition sql_up (b : sqlBlobStore) : Prop := default None (db_errors b !! 0%nat) = None.
Definition sql_can_create (b : sqlBlobStore) : Prop :=
  sql_up b ∧ ∃ id, NewRandom (default (inl "no entropy") (random b !! 0%nat)) = inr id ∧ sql_contents b (String_ id) = None.

#[export] Instance sql_store_laws : StoreLaws sqlBlobStore.
Proof.
  refine {| store_ok _ := True; contents := sql_contents; can_create := sql_can_create; can_read := sql_up |}.
  - intros prefix ct data b _. cbn. unfold sql_Create, next_random. apply wp_bind, wp_bind, wp_get, wp_bind, wp_modify, wp_ret.
    destruct (NewRandom _) as [err|id] eqn:Hid.
    { apply wp_ret. split_and!; [done..|]. intros (_ & id & Hid' & _). congruence. }
    destruct data as [err|bytes]; [by apply wp_ret; eauto|].
    unfold next_db_error. apply wp_bind, wp_bind, wp_get, wp_bind, wp_modify, wp_ret, wp_bind, wp_get. simpl.
    destruct (default None _) as [err|] eqn:He.
    { apply wp_ret. split_and!; [done..|]. intros [Hup _]. unfold sql_up in Hup. congruence. }
    destruct (list_find _ _) eqn:Hf.
    { apply wp_ret. split_and!; [done..|]. intros (_ & id' & Hid' & Hc). unfold sql_contents in Hc.
      assert (id' = id) as -> by congruence. by rewrite Hf in Hc. }
    apply wp_bind, wp_modify, wp_ret. split; [done|].
    exists bytes. split_and!; try done; simpl.
    + unfold sql_contents. by rewrite Hf.
    + intros i. unfold sql_contents. simpl.
      by rewrite (sql_contents_snoc _ {| row_prefix := prefix; row_blob_id := String_ id; row_blob_data := bytes |}).
  - intros prefix id b _. cbn. unfold sql_Read, next_db_error. apply wp_bind, wp_bind, wp_get, wp_bind, wp_modify, wp_ret.
    destruct (default None _) as [err|] eqn:He.
    { apply wp_ret. split_and!; [done..|]. unfold sql_up. congruence. }
    apply wp_bind, wp_get, wp_ret. split_and!; [done|done|].
    unfold sql_contents. simpl. by destruct (list_find _ _) as [[i r]|].
Defined.

Section blob_properties.
Context {B : Type} `{!BlobStore B} `{!StoreLaws B}.

(** A request to create a blob, successful or not. *)
Definition posted (b b2 : B) : Prop :=
  ∃ contentType prefix body reply, createBlob contentType prefix body b = Ret reply b2.

Lemma posted_keeps b b2 id bytes :
  rtc posted b b2 → store_ok b → contents b id = Some bytes → store_ok b2 ∧ contents b2 id = Some bytes.
Proof.
  induction 1 as [|b b1 b2 (ct & prefix & body & reply & Hpost) _ IH]; [done|]. intros Hb Hold.
  unfold createBlob in Hpost. destruct (_ =? _)%nat; [injection Hpost as _ <-; by apply IH|].
  unfold mbind, M_bind in Hpost. pose proof (Create_spec prefix ct body b Hb) as Hw.
  unfold wp in Hw. destruct (Create prefix ct body b) as [[err|blob'] b''| |]; try done; injection Hpost as _ <-.
  - destruct Hw as (? & Hsame & _). apply IH; [done|]. by rewrite Hsame.
  - destruct Hw as (? & bytes' & _ & Hnew & Hs & _). apply IH; [done|]. rewrite Hs.
    case_decide as Heq; [|done]. congruence.
Qed.

(** C28: a post to the blob API is refused with 400 exactly if it has no content
    type and with 500 only if its body cannot be read or the store fails, and
    then stores nothing. Otherwise its bytes are got back unchanged under the id
    in the reply, under any prefix and whatever is posted in between; a get is
    answered with 500 only if the store fails. This holds of any store with the
    laws, so of both implementations; the in-memory store never fails. *)
Theorem blob_roundtrip (contentType prefix : string) (body : reader) (b : B) :
  store_ok b →
  ∃ reply b', createBlob contentType prefix body b = Ret reply b' ∧
    match reply with
    | JSON status blob => status = 200 ∧ contentType ≠ "" ∧ blob_ContentType blob = contentType
        ∧ ∃ bytes, body = inr bytes ∧ blob_Length blob = int64 (Z.of_nat (length bytes))
        ∧ ∀ b2, rtc posted b' b2 → ∀ p, ∃ got b3, getBlob p (blob_ID blob) true b2 = Ret got b3
            ∧ (can_read b2 → got = Body bytes) ∧ (got = Body bytes ∨ got = AbortWithError 500)
    | AbortWithError status =>
        (if decide (contentType = "") then status = 400
         else status = 500 ∧ (can_create b → ∃ err, body = inl err))
        ∧ ∀ id, contents b' id = contents b id
    | Body _ => False
    end.
Proof.
  intros Hb. unfold createBlob at 1. destruct contentType as [|a ct]; simpl.
  { eexists (AbortWithError 400), b. by split. }
  unfold mbind, M_bind. pose proof (Create_spec prefix (String.String a ct) body b Hb) as Hw.
  apply wp_run in Hw as (r & b' & Hrun & Hb' & Hr). rewrite Hrun. destruct r as [err|blob].
  { destruct Hr as [Hsame Hc]. eexists (AbortWithError 500), b'. by split. }
  destruct Hr as (bytes & -> & _ & Hc & Hct & Hlen). eexists (JSON 200 blob), b'. split; [done|].
  split_and!; [done..|]. exists bytes. split_and!; [done|done|].
  intros b2 Hposts p.
  destruct (posted_keeps b' b2 (blob_ID blob) bytes Hposts) as [Hb2 Hc2]; [done|by rewrite Hc, decide_True|].
  unfold getBlob, mbind, M_bind. pose proof (Read_spec p (blob_ID blob) b2 Hb2) as Hw.
  apply wp_run in Hw as (r & b3 & Hread & _ & _ & Hr). rewrite Hread. eexists _, b3. split; [done|].
  destruct r as [[|err]|got]; [congruence|by split; [|right]|]. assert (got = bytes) as -> by congruence. auto.
Qed.
End blob_properties.

(** Neither store looks at the prefix (the flow) a blob was created under. *)
Lemma read_ignores_prefix p1 p2 id :
  mem_Read p1 id = mem_Read p2 id ∧ sql_Read p1 id = sql_Read p2 id.
Proof. done. Qed.

Lemma blob_roundtrip_witness :
  ∃ reply b', createBlob "text/plain" "flow" (inr [104; 105]) NewInMemBlobStore = Ret reply b' ∧
    ∃ blob, reply = JSON 200 blob ∧ blob_ContentType blob = "text/plain"
      ∧ ∀ b2, rtc posted b' b2 → ∀ p, ∃ b3, getBlob p (blob_ID blob) true b2 = Ret (Body [104; 105]) b3.
Proof.
  destruct (blob_roundtrip "text/plain" "flow" (inr [104; 105]) NewInMemBlobStore) as (reply & b' & Hrun & Hr).
  { intros id [x Hx]. vm_compute in Hx. destruct id; discriminate Hx. }
  exists reply, b'. split; [exact Hrun|]. destruct reply as [status|status blob|bytes]; [|exists blob|done].
  - destruct Hr as [[_ Hc] _]. by destruct (Hc I).
  - destruct Hr as (-> & _ & Hct & bytes & Hb & _ & Hget). injection Hb as <-. split_and!; [done..|].
    intros b2 Hp p. destruct (Hget b2 Hp p) as (got & b3 & Hg & Hok & _). exists b3. by rewrite <- (Hok I).
Defined.
