(* ===== verification/HttpApi.v ===== *)
(** * The endpoints of the API server (src/server/server.go, blobs/blobapi.go)

    The functions the engine's routes are registered with: ping, the REST
    gateway, the metrics, the description of the API, and the blobs. The
    gateway (see [GatewayForward]), the handler of the metrics and the encoding
    of a blob as JSON are parameters here. A blob is written as one chunk. *)

From S2P Require Import Prelude Model Uuid Http GatewayRuntime Gateway GatewayForward Prometheus Metrics Tracing.
From S2P Require Import Server Engine Assets Blobs.
Local Open Scope Z_scope.

Section endpoints.
Context {S B : Type} `{!BlobStore B} `{!Gzip}.
(** The blob store in the world. *)
Context (store : S → B) (put_store : B → S → S).
Context (swagger : string).
Context (gateway : http_request → M (S * ResponseWriter) unit).
Context (promHandler : M (S * ResponseWriter) unit).
Context (encode_blob : Blob → string + string).
Context (r : http_request) (contentType : string) (body : reader).
Abbreviation C := (gin_Context S).

(** ** gin's rendering: an error of the encoder or of the write is a panic *)

Definition Render (code : Z) (contentType : string) (data : string + string) : M C unit :=
  on_io (WriteHeader code);;
  match data with
  | inl err => panic (PanicError err)
  | inr buf =>
      on_io (on_header (λ h, if decide (h !! "Content-Type" = None) then <["Content-Type" := [contentType]]> h else h));;
      err ← on_io (Write buf);
      match err with Some e => panic (PanicError e) | None => mret tt end
  end.

(** ** The endpoints *)

Definition ping : M C unit := on_io (WriteHeader 200).
Definition handlePrometheusMetrics : M C unit := on_io promHandler.

Definition serve_swagger : M C unit :=
  f ← on_io (world (handleSwagger swagger));
  match f with
  | SwaggerFailed status err => Engine.AbortWithError status err
  | SwaggerData status contentType file => Render status contentType (inr (default "" file))
  end.

(** The reply of a blob handler as a response. *)
Definition write_reply (reply : http_reply) : M C unit :=
  match reply with
  | AbortWithError status => Engine.AbortWithError status "blob"
  | JSON status blob => Render status "application/json; charset=utf-8" (encode_blob blob)
  | Body bytes =>
      err ← on_io (Write (string_of bytes));
      match err with Some e => Engine.AbortWithError 500 e | None => mret tt end
  end.
Definition serve_createBlob (prefix : string) : M C unit :=
  on_io (world (zoom store put_store (createBlob contentType prefix body))) ≫= write_reply.
Definition serve_getBlob (prefix blobID : string) : M C unit :=
  on_io (world (zoom store put_store (getBlob prefix blobID true))) ≫= write_reply.

Definition endpoint_function (e : endpoint) (params : gmap string string) : M C unit :=
  let param name := default "" (params !! name) in
  match e with
  | Ping => ping
  | ServeGateway => on_io (gateway r)
  | PrometheusMetrics => handlePrometheusMetrics
  | Swagger => serve_swagger
  | CreateBlob => serve_createBlob (param "prefix")
  | GetBlob => serve_getBlob (param "prefix") (param "blobId")
  end.
End endpoints.

(** ** They keep what the engine relies on *)

Section facts.
Context {S B : Type} `{!BlobStore B} `{!StoreLaws B} `{!Gzip}.
Context (store : S → B) (put_store : B → S → S).
Hypothesis store_put : ∀ b s, store (put_store b s) = b.
Context (swagger : string) (gateway : http_request → M (S * ResponseWriter) unit) (promHandler : M (S * ResponseWriter) unit).
Context (encode_blob : Blob → string + string) (r : http_request) (contentType : string) (body : reader).

Definition blobs_ok (s : S) : Prop := store_ok (store s).
Hypothesis gateway_ok : io_ok blobs_ok (gateway r).
Hypothesis prom_ok : io_ok blobs_ok promHandler.

Lemma wb_Render code ct data : well_behaved blobs_ok (Render code ct data).
Proof.
  apply wb_bind; [by apply wb_io, io_response|]. intros []. destruct data as [err|buf]; [apply wb_panic|].
  apply wb_bind; [by apply wb_io, io_response|]. intros []. apply wb_bind; [apply wb_io, io_Write|].
  intros [e|]; [apply wb_panic|apply wb_ret].
Qed.

Lemma wb_write_reply reply : well_behaved blobs_ok (write_reply encode_blob reply).
Proof.
  destruct reply; simpl; [apply wb_abort_error|apply wb_Render|].
  apply wb_bind; [apply wb_io, io_Write|]. intros [e|]; [apply wb_abort_error|apply wb_ret].
Qed.

(** An operation of the store that returns and keeps it in order. *)
Lemma wb_store {A} (m : M B A) : (∀ b, store_ok b → wp m (λ _, store_ok) b) →
  well_behaved blobs_ok (on_io (world (zoom store put_store m))).
Proof.
  intros Hm. apply wb_io, io_world. intros s Hs. specialize (Hm _ Hs). unfold ends, zoom, blobs_ok, wp in *.
  destruct (m (store s)); [|done|done]. by rewrite store_put.
Qed.

Lemma createBlob_ok prefix b : store_ok b → wp (createBlob contentType prefix body) (λ _, store_ok) b.
Proof.
  intros Hb. unfold createBlob. destruct (String.length contentType =? 0)%nat; [by apply wp_ret|]. apply wp_bind.
  eapply wp_mono; [by apply Create_spec|]. intros rep b' [Hb' _]. by apply wp_ret.
Qed.
Lemma getBlob_ok prefix blobID copied b : store_ok b → wp (getBlob prefix blobID copied) (λ _, store_ok) b.
Proof.
  intros Hb. unfold getBlob. apply wp_bind. eapply wp_mono; [by apply Read_spec|]. intros rep b' [Hb' _]. by apply wp_ret.
Qed.

Lemma endpoint_function_ok e params :
  well_behaved blobs_ok
    (endpoint_function store put_store swagger gateway promHandler encode_blob r contentType body e params).
Proof.
  destruct e; simpl.
  - by apply wb_io, io_response.
  - by apply wb_io.
  - by apply wb_io.
  - apply wb_bind; [|by intros []; [apply wb_abort_error|apply wb_Render]]. apply wb_io, io_world. intros s Hs.
    unfold ends. by rewrite handleSwagger_reply.
  - apply wb_bind; [|apply wb_write_reply]. apply wb_store. apply createBlob_ok.
  - apply wb_bind; [|apply wb_write_reply]. apply wb_store. intros b. apply getBlob_ok.
Qed.

Context (grpc_ServeHTTP : http_request → M (S * ResponseWriter) unit) (redirects : http_request → option Z).
Hypothesis grpc_ok : ∀ r, io_ok blobs_ok (grpc_ServeHTTP r).

(** The function of an endpoint of this server. *)
Abbreviation functions := (endpoint_function store put_store swagger gateway promHandler encode_blob r contentType body).

(** C17: every HTTP request on the API port is answered, whatever its method,
    path and body, if the functions behind the engine (the gRPC server, the
    gateway, the metrics, the blob store) return or panic: the engine returns, a
    status goes out, and the blob store is left in order. A request that gin
    redirects runs no function and is not counted. For the others, when the
    functions of the chain behind the counters return, the request is counted
    once, and as an error exactly when they have recorded one, and the status sent
    is the one they have sent or else noted; when they panic, failed writes
    included, it is not counted, and the status sent is 500 unless they had
    already sent one. *)
Theorem http_requests_answered proto s outs k :
  blobs_ok s →
  ∃ c, handleHTTPRequest grpc_ServeHTTP functions redirects proto r (new_context s (new_response outs) k) = Ret tt c
    ∧ is_Some (w_sent (c_writer c)) ∧ blobs_ok (c_world c)
    ∧ match engine_dispatch r, redirects r with
      | None, Some _ => c_world c = s ∧ c_counters c = k
      | _, _ =>
          match handled_by grpc_ServeHTTP functions proto r s outs k with
          | Ret _ c1 => c_world c = c_world c1
              ∧ c_counters c = {| httpRequestsServed := httpRequestsServed k + 1;
                   httpErrorsCounter := httpErrorsCounter k + (if (0 <? length (c_Errors c1))%nat then 1 else 0) |}
              ∧ w_sent (c_writer c) = Some (default (w_status (c_writer c1)) (w_sent (c_writer c1)))
          | Panic _ c1 => c_world c = c_world c1 ∧ c_counters c = k
              ∧ w_sent (c_writer c) = Some (default 500 (w_sent (c_writer c1)))
          | OutOfFuel => False
          end
      end.
Proof.
  intros Hs.
  destruct (engine_answers blobs_ok grpc_ServeHTTP functions redirects (λ r, wb_io _ _ (grpc_ok r)) endpoint_function_ok
    proto r s outs k Hs) as (c & Hc & Hw & Hb & Ha).
  exists c. split_and!; [done..|]. unfold answered in Ha.
  destruct (engine_dispatch r), (redirects r); [| |by destruct Ha as (? & ? & _)|];
    (destruct (handled_by _ _ _ _ _ _ _) as [[] c1| |]; [|done|done]); destruct Ha as (? & -> & <- & ?); by split_and!.
Qed.
End facts.

(** ** A request for a blob whose reader goes away *)

Definition sample_store : inMemBlobStore := {| blobs := {[ "0" := bytes_of "abc" ]}; count := 1 |}.
Definition plain_text (text : string) : M (inMemBlobStore * ResponseWriter) unit := Write text;; mret tt.
Definition get_blob : http_request :=
  {| r_method := "GET"; r_path := "/blobs/flow/0"; r_content_type := ""; r_override := ""; r_form_error := None |}.
Definition no_gzip : Gzip :=
  {| gzip_NewReader _ := None; gzip_Copy _ := ("{}", None); gzip_Close _ := None |}.
#[local] Existing Instances no_gzip.

Definition serve_sample (outs : list (option string)) : outcome (gin_Context inMemBlobStore) unit :=
  handleHTTPRequest (λ _, plain_text "grpc")
    (endpoint_function (λ b, b) (λ b _, b) "" (λ _, http_Error "no gateway" 404) (plain_text "metrics")
       (λ b, inr (blob_ID b)) get_blob "" (inr [])) (λ _, None) 1 get_blob
    (new_context sample_store (new_response outs) {| httpRequestsServed := 0; httpErrorsCounter := 0 |}).

Example serve_sample_ok :
  (λ c, (w_sent (c_writer c), w_body (c_writer c), httpRequestsServed (c_counters c), httpErrorsCounter (c_counters c)))
    <$> (match serve_sample [] with Ret _ c => Some c | _ => None end) = Some (Some 200, ["abc"], 1, 0).
Proof. vm_compute. reflexivity. Qed.
Example serve_sample_gone :
  (λ c, (w_sent (c_writer c), w_body (c_writer c), httpRequestsServed (c_counters c), httpErrorsCounter (c_counters c)))
    <$> (match serve_sample [Some "broken pipe"] with Ret _ c => Some c | _ => None end) = Some (Some 200, [], 1, 1).
Proof. vm_compute. reflexivity. Qed.

(** The branch to the gRPC server does not abort the chain: a gRPC request whose
    path is that of an endpoint is served by both. *)
Definition grpc_metrics : http_request :=
  {| r_method := "GET"; r_path := "/metrics"; r_content_type := "application/grpc"; r_override := ""; r_form_error := None |}.
Example grpc_request_served_twice :
  (λ c, w_body (c_writer c)) <$>
    (match handleHTTPRequest (λ _, plain_text "grpc")
        (endpoint_function (λ b, b) (λ b _, b) "" (λ _, http_Error "no gateway" 404) (plain_text "metrics")
           (λ b, inr (blob_ID b)) grpc_metrics "" (inr [])) (λ _, None) 2 grpc_metrics
        (new_context sample_store (new_response []) {| httpRequestsServed := 0; httpErrorsCounter := 0 |}) with
     | Ret _ c => Some c | _ => None end) = Some ["grpc"; "metrics"].
Proof. vm_compute. reflexivity. Qed.

Lemma io_plain_text I text : io_ok I (plain_text text).
Proof. apply io_bind; [apply io_Write|intros o; apply io_ret]. Qed.

Lemma http_requests_answered_witness :
  ∃ c, serve_sample [Some "broken pipe"] = Ret tt c ∧ is_Some (w_sent (c_writer c)) ∧ mem_store_ok (c_world c)
    ∧ c_counters c = {| httpRequestsServed := 1; httpErrorsCounter := 1 |}.
Proof.
  destruct (http_requests_answered (λ b, b) (λ b _, b) (λ b s, eq_refl) "" (λ _, http_Error "no gateway" 404) (plain_text "metrics")
    (λ b, inr (blob_ID b)) get_blob "" (inr []) (io_http_Error _ _ _) (io_plain_text _ _) (λ _, plain_text "grpc") (λ _, None)
    (λ _, io_plain_text _ _) 1 sample_store [Some "broken pipe"] {| httpRequestsServed := 0; httpErrorsCounter := 0 |})
    as (c & Hc & Hs & Hb & Hk).
  - intros id [x Hx]. unfold sample_store in Hx. cbn [blobs] in Hx. apply lookup_singleton_Some in Hx as [<- _]. exists 0%nat. split; [simpl; lia|reflexivity].
  - exists c. split; [exact Hc|]. split; [exact Hs|]. split; [exact Hb|]. vm_compute in Hk. destruct Hk as (_ & Hk & _). exact Hk.
Defined.
