(* ===== verification/Executor.v ===== *)
(** * The executor (src/actor/executor.go)

    The executor turns the requests of graph actors into HTTP calls to the
    functions platform and each outcome into a [FaasInvocationResponse]. The
    HTTP client, request construction and the JSON codec are parameters; the
    blob store is the interface of [Blobs]. Each handler is written as what it
    does before its call, the call, and what it does with the response; the gauge
    of active calls, which is incremented before the call and decremented when
    the handler returns, is in [ExecutorPool]. *)

From S2P Require Import Prelude Model Uuid Http Blobs.
Local Open Scope Z_scope.

(** ** Requests and responses *)

Record http_Request := { rq_Method : string; rq_URL : string; rq_Header : Header; rq_Body : list Z }.
Record http_Response := { rs_StatusCode : Z; rs_Header : Header; rs_Body : reader }.

Record RuntimeInvokeStageRequest := {
  rt_FlowId : string; rt_StageId : string;
  rt_Args : list (option CompletionResult); rt_Closure : option BlobDatum }.

Definition ToUpper (s : string) : string := string_of (to_upper <$> bytes_of s).

Definition HeaderStageRef : string := "Fnproject-Stageid".
Definition HeaderFlowID : string := "Fnproject-FlowId".
Definition fnCallIDHeader : string := "Fn_call_id".

(** mixins.go *)
Definition BlobDatumFromBlobStoreBlob (b : Blob) : BlobDatum :=
  {| BlobId := blob_ID b; ContentType := blob_ContentType b; Length := blob_Length b |}.

Section Executor.
Context {S : Type} `{!BlobStore S} `{!MapOrder}.
(** [jsonpb]: encoding a request, and decoding a response, of which only the
    result is read. *)
Context (Marshal : RuntimeInvokeStageRequest → option (list Z)).
Context (Unmarshal : list Z → option (option CompletionResult)).
(** [http.NewRequest] accepts this method and URL. *)
Context (valid_request : string → string → bool).
(** [client.Do]: an error or a response. *)
Context (client_Do : http_Request → M S (option http_Response)).
Context (faasAddr : string).

Definition successfulResponse (resp : http_Response) : bool :=
  (200 <=? rs_StatusCode resp) && (rs_StatusCode resp <? 400).

Definition stageFailed (msg : InvokeStageRequest) (errorType : ErrorDatumType) (errorMessage callID : string) :
    FaasInvocationResponse :=
  {| faas_FlowId := istage_FlowId msg; faas_StageId := istage_StageId msg; faas_FunctionId := istage_FunctionId msg;
     faas_Result := Some (NewInternalErrorResult errorType errorMessage); faas_CallId := callID |}.

(** [HandleInvokeStage] up to the call: a response that needs none, or the
    request. *)
Definition stage_prepare (msg : InvokeStageRequest) : M S (FaasInvocationResponse + http_Request) :=
  let runtimeRequest := {| rt_FlowId := istage_FlowId msg; rt_StageId := istage_StageId msg;
                           rt_Args := istage_Args msg; rt_Closure := istage_Closure msg |} in
  match Marshal runtimeRequest with
  | None => mret (inl (stageFailed msg stage_failed "Could not marshal the runtime invoke stage request message." ""))
  | Some buf =>
      let url := faasAddr +:+ "/" +:+ istage_FunctionId msg in
      (* the error of http.NewRequest is dropped, with it the request is nil *)
      req ← deref (if valid_request "POST" url
                   then Some {| rq_Method := "POST"; rq_URL := url; rq_Header := ∅; rq_Body := buf |} else None);
      let h := Header_Set (rq_Header req) "Content-type" "application/json" in
      let h := Header_Set h HeaderFlowID (istage_FlowId msg) in
      let h := Header_Set h HeaderStageRef (istage_StageId msg) in
      mret (inr {| rq_Method := rq_Method req; rq_URL := rq_URL req; rq_Header := h; rq_Body := rq_Body req |})
  end.

(** After the call, with its response unless it failed. *)
Definition stage_finish (msg : InvokeStageRequest) (resp : option http_Response) : M S FaasInvocationResponse :=
  match resp with
  | None =>
      mret (stageFailed msg stage_failed
        "HTTP error on stage invocation: Can the flow service talk to the functions server?" "")
  | Some resp =>
      let callID := Header_Get (rs_Header resp) fnCallIDHeader in
      if negb (successfulResponse resp) then
        if rs_StatusCode resp =? 504
        then mret (stageFailed msg stage_timeout "stage timed out" callID)
        else mret (stageFailed msg stage_failed
               ("Invalid http response from functions platform code " +:+ itoaZ (rs_StatusCode resp)) callID)
      else
        let runtimeResponse := match rs_Body resp with inl _ => None | inr bytes => Unmarshal bytes end in
        match runtimeResponse with
        | None => mret (stageFailed msg invalid_stage_response "Failed to read result from functions service" callID)
        | Some None => mret (stageFailed msg invalid_stage_response "Empty result from functions service" callID)
        | Some (Some result) =>
            mret {| faas_FlowId := istage_FlowId msg; faas_StageId := istage_StageId msg;
                    faas_FunctionId := istage_FunctionId msg; faas_Result := Some result; faas_CallId := callID |}
        end
  end.

Definition HandleInvokeStage (msg : InvokeStageRequest) : M S FaasInvocationResponse :=
  req ← stage_prepare msg;
  match req with
  | inl refusal => mret refusal
  | inr req => resp ← client_Do req; stage_finish msg resp
  end.

Definition invokeFailed (msg : InvokeFunctionRequest) (errorMessage callID : string) : FaasInvocationResponse :=
  {| faas_FlowId := ifun_FlowId msg; faas_StageId := ifun_StageId msg; faas_FunctionId := ifun_FunctionId msg;
     faas_Result := Some (NewInternalErrorResult function_invoke_failed errorMessage); faas_CallId := callID |}.

(** The headers of the response but for the content type, in the order in
    which the map is ranged over. *)
Definition response_headers (iteration : nat) (h : Header) : list HTTPHeader :=
  range_order iteration (map_to_list h).*1 ≫= λ headerName,
    if String.eqb (CanonicalMIMEHeaderKey headerName) "Content-Type" then []
    else (λ val, {| Key := headerName; Value := val |}) <$> default [] (h !! headerName).

(** [HandleInvokeFunction] up to the call, and after it. *)
Definition function_prepare (msg : InvokeFunctionRequest) : M S (FaasInvocationResponse + http_Request) :=
  datum ← deref (ifun_Arg msg);
  let method := ToUpper (HTTPMethod_name (req_Method datum)) in
  body ← match req_Body datum with
         | Some b => Read (ifun_FlowId msg) (BlobId b)
         | None => mret (inr [])
         end;
  match body with
  | inl _ => mret (inl (invokeFailed msg "Failed to read data for invocation" ""))
  | inr bodyReader =>
      let url := faasAddr +:+ "/" +:+ ifun_FunctionId msg in
      if negb (valid_request (ToUpper method) url) then mret (inl (invokeFailed msg "Failed to create HTTP request" ""))
      else
        let h := match req_Body datum with Some b => Header_Set ∅ "Content-Type" (ContentType b) | None => ∅ end in
        let h := foldl (λ h header, Header_Add h (Key header) (Value header)) h (req_Headers datum) in
        mret (inr {| rq_Method := ToUpper method; rq_URL := url; rq_Header := h; rq_Body := bodyReader |})
  end.

Definition function_finish (iteration : nat) (msg : InvokeFunctionRequest) (resp : option http_Response) :
    M S FaasInvocationResponse :=
  match resp with
  | None => mret (invokeFailed msg "Failed to call function" "")
  | Some resp =>
      let callID := Header_Get (rs_Header resp) fnCallIDHeader in
      let contentType := Header_Get (rs_Header resp) "Content-type" in
      let contentType := if String.eqb contentType "" then "application/octet-stream" else contentType in
      let headers := response_headers iteration (rs_Header resp) in
      blob ← Create (ifun_FlowId msg) contentType (rs_Body resp);
      match blob with
      | inl _ => mret (invokeFailed msg "Failed to persist HTTP response data" callID)
      | inr blob =>
          let resultDatum := {| Val := Some (Datum_HttpResp (Some
            {| resp_Headers := headers; resp_Body := Some (BlobDatumFromBlobStoreBlob blob);
               resp_StatusCode := int32 (rs_StatusCode resp) |})) |} in
          mret {| faas_FlowId := ifun_FlowId msg; faas_StageId := ifun_StageId msg;
                  faas_FunctionId := ifun_FunctionId msg;
                  faas_Result := Some {| Successful := successfulResponse resp; result_Datum := Some resultDatum |};
                  faas_CallId := callID |}
      end
  end.

Definition HandleInvokeFunction (iteration : nat) (msg : InvokeFunctionRequest) : M S FaasInvocationResponse :=
  req ← function_prepare msg;
  match req with
  | inl refusal => mret refusal
  | inr req => resp ← client_Do req; function_finish iteration msg resp
  end.

(** [Receive]: a request is handled in a goroutine of its own, whose response
    is told to the sender. *)
Definition exec_Receive (iteration : nat) (r : ExecutorRequest) : M S FaasInvocationResponse :=
  match r with
  | InvokeStage msg => HandleInvokeStage msg
  | InvokeFunction msg => HandleInvokeFunction iteration msg
  end.

(** The same by the parts of the handlers. *)
Definition exec_prepare (r : ExecutorRequest) : M S (FaasInvocationResponse + http_Request) :=
  match r with InvokeStage msg => stage_prepare msg | InvokeFunction msg => function_prepare msg end.
Definition exec_finish (iteration : nat) (r : ExecutorRequest) (resp : option http_Response) : M S FaasInvocationResponse :=
  match r with InvokeStage msg => stage_finish msg resp | InvokeFunction msg => function_finish iteration msg resp end.
Lemma exec_Receive_parts iteration r :
  exec_Receive iteration r =
    (req ← exec_prepare r;
     match req with inl refusal => mret refusal | inr req => resp ← client_Do req; exec_finish iteration r resp end).
Proof. by destruct r. Qed.
End Executor.
