(* ===== verification/MessageValidators.v ===== *)
(** * Validation of the other messages (src/model/model.validator.pb.go)

    The [Validate] methods of events, stream items, responses and the messages
    to and from the executor. The service calls none of them on its own
    messages: what they say about messages the service itself makes is worked
    out here. [CallValidatorIfExists] finds no validator on a timestamp. *)

From S2P Require Import Prelude Model Uuid Blobs Http Executor Stage Graph Persistence GraphActor Validators.
Local Open Scope Z_scope.
Local Open Scope flow_scope.

(** A loop over a repeated field of pointers: nil items are passed over. *)
Definition each_present {A} (name : string) (l : list (option A)) (validate : A → validation) : validation :=
  each name (omap id l) validate.

(** A field of type [timestamp.Timestamp]. *)
Definition Validate_Timestamp (ts : Timestamp) : validation := None.

(** ** Events *)

Definition Validate_StageAddedEvent (this : StageAddedEvent) : validation :=
  if_present "Closure" (added_Closure this) Validate_BlobDatum ;? if_present "Ts" (added_Ts this) Validate_Timestamp.

Definition Validate_StageCompletedEvent (this : StageCompletedEvent) : validation :=
  if_present "Result" (stagecompleted_Result this) Validate_CompletionResult
  ;? if_present "Ts" (stagecompleted_Ts this) Validate_Timestamp.

Definition Validate_FaasInvocationCompletedEvent (this : FaasInvocationCompletedEvent) : validation :=
  if_present "Result" (invoked_Result this) Validate_CompletionResult
  ;? if_present "Ts" (invoked_Ts this) Validate_Timestamp.

(** The events that hold only strings and a timestamp. *)
Definition Validate_Ts (ts : option Timestamp) : validation := if_present "Ts" ts Validate_Timestamp.

Definition Validate_Event (e : Event) : validation :=
  match e with
  | EGraphCreated _ | EDelayScheduled _ | EGraphTerminating _ | EGraphCompleted _ | EGraphCommitted _
  | EStageComposed _ | EFaasInvocationStarted _ => Validate_Ts (GetTs e)
  | EStageAdded e => Validate_StageAddedEvent e
  | EStageCompleted e => Validate_StageCompletedEvent e
  | EFaasInvocationCompleted e => Validate_FaasInvocationCompletedEvent e
  end.

Definition Validate_GraphLifecycleEvent (this : GraphLifecycleEvent) : validation :=
  match life_Val this with
  | Some (GraphLifecycleEvent_GraphCreated e) => nested "GraphCreated" (Validate_Event (EGraphCreated e))
  | Some (GraphLifecycleEvent_GraphCompleted e) => nested "GraphCompleted" (Validate_Event (EGraphCompleted e))
  | None => None
  end.

(** The name of the field that wraps an event in a stream item. *)
Definition wrapper_field (e : Event) : string :=
  match e with
  | EGraphCreated _ => "GraphCreated"
  | EGraphTerminating _ => "GraphTerminating"
  | EGraphCompleted _ => "GraphCompleted"
  | EDelayScheduled _ => "DelayScheduled"
  | EStageAdded _ => "StageAdded"
  | EStageCompleted _ => "StageCompleted"
  | EStageComposed _ => "StageComposed"
  | EFaasInvocationStarted _ => "FaasInvocationStarted"
  | EFaasInvocationCompleted _ => "FaasInvocationCompleted"
  | EGraphCommitted _ => "GraphCommitted"
  end.

Definition Validate_GraphStreamEvent (this : GraphStreamEvent) : validation :=
  if_present "SentTs" (stream_SentTs this) Validate_Timestamp
  ;? match stream_Val this with Some e => nested (wrapper_field e) (Validate_Event e) | None => None end.

(** ** Responses *)

Definition Validate_Response (r : Response) : validation :=
  match r with
  | RAwaitStageResult _ _ result => if_present "Result" result Validate_CompletionResult
  | RCreateGraph _ | RGetGraphState _ _ _ | RAddStage _ _ | RCompleteStageExternally _ _ _
  | RGraphRequestProcessed _ | RError _ => None
  end.

(** ** The executor *)

(** The regular expression for function ids of these messages, on bytes: a dot
    or 1 to 255 characters of a name; a slash and up to 255 characters of a
    path; optionally a question mark and anything but line feeds. The name has
    no slash and the path no question mark, so each group takes all it can. *)
Definition name_char (b : Z) : bool := function_id_char b && negb (b =? 46).
Definition path_char (b : Z) : bool := name_char b || (b =? 47).

Fixpoint take_while (p : Z → bool) (l : list Z) : list Z * list Z :=
  match l with
  | b :: l' => if p b then let '(taken, rest) := take_while p l' in (b :: taken, rest) else ([], l)
  | [] => ([], [])
  end.

Definition query_matches (l : list Z) : bool :=
  match l with
  | [] => true
  | b :: l => (b =? 63) && forallb (λ b, negb (b =? 10)) l
  end.
Definition route_matches (l : list Z) : bool :=
  match l with
  | b :: l => (b =? 47) && (let '(path, rest) := take_while path_char l in
                            (length path <=? 255)%nat && query_matches rest)
  | [] => false
  end.
Definition name_route_matches (l : list Z) : bool :=
  let '(name, rest) := take_while name_char l in
  (1 <=? length name)%nat && (length name <=? 255)%nat && route_matches rest.
Definition app_route_matches (s : string) : bool :=
  match bytes_of s with
  | 46 :: l => route_matches l
  | l => name_route_matches l
  end.

Definition Validate_InvokeFunctionRequest (this : InvokeFunctionRequest) : validation :=
  not_empty "FlowId" (ifun_FlowId this) ;? not_empty "StageId" (ifun_StageId this)
  ;? (if app_route_matches (ifun_FunctionId this) then None else FieldError "FunctionId" invalid_function_id)
  ;? required "Arg" (ifun_Arg this) Validate_HTTPReqDatum.

Definition Validate_InvokeStageRequest (this : InvokeStageRequest) : validation :=
  not_empty "FlowId" (istage_FlowId this) ;? not_empty "StageId" (istage_StageId this)
  ;? (if app_route_matches (istage_FunctionId this) then None else FieldError "FunctionId" must_conform_to_regex)
  ;? each_present "Args" (istage_Args this) Validate_CompletionResult
  ;? required "Closure" (istage_Closure this) Validate_BlobDatum.

Definition Validate_RuntimeInvokeStageRequest (this : RuntimeInvokeStageRequest) : validation :=
  not_empty "FlowId" (rt_FlowId this) ;? not_empty "StageId" (rt_StageId this)
  ;? each_present "Args" (rt_Args this) Validate_CompletionResult
  ;? required "Closure" (rt_Closure this) Validate_BlobDatum.

Record RuntimeInvokeStageResponse := { rt_Result : option CompletionResult }.
Definition Validate_RuntimeInvokeStageResponse (this : RuntimeInvokeStageResponse) : validation :=
  if_present "Result" (rt_Result this) Validate_CompletionResult.

Definition Validate_ExecutorRequest (r : ExecutorRequest) : validation :=
  match r with
  | InvokeStage r => Validate_InvokeStageRequest r
  | InvokeFunction r => Validate_InvokeFunctionRequest r
  end.
Definition executor_FunctionId (r : ExecutorRequest) : string :=
  match r with InvokeStage r => istage_FunctionId r | InvokeFunction r => ifun_FunctionId r end.

(** ** The matcher *)

Example route_1 : app_route_matches "myapp/path/to-fn?x=1" = true.
Proof. reflexivity. Qed.
Example route_2 : app_route_matches "./" = true.
Proof. reflexivity. Qed.
Example route_3 : app_route_matches "my.app/fn" = false.
Proof. reflexivity. Qed.

(** [take_while] is the longest prefix of characters of the class. *)
Lemma take_while_spec p l taken rest :
  take_while p l = (taken, rest) →
  l = taken ++ rest ∧ forallb p taken = true ∧ match rest with b :: _ => p b = false | [] => True end.
Proof.
  revert taken rest. induction l as [|b l IH]; intros taken rest; simpl; [by intros [= <- <-]|].
  destruct (p b) eqn:Hb; [|by intros [= <- <-]].
  destruct (take_while p l) as [t r] eqn:Hl. intros [= <- <-].
  destruct (IH t r eq_refl) as (-> & Ht & Hr). simpl. rewrite Hb, Ht. done.
Qed.

Lemma route_slash l : route_matches l = true → 47 ∈ l.
Proof.
  destruct l as [|b l]; [done|]. simpl. intros [[= ->%Z.eqb_eq] _]%andb_prop. left.
Qed.
Lemma name_route_slash l : name_route_matches l = true → 47 ∈ l.
Proof.
  unfold name_route_matches. destruct (take_while name_char l) as [name rest] eqn:Ht.
  apply take_while_spec in Ht as (-> & _). intros [_ Hr]%andb_prop. apply elem_of_app. right. by apply route_slash.
Qed.
Lemma app_route_slash s : app_route_matches s = true → 47 ∈ bytes_of s.
Proof.
  unfold app_route_matches. destruct (bytes_of s) as [|b l]; [done|].
  destruct (decide (b = 46)) as [->|Hb]; [intros Hr; right; by apply route_slash|].
  intros Hm. apply name_route_slash. by repeat case_match.
Qed.
Lemma function_id_no_slash s : function_id_matches s = true → 47 ∉ bytes_of s.
Proof.
  unfold function_id_matches. intros [Hall _]%andb_prop Hin.
  rewrite forallb_forall in Hall. apply list_elem_of_In in Hin. by specialize (Hall _ Hin).
Qed.

(** The two expressions for function ids in the model exclude each other: a
    function id that the service accepts in a request never passes the
    validator of the message in which the service hands it to the executor. *)
Theorem accepted_function_id_invalid_downstream r :
  function_id_matches (executor_FunctionId r) = true → Validate_ExecutorRequest r ≠ None.
Proof.
  intros Hid. assert (app_route_matches (executor_FunctionId r) = false) as Hno.
  { apply not_true_is_false. intros ?%app_route_slash. by eapply function_id_no_slash. }
  destruct r as [r|r]; simpl in *; intros [_ [_ Hv]%and_then_None]%and_then_None; by rewrite Hno in Hv.
Qed.

(** ** Results of the executor *)

(** Every failure the executor reports is a valid message. *)
Lemma internal_error_valid code msg : Validate_CompletionResult (NewInternalErrorResult code msg) = None.
Proof. done. Qed.


Lemma nested_None name v : nested name v = None → v = None.
Proof. by destruct v. Qed.
Lemma empty_blob_invalid b : Length b = 0 → Validate_BlobDatum b ≠ None.
Proof. intros Hb [_ [_ Hl]%and_then_None]%and_then_None. unfold greater_than in Hl. by rewrite Hb in Hl. Qed.
Lemma empty_response_invalid ok b hs status name :
  Length b = 0 →
  nested name (Validate_CompletionResult {| Successful := ok; result_Datum := Some {| Val := Some (Datum_HttpResp (Some
    {| resp_Body := Some b; resp_Headers := hs; resp_StatusCode := status |})) |} |}) ≠ None.
Proof.
  intros Hb Hv. apply nested_None in Hv. apply (nested_None "Datum"), (nested_None "HttpResp") in Hv.
  apply and_then_None in Hv as [Hv _]. apply (nested_None "Body") in Hv. by eapply empty_blob_invalid.
Qed.

(** A function that answers with an empty body gets its stage a result that
    the service does not accept back: the validators require blobs of positive
    length, in every request that carries a result. *)
Theorem empty_body_result_not_accepted `{!MapOrder} Marshal Unmarshal valid_request client_Do faasAddr iteration
    flow stage function (meth : HTTPMethod) resp (s : inMemBlobStore) :
  (∀ rq, client_Do rq s = Ret (Some resp) s) → rs_Body resp = inr [] →
  valid_request (ToUpper (ToUpper (HTTPMethod_name meth))) (faasAddr +:+ "/" +:+ function) = true →
  ∃ answer s' result,
    exec_Receive Marshal Unmarshal valid_request client_Do faasAddr iteration
      (InvokeFunction {| ifun_FlowId := flow; ifun_StageId := stage; ifun_FunctionId := function;
         ifun_Arg := Some {| req_Body := None; req_Headers := []; req_Method := meth |} |}) s = Ret answer s'
    ∧ faas_Result answer = Some result
    ∧ Successful result = successfulResponse resp
    ∧ ∀ loc caller, Validate (CAddCompletedValueStage {| value_FlowId := flow; value_Value := Some result;
        value_CodeLocation := loc; value_CallerId := caller |}) ≠ None.
Proof.
  intros Hdo Hbody Hurl. unfold exec_Receive, HandleInvokeFunction, function_prepare, function_finish, mbind, M_bind. simpl.
  rewrite Hurl. simpl. rewrite Hdo. simpl. rewrite Hbody. simpl.
  do 3 eexists. split_and!; [reflexivity..|]. intros loc caller [_ Hv]%and_then_None.
  by eapply empty_response_invalid; [|exact Hv].
Qed.
