(* ===== verification/ExecutorFacts.v ===== *)
(** * Properties of the executor

    Every request of a graph actor is answered, with the ids of the request
    and a result, so the answer is one the actor can take; the result is the one
    the platform's answer to the call gives; and the response of an invoked
    function is in the blob store under the id in the result. *)

From S2P Require Import Prelude Model Uuid Blobs Http Executor.
From S2P Require Import Stage StageFacts Graph GraphFacts GraphGrowth GraphSpec.
From S2P Require Import Persistence GraphActor ActorSpec ActorCommands ActorTheorems.
Local Open Scope Z_scope.

Section facts.
Context {S : Type} `{!BlobStore S} `{!StoreLaws S} `{!MapOrder}.
Context (Marshal : RuntimeInvokeStageRequest → option (list Z)).
Context (Unmarshal : list Z → option (option CompletionResult)).
Context (valid_request : string → string → bool).
Context (client_Do : http_Request → M S (option http_Response)).
Context (faasAddr : string).

(** The client's timeout bounds every call; a call does not touch the blobs. *)
Definition client_returns : Prop :=
  ∀ rq s, store_ok s → ∃ r s', client_Do rq s = Ret r s' ∧ store_ok s' ∧ ∀ id, contents s' id = contents s id.

Abbreviation receive := (exec_Receive Marshal Unmarshal valid_request client_Do faasAddr).

(** The requests the executor can handle: the URL of the function is valid,
    and a function invocation has an argument. *)
Definition well_formed (r : ExecutorRequest) : Prop :=
  match r with
  | InvokeStage msg => valid_request "POST" (faasAddr +:+ "/" +:+ istage_FunctionId msg) = true
  | InvokeFunction msg => is_Some (ifun_Arg msg)
  end.

Definition request_ids (r : ExecutorRequest) : string * string * string :=
  match r with
  | InvokeStage msg => (istage_FlowId msg, istage_StageId msg, istage_FunctionId msg)
  | InvokeFunction msg => (ifun_FlowId msg, ifun_StageId msg, ifun_FunctionId msg)
  end.
Definition response_ids (r : FaasInvocationResponse) : string * string * string :=
  (faas_FlowId r, faas_StageId r, faas_FunctionId r).

Definition runtime_request (msg : InvokeStageRequest) : RuntimeInvokeStageRequest :=
  {| rt_FlowId := istage_FlowId msg; rt_StageId := istage_StageId msg;
     rt_Args := istage_Args msg; rt_Closure := istage_Closure msg |}.
Definition function_url (function : string) : string := faasAddr +:+ "/" +:+ function.
Definition function_method (datum : HTTPReqDatum) : string := ToUpper (ToUpper (HTTPMethod_name (req_Method datum))).

(** What is stored stays stored. *)
Definition stores (s s' : S) : Prop := ∀ id bytes, contents s id = Some bytes → contents s' id = Some bytes.

(** The call that a request leads to: its URL, method and body, for a function
    the stored bytes that its argument names. *)
Definition call_of (r : ExecutorRequest) (rq : http_Request) (s : S) : Prop :=
  match r with
  | InvokeStage msg => rq_Method rq = "POST" ∧ rq_URL rq = function_url (istage_FunctionId msg)
      ∧ Marshal (runtime_request msg) = Some (rq_Body rq)
  | InvokeFunction msg => rq_URL rq = function_url (ifun_FunctionId msg)
      ∧ ∃ datum, ifun_Arg msg = Some datum ∧ rq_Method rq = function_method datum
        ∧ match req_Body datum with
          | None => rq_Body rq = []
          | Some b => contents s (BlobId b) = Some (rq_Body rq)
          end
  end.

(** Why there is no call: the stage's request could not be encoded; the
    function's is not valid or its body could not be read from the store, as it
    was then. *)
Definition no_call (r : ExecutorRequest) (s : S) : Prop :=
  match r with
  | InvokeStage msg => Marshal (runtime_request msg) = None
  | InvokeFunction msg => ∃ datum, ifun_Arg msg = Some datum ∧
      (valid_request (function_method datum) (function_url (ifun_FunctionId msg)) = false
       ∨ ∃ b s0, req_Body datum = Some b ∧ stores s0 s ∧ (contents s0 (BlobId b) = None ∨ ¬ can_read s0))
  end.

(** The result that the response to the call, or its absence, has to give. A
    stage has the result in the body of a successful response that can be
    decoded, a function the response itself, stored; everything else fails. *)
Definition outcome (r : ExecutorRequest) (http : option http_Response) (result : CompletionResult) (s : S) : Prop :=
  match r, http with
  | _, None => Successful result = false
  | InvokeStage _, Some http =>
      match successfulResponse http, rs_Body http with
      | true, inr bytes => match Unmarshal bytes with
                           | Some (Some v) => result = v
                           | _ => Successful result = false
                           end
      | _, _ => Successful result = false
      end
  | InvokeFunction _, Some http =>
      (∃ bytes blob hs, rs_Body http = inr bytes ∧ contents s (BlobId blob) = Some bytes
         ∧ result = {| Successful := successfulResponse http;
             result_Datum := Some {| Val := Some (Datum_HttpResp (Some
               {| resp_Headers := hs; resp_Body := Some blob; resp_StatusCode := int32 (rs_StatusCode http) |})) |} |})
      ∨ Successful result = false ∧ ((∃ err, rs_Body http = inl err) ∨ ∃ s0, ¬ can_create s0)
  end.

(** The response has the ids of the request, and a result that satisfies [P]. *)
Definition exec_answers (r : ExecutorRequest) (resp : FaasInvocationResponse) (P : CompletionResult → Prop) : Prop :=
  response_ids resp = request_ids r ∧ ∃ result, faas_Result resp = Some result ∧ P result.
Definition exec_refused (r : ExecutorRequest) (resp : FaasInvocationResponse) (s : S) : Prop :=
  no_call r s ∧ exec_answers r resp (λ result, Successful result = false).

Lemma answers_stageFailed msg ty m c (P : CompletionResult → Prop) :
  P (NewInternalErrorResult ty m) → exec_answers (InvokeStage msg) (stageFailed msg ty m c) P.
Proof. intros HP. split; [done|]. by eexists. Qed.
Lemma answers_invokeFailed msg m c (P : CompletionResult → Prop) :
  P (NewInternalErrorResult function_invoke_failed m) → exec_answers (InvokeFunction msg) (invokeFailed msg m c) P.
Proof. intros HP. split; [done|]. by eexists. Qed.

Lemma stores_trans (s1 s2 s3 : S) : stores s1 s2 → stores s2 s3 → stores s1 s3.
Proof. intros H1 H2 id bytes Hb. auto. Qed.

Lemma outcome_stores r http result s s' : stores s s' → outcome r http result s → outcome r http result s'.
Proof.
  intros Hs. destruct r, http as [http|]; simpl; try done.
  intros [(bytes & blob & hs & ? & Hc & ?)|?]; [left|by right]. exists bytes, blob, hs. auto.
Qed.
Lemma call_of_stores r rq s s' : stores s s' → call_of r rq s → call_of r rq s'.
Proof.
  intros Hs. destruct r as [msg|msg]; simpl; [done|]. intros (Hu & datum & Hd & Hm & Hb). split; [done|].
  exists datum. split_and!; [done..|]. destruct (req_Body datum); auto.
Qed.
Lemma exec_refused_stores r resp s s' : stores s s' → exec_refused r resp s → exec_refused r resp s'.
Proof.
  intros Hs [Hn Ha]. split; [|done]. destruct r as [msg|msg]; simpl in *; [done|].
  destruct Hn as (datum & Hd & [Hv|(b & s0 & Hb & H0 & Hc)]); exists datum; split; [done|by left|done|right].
  exists b, s0. split_and!; [done|by eapply stores_trans|done].
Qed.

Lemma exec_prepare_ok r s :
  store_ok s → well_formed r →
  wp (exec_prepare Marshal valid_request faasAddr r) (λ x s', store_ok s' ∧ stores s s' ∧
    match x with inl resp => exec_refused r resp s' | inr rq => call_of r rq s' end) s.
Proof.
  intros Hs Hwf. destruct r as [msg|msg]; simpl in *.
  - unfold stage_prepare. destruct (Marshal _) as [buf|] eqn:Hm.
    + apply wp_bind. rewrite Hwf. apply wp_ret, wp_ret. split_and!; [done|by intros ??|done..].
    + apply wp_ret. split_and!; [done|by intros ??|]. split; [done|by apply answers_stageFailed].
  - destruct Hwf as [datum Hd]. unfold function_prepare. apply wp_bind. apply (wp_deref _ datum); [done|]. apply wp_bind.
    apply (wp_mono _ (λ x s', store_ok s' ∧ stores s s' ∧
      match x, req_Body datum with
      | inr bytes, None => bytes = []
      | inr bytes, Some b => contents s' (BlobId b) = Some bytes
      | inl _, b => ∃ b', b = Some b' ∧ (contents s (BlobId b') = None ∨ ¬ can_read s)
      end)).
    { destruct (req_Body datum) as [b|]; [|by apply wp_ret; split_and!; [|intros ??|]].
      eapply wp_mono; [by apply Read_spec|]. intros x s' (Hs' & Hc & Hx). split; [done|].
      split; [intros id bytes; by rewrite Hc|]. destruct x as [[|]|bytes]; [..|by rewrite Hc]; exists b; auto. }
    intros [err|input] s1 (Hs1 & Hst & Hx).
    + apply wp_ret. split_and!; [done..|]. split; [|by apply answers_invokeFailed]. destruct Hx as (b & Hb & Hc).
      exists datum. split; [done|]. right. by exists b, s.
    + destruct (valid_request _ _) eqn:Hv; simpl; apply wp_ret; split_and!; try done.
      * exists datum. split_and!; [done..|]. simpl. by destruct (req_Body datum).
      * split; [|by apply answers_invokeFailed]. exists datum. auto.
Qed.

Lemma exec_finish_ok iteration r http s :
  store_ok s →
  wp (exec_finish Unmarshal iteration r http) (λ resp s', store_ok s' ∧ stores s s' ∧
    exec_answers r resp (λ result, outcome r http result s')) s.
Proof.
  intros Hs. assert (stores s s) as Hst by by intros ??. destruct r as [msg|msg]; cbn [exec_finish].
  - assert (∀ ty m c, outcome (InvokeStage msg) http (NewInternalErrorResult ty m) s →
      wp (mret (stageFailed msg ty m c)) (λ resp s', store_ok s' ∧ stores s s' ∧
        exec_answers (InvokeStage msg) resp (λ result, outcome (InvokeStage msg) http result s')) s) as Hfail.
    { intros ty m c Ho. apply wp_ret. split_and!; [done|done|by apply answers_stageFailed]. }
    unfold stage_finish. destruct http as [http|]; [|by apply Hfail].
    destruct (successfulResponse http) eqn:Hok; cbn [negb].
    2: { destruct (rs_StatusCode http =? 504); apply Hfail; simpl; by rewrite Hok. }
    destruct (rs_Body http) as [err|bytes] eqn:Hbody; [by apply Hfail; simpl; rewrite Hok, Hbody|].
    destruct (Unmarshal bytes) as [[result|]|] eqn:Hu; try (by apply Hfail; simpl; rewrite Hok, Hbody, Hu).
    apply wp_ret. split_and!; [done|done|]. split; [done|]. exists result. split; [done|]. simpl. by rewrite Hok, Hbody, Hu.
  - unfold function_finish. destruct http as [http|]; [|by apply wp_ret; split_and!; [..|apply answers_invokeFailed]].
    apply wp_bind. eapply wp_mono; [by apply Create_spec|]. intros [err|blob] s3 [Hs3 Hc]; apply wp_ret.
    + destruct Hc as [Hsame Hc]. split_and!; [done|intros id bytes; by rewrite Hsame|]. apply answers_invokeFailed. right.
      split; [done|]. destruct (rs_Body http) as [e|bytes]; [left; by eexists|right]. exists s. intros Hcan. by destruct (Hc Hcan).
    + destruct Hc as (bytes & Hbody & Hnew & Hc & _). split_and!; [done| |].
      * intros id bs Hid. rewrite Hc. case_decide; [congruence|done].
      * split; [done|]. eexists. split; [done|]. left. exists bytes, (BlobDatumFromBlobStoreBlob blob). eexists.
        split_and!; [done| |reflexivity]. simpl. by rewrite Hc, decide_True.
Qed.

(** Where the result of a response comes from: the request was refused before
    any call, or this call was made and answered so. *)
Definition truthful (r : ExecutorRequest) (resp : FaasInvocationResponse) (s' : S) : Prop :=
  exec_refused r resp s'
  ∨ ∃ rq s1 http s2, call_of r rq s' ∧ client_Do rq s1 = Ret http s2
      ∧ exec_answers r resp (λ result, outcome r http result s').

Lemma exec_Receive_ok iteration r s :
  client_returns → store_ok s → well_formed r →
  wp (receive iteration r) (λ resp s', response_ids resp = request_ids r ∧ is_Some (faas_Result resp)
    ∧ truthful r resp s') s.
Proof.
  intros Hdo Hs Hwf. rewrite exec_Receive_parts. apply wp_bind. eapply wp_mono; [by apply exec_prepare_ok|].
  intros [resp|rq] s1 (Hs1 & _ & Hx).
  - apply wp_ret. destruct (Hx) as (_ & Hids & result & Hr & _). split_and!; [done|by eexists|by left].
  - destruct (Hdo rq s1 Hs1) as (http & s2 & Hrun & Hs2 & Hc). apply wp_bind, wp_run. exists http, s2. split; [done|].
    eapply wp_mono; [by apply exec_finish_ok|]. intros resp s3 (_ & Hst & Ha). destruct (Ha) as (Hids & result & Hr & _).
    split_and!; [done|by eexists|]. right. exists rq, s1, http, s2. split_and!; [|done..].
    eapply call_of_stores; [|exact Hx]. intros id bytes Hid. apply Hst. by rewrite Hc.
Qed.


(** ** The executor and the graph actor *)

Context {P : Type} `{!ProviderState P} `{!ReliableProvider P} `{!Clock}.
Context (n : nat) (Hn : (depth_bound ≤ n)%nat).

(** C23: the loop between a graph actor and the executor is
    closed: the answer to any well-formed request an actor has sent is a
    message the actor can take, in whatever state it has reached meanwhile,
    and taking it leads to a reachable state again. *)
Theorem executor_feeds_actor (iteration : nat) (r : ExecutorRequest) (s : S) (a : graphActor P) :
  client_returns → store_ok s → well_formed r →
  reachable n a → ToExecutor r ∈ ga_effects a →
  ∃ resp s' a', receive iteration r s = Ret resp s' ∧ arrives a (CFaasInvocationResponse resp)
    ∧ receiveCommand n (CFaasInvocationResponse resp) a = Ret tt a' ∧ reachable n a'.
Proof.
  intros Hdo Hs Hwf Ha Hin.
  pose proof (exec_Receive_ok iteration r s Hdo Hs Hwf) as Hw.
  apply wp_run in Hw as (resp & s' & Hrun & Hids & [result Hres] & _).
  assert (arrives a (CFaasInvocationResponse resp)) as Harr.
  { split; [by exists result|]. exists r. split; [done|]. destruct r; injection Hids; done. }
  apply reachable_good in Ha as Hg; [|done].
  pose proof (good_receiveCommand n _ a Hn Hg Harr) as Hw.
  apply wp_run in Hw as ([] & a' & Hrec & _).
  exists resp, s', a'. split_and!; try done. by eapply reachable_step.
Qed.
End facts.
