(* ===== verification/ExecutorPool.v ===== *)
(** * The executor's goroutines (src/actor/executor.go)

    The executor actor starts a goroutine for every request: it prepares the
    HTTP request, calls the functions platform, handles the response, and tells
    the result to the sender. A gauge is incremented before the call and
    decremented, by a deferred call, when the handler returns. The goroutines
    share the blob store, which others use too. They interleave freely, so this
    is a transition system whose steps are the parts of the handlers of
    [Executor]: a step between two points where goroutines can be told apart runs
    without interruption. *)

From S2P Require Import Prelude Model Blobs Executor ExecutorFacts.
Local Open Scope Z_scope.

(** ** NewExecutor *)

Record graphExecutor := { exec_faasAddr : string; exec_Timeout : Z (** of the HTTP client, in seconds *) }.
Definition NewExecutor (faasAddress : string) : graphExecutor := {| exec_faasAddr := faasAddress; exec_Timeout := 300 |}.

Section pool.
Context {S : Type} `{!BlobStore S} `{!StoreLaws S} `{!MapOrder}.
Context (Marshal : RuntimeInvokeStageRequest → option (list Z)).
Context (Unmarshal : list Z → option (option CompletionResult)).
Context (valid_request : string → string → bool).
Context (client_Do : http_Request → M S (option http_Response)).
Context (faasAddr : string).
Abbreviation addr := (exec_faasAddr (NewExecutor faasAddr)).

(** A request with its sender; the call made for it, with its outcome. *)
Definition task : Type := string * ExecutorRequest.
Definition made_call : Type := http_Request * option http_Response.

Inductive activity :=
  | Preparing
  | Calling (rq : http_Request)                                          (** in [client.Do] *)
  | Finishing (call : made_call)                                         (** after it *)
  | Replying (call : option made_call) (resp : FaasInvocationResponse).  (** in [sender.Tell] *)

Record pool := {
  running : list (task * activity);
  activeFnCallsMetric : Z;
  received : list task;
  replied : list (task * option made_call * FaasInvocationResponse);
  world : S;
}.
(** [init] sets the gauge to zero. *)
Definition idle (s : S) : pool := {| running := []; activeFnCallsMetric := 0; received := []; replied := []; world := s |}.

Definition move (i : nat) (t : task) (a : activity) (gauge : Z) (s : S) (p : pool) : pool :=
  {| running := <[i := (t, a)]> (running p); activeFnCallsMetric := activeFnCallsMetric p + gauge;
     received := received p; replied := replied p; world := s |}.

Inductive pool_step : pool → pool → Prop :=
  | receive_request p t :
      pool_step p {| running := running p ++ [(t, Preparing)]; activeFnCallsMetric := activeFnCallsMetric p;
                     received := received p ++ [t]; replied := replied p; world := world p |}
  (** no call is made *)
  | refuse p i t resp s : running p !! i = Some (t, Preparing) →
      exec_prepare Marshal valid_request addr t.2 (world p) = Ret (inl resp) s →
      pool_step p (move i t (Replying None resp) 0 s p)
  (** [activeFnCallsMetric.Inc()] *)
  | start_call p i t rq s : running p !! i = Some (t, Preparing) →
      exec_prepare Marshal valid_request addr t.2 (world p) = Ret (inr rq) s →
      pool_step p (move i t (Calling rq) 1 s p)
  | call_returns p i t rq http s : running p !! i = Some (t, Calling rq) → client_Do rq (world p) = Ret http s →
      pool_step p (move i t (Finishing (rq, http)) 0 s p)
  (** the deferred [activeFnCallsMetric.Dec()] *)
  | end_call p i t rq http iteration resp s : running p !! i = Some (t, Finishing (rq, http)) →
      exec_finish Unmarshal iteration t.2 http (world p) = Ret resp s →
      pool_step p (move i t (Replying (Some (rq, http)) resp) (-1) s p)
  | reply p i t call resp : running p !! i = Some (t, Replying call resp) →
      pool_step p {| running := delete i (running p); activeFnCallsMetric := activeFnCallsMetric p;
                     received := received p; replied := replied p ++ [(t, call, resp)]; world := world p |}
  (** others use the blob store, and do not remove anything *)
  | store_used p s : store_ok s → stores (world p) s →
      pool_step p {| running := running p; activeFnCallsMetric := activeFnCallsMetric p;
                     received := received p; replied := replied p; world := s |}.

(** Between the two changes of the gauge. *)
Definition calling (x : task * activity) : Prop :=
  match x.2 with Calling _ | Finishing _ => True | _ => False end.
#[export] Instance calling_dec x : Decision (calling x).
Proof. unfold calling. destruct x as [t []]; simpl; apply _. Defined.

(** A call that was made for a request and answered by the client. *)
Definition call_made (r : ExecutorRequest) (call : made_call) (s : S) : Prop :=
  call_of Marshal faasAddr r call.1 s ∧ ∃ s1 s2, client_Do call.1 s1 = Ret call.2 s2.
(** The response that a request deserves after the call, or without one. *)
Definition deserved (r : ExecutorRequest) (call : option made_call) (resp : FaasInvocationResponse) (s : S) : Prop :=
  match call with
  | None => exec_refused Marshal valid_request faasAddr r resp s
  | Some call => call_made r call s ∧ exec_answers r resp (λ result, outcome Unmarshal r call.2 result s)
  end.

Definition activity_ok (s : S) (x : task * activity) : Prop :=
  match x.2 with
  | Preparing => True
  | Calling rq => call_of Marshal faasAddr x.1.2 rq s
  | Finishing call => call_made x.1.2 call s
  | Replying call resp => deserved x.1.2 call resp s
  end.

Record pool_inv (p : pool) : Prop := {
  pi_gauge : activeFnCallsMetric p = Z.of_nat (length (filter calling (running p)));
  pi_tasks : received p ≡ₚ (running p).*1 ++ (replied p).*1.*1;
  pi_running : Forall (activity_ok (world p)) (running p);
  pi_replied : Forall (λ x, deserved x.1.1.2 x.1.2 x.2 (world p)) (replied p);
  pi_world : store_ok (world p);
}.

Lemma pool_inv_idle s : store_ok s → pool_inv (idle s).
Proof. by split. Qed.

Lemma call_made_stores r call s s' : stores s s' → call_made r call s → call_made r call s'.
Proof. intros Hs [Hc Hd]. split; [by eapply call_of_stores|done]. Qed.
Lemma deserved_stores r call resp s s' : stores s s' → deserved r call resp s → deserved r call resp s'.
Proof.
  intros Hs. destruct call as [call|]; [|by apply exec_refused_stores]. intros [Hc (Hids & result & Hr & Ho)].
  split; [by eapply call_made_stores|]. split; [done|]. exists result. split; [done|]. by eapply outcome_stores.
Qed.
Lemma activity_stores s s' x : stores s s' → activity_ok s x → activity_ok s' x.
Proof.
  intros Hs. destruct x as [t [| | |]]; [done|by apply call_of_stores|by apply call_made_stores|by apply deserved_stores].
Qed.
Lemma stores_refl (s : S) : stores s s.
Proof. by intros id bytes. Qed.

(** The goroutine at a position, and the others. *)
Lemma running_split p i x : running p !! i = Some x →
  running p = take i (running p) ++ x :: drop (Datatypes.S i) (running p)
  ∧ (∀ y, <[i := y]> (running p) = take i (running p) ++ y :: drop (Datatypes.S i) (running p))
  ∧ delete i (running p) = take i (running p) ++ drop (Datatypes.S i) (running p).
Proof.
  intros Hi. split_and!; [by rewrite take_drop_middle| |apply delete_take_drop].
  intros y. apply insert_take_drop. by eapply lookup_lt_Some.
Qed.

Lemma pool_inv_move p i t a a' (gauge : Z) s :
  pool_inv p → running p !! i = Some (t, a) →
  gauge = (if decide (calling (t, a')) then 1 else 0) - (if decide (calling (t, a)) then 1 else 0) →
  store_ok s → stores (world p) s → activity_ok s (t, a') → pool_inv (move i t a' gauge s p).
Proof.
  intros [Hg Ht Hr Hd Hw] Hi Hgauge Hs Hst Ha. destruct (running_split p i _ Hi) as (Hl & Hins & _). split; simpl.
  - rewrite Hins, Hg. rewrite Hl at 1. rewrite !filter_app, !filter_cons, !length_app, Hgauge.
    repeat case_decide; simpl; lia.
  - rewrite Hins, Ht. rewrite Hl at 1. by rewrite !fmap_app.
  - apply Forall_insert; [|done]. eapply Forall_impl; [exact Hr|]. intros x. by apply activity_stores.
  - eapply Forall_impl; [exact Hd|]. intros x. by apply deserved_stores.
  - done.
Qed.

Lemma pool_inv_step p p' :
  client_returns client_Do → (∀ t, t ∈ received p → well_formed valid_request faasAddr t.2) →
  pool_inv p → pool_step p p' → pool_inv p'.
Proof.
  intros Hdo Hwf Hp Hstep. pose proof (pi_world _ Hp) as Hw.
  assert (∀ i t a, running p !! i = Some (t, a) → activity_ok (world p) (t, a) ∧ well_formed valid_request faasAddr t.2) as Hrun.
  { intros i t a Hi. split; [by eapply Forall_lookup_1; [apply Hp|]|]. apply Hwf. rewrite (pi_tasks _ Hp).
    apply elem_of_app. left. apply list_elem_of_fmap. exists (t, a). split; [done|]. by eapply list_elem_of_lookup_2. }
  destruct Hstep as [p t|p i t resp s Hi Hx|p i t rq s Hi Hx|p i t rq http s Hi Hx|p i t rq http it resp s Hi Hx|
    p i t call resp Hi|p s Hs Hst].
  - destruct Hp as [Hg Ht Hr Hd _]. split; simpl; [| | |done|done].
    + rewrite filter_app, length_app, Hg. simpl. lia.
    + rewrite Ht, fmap_app. simpl. by rewrite <- !app_assoc, (Permutation_app_comm [t]).
    + apply Forall_app. split; [done|]. by repeat constructor.
  - destruct (Hrun _ _ _ Hi) as [_ Hwt]. pose proof (exec_prepare_ok Marshal valid_request faasAddr _ _ Hw Hwt) as Hok.
    unfold wp in Hok. simpl in Hx. rewrite Hx in Hok. destruct Hok as (Hs & Hst & Ha). by eapply pool_inv_move.
  - destruct (Hrun _ _ _ Hi) as [_ Hwt]. pose proof (exec_prepare_ok Marshal valid_request faasAddr _ _ Hw Hwt) as Hok.
    unfold wp in Hok. simpl in Hx. rewrite Hx in Hok. destruct Hok as (Hs & Hst & Ha). by eapply pool_inv_move.
  - destruct (Hrun _ _ _ Hi) as [Hc _]. destruct (Hdo rq (world p) Hw) as (http' & s' & Hx' & Hs & Hsame).
    rewrite Hx in Hx'. injection Hx' as <- <-. assert (stores (world p) s) as Hst by (intros id bytes; by rewrite Hsame).
    eapply pool_inv_move; [done..|]. split; [by eapply call_of_stores|]. by exists (world p), s.
  - destruct (Hrun _ _ _ Hi) as [Hc _]. pose proof (exec_finish_ok Unmarshal it t.2 http _ Hw) as Hok.
    unfold wp in Hok. rewrite Hx in Hok. destruct Hok as (Hs & Hst & Ha). eapply pool_inv_move; [done..|].
    split; [by eapply call_made_stores|done].
  - destruct (Hrun _ _ _ Hi) as [Hc _]. destruct Hp as [Hg Ht Hr Hd _].
    destruct (running_split p i _ Hi) as (Hl & _ & Hdel). split; simpl; [| | | |done].
    + rewrite Hdel, Hg. rewrite Hl at 1. rewrite !filter_app, !filter_cons, !length_app. simpl. done.
    + rewrite Hdel, Ht. rewrite Hl at 1. rewrite !fmap_app, fmap_cons. simpl.
      rewrite <- Permutation_middle, <- !app_assoc, <- Permutation_cons_append. simpl. solve_Permutation.
    + rewrite Hdel. rewrite Hl in Hr. apply Forall_app in Hr as [? [_ ?]%Forall_cons]. by apply Forall_app.
    + apply Forall_app. split; [done|]. by repeat constructor.
  - destruct Hp as [Hg Ht Hr Hd _]. split; simpl; try done.
    + eapply Forall_impl; [exact Hr|]. intros x. by apply activity_stores.
    + eapply Forall_impl; [exact Hd|]. intros x. by apply deserved_stores.
Qed.

Lemma pool_step_received p p' : pool_step p p' → ∃ l, received p' = received p ++ l.
Proof. destruct 1; simpl; first [by exists []; rewrite app_nil_r|by eexists]. Qed.

Lemma pool_reachable s p :
  client_returns client_Do → store_ok s → rtc pool_step (idle s) p →
  (∀ t, t ∈ received p → well_formed valid_request faasAddr t.2) → pool_inv p.
Proof.
  intros Hdo Hs. apply (rtc_ind_r (λ p, (∀ t, t ∈ received p → well_formed valid_request faasAddr t.2) → pool_inv p)).
  { intros _. by apply pool_inv_idle. }
  intros p1 p2 _ Hst IH Hwf. destruct (pool_step_received _ _ Hst) as [l Hl].
  assert (∀ t, t ∈ received p1 → well_formed valid_request faasAddr t.2) as Hwf1.
  { intros t Ht. apply Hwf. rewrite Hl. set_solver. }
  eapply pool_inv_step; eauto.
Qed.

(** ** The executor comes to rest *)

(** How much a goroutine has left to do. *)
Definition remaining (a : activity) : nat :=
  match a with Preparing => 4 | Calling _ => 3 | Finishing _ => 2 | Replying _ _ => 1 end.

(** A goroutine that is not done can take a step. *)
Lemma can_step p t a l :
  client_returns client_Do → store_ok (world p) → well_formed valid_request faasAddr t.2 → running p = (t, a) :: l →
  ∃ p', pool_step p p' ∧ received p' = received p
    ∧ (running p' = l ∨ ∃ a', running p' = (t, a') :: l ∧ (remaining a' < remaining a)%nat).
Proof.
  intros Hdo Hw Hwf Hr. assert (running p !! 0%nat = Some (t, a)) as H0 by by rewrite Hr.
  destruct a as [|rq|[rq http]|call resp].
  - pose proof (exec_prepare_ok Marshal valid_request faasAddr _ _ Hw Hwf) as Hok.
    apply wp_run in Hok as ([resp|rq] & s & Hx & _); eexists.
    + split; [by eapply refuse|]. simpl. rewrite Hr. split; [done|]. right. eexists. split; [done|]. simpl. lia.
    + split; [by eapply start_call|]. simpl. rewrite Hr. split; [done|]. right. eexists. split; [done|]. simpl. lia.
  - destruct (Hdo rq (world p) Hw) as (http & s & Hx & _). eexists. split; [by eapply call_returns|].
    simpl. rewrite Hr. split; [done|]. right. eexists. split; [done|]. simpl. lia.
  - pose proof (exec_finish_ok Unmarshal 0 t.2 http _ Hw) as Hok. apply wp_run in Hok as (resp & s & Hx & _).
    eexists. split; [by eapply end_call|]. simpl. rewrite Hr. split; [done|]. right. eexists. split; [done|]. simpl. lia.
  - eexists. split; [by eapply reply|]. simpl. rewrite Hr. split; [done|]. by left.
Qed.

Lemma drain p :
  client_returns client_Do → (∀ t, t ∈ received p → well_formed valid_request faasAddr t.2) → pool_inv p →
  ∃ p', rtc pool_step p p' ∧ running p' = [] ∧ received p' = received p ∧ pool_inv p'.
Proof.
  intros Hdo. remember (sum_list_with (λ x, remaining x.2) (running p)) as k eqn:Hk. revert p Hk.
  induction k as [k IH] using lt_wf_ind. intros p Hk Hwf Hp. destruct (running p) as [|[t a] l] eqn:Hr; [by exists p|].
  destruct (can_step p t a l) as (p1 & Hst & Hrec & Hcase); [done|apply Hp| |done|].
  { apply Hwf. rewrite (pi_tasks _ Hp), Hr. set_solver. }
  assert (pool_inv p1) as Hp1 by by eapply pool_inv_step.
  destruct (IH (sum_list_with (λ x, remaining x.2) (running p1))) with (p := p1) as (p2 & H2 & Hr2 & Hrec2 & Hp2); try done.
  - rewrite Hk. simpl. destruct Hcase as [->|(a' & -> & Hlt)]; simpl; [destruct a; simpl; lia|lia].
  - by rewrite Hrec.
  - exists p2. split_and!; [by eapply rtc_l|done|by rewrite Hrec2|done].
Qed.

(** C24: however the goroutines of the executor interleave, with each other and
    with the other users of the blob store: the gauge is the number of handlers
    that have started their call and have not returned; every request received
    is in work or has been answered, exactly once, to its own sender, with the
    ids of its own flow and stage and the result it deserves: without a call, a
    failure; otherwise the result that the answer of the client to the call of
    this request gives; and from every state the executor can come to rest, with
    every request answered and the gauge back at zero. It is assumed that the
    client's calls return and that the requests are well formed. *)
Theorem executor_replies_once s0 p :
  client_returns client_Do → store_ok s0 →
  rtc pool_step (idle s0) p → (∀ t, t ∈ received p → well_formed valid_request faasAddr t.2) →
  activeFnCallsMetric p = Z.of_nat (length (filter calling (running p)))
  ∧ received p ≡ₚ (running p).*1 ++ (replied p).*1.*1
  ∧ (∀ t call resp, (t, call, resp) ∈ replied p → deserved t.2 call resp (world p))
  ∧ ∃ p', rtc pool_step p p' ∧ received p' = received p ∧ received p ≡ₚ (replied p').*1.*1
      ∧ activeFnCallsMetric p' = 0.
Proof.
  intros Hdo Hs Hrtc Hwf. pose proof (pool_reachable s0 p Hdo Hs Hrtc Hwf) as Hp.
  split_and!; [apply (pi_gauge _ Hp)|apply (pi_tasks _ Hp)| |].
  - intros t call resp Hin. pose proof (pi_replied _ Hp) as Hd. rewrite Forall_forall in Hd. exact (Hd _ Hin).
  - destruct (drain p Hdo Hwf Hp) as (p' & Hrtc' & Hrun & Hrec & Hp'). exists p'. split_and!; [done|done| |].
    + by rewrite <- Hrec, (pi_tasks _ Hp'), Hrun.
    + by rewrite (pi_gauge _ Hp'), Hrun.
Qed.
End pool.
