(* ===== verification/ServiceScenario.v ===== *)
(** * The executor and the replies on the concrete flow

    The theorems of [Replies] and [ExecutorFacts] at the states of
    [Scenario], with the in-memory blob store, a platform that answers every
    call with status 200, and a codec for one result. *)

From S2P Require Import Prelude Model Uuid Blobs Http Executor ExecutorFacts ExecutorPool.
From S2P Require Import Stage Graph Persistence GraphActor ActorSpec ActorCommands.
From S2P Require Import ActorTheorems Replies Validators Scenario.

Definition encode (r : RuntimeInvokeStageRequest) : option (list Z) := Some (bytes_of (rt_StageId r)).
Definition decode (bytes : list Z) : option (option CompletionResult) := Some (Some a_value).
Definition any_request (method url : string) : bool := true.
Definition platform (rq : http_Request) : M inMemBlobStore (option http_Response) :=
  mret (Some {| rs_StatusCode := 200; rs_Header := ∅; rs_Body := inr (rq_Body rq) |}).

Lemma platform_returns : client_returns platform.
Proof. intros rq s Hs. by eexists _, s. Qed.

Lemma empty_store_ok : store_ok NewInMemBlobStore.
Proof. intros id [x Hx]. vm_compute in Hx. destruct id; discriminate Hx. Qed.

(** The request for the second stage of the running flow, and where the actor
    sent it. *)
Definition stage_request : ExecutorRequest :=
  InvokeStage {| istage_FlowId := "flow"; istage_StageId := "1"; istage_FunctionId := "app/fn";
    istage_Args := [Some a_value; Some NewEmptyResult]; istage_Closure := a_closure |}.


(** Two requests in work, one of them in its call, which is in a state that the
    executor reaches. *)
Abbreviation exec_step := (pool_step encode decode any_request platform "http://fn").
Definition platform_call : http_Request :=
  match exec_prepare encode any_request "http://fn" stage_request NewInMemBlobStore with
  | Ret (inr rq) _ => rq
  | _ => {| rq_Method := ""; rq_URL := ""; rq_Header := ∅; rq_Body := [] |}
  end.
Definition two_requests : pool :=
  {| running := [(("graph", stage_request), Calling platform_call); (("graph", stage_request), Preparing)];
     activeFnCallsMetric := 1; received := [("graph", stage_request); ("graph", stage_request)]; replied := [];
     world := NewInMemBlobStore |}.

Lemma executor_replies_once_witness :
  activeFnCallsMetric two_requests = Z.of_nat (length (filter calling (running two_requests)))
  ∧ received two_requests ≡ₚ (running two_requests).*1 ++ (replied two_requests).*1.*1
  ∧ (∀ t call resp, (t, call, resp) ∈ replied two_requests →
       deserved encode decode any_request platform "http://fn" t.2 call resp (world two_requests))
  ∧ ∃ p', rtc exec_step two_requests p'
      ∧ received p' = received two_requests ∧ received two_requests ≡ₚ (replied p').*1.*1 ∧ activeFnCallsMetric p' = 0%Z.
Proof.
  apply (executor_replies_once encode decode any_request platform "http://fn" NewInMemBlobStore);
    [exact platform_returns|exact empty_store_ok| |].
  - eapply rtc_l; [apply (receive_request _ _ _ _ _ _ ("graph", stage_request))|].
    eapply rtc_l; [apply (start_call _ _ _ _ _ _ 0 ("graph", stage_request) platform_call NewInMemBlobStore); reflexivity|].
    apply rtc_once. exact (receive_request _ _ _ _ _ _ ("graph", stage_request)).
  - intros t Ht. assert (t = ("graph", stage_request)) as -> by set_solver. reflexivity.
Defined.

Lemma executor_feeds_actor_witness :
  ∃ resp s' a', exec_Receive encode decode any_request platform "http://fn" 0 stage_request NewInMemBlobStore = Ret resp s'
    ∧ arrives s_running (CFaasInvocationResponse resp)
    ∧ receiveCommand depth_bound (CFaasInvocationResponse resp) s_running = Ret tt a' ∧ reachable depth_bound a'.
Proof.
  apply (executor_feeds_actor encode decode any_request platform "http://fn" depth_bound (le_n _)
    0 stage_request NewInMemBlobStore s_running);
    [exact platform_returns|exact empty_store_ok|reflexivity|exact reach_running|].
  apply (list_elem_of_lookup_2 _ 8). vm_compute. reflexivity.
Defined.

Lemma any_request_is_safe_witness :
  ∃ r s', intercepted (receiveCommand depth_bound) (cmd_add thenApply ["1"]) s_running = Ret r s'
    ∧ reachable depth_bound s' ∧
    match r with
    | inl _ => s' = s_running
    | inr _ => ∃ ef, replies s' = replies s_running ++ [ef] ∧ answers (cmd_add thenApply ["1"]) ef
    end.
Proof.
  exact (any_request_is_safe depth_bound (le_n _) s_running (cmd_add thenApply ["1"]) reach_running eq_refl).
Defined.
